(* ===== verification/_CoqProject ===== *)
-Q . S2P
Prelude.v
Bytes.v
Offsets.v
Heaps.v
Text.v
Settings.v
Segments.v
SegmentSpec.v
SegmentFacts.v
Recovery.v
SegmentProps.v
Backend.v
LogSpec.v
BackendFacts.v
Retention.v
Seek.v
BackendRecovery.v
CrashRecovery.v
BackendProps.v
Publish.v
Refs.v
Files.v
Replace.v
Wire.v
WireFacts.v
WireProps.v
Atoms.v
Locks.v
Calls.v
MetaLock.v
Channels.v
ChannelFacts.v
Queues.v
QueueFacts.v
Delivery.v
Rereading.v
Opening.v
Maintenance.v
Crashes.v
Samples.v
MaintenanceSamples.v
CrashSamples.v
QueueProps.v
Tests.v
Commands.v
CommandProps.v
Scripts.v
Server.v
Tables.v
Mirror.v
Handler.v
HandlerProps.v
Counters.v
Iterations.v
System.v
Startup.v
SystemProps.v
EndToEnd.v
Rounds.v
ServerCrashes.v
Restarts.v
ServerSamples.v
EndToEndSamples.v
ServerCrashSamples.v
ClientTests.v
