(* ===== verification/Prelude.v ===== *)
(** * Floki: a verification development

    Floki is a persistent message queue server that speaks the Redis
    protocol. A queue is a log of messages on disk; channels read it, each
    with its own position, and acknowledge what they read. The development
    models the server from the bytes of the data files to the event loop and
    proves what a client relies on: what was pushed is delivered until it is
    acknowledged, also across a restart, and the server keeps answering.

    ** The parts of the program and where they are

    - Data files ([queue_backend.rs], [Segment], [Message]): [Bytes.v] (raw
      memory), [Offsets.v] ([offset_index.rs] and [cookie.rs]),
      [Segments.v]; specification [SegmentSpec.v], proofs [SegmentFacts.v]
      and [Recovery.v], properties [SegmentProps.v]; [Publish.v] (an append
      beside readers, access by access).
    - The log of a queue ([queue_backend.rs], [QueueBackend]): [Backend.v];
      specification [LogSpec.v] (a log is a first id and a list of messages),
      proofs [BackendFacts.v], [Retention.v] (purge, garbage collection),
      [Seek.v], [BackendRecovery.v], [CrashRecovery.v] (a crash between two
      checkpoints), properties [BackendProps.v]; [Refs.v] (the reference
      counts of segments and [wait_delete_segment]).
    - Channels and queues ([queue.rs], [rev.rs]): [Heaps.v], [Channels.v],
      [Queues.v]; proofs [ChannelFacts.v], [QueueFacts.v], the transition
      system and its invariant [Delivery.v], a consumer that reads on
      [Rereading.v], a queue as it is opened [Opening.v], the maintenance in small steps beside the clients
      [Maintenance.v], the same with the files on disk and crashes
      [Crashes.v], closed runs [Samples.v], [MaintenanceSamples.v] and
      [CrashSamples.v], properties [QueueProps.v].
    - Files ([utils.rs], the writing of the checkpoint files): [Files.v] (a
      tree of files, the helpers), [Replace.v].
    - Locks ([tristate_lock.rs], the guards of [queue.rs], the meta lock of
      [server.rs]): [Locks.v], [Calls.v] and [MetaLock.v].
    - Protocol ([protocol.rs]) and names ([atom.rs]): [Wire.v]; proofs
      [WireFacts.v], properties [WireProps.v]; [Atoms.v].
    - Configuration ([config.rs]) and text functions of the standard library:
      [Settings.v], [Text.v].
    - Commands ([server.rs], [NotifyMessage] and [Dispatch]): [Commands.v],
      properties [CommandProps.v]; [Scripts.v] (a request as a list of
      operations of [Delivery.v]).
    - Event loop ([server.rs], [Server], [Client], [ServerHandler]):
      [Server.v]; [Tables.v] and [Mirror.v] (the loop's table of waiting
      clients against the table of queues), [Handler.v], [HandlerProps.v],
      [Counters.v] and [Iterations.v] (the invariant of the loop, event by
      event).
    - All together: [System.v] (workers, background threads, loop and
      channel as one transition system, with starting), [Startup.v]
      ([main.rs]), [SystemProps.v], [EndToEnd.v] (the same with the record
      of what each channel acknowledged), [Rounds.v] (whole rounds of the
      background threads), [Restarts.v] (stopped and started again),
      [ServerCrashes.v] (the files of all queues beside the server, and a
      crash at any moment), and the closed runs [ServerSamples.v],
      [EndToEndSamples.v] and [ServerCrashSamples.v].
    - The repository's own tests run on the model: [Tests.v] (unit tests),
      [ClientTests.v] ([tests/mod.rs] and [examples/helloworld.rs]).

    ** How the code is modelled

    A function that can panic returns an [outcome]: [Done], [Panic] (a failed
    assertion, [unwrap] of nothing, an overflow in a build with overflow
    checks) or [Undefined] (an access outside owned memory). Errors the code
    returns are values of [result]. Integers are [Z] with their width in the
    operations ([u32], [u64], [as_u32]); the class [Profile] tells the debug
    from the release build, and theorems hold for both unless they say
    otherwise. A struct is a record, a method a function from the old to the
    new state; a [&mut] argument is returned. Strings are lists of bytes,
    hash maps keyed by strings [gmap (list Z)]. Definitions have the names of
    the code, in a module named after the type.

    Third-party code is an interface: a class of operations with, where
    something is proved from it, a class of laws, and an instance that meets
    them: [Hasher], [Json]/[JsonOk], [LinkedHashMap]/[LinkedHashMapOk],
    [Tendril]/[TendrilOk], [EventLoop]/[EventLoopOk]; system calls are the
    record [Os]. Components meet at interfaces too: queues are proved
    against [BackendOk], which [QueueFacts.v] discharges for [QueueBackend].

    Recursion that is not structural has fuel: the recovery loop the length
    of the file (every accepted message takes at least 20 bytes),
    the bisection of [find_id_for_timestamp] the width of its window, the
    parser one more than the length of the body (every value takes at least
    one byte). [recover_terminates], [seek_separates] and [parser_total] say
    that it is never used up.

    Concurrency is modelled where the code has it, one question at a time.
    [Locks.v] and [MetaLock.v] are step relations of the locks alone.
    [Calls.v] puts the methods of [Queue] on top of the lock and says which
    bodies run at the same time. What then overlaps has a step relation of
    its own: readers and an append in one segment ([Publish.v], single memory
    accesses, sequentially consistent), messages and the collection of their
    segment ([Refs.v]), the maintenance and the operations of the clients
    ([Maintenance.v]), several writers of a checkpoint file ([Replace.v]),
    threads that create directories ([Files.v]). [Delivery.v] interleaves
    whole operations of one queue: a channel's operations hold its mutex.
    [System.v] interleaves whole requests, the visits of the two background
    threads, and the single events and ticks of the loop; [EndToEnd.v] adds
    to its steps what they mean for every channel of every queue, so that
    the invariant of [Delivery.v] holds of the queues of the server. In
    [ServerCrashes.v] the maintenance of every queue takes its small steps
    between requests, visits of the monitor and steps of the loop.

    ** What is proved

    - Delivery ([Delivery.v]): every message from a channel's origin on is
      acknowledged or still stored and in flight or unread; nothing is
      delivered again before its time; a restart delivers again what was not
      acknowledged; no operation panics or leaves its memory. The same while
      a maintenance runs ([Maintenance.v]): no position it saves is beyond a
      message that is still needed, so a log that still has the message
      delivers it. When the process dies at any moment, also between the
      writing of the two checkpoint files ([Crashes.v]), the messages in the
      segments that the last backend checkpoint lists are delivered again;
      those of later segments are lost, a queue without a listed segment
      starts empty, and a segment that was filled exactly is left out by
      hypothesis ([spare]).
    - Storage ([SegmentProps.v], [BackendProps.v]): append and read implement
      a log; recovery reads back what was written and accepts only intact
      messages from arbitrary bytes; checkpoints and restarts agree; what
      a crash between two checkpoints keeps ([CrashRecovery.v]); which
      segments are collected; seeking by time. A reader beside an append gets
      complete messages ([Publish.v]) and keeps their segment mapped
      ([Refs.v]); a checkpoint file is replaced as a whole ([Replace.v]); the
      directory of a new queue is empty ([Files.v]).
    - Protocol ([WireProps.v]): requests are read back however their bytes
      arrive, replies go out whole and in order, the parser always returns.
    - Commands ([CommandProps.v], [Scripts.v]): what each command does and
      answers; which requests are carried out, and what the whole table of
      queues is then: which queue is created or deleted and which operations
      of [Delivery.v] run on each ([HMSET] and [SREM queue *] are outside of
      them); a restart finds the queues that were created when their names
      are UTF-8.
    - Configuration ([Settings.v]): which configurations are accepted, and
      the value of every field, with the periods that wrap.
    - Whole server ([EndToEnd.v], [Restarts.v]): under any requests and any
      interleaving with the background threads and the loop, a message is
      acknowledged by an [HDEL] or still there to be delivered, also after
      the server was stopped and started; when the process of the server
      dies ([ServerCrashes.v]) the same queues open again, each as
      [Crashes.v] says; the background threads reach every queue
      ([Rounds.v]). The requests are neither [HMSET] nor [SREM queue *], have
      arguments in range (clocks, sizes, room for another id, new tickets),
      and the queues have no hard retention ([EndToEnd.prudent]); the 24
      hours of hard retention that [floki.toml] ships are outside, since it
      drops messages whatever the channels have read.
    - Server ([Startup.v], [Mirror.v], [SystemProps.v]): the program starts
      with exactly the queues on disk; the loop's table mirrors the queues;
      in every reachable state every tick is handled without a panic, and
      every event but those that [System.stops] names (a timer or a hang-up
      that races with a notification, a request past 4 GiB or with an array
      too large to allocate, an answer that cannot be read or timed); the
      lists of waiting clients are well formed; no
      client is forgotten, and a blocked one is answered at its deadline.
    - Locks: the guards exclude each other as documented and never
      deadlock; which methods of a queue overlap.
    - Tests: all unit tests of the repository pass on the model.
    - What the code does and should not: messages lost after a purge, at an
      exact fit, and in segments that no checkpoint lists yet; positions
      that stay behind, or are beyond the end of the log after a crash, and
      channels that no checkpoint has saved; the deadlock of [DEL] and [SET],
      a maintenance that holds no guard, two checkpoints that race, a
      directory that is never created, the timer that fires for a woken client, the push of a client
      that hung up, the empty queue name, Latin-1 names, and others.

    ** What is not modelled

    Logging, the [Debug] and [Display] texts, and the random tickets as such
    (they are arguments). [HMSET] (seeking) and [SREM queue *] (purging) are
    modelled as commands and operations, but not steps of [Delivery.v]: they
    break its invariant ([seek_back_ignored], [purge_keeps_position]). A
    crash in the middle of one request, or before a new queue has written its
    first checkpoint files. The files after a start from a crash: [server_crashes]
    says that delivery goes on from there, and follows the files of the first
    life only. A worker that panics: its job is
    never answered ([hmget_count_panics] is a way there). Poisoning of locks.
    Channels that are created or deleted while the maintenance walks their
    table: the code lets that happen without a guard ([Queue.bodies_overlap])
    and has no defined behaviour then. A power failure under the data files:
    [Crashes.v] and [ServerCrashes.v] keep what was written through the
    mappings, synced or not, as the kernel does when a process dies; what is
    left of pages that were not synced is not modelled ([Replace.v] does
    model a power failure, for the checkpoint files). The stack that deeply
    nested arrays take in the parser. Weak memory: [Publish.v] takes the
    accesses in program order. The bytes of JSON texts. Symbolic links and
    permissions of files. The registration of sockets with [mio], which is
    taken to succeed. The connections and threads of the client programs.
    Benchmarks. *)

From Stdlib Require Export ZArith Lia Sorted.
From stdpp Require Export base numbers option gmap strings.
From stdpp Require Export list_basics list_relations list_monad list_misc list.

#[global] Open Scope Z_scope.

(** ** Outcomes of Rust code

    A call returns normally, panics (a failed [assert!], an [unwrap] of
    [None] or [Err], an arithmetic overflow in a build with overflow
    checks), or performs an access outside the memory it owns, which is
    undefined behaviour for the raw-pointer code of [queue_backend.rs]. *)

Inductive outcome (A : Type) : Type :=
| Done (a : A)
| Panic
| Undefined.
Arguments Done {A} a.
Arguments Panic {A}.
Arguments Undefined {A}.

#[export] Instance outcome_ret : MRet outcome := @Done.
#[export] Instance outcome_bind : MBind outcome := λ A B f m,
  match m with
  | Done a => f a
  | Panic => Panic
  | Undefined => Undefined
  end.
#[export] Instance outcome_fmap : FMap outcome := λ A B f m,
  match m with
  | Done a => Done (f a)
  | Panic => Panic
  | Undefined => Undefined
  end.

#[export] Instance outcome_eq_dec {A} `{EqDecision A} : EqDecision (outcome A).
Proof. solve_decision. Defined.

(** Rust's [Result]. *)
Inductive result (A E : Type) : Type :=
| Ok (a : A)
| Err (e : E).
Arguments Ok {A E} a.
Arguments Err {A E} e.

#[export] Instance result_eq_dec {A E} `{EqDecision A, EqDecision E} :
  EqDecision (result A E).
Proof. solve_decision. Defined.

Definition is_ok {A E} (r : result A E) : bool :=
  match r with Ok _ => true | Err _ => false end.

(** [assert!(b)]: panics in every build. *)
Definition assert (b : bool) : outcome () := if b then Done () else Panic.

(** [Option::unwrap] and [Result::unwrap]. *)
Definition unwrap {A} (o : option A) : outcome A :=
  match o with Some a => Done a | None => Panic end.

Declare Scope floki_scope.
Delimit Scope floki_scope with floki.

(** [try!] on a computation that returns a [Result]. *)
Notation "'try!' x ← m ; k" :=
  (mbind (λ r, match r with Ok x => k | Err e => mret (Err e) end) m)
  (at level 20, x pattern, m at level 100, k at level 200, right associativity)
  : floki_scope.
#[global] Open Scope floki_scope.

(** ** Build profiles and machine integers

    [Cargo.toml] fixes two profiles: [profile.dev] has [debug-assertions]
    (overflow checks and [debug_assert!]) and [profile.release] has not. The
    definitions that depend on it take the profile as a class argument, so
    that every theorem says which of the two builds it is about. *)

Class Profile : Type := debug_assertions : bool.
Definition dev_profile : Profile := true.
Definition release_profile : Profile := false.

Definition debug_assert `{Profile} (b : bool) : outcome () :=
  if debug_assertions then assert b else Done ().

(** The value of a [w]-bit unsigned operation whose exact result is [z]:
    out of range it panics with overflow checks and wraps without. *)
Definition arith `{Profile} (w z : Z) : outcome Z :=
  if (0 <=? z) && (z <? 2 ^ w) then Done z
  else if debug_assertions then Panic
  else Done (z mod 2 ^ w).

Definition u32 `{Profile} : Z → outcome Z := arith 32.
Definition u64 `{Profile} : Z → outcome Z := arith 64.

(** [x as u32], [x as usize] (64-bit targets): truncation in every build. *)
Definition as_u32 (z : Z) : Z := z mod 2 ^ 32.
Definition as_u64 (z : Z) : Z := z mod 2 ^ 64.

Definition in_u32 (z : Z) : Prop := 0 ≤ z < 2 ^ 32.
Definition in_u64 (z : Z) : Prop := 0 ≤ z < 2 ^ 64.

(** The length of a slice or [Vec], as [usize]. *)
Definition zlen {A} (l : list A) : Z := Z.of_nat (length l).

(** ** Lemmas on outcomes *)

Lemma bind_Done_iff {A B} (m : outcome A) (f : A → outcome B) b :
  (m ≫= f) = Done b ↔ ∃ a, m = Done a ∧ f a = Done b.
Proof. destruct m; cbn; split; first [by eauto | by intros (? & [=] & ?); subst | done]. Qed.

Lemma bind_Done {A B} (a : A) (f : A → outcome B) : (Done a ≫= f) = f a.
Proof. done. Qed.

Lemma bind_assoc_outcome {A B C} (m : outcome A) (f : A → outcome B)
    (g : B → outcome C) :
  ((m ≫= f) ≫= g) = (m ≫= λ a, f a ≫= g).
Proof. by destruct m. Qed.

Lemma assert_true_iff (b : bool) u : assert b = Done u ↔ b = true.
Proof. by destruct b, u. Qed.

Lemma assert_true b : b = true → assert b = Done ().
Proof. by intros ->. Qed.

Section arith.
Context `{Profile}.

Lemma arith_in w z : 0 ≤ z < 2 ^ w → arith w z = Done z.
Proof.
  intros Hz. unfold arith.
  by rewrite (proj2 (Z.leb_le _ _)), (proj2 (Z.ltb_lt _ _)) by lia.
Qed.

Lemma u32_in z : in_u32 z → u32 z = Done z.
Proof. apply arith_in. Qed.

Lemma u64_in z : in_u64 z → u64 z = Done z.
Proof. apply arith_in. Qed.

Lemma debug_assert_true b : b = true → debug_assert b = Done ().
Proof. intros ->. unfold debug_assert. by destruct debug_assertions. Qed.

Lemma arith_range w z r : 0 ≤ w → arith w z = Done r → 0 ≤ r < 2 ^ w.
Proof.
  unfold arith. intros Hw. destruct (_ && _) eqn:E.
  - intros [= <-]. apply andb_prop in E as [?%Z.leb_le ?%Z.ltb_lt]. lia.
  - destruct debug_assertions; [done|]. intros [= <-].
    apply Z.mod_pos_bound. by apply Z.pow_pos_nonneg.
Qed.

Lemma arith_not_Undefined w z : arith w z ≠ Undefined.
Proof. unfold arith. by repeat case_match. Qed.
End arith.

Lemma as_u32_in z : in_u32 z → as_u32 z = z.
Proof. apply Z.mod_small. Qed.
Lemma as_u64_in z : in_u64 z → as_u64 z = z.
Proof. apply Z.mod_small. Qed.

(** ** Lemmas on lists *)

Lemma zlen_nil {A} : zlen (@nil A) = 0.
Proof. done. Qed.
Lemma zlen_cons {A} (x : A) l : zlen (x :: l) = 1 + zlen l.
Proof. unfold zlen. simpl length. lia. Qed.
Lemma zlen_app {A} (l k : list A) : zlen (l ++ k) = zlen l + zlen k.
Proof. unfold zlen. rewrite length_app. lia. Qed.
Lemma zlen_nonneg {A} (l : list A) : 0 ≤ zlen l.
Proof. unfold zlen. lia. Qed.
Lemma zlen_replicate {A} n (x : A) : zlen (replicate n x) = Z.of_nat n.
Proof. unfold zlen. by rewrite length_replicate. Qed.
Lemma zlen_take {A} n (l : list A) :
  0 ≤ n ≤ zlen l → zlen (take (Z.to_nat n) l) = n.
Proof. unfold zlen. intros. rewrite length_take. lia. Qed.
Lemma zlen_drop {A} n (l : list A) :
  0 ≤ n ≤ zlen l → zlen (drop (Z.to_nat n) l) = zlen l - n.
Proof. unfold zlen. intros. rewrite length_drop. lia. Qed.
Lemma zlen_0_nil {A} (l : list A) : zlen l = 0 → l = [].
Proof. destruct l; [done|]. rewrite zlen_cons. pose proof (zlen_nonneg l). lia. Qed.

Lemma NoDup_fmap_inj_elem {A B} (f : A → B) (l : list A) x y :
  NoDup (f <$> l) → x ∈ l → y ∈ l → f x = f y → x = y.
Proof.
  intros Hnd [i Hi]%list_elem_of_lookup [j Hj]%list_elem_of_lookup Heq.
  assert (i = j) as ->; [|congruence].
  apply (NoDup_lookup _ _ _ (f x) Hnd); rewrite list_lookup_fmap, ?Hi, ?Hj; cbn; congruence.
Qed.

(** ** Maps keyed by byte strings *)

Lemma bytes_insert_eq {A} (m : gmap (list Z) A) k v : <[k := v]> m !! k = Some v.
Proof. apply lookup_insert_eq. Qed.
Lemma bytes_insert_ne {A} (m : gmap (list Z) A) k j v : k ≠ j → <[k := v]> m !! j = m !! j.
Proof. apply lookup_insert_ne. Qed.
Lemma bytes_delete_eq {A} (m : gmap (list Z) A) k : delete k m !! k = None.
Proof. apply lookup_delete_eq. Qed.
Lemma bytes_delete_ne {A} (m : gmap (list Z) A) k j : k ≠ j → delete k m !! j = m !! j.
Proof. apply lookup_delete_ne. Qed.

(** ** Automation *)

Create HintDb floki discriminated.
Create Rewrite HintDb zlen.
#[export] Hint Rewrite @zlen_nil @zlen_cons @zlen_app @zlen_replicate : zlen.
#[export] Hint Resolve zlen_nonneg : floki.

(** Splits every bind, assertion and pair of a hypothesis [_ = Done _]. *)
Ltac inv_outcome :=
  repeat match goal with
  | H : mbind _ _ = Done _ |- _ =>
      apply bind_Done_iff in H; destruct H as (? & ? & H)
  | H : assert _ = Done _ |- _ => apply assert_true_iff in H
  | H : @mret outcome _ _ ?x = Done ?y |- _ => change (Done x = Done y) in H
  | H : Done _ = Done _ |- _ => injection H as H
  | H : _ ∧ _ |- _ => destruct H
  | H : Panic = Done _ |- _ => discriminate H
  | H : Undefined = Done _ |- _ => discriminate H
  end; simplify_eq.

(** Arithmetic on in-range machine integers: rewrites each [u32 z], [u64 z]
    to [Done z] when [lia] shows the range. *)
Ltac mint :=
  repeat first
    [ rewrite bind_Done
    | rewrite u32_in by (unfold in_u32 in *; lia)
    | rewrite u64_in by (unfold in_u64 in *; lia)
    | rewrite as_u32_in by (unfold in_u32 in *; lia)
    | rewrite as_u64_in by (unfold in_u64 in *; lia) ].

Ltac zl := autorewrite with zlen in *; lia.
