(* ===== verification/Bytes.v ===== *)
(** * Raw memory: little-endian words in a byte array

    The data files are memory-mapped and read and written through raw
    pointers ([queue_backend.rs]). A mapping is a list of byte values, an
    access outside it is [Undefined]. Multi-byte fields have the byte order
    of the little-endian targets the program runs on. *)
From S2P Require Import Prelude.

(** ** Little-endian encoding *)

Fixpoint le_bytes (n : nat) (z : Z) : list Z :=
  match n with
  | O => []
  | S n => z mod 256 :: le_bytes n (z / 256)
  end.

Fixpoint le_val (bs : list Z) : Z :=
  match bs with
  | [] => 0
  | b :: bs => b + 256 * le_val bs
  end.

Definition is_byte (b : Z) : Prop := 0 ≤ b < 256.

Lemma le_bytes_length n z : length (le_bytes n z) = n.
Proof. revert z. induction n; intros; simpl; auto. Qed.

Lemma zlen_le_bytes n z : zlen (le_bytes n z) = Z.of_nat n.
Proof. unfold zlen. by rewrite le_bytes_length. Qed.

Lemma le_bytes_are_bytes n z : Forall is_byte (le_bytes n z).
Proof.
  revert z. induction n as [|n IH]; intros z; constructor; auto.
  apply Z.mod_pos_bound. lia.
Qed.

(** Decoding an encoding gives the value back, truncated to the width. *)
Lemma le_val_le_bytes n z : le_val (le_bytes n z) = z mod 2 ^ (8 * Z.of_nat n).
Proof.
  revert z. induction n as [|n IH]; intros z; [by rewrite Z.mod_1_r|].
  simpl le_bytes. simpl le_val. rewrite IH.
  replace (8 * Z.of_nat (S n)) with (8 + 8 * Z.of_nat n) by lia.
  rewrite Z.pow_add_r by lia. change (2 ^ 8) with 256.
  rewrite Z.rem_mul_r by (try lia; apply Z.pow_nonzero; lia). lia.
Qed.

Lemma le_val_range bs : Forall is_byte bs → 0 ≤ le_val bs < 2 ^ (8 * zlen bs).
Proof.
  induction 1 as [|b bs Hb _ IH]; [done|].
  simpl le_val. rewrite zlen_cons. replace (8 * (1 + zlen bs)) with (8 + 8 * zlen bs) by lia.
  pose proof (zlen_nonneg bs). rewrite Z.pow_add_r by lia.
  unfold is_byte in Hb. change (2 ^ 8) with 256. lia.
Qed.

Lemma le_bytes_le_val bs : Forall is_byte bs → le_bytes (length bs) (le_val bs) = bs.
Proof.
  induction 1 as [|b bs Hb _ IH]; [done|].
  simpl. unfold is_byte in Hb. f_equal.
  - rewrite (Z.mul_comm 256), Z.mod_add by lia. by apply Z.mod_small.
  - rewrite (Z.mul_comm 256), Z.div_add by lia. by rewrite Z.div_small, Z.add_0_l.
Qed.

(** ** Access to a mapping *)

Definition mem_read (m : list Z) (off n : Z) : outcome (list Z) :=
  if (0 <=? off) && (0 <=? n) && (off + n <=? zlen m)
  then Done (take (Z.to_nat n) (drop (Z.to_nat off) m))
  else Undefined.

Definition mem_write (m : list Z) (off : Z) (bs : list Z) : outcome (list Z) :=
  if (0 <=? off) && (off + zlen bs <=? zlen m)
  then Done (take (Z.to_nat off) m ++ bs ++ drop (Z.to_nat (off + zlen bs)) m)
  else Undefined.

Definition read_u32 (m : list Z) (off : Z) : outcome Z := le_val <$> mem_read m off 4.
Definition read_u64 (m : list Z) (off : Z) : outcome Z := le_val <$> mem_read m off 8.
Definition write_u32 (m : list Z) (off v : Z) : outcome (list Z) :=
  mem_write m off (le_bytes 4 v).
Definition write_u64 (m : list Z) (off v : Z) : outcome (list Z) :=
  mem_write m off (le_bytes 8 v).

(** [stored m off bs]: the bytes [bs] are at offset [off] of [m]. *)
Definition stored (m : list Z) (off : Z) (bs : list Z) : Prop :=
  ∃ pre post, m = pre ++ bs ++ post ∧ zlen pre = off.

Lemma stored_app m off l k :
  stored m off (l ++ k) ↔ stored m off l ∧ stored m (off + zlen l) k.
Proof.
  split.
  - intros (pre & post & -> & <-). split.
    + exists pre, (k ++ post). by rewrite <-!app_assoc.
    + exists (pre ++ l), post. rewrite <-!app_assoc. split; [done|zl].
  - intros [(pre & post & -> & <-) (pre' & post' & Heq & Hlen)].
    exists pre, post'. split; [|done].
    assert (pre ++ l = pre') as <-.
    { apply (f_equal (take (length pre'))) in Heq.
      rewrite take_app_length in Heq. rewrite <-Heq, app_assoc.
      assert (length pre' = length (pre ++ l)) as ->.
      { apply Nat2Z.inj. unfold zlen in Hlen. rewrite length_app. lia. }
      by rewrite take_app_length. }
    rewrite <-!app_assoc in Heq. by rewrite Heq, <-!app_assoc.
Qed.

Lemma stored_bounds m off bs : stored m off bs → 0 ≤ off ∧ off + zlen bs ≤ zlen m.
Proof.
  intros (pre & post & -> & <-).
  pose proof (zlen_nonneg pre). pose proof (zlen_nonneg post). zl.
Qed.

Lemma mem_read_stored m off bs : stored m off bs → mem_read m off (zlen bs) = Done bs.
Proof.
  intros Hs. pose proof (stored_bounds _ _ _ Hs) as [Hlo Hhi].
  destruct Hs as (pre & post & -> & <-). unfold mem_read.
  pose proof (zlen_nonneg bs).
  rewrite !(proj2 (Z.leb_le _ _)) by lia. simpl. unfold zlen at 1 2.
  rewrite !Nat2Z.id, drop_app_length, take_app_length. done.
Qed.

Lemma mem_read_stored_n m off bs n :
  stored m off bs → zlen bs = n → mem_read m off n = Done bs.
Proof. intros ? <-. by apply mem_read_stored. Qed.

Lemma read_u32_stored m off v :
  stored m off (le_bytes 4 v) → in_u32 v → read_u32 m off = Done v.
Proof.
  intros Hs Hv. unfold read_u32.
  rewrite (mem_read_stored_n _ _ _ _ Hs) by apply zlen_le_bytes.
  change (Done (le_val (le_bytes 4 v)) = Done v).
  rewrite le_val_le_bytes. f_equal. by apply Z.mod_small.
Qed.

Lemma read_u64_stored m off v :
  stored m off (le_bytes 8 v) → in_u64 v → read_u64 m off = Done v.
Proof.
  intros Hs Hv. unfold read_u64.
  rewrite (mem_read_stored_n _ _ _ _ Hs) by apply zlen_le_bytes.
  change (Done (le_val (le_bytes 8 v)) = Done v).
  rewrite le_val_le_bytes. f_equal. by apply Z.mod_small.
Qed.

(** A write into a frame [pre ++ old ++ post] replaces [old]. *)
Lemma mem_write_frame pre old post bs off :
  zlen pre = off → zlen bs = zlen old →
  mem_write (pre ++ old ++ post) off bs = Done (pre ++ bs ++ post).
Proof.
  intros <- Hlen. unfold mem_write.
  pose proof (zlen_nonneg pre). pose proof (zlen_nonneg post).
  rewrite !(proj2 (Z.leb_le _ _)) by zl. simpl. do 2 f_equal.
  - unfold zlen at 1. by rewrite Nat2Z.id, take_app_length.
  - f_equal. rewrite Hlen, <-zlen_app. unfold zlen.
    by rewrite Nat2Z.id, app_assoc, drop_app_length.
Qed.

Lemma mem_write_length m off bs m' : mem_write m off bs = Done m' → zlen m' = zlen m.
Proof.
  unfold mem_write. destruct (_ && _) eqn:E; [|done]. intros [= <-].
  apply andb_prop in E as [?%Z.leb_le ?%Z.leb_le].
  pose proof (zlen_nonneg bs).
  rewrite !zlen_app, zlen_take, zlen_drop by lia. lia.
Qed.

#[export] Hint Rewrite zlen_le_bytes : zlen.
