(* ===== verification/Offsets.v ===== *)
(** * Offset index ([offset_index.rs]) and request cookies ([cookie.rs])

    [OffsetIndex] maps the consecutive message ids of one segment to the
    offsets of their headers; [Cookie] packs a connection token and a nonce
    into one word. *)
From S2P Require Import Prelude.
From S2P Require Import Bytes.

Module OffsetIndex.

Record t : Type := mk {
  id_offset : Z;
  index : list Z;
}.

#[global] Instance t_eq_dec : EqDecision t.
Proof. solve_decision. Defined.

Definition new (id_offset : Z) : t := mk id_offset [].

(** The [u32] view of a byte slice, four bytes at a time. *)
Fixpoint words (bytes : list Z) : list Z :=
  match bytes with
  | b0 :: b1 :: b2 :: b3 :: bytes => le_val [b0; b1; b2; b3] :: words bytes
  | _ => []
  end.

Definition from_bytes (id_offset : Z) (bytes : list Z) : outcome t :=
  _ ← assert (zlen bytes mod 4 =? 0);
  mret (mk id_offset (index (new id_offset) ++ words bytes)).

Definition as_bytes (i : t) : list Z := concat (le_bytes 4 <$> index i).

Section ops.
Context `{Profile}.

Definition get_offset (i : t) (id : Z) : outcome (option Z) :=
  _ ← debug_assert (id_offset i <=? id);
  d ← u64 (id - id_offset i);
  mret (index i !! Z.to_nat d).

Definition push_offset (i : t) (id offset : Z) : outcome t :=
  expected ← u64 (id_offset i + zlen (index i));
  _ ← assert (id =? expected);
  mret (mk (id_offset i) (index i ++ [offset])).

(** The ids the index covers, as a half-open interval. *)
Definition next_id (i : t) : Z := id_offset i + zlen (index i).

Lemma get_offset_in i id :
  in_u64 id → 0 ≤ id_offset i ≤ id →
  get_offset i id = Done (index i !! Z.to_nat (id - id_offset i)).
Proof.
  intros Hid Hlo. unfold get_offset.
  rewrite debug_assert_true by lia. unfold in_u64 in *. by mint.
Qed.

Lemma push_offset_next i offset :
  0 ≤ id_offset i → next_id i < 2 ^ 64 →
  push_offset i (next_id i) offset = Done (mk (id_offset i) (index i ++ [offset])).
Proof.
  intros Hlo Hhi. unfold push_offset, next_id in *. pose proof (zlen_nonneg (index i)).
  mint. by rewrite Z.eqb_refl.
Qed.

Lemma push_offset_Done i id offset i' :
  push_offset i id offset = Done i' → i' = mk (id_offset i) (index i ++ [offset]).
Proof. unfold push_offset. intros. by inv_outcome. Qed.
End ops.

Lemma words_as_bytes (ws : list Z) :
  Forall in_u32 ws → words (concat (le_bytes 4 <$> ws)) = ws.
Proof.
  induction 1 as [|w ws Hw _ IH]; [done|].
  cbn [fmap list_fmap concat]. change (le_bytes 4 w) with
    [w mod 256; w / 256 mod 256; w / 256 / 256 mod 256; w / 256 / 256 / 256 mod 256].
  cbn [app words]. rewrite IH. f_equal.
  change (le_val (le_bytes 4 w) = w). rewrite le_val_le_bytes. by apply Z.mod_small.
Qed.

Lemma zlen_concat_words (ws : list Z) : zlen (concat (le_bytes 4 <$> ws)) = 4 * zlen ws.
Proof.
  induction ws as [|w ws IH]; [done|]. cbn [fmap list_fmap concat].
  rewrite zlen_app, zlen_le_bytes, zlen_cons, IH. lia.
Qed.

(** [from_bytes] reads back what [as_bytes] wrote. *)
Theorem from_bytes_as_bytes (i : t) :
  Forall in_u32 (index i) → from_bytes (id_offset i) (as_bytes i) = Done i.
Proof.
  intros Hi. unfold from_bytes, as_bytes.
  rewrite zlen_concat_words, Z.mul_comm, Z.mod_mul, words_as_bytes by done.
  by destruct i.
Qed.

Lemma from_bytes_as_bytes_witness :
  from_bytes 7 (as_bytes (mk 7 [4; 300; 70000])) = Done (mk 7 [4; 300; 70000]).
Proof.
  apply (from_bytes_as_bytes (mk 7 [4; 300; 70000])). by repeat constructor.
Defined.

End OffsetIndex.

Module Cookie.

Definition mask48 : Z := 0xFFFFFFFFFFFF.

(** [Cookie::new(Token(token), nonce)]: [<<] on [u64] drops the high bits. *)
Definition new (token nonce : Z) : Z :=
  Z.lor (as_u64 (Z.shiftl token 48)) (Z.land nonce mask48).

Definition token (c : Z) : Z := Z.shiftr c 48.
Definition nonce (c : Z) : Z := Z.land c mask48.

Lemma mask48_ones : mask48 = Z.ones 48.
Proof. done. Qed.

Lemma token_new t n : 0 ≤ t → 0 ≤ n → token (new t n) = t mod 2 ^ 16.
Proof.
  intros Ht Hn. unfold token, new, as_u64. rewrite mask48_ones.
  rewrite <-!Z.land_ones by lia. apply Z.bits_inj'. intros k Hk.
  rewrite Z.shiftr_spec, Z.lor_spec, !Z.land_spec by lia.
  rewrite Z.shiftl_spec by lia. replace (k + 48 - 48) with k by lia.
  rewrite !Z.testbit_ones_nonneg by lia.
  rewrite (proj2 (Z.ltb_ge (k + 48) 48)), andb_false_r, orb_false_r by lia.
  by replace (k + 48 <? 64) with (k <? 16) by lia.
Qed.

Lemma nonce_new t n : 0 ≤ t → 0 ≤ n → nonce (new t n) = n mod 2 ^ 48.
Proof.
  intros Ht Hn. unfold nonce, new, as_u64. rewrite mask48_ones.
  rewrite <-!Z.land_ones by lia. apply Z.bits_inj'. intros k Hk.
  rewrite !Z.land_spec, Z.lor_spec, !Z.land_spec, Z.shiftl_spec by lia.
  rewrite !Z.testbit_ones_nonneg by lia.
  destruct (Z.ltb_spec k 48); [|by rewrite !andb_false_r].
  rewrite Z.testbit_neg_r by lia. cbn. by rewrite !andb_true_r.
Qed.

(** A cookie gives back the 16-bit token and the 48-bit nonce it was made
    from; larger values are truncated, never mixed. *)
Theorem cookie_roundtrip t n :
  0 ≤ t → 0 ≤ n →
  token (new t n) = t mod 2 ^ 16 ∧ nonce (new t n) = n mod 2 ^ 48 ∧
  (t < 2 ^ 16 → n < 2 ^ 48 → token (new t n) = t ∧ nonce (new t n) = n).
Proof.
  intros Ht Hn. rewrite token_new, nonce_new by done. split_and!; [done..|].
  intros Ht' Hn'. by rewrite !Z.mod_small.
Qed.

Lemma cookie_roundtrip_witness : token (new 513 77) = 513 ∧ nonce (new 513 77) = 77.
Proof. apply (cookie_roundtrip 513 77); lia. Defined.

End Cookie.
