(* ===== verification/Heaps.v ===== *)
(** * Reversed ordering ([rev.rs]) and the heap of in-flight ids

    A channel keeps its in-flight messages in a
    [BinaryHeap<(Rev<u64>, i64)>]. [Rev] reverses [PartialOrd], so that the
    heap, a max-heap for the comparison operators, has the smallest id on
    top. The standard library's heap is observed through [push], [peek],
    [pop] and [clear] only, so it is modelled as the list of its elements,
    greatest first. *)
From S2P Require Import Prelude.

Module Rev.

(** [impl PartialEq]: both [eq]s go to the wrapped value. *)
Definition eq (a b : Z) : bool := b =? a.

(** [impl PartialOrd]: operands swapped. *)
Definition partial_cmp (a b : Z) : option comparison := Some (b ?= a).

(** [#[derive(Ord)]]: the derived [cmp] compares the field, unswapped. *)
Definition cmp (a b : Z) : comparison := a ?= b.

(** The provided method [PartialOrd::le]. *)
Definition le (a b : Z) : bool :=
  match partial_cmp a b with
  | Some Lt | Some Eq => true
  | _ => false
  end.

Lemma rev_le_spec a b : le a b = true ↔ b ≤ a.
Proof. unfold le, partial_cmp. destruct (Z.compare_spec b a); split; try done; lia. Qed.

(** The two orders of [Rev] disagree on any two different values: the
    comparison operators are reversed, the derived [Ord] is not. *)
Theorem rev_orders_disagree a b :
  a ≠ b → partial_cmp a b ≠ Some (cmp a b) ∧ partial_cmp a b = Some (cmp b a).
Proof.
  intros Hne. unfold partial_cmp, cmp. split; [|done]. intros [= Heq].
  rewrite Z.compare_antisym in Heq. destruct (Z.compare_spec a b); cbn in Heq; (done || lia).
Qed.

Lemma rev_orders_disagree_witness : partial_cmp 1 2 ≠ Some (cmp 1 2) ∧ partial_cmp 1 2 = Some (cmp 2 1).
Proof. apply (rev_orders_disagree 1 2). lia. Defined.

End Rev.

Module BinaryHeap.

(** An entry [(Rev(id), ticket)]. *)
Abbreviation entry := (Z * Z)%type.

(** The tuple's [PartialOrd::le]: lexicographic on the components. *)
Definition le (a b : entry) : bool :=
  if Rev.eq a.1 b.1 then a.2 <=? b.2 else Rev.le a.1 b.1.

Definition peek (h : list entry) : option entry := head h.
Definition pop (h : list entry) : list entry := tail h.

Fixpoint push (x : entry) (h : list entry) : list entry :=
  match h with
  | [] => [x]
  | y :: h' => if le y x then x :: h else y :: push x h'
  end.

(** The elements are in decreasing order of [le]. *)
Definition sorted (h : list entry) : Prop := StronglySorted (λ a b, le b a = true) h.

Lemma le_spec a b : le a b = true ↔ b.1 < a.1 ∨ (a.1 = b.1 ∧ a.2 ≤ b.2).
Proof.
  unfold le, Rev.eq. destruct (Z.eqb_spec b.1 a.1); rewrite ?Rev.rev_le_spec; lia.
Qed.

Lemma le_false a b : le a b = false → le b a = true.
Proof.
  intros Hf. apply le_spec. destruct (le a b) eqn:E; [done|].
  assert (¬ (b.1 < a.1 ∨ (a.1 = b.1 ∧ a.2 ≤ b.2))) by (rewrite <-le_spec; congruence). lia.
Qed.

Lemma le_trans a b c : le a b = true → le b c = true → le a c = true.
Proof. rewrite !le_spec. lia. Qed.

Lemma elem_of_push x y h : y ∈ push x h ↔ y = x ∨ y ∈ h.
Proof.
  induction h as [|z h IH]; simpl; [|destruct (le z x)];
    rewrite ?elem_of_cons, ?IH, ?elem_of_nil; tauto.
Qed.

Lemma push_sorted x h : sorted h → sorted (push x h).
Proof.
  unfold sorted. induction 1 as [|y h Hs IH Hall]; simpl; [by repeat constructor|].
  destruct (le y x) eqn:E.
  - constructor; [by constructor|]. constructor; [done|].
    eapply Forall_impl; [exact Hall|]. simpl. intros z Hz. exact (le_trans _ _ _ Hz E).
  - constructor; [done|]. apply Forall_forall. intros z.
    rewrite elem_of_push. intros [->|Hz]; [by apply le_false|].
    by eapply Forall_forall in Hall.
Qed.

Lemma pop_sorted h : sorted h → sorted (pop h).
Proof. destruct 1; [constructor|done]. Qed.

(** The top of the heap has the smallest id. *)
Lemma peek_min h x y : sorted h → peek h = Some x → y ∈ h → x.1 ≤ y.1.
Proof.
  destruct 1 as [|z h Hs Hall]; [done|]. intros [= ->] [->|Hy]%elem_of_cons; [done|].
  eapply Forall_forall in Hall; [|done]. rewrite le_spec in Hall. lia.
Qed.

Lemma peek_elem h x : peek h = Some x → x ∈ h.
Proof. destruct h; [done|]. intros [= ->]. left. Qed.

Lemma peek_push x h y : peek (push x h) = Some y → y = x ∨ peek h = Some y.
Proof.
  destruct h as [|z h]; cbn; [intros [= ->]; by left|].
  destruct (le z x); intros [= <-]; [by left|by right].
Qed.

Lemma sorted_suffix h k : sorted (h ++ k) → sorted k.
Proof. induction h as [|x h IH]; [done|]. intros Hs. apply IH. by inversion Hs. Qed.

End BinaryHeap.
