(* ===== verification/Text.v ===== *)
(** * Text: decimal numbers and small string functions of the standard library

    Strings are lists of byte values (Rust's UTF-8 representation). This
    file models what the program uses of [core::fmt] and [core::str]:
    printing an integer, [str::parse] at [u32]/[u64]/[i64],
    [str::to_lowercase], [str::from_utf8] and [String::from_utf8_lossy]. *)
From S2P Require Import Prelude.

(** The bytes of an ASCII literal. *)
Definition B (s : string) : list Z :=
  (λ a, Z.of_N (Ascii.N_of_ascii a)) <$> String.list_ascii_of_string s.

Definition is_digit (b : Z) : bool := (48 <=? b) && (b <=? 57).

(** ** Printing *)

(** Decimal digits of [n], at most [fuel] of them. *)
Fixpoint digits (fuel : nat) (n : Z) : list Z :=
  match fuel with
  | O => []
  | S fuel => if n <? 10 then [48 + n] else digits fuel (n / 10) ++ [48 + n mod 10]
  end.

(** A 64-bit value has at most 20 digits. *)
Definition print_u64 (n : Z) : list Z := digits 20 n.
Definition print_i64 (n : Z) : list Z :=
  if n <? 0 then B "-" ++ print_u64 (- n) else print_u64 n.

(** [format!("{:015}", n)]. *)
Definition print_padded (width : nat) (n : Z) : list Z :=
  replicate (width - length (print_u64 n)) 48 ++ print_u64 n.

(** ** Parsing *)

(** The digit loop of [from_str_radix]: every step is checked. *)
Fixpoint parse_digits (max acc : Z) (bs : list Z) : option Z :=
  match bs with
  | [] => Some acc
  | b :: bs =>
      if is_digit b then
        let acc := acc * 10 + (b - 48) in
        if acc <=? max then parse_digits max acc bs else None
      else None
  end.

Definition parse_nonempty (max : Z) (bs : list Z) : option Z :=
  match bs with [] => None | _ => parse_digits max 0 bs end.

Definition parse_unsigned (w : Z) (bs : list Z) : option Z :=
  match bs with
  | 43 :: bs => parse_nonempty (2 ^ w - 1) bs
  | bs => parse_nonempty (2 ^ w - 1) bs
  end.

Definition parse_u32 : list Z → option Z := parse_unsigned 32.
Definition parse_u64 : list Z → option Z := parse_unsigned 64.

Definition parse_i64 (bs : list Z) : option Z :=
  match bs with
  | 43 :: bs => parse_nonempty (2 ^ 63 - 1) bs
  | 45 :: bs => Z.opp <$> parse_nonempty (2 ^ 63) bs
  | bs => parse_nonempty (2 ^ 63 - 1) bs
  end.

(** [str::to_lowercase], up to comparison with an ASCII literal: besides
    [A]-[Z] the only character whose lowercase is an ASCII string is the
    Kelvin sign U+212A (bytes E2 84 AA), so the other non-ASCII characters
    may be left alone. *)
Fixpoint to_lowercase (bs : list Z) : list Z :=
  match bs with
  | 0xE2 :: 0x84 :: 0xAA :: bs => 107 :: to_lowercase bs
  | b :: bs => (if (65 <=? b) && (b <=? 90) then b + 32 else b) :: to_lowercase bs
  | [] => []
  end.

(** ** Lemmas *)

Lemma parse_digits_app max acc l k :
  parse_digits max acc (l ++ k) = parse_digits max acc l ≫= λ a, parse_digits max a k.
Proof.
  revert acc. induction l as [|b l IH]; intros acc; [done|].
  cbn. destruct (is_digit b); [|done]. by destruct (_ <=? max).
Qed.

Lemma is_digit_range d : 0 ≤ d < 10 → is_digit (48 + d) = true.
Proof. unfold is_digit. lia. Qed.

Lemma parse_digits_one max acc d :
  0 ≤ d < 10 → acc * 10 + d ≤ max → parse_digits max acc [48 + d] = Some (acc * 10 + d).
Proof.
  intros Hd Hmax. cbn [parse_digits]. rewrite is_digit_range by done.
  replace (acc * 10 + (48 + d - 48)) with (acc * 10 + d) by lia.
  by rewrite (proj2 (Z.leb_le _ _)).
Qed.

(** Parsing the digits of [n] gives [n], when the fuel covers them. *)
Lemma parse_digits_digits fuel max n :
  0 ≤ n ≤ max → n < 10 ^ Z.of_nat fuel → parse_digits max 0 (digits fuel n) = Some n.
Proof.
  revert n. induction fuel as [|fuel IH]; intros n Hn Hfuel.
  { simpl in *. f_equal. lia. }
  simpl digits. destruct (Z.ltb_spec n 10).
  { rewrite parse_digits_one by lia. done. }
  rewrite Nat2Z.inj_succ, Z.pow_succ_r in Hfuel by lia.
  pose proof (Z.div_mod n 10). pose proof (Z.mod_pos_bound n 10).
  rewrite parse_digits_app, IH by (try split; try lia).
  cbn [mbind option_bind]. rewrite parse_digits_one by lia. f_equal. lia.
Qed.

Lemma digits_nonempty fuel n : ∃ b l, 0 ≤ n → digits (S fuel) n = b :: l ∧ is_digit b = true.
Proof.
  revert n. induction fuel as [|fuel IH]; intros n.
  - simpl. destruct (Z.ltb_spec n 10); (eexists _, _; intros; split; [done|]);
      apply is_digit_range; [lia|]. by apply Z.mod_pos_bound.
  - cbn [digits]. destruct (Z.ltb_spec n 10).
    { eexists _, _. intros; split; [done|]. apply is_digit_range. lia. }
    destruct (IH (n / 10)) as (b & l & Hbl).
    exists b, (l ++ [48 + n mod 10]). intros Hn.
    destruct Hbl as [Hbl ?]; [by apply Z.div_pos|]. cbn [digits] in Hbl. by rewrite Hbl.
Qed.

Lemma print_u64_digit n : 0 ≤ n → ∃ b l, print_u64 n = b :: l ∧ is_digit b = true.
Proof.
  intros Hn. destruct (digits_nonempty 19 n) as (b & l & Hbl).
  exists b, l. by apply Hbl.
Qed.

Lemma parse_nonempty_print max n :
  0 ≤ n ≤ max → n < 10 ^ 20 → parse_nonempty max (print_u64 n) = Some n.
Proof.
  intros Hn Hf. destruct (print_u64_digit n) as (b & l & Hbl & _); [lia|].
  unfold parse_nonempty. rewrite Hbl, <-Hbl. by apply parse_digits_digits.
Qed.

(** Without a leading sign the number is the digit loop's. *)
Lemma parse_unsigned_digit w b l :
  is_digit b = true → parse_unsigned w (b :: l) = parse_nonempty (2 ^ w - 1) (b :: l).
Proof. unfold is_digit, parse_unsigned. intros Hb. repeat case_match; (done || lia). Qed.

Lemma parse_i64_digit b l :
  is_digit b = true → parse_i64 (b :: l) = parse_nonempty (2 ^ 63 - 1) (b :: l).
Proof. unfold is_digit, parse_i64. intros Hb. repeat case_match; (done || lia). Qed.

Lemma parse_u64_print n : in_u64 n → parse_u64 (print_u64 n) = Some n.
Proof.
  unfold in_u64. intros Hn. destruct (print_u64_digit n) as (b & l & Hbl & Hb); [lia|].
  unfold parse_u64. rewrite Hbl, parse_unsigned_digit, <-Hbl by done.
  apply parse_nonempty_print; lia.
Qed.

(** Printing an [i64] and parsing it back. *)
Lemma parse_i64_print n : - 2 ^ 63 ≤ n < 2 ^ 63 → parse_i64 (print_i64 n) = Some n.
Proof.
  intros Hn. unfold print_i64. destruct (Z.ltb_spec n 0).
  - change (B "-" ++ print_u64 (- n)) with (45 :: print_u64 (- n)).
    unfold parse_i64. rewrite parse_nonempty_print by lia. cbn. f_equal. lia.
  - destruct (print_u64_digit n) as (b & l & Hbl & Hb); [lia|].
    rewrite Hbl, parse_i64_digit, <-Hbl by done. apply parse_nonempty_print; lia.
Qed.

(** Every printed byte is a digit or the sign. *)
Lemma digits_are_digits fuel n : 0 ≤ n → Forall (λ b, is_digit b = true) (digits fuel n).
Proof.
  revert n. induction fuel as [|fuel IH]; intros n Hn; simpl; [done|].
  destruct (Z.ltb_spec n 10).
  - constructor; [|done]. apply is_digit_range. lia.
  - apply Forall_app. split; [by apply IH, Z.div_pos|].
    constructor; [|done]. apply is_digit_range. by apply Z.mod_pos_bound.
Qed.

Lemma print_i64_chars n : Forall (λ b, is_digit b = true ∨ b = 45) (print_i64 n).
Proof.
  unfold print_i64, print_u64. destruct (Z.ltb_spec n 0).
  - change (B "-") with [45]. constructor; [by right|].
    eapply Forall_impl; [apply digits_are_digits; lia|]. by left.
  - eapply Forall_impl; [apply digits_are_digits; lia|]. by left.
Qed.

Lemma parse_digits_range max acc bs r :
  0 ≤ acc ≤ max → parse_digits max acc bs = Some r → acc ≤ r ≤ max.
Proof.
  revert acc. induction bs as [|b bs IH]; intros acc Ha; cbn.
  { intros [= <-]. lia. }
  destruct (is_digit b) eqn:Hb; [|done]. unfold is_digit in Hb.
  destruct (Z.leb_spec (acc * 10 + (b - 48)) max); [|done].
  intros Hr. apply IH in Hr; lia.
Qed.

Lemma parse_unsigned_range w bs r : 0 ≤ w → parse_unsigned w bs = Some r → 0 ≤ r < 2 ^ w.
Proof.
  intros Hw Hp. pose proof (Z.pow_pos_nonneg 2 w).
  assert (∃ l, parse_nonempty (2 ^ w - 1) l = Some r) as [l Hl].
  { unfold parse_unsigned in Hp. repeat case_match; eauto. }
  unfold parse_nonempty in Hl. destruct l; [done|].
  apply parse_digits_range in Hl; lia.
Qed.

(** ** UTF-8 ([str::from_utf8], [String::from_utf8_lossy]) *)

Definition in_range (lo hi b : Z) : bool := (lo <=? b) && (b <=? hi).

(** The well-formed byte sequences, by the first byte. *)
Fixpoint utf8_valid (bs : list Z) : bool :=
  match bs with
  | [] => true
  | b :: bs =>
      if in_range 0 0x7F b then utf8_valid bs
      else if in_range 0xC2 0xDF b then
        match bs with
        | c1 :: bs => in_range 0x80 0xBF c1 && utf8_valid bs
        | _ => false
        end
      else if in_range 0xE0 0xEF b then
        match bs with
        | c1 :: c2 :: bs =>
            in_range (if b =? 0xE0 then 0xA0 else 0x80) (if b =? 0xED then 0x9F else 0xBF) c1 &&
            in_range 0x80 0xBF c2 && utf8_valid bs
        | _ => false
        end
      else if in_range 0xF0 0xF4 b then
        match bs with
        | c1 :: c2 :: c3 :: bs =>
            in_range (if b =? 0xF0 then 0x90 else 0x80) (if b =? 0xF4 then 0x8F else 0xBF) c1 &&
            in_range 0x80 0xBF c2 && in_range 0x80 0xBF c3 && utf8_valid bs
        | _ => false
        end
      else false
  end.

(** *** [String::from_utf8_lossy]

    A lead byte: how many bytes follow the next one, and the range of the
    next one. *)
Definition utf8_lead (b : Z) : option (nat * Z * Z) :=
  if in_range 0xC2 0xDF b then Some (0%nat, 0x80, 0xBF)
  else if b =? 0xE0 then Some (1%nat, 0xA0, 0xBF)
  else if b =? 0xED then Some (1%nat, 0x80, 0x9F)
  else if in_range 0xE1 0xEF b then Some (1%nat, 0x80, 0xBF)
  else if b =? 0xF0 then Some (2%nat, 0x90, 0xBF)
  else if in_range 0xF1 0xF3 b then Some (2%nat, 0x80, 0xBF)
  else if b =? 0xF4 then Some (2%nat, 0x80, 0x8F)
  else None.

(** U+FFFD *)
Definition replacement : list Z := [0xEF; 0xBF; 0xBD].

(** [pending] holds the bytes of an unfinished character, which goes on
    with a byte from [lo] to [hi] and [more] others; a sequence that does not
    go on is replaced. *)
Fixpoint utf8_lossy (pending : list Z) (more : nat) (lo hi : Z) (s : list Z) : list Z :=
  let cut := match pending with [] => [] | _ => replacement end in
  match s with
  | [] => cut
  | b :: s =>
      if match pending with [] => false | _ => in_range lo hi b end then
        match more with
        | O => pending ++ b :: utf8_lossy [] 0 0 0 s
        | S more => utf8_lossy (pending ++ [b]) more 0x80 0xBF s
        end
      else cut ++
        (if in_range 0 0x7F b then b :: utf8_lossy [] 0 0 0 s
         else match utf8_lead b with
              | Some (more, lo, hi) => utf8_lossy [b] more lo hi s
              | None => replacement ++ utf8_lossy [] 0 0 0 s
              end)
  end.

Definition from_utf8_lossy (s : list Z) : list Z := utf8_lossy [] 0 0 0 s.

(** Any continuation of the pending bytes of the given form is valid. *)
Definition utf8_pending (pending : list Z) (more : nat) (lo hi : Z) : Prop :=
  ∀ c cs rest, in_range lo hi c = true → length cs = more → Forall (λ b, in_range 0x80 0xBF b = true) cs →
    utf8_valid rest = true → utf8_valid (pending ++ c :: cs ++ rest) = true.

Lemma utf8_lead_pending b more lo hi : utf8_lead b = Some (more, lo, hi) → utf8_pending [b] more lo hi.
Proof.
  intros Hl c cs rest Hc Hcs Hall Hr.
  assert (in_range 0xC2 0xDF b = true ∨ in_range 0xE0 0xEF b = true ∨ in_range 0xF0 0xF4 b = true) as Hb.
  { unfold utf8_lead in Hl. unfold in_range in *. repeat case_match; (done || lia). }
  destruct cs as [|c1 [|c2 [|c3 cs]]]; cbn in Hcs; subst more; cbn [utf8_valid app];
    repeat (apply Forall_cons in Hall as [?H Hall]); unfold utf8_lead, in_range in *;
    repeat case_match; simplify_eq; (lia || (rewrite ?andb_true_iff; split_and!; (done || lia))).
Qed.

(** What comes out is valid UTF-8. *)
Lemma utf8_lossy_valid s pending more lo hi :
  pending = [] ∨ utf8_pending pending more lo hi → utf8_valid (utf8_lossy pending more lo hi s) = true.
Proof.
  revert pending more lo hi. induction s as [|b s IH]; intros pending more lo hi Hp; cbn [utf8_lossy].
  { by destruct pending. }
  destruct (match pending with [] => false | _ => in_range lo hi b end) eqn:Hb.
  - destruct Hp as [->|Hp]; [done|]. assert (in_range lo hi b = true) as Hr by (by destruct pending).
    destruct more as [|more].
    + apply (Hp b [] _ Hr); [done|done|]. apply IH. by left.
    + apply IH. right. intros c cs rest Hc Hl Hcs Hrest. rewrite <-app_assoc. cbn.
      apply (Hp b (c :: cs) rest Hr); [by cbn; f_equal|by constructor|done].
  - set (out := if in_range 0 0x7F b then _ else _). assert (utf8_valid out = true) as Ho.
    { subst out. destruct (in_range 0 0x7F b) eqn:Ha.
      - cbn [utf8_valid]. rewrite Ha. apply IH. by left.
      - destruct (utf8_lead b) as [[[m l] h]|] eqn:Hl; [apply IH; right; by apply utf8_lead_pending|].
        apply (IH [] 0%nat 0 0). by left. }
    by destruct pending.
Qed.

(** A valid string starts with one well-formed character. *)
Lemma utf8_valid_cons b s :
  utf8_valid (b :: s) = true →
  in_range 0 0x7F b = true ∧ utf8_valid s = true ∨
  ∃ more lo hi c cs rest, utf8_lead b = Some (more, lo, hi) ∧ in_range 0 0x7F b = false ∧
    s = c :: cs ++ rest ∧ in_range lo hi c = true ∧ length cs = more ∧
    Forall (λ b, in_range 0x80 0xBF b = true) cs ∧ utf8_valid rest = true.
Proof.
  cbn [utf8_valid]. destruct (in_range 0 0x7F b) eqn:H1; [by left|]. right. unfold utf8_lead.
  destruct (in_range 0xC2 0xDF b) eqn:H2.
  { destruct s as [|c s]; [done|]. apply andb_true_iff in H as [Hc Hs]. by eexists _, _, _, c, [], s. }
  destruct (in_range 0xE0 0xEF b) eqn:H3.
  { destruct s as [|c [|c1 s]]; [done..|]. apply andb_true_iff in H as [[Hc Hc1]%andb_true_iff Hs].
    exists 1%nat, (if b =? 0xE0 then 0xA0 else 0x80), (if b =? 0xED then 0x9F else 0xBF), c, [c1], s.
    split_and!; try done; [|by repeat constructor].
    unfold in_range in *. repeat case_match; (done || lia). }
  destruct (in_range 0xF0 0xF4 b) eqn:H4; [|done].
  destruct s as [|c [|c1 [|c2 s]]]; [done..|].
  apply andb_true_iff in H as [[[Hc Hc1]%andb_true_iff Hc2]%andb_true_iff Hs].
  exists 2%nat, (if b =? 0xF0 then 0x90 else 0x80), (if b =? 0xF4 then 0x8F else 0xBF), c, [c1; c2], s.
  split_and!; try done; [|by repeat constructor].
  unfold in_range in *. repeat case_match; (done || lia).
Qed.

Lemma utf8_lossy_complete pending more lo hi c cs rest :
  pending ≠ [] → in_range lo hi c = true → length cs = more → Forall (λ b, in_range 0x80 0xBF b = true) cs →
  utf8_lossy pending more lo hi (c :: cs ++ rest) = pending ++ c :: cs ++ from_utf8_lossy rest.
Proof.
  intros Hp Hc <- Hcs. revert pending lo hi c Hp Hc.
  induction Hcs as [|c1 cs Hc1 Hcs IH]; intros [|p pending] lo hi c Hp Hc; try done.
  - cbn [utf8_lossy length app]. by rewrite Hc.
  - transitivity (utf8_lossy (p :: pending ++ [c]) (length cs) 0x80 0xBF (c1 :: cs ++ rest)).
    { cbn [utf8_lossy length app]. by rewrite Hc. }
    rewrite IH by done. cbn. by rewrite <-app_assoc.
Qed.

(** Valid UTF-8 is left alone, and nothing else. *)
Lemma utf8_lossy_same s : from_utf8_lossy s = s ↔ utf8_valid s = true.
Proof.
  split; [intros <-; apply utf8_lossy_valid; by left|].
  remember (length s) as n eqn:Hn. revert s Hn.
  induction n as [n IH] using (well_founded_induction Nat.lt_wf_0).
  intros [|b s] -> Hv; [done|]. unfold from_utf8_lossy. cbn [utf8_lossy app].
  apply utf8_valid_cons in Hv as [[-> Hs]|(more & lo & hi & c & cs & rest & Hl & -> & -> & Hc & Hlen & Hcs & Hr)].
  - f_equal. eapply IH; [|done|done]. cbn. lia.
  - rewrite Hl, utf8_lossy_complete by done. cbn [app]. do 3 f_equal. eapply IH; [|done|done].
    cbn. rewrite length_app. lia.
Qed.
