(* ===== verification/Settings.v ===== *)
(** * Configuration ([config.rs])

    The size and duration grammar of [floki.toml] and of [CONFIG SET], the
    configuration records, the reading of the server configuration and the
    configurations of the queues found on disk. The TOML library is
    third-party code: its two accessors are arguments. *)
From S2P Require Import Prelude.
From S2P Require Import Text.

Module Config.

(** ** Sizes and durations *)

Inductive GenericError : Type :=
| ParseIntError
| UnknownSuffix (suffix : list Z)
| OverflowError.

#[global] Instance GenericError_eq_dec : EqDecision GenericError.
Proof. solve_decision. Defined.

(** [s.chars().position(|c| !c.is_digit(10)).unwrap_or(s.len())]: the
    characters before the first non-digit are one byte each. *)
Fixpoint digits_end (s : list Z) : nat :=
  match s with
  | b :: s => if is_digit b then S (digits_end s) else O
  | [] => O
  end.

Definition split_number_suffix (s : list Z) : result (Z * list Z) GenericError :=
  let digits := take (digits_end s) s in
  let suffix := drop (digits_end s) s in
  match parse_u64 digits with
  | Some number => Ok (number, suffix)
  | None => Err ParseIntError
  end.

Definition checked_mul (a b : Z) : result Z GenericError :=
  if a * b <? 2 ^ 64 then Ok (a * b) else Err OverflowError.

Definition duration_scale (suffix : list Z) : option Z :=
  let s := to_lowercase suffix in
  if bool_decide (s = B "ms") then Some 1
  else if bool_decide (s = B "" ∨ s = B "s") then Some 1000
  else if bool_decide (s = B "m") then Some (1000 * 60)
  else if bool_decide (s = B "h") then Some (1000 * 60 * 60)
  else if bool_decide (s = B "d") then Some (1000 * 60 * 60 * 24)
  else None.

Definition size_scale (suffix : list Z) : option Z :=
  let s := to_lowercase suffix in
  if bool_decide (s = B "" ∨ s = B "b") then Some 1
  else if bool_decide (s = B "k" ∨ s = B "kb") then Some 1024
  else if bool_decide (s = B "m" ∨ s = B "mb") then Some (1024 * 1024)
  else if bool_decide (s = B "g" ∨ s = B "gb") then Some (1024 * 1024 * 1024)
  else None.

Definition parse_duration (duration_text : list Z) : result Z GenericError :=
  match split_number_suffix duration_text with
  | Err e => Err e
  | Ok (number, suffix) =>
      match duration_scale suffix with
      | Some scale => checked_mul number scale
      | None => Err (UnknownSuffix suffix)
      end
  end.

Definition parse_size (size_text : list Z) : result Z GenericError :=
  match split_number_suffix size_text with
  | Err e => Err e
  | Ok (number, suffix) =>
      match size_scale suffix with
      | Some scale => checked_mul number scale
      | None => Err (UnknownSuffix suffix)
      end
  end.

(** ** Configuration records *)

Record QueueConfig : Type := mkQueueConfig {
  name : list Z;
  data_directory : list Z;
  segment_size : Z;
  message_timeout : Z;
  retention_period : Z;
  hard_retention_period : Z;
  retention_size : Z;
  hard_retention_size : Z;
}.

Record ServerConfig : Type := mkServerConfig {
  server_data_directory : list Z;
  bind_address : list Z;
  max_connections : Z;
  maintenance_interval : Z;
  monitor_interval : Z;
  default_queue_config : QueueConfig;
}.

(** [Path::join]: an absolute second path replaces the first. *)
Definition path_join (dir file : list Z) : list Z :=
  match file, last dir with
  | 47 :: _, _ => file
  | _, None => file
  | _, Some 47 => dir ++ file
  | _, Some _ => dir ++ 47 :: file
  end.

(** [QueueConfig::new] and [ServerConfig::new_queue_config]. *)
Definition new_queue_config (server_config : ServerConfig) (queue_name : list Z) : QueueConfig :=
  let d := default_queue_config server_config in
  {| name := queue_name;
     data_directory := path_join (server_data_directory server_config) queue_name;
     segment_size := segment_size d;
     message_timeout := message_timeout d;
     retention_period := retention_period d;
     hard_retention_period := hard_retention_period d;
     retention_size := retention_size d;
     hard_retention_size := hard_retention_size d |}.

(** ** The queues found on disk *)

(** The components of a path; empty ones and [.] do not count. *)
Fixpoint split_slash (cur s : list Z) : list (list Z) :=
  match s with
  | [] => [cur]
  | b :: s => if b =? 47 then cur :: split_slash [] s else split_slash (cur ++ [b]) s
  end.

(** [Path::file_name] *)
Definition file_name (path : list Z) : option (list Z) :=
  match last (filter (λ c, c ≠ [] ∧ c ≠ B ".") (split_slash [] path)) with
  | Some c => if bool_decide (c = B "..") then None else Some c
  | None => None
  end.

Section configs.
(** [io::Error], boxed into a [GenericError]. *)
Context {E : Type}.
Implicit Types (entries : list (result (list Z) E)).

(** [QueueConfig::read] *)
Definition read_queue_config (server_config : ServerConfig) (data_directory : list Z) :
    outcome (result QueueConfig E) :=
  name ← unwrap (file_name data_directory);
  mret (Ok (new_queue_config server_config (from_utf8_lossy name))).

(** [QueueConfig::write] has no effect. *)
Definition write_queue_config (_ : QueueConfig) : result () E := Ok ().

(** The loop of [read_queue_configs] over the paths of the entries. *)
Fixpoint read_entries (server_config : ServerConfig) entries (queue_configs : list QueueConfig) :
    outcome (result (list QueueConfig) E) :=
  match entries with
  | [] => mret (Ok queue_configs)
  | Err e :: _ => mret (Err e)
  | Ok path :: entries =>
      try! config ← read_queue_config server_config path;
      read_entries server_config entries (queue_configs ++ [config])
  end.

(** [dir] is the result of [fs::read_dir(&self.data_directory)]. *)
Definition read_queue_configs (server_config : ServerConfig) (dir : result (list (result (list Z) E)) E) :
    outcome (result (list QueueConfig) E) :=
  match dir with
  | Err e => mret (Err e)
  | Ok entries => read_entries server_config entries []
  end.

End configs.

(** ** Reading the server configuration *)

Section read.
(** [config.get(name)] followed by [as_str], and by [as_integer]. *)
Variable get_str : list Z → option (list Z).
Variable get_int : list Z → option Z.

Definition expect {A E} (r : result A E) : outcome A :=
  match r with Ok a => Done a | Err _ => Panic end.

(** The [read_config!] macro, at its four types. *)
Definition read_config_str (key : list Z) : outcome (list Z) := unwrap (get_str key).
Definition read_config_int (key : list Z) : outcome Z := unwrap (get_int key).
Definition read_config_size (key : list Z) : outcome Z :=
  s ← unwrap (get_str key); expect (parse_size s).
Definition read_config_duration (key : list Z) : outcome Z :=
  s ← unwrap (get_str key); expect (parse_duration s).

(** [created] is the result of [create_dir_if_not_exist(data_directory)]. *)
Definition read (created : bool) : outcome ServerConfig :=
  bind_address ← read_config_str (B "bind_address");
  data_directory ← read_config_str (B "data_directory");
  max_connections ← read_config_int (B "max_connections");
  segment_size ← read_config_size (B "segment_size");
  maintenance_interval ← read_config_duration (B "maintenance_interval");
  monitor_interval ← read_config_duration (B "monitor_interval");
  message_timeout ← read_config_duration (B "message_timeout");
  retention_period ← read_config_duration (B "retention_period");
  hard_retention_period ← read_config_duration (B "hard_retention_period");
  retention_size ← read_config_size (B "retention_size");
  hard_retention_size ← read_config_size (B "hard_retention_size");
  _ ← assert ((16 * 1024 * 1024 <=? segment_size) && (segment_size <=? 2 ^ 31));
  _ ← assert created;
  mret {| server_data_directory := data_directory;
          bind_address := bind_address;
          max_connections := as_u64 max_connections;
          maintenance_interval := maintenance_interval;
          monitor_interval := monitor_interval;
          default_queue_config :=
            {| name := B "";
               data_directory := B "";
               segment_size := segment_size;
               message_timeout := as_u32 (message_timeout / 1000);
               retention_period := as_u32 (retention_period / 1000);
               hard_retention_period := as_u32 (hard_retention_period / 1000);
               retention_size := retention_size;
               hard_retention_size := hard_retention_size |} |}.

End read.

(** ** Lemmas *)

Lemma split_slash_plain cur s : 47 ∉ s → split_slash cur s = [cur ++ s].
Proof.
  revert cur. induction s as [|b s IH]; intros cur Hs; cbn; [by rewrite app_nil_r|].
  apply not_elem_of_cons in Hs as [Hb Hs]. rewrite (proj2 (Z.eqb_neq _ _)) by congruence.
  by rewrite IH, <-app_assoc.
Qed.

Lemma split_slash_last cur dir s : 47 ∉ s → ∃ l, split_slash cur (dir ++ 47 :: s) = l ++ [s].
Proof.
  intros Hs. revert cur. induction dir as [|b dir IH]; intros cur; cbn.
  - exists [cur]. by rewrite split_slash_plain.
  - destruct (b =? 47); [|apply IH]. destruct (IH []) as [l ->]. by exists (cur :: l).
Qed.

(** Joining a plain name to a directory and taking it off again. *)
Lemma file_name_join dir name :
  name ≠ [] → 47 ∉ name → 46 ∉ name → file_name (path_join dir name) = Some name.
Proof.
  intros Hne H47 H46. assert (∃ l, split_slash [] (path_join dir name) = l ++ [name]) as [l Hl].
  { destruct name as [|b name]; [done|]. assert (b ≠ 47) as Hb by (intros ->; apply H47; left).
    assert (path_join dir (b :: name) = match last dir with None => b :: name
      | Some 47 => dir ++ b :: name | Some _ => dir ++ 47 :: b :: name end) as ->.
    { unfold path_join. by repeat (done || case_match). }
    destruct (last dir) as [c|] eqn:Hd; [|exists []; by rewrite split_slash_plain].
    destruct (decide (c = 47)) as [->|Hc].
    - apply last_Some in Hd as [d ->]. rewrite <-app_assoc. by apply split_slash_last.
    - destruct (split_slash_last [] dir (b :: name) H47) as [l Hl]. exists l.
      rewrite <-Hl. by repeat (done || case_match). }
  unfold file_name. rewrite Hl, filter_app, filter_cons_True, filter_nil, last_snoc.
  - rewrite bool_decide_false; [done|]. intros ->. by apply H46; left.
  - split; [done|]. intros ->. by apply H46; left.
Qed.

Lemma digits_end_app ds s :
  Forall (λ b, is_digit b = true) ds →
  digits_end (ds ++ s) = (length ds + digits_end s)%nat.
Proof. induction 1 as [|b ds Hb _ IH]; [done|]. cbn. by rewrite Hb, IH. Qed.

Lemma split_number_suffix_print n suffix :
  in_u64 n → digits_end suffix = O →
  split_number_suffix (print_u64 n ++ suffix) = Ok (n, suffix).
Proof.
  intros Hn Hs. unfold split_number_suffix.
  rewrite digits_end_app, Hs, Nat.add_0_r by (apply digits_are_digits; apply Hn).
  by rewrite take_app_length, drop_app_length, parse_u64_print.
Qed.

Lemma split_number_suffix_Ok s n suffix :
  split_number_suffix s = Ok (n, suffix) → in_u64 n.
Proof.
  unfold split_number_suffix. destruct (parse_u64 _) as [m|] eqn:E; [|done].
  intros [= <- <-]. by apply parse_unsigned_range in E.
Qed.

Lemma checked_mul_spec a b :
  checked_mul a b = if decide (a * b < 2 ^ 64) then Ok (a * b) else Err OverflowError.
Proof. unfold checked_mul. case_decide; case_match; (done || lia). Qed.

Lemma size_scale_range suffix scale : size_scale suffix = Some scale → 1 ≤ scale ≤ 2 ^ 30.
Proof. unfold size_scale. repeat case_match; intros; simplify_eq; lia. Qed.

(** [parse_size] on a printed number and a suffix, on every branch: the
    number times the suffix's scale, an overflow, or an unknown suffix. *)
Theorem parse_size_spec n suffix :
  in_u64 n → digits_end suffix = O →
  parse_size (print_u64 n ++ suffix) =
    match size_scale suffix with
    | Some scale => if decide (n * scale < 2 ^ 64) then Ok (n * scale) else Err OverflowError
    | None => Err (UnknownSuffix suffix)
    end.
Proof.
  intros Hn Hs. unfold parse_size. rewrite split_number_suffix_print by done.
  destruct (size_scale suffix); [apply checked_mul_spec|done].
Qed.

Lemma parse_size_spec_witness : parse_size (print_u64 16 ++ B "MB") = Ok (16 * (1024 * 1024)).
Proof. refine (parse_size_spec 16 (B "MB") _ _); by vm_compute. Defined.

(** [parse_duration] on a printed number and a suffix, on every branch. *)
Theorem parse_duration_spec n suffix :
  in_u64 n → digits_end suffix = O →
  parse_duration (print_u64 n ++ suffix) =
    match duration_scale suffix with
    | Some scale => if decide (n * scale < 2 ^ 64) then Ok (n * scale) else Err OverflowError
    | None => Err (UnknownSuffix suffix)
    end.
Proof.
  intros Hn Hs. unfold parse_duration. rewrite split_number_suffix_print by done.
  destruct (duration_scale suffix); [apply checked_mul_spec|done].
Qed.

Lemma parse_duration_spec_witness : parse_duration (print_u64 5 ++ B "h") = Ok (5 * (1000 * 60 * 60)).
Proof. refine (parse_duration_spec 5 (B "h") _ _); by vm_compute. Defined.

(** The range of an accepted configuration. *)
Lemma read_range get_str get_int created cfg :
  read get_str get_int created = Done cfg →
  created = true ∧ 16 * 1024 * 1024 ≤ segment_size (default_queue_config cfg) ≤ 2 ^ 31 ∧
  in_u64 (max_connections cfg) ∧ in_u32 (message_timeout (default_queue_config cfg)) ∧
  in_u32 (retention_period (default_queue_config cfg)) ∧
  in_u32 (hard_retention_period (default_queue_config cfg)).
Proof.
  unfold read. intros Hr. inv_outcome. repeat match goal with
    | Ha : (_ && _) = true |- _ => apply andb_true_iff in Ha as [?%Z.leb_le ?%Z.leb_le] end.
  cbn. split_and!; try done; unfold as_u64, as_u32, in_u64, in_u32; by apply Z.mod_pos_bound.
Qed.

(** *** What a text of [floki.toml] means *)

(** The number that digits write. *)
Definition number_from (acc : Z) (ds : list Z) : Z := foldl (λ n d, n * 10 + (d - 48)) acc ds.

Lemma number_from_ge acc ds : 0 ≤ acc → Forall (λ b, is_digit b = true) ds → acc ≤ number_from acc ds.
Proof.
  intros Ha Hd. revert acc Ha. unfold number_from. induction Hd as [|d ds Hd _ IH]; intros acc Ha; cbn; [lia|].
  unfold is_digit in Hd. specialize (IH (acc * 10 + (d - 48))). lia.
Qed.

Lemma parse_digits_number max acc ds :
  Forall (λ b, is_digit b = true) ds → 0 ≤ acc →
  parse_digits max acc ds = if decide (ds = [] ∨ number_from acc ds ≤ max) then Some (number_from acc ds) else None.
Proof.
  intros Hd. revert acc. induction Hd as [|d ds Hd Hds IH]; intros acc Ha; cbn [parse_digits]; [by rewrite decide_True by auto|].
  rewrite Hd. assert (0 ≤ acc * 10 + (d - 48)) as Ha' by (unfold is_digit in Hd; lia).
  pose proof (number_from_ge _ ds Ha' Hds) as Hge. change (number_from acc (d :: ds)) with (number_from (acc * 10 + (d - 48)) ds).
  destruct (Z.leb_spec (acc * 10 + (d - 48)) max) as [Hm|Hm].
  - rewrite IH by done. destruct (decide (number_from (acc * 10 + (d - 48)) ds ≤ max)) as [Hn|Hn].
    + by rewrite !decide_True by auto.
    + rewrite !decide_False; [done|intros [?|?]; done|]. intros [->|?]; [|done]. by apply Hn.
  - rewrite decide_False; [done|]. intros [?|?]; [done|lia].
Qed.

(** The units of [floki.toml]; the duration [ms] is not among those its
    comments list. *)
Definition size_units : list (list Z * Z) :=
  [(B "", 1); (B "b", 1); (B "k", 1024); (B "kb", 1024); (B "m", 1024 ^ 2); (B "mb", 1024 ^ 2); (B "g", 1024 ^ 3); (B "gb", 1024 ^ 3)].
Definition duration_units : list (list Z * Z) :=
  [(B "ms", 1); (B "", 1000); (B "s", 1000); (B "m", 60 * 1000); (B "h", 60 * 60 * 1000); (B "d", 24 * 60 * 60 * 1000)].

(** Digits and a unit, in either case, whose product fits [u64]. *)
Definition quantity (units : list (list Z * Z)) (text : list Z) (v : Z) : Prop :=
  ∃ ds suffix scale, text = ds ++ suffix ∧ ds ≠ [] ∧ Forall (λ b, is_digit b = true) ds ∧ digits_end suffix = O ∧
    (to_lowercase suffix, scale) ∈ units ∧ v = number_from 0 ds * scale ∧ v < 2 ^ 64.

Lemma digits_end_split s :
  Forall (λ b, is_digit b = true) (take (digits_end s) s) ∧ digits_end (drop (digits_end s) s) = O.
Proof.
  induction s as [|b s [IH1 IH2]]; [done|]. cbn [digits_end]. destruct (is_digit b) eqn:Hb; [|by cbn; rewrite Hb].
  cbn [take drop]. split; [by constructor|done].
Qed.

Lemma size_scale_units suffix scale : size_scale suffix = Some scale ↔ (to_lowercase suffix, scale) ∈ size_units.
Proof.
  unfold size_scale, size_units. rewrite !elem_of_cons, elem_of_nil. generalize (to_lowercase suffix). intros s.
  repeat case_bool_decide; naive_solver.
Qed.

Lemma duration_scale_units suffix scale : duration_scale suffix = Some scale ↔ (to_lowercase suffix, scale) ∈ duration_units.
Proof.
  unfold duration_scale, duration_units. rewrite !elem_of_cons, elem_of_nil. generalize (to_lowercase suffix). intros s.
  repeat case_bool_decide; naive_solver.
Qed.

Lemma split_number_suffix_iff s n suffix :
  split_number_suffix s = Ok (n, suffix) ↔
  ∃ ds, s = ds ++ suffix ∧ ds ≠ [] ∧ Forall (λ b, is_digit b = true) ds ∧ digits_end suffix = O ∧ n = number_from 0 ds ∧ n < 2 ^ 64.
Proof.
  assert (∀ ds, ds ≠ [] → Forall (λ b, is_digit b = true) ds →
    parse_u64 ds = if decide (number_from 0 ds < 2 ^ 64) then Some (number_from 0 ds) else None) as Hparse.
  { intros ds Hne Hd. destruct ds as [|d ds]; [done|]. unfold parse_u64. rewrite parse_unsigned_digit by by inversion Hd.
    unfold parse_nonempty. rewrite (parse_digits_number _ _ _ Hd) by done.
    destruct (decide (number_from 0 (d :: ds) < 2 ^ 64)); [rewrite decide_True by (right; lia)|rewrite decide_False by (intros [?|?]; [done|lia])]; done. }
  destruct (digits_end_split s) as [Hd He]. unfold split_number_suffix. split.
  - intros Hs. exists (take (digits_end s) s). destruct (take (digits_end s) s) as [|d ds] eqn:Ht; [done|].
    rewrite Hparse in Hs by done. destruct (decide (number_from 0 (d :: ds) < 2 ^ 64)); [|done]. injection Hs as <- <-.
    rewrite <-Ht at 1. rewrite take_drop. by split_and!.
  - intros (ds & -> & Hne & Hds & Hsuf & -> & Hn). rewrite digits_end_app, Hsuf, Nat.add_0_r by done.
    rewrite take_app_length, drop_app_length, Hparse by done. by rewrite decide_True.
Qed.

(** The shape of [parse_size] and of [parse_duration]. *)
Lemma scaled_iff (scale_of : list Z → option Z) units text v :
  (∀ suffix scale, scale_of suffix = Some scale ↔ (to_lowercase suffix, scale) ∈ units) →
  (∀ suffix scale, scale_of suffix = Some scale → 1 ≤ scale) →
  match split_number_suffix text with
  | Err e => Err e
  | Ok (n, suffix) =>
      match scale_of suffix with Some scale => checked_mul n scale | None => Err (UnknownSuffix suffix) end
  end = Ok v ↔ quantity units text v.
Proof.
  intros Hu H1. split.
  - destruct (split_number_suffix text) as [[n suffix]|] eqn:Hs; [|done].
    apply split_number_suffix_iff in Hs as (ds & -> & Hne & Hd & He & -> & Hn).
    destruct (scale_of suffix) as [scale|] eqn:Hsc; [|done]. rewrite checked_mul_spec. case_decide; [|done].
    intros [= <-]. exists ds, suffix, scale. split_and!; try done. by apply Hu.
  - intros (ds & suffix & scale & -> & Hne & Hd & He & Hin & -> & Hv). apply Hu in Hin. pose proof (H1 _ _ Hin).
    pose proof (number_from_ge 0 ds ltac:(done) Hd).
    rewrite (proj2 (split_number_suffix_iff (ds ++ suffix) (number_from 0 ds) suffix)) by (exists ds; split_and!; try done; nia).
    rewrite Hin, checked_mul_spec. by rewrite decide_True.
Qed.

Lemma parse_size_iff text v : parse_size text = Ok v ↔ quantity size_units text v.
Proof. apply scaled_iff; [apply size_scale_units|]. intros suffix scale Hs. by apply size_scale_range in Hs as [? _]. Qed.

Lemma parse_duration_iff text v : parse_duration text = Ok v ↔ quantity duration_units text v.
Proof.
  apply scaled_iff; [apply duration_scale_units|]. intros suffix scale. unfold duration_scale.
  repeat case_match; intros; simplify_eq; lia.
Qed.

(** The setting of a key is a quantity of these units. *)
Definition setting (get_str : list Z → option (list Z)) units (key : string) (v : Z) : Prop :=
  ∃ text, get_str (B key) = Some text ∧ quantity units text v.

Lemma read_config_size_iff get_str key v : read_config_size get_str (B key) = Done v ↔ setting get_str size_units key v.
Proof.
  unfold read_config_size, setting. setoid_rewrite <-parse_size_iff. destruct (get_str (B key)) as [text|]; cbn; [|naive_solver].
  destruct (parse_size text) as [n|e] eqn:Hp; cbn; split.
  - intros [= <-]. by exists text.
  - intros (text' & [= <-] & Hp'). rewrite Hp in Hp'. by injection Hp' as ->.
  - done.
  - intros (text' & [= <-] & Hp'). congruence.
Qed.

Lemma read_config_duration_iff get_str key v :
  read_config_duration get_str (B key) = Done v ↔ setting get_str duration_units key v.
Proof.
  unfold read_config_duration, setting. setoid_rewrite <-parse_duration_iff. destruct (get_str (B key)) as [text|]; cbn; [|naive_solver].
  destruct (parse_duration text) as [n|e] eqn:Hp; cbn; split.
  - intros [= <-]. by exists text.
  - intros (text' & [= <-] & Hp'). rewrite Hp in Hp'. by injection Hp' as ->.
  - done.
  - intros (text' & [= <-] & Hp'). congruence.
Qed.

(** A period is kept in whole seconds, modulo 2^32. *)
Definition period (get_str : list Z → option (list Z)) (key : string) (seconds : Z) : Prop :=
  ∃ ms, setting get_str duration_units key ms ∧ seconds = (ms / 1000) mod 2 ^ 32.

(** C40: What the server runs with is what [floki.toml] says. A configuration
    is accepted exactly when the data directory can be created, every key is
    there, every size and every duration is a number with one of the
    documented units (or [ms]) and fits [u64], and the segment size is
    between 16 MiB and 2 GiB; and then each field is the value of its key:
    sizes in bytes, the two intervals in milliseconds, the three periods in
    whole seconds. The periods wrap at 2^32 seconds and a negative
    [max_connections] at 2^64. *)
Theorem read_exact get_str get_int created cfg :
  read get_str get_int created = Done cfg ↔
  created = true ∧
  get_str (B "bind_address") = Some (bind_address cfg) ∧
  get_str (B "data_directory") = Some (server_data_directory cfg) ∧
  (∃ n, get_int (B "max_connections") = Some n ∧ max_connections cfg = n mod 2 ^ 64) ∧
  setting get_str duration_units "maintenance_interval" (maintenance_interval cfg) ∧
  setting get_str duration_units "monitor_interval" (monitor_interval cfg) ∧
  let d := default_queue_config cfg in
  name d = [] ∧ data_directory d = [] ∧
  setting get_str size_units "segment_size" (segment_size d) ∧
  16 * 1024 * 1024 ≤ segment_size d ≤ 2 * 1024 * 1024 * 1024 ∧
  period get_str "message_timeout" (message_timeout d) ∧
  period get_str "retention_period" (retention_period d) ∧
  period get_str "hard_retention_period" (hard_retention_period d) ∧
  setting get_str size_units "retention_size" (retention_size d) ∧
  setting get_str size_units "hard_retention_size" (hard_retention_size d).
Proof.
  unfold period. setoid_rewrite <-read_config_size_iff. setoid_rewrite <-read_config_duration_iff. split.
  - unfold read. intros Hr. inv_outcome. repeat match goal with
      | Ha : (_ && _) = true |- _ => apply andb_true_iff in Ha as [?%Z.leb_le ?%Z.leb_le]
      | Hu : read_config_str _ _ = Done _ |- _ => unfold read_config_str in Hu
      | Hu : read_config_int _ _ = Done _ |- _ => unfold read_config_int in Hu
      | Hu : unwrap ?o = Done _ |- _ => destruct o eqn:?; [injection Hu as ->|done] end.
    cbn. split_and!; eauto; lia.
  - destruct cfg as [dd ba mc mi mo [nm dir ss mt rp hp rs hs]].
    cbn [bind_address server_data_directory max_connections maintenance_interval monitor_interval default_queue_config name
      data_directory segment_size message_timeout retention_period hard_retention_period retention_size hard_retention_size].
    intros (-> & Hb & Hdd & (n & Hn & ->) & Hmi & Hmo & -> & -> & Hs & Hr & (m1 & H1 & ->) & (m2 & H2 & ->) & (m3 & H3 & ->) & H4 & H5).
    unfold read, read_config_str, read_config_int.
    rewrite Hb, Hdd, Hn, Hs, Hmi, Hmo, H1, H2, H3, H4, H5. cbn [unwrap]. rewrite !bind_Done.
    rewrite !assert_true, !bind_Done by (try done; apply andb_true_iff; split; apply Z.leb_le; lia). done.
Qed.

Definition sample_str (key : list Z) : option (list Z) :=
  if bool_decide (key = B "bind_address" ∨ key = B "data_directory") then Some (B "data")
  else if bool_decide (key = B "segment_size") then Some (B "64MB")
  else Some (B "30").

(** A period of 2^32 seconds is taken for 0, which switches the retention
    off, and a negative number of connections for a huge one. *)
Definition long_str (key : list Z) : option (list Z) :=
  if bool_decide (key = B "hard_retention_period") then Some (B "4294967296") else sample_str key.

Example long_periods_wrap :
  ∃ cfg, read long_str (λ _, Some (-1)) true = Done cfg ∧
    hard_retention_period (default_queue_config cfg) = 0 ∧ max_connections cfg = 2 ^ 64 - 1.
Proof. eexists. split; [vm_compute; reflexivity|]. by vm_compute. Qed.

End Config.
