(* ===== verification/Segments.v ===== *)
(** * Segments ([queue_backend.rs], [Segment] and [Message])

    A segment is one memory-mapped data file: a magic number, then messages,
    each a packed 20-byte header and a body. The definitions follow
    [Segment::create], [open], [new], [get], [push], [sync], [recover],
    [checkpoint] and [purge]; the mapping is the byte list [file_mmap].

    Third-party and operating-system code is an argument: the xxHash digest
    ([Hasher]) and the results of the system calls ([Os]). *)
From S2P Require Import Prelude.
From S2P Require Import Bytes.
From S2P Require Import Offsets.
From S2P Require Import Text.
From S2P Require Import Settings.

(** [XxHash::with_seed(0)], [write], [finish]: the digest of a byte string. *)
Class Hasher : Type := xxhash : list Z → Z.

(** System calls whose failure the code turns into an [io::Error]. *)
Inductive os_call : Type := OpenFile | Allocate | Metadata | Mmap | Madvise | Msync.

(** What the operating system does during one operation: which calls fail
    (with which error), and the contents of a truncated file after
    [FileExt::allocate]. *)
Record Os : Type := mkOs {
  os_fault : os_call → option Z;
  os_allocated : Z → list Z;
}.

(** Documented behaviour of [allocate] on an empty file: [len] zero bytes. *)
Definition os_zeroes (os : Os) : Prop :=
  ∀ n, os_allocated os n = replicate (Z.to_nat n) 0.

Definition no_faults (os : Os) : Prop := ∀ c, os_fault os c = None.

(** A system without failures. *)
Definition os_sound : Os := mkOs (λ _, None) (λ n, replicate (Z.to_nat n) 0).

Inductive QueueBackendError : Type :=
| MessageTooBig
| SegmentFull
| SegmentFileInvalid
| Io (e : Z).

#[export] Instance QueueBackendError_eq_dec : EqDecision QueueBackendError.
Proof. solve_decision. Defined.

(** [try!] on a system call. *)
Definition syscall (os : Os) (c : os_call) : outcome (result () QueueBackendError) :=
  mret match os_fault os c with Some e => Err (Io e) | None => Ok () end.

(** ** Message headers

    [#[repr(packed)] struct MessageHeader { hash: u32, id: u64, timestamp: u32, len: u32 }] *)
Module MessageHeader.

Definition size : Z := 20.
Definition hash (m : list Z) (off : Z) : outcome Z := read_u32 m off.
Definition id (m : list Z) (off : Z) : outcome Z := read_u64 m (off + 4).
Definition timestamp (m : list Z) (off : Z) : outcome Z := read_u32 m (off + 12).
Definition len (m : list Z) (off : Z) : outcome Z := read_u32 m (off + 16).

End MessageHeader.

Module Segment.

Definition MAGIC_NUM : Z := 0xF1031311.
Definition INVALID_TIMESTAMP : Z := 0.
Definition DATA_EXTENSION : list Z := B "data".

(** [SegmentCheckpoint]. *)
Record checkpoint_t : Type := mkCheckpoint {
  cp_tail : Z;
  cp_head : Z;
  cp_sync_offset : Z;
  cp_closed : bool;
}.

(** [struct Segment]; the [File] handle is the path and the mapping. *)
Record t : Type := mk {
  file_path : list Z;
  file_mmap : list Z;
  file_len : Z;
  file_offset : Z;
  sync_offset : Z;
  first_timestamp : Z;
  last_timestamp : Z;
  tail : Z;
  head : Z;
  closed : bool;
  deleted : bool;
  index : OffsetIndex.t;
}.

#[global] Instance checkpoint_eq_dec : EqDecision checkpoint_t.
Proof. solve_decision. Defined.
#[global] Instance t_eq_dec : EqDecision t.
Proof. solve_decision. Defined.

(** ** Field assignments *)

Definition set_closed (s : t) (b : bool) : t :=
  mk (file_path s) (file_mmap s) (file_len s) (file_offset s) (sync_offset s)
     (first_timestamp s) (last_timestamp s) (tail s) (head s) b (deleted s) (index s).
Definition set_deleted (s : t) (b : bool) : t :=
  mk (file_path s) (file_mmap s) (file_len s) (file_offset s) (sync_offset s)
     (first_timestamp s) (last_timestamp s) (tail s) (head s) (closed s) b (index s).
Definition set_sync_offset (s : t) (o : Z) : t :=
  mk (file_path s) (file_mmap s) (file_len s) (file_offset s) o
     (first_timestamp s) (last_timestamp s) (tail s) (head s) (closed s) (deleted s) (index s).
Definition set_file_offset (s : t) (o : Z) : t :=
  mk (file_path s) (file_mmap s) (file_len s) o (sync_offset s)
     (first_timestamp s) (last_timestamp s) (tail s) (head s) (closed s) (deleted s) (index s).
Definition set_mmap (s : t) (m : list Z) : t :=
  mk (file_path s) m (file_len s) (file_offset s) (sync_offset s)
     (first_timestamp s) (last_timestamp s) (tail s) (head s) (closed s) (deleted s) (index s).

(** [first_timestamp] is set once, [last_timestamp] at every message. *)
Definition stamp (first clock : Z) : Z :=
  if first =? INVALID_TIMESTAMP then clock else first.

Definition gen_file_path (config : Config.QueueConfig) (start_id : Z) (ext : list Z) : list Z :=
  Config.path_join (Config.data_directory config)
    (print_padded 15 start_id ++ B "." ++ ext).

Section ops.
Context `{Profile} `{Hasher}.

Definition hash_segment_message (m : list Z) (off : Z) : outcome Z :=
  len ← MessageHeader.len m off;
  bs ← mem_read m (off + 4) (MessageHeader.size + len - 4);
  mret (as_u32 (xxhash bs)).

Definition new (os : Os) (file file_path : list Z) (start_id : Z) :
    outcome (result t QueueBackendError) :=
  try! _ ← syscall os Metadata;
  let file_len := zlen file in
  if (file_len <=? 4) || (2 ^ 31 <=? file_len) then mret (Err SegmentFileInvalid) else
  try! _ ← syscall os Mmap;
  try! _ ← syscall os Madvise;
  mret (Ok {| file_path := file_path;
              file_mmap := file;
              file_len := as_u32 file_len;
              file_offset := 0;
              sync_offset := 0;
              first_timestamp := INVALID_TIMESTAMP;
              last_timestamp := INVALID_TIMESTAMP;
              tail := start_id;
              head := start_id;
              closed := false;
              deleted := false;
              index := OffsetIndex.new start_id |}).

Definition create (os : Os) (config : Config.QueueConfig) (start_id : Z) :
    outcome (result t QueueBackendError) :=
  let file_path := gen_file_path config start_id DATA_EXTENSION in
  try! _ ← syscall os OpenFile;
  try! _ ← syscall os Allocate;
  let file := os_allocated os (Config.segment_size config) in
  try! segment ← new os file file_path start_id;
  m ← write_u32 (file_mmap segment) 0 MAGIC_NUM;
  mret (Ok (set_file_offset (set_mmap segment m) 4)).

(** [Segment::get]; the pointer of the [InnerMessage] is its offset. *)
Definition get (s : t) (id : Z) : outcome (result Z ()) :=
  found ← OffsetIndex.get_offset (index s) id;
  match found with
  | None => mret (Err ())
  | Some message_offset =>
      _ ← assert (message_offset <=? file_offset s);
      len ← MessageHeader.len (file_mmap s) message_offset;
      body_offset ← u32 (message_offset + MessageHeader.size);
      message_end_offset ← u32 (body_offset + len);
      _ ← assert (message_end_offset <=? file_offset s);
      header_id ← MessageHeader.id (file_mmap s) message_offset;
      _ ← assert (header_id =? id);
      mret (Ok message_offset)
  end.

(** The unsafe block of [push]: the header fields, the body, and last the
    hash of both. *)
Definition write_message (m : list Z) (off id clock : Z) (body : list Z) : outcome (list Z) :=
  m ← write_u64 m (off + 4) id;
  m ← write_u32 m (off + 12) clock;
  m ← write_u32 m (off + 16) (as_u32 (zlen body));
  m ← mem_write m (off + MessageHeader.size) body;
  h ← hash_segment_message m off;
  write_u32 m off h.

Definition push (s : t) (body : list Z) (clock : Z) :
    outcome (t * result Z QueueBackendError) :=
  message_total_len ← u32 (MessageHeader.size + as_u32 (zlen body));
  room ← u32 (file_len s - file_offset s);
  if room <? message_total_len then
    least ← u32 (message_total_len + 4);
    if file_len s <=? least then mret (s, Err MessageTooBig)
    else mret (set_closed s true, Err SegmentFull)
  else
    let id := head s in
    m ← write_message (file_mmap s) (file_offset s) id clock body;
    offset' ← u32 (file_offset s + message_total_len);
    head' ← u64 (head s + 1);
    start ← u32 (offset' - message_total_len);
    index' ← OffsetIndex.push_offset (index s) id start;
    mret ({| file_path := file_path s;
             file_mmap := m;
             file_len := file_len s;
             file_offset := offset';
             sync_offset := sync_offset s;
             first_timestamp := stamp (first_timestamp s) clock;
             last_timestamp := clock;
             tail := tail s;
             head := head';
             closed := closed s;
             deleted := deleted s;
             index := index' |}, Ok id).

(** [Segment::sync] and the length given to [msync], if it was called. *)
Definition sync (os : Os) (s : t) (full : bool) : outcome (t * option Z) :=
  let page_mask := Z.lxor (4 * 1024 - 1) (2 ^ 32 - 1) in
  offset' ← (if full || closed s then
               x ← u32 (file_offset s + 4 * 1024);
               x ← u32 (x - 1);
               mret (Z.land x page_mask)
             else mret (Z.land (Z.max 0 (file_offset s - 1024 * 1024)) page_mask));
  if (0 <? offset') && (sync_offset s <? offset') then
    _ ← assert (bool_decide (os_fault os Msync = None));
    mret (set_sync_offset s offset', Some offset')
  else mret (s, None).

(** One turn of the loop of [recover]; [None] is a [break]. *)
Definition recover_step (s : t) : outcome (option t) :=
  let m := file_mmap s in
  len ← MessageHeader.len m (file_offset s);
  message_total_len ← u32 (MessageHeader.size + len);
  id ← MessageHeader.id m (file_offset s);
  if negb (id =? head s) then mret None else
  message_end ← u32 (file_offset s + message_total_len);
  if message_end <? file_len s then
    hash ← MessageHeader.hash m (file_offset s);
    actual ← hash_segment_message m (file_offset s);
    if negb (hash =? actual) then mret None else
    timestamp ← MessageHeader.timestamp m (file_offset s);
    advance ← u32 (MessageHeader.size + len);
    offset' ← u32 (file_offset s + advance);
    head' ← u64 (head s + 1);
    start ← u32 (offset' - message_total_len);
    index' ← OffsetIndex.push_offset (index s) id start;
    mret (Some {| file_path := file_path s;
                  file_mmap := m;
                  file_len := file_len s;
                  file_offset := offset';
                  sync_offset := sync_offset s;
                  first_timestamp := stamp (first_timestamp s) timestamp;
                  last_timestamp := timestamp;
                  tail := tail s;
                  head := head';
                  closed := closed s;
                  deleted := deleted s;
                  index := index' |})
  else mret None.

Fixpoint recover_loop (fuel : nat) (s : t) : outcome t :=
  match fuel with
  | O => mret s
  | S fuel =>
      body_offset ← u32 (file_offset s + MessageHeader.size);
      if body_offset <? file_len s then
        next ← recover_step s;
        match next with
        | None => mret s
        | Some s => recover_loop fuel s
        end
      else mret s
  end.

(** Every turn advances the offset by at least a header, so that the loop
    makes fewer turns than the file has bytes. *)
Definition recover_fuel (s : t) : nat := Z.to_nat (file_len s).

Definition recover (os : Os) (s : t) (checkpoint : checkpoint_t) :
    outcome (result t QueueBackendError) :=
  _ ← assert (tail s =? cp_tail checkpoint);
  let s := {| file_path := file_path s;
              file_mmap := file_mmap s;
              file_len := file_len s;
              file_offset := file_offset s;
              sync_offset := cp_sync_offset checkpoint;
              first_timestamp := first_timestamp s;
              last_timestamp := last_timestamp s;
              tail := cp_tail checkpoint;
              head := cp_tail checkpoint;
              closed := cp_closed checkpoint;
              deleted := deleted s;
              index := index s |} in
  try! _ ← syscall os Madvise;
  let s := set_file_offset s 4 in
  magic ← read_u32 (file_mmap s) 0;
  m ← (if negb (magic =? MAGIC_NUM) then write_u32 (file_mmap s) 0 MAGIC_NUM
       else mret (file_mmap s));
  s ← recover_loop (recover_fuel s) (set_mmap s m);
  mret (Ok (set_sync_offset s (file_offset s))).

(** [Segment::open] on the file's contents, [None] when it does not exist
    (error code 2, [ENOENT]). *)
Definition open (os : Os) (config : Config.QueueConfig) (file : option (list Z))
    (checkpoint : checkpoint_t) : outcome (result t QueueBackendError) :=
  let file_path := gen_file_path config (cp_tail checkpoint) DATA_EXTENSION in
  try! _ ← syscall os OpenFile;
  match file with
  | None => mret (Err (Io 2))
  | Some file =>
      try! segment ← new os file file_path (cp_tail checkpoint);
      recover os segment checkpoint
  end.

(** [Segment::checkpoint]; also the [msync] it made. *)
Definition checkpoint (os : Os) (s : t) (full : bool) :
    outcome (t * checkpoint_t * option Z) :=
  '(s', synced) ← sync os s full;
  mret (s', {| cp_tail := tail s;
               cp_head := head s;
               cp_sync_offset := sync_offset s';
               cp_closed := closed s |}, synced).

Definition purge (s : t) : outcome t :=
  _ ← assert (negb (deleted s));
  mret (set_deleted s true).

(** [Drop for Segment]: the file it removes, if any. *)
Definition drop (s : t) : option (list Z) := if deleted s then Some (file_path s) else None.

End ops.
End Segment.

(** [struct Message]: the segment it points into and the header's offset. *)
Module Message.

Record t : Type := mk {
  segment : Segment.t;
  mmap_ptr : Z;
}.

Definition id (m : t) : outcome Z := MessageHeader.id (Segment.file_mmap (segment m)) (mmap_ptr m).
Definition timestamp (m : t) : outcome Z :=
  MessageHeader.timestamp (Segment.file_mmap (segment m)) (mmap_ptr m).
Definition body (m : t) : outcome (list Z) :=
  len ← MessageHeader.len (Segment.file_mmap (segment m)) (mmap_ptr m);
  mem_read (Segment.file_mmap (segment m)) (mmap_ptr m + MessageHeader.size) len.
Definition fd_offset (m : t) : Z := as_u32 (mmap_ptr m).

End Message.
