(* ===== verification/SegmentSpec.v ===== *)
(** * What a segment file holds

    The abstract contents of a segment is the list of its messages
    (timestamp and body). [rep s msgs rest] relates a [Segment] to it: the
    mapping is the magic number, the encoded messages and [rest]; offsets,
    ids, timestamps and index agree. The theorems say that [create] starts
    empty, [push] appends, [get] finds, and [recover] reads back exactly the
    messages that were pushed. *)
From S2P Require Import Prelude.
From S2P Require Import Bytes.
From S2P Require Import Offsets.
From S2P Require Import Text.
From S2P Require Import Settings.
From S2P Require Import Segments.

(** A stored message: its timestamp and its body. *)
Abbreviation msg := (Z * list Z)%type.

(** A message whose length fits the header's arithmetic. *)
Definition wf_msg (m : msg) : Prop := in_u32 m.1 ∧ MessageHeader.size + zlen m.2 < 2 ^ 32.

Definition msg_size (m : msg) : Z := MessageHeader.size + zlen m.2.

(** Offsets of the headers when the first is at [off]. *)
Fixpoint offsets (off : Z) (msgs : list msg) : list Z :=
  match msgs with
  | [] => []
  | m :: msgs => off :: offsets (off + msg_size m) msgs
  end.

Fixpoint total_size (msgs : list msg) : Z :=
  match msgs with
  | [] => 0
  | m :: msgs => msg_size m + total_size msgs
  end.

(** [first_timestamp] and [last_timestamp] after the messages were added. *)
Definition first_ts (msgs : list msg) : Z :=
  foldl (λ f m, Segment.stamp f m.1) Segment.INVALID_TIMESTAMP msgs.
Definition last_ts (msgs : list msg) : Z :=
  foldl (λ _ m, m.1) Segment.INVALID_TIMESTAMP msgs.

Definition magic_bytes : list Z := le_bytes 4 Segment.MAGIC_NUM.
Arguments magic_bytes : simpl never.

Section spec.
Context `{Hasher}.

(** The hashed part of a message: id, timestamp, length, body. *)
Definition enc_payload (id : Z) (m : msg) : list Z :=
  le_bytes 8 id ++ le_bytes 4 m.1 ++ le_bytes 4 (zlen m.2) ++ m.2.

Definition enc_msg (id : Z) (m : msg) : list Z :=
  le_bytes 4 (as_u32 (xxhash (enc_payload id m))) ++ enc_payload id m.

Fixpoint enc_msgs (id : Z) (msgs : list msg) : list Z :=
  match msgs with
  | [] => []
  | m :: msgs => enc_msg id m ++ enc_msgs (id + 1) msgs
  end.

Record rep (s : Segment.t) (msgs : list msg) (rest : list Z) : Prop := {
  rep_mmap : Segment.file_mmap s = magic_bytes ++ enc_msgs (Segment.tail s) msgs ++ rest;
  rep_offset : Segment.file_offset s = 4 + total_size msgs;
  rep_len : Segment.file_len s = zlen (Segment.file_mmap s);
  rep_len_range : 4 < Segment.file_len s < 2 ^ 31;
  rep_head : Segment.head s = Segment.tail s + zlen msgs;
  rep_tail : 0 ≤ Segment.tail s < 2 ^ 63;
  rep_index : Segment.index s = OffsetIndex.mk (Segment.tail s) (offsets 4 msgs);
  rep_first : Segment.first_timestamp s = first_ts msgs;
  rep_last : Segment.last_timestamp s = last_ts msgs;
  rep_wf : Forall wf_msg msgs;
}.

(** ** Sizes *)

Lemma zlen_enc_payload id m : zlen (enc_payload id m) = 16 + zlen m.2.
Proof. unfold enc_payload. zl. Qed.

Lemma zlen_enc_msg id m : zlen (enc_msg id m) = msg_size m.
Proof.
  unfold enc_msg, msg_size, MessageHeader.size.
  rewrite zlen_app, zlen_le_bytes, zlen_enc_payload. lia.
Qed.

Lemma zlen_enc_msgs id msgs : zlen (enc_msgs id msgs) = total_size msgs.
Proof.
  revert id. induction msgs as [|m msgs IH]; intros id; [done|].
  cbn [enc_msgs total_size]. by rewrite zlen_app, zlen_enc_msg, IH.
Qed.

Lemma msg_size_pos m : 20 ≤ msg_size m.
Proof. unfold msg_size, MessageHeader.size. pose proof (zlen_nonneg m.2). lia. Qed.

Lemma total_size_ge msgs : 20 * zlen msgs ≤ total_size msgs.
Proof.
  induction msgs as [|m msgs IH]; [done|]. cbn [total_size].
  rewrite zlen_cons. pose proof (msg_size_pos m). lia.
Qed.

Lemma total_size_app l k : total_size (l ++ k) = total_size l + total_size k.
Proof. induction l as [|m l IH]; [done|]. cbn [app total_size]. lia. Qed.

Lemma total_size_nonneg msgs : 0 ≤ total_size msgs.
Proof. pose proof (total_size_ge msgs). pose proof (zlen_nonneg msgs). lia. Qed.

Lemma total_size_split msgs i m :
  msgs !! i = Some m →
  total_size msgs = total_size (take i msgs) + msg_size m + total_size (drop (S i) msgs).
Proof.
  intros Hi. rewrite <-(take_drop_middle msgs i m Hi) at 1.
  rewrite total_size_app. cbn [total_size]. lia.
Qed.

Lemma enc_msgs_app id l k : enc_msgs id (l ++ k) = enc_msgs id l ++ enc_msgs (id + zlen l) k.
Proof.
  revert id. induction l as [|m l IH]; intros id.
  { by rewrite zlen_nil, Z.add_0_r. }
  cbn [app enc_msgs]. rewrite IH, <-app_assoc, zlen_cons. do 3 f_equal. lia.
Qed.

Lemma offsets_app off l k : offsets off (l ++ k) = offsets off l ++ offsets (off + total_size l) k.
Proof.
  revert off. induction l as [|m l IH]; intros off; [by rewrite Z.add_0_r|].
  cbn [app offsets total_size]. rewrite IH. do 3 f_equal. lia.
Qed.

Lemma zlen_offsets off l : zlen (offsets off l) = zlen l.
Proof.
  revert off. induction l as [|m l IH]; intros off; [done|]. cbn. by rewrite !zlen_cons, IH.
Qed.

Lemma first_ts_snoc msgs m : first_ts (msgs ++ [m]) = Segment.stamp (first_ts msgs) m.1.
Proof. unfold first_ts. by rewrite foldl_app. Qed.

Lemma last_ts_snoc msgs m : last_ts (msgs ++ [m]) = m.1.
Proof. unfold last_ts. by rewrite foldl_app. Qed.

(** The offset of message [i], and its bytes at that offset. *)
Lemma offsets_lookup off msgs i m :
  msgs !! i = Some m → offsets off msgs !! i = Some (off + total_size (take i msgs)).
Proof.
  intros Hi. apply list_elem_of_split_length in Hi as (l & k & -> & ->).
  rewrite offsets_app, lookup_app_r, take_app_length by
    (apply Nat2Z.inj_le; change (zlen (offsets off l) ≤ zlen l); by rewrite zlen_offsets).
  replace (length l - length (offsets off l))%nat with O; [done|].
  pose proof (zlen_offsets off l). unfold zlen in *. lia.
Qed.

Lemma stored_enc_msgs pre id msgs post i m :
  msgs !! i = Some m →
  stored (pre ++ enc_msgs id msgs ++ post) (zlen pre + total_size (take i msgs))
    (enc_msg (id + Z.of_nat i) m).
Proof.
  intros Hi. apply list_elem_of_split_length in Hi as (l & k & -> & ->).
  rewrite take_app_length, enc_msgs_app. cbn [enc_msgs].
  exists (pre ++ enc_msgs id l), (enc_msgs (id + zlen l + 1) k ++ post).
  rewrite <-!app_assoc, zlen_app, zlen_enc_msgs. done.
Qed.

(** ** Reading the fields of a stored message *)

Lemma stored_fields m off id x :
  stored m off (enc_msg id x) →
  stored m off (le_bytes 4 (as_u32 (xxhash (enc_payload id x)))) ∧
  stored m (off + 4) (enc_payload id x) ∧
  stored m (off + 4) (le_bytes 8 id) ∧
  stored m (off + 12) (le_bytes 4 x.1) ∧
  stored m (off + 16) (le_bytes 4 (zlen x.2)) ∧
  stored m (off + 20) x.2.
Proof.
  unfold enc_msg. intros [Hh Hp]%stored_app. rewrite zlen_le_bytes in Hp.
  split; [done|]. split; [done|].
  unfold enc_payload in Hp. rewrite !stored_app, !zlen_le_bytes in Hp.
  replace (off + Z.of_nat 4 + Z.of_nat 8) with (off + 12) in Hp by lia.
  replace (off + 12 + Z.of_nat 4) with (off + 16) in Hp by lia.
  replace (off + 16 + Z.of_nat 4) with (off + 20) in Hp by lia. tauto.
Qed.

Section reading.
Context `{Profile} (m : list Z) (off id : Z) (x : msg).
Hypothesis Hs : stored m off (enc_msg id x).
Hypothesis Hid : in_u64 id.
Hypothesis Hx : wf_msg x.

Lemma header_len : MessageHeader.len m off = Done (zlen x.2).
Proof.
  apply read_u32_stored; [apply (stored_fields _ _ _ _ Hs)|].
  destruct Hx as [_ Hl]. unfold in_u32, MessageHeader.size in *.
  pose proof (zlen_nonneg x.2). lia.
Qed.

Lemma header_id : MessageHeader.id m off = Done id.
Proof. apply read_u64_stored; [apply (stored_fields _ _ _ _ Hs)|done]. Qed.

Lemma header_timestamp : MessageHeader.timestamp m off = Done x.1.
Proof. apply read_u32_stored; [apply (stored_fields _ _ _ _ Hs)|apply Hx]. Qed.

Lemma header_hash : MessageHeader.hash m off = Done (as_u32 (xxhash (enc_payload id x))).
Proof.
  apply read_u32_stored; [apply (stored_fields _ _ _ _ Hs)|].
  by apply Z.mod_pos_bound.
Qed.

Lemma hash_stored :
  Segment.hash_segment_message m off = Done (as_u32 (xxhash (enc_payload id x))).
Proof.
  unfold Segment.hash_segment_message. rewrite header_len, bind_Done.
  rewrite (mem_read_stored_n _ _ (enc_payload id x)); [done|apply (stored_fields _ _ _ _ Hs)|].
  rewrite zlen_enc_payload. unfold MessageHeader.size. lia.
Qed.

Lemma body_stored : mem_read m (off + MessageHeader.size) (zlen x.2) = Done x.2.
Proof. apply mem_read_stored, (stored_fields _ _ _ _ Hs). Qed.
End reading.

End spec.

(** [Message::id], [timestamp] and [body] return what was pushed. *)
Lemma message_fields `{Hasher} (m : Message.t) id x :
  stored (Segment.file_mmap (Message.segment m)) (Message.mmap_ptr m) (enc_msg id x) →
  in_u64 id → wf_msg x →
  Message.id m = Done id ∧ Message.timestamp m = Done x.1 ∧ Message.body m = Done x.2.
Proof.
  intros Hs Hid Hx. unfold Message.id, Message.timestamp, Message.body.
  erewrite header_id, header_timestamp, header_len by eauto.
  split_and!; [done..|]. rewrite bind_Done. by eapply body_stored.
Qed.
