(* ===== verification/SegmentFacts.v ===== *)
(** * Correctness of segments

    [create], [push] and [get] against [rep], the error branches of [push]
    and the bounds of [sync]. Recovery is in [Recovery.v]. *)
From S2P Require Import Prelude.
From S2P Require Import Bytes.
From S2P Require Import Offsets.
From S2P Require Import Text.
From S2P Require Import Settings.
From S2P Require Import Segments.
From S2P Require Import SegmentSpec.

(** A toy digest for the concrete runs: the sum of the bytes. *)
Definition sum_hasher : Hasher := λ bs, foldr Z.add 0 bs.

(** A small queue configuration for the concrete runs. *)
Definition tiny_config (size : Z) : Config.QueueConfig :=
  {| Config.name := B "q"; Config.data_directory := B "d"; Config.segment_size := size;
     Config.message_timeout := 30; Config.retention_period := 0;
     Config.hard_retention_period := 0; Config.retention_size := 0;
     Config.hard_retention_size := 0 |}.

(** The message fits in what is left of the segment's file. *)
Definition fits (s : Segment.t) (x : msg) : Prop :=
  msg_size x ≤ Segment.file_len s - Segment.file_offset s.
#[export] Instance fits_dec s x : Decision (fits s x).
Proof. unfold fits. apply _. Defined.

Section facts.
Context `{Profile} `{Hasher}.

Lemma rep_set_closed s msgs rest b : rep s msgs rest → rep (Segment.set_closed s b) msgs rest.
Proof. by destruct 1; constructor. Qed.

Lemma rep_set_sync_offset s msgs rest o :
  rep s msgs rest → rep (Segment.set_sync_offset s o) msgs rest.
Proof. by destruct 1; constructor. Qed.

(** ** Creation *)

Lemma syscall_ok os c : no_faults os → syscall os c = Done (Ok ()).
Proof. intros Hos. unfold syscall. by rewrite Hos. Qed.

Definition fresh_file (size : Z) : list Z := replicate (Z.to_nat size) 0.

Lemma new_ok os file path id :
  no_faults os → 4 < zlen file < 2 ^ 31 →
  Segment.new os file path id =
    Done (Ok (Segment.mk path file (zlen file) 0 0 0 0 id id false false (OffsetIndex.new id))).
Proof.
  intros Hos Hlen. unfold Segment.new. rewrite !syscall_ok by done. rewrite !bind_Done.
  rewrite (proj2 (Z.leb_gt _ _)), (proj2 (Z.leb_gt _ _)) by lia. cbn [orb].
  rewrite ?bind_Done. by rewrite as_u32_in by (unfold in_u32; lia).
Qed.

Lemma create_ok os config id :
  no_faults os → os_zeroes os → 4 < Config.segment_size config < 2 ^ 31 → 0 ≤ id < 2 ^ 63 →
  ∃ s, Segment.create os config id = Done (Ok s) ∧
    rep s [] (replicate (Z.to_nat (Config.segment_size config - 4)) 0) ∧
    Segment.tail s = id ∧ Segment.closed s = false ∧ Segment.deleted s = false ∧
    Segment.file_len s = Config.segment_size config ∧ Segment.sync_offset s = 0 ∧
    Segment.file_path s = Segment.gen_file_path config id Segment.DATA_EXTENSION.
Proof.
  intros Hos Hz Hsize Hid. unfold Segment.create. rewrite !syscall_ok, !bind_Done, Hz by done.
  set (size := Config.segment_size config) in *.
  replace (Z.to_nat size) with (4 + Z.to_nat (size - 4))%nat by lia.
  rewrite replicate_add, new_ok by (try done; rewrite zlen_app, !zlen_replicate; lia).
  rewrite bind_Done. unfold write_u32. cbn [Segment.file_mmap].
  rewrite (mem_write_frame [] (replicate 4 0) _ (le_bytes 4 Segment.MAGIC_NUM) 0 eq_refl eq_refl
    : mem_write (replicate 4 0 ++ _) 0 _ = _).
  rewrite bind_Done. eexists. split; [reflexivity|].
  rewrite zlen_app, !zlen_replicate.
  split_and!; try done; [|cbn; lia].
  constructor; cbn; try done; try lia.
  - rewrite !zlen_cons, zlen_replicate. lia.
  - rewrite zlen_nil. lia.
Qed.

(** ** Push *)

(** The writes of [push] leave exactly the encoded message. *)
Lemma write_message_spec pre old post id x off :
  zlen pre = off → zlen old = msg_size x → in_u64 id → wf_msg x →
  Segment.write_message (pre ++ old ++ post) off id x.1 x.2 =
    Done (pre ++ enc_msg id x ++ post).
Proof.
  intros Hpre Hold Hid [Hts Hx]. unfold msg_size, MessageHeader.size in *.
  pose proof (zlen_nonneg x.2) as Hb.
  assert (∃ h i t l b, old = h ++ i ++ t ++ l ++ b ∧ zlen h = 4 ∧ zlen i = 8 ∧
    zlen t = 4 ∧ zlen l = 4 ∧ zlen b = zlen x.2) as (h&i&t&l&b&->&Hh&Hi&Ht&Hl&Hbody).
  { exists (take 4 old), (take 8 (drop 4 old)), (take 4 (drop 12 old)),
      (take 4 (drop 16 old)), (drop 20 old).
    split_and!; unfold zlen in *; rewrite ?length_take, ?length_drop; try lia.
    rewrite <-(take_drop 4 old) at 1. f_equal.
    rewrite <-(take_drop 8 (drop 4 old)) at 1. rewrite drop_drop. f_equal.
    rewrite <-(take_drop 4 (drop (4 + 8) old)) at 1. rewrite drop_drop. f_equal.
    rewrite <-(take_drop 4 (drop (4 + 8 + 4) old)) at 1. by rewrite drop_drop. }
  unfold Segment.write_message, write_u64, write_u32, MessageHeader.size.
  rewrite <-!app_assoc. rewrite as_u32_in by (unfold in_u32; lia).
  rewrite (app_assoc pre h), (mem_write_frame (pre ++ h) i) by zl. rewrite bind_Done.
  rewrite (app_assoc (pre ++ h)), (mem_write_frame _ t) by zl. rewrite bind_Done.
  rewrite (app_assoc (_ ++ le_bytes 8 id)), (mem_write_frame _ l) by zl. rewrite bind_Done.
  rewrite (app_assoc (_ ++ le_bytes 4 x.1)), (mem_write_frame _ b) by zl. rewrite bind_Done.
  unfold Segment.hash_segment_message.
  rewrite <-!app_assoc.
  assert (MessageHeader.len (pre ++ h ++ le_bytes 8 id ++ le_bytes 4 x.1 ++
    le_bytes 4 (zlen x.2) ++ x.2 ++ post) off = Done (zlen x.2)) as ->.
  { unfold MessageHeader.len. apply read_u32_stored; [|unfold in_u32; lia].
    exists (pre ++ h ++ le_bytes 8 id ++ le_bytes 4 x.1), (x.2 ++ post).
    rewrite <-!app_assoc. split; [done|zl]. }
  rewrite bind_Done, (mem_read_stored_n _ _ (enc_payload id x)).
  - rewrite !bind_Done. rewrite (mem_write_frame pre h) by zl.
    unfold enc_msg, enc_payload. by rewrite <-!app_assoc.
  - exists (pre ++ h), post. unfold enc_payload. rewrite <-!app_assoc. split; [done|zl].
  - rewrite zlen_enc_payload. unfold MessageHeader.size. lia.
Qed.

Lemma rep_next_id s msgs rest :
  rep s msgs rest → OffsetIndex.next_id (Segment.index s) = Segment.head s.
Proof.
  intros Hr. unfold OffsetIndex.next_id. rewrite (rep_index _ _ _ Hr). cbn.
  rewrite zlen_offsets, (rep_head _ _ _ Hr). done.
Qed.

Lemma rep_push_offset s msgs rest o :
  rep s msgs rest → Segment.head s < 2 ^ 64 →
  OffsetIndex.push_offset (Segment.index s) (Segment.head s) o =
    Done (OffsetIndex.mk (Segment.tail s) (offsets 4 msgs ++ [o])).
Proof.
  intros Hr Hh. pose proof (rep_tail _ _ _ Hr). rewrite <-(rep_next_id _ _ _ Hr) in *.
  rewrite (rep_index _ _ _ Hr) in *. by apply OffsetIndex.push_offset_next; [cbn; lia|].
Qed.

Lemma rep_sizes s msgs rest :
  rep s msgs rest →
  Segment.file_len s = 4 + total_size msgs + zlen rest ∧ 0 ≤ total_size msgs ∧
  20 * zlen msgs ≤ total_size msgs ∧ total_size msgs < 2 ^ 31.
Proof.
  intros Hr. pose proof (total_size_ge msgs). pose proof (zlen_nonneg msgs).
  pose proof (rep_len _ _ _ Hr) as Hl. pose proof (rep_len_range _ _ _ Hr).
  rewrite (rep_mmap _ _ _ Hr), !zlen_app, zlen_enc_msgs in Hl.
  change (zlen magic_bytes) with 4 in Hl. pose proof (zlen_nonneg rest). lia.
Qed.

(** A message that fits is appended and gets the id [head]. *)
Lemma push_fits s msgs rest x :
  rep s msgs rest → wf_msg x → fits s x →
  ∃ s', Segment.push s x.2 x.1 = Done (s', Ok (Segment.head s)) ∧
    rep s' (msgs ++ [x]) (drop (Z.to_nat (msg_size x)) rest) ∧
    Segment.tail s' = Segment.tail s ∧ Segment.closed s' = Segment.closed s ∧
    Segment.deleted s' = Segment.deleted s ∧ Segment.file_len s' = Segment.file_len s ∧
    Segment.file_path s' = Segment.file_path s ∧
    Segment.sync_offset s' = Segment.sync_offset s.
Proof.
  intros Hr Hx Hfit. unfold fits in Hfit.
  destruct (rep_sizes _ _ _ Hr) as (Hsz & Hpos & H20 & Hlt).
  pose proof (rep_len_range _ _ _ Hr) as Hlr. pose proof (rep_head _ _ _ Hr) as Hh.
  pose proof (rep_tail _ _ _ Hr) as Ht. pose proof (zlen_nonneg msgs).
  pose proof (zlen_nonneg x.2). pose proof (msg_size_pos x).
  rewrite (rep_offset _ _ _ Hr) in Hfit.
  assert (Hwm : Segment.write_message (Segment.file_mmap s) (Segment.file_offset s)
      (Segment.head s) x.1 x.2 =
    Done (magic_bytes ++ enc_msgs (Segment.tail s) (msgs ++ [x]) ++
          drop (Z.to_nat (msg_size x)) rest)).
  { rewrite (rep_mmap _ _ _ Hr), (rep_offset _ _ _ Hr), <-(take_drop (Z.to_nat (msg_size x)) rest) at 1.
    rewrite app_assoc, write_message_spec; [|rewrite zlen_app, zlen_enc_msgs; done|
      by rewrite zlen_take by lia|unfold in_u64; lia|done].
    rewrite enc_msgs_app. cbn [enc_msgs]. rewrite app_nil_r, <-!app_assoc, <-Hh. done. }
  unfold Segment.push, msg_size, MessageHeader.size in *.
  destruct Hx as [Hts Hxl]. unfold MessageHeader.size in *. rewrite (rep_offset _ _ _ Hr) in *.
  mint. rewrite (proj2 (Z.ltb_ge _ _)) by lia. rewrite Hwm. mint.
  rewrite (rep_push_offset _ _ _ _ Hr) by lia. rewrite bind_Done. eexists. split; [reflexivity|].
  split_and!; try done. constructor; cbn; try done.
  - rewrite total_size_app. cbn. unfold msg_size, MessageHeader.size. lia.
  - rewrite !zlen_app, zlen_enc_msgs, total_size_app, zlen_drop by (split; lia).
    cbn. change (zlen magic_bytes) with 4. unfold msg_size, MessageHeader.size. lia.
  - rewrite zlen_app, zlen_cons, zlen_nil. lia.
  - f_equal. rewrite offsets_app. cbn. do 2 f_equal. lia.
  - by rewrite first_ts_snoc, (rep_first _ _ _ Hr).
  - by rewrite last_ts_snoc.
  - apply Forall_app. split; [apply (rep_wf _ _ _ Hr)|]. constructor; [split; done|done].
Qed.

(** A message that does not fit is refused without touching the file: too
    big when not even an empty segment of this length leaves a spare byte
    for it, otherwise the segment is closed. *)
Lemma push_no_room s x :
  wf_msg x → 0 ≤ Segment.file_offset s ≤ Segment.file_len s → Segment.file_len s < 2 ^ 31 →
  ¬ fits s x → msg_size x + 4 < 2 ^ 32 →
  Segment.push s x.2 x.1 =
    if decide (Segment.file_len s ≤ msg_size x + 4) then Done (s, Err MessageTooBig)
    else Done (Segment.set_closed s true, Err SegmentFull).
Proof.
  intros [_ Hx] Hoff Hlen Hfit Hbig. unfold fits, msg_size in *. unfold Segment.push.
  pose proof (zlen_nonneg x.2). unfold MessageHeader.size in *.
  mint. rewrite (proj2 (Z.ltb_lt _ _)) by lia. mint.
  case_decide; [rewrite (proj2 (Z.leb_le _ _))|rewrite (proj2 (Z.leb_gt _ _))]; (done || lia).
Qed.

(** ** Get *)

Lemma get_present s msgs rest i x :
  rep s msgs rest → msgs !! i = Some x →
  Segment.get s (Segment.tail s + Z.of_nat i) = Done (Ok (4 + total_size (take i msgs))) ∧
  stored (Segment.file_mmap s) (4 + total_size (take i msgs)) (enc_msg (Segment.tail s + Z.of_nat i) x).
Proof.
  intros Hr Hi. set (id := Segment.tail s + Z.of_nat i). set (off := 4 + total_size (take i msgs)).
  assert (Hst : stored (Segment.file_mmap s) off (enc_msg id x)).
  { rewrite (rep_mmap _ _ _ Hr). by apply (stored_enc_msgs magic_bytes). }
  split; [|done].
  destruct (rep_sizes _ _ _ Hr) as (Hsz & Hpos & H20 & Hlt).
  pose proof (rep_tail _ _ _ Hr). pose proof (lookup_lt_Some _ _ _ Hi) as Hlti.
  assert (Hx : wf_msg x) by (by eapply Forall_lookup_1; [apply (rep_wf _ _ _ Hr)|]).
  assert (Hid : in_u64 id) by (unfold in_u64, id, zlen in *; lia).
  assert (Hoff : 4 ≤ off ∧ off + msg_size x ≤ Segment.file_offset s).
  { rewrite (rep_offset _ _ _ Hr). unfold off.
    rewrite (total_size_split _ _ _ Hi). pose proof (total_size_nonneg (take i msgs)).
    pose proof (total_size_nonneg (drop (S i) msgs)). lia. }
  pose proof (rep_offset _ _ _ Hr) as Hfo. unfold msg_size, MessageHeader.size in Hoff.
  pose proof (zlen_nonneg x.2).
  unfold Segment.get. rewrite (rep_index _ _ _ Hr).
  rewrite OffsetIndex.get_offset_in by (try done; cbn; unfold id; lia). cbn [OffsetIndex.id_offset OffsetIndex.index].
  rewrite bind_Done. replace (Z.to_nat (id - Segment.tail s)) with i by (unfold id; lia).
  rewrite (offsets_lookup _ _ _ _ Hi). fold off.
  rewrite assert_true, bind_Done by lia.
  rewrite (header_len _ _ _ _ Hst Hx). unfold MessageHeader.size. mint.
  rewrite assert_true, bind_Done by lia.
  rewrite (header_id _ _ _ _ Hst Hid), bind_Done, assert_true by lia. done.
Qed.

Lemma get_past s msgs rest id :
  rep s msgs rest → Segment.head s ≤ id → in_u64 id → Segment.get s id = Done (Err ()).
Proof.
  intros Hr Hid Hu. pose proof (rep_tail _ _ _ Hr). pose proof (rep_head _ _ _ Hr) as Hh.
  pose proof (zlen_nonneg msgs). unfold Segment.get. rewrite (rep_index _ _ _ Hr).
  rewrite OffsetIndex.get_offset_in by (try done; cbn; lia). cbn [OffsetIndex.index OffsetIndex.id_offset].
  rewrite bind_Done, lookup_ge_None_2; [done|].
  pose proof (zlen_offsets 4 msgs). unfold zlen in *. lia.
Qed.

End facts.
