(* ===== verification/Recovery.v ===== *)
(** * Recovery of a segment file

    [Segment::open] on the bytes of a segment that was written by [push]
    gives the same messages back; on arbitrary bytes it stops at the first
    message that is out of order, corrupt or too long, and what it accepts
    is a well-formed segment. The loop always terminates. *)
From S2P Require Import Prelude.
From S2P Require Import Bytes.
From S2P Require Import Offsets.
From S2P Require Import Text.
From S2P Require Import Settings.
From S2P Require Import Segments.
From S2P Require Import SegmentSpec.
From S2P Require Import SegmentFacts.

(** ** Reads in the tail of a mapping *)

Lemma mem_read_app pre rest k n :
  0 ≤ k → mem_read (pre ++ rest) (zlen pre + k) n = mem_read rest k n.
Proof.
  intros Hk. unfold mem_read. pose proof (zlen_nonneg pre). rewrite zlen_app.
  replace (0 <=? zlen pre + k) with (0 <=? k) by lia.
  replace (zlen pre + k + n <=? zlen pre + zlen rest) with (k + n <=? zlen rest) by lia.
  case_match; [|done]. do 2 f_equal.
  replace (Z.to_nat (zlen pre + k)) with (length pre + Z.to_nat k)%nat by (unfold zlen; lia).
  by rewrite drop_app_add.
Qed.

Lemma mem_read_Done m off n bs :
  mem_read m off n = Done bs →
  0 ≤ off ∧ 0 ≤ n ∧ off + n ≤ zlen m ∧ zlen bs = n ∧
  bs = take (Z.to_nat n) (drop (Z.to_nat off) m).
Proof.
  unfold mem_read. destruct (_ && _) eqn:E; [|done]. intros [= <-].
  apply andb_prop in E as [[Ho%Z.leb_le Hn%Z.leb_le]%andb_prop Hl%Z.leb_le].
  split_and!; try done. apply zlen_take. rewrite zlen_drop by lia. lia.
Qed.

Lemma read_word_Done m off n v :
  (le_val <$> mem_read m off (Z.of_nat n)) = Done v → Forall is_byte m →
  le_bytes n v = take n (drop (Z.to_nat off) m) ∧ 0 ≤ v < 2 ^ (8 * Z.of_nat n).
Proof.
  destruct (mem_read m off (Z.of_nat n)) as [bs| |] eqn:E; [|done..].
  intros [= <-] Hm. apply mem_read_Done in E as (? & ? & ? & Hlen & ->).
  rewrite Nat2Z.id in *. set (bs := take n (drop _ m)) in *.
  assert (Hb : Forall is_byte bs) by (by apply Forall_take, Forall_drop).
  assert (length bs = n) as Hn by (unfold zlen in Hlen; lia).
  split; [by rewrite <-Hn at 1; apply le_bytes_le_val|].
  rewrite <-Hlen. by apply le_val_range.
Qed.

Section recovery.
Context `{Profile} `{Hasher}.

(** The fields a turn of the loop never changes. *)
Definition same_file (s s' : Segment.t) : Prop :=
  Segment.file_mmap s' = Segment.file_mmap s ∧ Segment.file_len s' = Segment.file_len s ∧
  Segment.tail s' = Segment.tail s ∧ Segment.closed s' = Segment.closed s ∧
  Segment.deleted s' = Segment.deleted s ∧ Segment.file_path s' = Segment.file_path s.

#[local] Instance same_file_preorder : PreOrder same_file.
Proof. split; unfold same_file; [by repeat intro|]. intros ??? H1 H2. intuition congruence. Qed.

(** ** Reading back what was pushed *)

(** One turn on an intact message appends it. *)
Lemma recover_step_message s l x r :
  rep s l (enc_msg (Segment.head s) x ++ r) → wf_msg x → r ≠ [] →
  ∃ s', Segment.recover_step s = Done (Some s') ∧ rep s' (l ++ [x]) r ∧ same_file s s'.
Proof.
  intros Hr Hx Hne. destruct (rep_sizes _ _ _ Hr) as (Hsz & Hpos & H20 & Hlt).
  rewrite zlen_app, zlen_enc_msg in Hsz.
  assert (0 < zlen r).
  { pose proof (zlen_nonneg r). destruct (decide (zlen r = 0)) as [?%zlen_0_nil|]; [done|lia]. }
  pose proof (rep_head _ _ _ Hr) as Hh. pose proof (rep_tail _ _ _ Hr) as Ht.
  pose proof (rep_len_range _ _ _ Hr) as Hlr. pose proof (zlen_nonneg l).
  pose proof (rep_offset _ _ _ Hr) as Ho. pose proof (zlen_nonneg x.2).
  assert (Hst : stored (Segment.file_mmap s) (Segment.file_offset s) (enc_msg (Segment.head s) x)).
  { exists (magic_bytes ++ enc_msgs (Segment.tail s) l), r. rewrite (rep_mmap _ _ _ Hr), Ho.
    rewrite <-app_assoc. split; [done|]. by rewrite zlen_app, zlen_enc_msgs. }
  assert (Hid : in_u64 (Segment.head s)) by (unfold in_u64; lia).
  unfold msg_size, MessageHeader.size in *. unfold Segment.recover_step.
  rewrite (header_len _ _ _ _ Hst Hx). unfold MessageHeader.size. mint.
  rewrite (header_id _ _ _ _ Hst Hid), bind_Done, Z.eqb_refl. cbn [negb].
  mint. rewrite (proj2 (Z.ltb_lt _ _)) by lia.
  rewrite (header_hash _ _ _ _ Hst), bind_Done, (hash_stored _ _ _ _ Hst Hx), bind_Done, Z.eqb_refl.
  cbn [negb]. rewrite (header_timestamp _ _ _ _ Hst Hx). mint.
  rewrite (rep_push_offset _ _ _ _ Hr) by lia. rewrite bind_Done.
  eexists. split; [reflexivity|]. split; [|by split_and!].
  constructor; cbn [Segment.file_mmap Segment.file_offset Segment.file_len Segment.head
    Segment.tail Segment.index Segment.first_timestamp Segment.last_timestamp].
  - rewrite (rep_mmap _ _ _ Hr), enc_msgs_app. cbn [enc_msgs].
    by rewrite app_nil_r, <-!app_assoc, Hh.
  - rewrite total_size_app. cbn [total_size]. unfold msg_size, MessageHeader.size. lia.
  - apply (rep_len _ _ _ Hr).
  - done.
  - rewrite zlen_app, zlen_cons, zlen_nil. lia.
  - done.
  - f_equal. rewrite offsets_app. cbn [offsets]. do 2 f_equal. lia.
  - by rewrite first_ts_snoc, (rep_first _ _ _ Hr).
  - by rewrite last_ts_snoc.
  - apply Forall_app. split; [apply (rep_wf _ _ _ Hr)|]. by repeat constructor; apply Hx.
Qed.

Lemma read_zeros n off k :
  0 ≤ off → off + Z.of_nat k ≤ Z.of_nat n →
  (le_val <$> mem_read (replicate n 0) off (Z.of_nat k)) = Done 0.
Proof.
  intros Ho Hk. unfold mem_read. rewrite zlen_replicate.
  rewrite !(proj2 (Z.leb_le _ _)) by lia. cbn [andb fmap outcome_fmap]. f_equal.
  rewrite drop_replicate, take_replicate.
  induction (_ `min` _)%nat as [|j IH]; [done|]. cbn [replicate le_val]. by rewrite IH.
Qed.

(** Past the last message the file is zero, which no message starts with. *)
Lemma recover_loop_zeros s l n fuel :
  rep s l (replicate n 0) → 0 < Segment.head s →
  Segment.recover_loop fuel s = Done s.
Proof.
  intros Hr Hh. destruct fuel as [|fuel]; [done|]. cbn [Segment.recover_loop].
  destruct (rep_sizes _ _ _ Hr) as (Hsz & Hpos & H20 & Hlt). rewrite zlen_replicate in Hsz.
  pose proof (rep_len_range _ _ _ Hr) as Hlr. pose proof (rep_offset _ _ _ Hr) as Ho.
  unfold MessageHeader.size. mint. destruct (Z.ltb_spec (Segment.file_offset s + 20) (Segment.file_len s)); [|done].
  assert (Hread : ∀ off k, 0 ≤ off → off + Z.of_nat k ≤ Z.of_nat n →
    (le_val <$> mem_read (Segment.file_mmap s) (Segment.file_offset s + off) (Z.of_nat k)) = Done 0).
  { intros off k Hoff Hk. rewrite (rep_mmap _ _ _ Hr), app_assoc, Ho.
    replace (4 + total_size l) with (zlen (magic_bytes ++ enc_msgs (Segment.tail s) l))
      by (rewrite zlen_app, zlen_enc_msgs; done).
    rewrite mem_read_app by done. by apply read_zeros. }
  assert (MessageHeader.len (Segment.file_mmap s) (Segment.file_offset s) = Done 0) as Hlen.
  { apply (Hread 16 4%nat); lia. }
  assert (MessageHeader.id (Segment.file_mmap s) (Segment.file_offset s) = Done 0) as Hid.
  { apply (Hread 4 8%nat); lia. }
  unfold Segment.recover_step. rewrite Hlen. unfold MessageHeader.size. mint.
  rewrite Hid, bind_Done. rewrite (proj2 (Z.eqb_neq 0 (Segment.head s))) by lia. done.
Qed.

(** Intact messages are consumed one turn each. *)
Lemma recover_loop_prefix k s l r fuel :
  rep s l (enc_msgs (Segment.head s) k ++ r) → Forall wf_msg k → r ≠ [] → (length k ≤ fuel)%nat →
  ∃ s', Segment.recover_loop fuel s = Segment.recover_loop (fuel - length k) s' ∧
    rep s' (l ++ k) r ∧ same_file s s'.
Proof.
  revert s l fuel. induction k as [|x k IH]; intros s l fuel Hr Hwf Hn Hfuel.
  { exists s. rewrite Nat.sub_0_r, app_nil_r. split; [done|]. split; [exact Hr|]. by unfold same_file. }
  apply Forall_cons in Hwf as [Hx Hwf]. cbn [enc_msgs] in Hr. rewrite <-app_assoc in Hr.
  assert (enc_msgs (Segment.head s + 1) k ++ r ≠ []) as Hne by (by intros [_ ?]%app_nil).
  destruct (rep_sizes _ _ _ Hr) as (Hsz & Hpos & _ & _).
  pose proof (rep_len_range _ _ _ Hr) as Hlr. pose proof (rep_offset _ _ _ Hr) as Ho.
  rewrite !zlen_app, zlen_enc_msg in Hsz. pose proof (msg_size_pos x).
  pose proof (zlen_nonneg (enc_msgs (Segment.head s + 1) k)).
  assert (0 < zlen r) by (destruct r; [done|rewrite zlen_cons; pose proof (zlen_nonneg r); lia]).
  destruct (recover_step_message s l x _ Hr Hx Hne) as (s1 & Hstep & Hr1 & Hsame).
  destruct fuel as [|fuel]; [simpl in Hfuel; lia|]. cbn [Segment.recover_loop].
  unfold MessageHeader.size. mint. rewrite (proj2 (Z.ltb_lt _ _)) by lia.
  rewrite Hstep, bind_Done.
  assert (Segment.head s1 = Segment.head s + 1) as Hh1.
  { rewrite (rep_head _ _ _ Hr1), (rep_head _ _ _ Hr), zlen_app, zlen_cons, zlen_nil.
    destruct Hsame as (_ & _ & -> & _). lia. }
  rewrite <-Hh1 in Hr1. simpl in Hfuel.
  destruct (IH s1 (l ++ [x]) fuel) as (s' & Hloop & Hr' & Hs'); [done..|lia|].
  exists s'. rewrite <-app_assoc in Hr'. split; [done|]. split; [done|]. by etrans.
Qed.

Lemma recover_loop_messages k s l n fuel :
  rep s l (enc_msgs (Segment.head s) k ++ replicate n 0) → Forall wf_msg k →
  (0 < n)%nat → 0 < Segment.head s → (length k ≤ fuel)%nat →
  ∃ s', Segment.recover_loop fuel s = Done s' ∧ rep s' (l ++ k) (replicate n 0) ∧ same_file s s'.
Proof.
  intros Hr Hwf Hn Hh Hfuel.
  destruct (recover_loop_prefix k s l _ fuel Hr Hwf) as (s' & Hloop & Hr' & Hsame); [destruct n; [lia|done]|done|].
  exists s'. split; [|done]. rewrite Hloop. eapply recover_loop_zeros; [done|].
  rewrite (rep_head _ _ _ Hr'), zlen_app. pose proof (rep_head _ _ _ Hr).
  destruct Hsame as (_ & _ & -> & _). pose proof (zlen_nonneg k). lia.
Qed.

(** A last message that ends with the file is not read back. *)
Lemma recover_loop_exact s l x fuel :
  rep s l (enc_msg (Segment.head s) x) → wf_msg x → Segment.recover_loop fuel s = Done s.
Proof.
  intros Hr Hx. destruct fuel as [|fuel]; [done|]. cbn [Segment.recover_loop].
  destruct (rep_sizes _ _ _ Hr) as (Hsz & Hpos & H20 & Hlt). rewrite zlen_enc_msg in Hsz.
  pose proof (rep_len_range _ _ _ Hr) as Hlr. pose proof (rep_offset _ _ _ Hr) as Ho.
  pose proof (rep_head _ _ _ Hr) as Hh. pose proof (rep_tail _ _ _ Hr) as Ht.
  pose proof (zlen_nonneg l). pose proof (zlen_nonneg x.2).
  unfold msg_size, MessageHeader.size in *. mint. case_match; [|done].
  assert (Hst : stored (Segment.file_mmap s) (Segment.file_offset s) (enc_msg (Segment.head s) x)).
  { exists (magic_bytes ++ enc_msgs (Segment.tail s) l), []. rewrite (rep_mmap _ _ _ Hr), Ho.
    rewrite <-app_assoc, app_nil_r. split; [done|]. by rewrite zlen_app, zlen_enc_msgs. }
  unfold Segment.recover_step. rewrite (header_len _ _ _ _ Hst Hx). unfold MessageHeader.size. mint.
  rewrite (header_id _ _ _ _ Hst) by (unfold in_u64; lia). rewrite bind_Done, Z.eqb_refl. cbn [negb].
  mint. by rewrite (proj2 (Z.ltb_ge _ _)) by lia.
Qed.

(** [open] runs the loop from the first message. *)
Definition opened (config : Config.QueueConfig) (file : list Z) (cp : Segment.checkpoint_t) : Segment.t :=
  Segment.mk (Segment.gen_file_path config (Segment.cp_tail cp) Segment.DATA_EXTENSION) file (zlen file) 4
    (Segment.cp_sync_offset cp) 0 0 (Segment.cp_tail cp) (Segment.cp_tail cp) (Segment.cp_closed cp) false
    (OffsetIndex.new (Segment.cp_tail cp)).

Lemma opened_rep config file cp rest :
  file = magic_bytes ++ rest → 4 < zlen file < 2 ^ 31 → 0 ≤ Segment.cp_tail cp < 2 ^ 63 →
  rep (opened config file cp) [] rest.
Proof. intros Hf Hl Ht. constructor; cbn; try done. rewrite zlen_nil. lia. Qed.

Lemma open_loop os config rest cp :
  no_faults os → 4 < zlen (magic_bytes ++ rest) < 2 ^ 31 →
  Segment.open os config (Some (magic_bytes ++ rest)) cp =
    (s ← Segment.recover_loop (Z.to_nat (zlen (magic_bytes ++ rest))) (opened config (magic_bytes ++ rest) cp);
     mret (Ok (Segment.set_sync_offset s (Segment.file_offset s)))).
Proof.
  intros Hos Hl. unfold Segment.open. rewrite syscall_ok, bind_Done by done.
  rewrite new_ok, bind_Done by done. unfold Segment.recover.
  cbn [Segment.tail]. rewrite assert_true, bind_Done by lia.
  rewrite syscall_ok, bind_Done by done. unfold Segment.set_file_offset. cbn [Segment.file_mmap].
  assert (read_u32 (magic_bytes ++ rest) 0 = Done Segment.MAGIC_NUM) as ->.
  { apply read_u32_stored; [|done]. by exists [], rest. }
  rewrite bind_Done, Z.eqb_refl. cbn [negb]. by rewrite bind_Done.
Qed.

(** Reopening the file of a segment gives the segment's messages back. *)
Lemma open_recovers os config s msgs n cp :
  rep s msgs (replicate n 0) → (0 < n)%nat → 0 < Segment.tail s →
  no_faults os → Segment.cp_tail cp = Segment.tail s →
  ∃ s', Segment.open os config (Some (Segment.file_mmap s)) cp = Done (Ok s') ∧
    rep s' msgs (replicate n 0) ∧ Segment.file_mmap s' = Segment.file_mmap s ∧
    Segment.file_len s' = Segment.file_len s ∧ Segment.tail s' = Segment.tail s ∧
    Segment.closed s' = Segment.cp_closed cp ∧ Segment.deleted s' = false ∧
    Segment.sync_offset s' = Segment.file_offset s ∧
    Segment.file_path s' = Segment.gen_file_path config (Segment.tail s) Segment.DATA_EXTENSION.
Proof.
  intros Hr Hn Ht Hos Hcp. pose proof (rep_len _ _ _ Hr) as Hl.
  pose proof (rep_len_range _ _ _ Hr) as Hlr. rewrite Hl in Hlr.
  pose proof (rep_mmap _ _ _ Hr) as Hm. rewrite Hm in Hlr. rewrite Hm, open_loop by done.
  pose proof (rep_tail _ _ _ Hr).
  pose proof (opened_rep config _ cp _ eq_refl Hlr) as Hst. rewrite Hcp in Hst. specialize (Hst ltac:(lia)).
  assert (Segment.head (opened config (magic_bytes ++ enc_msgs (Segment.tail s) msgs ++ replicate n 0) cp)
    = Segment.tail s) as Hhd by done. rewrite <-Hhd in Hst at 2.
  destruct (recover_loop_messages msgs _ [] n (Z.to_nat (zlen (magic_bytes ++ enc_msgs (Segment.tail s) msgs ++ replicate n 0)))
    Hst (rep_wf _ _ _ Hr) Hn) as (s' & Hloop & Hr' & Hsame).
  { rewrite Hhd. lia. }
  { destruct (rep_sizes _ _ _ Hr) as (? & ? & ? & ?). rewrite <-Hm, <-Hl. unfold zlen in *. lia. }
  rewrite Hloop, bind_Done. eexists. split; [reflexivity|].
  destruct Hsame as (Hm' & Hlen & Htl & Hc & Hd & Hp). cbn in Hm', Hlen, Htl, Hc, Hd, Hp, Hr'.
  split; [by apply rep_set_sync_offset|]. cbn. split_and!; try done.
  - by rewrite Hlen, Hl, Hm.
  - by rewrite Htl.
  - by rewrite (rep_offset _ _ _ Hr'), (rep_offset _ _ _ Hr).
  - by rewrite Hp, Hcp.
Qed.

(** ** Termination *)

(** A turn that continues moves the offset forward, inside the file. *)
Lemma recover_step_advances s s' :
  Segment.recover_step s = Done (Some s') →
  0 ≤ Segment.file_offset s → Segment.file_len s = zlen (Segment.file_mmap s) →
  Segment.file_len s < 2 ^ 31 → Forall is_byte (Segment.file_mmap s) →
  Segment.file_offset s + 20 ≤ Segment.file_offset s' < Segment.file_len s ∧ same_file s s'.
Proof.
  intros Hstep Ho Hl Hlr Hb. unfold Segment.recover_step in Hstep. inv_outcome.
  case_match; inv_outcome. case_match eqn:Hlt; inv_outcome. case_match; inv_outcome.
  unfold MessageHeader.size in *.
  match goal with Hlen : MessageHeader.len _ _ = Done ?v |- _ =>
    rename v into len; pose proof (proj2 (read_word_Done _ _ 4 _ Hlen Hb)) as Hv;
    match goal with Hh : Segment.hash_segment_message _ _ = Done _ |- _ =>
      unfold Segment.hash_segment_message in Hh; rewrite Hlen, bind_Done in Hh;
      apply bind_Done_iff in Hh as (bs & Hbs%mem_read_Done & _) end
  end.
  unfold MessageHeader.size in *. destruct Hbs as (? & ? & Hfit & ? & _).
  repeat match goal with Hu : u32 ?z = Done _ |- _ =>
    rewrite (u32_in z) in Hu by (unfold in_u32; lia); injection Hu as <- end.
  cbn. split; [lia|]. by split_and!.
Qed.

(** Any fuel of at least the bytes left gives the same result. *)
Lemma recover_loop_fuel f g s :
  0 ≤ Segment.file_offset s < 2 ^ 31 → Segment.file_len s = zlen (Segment.file_mmap s) →
  Segment.file_len s < 2 ^ 31 → Forall is_byte (Segment.file_mmap s) →
  Segment.file_len s - Segment.file_offset s ≤ Z.of_nat f →
  Segment.file_len s - Segment.file_offset s ≤ Z.of_nat g →
  Segment.recover_loop f s = Segment.recover_loop g s.
Proof.
  assert (∀ f s, 0 ≤ Segment.file_offset s < 2 ^ 31 →
    Segment.file_len s ≤ Segment.file_offset s → Segment.recover_loop f s = Done s) as Hstop.
  { intros [|f'] s' Ho Hle; [done|]. cbn [Segment.recover_loop]. unfold MessageHeader.size.
    mint. by rewrite (proj2 (Z.ltb_ge _ _)) by lia. }
  revert g s. induction f as [|f IH]; intros g s Ho Hl Hlr Hb Hf Hg.
  { by rewrite !Hstop by lia. }
  destruct g as [|g]; [by rewrite !Hstop by lia|].
  cbn [Segment.recover_loop]. unfold MessageHeader.size. mint.
  case_match; [|done]. destruct (Segment.recover_step s) as [[s'|]| |] eqn:Hstep; [|done..].
  rewrite !bind_Done. apply recover_step_advances in Hstep as (Hadv & Hsame); [|lia|done..].
  destruct Hsame as (Hm & Hlen & _). apply IH; rewrite ?Hm, ?Hlen; (done || lia).
Qed.

(** ** Arbitrary file contents *)

(** The bytes after the accepted messages. *)
Lemma rep_read s l rest k n :
  rep s l rest → 0 ≤ k →
  mem_read (Segment.file_mmap s) (Segment.file_offset s + k) n = mem_read rest k n.
Proof.
  intros Hr Hk. rewrite (rep_mmap _ _ _ Hr), (rep_offset _ _ _ Hr), app_assoc.
  rewrite <-(mem_read_app (magic_bytes ++ enc_msgs (Segment.tail s) l) rest k n) by done.
  do 2 f_equal. by rewrite zlen_app, zlen_enc_msgs.
Qed.

Lemma rep_read_word s l rest k n v :
  rep s l rest → Forall is_byte (Segment.file_mmap s) → 0 ≤ k →
  (le_val <$> mem_read (Segment.file_mmap s) (Segment.file_offset s + k) (Z.of_nat n)) = Done v →
  le_bytes n v = take n (drop (Z.to_nat k) rest) ∧ 0 ≤ v < 2 ^ (8 * Z.of_nat n).
Proof.
  intros Hr Hb Hk Hv. rewrite (rep_read _ _ _ _ _ Hr Hk) in Hv.
  apply read_word_Done in Hv; [done|].
  rewrite (rep_mmap _ _ _ Hr), !Forall_app in Hb. tauto.
Qed.

Lemma take_drop_join {A} (l : list A) i a b :
  take a (drop i l) ++ take b (drop (i + a) l) = take (a + b) (drop i l).
Proof. by rewrite <-drop_drop, take_take_drop. Qed.

(** A message the loop accepts is an encoded message in the file. *)
Lemma recover_step_sound s l rest s' :
  rep s l rest → Forall is_byte (Segment.file_mmap s) →
  Segment.recover_step s = Done (Some s') →
  ∃ x r, rest = enc_msg (Segment.head s) x ++ r ∧ r ≠ [] ∧ wf_msg x.
Proof.
  intros Hr Hb Hstep. destruct (rep_sizes _ _ _ Hr) as (Hsz & Hpos & _ & _).
  pose proof (rep_len_range _ _ _ Hr) as Hlr. pose proof (rep_offset _ _ _ Hr) as Ho.
  unfold Segment.recover_step in Hstep. inv_outcome.
  case_match eqn:Hid; inv_outcome. case_match eqn:Hlt; inv_outcome. case_match eqn:Hhash; inv_outcome.
  apply negb_false_iff, Z.eqb_eq in Hid, Hhash. subst.
  match goal with
  | H1 : MessageHeader.len _ _ = Done ?v1, H2 : MessageHeader.id _ _ = Done _,
    H3 : MessageHeader.hash _ _ = Done _, H4 : Segment.hash_segment_message _ _ = Done _,
    H5 : MessageHeader.timestamp _ _ = Done ?v2 |- _ =>
      rename v1 into len, v2 into ts, H1 into Hlen, H2 into Hidr, H3 into Hh, H4 into Ha, H5 into Hts
  end.
  unfold Segment.hash_segment_message in Ha. rewrite Hlen, bind_Done in Ha.
  apply bind_Done_iff in Ha as (bs & Hbs & [= Ha]).
  rewrite (rep_read _ _ _ 4 _ Hr) in Hbs by done.
  unfold MessageHeader.hash, read_u32 in Hh. rewrite <-(Z.add_0_r (Segment.file_offset s)) in Hh.
  apply (rep_read_word _ _ _ _ 4 _ Hr Hb) in Hlen as [Hlen ?], Hh as [Hh ?], Hts as [Hts ?]; [|done..].
  apply (rep_read_word _ _ _ _ 8 _ Hr Hb) in Hidr as [Hidr ?]; [|done].
  unfold MessageHeader.size in *.
  apply mem_read_Done in Hbs as (_ & ? & Hfit & ? & ->).
  set (body := take (Z.to_nat len) (drop 20 rest)).
  assert (zlen body = len) as Hbody.
  { apply zlen_take. split; [lia|]. change 20%nat with (Z.to_nat 20). rewrite zlen_drop by lia. lia. }
  assert (enc_payload (Segment.head s) (ts, body) = take (16 + Z.to_nat len) (drop 4 rest)) as Hp.
  { unfold enc_payload. cbn [fst snd]. rewrite Hbody, Hidr, Hts, Hlen.
    change (Z.to_nat 4) with 4%nat. change (Z.to_nat 12) with 12%nat. change (Z.to_nat 16) with 16%nat.
    unfold body. rewrite (take_drop_join rest 16 4), (take_drop_join rest 12 4), (take_drop_join rest 4 8).
    done. }
  assert (enc_msg (Segment.head s) (ts, body) = take (20 + Z.to_nat len) rest) as He.
  { unfold enc_msg. rewrite Hp.
    replace (Z.to_nat (20 + len - 4)) with (16 + Z.to_nat len)%nat in Ha by lia.
    change (Z.to_nat 4) with 4%nat in Ha. rewrite Ha, Hh. apply (take_drop_join rest 0 4). }
  exists (ts, body), (drop (20 + Z.to_nat len) rest).
  rewrite He, take_drop. split; [done|]. split.
  - intros Hnil%(f_equal zlen). rewrite zlen_nil in Hnil.
    unfold zlen in Hnil, Hsz. rewrite length_drop in Hnil.
    repeat match goal with Hu : u32 ?z = Done _ |- _ =>
      rewrite (u32_in z) in Hu by (unfold in_u32, zlen in *; lia); injection Hu as <- end.
    unfold zlen in *. lia.
  - split; [done|]. cbn. rewrite Hbody. unfold MessageHeader.size.
    unfold zlen in *. lia.
Qed.

Lemma recover_loop_sound fuel s l rest s' :
  rep s l rest → Forall is_byte (Segment.file_mmap s) →
  Segment.recover_loop fuel s = Done s' →
  ∃ k rest', rep s' (l ++ k) rest' ∧ same_file s s'.
Proof.
  revert s l rest. induction fuel as [|fuel IH]; intros s l rest Hr Hb Hloop.
  { injection Hloop as <-. exists [], rest. rewrite app_nil_r. by unfold same_file. }
  cbn [Segment.recover_loop] in Hloop. apply bind_Done_iff in Hloop as (body_offset & _ & Hloop).
  assert (∃ k rest', rep s (l ++ k) rest' ∧ same_file s s) as Hnone.
  { exists [], rest. rewrite app_nil_r. by unfold same_file. }
  case_match; [|by injection Hloop as <-].
  apply bind_Done_iff in Hloop as ([s1|] & Hstep & Hloop); [|by injection Hloop as <-].
  destruct (recover_step_sound _ _ _ _ Hr Hb Hstep) as (x & r & -> & Hne & Hx).
  destruct (recover_step_message _ _ _ _ Hr Hx Hne) as (s2 & Hstep' & Hr2 & Hsame).
  rewrite Hstep in Hstep'. injection Hstep' as <-.
  destruct (IH s1 (l ++ [x]) r) as (k & rest' & Hr' & Hs'); [done| |done|].
  { by destruct Hsame as (-> & _). }
  exists ([x] ++ k), rest'. rewrite app_assoc. split; [done|]. by etrans.
Qed.

(** With enough fuel the loop stops where no intact message follows. *)
Definition stopped (s : Segment.t) : Prop :=
  Segment.file_len s ≤ Segment.file_offset s + 20 ∨ Segment.recover_step s = Done None.

Lemma recover_loop_stopped fuel s l rest s' :
  rep s l rest → Forall is_byte (Segment.file_mmap s) →
  Segment.file_len s - Segment.file_offset s ≤ Z.of_nat fuel →
  Segment.recover_loop fuel s = Done s' → stopped s'.
Proof.
  revert s l rest. induction fuel as [|fuel IH]; intros s l rest Hr Hb Hf Hloop.
  { injection Hloop as <-. left. lia. }
  destruct (rep_sizes _ _ _ Hr) as (Hsz & Hpos & _ & _). pose proof (rep_offset _ _ _ Hr).
  pose proof (rep_len_range _ _ _ Hr). cbn [Segment.recover_loop] in Hloop.
  unfold MessageHeader.size in Hloop. rewrite u32_in, bind_Done in Hloop by (unfold in_u32; pose proof (zlen_nonneg rest); lia).
  destruct (Z.ltb_spec (Segment.file_offset s + 20) (Segment.file_len s)).
  2:{ injection Hloop as <-. by left. }
  apply bind_Done_iff in Hloop as ([s1|] & Hstep & Hloop); [|injection Hloop as <-; by right].
  destruct (recover_step_sound _ _ _ _ Hr Hb Hstep) as (x & r & -> & Hne & Hx).
  destruct (recover_step_message _ _ _ _ Hr Hx Hne) as (s2 & Hstep' & Hr2 & Hsame).
  rewrite Hstep in Hstep'. injection Hstep' as <-.
  destruct (recover_step_advances _ _ Hstep) as [Hadv _];
    [lia|by apply (rep_len _ _ _ Hr)|lia|done|].
  eapply IH; [exact Hr2| | |exact Hloop].
  - by destruct Hsame as (-> & _).
  - destruct Hsame as (_ & -> & _). lia.
Qed.

Lemma stopped_no_message s l rest x r :
  rep s l rest → stopped s → wf_msg x → r ≠ [] → rest ≠ enc_msg (Segment.head s) x ++ r.
Proof.
  intros Hr Hs Hx Hne ->. destruct Hs as [Hs|Hs].
  - destruct (rep_sizes _ _ _ Hr) as (Hsz & _). rewrite zlen_app, zlen_enc_msg in Hsz.
    rewrite (rep_offset _ _ _ Hr) in Hs. pose proof (msg_size_pos x).
    apply Hne, zlen_0_nil. pose proof (zlen_nonneg r). lia.
  - by destruct (recover_step_message _ _ _ _ Hr Hx Hne) as (s' & Hs' & _); congruence.
Qed.

(** A wrong magic number is overwritten, the rest of the file is kept. *)
Lemma open_magic os config file cp :
  no_faults os → Forall is_byte file → 4 < zlen file < 2 ^ 31 →
  Segment.open os config (Some file) cp = Segment.open os config (Some (magic_bytes ++ drop 4 file)) cp.
Proof.
  intros Hos Hb Hl. assert (zlen (magic_bytes ++ drop 4 file) = zlen file) as Hlen.
  { rewrite zlen_app. change 4%nat with (Z.to_nat 4). rewrite zlen_drop by lia. change (zlen magic_bytes) with 4. lia. }
  rewrite open_loop by (rewrite ?Hlen; done).
  unfold Segment.open. rewrite syscall_ok, bind_Done by done.
  rewrite new_ok, bind_Done by done. unfold Segment.recover.
  cbn [Segment.tail]. rewrite assert_true, bind_Done by lia.
  rewrite syscall_ok, bind_Done by done. unfold Segment.set_file_offset. cbn [Segment.file_mmap].
  assert (take 4 file ++ drop 4 file = file) as Hsplit by apply take_drop.
  assert (zlen (take 4 file) = 4) as H4 by (apply (zlen_take 4); lia).
  destruct (read_u32 file 0) as [v| |] eqn:Hv.
  - rewrite bind_Done. destruct (Z.eqb_spec v Segment.MAGIC_NUM) as [->|Hne].
    + apply (read_word_Done _ 0 4) in Hv as [Hv _]; [|done].
      change (drop (Z.to_nat 0) file) with file in Hv. fold magic_bytes in Hv. rewrite <-Hv in Hsplit.
      cbn [negb]. rewrite bind_Done, Hlen, Hsplit. done.
    + cbn [negb]. unfold write_u32. fold magic_bytes.
      pose proof (mem_write_frame [] (take 4 file) (drop 4 file) magic_bytes 0 eq_refl) as Hw.
      cbn [app] in Hw. rewrite Hsplit in Hw. rewrite Hw by (by rewrite H4).
      rewrite bind_Done, Hlen. unfold opened. rewrite Hlen. done.
  - unfold read_u32, mem_read in Hv. by case_match.
  - unfold read_u32, mem_read in Hv. case_match eqn:E; [done|]. exfalso. lia.
Qed.

(** ** A length field that wraps

    A corrupt header whose id is the expected one and whose length is within
    20 of [2^32] makes [header_size + header.len] overflow: a panic with
    overflow checks, and in a release build a read far outside the mapping. *)
Lemma recover_step_wrapped s l rest len :
  rep s l rest →
  stored (Segment.file_mmap s) (Segment.file_offset s + 4) (le_bytes 8 (Segment.head s)) →
  stored (Segment.file_mmap s) (Segment.file_offset s + 16) (le_bytes 4 len) →
  2 ^ 32 - 20 ≤ len < 2 ^ 32 →
  Segment.file_offset s + (20 + len - 2 ^ 32) < Segment.file_len s →
  Segment.recover_step s = if debug_assertions then Panic else Undefined.
Proof.
  intros Hr Hid Hlen Hl Hfit. destruct (rep_sizes _ _ _ Hr) as (Hsz & Hpos & H20 & Hlt).
  pose proof (rep_len_range _ _ _ Hr) as Hlr. pose proof (rep_offset _ _ _ Hr) as Ho.
  pose proof (rep_tail _ _ _ Hr) as Ht. pose proof (rep_head _ _ _ Hr) as Hh.
  pose proof (zlen_nonneg l).
  assert (MessageHeader.len (Segment.file_mmap s) (Segment.file_offset s) = Done len) as Hlen'
    by (apply read_u32_stored; [done|unfold in_u32; lia]).
  apply stored_bounds in Hlen as Hb. change (zlen (le_bytes 4 len)) with 4 in Hb.
  unfold Segment.recover_step. rewrite Hlen', bind_Done. unfold MessageHeader.size.
  assert (u32 (20 + len) = if debug_assertions then Panic else Done (20 + len - 2 ^ 32)) as ->.
  { unfold u32, arith. rewrite (proj2 (Z.ltb_ge (20 + len) _)), andb_false_r by lia.
    case_match; [done|]. f_equal. rewrite <-(Z.mod_add _ (-1)) by lia. apply Z.mod_small. lia. }
  destruct debug_assertions eqn:Hdbg; [done|]. rewrite bind_Done.
  unfold MessageHeader.id. rewrite (read_u64_stored _ _ _ Hid) by (unfold in_u64; lia).
  rewrite bind_Done, Z.eqb_refl. cbn [negb]. mint. rewrite (proj2 (Z.ltb_lt _ _)) by done.
  destruct (MessageHeader.hash _ _) as [h| |] eqn:Hhash.
  - rewrite bind_Done. unfold Segment.hash_segment_message. rewrite Hlen', bind_Done.
    unfold mem_read, MessageHeader.size. rewrite <-(rep_len _ _ _ Hr).
    rewrite (proj2 (Z.leb_gt (_ + (20 + len - 4)) _)) by lia. by rewrite andb_false_r.
  - unfold MessageHeader.hash, read_u32 in Hhash. by destruct (mem_read _ _ _) eqn:E;
      unfold mem_read in E; case_match.
  - done.
Qed.

End recovery.
