(* ===== verification/SegmentProps.v ===== *)
(** * Properties of segments and of their recovery

    What [Segment::push], [get], [sync], [create] and [open] guarantee, each
    with a closed instance on a 64-byte segment. *)
From S2P Require Import Prelude.
From S2P Require Import Bytes.
From S2P Require Import Offsets.
From S2P Require Import Text.
From S2P Require Import Settings.
From S2P Require Import Segments.
From S2P Require Import SegmentSpec.
From S2P Require Import SegmentFacts.
From S2P Require Import Recovery.

Section props.
Context `{Profile} `{Hasher}.

(** Pushing a list of messages, until the first error. *)
Fixpoint push_all (s : Segment.t) (xs : list msg) :
    outcome (Segment.t * result (list Z) QueueBackendError) :=
  match xs with
  | [] => mret (s, Ok [])
  | x :: xs =>
      '(s, r) ← Segment.push s x.2 x.1;
      match r with
      | Err e => mret (s, Err e)
      | Ok id =>
          '(s, r) ← push_all s xs;
          mret (s, match r with Ok ids => Ok (id :: ids) | Err e => Err e end)
      end
  end.

Lemma push_all_ok s msgs n xs :
  rep s msgs (replicate n 0) → Forall wf_msg xs → total_size xs ≤ Z.of_nat n →
  ∃ s', push_all s xs = Done (s', Ok (seqZ (Segment.head s) (zlen xs))) ∧
    rep s' (msgs ++ xs) (replicate (n - Z.to_nat (total_size xs)) 0) ∧ Segment.tail s' = Segment.tail s.
Proof.
  revert s msgs n. induction xs as [|x xs IH]; intros s msgs n Hr Hwf Hn.
  { exists s. rewrite app_nil_r, Nat.sub_0_r. by split_and!. }
  apply Forall_cons in Hwf as [Hx Hwf]. cbn [total_size] in Hn.
  pose proof (total_size_nonneg xs). pose proof (msg_size_pos x).
  destruct (rep_sizes _ _ _ Hr) as (Hsz & _). rewrite zlen_replicate in Hsz.
  pose proof (rep_offset _ _ _ Hr).
  destruct (push_fits s msgs _ x Hr Hx) as (s1 & Hp & Hr1 & Ht1 & _); [unfold fits; lia|].
  rewrite drop_replicate in Hr1. cbn [push_all]. rewrite Hp, bind_Done.
  destruct (IH _ _ _ Hr1 Hwf) as (s' & Hall & Hr' & Ht'); [lia|].
  assert (Segment.head s1 = Segment.head s + 1) as Hh.
  { rewrite (rep_head _ _ _ Hr1), (rep_head _ _ _ Hr), zlen_app, zlen_cons, zlen_nil. lia. }
  rewrite Hall, bind_Done, Hh. exists s'. rewrite <-app_assoc in Hr'. cbn [total_size].
  replace (n - Z.to_nat (msg_size x + total_size xs))%nat
    with (n - Z.to_nat (msg_size x) - Z.to_nat (total_size xs))%nat by lia.
  split_and!; [|done|congruence]. rewrite zlen_cons, (seqZ_cons (Segment.head s)) by (pose proof (zlen_nonneg xs); lia).
  replace (Z.pred (1 + zlen xs)) with (zlen xs) by lia. done.
Qed.

(** C23: what a new segment was given is read back from its file by
    [Segment::open], message by message with ids, timestamps and bodies, when
    at least one byte of the file was left over. *)
Theorem written_is_recovered os os' config config' id xs cp :
  no_faults os → os_zeroes os → no_faults os' → 0 < id < 2 ^ 63 →
  Forall wf_msg xs → 4 + total_size xs < Config.segment_size config < 2 ^ 31 →
  Segment.cp_tail cp = id →
  ∃ s0 s s', Segment.create os config id = Done (Ok s0) ∧
    push_all s0 xs = Done (s, Ok (seqZ id (zlen xs))) ∧
    Segment.open os' config' (Some (Segment.file_mmap s)) cp = Done (Ok s') ∧
    Segment.head s' = id + zlen xs ∧
    (∀ i x, xs !! i = Some x → ∃ off, Segment.get s' (id + Z.of_nat i) = Done (Ok off) ∧
       Message.id (Message.mk s' off) = Done (id + Z.of_nat i) ∧
       Message.timestamp (Message.mk s' off) = Done x.1 ∧ Message.body (Message.mk s' off) = Done x.2) ∧
    Segment.get s' (id + zlen xs) = Done (Err ()).
Proof.
  intros Hos Hz Hos' Hid Hwf Hsize Hcp. pose proof (total_size_nonneg xs).
  pose proof (total_size_ge xs).
  destruct (create_ok os config id) as (s0 & Hc & Hr0 & Ht0 & _); [done|done|lia|lia|].
  destruct (push_all_ok s0 [] _ xs Hr0 Hwf) as (s & Hp & Hr & Ht); [lia|].
  pose proof (rep_head _ _ _ Hr0) as Hh0. rewrite zlen_nil in Hh0.
  destruct (open_recovers os' config' s _ _ cp Hr) as (s' & Ho & Hr' & _ & _ & Ht' & _); [lia|lia|done|congruence|].
  cbn [app] in Hr'. pose proof (rep_head _ _ _ Hr') as Hh'.
  exists s0, s, s'. replace (Segment.head s0) with id in Hp by lia. split_and!; [done|done|done|lia| |].
  - intros i x Hx. destruct (get_present s' xs _ i x Hr' Hx) as [Hg Hst].
    replace (Segment.tail s') with id in * by congruence.
    eexists. split; [exact Hg|]. apply lookup_lt_Some in Hx as Hlt.
    apply (message_fields (Message.mk s' _) _ x Hst); [unfold in_u64, zlen in *; lia|].
    by eapply Forall_lookup_1.
  - pose proof (zlen_nonneg xs). apply (get_past s' xs _ _ Hr'); [lia|unfold in_u64; lia].
Qed.

(** C24: whatever bytes a data file holds, what [Segment::open] accepts is a
    consistent segment: a maximal run of messages with consecutive ids and
    matching hashes from the checkpoint's tail. *)
Theorem open_sound os config file cp s :
  no_faults os → Forall is_byte file → 4 < zlen file < 2 ^ 31 → 0 ≤ Segment.cp_tail cp < 2 ^ 63 →
  Segment.open os config (Some file) cp = Done (Ok s) →
  ∃ msgs rest, rep s msgs rest ∧ Segment.tail s = Segment.cp_tail cp ∧
    magic_bytes ++ drop 4 file = magic_bytes ++ enc_msgs (Segment.cp_tail cp) msgs ++ rest ∧
    (∀ x r, wf_msg x → r ≠ [] → rest ≠ enc_msg (Segment.head s) x ++ r).
Proof.
  intros Hos Hb Hl Ht Ho. rewrite open_magic in Ho by done.
  assert (zlen (magic_bytes ++ drop 4 file) = zlen file) as Hlen.
  { rewrite zlen_app. change 4%nat with (Z.to_nat 4). rewrite zlen_drop by lia. change (zlen magic_bytes) with 4. lia. }
  rewrite open_loop in Ho by (rewrite ?Hlen; done).
  apply bind_Done_iff in Ho as (s' & Hloop & [= <-]).
  pose proof (opened_rep config _ cp (drop 4 file) eq_refl ltac:(lia) Ht) as Hr.
  assert (Forall is_byte (Segment.file_mmap (opened config (magic_bytes ++ drop 4 file) cp))) as Hb'.
  { cbn. apply Forall_app. split; [by apply le_bytes_are_bytes|by apply Forall_drop]. }
  destruct (recover_loop_sound _ _ _ _ _ Hr Hb' Hloop) as (msgs & rest & Hr' & Hsame).
  assert (stopped s') as Hstop.
  { eapply (recover_loop_stopped _ _ _ _ _ Hr Hb'); [|exact Hloop]. cbn. rewrite Hlen. lia. }
  cbn [app] in Hr'. exists msgs, rest.
  destruct Hsame as (Hm & _ & Htl & _). cbn in Hm, Htl.
  split_and!; [by apply rep_set_sync_offset|done| |].
  - rewrite <-Hm, (rep_mmap _ _ _ Hr'), Htl. done.
  - intros x r Hx Hne. by eapply (stopped_no_message s' msgs).
Qed.

(** The recovery loop terminates: the fuel of [recover] is enough, since
    every turn consumes at least a header, so more fuel changes nothing. *)
Theorem recover_terminates fuel s :
  0 ≤ Segment.file_offset s < 2 ^ 31 → Segment.file_len s = zlen (Segment.file_mmap s) →
  Segment.file_len s < 2 ^ 31 → Forall is_byte (Segment.file_mmap s) →
  (Segment.recover_fuel s ≤ fuel)%nat →
  Segment.recover_loop fuel s = Segment.recover_loop (Segment.recover_fuel s) s.
Proof.
  intros Ho Hl Hlr Hb Hf. unfold Segment.recover_fuel in *.
  apply recover_loop_fuel; (done || lia).
Qed.

(** [push] on every branch: a message that fits is appended under the id
    [head]; one that does not is refused, [MessageTooBig] without a change
    when no segment of this length could take it with a byte to spare,
    otherwise [SegmentFull] and the segment is closed. *)
Theorem push_branches s msgs rest x :
  rep s msgs rest → wf_msg x → msg_size x + 4 < 2 ^ 32 →
  if decide (fits s x) then
    ∃ s', Segment.push s x.2 x.1 = Done (s', Ok (Segment.head s)) ∧
      rep s' (msgs ++ [x]) (drop (Z.to_nat (msg_size x)) rest) ∧ Segment.tail s' = Segment.tail s
  else if decide (Segment.file_len s ≤ msg_size x + 4) then
    Segment.push s x.2 x.1 = Done (s, Err MessageTooBig)
  else Segment.push s x.2 x.1 = Done (Segment.set_closed s true, Err SegmentFull).
Proof.
  intros Hr Hx Hbig. case_decide as Hfit.
  - destruct (push_fits _ _ _ _ Hr Hx Hfit) as (s' & Hp & Hr' & Ht & _). by exists s'.
  - destruct (rep_sizes _ _ _ Hr) as (Hsz & Hpos & _). pose proof (rep_offset _ _ _ Hr).
    pose proof (zlen_nonneg rest). pose proof (rep_len_range _ _ _ Hr).
    rewrite push_no_room by (done || lia). by case_decide.
Qed.

(** [get] finds every message of the segment by its id and nothing
    past the end. *)
Theorem get_branches s msgs rest i :
  rep s msgs rest →
  match msgs !! i with
  | Some x => ∃ off, Segment.get s (Segment.tail s + Z.of_nat i) = Done (Ok off) ∧
      Message.id (Message.mk s off) = Done (Segment.tail s + Z.of_nat i) ∧
      Message.timestamp (Message.mk s off) = Done x.1 ∧ Message.body (Message.mk s off) = Done x.2
  | None => Segment.tail s + Z.of_nat i < 2 ^ 64 →
      Segment.get s (Segment.tail s + Z.of_nat i) = Done (Err ())
  end.
Proof.
  intros Hr. pose proof (rep_tail _ _ _ Hr). pose proof (rep_head _ _ _ Hr) as Hh.
  destruct (rep_sizes _ _ _ Hr) as (_ & _ & H20 & Hts).
  destruct (msgs !! i) as [x|] eqn:Hx.
  - destruct (get_present _ _ _ _ _ Hr Hx) as [Hg Hst]. eexists. split; [exact Hg|].
    apply lookup_lt_Some in Hx as Hlt.
    apply (message_fields (Message.mk s _) _ x Hst); [unfold in_u64, zlen in *; lia|].
    eapply Forall_lookup_1; [apply (rep_wf _ _ _ Hr)|done].
  - intros Hi. apply lookup_ge_None_1 in Hx. apply (get_past _ _ _ _ Hr); unfold in_u64, zlen in *; lia.
Qed.

(** A message that exactly fills its segment is stored by [push] but
    not read back by [Segment::open]: it is lost at the next start. *)
Theorem exact_fit_lost os config s msgs x cp :
  rep s (msgs ++ [x]) [] → no_faults os → Segment.cp_tail cp = Segment.tail s →
  ∃ s', Segment.open os config (Some (Segment.file_mmap s)) cp = Done (Ok s') ∧
    rep s' msgs (enc_msg (Segment.head s - 1) x) ∧ Segment.head s' = Segment.head s - 1.
Proof.
  intros Hr Hos Hcp. pose proof (rep_len _ _ _ Hr) as Hl. pose proof (rep_len_range _ _ _ Hr) as Hlr.
  pose proof (rep_mmap _ _ _ Hr) as Hm. rewrite app_nil_r, enc_msgs_app in Hm.
  change (enc_msgs (Segment.tail s + zlen msgs) [x])
    with (enc_msg (Segment.tail s + zlen msgs) x ++ []) in Hm.
  rewrite app_nil_r in Hm.
  pose proof (rep_head _ _ _ Hr) as Hh. rewrite zlen_app, zlen_cons, zlen_nil in Hh.
  replace (Segment.tail s + zlen msgs) with (Segment.head s - 1) in Hm by lia.
  pose proof (rep_wf _ _ _ Hr) as [Hwf Hx]%Forall_app. apply Forall_cons in Hx as [Hx _].
  rewrite Hl, Hm in Hlr. rewrite Hm, open_loop by done. pose proof (rep_tail _ _ _ Hr).
  pose proof (opened_rep config _ cp _ eq_refl Hlr) as Hst. specialize (Hst ltac:(lia)).
  set (st := opened _ _ _) in *. assert (Segment.head st = Segment.tail s) as Hhd by (cbn; lia).
  rewrite <-Hhd in Hst.
  destruct (rep_sizes _ _ _ Hr) as (Hsz & ? & ? & ?). rewrite zlen_nil in Hsz.
  assert (length msgs ≤ Z.to_nat (Segment.file_len s))%nat as Hfuel.
  { rewrite zlen_app in *. unfold zlen in *. lia. }
  destruct (recover_loop_prefix msgs st [] _ (Z.to_nat (zlen (magic_bytes ++ enc_msgs (Segment.tail s) msgs
    ++ enc_msg (Segment.head s - 1) x))) Hst Hwf) as (s' & Hloop & Hr' & Hsame).
  { intros Hnil%(f_equal zlen). rewrite zlen_enc_msg, zlen_nil in Hnil. pose proof (msg_size_pos x). lia. }
  { by rewrite <-Hm, <-Hl. }
  cbn [app] in Hr'. destruct Hsame as (_ & _ & Htl & _). cbn in Htl.
  assert (Segment.head s' = Segment.head s - 1) as Hh'.
  { rewrite (rep_head _ _ _ Hr'), Htl. lia. }
  rewrite Hloop, (recover_loop_exact s' msgs x) by (rewrite ?Hh'; done). rewrite bind_Done.
  eexists. split; [reflexivity|]. split; [by apply rep_set_sync_offset|done].
Qed.

(** A corrupt length field within 20 of [2^32] in an otherwise expected
    header makes recovery panic in a build with overflow checks, and read
    outside the mapping in a release build. *)
Theorem corrupt_length_crashes s msgs rest len :
  rep s msgs rest →
  stored (Segment.file_mmap s) (Segment.file_offset s + 4) (le_bytes 8 (Segment.head s)) →
  stored (Segment.file_mmap s) (Segment.file_offset s + 16) (le_bytes 4 len) →
  2 ^ 32 - 20 ≤ len < 2 ^ 32 → Segment.file_offset s + (20 + len - 2 ^ 32) < Segment.file_len s →
  Segment.recover_step s = if debug_assertions then Panic else Undefined.
Proof. apply recover_step_wrapped. Qed.

End props.

(** ** Closed instances *)

#[local] Existing Instance release_profile.
#[local] Existing Instance sum_hasher.

Definition sample_config : Config.QueueConfig := tiny_config 64.
Definition sample_msgs : list msg := [(6, B "one"); (7, B "two")].
Definition sample_cp : Segment.checkpoint_t := Segment.mkCheckpoint 1 3 0 false.

(** A segment with two messages and 14 bytes left, and one filled exactly. *)
Definition fill (xs : list msg) : Segment.t :=
  match Segment.create os_sound sample_config 1 with
  | Done (Ok s) => match push_all s xs with Done (s, _) => s | _ => s end
  | _ => opened sample_config [] sample_cp
  end.

Lemma sample_segment_rep : rep (fill sample_msgs) sample_msgs (replicate 14 0).
Proof.
  constructor; cycle 3; [by vm_compute|..]; cycle 1; [by vm_compute|..]; cycle 3.
  { by repeat (constructor; [by vm_compute|]). }
  all: vm_compute; reflexivity.
Qed.

Definition exact_msg : msg := (6, replicate 40 7).

Lemma full_segment_rep : rep (fill [exact_msg]) [exact_msg] [].
Proof.
  constructor; cycle 3; [by vm_compute|..]; cycle 1; [by vm_compute|..]; cycle 3.
  { by repeat (constructor; [by vm_compute|]). }
  all: vm_compute; reflexivity.
Qed.

Lemma written_is_recovered_witness :
  ∃ s0 s s', Segment.create os_sound sample_config 1 = Done (Ok s0) ∧
    push_all s0 sample_msgs = Done (s, Ok (seqZ 1 (zlen sample_msgs))) ∧
    Segment.open os_sound sample_config (Some (Segment.file_mmap s)) sample_cp = Done (Ok s') ∧
    Segment.head s' = 1 + zlen sample_msgs ∧
    (∀ i x, sample_msgs !! i = Some x → ∃ off, Segment.get s' (1 + Z.of_nat i) = Done (Ok off) ∧
       Message.id (Message.mk s' off) = Done (1 + Z.of_nat i) ∧
       Message.timestamp (Message.mk s' off) = Done x.1 ∧ Message.body (Message.mk s' off) = Done x.2) ∧
    Segment.get s' (1 + zlen sample_msgs) = Done (Err ()).
Proof.
  apply (written_is_recovered os_sound os_sound sample_config sample_config 1 sample_msgs sample_cp).
  - by intros [].
  - by intros n.
  - by intros [].
  - lia.
  - by repeat (constructor; [by vm_compute|]).
  - by vm_compute.
  - reflexivity.
Defined.

(** The second message is damaged: only the first is accepted. *)
Definition damaged_file : list Z := <[48%nat := 1]> (Segment.file_mmap (fill sample_msgs)).

Lemma open_sound_witness :
  ∃ s, Segment.open os_sound sample_config (Some damaged_file) sample_cp = Done (Ok s) ∧ Segment.head s = 2 ∧
  ∃ msgs rest, rep s msgs rest ∧ Segment.tail s = Segment.cp_tail sample_cp ∧
    magic_bytes ++ drop 4 damaged_file = magic_bytes ++ enc_msgs (Segment.cp_tail sample_cp) msgs ++ rest ∧
    (∀ x r, wf_msg x → r ≠ [] → rest ≠ enc_msg (Segment.head s) x ++ r).
Proof.
  eexists. split; [vm_compute; reflexivity|]. split; [by vm_compute|].
  apply (open_sound os_sound sample_config damaged_file sample_cp).
  - by intros [].
  - apply (bool_decide_unpack _). by vm_compute.
  - by vm_compute.
  - by vm_compute.
  - by vm_compute.
Defined.

Lemma recover_terminates_witness :
  Segment.recover_loop 70 (opened sample_config damaged_file sample_cp) =
  Segment.recover_loop (Segment.recover_fuel (opened sample_config damaged_file sample_cp))
    (opened sample_config damaged_file sample_cp).
Proof.
  apply (recover_terminates 70 (opened sample_config damaged_file sample_cp)).
  - by vm_compute.
  - by vm_compute.
  - by vm_compute.
  - apply (bool_decide_unpack _). by vm_compute.
  - apply Nat.leb_le. by vm_compute.
Defined.

Lemma push_branches_witness :
  Segment.push (fill sample_msgs) (B "three") 9 = Done (Segment.set_closed (fill sample_msgs) true, Err SegmentFull).
Proof.
  assert (wf_msg (9, B "three")) as Hwf by (by vm_compute).
  assert (msg_size (9, B "three") + 4 < 2 ^ 32) as Hbig by (by vm_compute).
  pose proof (push_branches _ _ _ (9, B "three") sample_segment_rep Hwf Hbig) as Hp.
  destruct (decide (fits _ _)) as [Hf|_]; [exfalso; vm_compute in Hf; by apply Hf|].
  destruct (decide (Segment.file_len _ ≤ _)) as [Hf|_]; [exfalso; vm_compute in Hf; by apply Hf|].
  exact Hp.
Defined.

Lemma get_branches_witness :
  ∃ off, Segment.get (fill sample_msgs) 2 = Done (Ok off) ∧
      Message.id (Message.mk (fill sample_msgs) off) = Done 2 ∧
      Message.timestamp (Message.mk (fill sample_msgs) off) = Done 7 ∧
      Message.body (Message.mk (fill sample_msgs) off) = Done (B "two").
Proof. exact (get_branches _ _ _ 1 sample_segment_rep). Defined.

Lemma exact_fit_lost_witness :
  ∃ s', Segment.open os_sound sample_config (Some (Segment.file_mmap (fill [exact_msg]))) sample_cp = Done (Ok s') ∧
    rep s' [] (enc_msg (Segment.head (fill [exact_msg]) - 1) exact_msg) ∧
    Segment.head s' = Segment.head (fill [exact_msg]) - 1.
Proof.
  apply (exact_fit_lost os_sound sample_config _ [] exact_msg sample_cp full_segment_rep); by vm_compute.
Defined.

(** A first header with the expected id 1 and the length [2^32 - 1]. *)
Definition corrupt_rest : list Z :=
  le_bytes 4 0 ++ le_bytes 8 1 ++ le_bytes 4 0 ++ le_bytes 4 (2 ^ 32 - 1) ++ replicate 40 0.
Definition corrupt_segment : Segment.t := opened sample_config (magic_bytes ++ corrupt_rest) sample_cp.

Lemma corrupt_length_crashes_witness :
  Segment.recover_step (H := dev_profile) corrupt_segment = Panic ∧
  Segment.recover_step (H := release_profile) corrupt_segment = Undefined.
Proof.
  assert (rep corrupt_segment [] corrupt_rest) as Hr by (by apply opened_rep).
  assert (stored (Segment.file_mmap corrupt_segment) (Segment.file_offset corrupt_segment + 4)
    (le_bytes 8 (Segment.head corrupt_segment))) as H1.
  { by exists (magic_bytes ++ le_bytes 4 0), (le_bytes 4 0 ++ le_bytes 4 (2 ^ 32 - 1) ++ replicate 40 0). }
  assert (stored (Segment.file_mmap corrupt_segment) (Segment.file_offset corrupt_segment + 16)
    (le_bytes 4 (2 ^ 32 - 1))) as H2.
  { by exists (magic_bytes ++ le_bytes 4 0 ++ le_bytes 8 1 ++ le_bytes 4 0), (replicate 40 0). }
  split.
  - by apply (corrupt_length_crashes (H := dev_profile) _ _ _ _ Hr H1 H2).
  - by apply (corrupt_length_crashes (H := release_profile) _ _ _ _ Hr H1 H2).
Defined.
