(* ===== verification/Backend.v ===== *)
(** * The queue backend ([queue_backend.rs], [QueueBackend])

    The write-ahead log of one queue: a list of segments, the id of the next
    message ([head]) and the id from which messages are wanted ([tail]). The
    segment mappings are shared with the files on disk ([MAP_SHARED]), so the
    directory found at the next start is given by [segment_files].

    Third-party code is an argument: the JSON encoder and decoder ([Json]),
    the digest, and the operating system. The busy wait for other readers in
    [wait_delete_segment] is left out: the model runs one operation at a
    time, so the last reference is already the backend's. *)
From S2P Require Import Prelude.
From S2P Require Import Bytes.
From S2P Require Import Offsets.
From S2P Require Import Text.
From S2P Require Import Settings.
From S2P Require Import Segments.

(** [rustc_serialize::json] at a type. *)
Class Json (A : Type) : Type := {
  json_encode : A → list Z;
  json_decode : list Z → option A;
}.

(** What the checkpoints rely on: decoding an encoding gives the value. *)
Class JsonOk (A : Type) `{Json A} : Prop :=
  json_roundtrip : ∀ a : A, json_decode (json_encode a) = Some a.

(** A codec for any countable type meets the contract. *)
Definition countable_json {A} `{Countable A} : Json A := {|
  json_encode a := [Zpos (encode a)];
  json_decode l := match l with [Zpos p] => decode p | _ => None end;
|}.

Lemma countable_json_ok {A} `{Countable A} : @JsonOk A countable_json.
Proof. intros a. apply decode_encode. Qed.

#[export] Instance checkpoint_countable : Countable Segment.checkpoint_t.
Proof.
  apply (inj_countable'
    (λ c, (Segment.cp_tail c, Segment.cp_head c, Segment.cp_sync_offset c, Segment.cp_closed c))
    (λ c, let '(t, h, o, cl) := c in Segment.mkCheckpoint t h o cl)).
  by intros [].
Defined.

Module QueueBackend.

(** [QueueBackendCheckpoint]. *)
Abbreviation checkpoint_t := (list Segment.checkpoint_t).

Record t : Type := mk {
  config : Config.QueueConfig;
  segments : list Segment.t;
  head : Z;
  tail : Z;
}.

Definition set_segments (b : t) (segs : list Segment.t) : t :=
  mk (config b) segs (head b) (tail b).

(** Replaces the last segment, the one [last()] returned. *)
Fixpoint set_last (segs : list Segment.t) (s : Segment.t) : list Segment.t :=
  match segs with
  | [] => []
  | [_] => [s]
  | s' :: segs => s' :: set_last segs s
  end.

Section ops.
Context `{Profile} `{Hasher} `{Json checkpoint_t}.

Definition set_config (b : t) (config : Config.QueueConfig) : t :=
  mk config (segments b) (head b) (tail b).

Definition segments_count (b : t) : Z := zlen (segments b).

Definition sum_len (segs : list Segment.t) : outcome Z :=
  u64 (foldr (λ s n, Segment.file_len s + n) 0 segs).

Definition disk_usage (b : t) : outcome Z := sum_len (segments b).

Definition find_segment (b : t) (id : Z) : option Segment.t :=
  snd <$> list_find (λ s, id < Segment.head s ∧ Segment.tail s < Segment.head s) (segments b).

Definition get (b : t) (id : Z) : outcome (option Message.t) :=
  match find_segment b id with
  | Some segment =>
      inner ← Segment.get segment (Z.max id (Segment.tail segment));
      mret match inner with
           | Ok inner => Some {| Message.segment := segment; Message.mmap_ptr := inner |}
           | Err _ => None
           end
  | None => mret None
  end.

(** The narrowing loop of [find_id_for_timestamp] over the segments. *)
Definition narrow (timestamp : Z) (window : Z * Z) (s : Segment.t) : Z * Z :=
  (if Segment.first_timestamp s <? timestamp then Segment.tail s else window.1,
   if timestamp <? Segment.last_timestamp s then Segment.head s else window.2).

(** The search loop; the window shrinks at every turn. *)
Fixpoint search (fuel : nat) (b : t) (timestamp tail head : Z) : outcome Z :=
  match fuel with
  | O => mret tail
  | S fuel =>
      if tail <? head then
        d ← u64 (head - tail);
        id ← u64 (tail + d / 2);
        msg ← get b id;
        match msg with
        | Some msg =>
            ts ← Message.timestamp msg;
            if timestamp <=? ts then search fuel b timestamp tail id
            else next ← u64 (id + 1); search fuel b timestamp next head
        | None => search fuel b timestamp tail id
        end
      else mret tail
  end.

Definition find_id_for_timestamp (b : t) (timestamp : Z) : outcome Z :=
  let '(tail, head) := foldl (narrow timestamp) (tail b, head b) (segments b) in
  search (Z.to_nat (head - tail)) b timestamp tail head.

Definition push (os : Os) (b : t) (body : list Z) (timestamp : Z) :
    outcome (t * result Z QueueBackendError) :=
  '(b, result) ←
    match last (segments b) with
    | Some segment =>
        '(segment, r) ← Segment.push segment body timestamp;
        mret (set_segments b (set_last (segments b) segment), r)
    | None => mret (b, Err SegmentFull)
    end;
  match result with
  | Ok id =>
      _ ← assert (id =? head b);
      head' ← u64 (head b + 1);
      mret (mk (config b) (segments b) head' (tail b), Ok id)
  | Err SegmentFull =>
      created ← Segment.create os (config b) (head b);
      match created with
      | Err e => mret (b, Err e)
      | Ok segment =>
          let b := set_segments b (segments b ++ [segment]) in
          '(segment, r) ← Segment.push segment body timestamp;
          let b := set_segments b (set_last (segments b) segment) in
          match r with
          | Err e => mret (b, Err e)
          | Ok id =>
              _ ← assert (id =? head b);
              head' ← u64 (head b + 1);
              mret (mk (config b) (segments b) head' (tail b), Ok id)
          end
      end
  | Err e => mret (b, Err e)
  end.

Definition close_last (segs : list Segment.t) : list Segment.t :=
  match last segs with
  | Some s => set_last segs (Segment.set_closed s true)
  | None => segs
  end.

Definition purge (b : t) : t :=
  mk (config b) (close_last (segments b)) (head b) (head b).

(** [wait_delete_segment] on each segment, then its [Drop]: the files that
    are removed. *)
Fixpoint delete_segments (segs : list Segment.t) : outcome (list (list Z)) :=
  match segs with
  | [] => mret []
  | s :: segs =>
      s ← Segment.purge s;
      paths ← delete_segments segs;
      mret (match Segment.drop s with Some p => p :: paths | None => paths end)
  end.

Definition delete (b : t) : outcome (t * list (list Z)) :=
  paths ← delete_segments (segments b);
  mret (set_segments b [],
        Config.path_join (Config.data_directory (config b)) (B "backend.checkpoint") :: paths).

(** The loop of [recover] over the checkpoints of the segments. *)
Fixpoint open_segments (os : Z → Os) (files : gmap (list Z) (list Z))
    (config : Config.QueueConfig) (cps : checkpoint_t) (segs : list Segment.t) :
    outcome (list Segment.t) :=
  match cps with
  | [] => mret segs
  | cp :: cps =>
      let path := Segment.gen_file_path config (Segment.cp_tail cp) Segment.DATA_EXTENSION in
      opened ← Segment.open (os (Segment.cp_tail cp)) config (files !! path) cp;
      match opened with
      | Err _ => open_segments os files config cps segs
      | Ok segment =>
          let segs := if Segment.closed segment then segs else close_last segs in
          open_segments os files config cps (segs ++ [segment])
      end
  end.

(** [checkpoint_file] is what [backend.checkpoint] holds, if it can be read. *)
Definition recover (os : Z → Os) (files : gmap (list Z) (list Z))
    (checkpoint_file : option (list Z)) (b : t) : outcome t :=
  match checkpoint_file ≫= json_decode with
  | None => mret b
  | Some cps =>
      segs ← open_segments os files (config b) cps (segments b);
      let tail' := match segs with s :: _ => Segment.tail s | [] => tail b end in
      let head' := match last segs with Some s => Segment.head s | None => head b end in
      mret (mk (config b) segs head' tail')
  end.

Definition new (os : Z → Os) (files : gmap (list Z) (list Z))
    (checkpoint_file : option (list Z)) (config : Config.QueueConfig) (recover_ : bool) :
    outcome t :=
  let backend := mk config [] 1 1 in
  if recover_ then recover os files checkpoint_file backend else mret backend.

(** The checkpoints of the segments from [tail] on, and all the segments
    with their new [sync_offset]. *)
Fixpoint checkpoint_segments (os : Os) (from : Z) (full : bool) (segs : list Segment.t) :
    outcome (list Segment.t * checkpoint_t) :=
  match segs with
  | [] => mret ([], [])
  | s :: segs =>
      if from <=? Segment.tail s then
        '(s, cp, _) ← Segment.checkpoint os s full;
        '(segs, cps) ← checkpoint_segments os from full segs;
        mret (s :: segs, cp :: cps)
      else
        '(segs, cps) ← checkpoint_segments os from full segs;
        mret (s :: segs, cps)
  end.

(** [QueueBackend::checkpoint]; the result also has the new contents of
    [backend.checkpoint]. [written] tells whether the temporary file was
    created, written, synced and renamed: otherwise the code panics. *)
Definition checkpoint (os : Os) (written : bool) (b : t) (full : bool) :
    outcome (t * list Z) :=
  '(segs, cps) ← checkpoint_segments os (tail b) full (segments b);
  _ ← assert written;
  mret (set_segments b segs, json_encode cps).

(** The counting loop of [gc]. *)
Fixpoint gc_count (c : Config.QueueConfig) (smallest_tail clock total_rem_size : Z)
    (segs : list Segment.t) : outcome nat :=
  match segs with
  | [] => mret O
  | s :: segs =>
      if negb (Segment.closed s) then mret O else
      let contains_channel_msg := smallest_tail <? Segment.head s in
      last_msg_age ← u32 (clock - Segment.last_timestamp s);
      let pass_hard_retention_period :=
        (Config.hard_retention_period c =? 0) || (last_msg_age <=? Config.hard_retention_period c) in
      let pass_hard_retention_size :=
        (Config.hard_retention_size c =? 0) || (total_rem_size <=? Config.hard_retention_size c) in
      let pass_retention_period :=
        negb (Config.retention_period c =? 0) && (last_msg_age <=? Config.retention_period c) in
      let pass_retention_size :=
        negb (Config.retention_size c =? 0) && (total_rem_size <=? Config.retention_size c) in
      if (pass_hard_retention_period && pass_hard_retention_size) &&
         (contains_channel_msg || pass_retention_period || pass_retention_size)
      then mret O
      else
        rem ← u64 (total_rem_size - Segment.file_len s);
        n ← gc_count c smallest_tail clock rem segs;
        mret (S n)
  end.

(** [QueueBackend::gc] and the files it removes. *)
Definition gc (b : t) (smallest_tail clock : Z) : outcome (t * list (list Z)) :=
  total_rem_size ← sum_len (segments b);
  gc_seg_count ← gc_count (config b) smallest_tail clock total_rem_size (segments b);
  if (gc_seg_count =? 0)%nat then mret (b, []) else
  let gc_segments := take gc_seg_count (segments b) in
  let segs := drop gc_seg_count (segments b) in
  let tail' := match segs with s :: _ => Segment.tail s | [] => head b end in
  paths ← delete_segments gc_segments;
  mret (mk (config b) segs (head b) tail', paths).

End ops.

(** The data files a later start finds: the mappings are shared. *)
Definition segment_files (b : t) : gmap (list Z) (list Z) :=
  list_to_map ((λ s, (Segment.file_path s, Segment.file_mmap s)) <$> segments b).

End QueueBackend.
