(* ===== verification/LogSpec.v ===== *)
(** * The abstract log and how a backend represents it

    The abstract state of a queue backend is a log: the id of its first
    message and the messages. [backend_rep b start ms] says that the
    segments of [b] hold exactly the messages [ms], numbered from [start]. *)
From S2P Require Import Prelude.
From S2P Require Import Bytes.
From S2P Require Import Offsets.
From S2P Require Import Text.
From S2P Require Import Settings.
From S2P Require Import Segments.
From S2P Require Import SegmentSpec.
From S2P Require Import SegmentFacts.
From S2P Require Import Backend.

(** Computes the projections of an updated backend. *)
Ltac qb := cbn [QueueBackend.set_segments QueueBackend.head QueueBackend.tail
  QueueBackend.config QueueBackend.segments] in *.

Section log.
Context `{Hasher}.

(** Consecutive segments: each starts at the id where the previous ended. *)
Inductive chain : Z → list Segment.t → list msg → Z → Prop :=
| chain_nil start : chain start [] [] start
| chain_cons start s segs ms n msgs stop :
    rep s ms (replicate n 0) → Segment.tail s = start → Segment.deleted s = false →
    chain (Segment.head s) segs msgs stop →
    chain start (s :: segs) (ms ++ msgs) stop.

(** Only the last segment may be open or empty. *)
Definition full_segment (s : Segment.t) : Prop :=
  Segment.closed s = true ∧ Segment.tail s < Segment.head s.
Definition sealed (segs : list Segment.t) : Prop := Forall full_segment (removelast segs).

Record backend_rep (b : QueueBackend.t) (start : Z) (ms : list msg) : Prop := {
  br_chain : chain start (QueueBackend.segments b) ms (QueueBackend.head b);
  br_sealed : sealed (QueueBackend.segments b);
  br_start : 1 ≤ start;
  br_tail : start ≤ QueueBackend.tail b ≤ QueueBackend.head b;
  br_head : QueueBackend.head b < 2 ^ 63;
}.

(** ** Chains *)

Lemma chain_stop start segs msgs stop : chain start segs msgs stop → stop = start + zlen msgs.
Proof.
  induction 1 as [|start s segs ms n msgs stop Hr Ht _ _ IH]; [rewrite zlen_nil; lia|].
  rewrite zlen_app, IH, (rep_head _ _ _ Hr). lia.
Qed.

Lemma chain_app start l1 l2 msgs stop :
  chain start (l1 ++ l2) msgs stop ↔
  ∃ m1 m2 mid, msgs = m1 ++ m2 ∧ chain start l1 m1 mid ∧ chain mid l2 m2 stop.
Proof.
  split.
  - revert start msgs. induction l1 as [|s l1 IH]; intros start msgs Hc.
    { exists [], msgs, start. split_and!; [done|constructor|done]. }
    inversion Hc as [|? ? ? ms n msgs' ? Hr Ht Hd Hc']; subst.
    apply IH in Hc' as (m1 & m2 & mid & -> & Hc1 & Hc2).
    exists (ms ++ m1), m2, mid. rewrite app_assoc. split_and!; [done|by econstructor|done].
  - intros (m1 & m2 & mid & -> & Hc1 & Hc2).
    induction Hc1 as [|start s segs ms n m1 mid Hr Ht Hd Hc1 IH]; [done|].
    rewrite <-app_assoc. cbn. econstructor; eauto.
Qed.

Lemma chain_singleton start s msgs stop :
  chain start [s] msgs stop ↔
  ∃ n, rep s msgs (replicate n 0) ∧ Segment.tail s = start ∧
    Segment.deleted s = false ∧ stop = Segment.head s.
Proof.
  split.
  - inversion 1 as [|? ? ? ms n msgs' ? Hr Ht Hd Hc']; subst.
    inversion Hc'; subst. rewrite app_nil_r. by exists n.
  - intros (n & Hr & Ht & Hd & ->). rewrite <-(app_nil_r msgs).
    econstructor; [done..|constructor].
Qed.

Lemma chain_snoc start l s msgs stop :
  chain start (l ++ [s]) msgs stop ↔
  ∃ m1 m2 n, msgs = m1 ++ m2 ∧ chain start l m1 (Segment.tail s) ∧
    rep s m2 (replicate n 0) ∧ Segment.deleted s = false ∧ stop = Segment.head s.
Proof.
  rewrite chain_app. setoid_rewrite chain_singleton. split.
  - intros (m1 & m2 & mid & -> & Hc & n & Hr & <- & Hd & ->). naive_solver.
  - intros (m1 & m2 & n & -> & Hc & Hr & Hd & ->). naive_solver.
Qed.

Lemma chain_first start segs msgs stop :
  chain start segs msgs stop →
  match segs with s :: _ => Segment.tail s | [] => stop end = start.
Proof. by destruct 1. Qed.

Lemma chain_deleted start segs msgs stop :
  chain start segs msgs stop → Forall (λ s, Segment.deleted s = false) segs.
Proof. induction 1; by constructor. Qed.

(** ** The last segment *)

Lemma set_last_snoc l s s' : QueueBackend.set_last (l ++ [s]) s' = l ++ [s'].
Proof.
  induction l as [|s0 l IH]; [done|]. cbn [app QueueBackend.set_last].
  rewrite IH. by destruct l.
Qed.

Lemma close_last_snoc l s :
  QueueBackend.close_last (l ++ [s]) = l ++ [Segment.set_closed s true].
Proof. unfold QueueBackend.close_last. by rewrite last_snoc, set_last_snoc. Qed.

Lemma sealed_snoc l s : sealed (l ++ [s]) ↔ Forall full_segment l.
Proof. unfold sealed. by rewrite removelast_app, app_nil_r. Qed.

Lemma sealed_drop n segs : sealed segs → sealed (drop n segs).
Proof.
  unfold sealed. revert n. induction segs as [|s segs IH]; intros [|n] Hs; try done.
  destruct segs as [|s' segs]; [by destruct n|]. cbn [drop]. apply IH.
  cbn [removelast] in Hs. by apply Forall_cons in Hs as [_ ?].
Qed.

(** ** Lookup by id

    [entry start msgs id]: what a request for [id] yields, the message with
    that id or the first one when [id] is before it. *)
Definition entry (start : Z) (msgs : list msg) (id : Z) : option (Z * msg) :=
  (λ x, (Z.max id start, x)) <$> msgs !! Z.to_nat (Z.max id start - start).

Section get.
Context `{Profile}.

(** [m] is the stored message [x] with id [id]. *)
Definition message_is (m : Message.t) (id : Z) (x : msg) : Prop :=
  Message.id m = Done id ∧ Message.timestamp m = Done x.1 ∧ Message.body m = Done x.2.

Lemma find_chain start segs msgs stop id :
  chain start segs msgs stop → 0 ≤ id → stop < 2 ^ 63 →
  match snd <$> list_find (λ s, id < Segment.head s ∧ Segment.tail s < Segment.head s) segs with
  | Some s => ∃ off x, Segment.get s (Z.max id (Segment.tail s)) = Done (Ok off) ∧
      entry start msgs id = Some (Z.max id start, x) ∧
      message_is (Message.mk s off) (Z.max id start) x
  | None => entry start msgs id = None
  end.
Proof.
  intros Hc Hid Hstop. induction Hc as [start|start s segs ms n msgs stop Hr Ht Hd Hc IH];
    [done|]. specialize (IH Hstop).
  pose proof (rep_head _ _ _ Hr) as Hh. pose proof (zlen_nonneg ms).
  pose proof (chain_stop _ _ _ _ Hc) as Hst. pose proof (zlen_nonneg msgs).
  cbn [list_find]. destruct (decide _) as [[Hlt Hne]|Hno].
  - cbn [fmap option_fmap option_map snd]. unfold entry. subst start.
    destruct (lookup_lt_is_Some_2 ms (Z.to_nat (Z.max id (Segment.tail s) - Segment.tail s))) as [x Hx].
    { unfold zlen in *. lia. }
    destruct (get_present _ _ _ _ _ Hr Hx) as [Hget Hst'].
    replace (Segment.tail s + Z.of_nat (Z.to_nat (Z.max id (Segment.tail s) - Segment.tail s)))
      with (Z.max id (Segment.tail s)) in * by lia.
    eexists _, x. rewrite lookup_app_l by (by eapply lookup_lt_Some).
    rewrite Hx. split_and!; [done|done|]. pose proof (rep_tail _ _ _ Hr).
    eapply message_fields; [done|unfold in_u64, zlen in *; lia|].
    by eapply Forall_lookup_1; [apply (rep_wf _ _ _ Hr)|].
  - assert (Z.max id (Segment.head s) = Z.max id start) as Hmax.
    { destruct (decide (Segment.tail s < Segment.head s)); lia. }
    assert (entry start (ms ++ msgs) id = entry (Segment.head s) msgs id) as ->.
    { unfold entry. rewrite Hmax, lookup_app_r by (unfold zlen in *; lia).
      do 2 f_equal. unfold zlen in *. lia. }
    rewrite Hmax in IH.
    destruct (list_find _ segs) as [[i s']|]; exact IH.
Qed.
End get.
End log.
