(* ===== verification/BackendFacts.v ===== *)
(** * Correctness of the queue backend

    [get], [push], [purge] and [gc] against the abstract log of [LogSpec.v]. *)
From S2P Require Import Prelude.
From S2P Require Import Bytes.
From S2P Require Import Offsets.
From S2P Require Import Text.
From S2P Require Import Settings.
From S2P Require Import Segments.
From S2P Require Import SegmentSpec.
From S2P Require Import SegmentFacts.
From S2P Require Import Backend.
From S2P Require Import LogSpec.

Section facts.
Context `{Profile} `{Hasher}.

(** ** Get *)

(** A request for [id] yields the entry of the log, or nothing. *)
Lemma get_refines b start ms id :
  backend_rep b start ms → 0 ≤ id →
  match entry start ms id with
  | Some (id', x) => ∃ m, QueueBackend.get b id = Done (Some m) ∧ message_is m id' x
  | None => QueueBackend.get b id = Done None
  end.
Proof.
  intros Hb Hid. pose proof (find_chain _ _ _ _ id (br_chain _ _ _ Hb) Hid (br_head _ _ _ Hb)) as Hf.
  unfold QueueBackend.get, QueueBackend.find_segment. cbn zeta in *.
  destruct (snd <$> list_find _ _) as [s|].
  - destruct Hf as (off & x & Hget & Hentry & Hm).
    rewrite Hentry, Hget, bind_Done. by eexists.
  - by rewrite Hf.
Qed.

(** ** Push *)

Lemma rep_offset_bounds s msgs rest :
  rep s msgs rest → 0 ≤ Segment.file_offset s ≤ Segment.file_len s.
Proof.
  intros Hr. destruct (rep_sizes _ _ _ Hr) as (Hsz & Hpos & _).
  rewrite (rep_offset _ _ _ Hr), Hsz. pose proof (zlen_nonneg rest). lia.
Qed.

Lemma drop_zeros n k : drop (Z.to_nat k) (replicate n 0) = replicate (n - Z.to_nat k) (0 : Z).
Proof. apply drop_replicate. Qed.

(** A fresh segment takes the message or finds it too big. *)
Lemma push_fresh s n x :
  rep s [] (replicate n 0) → wf_msg x → msg_size x + 4 < 2 ^ 32 →
  (∃ s', Segment.push s x.2 x.1 = Done (s', Ok (Segment.head s)) ∧
    rep s' [x] (replicate (n - Z.to_nat (msg_size x)) 0) ∧
    Segment.tail s' = Segment.tail s ∧ Segment.deleted s' = Segment.deleted s ∧
    Segment.closed s' = Segment.closed s ∧ Segment.file_path s' = Segment.file_path s) ∨
  (Segment.push s x.2 x.1 = Done (s, Err MessageTooBig) ∧ Segment.file_len s < msg_size x + 4).
Proof.
  intros Hr Hx Hbig. pose proof (rep_len_range _ _ _ Hr).
  pose proof (rep_offset _ _ _ Hr) as Ho. cbn [total_size] in Ho.
  destruct (decide (fits s x)) as [Hfit|Hfit].
  - left. destruct (push_fits _ _ _ _ Hr Hx Hfit) as (s' & Hp & Hr' & Ht & Hc & Hd & Hl & Hpath & _).
    rewrite drop_zeros in Hr'. by exists s'.
  - right. rewrite push_no_room by (try done; lia). unfold fits in Hfit.
    rewrite decide_True by lia. split; [done|lia].
Qed.

Lemma backend_rep_next b start ms :
  backend_rep b start ms → QueueBackend.head b = start + zlen ms.
Proof. intros Hb. apply (chain_stop _ _ _ _ (br_chain _ _ _ Hb)). Qed.

(** [push] when a new segment is needed. *)
Definition push_new os b (x : msg) : outcome (QueueBackend.t * result Z QueueBackendError) :=
  created ← Segment.create os (QueueBackend.config b) (QueueBackend.head b);
  match created with
  | Err e => mret (b, Err e)
  | Ok segment =>
      let b := QueueBackend.set_segments b (QueueBackend.segments b ++ [segment]) in
      '(segment, r) ← Segment.push segment x.2 x.1;
      let b := QueueBackend.set_segments b (QueueBackend.set_last (QueueBackend.segments b) segment) in
      match r with
      | Err e => mret (b, Err e)
      | Ok id =>
          _ ← assert (id =? QueueBackend.head b);
          head' ← u64 (QueueBackend.head b + 1);
          mret (QueueBackend.mk (QueueBackend.config b) (QueueBackend.segments b) head'
                  (QueueBackend.tail b), Ok id)
      end
  end.

(** What [push] promises: the message is appended under the id [head], or
    it is too big and the log is unchanged. *)
Definition push_spec (b : QueueBackend.t) start ms (x : msg)
    (b' : QueueBackend.t) (r : result Z QueueBackendError) : Prop :=
  QueueBackend.config b' = QueueBackend.config b ∧ QueueBackend.tail b' = QueueBackend.tail b ∧
  match r with
  | Ok id => id = QueueBackend.head b ∧ backend_rep b' start (ms ++ [x])
  | Err e => e = MessageTooBig ∧ backend_rep b' start ms ∧
      (Config.segment_size (QueueBackend.config b) < msg_size x + 4 ∨
       ∃ s, last (QueueBackend.segments b) = Some s ∧ Segment.file_len s ≤ msg_size x + 4)
  end.

Lemma push_new_refines os b start ms x :
  backend_rep b start ms → Forall full_segment (QueueBackend.segments b) →
  wf_msg x → msg_size x + 4 < 2 ^ 32 → no_faults os → os_zeroes os →
  4 < Config.segment_size (QueueBackend.config b) < 2 ^ 31 → QueueBackend.head b + 1 < 2 ^ 63 →
  ∃ b' r, push_new os b x = Done (b', r) ∧ push_spec b start ms x b' r.
Proof.
  intros Hb Hfull Hx Hbig Hos Hz Hsize Hhead. destruct Hb as [Hc Hs Hst Htl Hhd].
  pose proof (chain_stop _ _ _ _ Hc) as Hstop. unfold push_new.
  destruct (create_ok os (QueueBackend.config b) (QueueBackend.head b))
    as (s & Hcr & Hr & Ht & Hcl & Hd & Hlen & _); [done..|lia|].
  rewrite Hcr, bind_Done. cbn zeta.
  destruct (push_fresh _ _ _ Hr Hx Hbig) as
    [(s' & Hp & Hr' & Ht' & Hd' & Hc' & _)|(Hp & Htoo)]; rewrite Hp, bind_Done; qb;
    rewrite set_last_snoc.
  - pose proof (rep_head _ _ _ Hr) as Hh. rewrite zlen_nil in Hh.
    rewrite assert_true, bind_Done by lia. mint. eexists _, _. split; [reflexivity|].
    split_and!; [done|done|lia|]. constructor; qb; [|by rewrite sealed_snoc|lia..].
    apply chain_snoc. exists ms, [x], (Z.to_nat (Config.segment_size (QueueBackend.config b) - 4) - Z.to_nat (msg_size x))%nat.
    pose proof (rep_head _ _ _ Hr') as Hh'. change (zlen [x]) with 1 in Hh'.
    split_and!; [done|by rewrite Ht', Ht|done|congruence|lia].
  - eexists _, _. split; [reflexivity|]. split_and!; [done..| |left; lia].
    pose proof (rep_head _ _ _ Hr) as Hh. rewrite zlen_nil in Hh.
    constructor; qb; [|by rewrite sealed_snoc|lia..].
    apply chain_snoc. eexists ms, [], _. rewrite app_nil_r.
    split_and!; [done|by rewrite Ht|done|done|lia].
Qed.

Lemma push_unfold os b x :
  QueueBackend.push os b x.2 x.1 =
    match last (QueueBackend.segments b) with
    | None => push_new os b x
    | Some s =>
        '(s, r) ← Segment.push s x.2 x.1;
        let b := QueueBackend.set_segments b (QueueBackend.set_last (QueueBackend.segments b) s) in
        match r with
        | Ok id =>
            _ ← assert (id =? QueueBackend.head b);
            head' ← u64 (QueueBackend.head b + 1);
            mret (QueueBackend.mk (QueueBackend.config b) (QueueBackend.segments b) head'
                    (QueueBackend.tail b), Ok id)
        | Err SegmentFull => push_new os b x
        | Err e => mret (b, Err e)
        end
    end.
Proof.
  unfold QueueBackend.push. destruct (last _) as [s|]; [|done].
  rewrite bind_assoc_outcome. by destruct (Segment.push s x.2 x.1) as [[s' r]| |].
Qed.

Lemma push_refines os b start ms x :
  backend_rep b start ms → wf_msg x → msg_size x + 4 < 2 ^ 32 → no_faults os → os_zeroes os →
  4 < Config.segment_size (QueueBackend.config b) < 2 ^ 31 → QueueBackend.head b + 1 < 2 ^ 63 →
  ∃ b' r, QueueBackend.push os b x.2 x.1 = Done (b', r) ∧ push_spec b start ms x b' r.
Proof.
  intros Hb Hx Hbig Hos Hz Hsize Hhead. rewrite push_unfold.
  destruct (last (QueueBackend.segments b)) as [s|] eqn:Hl.
  2:{ apply push_new_refines; try done. apply last_None in Hl. by rewrite Hl. }
  pose proof Hl as [l Hseg]%last_Some. destruct b as [config segs head tail].
  qb. subst segs. destruct Hb as [Hc Hs Hst Htl Hhd]; cbn in *.
  apply sealed_snoc in Hs. apply chain_snoc in Hc as (m1 & m2 & n & -> & Hc1 & Hr & Hd & ->).
  pose proof (chain_stop _ _ _ _ Hc1) as Hstop. pose proof (rep_offset_bounds _ _ _ Hr) as Hob.
  pose proof (rep_len_range _ _ _ Hr) as Hlr.
  destruct (decide (fits s x)) as [Hfit|Hfit].
  - destruct (push_fits _ _ _ _ Hr Hx Hfit) as (s' & Hp & Hr' & Ht' & Hc' & Hd' & _).
    rewrite Hp, bind_Done. qb. rewrite set_last_snoc. rewrite assert_true, bind_Done by lia. mint.
    eexists _, _. split; [reflexivity|]. split_and!; [done|done|done|].
    pose proof (rep_head _ _ _ Hr) as Hh. pose proof (rep_head _ _ _ Hr') as Hh'.
    rewrite zlen_app in Hh'. change (zlen [x]) with 1 in Hh'.
    constructor; qb; [|by apply sealed_snoc|lia..].
    rewrite drop_zeros in Hr'. apply chain_snoc. exists m1, (m2 ++ [x]). eexists.
    rewrite app_assoc. split_and!; [done|by rewrite Ht'|done|congruence|lia].
  - rewrite push_no_room by (done || lia). case_decide as Htoo; rewrite bind_Done; qb; rewrite set_last_snoc.
    + eexists _, _. split; [reflexivity|]. split_and!; [done..| |right; by exists s].
      constructor; qb; [|by apply sealed_snoc|lia..]. apply chain_snoc. by exists m1, m2, n.
    + set (s' := Segment.set_closed s true).
      assert (Forall full_segment (l ++ [s'])) as Hfull.
      { apply Forall_app. split; [done|]. constructor; [|done]. split; [done|]. cbn.
        rewrite (rep_head _ _ _ Hr). destruct m2 as [|m m2].
        - exfalso. unfold fits in Hfit. pose proof (rep_offset _ _ _ Hr) as Ho.
          cbn [total_size] in Ho. lia.
        - rewrite zlen_cons. pose proof (zlen_nonneg m2). lia. }
      edestruct (push_new_refines os
        (QueueBackend.mk config (l ++ [s']) (Segment.head s) tail) start (m1 ++ m2) x)
        as (b' & r & Hp & Hspec); try done.
      { constructor; qb; [|by apply sealed_snoc|lia..]. apply chain_snoc.
        exists m1, m2, n. split_and!; try done. by apply rep_set_closed. }
      exists b', r. split; [done|]. destruct Hspec as (? & ? & Hspec).
      split_and!; [done..|]. destruct r as [id|e]; [done|].
      destruct Hspec as (? & ? & [?|(s0 & Hs0 & Hbig0)]); split_and!; try done; [by left|].
      cbn in Hs0. rewrite last_snoc in Hs0. injection Hs0 as <-. right. exists s. by split.
Qed.

End facts.
