(* ===== verification/Retention.v ===== *)
(** * Purging and garbage collection of a backend

    [QueueBackend::gc] removes a prefix of the closed segments. The lemmas
    say which segments, and that the log loses exactly their messages. *)
From S2P Require Import Prelude.
From S2P Require Import Bytes.
From S2P Require Import Settings.
From S2P Require Import Segments.
From S2P Require Import SegmentSpec.
From S2P Require Import SegmentFacts.
From S2P Require Import Backend.
From S2P Require Import LogSpec.

Section facts.
Context `{Profile} `{Hasher}.

Definition total_len (segs : list Segment.t) : Z :=
  foldr (λ s n, Segment.file_len s + n) 0 segs.

(** The hard limits, which override channel positions. *)
Definition within_hard_limits (c : Config.QueueConfig) (clock total : Z) (s : Segment.t) : Prop :=
  (Config.hard_retention_period c = 0 ∨
   clock - Segment.last_timestamp s ≤ Config.hard_retention_period c) ∧
  (Config.hard_retention_size c = 0 ∨ total ≤ Config.hard_retention_size c).

(** The soft limits keep a segment that every channel has read. *)
Definition within_soft_limits (c : Config.QueueConfig) (clock total : Z) (s : Segment.t) : Prop :=
  (Config.retention_period c ≠ 0 ∧
   clock - Segment.last_timestamp s ≤ Config.retention_period c) ∨
  (Config.retention_size c ≠ 0 ∧ total ≤ Config.retention_size c).

(** A segment stays: it is open, or within the hard limits and still wanted. *)
Definition kept (c : Config.QueueConfig) (smallest_tail clock total : Z) (s : Segment.t) : Prop :=
  Segment.closed s = false ∨
  (within_hard_limits c clock total s ∧
   (smallest_tail < Segment.head s ∨ within_soft_limits c clock total s)).

(** The clock has not gone back behind a stored timestamp. *)
Definition clock_ok (clock : Z) (segs : list Segment.t) : Prop :=
  Forall (λ s, 0 ≤ clock - Segment.last_timestamp s < 2 ^ 32) segs.

Definition lens_ok (segs : list Segment.t) : Prop :=
  Forall (λ s, 0 ≤ Segment.file_len s) segs.

Lemma total_len_nonneg segs : lens_ok segs → 0 ≤ total_len segs.
Proof. unfold total_len. induction 1; cbn; lia. Qed.

(** [gc_count] is the length of the longest prefix without a kept segment;
    the sizes compared are those of the segments not yet counted. *)
Lemma gc_count_spec c smallest clock segs :
  clock_ok clock segs → lens_ok segs → total_len segs < 2 ^ 64 →
  ∃ n, QueueBackend.gc_count c smallest clock (total_len segs) segs = Done n ∧
    (n ≤ length segs)%nat ∧
    (∀ i s, segs !! i = Some s → (i < n)%nat →
       ¬ kept c smallest clock (total_len (drop i segs)) s) ∧
    (∀ s, segs !! n = Some s → kept c smallest clock (total_len (drop n segs)) s).
Proof.
  intros Hclock Hlens Htotal. induction segs as [|s segs IH].
  { exists O. by split_and!. }
  apply Forall_cons in Hclock as [Hc Hclock]. apply Forall_cons in Hlens as [Hlen Hlens].
  cbn [total_len foldr] in Htotal. fold (total_len segs) in Htotal.
  pose proof (total_len_nonneg _ Hlens).
  cbn [QueueBackend.gc_count].
  destruct (Segment.closed s) eqn:Hcl; cbn [negb].
  2:{ exists O. split_and!; [done|lia|lia|]. intros ? [= <-]. by left. }
  rewrite u32_in, bind_Done by (unfold in_u32; lia).
  assert (Hk : Bool.reflect (kept c smallest clock (total_len (s :: segs)) s)
    ((((Config.hard_retention_period c =? 0) ||
       (clock - Segment.last_timestamp s <=? Config.hard_retention_period c)) &&
      ((Config.hard_retention_size c =? 0) || (total_len (s :: segs) <=? Config.hard_retention_size c))) &&
     ((smallest <? Segment.head s) ||
      (negb (Config.retention_period c =? 0) &&
       (clock - Segment.last_timestamp s <=? Config.retention_period c)) ||
      (negb (Config.retention_size c =? 0) && (total_len (s :: segs) <=? Config.retention_size c))))).
  { apply iff_reflect. unfold kept, within_hard_limits, within_soft_limits. rewrite Hcl. lia. }
  destruct Hk as [Hk|Hk].
  { exists O. split_and!; [done|lia|lia|]. by intros ? [= <-]. }
  destruct IH as (n & Hn & Hle & Hrm & Hkeep); [done|done|lia|].
  cbn [total_len foldr]. fold (total_len segs).
  replace (Segment.file_len s + total_len segs - Segment.file_len s) with (total_len segs) by lia.
  rewrite u64_in, bind_Done, Hn, bind_Done by (unfold in_u64; lia).
  exists (S n). split_and!; [done|simpl; lia| |].
  - intros [|i] s' Hi Hin; [by injection Hi as <-|]. apply (Hrm i); [done|lia].
  - intros s' Hs'. by apply Hkeep.
Qed.

Lemma delete_segments_ok segs :
  Forall (λ s, Segment.deleted s = false) segs →
  QueueBackend.delete_segments segs = Done (Segment.file_path <$> segs).
Proof.
  induction 1 as [|s segs Hd _ IH]; [done|]. cbn [QueueBackend.delete_segments].
  unfold Segment.purge. rewrite Hd. cbn [negb]. rewrite assert_true, !bind_Done by done.
  by rewrite IH, bind_Done.
Qed.

(** Dropping the first segments drops their messages from the log. *)
Lemma chain_drop k start segs ms stop :
  chain start segs ms stop →
  ∃ mid, chain mid (drop k segs) (drop (Z.to_nat (mid - start)) ms) stop ∧
    start ≤ mid ≤ stop ∧
    (∀ i s, segs !! i = Some s → (i < k)%nat → Segment.head s ≤ mid) ∧
    ((k = 0)%nat → mid = start) ∧
    ((0 < k)%nat → ∀ s, segs !! pred k = Some s → mid = Segment.head s).
Proof.
  intros Hc. revert start segs ms Hc. induction k as [|k IH]; intros start segs ms Hc.
  { exists start. replace (start - start) with 0 by lia.
    pose proof (chain_stop _ _ _ _ Hc). pose proof (zlen_nonneg ms).
    split_and!; [done|lia|lia|lia|done|lia]. }
  destruct Hc as [start|start s segs ms n msgs stop Hr Ht Hd Hc].
  { exists start. replace (start - start) with 0 by lia. cbn.
    split_and!; [constructor|lia|lia|done|done|done]. }
  destruct (IH _ _ _ Hc) as (mid & Hc' & Hmid & Hi & H0' & Hk).
  pose proof (rep_head _ _ _ Hr) as Hh. pose proof (zlen_nonneg ms).
  exists mid. cbn [drop]. split_and!; [|lia|lia| |done|].
  - rewrite drop_app_ge by (unfold zlen in *; lia).
    replace (Z.to_nat (mid - start) - length ms)%nat with (Z.to_nat (mid - Segment.head s))
      by (unfold zlen in *; lia). done.
  - intros [|i] s' Hs' Hlt; [injection Hs' as <-; lia|]. eapply Hi; [done|lia].
  - intros _ s' Hs'. destruct k as [|k]; [|by apply Hk; [lia|]].
    injection Hs' as <-. by apply H0'.
Qed.

(** ** Garbage collection *)

Lemma gc_refines b start ms smallest clock :
  backend_rep b start ms → clock_ok clock (QueueBackend.segments b) →
  lens_ok (QueueBackend.segments b) → total_len (QueueBackend.segments b) < 2 ^ 64 →
  ∃ n start' b' paths,
    QueueBackend.gc b smallest clock = Done (b', paths) ∧
    backend_rep b' start' (drop (Z.to_nat (start' - start)) ms) ∧
    start ≤ start' ∧ QueueBackend.config b' = QueueBackend.config b ∧
    QueueBackend.head b' = QueueBackend.head b ∧
    QueueBackend.segments b' = drop n (QueueBackend.segments b) ∧
    paths = Segment.file_path <$> take n (QueueBackend.segments b) ∧
    QueueBackend.tail b' = (if decide (n = O) then QueueBackend.tail b else start') ∧
    ((n = O)%nat → start' = start) ∧
    ((0 < n)%nat → ∃ s, QueueBackend.segments b !! pred n = Some s ∧ start' = Segment.head s) ∧
    (∀ i s, QueueBackend.segments b !! i = Some s → (i < n)%nat →
       ¬ kept (QueueBackend.config b) smallest clock (total_len (drop i (QueueBackend.segments b))) s) ∧
    (∀ s, QueueBackend.segments b !! n = Some s →
       kept (QueueBackend.config b) smallest clock (total_len (drop n (QueueBackend.segments b))) s).
Proof.
  intros Hb Hclock Hlens Htotal. destruct Hb as [Hc Hs Hst Htl Hhd].
  destruct (gc_count_spec (QueueBackend.config b) smallest clock _ Hclock Hlens Htotal)
    as (n & Hn & Hle & Hrm & Hkeep).
  pose proof (total_len_nonneg _ Hlens).
  unfold QueueBackend.gc, QueueBackend.sum_len. fold (total_len (QueueBackend.segments b)).
  rewrite u64_in, bind_Done, Hn, bind_Done by (unfold in_u64; lia).
  destruct (chain_drop n _ _ _ _ Hc) as (mid & Hc' & Hmid & _ & H0' & Hk).
  destruct (Nat.eqb_spec n 0) as [->|Hne].
  { exists O, start, b, []. specialize (H0' eq_refl) as ->.
    split_and!; try done; try lia. }
  assert (is_Some (QueueBackend.segments b !! pred n)) as [s Hsn] by (apply lookup_lt_is_Some_2; lia).
  rewrite delete_segments_ok, bind_Done by (apply Forall_take; by eapply chain_deleted).
  pose proof (chain_first _ _ _ _ Hc') as Hfirst.
  eexists n, mid, _, _. split; [reflexivity|]. qb.
  split_and!; try done; try lia.
  - constructor; qb; [done|by apply sealed_drop|lia| |done]. rewrite Hfirst. lia.
  - rewrite decide_False by done. done.
  - intros _. exists s. split; [done|]. apply Hk; [lia|done].
Qed.

(** ** Purging *)

Lemma purge_refines b start ms :
  backend_rep b start ms →
  backend_rep (QueueBackend.purge b) start ms ∧
  QueueBackend.tail (QueueBackend.purge b) = QueueBackend.head b ∧
  QueueBackend.head (QueueBackend.purge b) = QueueBackend.head b.
Proof.
  intros [Hc Hs Hst Htl Hhd]. split; [|done].
  unfold QueueBackend.purge, QueueBackend.close_last.
  destruct (last (QueueBackend.segments b)) as [s|] eqn:Hl.
  2:{ constructor; qb; (done || lia). }
  apply last_Some in Hl as [l Hseg]. rewrite Hseg in *. rewrite set_last_snoc.
  apply chain_snoc in Hc as (m1 & m2 & n & -> & Hc1 & Hr & Hd & Heq).
  constructor; qb; [|by apply sealed_snoc; apply sealed_snoc in Hs|lia..].
  apply chain_snoc. exists m1, m2, n. split_and!; try done. by apply rep_set_closed.
Qed.

End facts.
