(* ===== verification/Seek.v ===== *)
(** * Seeking by timestamp

    [QueueBackend::find_id_for_timestamp] narrows a window with the
    segments' first and last timestamps and then bisects it. On a log with
    increasing timestamps the result separates the messages before the
    requested timestamp from the others. *)
From S2P Require Import Prelude.
From S2P Require Import Bytes.
From S2P Require Import Segments.
From S2P Require Import SegmentSpec.
From S2P Require Import SegmentFacts.
From S2P Require Import Backend.
From S2P Require Import LogSpec.
From S2P Require Import BackendFacts.

(** Timestamps never decrease along the log, and none is [INVALID_TIMESTAMP]. *)
Definition increasing (ms : list msg) : Prop :=
  ∀ i j x y, (i ≤ j)%nat → ms !! i = Some x → ms !! j = Some y → x.1 ≤ y.1.
Definition stamped (ms : list msg) : Prop := Forall (λ m, 0 < m.1) ms.
Definition no_empty_segment (b : QueueBackend.t) : Prop :=
  Forall (λ s, Segment.tail s < Segment.head s) (QueueBackend.segments b).

Lemma first_ts_cons m ms : 0 < m.1 → first_ts (m :: ms) = m.1.
Proof.
  intros Hm. unfold first_ts. cbn.
  assert (∀ l f, 0 < f → foldl (λ f (m : msg), Segment.stamp f m.1) f l = f) as Hs.
  { induction l as [|m' l IH]; intros f Hf; [done|]. cbn. unfold Segment.stamp at 2.
    rewrite (proj2 (Z.eqb_neq f _)) by (unfold Segment.INVALID_TIMESTAMP; lia). by apply IH. }
  by apply Hs.
Qed.

Section seek.
Context `{Profile} `{Hasher}.
Variables (b : QueueBackend.t) (start : Z) (ms : list msg) (T : Z).
Hypothesis Hb : backend_rep b start ms.
Hypothesis Hinc : increasing ms.
Hypothesis Hstamped : stamped ms.

(** Everything numbered below [lo] is too old; from [hi] on it is wanted. *)
Definition old_below (lo : Z) : Prop :=
  ∀ i x, ms !! i = Some x → start + Z.of_nat i < lo → x.1 < T.
Definition wanted_from (hi : Z) : Prop :=
  ∀ i x, ms !! i = Some x → hi ≤ start + Z.of_nat i → T ≤ x.1.

Lemma search_refines fuel lo hi :
  start ≤ lo ≤ hi → hi ≤ QueueBackend.head b → hi - lo ≤ Z.of_nat fuel →
  old_below lo → wanted_from hi →
  ∃ r, QueueBackend.search fuel b T lo hi = Done r ∧ lo ≤ r ≤ hi ∧ old_below r ∧ wanted_from r.
Proof.
  revert lo hi. induction fuel as [|fuel IH]; intros lo hi Hlo Hhi Hf Hold Hnew.
  { exists lo. assert (hi = lo) as -> by lia. by split_and!. }
  pose proof (br_head _ _ _ Hb) as Hhd. pose proof (br_start _ _ _ Hb) as Hst.
  cbn [QueueBackend.search]. destruct (Z.ltb_spec lo hi).
  2:{ exists lo. assert (hi = lo) as -> by lia. by split_and!. }
  pose proof (Z.div_mod (hi - lo) 2) as Hdm. pose proof (Z.mod_pos_bound (hi - lo) 2) as Hmb.
  set (id := lo + (hi - lo) / 2) in *.
  assert (lo ≤ id < hi) as Hid by (unfold id; lia).
  rewrite u64_in, bind_Done by (unfold in_u64; lia). fold id.
  rewrite u64_in, bind_Done by (unfold in_u64; lia).
  pose proof (backend_rep_next _ _ _ Hb) as Hn.
  destruct (lookup_lt_is_Some_2 ms (Z.to_nat (id - start))) as [x Hx]; [unfold zlen in *; lia|].
  pose proof (get_refines _ _ _ id Hb) as Hget. unfold entry in Hget.
  rewrite Z.max_l, Hx in Hget by lia. destruct Hget as (m & Hget & _ & Hts & _); [lia|].
  rewrite Hget, bind_Done, Hts, bind_Done. destruct (Z.leb_spec T x.1) as [Hle|Hgt].
  - destruct (IH lo id) as (r & Hr & ? & ? & ?); [lia|lia|lia|done| |].
    { intros i y Hy Hi. transitivity x.1; [done|]. eapply Hinc; [|done|done]. lia. }
    exists r. split_and!; (done || lia).
  - mint. destruct (IH (id + 1) hi) as (r & Hr & ? & ? & ?); [lia|lia|lia| |done|].
    { intros i y Hy Hi. eapply Z.le_lt_trans; [|exact Hgt]. eapply Hinc; [|done|done]. lia. }
    exists r. split_and!; (done || lia).
Qed.

Lemma narrow_refines segs mid m1 m2 lo hi :
  chain mid segs m2 (QueueBackend.head b) → ms = m1 ++ m2 → mid = start + zlen m1 →
  Forall (λ s, Segment.tail s < Segment.head s) segs →
  start ≤ lo ≤ mid → old_below lo →
  hi = QueueBackend.head b ∨
    (hi = mid ∧ ∃ x, last m1 = Some x ∧ T < x.1) →
  ∃ lo', foldl (QueueBackend.narrow T) (lo, hi) segs = (lo', QueueBackend.head b) ∧
    start ≤ lo' ≤ QueueBackend.head b ∧ old_below lo'.
Proof.
  intros Hc. revert m1 lo hi. remember (QueueBackend.head b) as stop eqn:Hstop.
  induction Hc as [mid|mid s segs k n m2 stop Hr Ht _ Hc IH]; intros m1 lo hi Hms Hmid Hne Hlo Hold Hhi.
  { exists lo. cbn. destruct Hhi as [->|[-> _]]; split_and!; (done || lia). }
  apply Forall_cons in Hne as [Hne1 Hne]. pose proof (rep_head _ _ _ Hr) as Hh.
  destruct k as [|k0 k]; [rewrite zlen_nil in Hh; lia|].
  destruct (exists_last (l := k0 :: k)) as (k' & kl & Hk); [done|].
  rewrite app_assoc in Hms. pose proof Hstamped as Hpos. unfold stamped in Hpos.
  assert (0 < k0.1) as Hk0.
  { rewrite Hms, !Forall_app in Hpos. by destruct Hpos as [[_ [? _]%Forall_cons] _]. }
  assert (ms !! length m1 = Some k0) as Hfirst.
  { by rewrite Hms, <-app_assoc, lookup_app_r, Nat.sub_diag by done. }
  cbn [foldl]. unfold QueueBackend.narrow at 2. cbn [fst snd].
  rewrite (rep_first _ _ _ Hr), first_ts_cons by done.
  rewrite (rep_last _ _ _ Hr), Hk, last_ts_snoc.
  pose proof (chain_stop _ _ _ _ Hc) as Hstop'. pose proof (zlen_nonneg m2). pose proof (zlen_nonneg m1).
  eapply (IH Hstop (m1 ++ k0 :: k)); [done| |done| | |].
  - rewrite zlen_app. lia.
  - destruct (k0.1 <? T); lia.
  - destruct (Z.ltb_spec k0.1 T) as [Hlt|]; [|done].
    intros i x Hx Hi. eapply Z.le_lt_trans; [|exact Hlt].
    eapply Hinc; [|exact Hx|exact Hfirst]. unfold zlen in *. lia.
  - assert (last (m1 ++ k0 :: k) = Some kl) as Hlast by (by rewrite Hk, app_assoc, last_snoc).
    destruct (Z.ltb_spec T kl.1) as [Hlt|Hge]; [right; by eauto|].
    destruct Hhi as [->|[-> (x & Hx & HTx)]]; [by left|]. exfalso.
    apply last_Some in Hx as [l ->].
    assert (x.1 ≤ kl.1); [|lia].
    eapply (Hinc (length l) (length (l ++ [x]) + length k')%nat); [rewrite length_app; cbn; lia| |].
    + rewrite Hms, <-!app_assoc, lookup_app_r, Nat.sub_diag by done. done.
    + rewrite Hms, Hk, <-!app_assoc, (app_assoc l), lookup_app_r by lia.
      rewrite lookup_app_r by lia.
      by replace (_ + length k' - _ - length k')%nat with O by lia.
Qed.

(** The result is the boundary between too-old and wanted messages. *)
Lemma find_id_refines :
  QueueBackend.tail b = start → no_empty_segment b →
  ∃ r, QueueBackend.find_id_for_timestamp b T = Done r ∧
    start ≤ r ≤ QueueBackend.head b ∧ old_below r ∧ wanted_from r.
Proof.
  intros Htail Hne. unfold QueueBackend.find_id_for_timestamp. rewrite Htail.
  pose proof (br_tail _ _ _ Hb) as Htl. pose proof (backend_rep_next _ _ _ Hb) as Hn.
  destruct (narrow_refines (QueueBackend.segments b) start [] ms start (QueueBackend.head b))
    as (lo & Hfold & Hlo & Hold); [apply (br_chain _ _ _ Hb)|done|rewrite zlen_nil; lia|done|lia| |by left|].
  { intros i x _ Hi. lia. }
  rewrite Hfold. destruct (search_refines (Z.to_nat (QueueBackend.head b - lo)) lo (QueueBackend.head b))
    as (r & Hr & Hrange & Ho & Hw); [lia|lia|lia|done| |].
  { intros i x Hx Hi. apply lookup_lt_Some in Hx. unfold zlen in *. lia. }
  exists r. split_and!; (done || lia).
Qed.

End seek.
