(* ===== verification/BackendRecovery.v ===== *)
(** * Checkpoint and recovery of a backend

    [sync] and [checkpoint] never change a log; a start on the files and the
    checkpoint of a backend finds the same log, head and tail, provided the
    queue was not purged, has a segment, and no message filled its segment to
    the last byte. *)
From S2P Require Import Prelude.
From S2P Require Import Bytes.
From S2P Require Import Offsets.
From S2P Require Import Text.
From S2P Require Import Settings.
From S2P Require Import Segments.
From S2P Require Import SegmentSpec.
From S2P Require Import SegmentFacts.
From S2P Require Import Recovery.
From S2P Require Import Backend.
From S2P Require Import LogSpec.
From S2P Require Import BackendFacts.

(** ** File names *)

Lemma parse_digits_zeros max k l :
  0 ≤ max → parse_digits max 0 (replicate k 48 ++ l) = parse_digits max 0 l.
Proof.
  intros Hm. induction k as [|k IH]; [done|]. cbn [replicate app parse_digits is_digit].
  cbn [Z.leb Z.compare andb Pos.compare Pos.compare_cont]. 
  replace (0 * 10 + (48 - 48)) with 0 by lia.
  by rewrite (proj2 (Z.leb_le 0 max)).
Qed.

Lemma print_padded_inj w n m :
  in_u64 n → in_u64 m → print_padded w n = print_padded w m → n = m.
Proof.
  intros Hn Hm Heq. unfold in_u64 in *.
  assert (∀ k, 0 ≤ k < 2 ^ 64 → parse_digits (2 ^ 64) 0 (print_padded w k) = Some k) as Hp.
  { intros k Hk. unfold print_padded. rewrite parse_digits_zeros by lia.
    apply parse_digits_digits; lia. }
  apply (f_equal (parse_digits (2 ^ 64) 0)) in Heq. rewrite !Hp in Heq by done. congruence.
Qed.

Lemma print_padded_digit w n :
  0 ≤ n → ∃ c l, print_padded w n = c :: l ∧ is_digit c = true.
Proof.
  intros Hn. unfold print_padded. destruct (w - length (print_u64 n))%nat as [|k].
  - destruct (print_u64_digit n Hn) as (c & l & -> & Hc). by exists c, l.
  - by eexists 48, _.
Qed.

Lemma gen_file_path_inj config n m ext :
  in_u64 n → in_u64 m →
  Segment.gen_file_path config n ext = Segment.gen_file_path config m ext → n = m.
Proof.
  intros Hn Hm. unfold Segment.gen_file_path.
  destruct (print_padded_digit 15 n) as (c & l & Hc & Hd); [apply Hn|].
  destruct (print_padded_digit 15 m) as (c' & l' & Hc' & Hd'); [apply Hm|].
  assert (∀ dir (c : Z) l, is_digit c = true → ∃ pre, Config.path_join dir (c :: l) = pre ++ c :: l ∧
    ∀ c' l', is_digit c' = true → Config.path_join dir (c' :: l') = pre ++ c' :: l') as Hjoin.
  { intros dir d k Hdk. unfold is_digit in *. unfold Config.path_join.
    destruct (last dir) as [z|]; [destruct (decide (z = 47)) as [->|Hz]|].
    - exists dir. split; [|intros d' k' Hd0]; repeat case_match; (done || lia).
    - exists (dir ++ [47]). rewrite <-app_assoc. cbn.
      split; [|intros d' k' Hd0; rewrite <-app_assoc; cbn]; repeat case_match; (done || lia).
    - exists []. split; [|intros d' k' Hd0]; repeat case_match; (done || lia). }
  rewrite Hc, Hc'. cbn [app].
  destruct (Hjoin (Config.data_directory config) c (l ++ B "." ++ ext) Hd) as (pre & -> & Hpre).
  rewrite Hpre by done. intros Heq%(app_inv_head pre).
  change (c :: l ++ B "." ++ ext) with ((c :: l) ++ B "." ++ ext) in Heq.
  change (c' :: l' ++ B "." ++ ext) with ((c' :: l') ++ B "." ++ ext) in Heq.
  apply app_inv_tail in Heq. rewrite <-Hc, <-Hc' in Heq. by apply print_padded_inj in Heq.
Qed.

Section facts.
Context `{Profile} `{Hasher}.

(** ** Syncing *)

Definition page : Z := 4096.

Lemma land_page x : 0 ≤ x < 2 ^ 32 → Z.land x (Z.lxor (4 * 1024 - 1) (2 ^ 32 - 1)) = x - x mod page.
Proof.
  intros Hx. change (Z.lxor (4 * 1024 - 1) (2 ^ 32 - 1)) with (Z.shiftl (Z.ones 20) 12).
  replace (x - x mod page) with (Z.shiftl (Z.shiftr x 12) 12).
  2:{ rewrite Z.shiftl_mul_pow2, Z.shiftr_div_pow2 by lia. unfold page.
      change (2 ^ 12) with 4096. pose proof (Z.div_mod x 4096). lia. }
  apply Z.bits_inj'. intros k Hk. rewrite Z.land_spec, !Z.shiftl_spec by done.
  destruct (Z.ltb_spec k 12).
  { rewrite !(Z.testbit_neg_r _ (k - 12)) by lia. by rewrite andb_false_r. }
  rewrite Z.shiftr_spec by lia. replace (k - 12 + 12) with k by lia.
  rewrite Z.testbit_ones_nonneg by lia.
  destruct (Z.ltb_spec (k - 12) 20); [by rewrite andb_true_r|].
  rewrite andb_false_r. symmetry. apply Z.testbit_false; [lia|].
  rewrite Z.div_small; [done|]. split; [lia|].
  eapply Z.lt_le_trans; [apply Hx|]. apply Z.pow_le_mono_r; lia.
Qed.

(** The offset a sync aims at: the next page boundary for a full sync or a
    closed segment, else the last page boundary before the final megabyte. *)
Definition sync_target (s : Segment.t) (full : bool) : Z :=
  if full || Segment.closed s then
    let x := Segment.file_offset s + 4095 in x - x mod page
  else let x := Z.max 0 (Segment.file_offset s - 1024 * 1024) in x - x mod page.

Lemma sync_ok os s full :
  no_faults os → 0 ≤ Segment.file_offset s < 2 ^ 31 →
  Segment.sync os s full =
    Done (if (0 <? sync_target s full) && (Segment.sync_offset s <? sync_target s full)
          then (Segment.set_sync_offset s (sync_target s full), Some (sync_target s full))
          else (s, None)).
Proof.
  intros Hos Ho. unfold Segment.sync, sync_target.
  destruct (full || Segment.closed s).
  - mint. cbn zeta. rewrite (land_page (_ - 1)), ?bind_Done by lia.
    replace (Segment.file_offset s + 4 * 1024 - 1) with (Segment.file_offset s + 4095) by lia.
    destruct (_ && _); [|done]. by rewrite (assert_true _ (bool_decide_eq_true_2 _ (Hos Msync))).
  - cbn zeta. rewrite land_page, ?bind_Done by lia.
    destruct (_ && _); [|done]. by rewrite (assert_true _ (bool_decide_eq_true_2 _ (Hos Msync))).
Qed.

(** A sync changes nothing but [sync_offset]. *)
Lemma checkpoint_ok os s full :
  no_faults os → 0 ≤ Segment.file_offset s < 2 ^ 31 →
  ∃ o synced, Segment.checkpoint os s full =
    Done (Segment.set_sync_offset s o,
          Segment.mkCheckpoint (Segment.tail s) (Segment.head s) o (Segment.closed s), synced).
Proof.
  intros Hos Ho. unfold Segment.checkpoint. rewrite sync_ok, bind_Done by done.
  destruct (_ && _); [by eexists _, _|]. exists (Segment.sync_offset s), None. by destruct s.
Qed.

(** ** Checkpoints of a chain *)

(** [segs'] differ from [segs] in their sync offsets only. *)
Definition synced_from (segs segs' : list Segment.t) : Prop :=
  Forall2 (λ s s', ∃ o, s' = Segment.set_sync_offset s o) segs segs'.

Lemma checkpoint_segments_ok os from full start segs ms stop :
  no_faults os → chain start segs ms stop → from ≤ start →
  ∃ segs' cps, QueueBackend.checkpoint_segments os from full segs = Done (segs', cps) ∧
    synced_from segs segs' ∧
    Forall2 (λ s cp, Segment.cp_tail cp = Segment.tail s ∧ Segment.cp_closed cp = Segment.closed s)
      segs' cps.
Proof.
  intros Hos Hc. induction Hc as [start|start s segs ms n msgs stop Hr Ht Hd Hc IH]; intros Hfrom.
  { exists [], []. by repeat constructor. }
  pose proof (rep_head _ _ _ Hr) as Hh. pose proof (zlen_nonneg ms).
  pose proof (rep_offset_bounds _ _ _ Hr). pose proof (rep_len_range _ _ _ Hr).
  destruct IH as (segs' & cps & Hcp & Hsync & Hall); [lia|].
  destruct (checkpoint_ok os s full Hos) as (o & synced & Hcs); [lia|].
  cbn [QueueBackend.checkpoint_segments]. rewrite (proj2 (Z.leb_le _ _)) by lia.
  rewrite Hcs, bind_Done, Hcp, bind_Done. eexists _, _. split; [reflexivity|].
  split; constructor; eauto.
Qed.

Lemma synced_chain start segs segs' ms stop :
  synced_from segs segs' → chain start segs ms stop → chain start segs' ms stop.
Proof.
  intros Hs Hc. revert segs' Hs. induction Hc as [|start s segs ms n msgs stop Hr Ht Hd Hc IH];
    intros segs' Hs; inversion Hs as [|? ? ? ? [o ->] Hs']; subst; [constructor|].
  econstructor; [by apply rep_set_sync_offset|done|done|by apply IH].
Qed.

Lemma synced_sealed segs segs' : synced_from segs segs' → sealed segs → sealed segs'.
Proof.
  unfold sealed. induction 1 as [|s s' segs segs' [o ->] Hs IH]; [done|].
  destruct Hs as [|s1 s1' segs segs' [o1 ->] Hs]; [done|]. cbn [removelast].
  intros [Hf Hr]%Forall_cons. constructor; [done|]. by apply IH.
Qed.

(** ** Opening the segments again *)

(** The data file of every segment is in the directory, under its name. *)
Definition files_match (config : Config.QueueConfig) (files : gmap (list Z) (list Z)) (segs : list Segment.t) : Prop :=
  Forall (λ s : Segment.t, files !! Segment.gen_file_path config (Segment.tail s) Segment.DATA_EXTENSION =
               Some (Segment.file_mmap s)) segs.

(** A spare byte at the end: recovery refuses a message that ends the file. *)
Definition spare (s : Segment.t) : Prop := Segment.file_offset s < Segment.file_len s.

Lemma close_last_full segs : Forall full_segment segs → QueueBackend.close_last segs = segs.
Proof.
  intros Hf. unfold QueueBackend.close_last. destruct (last segs) as [s|] eqn:Hl; [|done].
  apply last_Some in Hl as [l ->]. apply Forall_app in Hf as [_ [[Hc _] _]%Forall_cons].
  rewrite set_last_snoc. do 2 f_equal. destruct s. cbn in *. by subst.
Qed.

Lemma open_segments_chain os files (config : Config.QueueConfig) segs cps acc start ms stop :
  (∀ id, no_faults (os id)) → chain start segs ms stop → 1 ≤ start → sealed segs →
  Forall2 (λ s cp, Segment.cp_tail cp = Segment.tail s ∧ Segment.cp_closed cp = Segment.closed s)
    segs cps →
  files_match config files segs → Forall spare segs → Forall full_segment acc →
  ∃ segs', QueueBackend.open_segments os files config cps acc = Done (acc ++ segs') ∧
    chain start segs' ms stop ∧ sealed segs' ∧ length segs' = length segs.
Proof.
  intros Hos Hc. revert cps acc. induction Hc as [start|start s segs ms n msgs stop Hr Ht Hd Hc IH];
    intros cps acc Hst Hsealed Hcps Hfiles Hspare Hacc.
  { inversion Hcps; subst. exists []. rewrite app_nil_r. by repeat constructor. }
  inversion Hcps as [|? cp ? cps' [Hct Hcc] Hcps']; subst.
  apply Forall_cons in Hfiles as [Hfile Hfiles]. apply Forall_cons in Hspare as [Hsp Hspare].
  destruct (rep_sizes _ _ _ Hr) as (Hsz & _). rewrite zlen_replicate in Hsz.
  unfold spare in Hsp. rewrite (rep_offset _ _ _ Hr) in Hsp.
  destruct (open_recovers (os (Segment.cp_tail cp)) config s ms n cp Hr) as
    (s' & Hopen & Hr' & Hm & Hl & Ht' & Hc' & Hd' & _ & _); [lia|lia|by rewrite Hct|done|].
  cbn [QueueBackend.open_segments]. rewrite Hct, Hfile, <-Hct, Hopen, bind_Done.
  assert ((if Segment.closed s' then acc else QueueBackend.close_last acc) = acc) as ->.
  { case_match; [done|]. by apply close_last_full. }
  pose proof (rep_head _ _ _ Hr) as Hh. pose proof (rep_head _ _ _ Hr') as Hh'.
  pose proof (zlen_nonneg ms). assert (Segment.head s' = Segment.head s) as Hhh by congruence.
  destruct segs as [|s1 segs].
  { inversion Hcps'; subst. inversion Hc; subst. cbn. exists [s']. split; [done|].
    rewrite app_nil_r. split; [|by repeat constructor]. apply chain_singleton. exists n. split_and!; (done || congruence). }
  apply Forall_cons in Hsealed as [[Hcl Hne] Hsealed].
  destruct (IH cps' (acc ++ [s'])) as (segs' & Hsegs & Hc'' & Hsl & Hlen); [lia|done..| |].
  { apply Forall_app. split; [done|]. constructor; [|done]. split; [congruence|]. lia. }
  exists (s' :: segs'). rewrite Hsegs, <-app_assoc. split; [done|].
  split; [apply (chain_cons _ _ _ _ n); [done|congruence|done|by rewrite Hhh]|].
  split; [|cbn in *; lia]. destruct segs' as [|s2 segs']; [done|].
  constructor; [|exact Hsl]. split; [congruence|lia].
Qed.

(** The names the segments were created with. *)
Definition named (config : Config.QueueConfig) (segs : list Segment.t) : Prop :=
  Forall (λ s : Segment.t, Segment.file_path s =
    Segment.gen_file_path config (Segment.tail s) Segment.DATA_EXTENSION) segs.

Lemma chain_tails start segs ms stop :
  chain start segs ms stop → sealed segs → 0 ≤ start →
  ∀ i j s s', segs !! i = Some s → segs !! j = Some s' → Segment.tail s = Segment.tail s' → i = j.
Proof.
  intros Hc. induction Hc as [start|start s segs ms n msgs stop Hr Ht Hd Hc IH]; [done|].
  intros Hsealed Hst. pose proof (rep_head _ _ _ Hr) as Hh. pose proof (zlen_nonneg ms).
  assert (∀ j s', segs !! j = Some s' → Segment.tail s < Segment.tail s') as Hlater.
  { destruct segs as [|s1 segs]; [done|]. apply Forall_cons in Hsealed as [[_ Hlt] _].
    intros j s' Hj. clear IH. enough (Segment.head s ≤ Segment.tail s') by lia.
    assert (0 ≤ Segment.head s) as H0' by lia. clear -Hc Hj. revert j s' Hj.
    induction Hc as [|start2 s2 segs2 ms2 n2 msgs2 stop2 Hr2 Ht2 _ Hc IH]; [done|].
    intros [|j] s' Hj; [injection Hj as <-; lia|]. etrans; [|by eapply IH].
    rewrite (rep_head _ _ _ Hr2). pose proof (zlen_nonneg ms2). lia. }
  assert (sealed segs) as Hs' by (destruct segs; [done|by apply Forall_cons in Hsealed as [_ ?]]).
  intros [|i] [|j] s1 s2 Hi Hj Heq; cbn in Hi, Hj; simplify_eq; [done| | |].
  - apply Hlater in Hj. lia.
  - apply Hlater in Hi. lia.
  - f_equal. eapply IH; [done|lia|done..].
Qed.

Lemma segment_files_match b start ms :
  backend_rep b start ms → named (QueueBackend.config b) (QueueBackend.segments b) →
  files_match (QueueBackend.config b) (QueueBackend.segment_files b) (QueueBackend.segments b).
Proof.
  intros Hb Hn. apply Forall_lookup. intros i s Hi.
  unfold named in Hn. rewrite Forall_lookup in Hn. rewrite <-(Hn _ _ Hi).
  apply elem_of_list_to_map_1'.
  - intros m Hin. apply list_elem_of_fmap in Hin as (s' & [= Hp ->] & Hin).
    apply list_elem_of_lookup in Hin as [j Hj].
    assert (i = j) as ->; [|by simplify_eq].
    eapply (chain_tails _ _ _ _ (br_chain _ _ _ Hb)); [apply (br_sealed _ _ _ Hb)| |done|done|].
    { pose proof (br_start _ _ _ Hb). lia. }
    rewrite (Hn _ _ Hi), (Hn _ _ Hj) in Hp.
    assert (∀ k s0, QueueBackend.segments b !! k = Some s0 → in_u64 (Segment.tail s0)) as Hu.
    { intros k s0 Hk. pose proof (br_chain _ _ _ Hb) as Hc. clear -Hc Hk.
      revert k s0 Hk. induction Hc as [|? s1 ? ? ? ? ? Hr _ _ _ IH]; [done|].
      intros [|k] s0 Hk; [injection Hk as <-|by eapply IH].
      pose proof (rep_tail _ _ _ Hr). unfold in_u64. lia. }
    eapply gen_file_path_inj; [by eapply Hu..|done].
  - apply list_elem_of_fmap. exists s. split; [done|]. by eapply list_elem_of_lookup_2.
Qed.

Context `{JsonOk QueueBackend.checkpoint_t}.

(** A checkpoint followed by a start gives the same log. *)
Lemma checkpoint_recover os os' b start ms full :
  backend_rep b start ms → QueueBackend.tail b = start → QueueBackend.segments b ≠ [] →
  named (QueueBackend.config b) (QueueBackend.segments b) →
  Forall spare (QueueBackend.segments b) → no_faults os → (∀ id, no_faults (os' id)) →
  ∃ b1 cpf b2,
    QueueBackend.checkpoint os true b full = Done (b1, cpf) ∧
    backend_rep b1 start ms ∧
    QueueBackend.new os' (QueueBackend.segment_files b1) (Some cpf) (QueueBackend.config b) true
      = Done b2 ∧
    backend_rep b2 start ms ∧ QueueBackend.tail b2 = start ∧
    QueueBackend.head b2 = QueueBackend.head b ∧
    QueueBackend.segments_count b2 = QueueBackend.segments_count b.
Proof.
  intros Hb Htail Hne Hnamed Hspare Hos Hos'. destruct Hb as [Hc Hs Hst Htl Hhd].
  destruct (checkpoint_segments_ok os start full _ _ _ _ Hos Hc) as (segs & cps & Hcp & Hsync & Hcps); [lia|].
  pose proof (synced_chain _ _ _ _ _ Hsync Hc) as Hc1. pose proof (synced_sealed _ _ Hsync Hs) as Hs1.
  set (b1 := QueueBackend.set_segments b segs).
  assert (backend_rep b1 start ms) as Hb1 by (constructor; unfold b1; qb; (done || lia)).
  assert (named (QueueBackend.config b) segs ∧ Forall spare segs) as [Hn1 Hsp1].
  { clear -Hsync Hnamed Hspare. induction Hsync as [|s s' l l' [o ->] _ IH]; [by repeat constructor|].
    apply Forall_cons in Hnamed as [? ?]. apply Forall_cons in Hspare as [? ?].
    destruct IH; [done..|]. by repeat constructor. }
  destruct (open_segments_chain os' (QueueBackend.segment_files b1) (QueueBackend.config b) segs cps []
    start ms (QueueBackend.head b)) as (segs2 & Hopen & Hc2 & Hs2 & Hlen2); try done.
  { by apply (segment_files_match b1 start ms). }
  pose proof (Forall2_length _ _ _ Hsync) as Hlen1.
  exists b1, (json_encode cps). eexists. split.
  { unfold QueueBackend.checkpoint. by rewrite Htail, Hcp, !bind_Done. }
  split; [done|]. split.
  { unfold QueueBackend.new, QueueBackend.recover. qb. cbn [mbind option_bind].
    rewrite json_roundtrip, Hopen, bind_Done. reflexivity. }
  qb. cbn [app]. pose proof (chain_first _ _ _ _ Hc2) as Hfirst.
  destruct segs2 as [|s2 segs3].
  { destruct (QueueBackend.segments b); [done|]. cbn in *. lia. }
  destruct (exists_last (l := s2 :: segs3)) as (l & sl & Hl); [done|].
  assert (from_option Segment.head 1 (last (s2 :: segs3)) = QueueBackend.head b) as Hhead.
  { rewrite Hl in Hc2 |- *. rewrite last_snoc. cbn.
    apply chain_snoc in Hc2 as (? & ? & ? & _ & _ & _ & _ & ->). done. }
  assert (match last (s2 :: segs3) with Some s => Segment.head s | None => 1 end = QueueBackend.head b) as ->.
  { by destruct (last (s2 :: segs3)). }
  split_and!; try done; [constructor; qb; (done || lia)|].
  unfold QueueBackend.segments_count, zlen. qb. cbn in *. lia.
Qed.

End facts.
