(* ===== verification/CrashRecovery.v ===== *)
(** * A crash between two checkpoints of a backend

    The files on disk are then those of the backend as it was at the crash,
    but [backend.checkpoint] is that of an earlier backend, from before some
    pushes and collections of segments. A start opens the segments the
    checkpoint lists, if their files still exist, and no others. *)
From S2P Require Import Prelude.
From S2P Require Import Bytes.
From S2P Require Import Offsets.
From S2P Require Import Text.
From S2P Require Import Settings.
From S2P Require Import Segments.
From S2P Require Import SegmentSpec.
From S2P Require Import SegmentFacts.
From S2P Require Import Recovery.
From S2P Require Import Backend.
From S2P Require Import LogSpec.
From S2P Require Import BackendFacts.
From S2P Require Import Retention.
From S2P Require Import BackendRecovery.

Section crash.
Context `{Profile} `{Hasher} `{JsonOk QueueBackend.checkpoint_t}.
Implicit Types (b : QueueBackend.t) (segs : list Segment.t) (x : msg).

(** ** What happens after the checkpoint *)

Inductive act : Type :=
| Append (os : Os) (x : msg)
| Collect (smallest clock : Z).

Definition act_ok (a : act) b : Prop :=
  match a with
  | Append os x =>
      wf_msg x ∧ msg_size x + 4 < 2 ^ 32 ∧ no_faults os ∧ os_zeroes os ∧
      4 < Config.segment_size (QueueBackend.config b) < 2 ^ 31 ∧ QueueBackend.head b + 1 < 2 ^ 63
  | Collect smallest clock =>
      clock_ok clock (QueueBackend.segments b) ∧ lens_ok (QueueBackend.segments b) ∧
      total_len (QueueBackend.segments b) < 2 ^ 64
  end.

Definition run_act (a : act) b : outcome QueueBackend.t :=
  match a with
  | Append os x => fst <$> QueueBackend.push os b x.2 x.1
  | Collect smallest clock => fst <$> QueueBackend.gc b smallest clock
  end.

Inductive later b : QueueBackend.t → Prop :=
| later_here : later b b
| later_act a b1 b2 : later b b1 → act_ok a b1 → run_act a b1 = Done b2 → later b b2.

(** ** Labels: the first id of a segment and the name of its file *)

Definition labels segs : list (Z * list Z) := (λ s, (Segment.tail s, Segment.file_path s)) <$> segs.
Definition data_file (config : Config.QueueConfig) (id : Z) : list Z := Segment.gen_file_path config id Segment.DATA_EXTENSION.

(** No segment is closed before it has a message. *)
Definition closed_full segs : Prop :=
  Forall (λ s, Segment.closed s = true → Segment.tail s < Segment.head s) segs.

Lemma labels_app l1 l2 : labels (l1 ++ l2) = labels l1 ++ labels l2.
Proof. apply fmap_app. Qed.

Lemma labels_synced segs segs' : synced_from segs segs' → labels segs' = labels segs.
Proof. induction 1 as [|s s' l l' [o ->] _ IH]; [done|]. cbn. by f_equal. Qed.

Lemma closed_full_synced segs segs' : synced_from segs segs' → closed_full segs → closed_full segs'.
Proof.
  induction 1 as [|s s' l l' [o ->] _ IH]; [done|]. intros [Hs Hl]%Forall_cons. constructor; [done|by apply IH].
Qed.

Lemma push_new_labels os b x b' r :
  act_ok (Append os x) b → 0 ≤ QueueBackend.head b → push_new os b x = Done (b', r) →
  labels (QueueBackend.segments b') =
    labels (QueueBackend.segments b) ++ [(QueueBackend.head b, data_file (QueueBackend.config b) (QueueBackend.head b))] ∧
  (closed_full (QueueBackend.segments b) → closed_full (QueueBackend.segments b')).
Proof.
  intros (Hx & Hbig & Hos & Hz & Hsize & Hhead) Hpos. unfold push_new.
  destruct (create_ok os (QueueBackend.config b) (QueueBackend.head b))
    as (s & Hcr & Hr & Ht & Hcl & Hd & Hlen & _ & Hpath); [done..|lia|].
  rewrite Hcr, bind_Done. cbn zeta.
  destruct (push_fresh _ _ _ Hr Hx Hbig) as
    [(s' & Hp & Hr' & Ht' & Hd' & Hc' & Hpath')|(Hp & Htoo)]; rewrite Hp, bind_Done; qb; rewrite set_last_snoc.
  - intros (u & _ & (h & _ & [= <- <-])%bind_Done_iff)%bind_Done_iff. qb. rewrite labels_app. split.
    + unfold data_file. cbn. by rewrite Ht', Ht, Hpath', Hpath.
    + intros Hf. apply Forall_app. split; [done|]. constructor; [congruence|done].
  - intros [= <- <-]. qb. rewrite labels_app. split; [unfold data_file; cbn; by rewrite Ht, Hpath|].
    intros Hf. apply Forall_app. split; [done|]. constructor; [congruence|done].
Qed.

Lemma push_labels os b start ms x b' r :
  backend_rep b start ms → act_ok (Append os x) b → QueueBackend.push os b x.2 x.1 = Done (b', r) →
  ∃ l, labels (QueueBackend.segments b') = labels (QueueBackend.segments b) ++ l ∧
    Forall (λ p, QueueBackend.head b ≤ p.1 ∧ p.2 = data_file (QueueBackend.config b) p.1) l ∧
    (closed_full (QueueBackend.segments b) → closed_full (QueueBackend.segments b')).
Proof.
  intros Hb Ha. pose proof Ha as (Hx & Hbig & Hos & Hz & Hsize & Hhead). rewrite push_unfold.
  assert (0 ≤ QueueBackend.head b) as Hpos by (destruct Hb; lia).
  destruct (last (QueueBackend.segments b)) as [s|] eqn:Hl.
  2:{ intros [Hlab Hcf]%push_new_labels; [|done..]. eexists. split; [exact Hlab|]. split; [by repeat constructor|done]. }
  apply last_Some in Hl as [l Hseg]. destruct Hb as [Hc Hs Hst Htl Hhd]. rewrite Hseg in Hc |- *.
  apply chain_snoc in Hc as (m1 & m2 & n & _ & _ & Hr & _ & Hh).
  pose proof (rep_offset_bounds _ _ _ Hr). pose proof (rep_len_range _ _ _ Hr).
  destruct (decide (fits s x)) as [Hfit|Hfit].
  - destruct (push_fits _ _ _ _ Hr Hx Hfit) as (s' & Hp & Hr' & Ht' & Hc' & Hd' & _ & Hpath & _).
    rewrite Hp, bind_Done. qb. rewrite set_last_snoc.
    intros (u & _ & (h & _ & [= <- <-])%bind_Done_iff)%bind_Done_iff. qb. exists []. rewrite app_nil_r, !labels_app.
    split; [cbn; by rewrite Ht', Hpath|]. split; [constructor|]. intros [Hf _]%Forall_app.
    apply Forall_app. split; [done|]. constructor; [|done]. intros _. rewrite Ht', (rep_head _ _ _ Hr'), Ht'.
    rewrite zlen_app, zlen_cons, zlen_nil. pose proof (zlen_nonneg m2). lia.
  - rewrite push_no_room by (done || lia). case_decide as Htoo; rewrite bind_Done; qb; rewrite set_last_snoc.
    + intros [= <- <-]. qb. exists []. rewrite app_nil_r. split; [done|]. split; [constructor|done].
    + intros Hp. apply push_new_labels in Hp as [Hlab Hcf]; [|done..]. qb. eexists. split.
      { rewrite Hlab, !labels_app. reflexivity. }
      split; [by repeat constructor|]. intros [Hf _]%Forall_app. apply Hcf. apply Forall_app. split; [done|].
      constructor; [|done]. intros _. cbn. rewrite (rep_head _ _ _ Hr). destruct m2 as [|m m2].
      * exfalso. unfold fits in Hfit. pose proof (rep_offset _ _ _ Hr) as Ho. cbn [total_size] in Ho. lia.
      * rewrite zlen_cons. pose proof (zlen_nonneg m2). lia.
Qed.

(** ** The segments since the checkpoint *)

(** [k] segments of [b0] were collected, the labels [l] are of new ones. *)
Record grown (b0 b : QueueBackend.t) start (ms : list msg) (k : nat) (l : list (Z * list Z)) : Prop := {
  gr_rep : backend_rep b start ms;
  gr_config : QueueBackend.config b = QueueBackend.config b0;
  gr_full : closed_full (QueueBackend.segments b);
  gr_labels : labels (QueueBackend.segments b) = drop k (labels (QueueBackend.segments b0)) ++ l;
  gr_new : Forall (λ p, QueueBackend.head b0 ≤ p.1 ∧ p.2 = data_file (QueueBackend.config b0) p.1) l;
  gr_gone : Forall (λ p, p.1 < start) (take k (labels (QueueBackend.segments b0)));
  gr_head : QueueBackend.head b0 ≤ QueueBackend.head b;
}.

(** The first ids of collected segments. *)
Lemma chain_gone n start segs ms stop start' :
  chain start segs ms stop → closed_full segs → (n ≤ length segs)%nat →
  (∀ i s, segs !! i = Some s → (i < n)%nat → Segment.closed s = true) →
  ((0 < n)%nat → ∃ s, segs !! pred n = Some s ∧ start' = Segment.head s) →
  Forall (λ p, p.1 < start') (take n (labels segs)).
Proof.
  intros Hc Hf Hn Hcl Hst. destruct (chain_drop n _ _ _ _ Hc) as (mid & _ & _ & Hle & _ & Hmid).
  apply Forall_lookup. intros i p Hi. apply lookup_take_Some in Hi as [Hi Hin].
  unfold labels in Hi. rewrite list_lookup_fmap, fmap_Some in Hi. destruct Hi as (s & Hs & ->). cbn.
  destruct Hst as (s' & Hs' & ->); [lia|]. specialize (Hmid ltac:(lia) _ Hs').
  unfold closed_full in Hf. rewrite Forall_lookup in Hf.
  specialize (Hf _ _ Hs (Hcl _ _ Hs Hin)). specialize (Hle _ _ Hs Hin). lia.
Qed.

Lemma later_grown b0 b start0 ms0 :
  backend_rep b0 start0 ms0 → closed_full (QueueBackend.segments b0) → later b0 b →
  ∃ start ms k l, grown b0 b start ms k l.
Proof.
  intros Hb0 Hf0. induction 1 as [|a b1 b2 _ IH Ha Hrun].
  { exists start0, ms0, 0%nat, []. constructor; try done. by rewrite app_nil_r. }
  destruct IH as (start & ms & k & l & [Hrep Hcfg Hfull Hlab Hnew Hgone Hhead]).
  destruct a as [os x|smallest clock]; cbn [run_act] in Hrun.
  - destruct (push_refines os b1 start ms x Hrep) as (b' & r & Hp & Hc' & Ht' & Hspec); [by destruct Ha as (?&?&?&?&?&?)..|].
    rewrite Hp in Hrun. injection Hrun as <-.
    destruct (push_labels os b1 start ms x b' r Hrep Ha Hp) as (l' & Hlab' & Hnew' & Hfull').
    assert (∃ ms', backend_rep b' start ms' ∧ QueueBackend.head b1 ≤ QueueBackend.head b') as (ms' & Hrep' & Hhd).
    { destruct r; destruct Hspec as (_ & Hr); [exists (ms ++ [x])|destruct Hr as [Hr _]; exists ms]; (split; [done|]);
        rewrite (backend_rep_next _ _ _ Hr), (backend_rep_next _ _ _ Hrep), ?zlen_app, ?zlen_cons, ?zlen_nil; lia. }
    exists start, ms', k, (l ++ l'). constructor; try done; [congruence|by apply Hfull'|by rewrite Hlab', Hlab, app_assoc| |lia].
    apply Forall_app. split; [done|]. eapply Forall_impl; [exact Hnew'|]. rewrite Hcfg. intros p [? ?]. split; [lia|done].
  - destruct Ha as (Hclock & Hlens & Htotal).
    destruct (gc_refines b1 start ms smallest clock Hrep Hclock Hlens Htotal)
      as (n & start' & b' & paths & Hgc & Hrep' & Hle & Hc' & Hh' & Hseg & _ & _ & H0' & Hn & Hrm & _).
    rewrite Hgc in Hrun. injection Hrun as <-.
    assert (Forall (λ p, p.1 < start') (take n (labels (QueueBackend.segments b1)))) as Hg.
    { destruct (decide (n ≤ length (QueueBackend.segments b1))%nat).
      - eapply chain_gone; [apply (br_chain _ _ _ Hrep)|done|done| |done].
        intros i s Hs Hi. destruct (Segment.closed s) eqn:E; [done|]. exfalso. apply (Hrm _ _ Hs Hi). by left.
      - exfalso. destruct Hn as (s & Hs & _); [lia|]. apply lookup_lt_Some in Hs. lia. }
    rewrite Hlab in Hg. rewrite take_app in Hg. apply Forall_app in Hg as [Hg _].
    exists start', (drop (Z.to_nat (start' - start)) ms), (k + n)%nat, (drop (n - length (drop k (labels (QueueBackend.segments b0)))) l).
    constructor; try done; [congruence| | | | |lia].
    + rewrite Hseg. by apply Forall_drop.
    + rewrite Hseg. unfold labels at 1. rewrite fmap_drop. fold (labels (QueueBackend.segments b1)).
      by rewrite Hlab, drop_app, drop_drop.
    + by apply Forall_drop.
    + rewrite <-take_take_drop. apply Forall_app. split; [|exact Hg].
      eapply Forall_impl; [exact Hgone|]. intros p Hp. cbn in Hp |- *. lia.
Qed.

(** ** Opening what the checkpoint lists *)

Lemma chain_tail_range start segs ms stop :
  chain start segs ms stop → 0 ≤ start → Forall (λ s, start ≤ Segment.tail s ∧ in_u64 (Segment.tail s)) segs.
Proof.
  induction 1 as [|start s segs ms n msgs stop Hr Ht _ _ IH]; intros Hst; [constructor|].
  pose proof (rep_tail _ _ _ Hr). pose proof (rep_head _ _ _ Hr). pose proof (zlen_nonneg ms).
  constructor; [unfold in_u64; lia|]. eapply Forall_impl; [apply IH; lia|]. intros s' [? ?]. split; [lia|done].
Qed.

Lemma named_labels config segs :
  named config segs ↔ Forall (λ p, p.2 = data_file config p.1) (labels segs).
Proof. unfold named, labels. by rewrite Forall_fmap. Qed.

Lemma named_synced config segs segs' : synced_from segs segs' → named config segs → named config segs'.
Proof. intros Hs%labels_synced. by rewrite !named_labels, Hs. Qed.

(** What a checkpoint leaves of a backend. *)
Lemma checkpoint_keeps os b start ms full b' file :
  backend_rep b start ms → QueueBackend.tail b = start → no_faults os →
  QueueBackend.checkpoint os true b full = Done (b', file) →
  backend_rep b' start ms ∧ QueueBackend.config b' = QueueBackend.config b ∧
  QueueBackend.tail b' = start ∧ QueueBackend.head b' = QueueBackend.head b ∧
  synced_from (QueueBackend.segments b) (QueueBackend.segments b').
Proof.
  intros [Hc Hs Hst Htl Hhd] Htail Hos Hcp.
  destruct (checkpoint_segments_ok os start full _ _ _ _ Hos Hc) as (segs & cps & Hcp' & Hsync & _); [lia|].
  unfold QueueBackend.checkpoint in Hcp. rewrite Htail, Hcp', !bind_Done in Hcp. injection Hcp as <- <-. qb.
  split_and!; try done. constructor; qb; try (done || lia); [by eapply synced_chain|by eapply synced_sealed].
Qed.

Lemma grown_named b0 b start ms k l :
  grown b0 b start ms k l → named (QueueBackend.config b0) (QueueBackend.segments b0) →
  named (QueueBackend.config b) (QueueBackend.segments b).
Proof.
  intros [_ Hcfg _ Hlab Hnew _ _] Hn%named_labels. apply named_labels. rewrite Hlab, Hcfg. apply Forall_app. split.
  - by apply Forall_drop.
  - eapply Forall_impl; [exact Hnew|]. by intros p [_ ?].
Qed.

(** The file of a collected segment is gone. *)
Lemma gone_file b start ms id :
  backend_rep b start ms → named (QueueBackend.config b) (QueueBackend.segments b) → in_u64 id → id < start →
  QueueBackend.segment_files b !! data_file (QueueBackend.config b) id = None.
Proof.
  intros Hb Hn Hu Hid. apply not_elem_of_list_to_map_1. intros ([path m] & Heq & Hin)%list_elem_of_fmap.
  apply list_elem_of_fmap in Hin as (s & [= -> ->] & Hin). cbn in Heq.
  unfold named in Hn. rewrite Forall_forall in Hn. rewrite (Hn _ Hin) in Heq.
  pose proof (br_start _ _ _ Hb).
  pose proof (chain_tail_range _ _ _ _ (br_chain _ _ _ Hb) ltac:(lia)) as Hr. rewrite Forall_forall in Hr.
  destruct (Hr _ Hin) as [Hge Hu']. apply gen_file_path_inj in Heq; [lia|done..].
Qed.

Lemma open_missing os files config cps1 cps2 acc :
  (∀ id, no_faults (os id)) → Forall (λ cp, files !! data_file config (Segment.cp_tail cp) = None) cps1 →
  QueueBackend.open_segments os files config (cps1 ++ cps2) acc = QueueBackend.open_segments os files config cps2 acc.
Proof.
  intros Hos. induction 1 as [|cp cps1 Hcp _ IH]; [done|]. cbn [app QueueBackend.open_segments].
  unfold data_file in Hcp. rewrite Hcp. unfold Segment.open. rewrite (syscall_ok _ _ (Hos _)), !bind_Done. exact IH.
Qed.

(** The segments with the closed flags of the checkpoint. *)
Definition reclosed segs (cps : QueueBackend.checkpoint_t) : list Segment.t :=
  zip_with (λ s cp, Segment.set_closed s (Segment.cp_closed cp)) segs cps.

Lemma reclosed_chain start segs ms stop cps :
  chain start segs ms stop → length segs = length cps → chain start (reclosed segs cps) ms stop.
Proof.
  intros Hc. revert cps. induction Hc as [|start s segs ms n msgs stop Hr Ht Hd Hc IH]; intros [|cp cps] Hl; try done; [constructor|].
  cbn. apply (chain_cons _ _ _ _ n); [by apply rep_set_closed|done|done|]. cbn. apply IH. by injection Hl.
Qed.

Lemma reclosed_sealed segs cps :
  length segs = length cps → sealed segs → Forall (λ cp, Segment.cp_closed cp = true) (removelast cps) →
  sealed (reclosed segs cps).
Proof.
  revert cps. unfold sealed. induction segs as [|s segs IH]; intros [|cp cps] Hl Hs Hc; try done.
  destruct segs as [|s1 segs], cps as [|cp1 cps]; try done.
  apply Forall_cons in Hs as [[_ Hlt] Hs]. apply Forall_cons in Hc as [Hc1 Hc].
  constructor; [by split|]. apply (IH (cp1 :: cps)); [cbn in *; lia|done|done].
Qed.

Lemma reclosed_props segs cps (P : Segment.t → Prop) :
  (∀ s c, P s → P (Segment.set_closed s c)) → Forall P segs → Forall P (reclosed segs cps).
Proof.
  intros HP Hs. revert cps. induction Hs as [|s segs Hs _ IH]; intros [|cp cps]; try constructor; [by apply HP|apply IH].
Qed.

Lemma reclosed_cps segs cps :
  Segment.cp_tail <$> cps = Segment.tail <$> segs →
  Forall2 (λ s cp, Segment.cp_tail cp = Segment.tail s ∧ Segment.cp_closed cp = Segment.closed s) (reclosed segs cps) cps.
Proof.
  revert cps. induction segs as [|s segs IH]; intros [|cp cps] Heq; try done.
  injection Heq as Hs Hl. constructor; [by split|by apply IH].
Qed.

Lemma tails_labels segs : Segment.tail <$> segs = fst <$> labels segs.
Proof. unfold labels. by rewrite <-list_fmap_compose. Qed.

Lemma sealed_app_l l1 l2 : sealed (l1 ++ l2) → sealed l1.
Proof.
  unfold sealed. destruct l2 as [|s l2]; [by rewrite app_nil_r|].
  rewrite removelast_app by done. intros [Hf _]%Forall_app. destruct l1 as [|s1 l1 _] using rev_ind; [done|].
  rewrite removelast_last. by apply Forall_app in Hf as [? _].
Qed.

(** The segments that are still there open again as the log they are. *)
Lemma open_kept os b start ms kept new cps :
  backend_rep b start ms → named (QueueBackend.config b) (QueueBackend.segments b) →
  QueueBackend.segments b = kept ++ new → Forall spare kept → (∀ id, no_faults (os id)) →
  Segment.cp_tail <$> cps = Segment.tail <$> kept → Forall (λ cp, Segment.cp_closed cp = true) (removelast cps) →
  ∃ n segs, QueueBackend.open_segments os (QueueBackend.segment_files b) (QueueBackend.config b) cps [] = Done segs ∧
    chain start segs (take n ms) (start + Z.of_nat n) ∧ sealed segs ∧ length segs = length kept ∧
    (n ≤ length ms)%nat ∧
    start + Z.of_nat n = match new with s :: _ => Segment.tail s | [] => QueueBackend.head b end.
Proof.
  intros Hb Hnamed Hseg Hspare Hos Htails Hclosed.
  pose proof (segment_files_match _ _ _ Hb Hnamed) as Hfiles. destruct Hb as [Hc Hs Hst _ _].
  rewrite Hseg in Hc, Hs, Hfiles. apply Forall_app in Hfiles as [Hfiles _]. apply sealed_app_l in Hs.
  apply chain_app in Hc as (m1 & m2 & mid & -> & Hc1 & Hc2).
  pose proof (f_equal length Htails) as Hlen. rewrite !length_fmap in Hlen.
  destruct (open_segments_chain os (QueueBackend.segment_files b) (QueueBackend.config b) (reclosed kept cps) cps []
    start m1 mid) as (segs & Hopen & Hc & Hsl & Hl); try done.
  { by apply reclosed_chain. }
  { by apply reclosed_sealed. }
  { by apply reclosed_cps. }
  { by apply reclosed_props. }
  { by apply reclosed_props. }
  pose proof (chain_stop _ _ _ _ Hc1) as Hmid. unfold zlen in Hmid.
  exists (length m1), segs. rewrite take_app_length, <-Hmid. split_and!; [done|done|done| | |].
  - rewrite Hl. unfold reclosed. rewrite length_zip_with. lia.
  - rewrite length_app. lia.
  - rewrite <-(chain_first _ _ _ _ Hc2). by destruct new.
Qed.

(** What a checkpoint lists. *)
Lemma listed_tails segs cps :
  Forall2 (λ s cp, Segment.cp_tail cp = Segment.tail s ∧ Segment.cp_closed cp = Segment.closed s) segs cps →
  Segment.cp_tail <$> cps = Segment.tail <$> segs.
Proof. induction 1 as [|s cp segs cps [Ht _] _ IH]; [done|]. rewrite !fmap_cons. by f_equal. Qed.

Lemma listed_closed segs cps k :
  Forall2 (λ s cp, Segment.cp_tail cp = Segment.tail s ∧ Segment.cp_closed cp = Segment.closed s) segs cps →
  sealed segs → Forall (λ cp, Segment.cp_closed cp = true) (removelast (drop k cps)).
Proof.
  intros Hf%(Forall2_drop _ _ _ k) Hs. apply (sealed_drop k) in Hs. unfold sealed in Hs.
  induction Hf as [|s cp segs' cps' [_ Hc] Hf IH]; [constructor|].
  destruct Hf as [|s1 cp1 segs' cps' Hp Hf]; [constructor|].
  apply Forall_cons in Hs as [[Hcl _] Hs]. constructor; [congruence|by apply IH].
Qed.

Lemma listed_gone segs cps k b start ms start0 ms0 stop0 :
  Segment.cp_tail <$> cps = Segment.tail <$> segs → chain start0 segs ms0 stop0 → 0 ≤ start0 →
  Forall (λ p, p.1 < start) (take k (labels segs)) →
  backend_rep b start ms → named (QueueBackend.config b) (QueueBackend.segments b) →
  Forall (λ cp, QueueBackend.segment_files b !! data_file (QueueBackend.config b) (Segment.cp_tail cp) = None) (take k cps).
Proof.
  intros Ht Hc Hst Hgone Hb Hn. pose proof (chain_tail_range _ _ _ _ Hc Hst) as Hr. rewrite Forall_lookup in Hr. rewrite Forall_lookup in Hgone.
  apply Forall_lookup. intros i cp Hi. apply lookup_take_Some in Hi as [Hi Hik].
  pose proof (f_equal (lookup i) Ht) as Hti. rewrite !list_lookup_fmap, Hi in Hti.
  destruct (segs !! i) as [s|] eqn:Hs; [|done]. injection Hti as Hti. rewrite Hti.
  apply (gone_file b start ms); [done|done|apply (Hr _ _ Hs)|].
  apply (Hgone i (Segment.tail s, Segment.file_path s)). apply lookup_take_Some. split; [|done].
  unfold labels. by rewrite list_lookup_fmap, Hs.
Qed.

Lemma chain_ends start segs ms stop d e :
  chain start segs ms stop → segs ≠ [] →
  match segs with s :: _ => Segment.tail s | [] => d end = start ∧
  match last segs with Some s => Segment.head s | None => e end = stop.
Proof.
  intros Hc Hne. split; [by destruct Hc|]. destruct segs as [|s l _] using rev_ind; [done|].
  rewrite last_snoc. by apply chain_snoc in Hc as (? & ? & ? & _ & _ & _ & _ & ->).
Qed.

(** The theorem below, as a lemma for clients. *)
Lemma crash_reopens os os' b start ms full b1 cpf b2 :
  backend_rep b start ms → QueueBackend.tail b = start →
  named (QueueBackend.config b) (QueueBackend.segments b) → closed_full (QueueBackend.segments b) →
  no_faults os → (∀ id, no_faults (os' id)) →
  QueueBackend.checkpoint os true b full = Done (b1, cpf) → later b1 b2 →
  Forall spare (QueueBackend.segments b2) →
  ∃ start2 ms2 kept new b3, backend_rep b2 start2 ms2 ∧ QueueBackend.segments b2 = kept ++ new ∧
    labels kept `suffix_of` labels (QueueBackend.segments b) ∧
    Forall (λ s, QueueBackend.head b ≤ Segment.tail s) new ∧
    QueueBackend.new os' (QueueBackend.segment_files b2) (Some cpf) (QueueBackend.config b) true = Done b3 ∧
    match kept with
    | [] => b3 = QueueBackend.mk (QueueBackend.config b) [] 1 1
    | _ => ∃ n, backend_rep b3 start2 (take n ms2) ∧ QueueBackend.tail b3 = start2 ∧
        QueueBackend.head b3 = start2 + Z.of_nat n ∧ QueueBackend.head b ≤ QueueBackend.head b3 ∧
        QueueBackend.head b3 = match new with s :: _ => Segment.tail s | [] => QueueBackend.head b2 end
    end.
Proof.
  intros Hb Htail Hnamed Hfull Hos Hos' Hcp Hlater Hspare. pose proof Hb as [Hc Hs Hst Htl Hhd].
  destruct (checkpoint_segments_ok os start full _ _ _ _ Hos Hc) as (segs & cps & Hcp' & Hsync & Hcps); [lia|].
  unfold QueueBackend.checkpoint in Hcp. rewrite Htail, Hcp', !bind_Done in Hcp. injection Hcp as <- <-.
  set (b1 := QueueBackend.set_segments b segs) in *.
  assert (backend_rep b1 start ms) as Hb1.
  { constructor; unfold b1; qb; try (done || lia); [by eapply synced_chain|by eapply synced_sealed]. }
  destruct (later_grown b1 b2 start ms Hb1) as (start2 & ms2 & k & l & Hgr);
    [by eapply closed_full_synced|done|].
  assert (named (QueueBackend.config b2) (QueueBackend.segments b2)) as Hnamed2.
  { eapply grown_named; [exact Hgr|]. by eapply named_synced. }
  destruct Hgr as [Hrep Hcfg _ Hlab Hnew Hgone Hhead].
  change (QueueBackend.segments b1) with segs in *. change (QueueBackend.config b1) with (QueueBackend.config b) in *.
  change (QueueBackend.head b1) with (QueueBackend.head b) in *.
  pose proof (labels_synced _ _ Hsync) as Hsl.
  apply fmap_app_inv in Hlab as (kept & new & Hk & -> & Hseg).
  change ((λ s, (Segment.tail s, Segment.file_path s)) <$> ?l) with (labels l) in *.
  pose proof (listed_tails _ _ Hcps) as Htails.
  rewrite Hseg in Hspare. apply Forall_app in Hspare as [Hspare _].
  destruct (open_kept os' b2 start2 ms2 kept new (drop k cps)) as (n & segs3 & Hopen & Hc3 & Hs3 & Hlen & Hn & Hend); try done.
  { rewrite fmap_drop, Htails, !tails_labels, <-fmap_drop. by rewrite Hk. }
  { eapply listed_closed; [exact Hcps|]. by eapply synced_sealed. }
  rewrite Hcfg in Hopen.
  exists start2, ms2, kept, new. eexists. split; [done|]. split; [done|].
  split; [rewrite <-Hk, Hsl; exists (take k (labels (QueueBackend.segments b))); by rewrite take_drop|].
  split; [apply Forall_fmap in Hnew; eapply Forall_impl; [exact Hnew|]; by intros s [? _]|].
  split.
  { unfold QueueBackend.new, QueueBackend.recover. qb. cbn [mbind option_bind]. rewrite json_roundtrip.
    rewrite <-(take_drop k cps), open_missing, Hopen, bind_Done; [reflexivity|done|].
    rewrite <-Hcfg. eapply listed_gone; [exact Htails|by eapply synced_chain|lia|done..]. }
  destruct kept as [|s0 kept]; [by destruct segs3|]. exists n.
  destruct (chain_ends _ _ _ _ 1 1 Hc3) as [Ht3 Hh3]; [by destruct segs3|].
  pose proof Hrep as [_ _ Hst2 Htl2 Hhd2]. pose proof (backend_rep_next _ _ _ Hrep) as Hnext. unfold zlen in Hnext.
  split; [constructor; qb; (rewrite ?Ht3, ?Hh3; (done || lia))|].
  qb. rewrite Ht3, Hh3. split_and!; [done|done| |done]. rewrite Hend.
  destruct new as [|s1 new]; [done|]. apply Forall_cons in Hnew as [[Hnew _] _]. exact Hnew.
Qed.

(** ** Theorem *)

(** A crash at any time after a checkpoint. A start finds the messages
    of the segments that existed at the checkpoint and were not collected
    since, those appended to them after the checkpoint included: all that
    was in the log at the checkpoint and is still kept. What was pushed to
    segments that were created since is not found, and their ids are given
    out again; when all listed segments were collected, the log starts
    empty at id 1. *)
Theorem crash_recovers os os' b start ms full b1 cpf b2 :
  backend_rep b start ms → QueueBackend.tail b = start →
  named (QueueBackend.config b) (QueueBackend.segments b) → closed_full (QueueBackend.segments b) →
  no_faults os → (∀ id, no_faults (os' id)) →
  QueueBackend.checkpoint os true b full = Done (b1, cpf) → later b1 b2 →
  Forall spare (QueueBackend.segments b2) →
  ∃ start2 ms2 kept new b3, backend_rep b2 start2 ms2 ∧ QueueBackend.segments b2 = kept ++ new ∧
    labels kept `suffix_of` labels (QueueBackend.segments b) ∧
    Forall (λ s, QueueBackend.head b ≤ Segment.tail s) new ∧
    QueueBackend.new os' (QueueBackend.segment_files b2) (Some cpf) (QueueBackend.config b) true = Done b3 ∧
    match kept with
    | [] => b3 = QueueBackend.mk (QueueBackend.config b) [] 1 1
    | _ => ∃ n, backend_rep b3 start2 (take n ms2) ∧ QueueBackend.tail b3 = start2 ∧
        QueueBackend.head b3 = start2 + Z.of_nat n ∧ QueueBackend.head b ≤ QueueBackend.head b3 ∧
        QueueBackend.head b3 = match new with s :: _ => Segment.tail s | [] => QueueBackend.head b2 end
    end.
Proof. apply crash_reopens. Qed.

End crash.
