(* ===== verification/BackendProps.v ===== *)
(** * Properties of the queue backend

    What [QueueBackend] guarantees in terms of the abstract log of
    [LogSpec.v], and the cases where checkpoints and purging lose messages,
    each with a closed instance on 64-byte segments. *)
From S2P Require Import Prelude.
From S2P Require Import Bytes.
From S2P Require Import Offsets.
From S2P Require Import Text.
From S2P Require Import Settings.
From S2P Require Import Segments.
From S2P Require Import SegmentSpec.
From S2P Require Import SegmentFacts.
From S2P Require Import Recovery.
From S2P Require Import Backend.
From S2P Require Import LogSpec.
From S2P Require Import BackendFacts.
From S2P Require Import Retention.
From S2P Require Import Seek.
From S2P Require Import BackendRecovery.
From S2P Require Import CrashRecovery.

Section props.
Context `{Profile} `{Hasher}.

(** C25: [push] appends to the log under the id [head] and [get] then finds the
    new message and all the earlier ones, across segments; a message too big
    for a segment is refused and the log is unchanged. *)
Theorem backend_push_get os b start ms x :
  backend_rep b start ms → wf_msg x → msg_size x + 4 < 2 ^ 32 → no_faults os → os_zeroes os →
  4 < Config.segment_size (QueueBackend.config b) < 2 ^ 31 → QueueBackend.head b + 1 < 2 ^ 63 →
  ∃ b' r ms', QueueBackend.push os b x.2 x.1 = Done (b', r) ∧ backend_rep b' start ms' ∧
    match r with
    | Ok id => id = start + zlen ms ∧ ms' = ms ++ [x]
    | Err e => e = MessageTooBig ∧ ms' = ms ∧
        (Config.segment_size (QueueBackend.config b) < msg_size x + 4 ∨
         ∃ s, last (QueueBackend.segments b) = Some s ∧ Segment.file_len s ≤ msg_size x + 4)
    end ∧
    ∀ id, 0 ≤ id →
      match entry start ms' id with
      | Some (id', y) => ∃ m, QueueBackend.get b' id = Done (Some m) ∧ message_is m id' y
      | None => QueueBackend.get b' id = Done None
      end.
Proof.
  intros Hb Hx Hbig Hos Hz Hsize Hhead.
  destruct (push_refines os b start ms x) as (b' & r & Hp & _ & _ & Hr); [done..|].
  rewrite (backend_rep_next _ _ _ Hb) in Hr.
  destruct r as [id|e]; [destruct Hr as [-> Hr]|destruct Hr as (-> & Hr & Hbig')];
    eexists _, _, _; (split; [exact Hp|]); (split; [exact Hr|]); (split; [by split|]);
    intros id' Hid; by apply get_refines.
Qed.

(** C29: garbage collection removes the longest prefix of closed segments that
    break a hard limit or are both read by every channel and outside the
    soft limits; the log loses exactly their messages, and their files are
    the ones deleted. *)
Theorem gc_removes b start ms smallest clock :
  backend_rep b start ms → clock_ok clock (QueueBackend.segments b) →
  lens_ok (QueueBackend.segments b) → total_len (QueueBackend.segments b) < 2 ^ 64 →
  ∃ n start' b',
    QueueBackend.gc b smallest clock =
      Done (b', Segment.file_path <$> take n (QueueBackend.segments b)) ∧
    QueueBackend.segments b' = drop n (QueueBackend.segments b) ∧
    backend_rep b' start' (drop (Z.to_nat (start' - start)) ms) ∧ start ≤ start' ∧
    QueueBackend.head b' = QueueBackend.head b ∧
    (∀ i s, QueueBackend.segments b !! i = Some s → (i < n)%nat →
       ¬ kept (QueueBackend.config b) smallest clock (total_len (drop i (QueueBackend.segments b))) s) ∧
    (∀ s, QueueBackend.segments b !! n = Some s →
       kept (QueueBackend.config b) smallest clock (total_len (drop n (QueueBackend.segments b))) s).
Proof.
  intros Hb Hc Hl Ht. destruct (gc_refines b start ms smallest clock Hb Hc Hl Ht)
    as (n & start' & b' & paths & Hgc & Hb' & Hle & _ & Hh & Hs & -> & _ & _ & _ & Hrm & Hkeep).
  exists n, start', b'. by split_and!.
Qed.

(** C30: on a log with increasing timestamps, seeking to a time returns the id
    that separates the messages before it from the others; the search
    terminates. *)
Theorem seek_separates b start ms T :
  backend_rep b start ms → increasing ms → stamped ms →
  QueueBackend.tail b = start → no_empty_segment b →
  ∃ r, QueueBackend.find_id_for_timestamp b T = Done r ∧ start ≤ r ≤ QueueBackend.head b ∧
    ∀ i x, ms !! i = Some x → (start + Z.of_nat i < r ↔ x.1 < T).
Proof.
  intros Hb Hinc Hst Ht Hne.
  destruct (find_id_refines b start ms T Hb Hinc Hst Ht Hne) as (r & Hr & Hrange & Hold & Hnew).
  exists r. split_and!; [done|lia|lia|]. intros i x Hx. split; [by apply Hold|].
  intros Hlt. destruct (Z.lt_ge_cases (start + Z.of_nat i) r); [done|].
  specialize (Hnew i x Hx). lia.
Qed.

(** A purge keeps the messages readable but moves [tail] to [head] and
    closes the last segment. *)
Theorem purge_keeps_log b start ms :
  backend_rep b start ms →
  backend_rep (QueueBackend.purge b) start ms ∧
  QueueBackend.tail (QueueBackend.purge b) = QueueBackend.head b ∧
  QueueBackend.head (QueueBackend.purge b) = QueueBackend.head b.
Proof. apply purge_refines. Qed.

(** A sync never goes back, is page aligned, and a full one covers every
    byte written, unless the page of the last byte was already synced: then
    nothing is written out, even if the page has new messages. *)
Theorem sync_covers os s full :
  no_faults os → 0 ≤ Segment.file_offset s < 2 ^ 31 →
  ∃ s' synced, Segment.sync os s full = Done (s', synced) ∧
    Segment.sync_offset s ≤ Segment.sync_offset s' ∧
    match synced with
    | Some n => n = Segment.sync_offset s' ∧ n mod page = 0 ∧
        (full = true ∨ Segment.closed s = true → Segment.file_offset s ≤ n)
    | None => s' = s ∧ (full = true → Segment.file_offset s ≤ Segment.sync_offset s ∨ Segment.file_offset s = 0)
    end.
Proof.
  intros Hos Ho. rewrite sync_ok by done. set (t := sync_target s full).
  assert (t mod page = 0 ∧ 0 ≤ t) as [Hmod Ht0].
  { unfold t, sync_target, page. case_match; cbn zeta;
      match goal with |- (?x - ?x mod 4096) mod 4096 = 0 ∧ _ =>
        rewrite <-Zminus_mod_idemp_r, Z.mod_mod, Zminus_mod_idemp_r, Z.sub_diag by lia;
        split; [done|pose proof (Z.mod_le x 4096); lia] end. }
  assert (full = true ∨ Segment.closed s = true → Segment.file_offset s ≤ t) as Hcov.
  { intros Hf. unfold t, sync_target, page. rewrite (proj2 (orb_true_iff _ _) Hf). cbn zeta.
    pose proof (Z.mod_pos_bound (Segment.file_offset s + 4095) 4096). lia. }
  destruct (Z.ltb_spec 0 t), (Z.ltb_spec (Segment.sync_offset s) t); cbn [andb];
    eexists _, _; (split; [reflexivity|]); cbn [Segment.sync_offset Segment.set_sync_offset].
  - split; [lia|]. by split_and!.
  - split; [lia|]. split; [done|]. intros Hf. specialize (Hcov (or_introl Hf)). lia.
  - split; [lia|]. split; [done|]. intros Hf. specialize (Hcov (or_introl Hf)). lia.
  - split; [lia|]. split; [done|]. intros Hf. specialize (Hcov (or_introl Hf)). lia.
Qed.

(** Messages appended to a page that a sync already covered are not
    written out by the next full sync. *)
Theorem same_page_not_synced os s s2 o :
  no_faults os → 0 ≤ Segment.file_offset s < 2 ^ 31 → 0 ≤ Segment.file_offset s2 < 2 ^ 31 →
  Segment.sync os s true = Done (Segment.set_sync_offset s o, Some o) →
  Segment.sync_offset s2 = o → Segment.file_offset s < Segment.file_offset s2 ≤ o →
  Segment.sync os s2 true = Done (s2, None).
Proof.
  intros Hos Ho Ho2 Hsync Hs2 Hrange. rewrite sync_ok in Hsync |- * by done.
  destruct (_ && _) eqn:E in Hsync; [|done]. injection Hsync as Ht.
  unfold sync_target, page in *. cbn [orb] in *. cbn zeta in *.
  pose proof (Z.div_mod (Segment.file_offset s + 4095) 4096) as Hd1.
  pose proof (Z.div_mod (Segment.file_offset s2 + 4095) 4096) as Hd2.
  pose proof (Z.mod_pos_bound (Segment.file_offset s2 + 4095) 4096).
  rewrite (proj2 (Z.ltb_ge (Segment.sync_offset s2) _)); [by rewrite andb_false_r|]. lia.
Qed.

(** Garbage collection under a clock behind the last timestamp of the
    first closed segment panics with overflow checks. *)
Theorem gc_clock_backwards b smallest clock s segs :
  QueueBackend.segments b = s :: segs → Segment.closed s = true →
  0 ≤ total_len (QueueBackend.segments b) < 2 ^ 64 → 0 ≤ clock < Segment.last_timestamp s →
  debug_assertions = true → QueueBackend.gc b smallest clock = Panic.
Proof.
  intros Hs Hcl Ht Hc Hdbg. unfold QueueBackend.gc, QueueBackend.sum_len.
  fold (total_len (QueueBackend.segments b)). rewrite u64_in, bind_Done by done.
  rewrite Hs. cbn [QueueBackend.gc_count]. rewrite Hcl. cbn [negb].
  unfold u32, arith. rewrite (proj2 (Z.leb_gt 0 _)) by lia. cbn [andb]. by rewrite Hdbg.
Qed.

Context `{JsonOk QueueBackend.checkpoint_t}.

(** A checkpoint followed by a start gives the same log, with the same
    ids and positions. *)
Theorem checkpoint_restart os os' b start ms full :
  backend_rep b start ms → QueueBackend.tail b = start → QueueBackend.segments b ≠ [] →
  named (QueueBackend.config b) (QueueBackend.segments b) →
  Forall spare (QueueBackend.segments b) → no_faults os → (∀ id, no_faults (os' id)) →
  ∃ b1 cpf b2,
    QueueBackend.checkpoint os true b full = Done (b1, cpf) ∧ backend_rep b1 start ms ∧
    QueueBackend.new os' (QueueBackend.segment_files b1) (Some cpf) (QueueBackend.config b) true
      = Done b2 ∧
    backend_rep b2 start ms ∧ QueueBackend.tail b2 = start ∧
    QueueBackend.head b2 = QueueBackend.head b ∧
    QueueBackend.segments_count b2 = QueueBackend.segments_count b.
Proof. apply checkpoint_recover. Qed.

Lemma checkpoint_none os from full segs :
  Forall (λ s, Segment.tail s < from) segs →
  QueueBackend.checkpoint_segments os from full segs = Done (segs, []).
Proof.
  induction 1 as [|s segs Hs _ IH]; [done|]. cbn [QueueBackend.checkpoint_segments].
  rewrite (proj2 (Z.leb_gt _ _)), IH by done. done.
Qed.

(** The first id of every non-empty segment is below the end of the log. *)
Lemma chain_below start segs ms stop :
  chain start segs ms stop → sealed segs → (∀ s, last segs = Some s → Segment.tail s < Segment.head s) →
  Forall (λ s, Segment.tail s < stop) segs.
Proof.
  induction 1 as [|start s segs ms n msgs stop Hr Ht Hd Hc IH]; [done|]. intros Hs Hl.
  pose proof (chain_stop _ _ _ _ Hc). pose proof (zlen_nonneg msgs).
  destruct segs as [|s1 segs].
  - specialize (Hl s eq_refl). constructor; [lia|done].
  - apply Forall_cons in Hs as [[_ Hs1] Hs]. constructor; [lia|]. by apply IH.
Qed.

(** After a purge, a message that still fits the closed last segment is
    appended to it, and a checkpoint does not list that segment: at the next
    start the message is gone and the ids start again from 1. *)
Theorem purge_then_restart_loses os os' files b start ms s x full :
  backend_rep b start ms → last (QueueBackend.segments b) = Some s → Segment.tail s < Segment.head s →
  wf_msg x → fits s x → QueueBackend.head b + 1 < 2 ^ 63 →
  ∃ b' b1 cpf,
    QueueBackend.push os (QueueBackend.purge b) x.2 x.1 = Done (b', Ok (QueueBackend.head b)) ∧
    backend_rep b' start (ms ++ [x]) ∧
    QueueBackend.checkpoint os true b' full = Done (b1, cpf) ∧
    QueueBackend.new os' files (Some cpf) (QueueBackend.config b) true
      = Done (QueueBackend.mk (QueueBackend.config b) [] 1 1).
Proof.
  intros [Hc Hs Hst Htl Hhd] Hl Hne Hx Hfit Hmax.
  apply last_Some in Hl as [l Hseg]. destruct b as [config segs head tail]. qb. subst segs.
  pose proof (chain_below _ _ _ _ Hc Hs) as Hbelow.
  rewrite last_snoc in Hbelow. specialize (Hbelow ltac:(by intros ? [= <-])).
  apply Forall_app in Hbelow as [Hbl _]. apply sealed_snoc in Hs.
  apply chain_snoc in Hc as (m1 & m2 & n & -> & Hc1 & Hr & Hd & ->).
  apply (rep_set_closed _ _ _ true) in Hr as Hr0.
  destruct (push_fits _ _ _ x Hr0 Hx Hfit) as (s' & Hp & Hr' & Ht' & Hc' & Hd' & _).
  cbn in Ht', Hc', Hd', Hp.
  pose proof (rep_head _ _ _ Hr') as Hh'. pose proof (rep_head _ _ _ Hr) as Hh.
  rewrite zlen_app, zlen_cons, zlen_nil in Hh'.
  exists (QueueBackend.mk config (l ++ [s']) (Segment.head s + 1) (Segment.head s)). eexists _, _.
  split.
  { rewrite push_unfold. unfold QueueBackend.purge. qb. rewrite close_last_snoc, last_snoc, Hp, bind_Done.
    qb. rewrite set_last_snoc, Z.eqb_refl. cbn [assert]. rewrite bind_Done.
    pose proof (rep_tail _ _ _ Hr). pose proof (zlen_nonneg m2). by mint. }
  split.
  { pose proof (chain_stop _ _ _ _ Hc1). pose proof (zlen_nonneg m1). pose proof (zlen_nonneg m2).
    constructor; qb; [|by apply sealed_snoc|lia..]. rewrite drop_replicate in Hr'.
    apply chain_snoc. exists m1, (m2 ++ [x]). eexists. rewrite app_assoc, Ht'.
    split_and!; [done|done|done|congruence|lia]. }
  split.
  { unfold QueueBackend.checkpoint. qb. rewrite checkpoint_none; [reflexivity|].
    apply Forall_app. split; [done|]. constructor; [lia|done]. }
  unfold QueueBackend.new, QueueBackend.recover. cbn [mbind option_bind]. by rewrite json_roundtrip.
Qed.

End props.

(** ** Closed instances *)

#[local] Existing Instance dev_profile.
#[local] Existing Instance sum_hasher.
#[local] Instance sample_json : Json QueueBackend.checkpoint_t := countable_json.
#[local] Instance sample_json_ok : JsonOk QueueBackend.checkpoint_t := countable_json_ok.

Definition sample_config : Config.QueueConfig := tiny_config 64.
Definition empty_backend : QueueBackend.t := QueueBackend.mk sample_config [] 1 1.

Fixpoint fill (b : QueueBackend.t) (xs : list msg) : option QueueBackend.t :=
  match xs with
  | [] => Some b
  | x :: xs =>
      match QueueBackend.push os_sound b x.2 x.1 with
      | Done (b, Ok _) => fill b xs
      | _ => None
      end
  end.

Lemma fill_rep b start ms xs b' :
  backend_rep b start ms → Forall (λ x, wf_msg x ∧ msg_size x + 4 < 2 ^ 32) xs →
  4 < Config.segment_size (QueueBackend.config b) < 2 ^ 31 → QueueBackend.head b + zlen xs < 2 ^ 63 →
  fill b xs = Some b' → backend_rep b' start (ms ++ xs).
Proof.
  intros Hb Hxs. revert b ms Hb. induction Hxs as [|x xs [Hx Hbig] _ IH]; intros b ms Hb Hsize Hmax Hf.
  { injection Hf as <-. by rewrite app_nil_r. }
  rewrite zlen_cons in Hmax. pose proof (zlen_nonneg xs). cbn [fill] in Hf.
  destruct (push_refines os_sound b start ms x) as (b1 & r & Hp & Hc & Ht & Hr); try done; [lia|].
  rewrite Hp in Hf. destruct r as [id|e]; [|done]. destruct Hr as [_ Hr].
  pose proof (backend_rep_next _ _ _ Hr) as Hn. rewrite zlen_app, zlen_cons, zlen_nil in Hn.
  pose proof (backend_rep_next _ _ _ Hb).
  specialize (IH b1 (ms ++ [x]) Hr). rewrite <-app_assoc in IH. apply IH; [by rewrite Hc|lia|done].
Qed.

Definition sample_msgs : list msg := [(6, B "one"); (7, B "two"); (8, B "three")].
Definition sample_backend : QueueBackend.t := default empty_backend (fill empty_backend sample_msgs).

Lemma empty_backend_rep : backend_rep empty_backend 1 [].
Proof. constructor; try done; cbn; try lia; constructor. Qed.

Lemma sample_backend_rep : backend_rep sample_backend 1 sample_msgs.
Proof.
  apply (fill_rep empty_backend 1 [] sample_msgs); [apply empty_backend_rep| |by vm_compute..].
  by repeat (constructor; [by vm_compute|]).
Qed.

(** Two segments: the first, with two messages, is closed. *)
Example sample_backend_segments :
  ((λ s, (Segment.tail s, Segment.head s, Segment.closed s)) <$> QueueBackend.segments sample_backend)
  = [(1, 3, true); (3, 4, false)].
Proof. by vm_compute. Qed.

Lemma backend_push_get_witness :
  ∃ b' r ms', QueueBackend.push os_sound sample_backend (B "four") 9 = Done (b', r) ∧ backend_rep b' 1 ms' ∧
    match r with
    | Ok id => id = 1 + zlen sample_msgs ∧ ms' = sample_msgs ++ [(9, B "four")]
    | Err e => e = MessageTooBig ∧ ms' = sample_msgs ∧
        (Config.segment_size (QueueBackend.config sample_backend) < msg_size (9, B "four") + 4 ∨
         ∃ s, last (QueueBackend.segments sample_backend) = Some s ∧
              Segment.file_len s ≤ msg_size (9, B "four") + 4)
    end ∧
    ∀ id, 0 ≤ id →
      match entry 1 ms' id with
      | Some (id', y) => ∃ m, QueueBackend.get b' id = Done (Some m) ∧ message_is m id' y
      | None => QueueBackend.get b' id = Done None
      end.
Proof.
  apply (backend_push_get os_sound sample_backend 1 sample_msgs (9, B "four") sample_backend_rep).
  - by vm_compute.
  - by vm_compute.
  - by intros [].
  - by intros n.
  - by vm_compute.
  - by vm_compute.
Defined.

Lemma sample_clock_ok : clock_ok 20 (QueueBackend.segments sample_backend).
Proof. apply (bool_decide_unpack _). by vm_compute. Qed.
Lemma sample_lens_ok : lens_ok (QueueBackend.segments sample_backend).
Proof. apply (bool_decide_unpack _). by vm_compute. Qed.

(** Every channel has read up to id 3: the first segment goes. *)
Lemma gc_removes_witness :
  ∃ n start' b',
    QueueBackend.gc sample_backend 3 20 =
      Done (b', Segment.file_path <$> take n (QueueBackend.segments sample_backend)) ∧
    QueueBackend.segments b' = drop n (QueueBackend.segments sample_backend) ∧
    backend_rep b' start' (drop (Z.to_nat (start' - 1)) sample_msgs) ∧ 1 ≤ start' ∧
    QueueBackend.head b' = QueueBackend.head sample_backend ∧
    (∀ i s, QueueBackend.segments sample_backend !! i = Some s → (i < n)%nat →
       ¬ kept (QueueBackend.config sample_backend) 3 20 (total_len (drop i (QueueBackend.segments sample_backend))) s) ∧
    (∀ s, QueueBackend.segments sample_backend !! n = Some s →
       kept (QueueBackend.config sample_backend) 3 20 (total_len (drop n (QueueBackend.segments sample_backend))) s).
Proof.
  apply (gc_removes sample_backend 1 sample_msgs 3 20 sample_backend_rep sample_clock_ok sample_lens_ok).
  by vm_compute.
Defined.

Lemma sample_increasing : increasing sample_msgs.
Proof.
  intros [|[|[|i]]] [|[|[|j]]] x y Hij Hx Hy; cbn in Hx, Hy; simplify_eq; cbn; lia.
Qed.

Lemma seek_separates_witness :
  ∃ r, QueueBackend.find_id_for_timestamp sample_backend 7 = Done r ∧ 1 ≤ r ≤ QueueBackend.head sample_backend ∧
    ∀ i x, sample_msgs !! i = Some x → (1 + Z.of_nat i < r ↔ x.1 < 7).
Proof.
  apply (seek_separates sample_backend 1 sample_msgs 7 sample_backend_rep sample_increasing).
  - by repeat (constructor; [by vm_compute|]).
  - by vm_compute.
  - apply (bool_decide_unpack _). by vm_compute.
Defined.

Lemma purge_keeps_log_witness :
  backend_rep (QueueBackend.purge sample_backend) 1 sample_msgs ∧
  QueueBackend.tail (QueueBackend.purge sample_backend) = QueueBackend.head sample_backend ∧
  QueueBackend.head (QueueBackend.purge sample_backend) = QueueBackend.head sample_backend.
Proof. exact (purge_keeps_log sample_backend 1 sample_msgs sample_backend_rep). Defined.

Definition sample_last : Segment.t :=
  default (opened sample_config [] (Segment.mkCheckpoint 0 0 0 false)) (last (QueueBackend.segments sample_backend)).

Lemma sync_covers_witness :
  ∃ s' synced, Segment.sync os_sound sample_last true = Done (s', synced) ∧
    Segment.sync_offset sample_last ≤ Segment.sync_offset s' ∧
    match synced with
    | Some n => n = Segment.sync_offset s' ∧ n mod page = 0 ∧
        (true = true ∨ Segment.closed sample_last = true → Segment.file_offset sample_last ≤ n)
    | None => s' = sample_last ∧ (true = true → Segment.file_offset sample_last ≤ Segment.sync_offset sample_last
                                  ∨ Segment.file_offset sample_last = 0)
    end.
Proof. apply (sync_covers os_sound sample_last true); [by intros []|by vm_compute]. Defined.

(** The segment after its first sync, and with one more message. *)
Lemma same_page_not_synced_witness :
  ∃ s2, Segment.push (Segment.set_sync_offset sample_last 4096) (B "x") 9 = Done (s2, Ok 4) ∧
    Segment.sync os_sound s2 true = Done (s2, None).
Proof.
  eexists. split; [vm_compute; reflexivity|].
  apply (same_page_not_synced os_sound sample_last _ 4096); [by intros []|by vm_compute..].
Defined.

Lemma gc_clock_backwards_witness : QueueBackend.gc sample_backend 3 5 = Panic.
Proof.
  eapply (gc_clock_backwards sample_backend 3 5); [vm_compute; reflexivity|by vm_compute..].
Defined.

Lemma checkpoint_restart_witness :
  ∃ b1 cpf b2,
    QueueBackend.checkpoint os_sound true sample_backend false = Done (b1, cpf) ∧ backend_rep b1 1 sample_msgs ∧
    QueueBackend.new (λ _, os_sound) (QueueBackend.segment_files b1) (Some cpf)
      (QueueBackend.config sample_backend) true = Done b2 ∧
    backend_rep b2 1 sample_msgs ∧ QueueBackend.tail b2 = 1 ∧
    QueueBackend.head b2 = QueueBackend.head sample_backend ∧
    QueueBackend.segments_count b2 = QueueBackend.segments_count sample_backend.
Proof.
  apply (checkpoint_restart os_sound (λ _, os_sound) sample_backend 1 sample_msgs false sample_backend_rep).
  - by vm_compute.
  - by vm_compute.
  - unfold named. apply (bool_decide_unpack _). by vm_compute.
  - unfold spare. apply (bool_decide_unpack _). by vm_compute.
  - by intros [].
  - by intros ? [].
Defined.

Lemma purge_then_restart_loses_witness :
  ∃ b' b1 cpf,
    QueueBackend.push os_sound (QueueBackend.purge sample_backend) (B "four") 9
      = Done (b', Ok (QueueBackend.head sample_backend)) ∧
    backend_rep b' 1 (sample_msgs ++ [(9, B "four")]) ∧
    QueueBackend.checkpoint os_sound true b' true = Done (b1, cpf) ∧
    QueueBackend.new (λ _, os_sound) ∅ (Some cpf) (QueueBackend.config sample_backend) true
      = Done (QueueBackend.mk (QueueBackend.config sample_backend) [] 1 1).
Proof.
  apply (purge_then_restart_loses os_sound (λ _, os_sound) ∅ sample_backend 1 sample_msgs sample_last
    (9, B "four") true sample_backend_rep); by vm_compute.
Defined.

(** A checkpoint after the first message; the second goes to the same
    segment, the third to a new one; then a crash. *)
Definition first_backend : QueueBackend.t := default empty_backend (fill empty_backend (take 1 sample_msgs)).
Definition checkpointed : QueueBackend.t * list Z :=
  match QueueBackend.checkpoint os_sound true first_backend false with Done r => r | _ => (first_backend, []) end.
Definition crashed : QueueBackend.t := default first_backend (fill checkpointed.1 (drop 1 sample_msgs)).

Lemma first_backend_rep : backend_rep first_backend 1 (take 1 sample_msgs).
Proof.
  apply (fill_rep empty_backend 1 [] (take 1 sample_msgs)); [apply empty_backend_rep| |by vm_compute..].
  by repeat (constructor; [by vm_compute|]).
Qed.

Lemma checkpointed_rep : backend_rep checkpointed.1 1 (take 1 sample_msgs).
Proof.
  destruct (checkpoint_recover os_sound (λ _, os_sound) first_backend 1 (take 1 sample_msgs) false first_backend_rep)
    as (b1 & cpf & b2 & Hcp & Hb1 & _).
  - by vm_compute.
  - by vm_compute.
  - unfold named. apply (bool_decide_unpack _). by vm_compute.
  - unfold spare. apply (bool_decide_unpack _). by vm_compute.
  - by intros [].
  - by intros ? [].
  - unfold checkpointed. rewrite Hcp. exact Hb1.
Qed.

Lemma fill_later b0 b xs b' :
  Forall (λ x, wf_msg x ∧ msg_size x + 4 < 2 ^ 32) xs →
  4 < Config.segment_size (QueueBackend.config b) < 2 ^ 31 → QueueBackend.head b + zlen xs < 2 ^ 63 →
  (∃ start ms, backend_rep b start ms) →
  later b0 b → fill b xs = Some b' → later b0 b'.
Proof.
  intros Hxs. revert b. induction Hxs as [|x xs [Hx Hbig] _ IH]; intros b Hsize Hmax (start & ms & Hb) Hl Hf.
  { by injection Hf as <-. }
  rewrite zlen_cons in Hmax. pose proof (zlen_nonneg xs). cbn [fill] in Hf.
  assert (act_ok (Append os_sound x) b) as Ha by (split_and!; (done || lia)).
  destruct (push_refines os_sound b start ms x) as (b1 & r & Hp & Hc & Ht & Hr); try done; [lia|].
  rewrite Hp in Hf. destruct r as [id|e]; [|done]. destruct Hr as [_ Hr].
  pose proof (backend_rep_next _ _ _ Hr) as Hn. rewrite zlen_app, zlen_cons, zlen_nil in Hn.
  pose proof (backend_rep_next _ _ _ Hb).
  apply (IH b1); [by rewrite Hc|lia|by eexists _, _| |done].
  eapply later_act; [exact Hl|exact Ha|]. cbn. by rewrite Hp.
Qed.

Example crash_loses_third :
  QueueBackend.head crashed = 4 ∧
  match QueueBackend.new (λ _, os_sound) (QueueBackend.segment_files crashed) (Some checkpointed.2) sample_config true with
  | Done b3 => QueueBackend.head b3 = 3
  | _ => False
  end.
Proof. by vm_compute. Qed.

Lemma crash_recovers_witness :
  ∃ start2 ms2 kept new b3, backend_rep crashed start2 ms2 ∧ QueueBackend.segments crashed = kept ++ new ∧
    labels kept `suffix_of` labels (QueueBackend.segments first_backend) ∧
    Forall (λ s, QueueBackend.head first_backend ≤ Segment.tail s) new ∧
    QueueBackend.new (λ _, os_sound) (QueueBackend.segment_files crashed) (Some checkpointed.2) sample_config true = Done b3 ∧
    match kept with
    | [] => b3 = QueueBackend.mk sample_config [] 1 1
    | _ => ∃ n, backend_rep b3 start2 (take n ms2) ∧ QueueBackend.tail b3 = start2 ∧
        QueueBackend.head b3 = start2 + Z.of_nat n ∧ QueueBackend.head first_backend ≤ QueueBackend.head b3 ∧
        QueueBackend.head b3 = match new with s :: _ => Segment.tail s | [] => QueueBackend.head crashed end
    end.
Proof.
  apply (crash_recovers os_sound (λ _, os_sound) first_backend 1 (take 1 sample_msgs) false checkpointed.1 checkpointed.2 crashed
    first_backend_rep).
  - by vm_compute.
  - unfold named. apply (bool_decide_unpack _). by vm_compute.
  - unfold closed_full. apply (bool_decide_unpack _). by vm_compute.
  - by intros [].
  - by intros ? [].
  - by vm_compute.
  - apply (fill_later _ checkpointed.1 (drop 1 sample_msgs)).
    + by repeat (constructor; [by vm_compute|]).
    + by vm_compute.
    + by vm_compute.
    + exists 1, (take 1 sample_msgs). exact checkpointed_rep.
    + constructor.
    + by vm_compute.
  - unfold spare. apply (bool_decide_unpack _). by vm_compute.
Defined.
