(* ===== verification/Publish.v ===== *)
(** * Reading a segment while it is appended to

    [Queue::get] takes a reader's guard and [Queue::push] a writer's, which
    exclude neither each other nor other readers: [Segment::get] runs while
    [Segment::push] writes. Here both are sequences of the single accesses
    the code makes, in the code's order; memory is sequentially consistent,
    and the spin lock makes each use of the index one step. "[push_offset]
    is the sync point between readers and writers, do it last", says the
    code: this file shows that it is one. *)
From stdpp Require Import functions.
From S2P Require Import Prelude.
From S2P Require Import Bytes.
From S2P Require Import Offsets.
From S2P Require Import Text.
From S2P Require Import Settings.
From S2P Require Import Segments.
From S2P Require Import SegmentSpec.
From S2P Require Import SegmentFacts.
From S2P Require Import SegmentProps.
From S2P Require Import LogSpec.

Module Publish.

(** ** The writer *)

(** A [push] that found room: how many of its accesses are done, the id it
    took from [head], and its arguments. *)
Record pending : Type := mkPending {
  done_ : nat;
  id : Z;
  clock : Z;
  body : list Z;
}.

Definition set_first_timestamp (s : Segment.t) (ts : Z) : Segment.t :=
  Segment.mk (Segment.file_path s) (Segment.file_mmap s) (Segment.file_len s) (Segment.file_offset s)
    (Segment.sync_offset s) ts (Segment.last_timestamp s) (Segment.tail s) (Segment.head s)
    (Segment.closed s) (Segment.deleted s) (Segment.index s).
Definition set_last_timestamp (s : Segment.t) (ts : Z) : Segment.t :=
  Segment.mk (Segment.file_path s) (Segment.file_mmap s) (Segment.file_len s) (Segment.file_offset s)
    (Segment.sync_offset s) (Segment.first_timestamp s) ts (Segment.tail s) (Segment.head s)
    (Segment.closed s) (Segment.deleted s) (Segment.index s).
Definition set_head (s : Segment.t) (head : Z) : Segment.t :=
  Segment.mk (Segment.file_path s) (Segment.file_mmap s) (Segment.file_len s) (Segment.file_offset s)
    (Segment.sync_offset s) (Segment.first_timestamp s) (Segment.last_timestamp s) (Segment.tail s) head
    (Segment.closed s) (Segment.deleted s) (Segment.index s).
Definition set_index (s : Segment.t) (index : OffsetIndex.t) : Segment.t :=
  Segment.mk (Segment.file_path s) (Segment.file_mmap s) (Segment.file_len s) (Segment.file_offset s)
    (Segment.sync_offset s) (Segment.first_timestamp s) (Segment.last_timestamp s) (Segment.tail s)
    (Segment.head s) (Segment.closed s) (Segment.deleted s) index.

Section ops.
Context `{Profile} `{Hasher}.

(** What [push] does before it writes: an error, or a message that fits. *)
Definition begin_push (s : Segment.t) (body : list Z) (clock : Z) :
    outcome (Segment.t * result pending QueueBackendError) :=
  message_total_len ← u32 (MessageHeader.size + as_u32 (zlen body));
  room ← u32 (Segment.file_len s - Segment.file_offset s);
  if room <? message_total_len then
    least ← u32 (message_total_len + 4);
    if Segment.file_len s <=? least then mret (s, Err MessageTooBig)
    else mret (Segment.set_closed s true, Err SegmentFull)
  else mret (s, Ok (mkPending 0 (Segment.head s) clock body)).

(** The writes to the mapping, in order. *)
Definition write_field (k : nat) (m : list Z) (off : Z) (p : pending) : outcome (list Z) :=
  match k with
  | 0%nat => write_u64 m (off + 4) (id p)
  | 1%nat => write_u32 m (off + 12) (clock p)
  | 2%nat => write_u32 m (off + 16) (as_u32 (zlen (body p)))
  | 3%nat => mem_write m (off + MessageHeader.size) (body p)
  | _ => h ← Segment.hash_segment_message m off; write_u32 m off h
  end.

(** The next access of [push]; [None] when it was the last one. *)
Definition writer_step (s : Segment.t) (p : pending) : outcome (Segment.t * option pending) :=
  let next s := mret (s, Some (mkPending (S (done_ p)) (id p) (clock p) (body p))) in
  message_total_len ← u32 (MessageHeader.size + as_u32 (zlen (body p)));
  match done_ p with
  | 0%nat | 1%nat | 2%nat | 3%nat | 4%nat =>
      m ← write_field (done_ p) (Segment.file_mmap s) (Segment.file_offset s) p; next (Segment.set_mmap s m)
  | 5%nat => next (set_first_timestamp s (Segment.stamp (Segment.first_timestamp s) (clock p)))
  | 6%nat => next (set_last_timestamp s (clock p))
  | 7%nat => offset' ← u32 (Segment.file_offset s + message_total_len); next (Segment.set_file_offset s offset')
  | 8%nat => head' ← u64 (Segment.head s + 1); next (set_head s head')
  | _ =>
      start ← u32 (Segment.file_offset s - message_total_len);
      index' ← OffsetIndex.push_offset (Segment.index s) (id p) start;
      mret (set_index s index', None)
  end.

(** [n] accesses in a row. *)
Fixpoint run (n : nat) (s : Segment.t) (p : pending) : outcome (Segment.t * option pending) :=
  match n with
  | O => mret (s, Some p)
  | S n =>
      '(s, q) ← writer_step s p;
      match q with Some p => run n s p | None => mret (s, None) end
  end.

(** ** A reader

    [QueueBackend::get] on this segment: [find_segment] compares the ids,
    then [Segment::get] looks the offset up and checks what is there. *)
Inductive reader : Type :=
| Idle
| Ask (id : Z)
| Found (id : Z)
| Header (id off : Z)
| Length (id off : Z)
| Identity (id off : Z)
| Got (id : Z) (message : option Z).

Definition reader_step (s : Segment.t) (r : reader) : outcome reader :=
  match r with
  | Ask id =>
      mret (if (id <? Segment.head s) && (Segment.tail s <? Segment.head s)
            then Found (Z.max id (Segment.tail s)) else Got id None)
  | Found id =>
      found ← OffsetIndex.get_offset (Segment.index s) id;
      mret (match found with Some off => Header id off | None => Got id None end)
  | Header id off => _ ← assert (off <=? Segment.file_offset s); mret (Length id off)
  | Length id off =>
      len ← MessageHeader.len (Segment.file_mmap s) off;
      body_offset ← u32 (off + MessageHeader.size);
      message_end_offset ← u32 (body_offset + len);
      _ ← assert (message_end_offset <=? Segment.file_offset s);
      mret (Identity id off)
  | Identity id off =>
      header_id ← MessageHeader.id (Segment.file_mmap s) off;
      _ ← assert (header_id =? id);
      mret (Got id (Some off))
  | Idle | Got _ _ => mret r
  end.

(** ** In a row, the accesses are the functions of [Segments.v] *)

Lemma bind_ext {A C} (m : outcome A) (f g : A → outcome C) : (∀ a, f a = g a) → m ≫= f = m ≫= g.
Proof. intros Hfg. destruct m; [apply Hfg|done|done]. Qed.

Lemma get_steps s id :
  Segment.get s id =
    (r ← reader_step s (Found id); r ← reader_step s r; r ← reader_step s r; r ← reader_step s r;
     mret (match r with Got _ (Some off) => Ok off | _ => Err () end)).
Proof.
  unfold Segment.get. cbn [reader_step]. rewrite bind_assoc_outcome. apply bind_ext. intros [off|]; [|done].
  cbn [reader_step]. rewrite bind_Done. cbn [reader_step]. rewrite bind_assoc_outcome. apply bind_ext. intros [].
  rewrite bind_Done. cbn [reader_step]. rewrite bind_assoc_outcome. apply bind_ext. intros len.
  rewrite bind_assoc_outcome. apply bind_ext. intros bo. rewrite bind_assoc_outcome. apply bind_ext. intros eo.
  rewrite bind_assoc_outcome. apply bind_ext. intros []. rewrite bind_Done. cbn [reader_step].
  rewrite bind_assoc_outcome. apply bind_ext. intros hid. rewrite bind_assoc_outcome. by apply bind_ext.
Qed.

(** The accesses one by one, given the length. *)
Lemma run_S n s p :
  run (S n) s p = ('(s, q) ← writer_step s p; match q with Some p => run n s p | None => mret (s, None) end).
Proof. done. Qed.

Lemma run_field n s k i ts bs total :
  u32 (MessageHeader.size + as_u32 (zlen bs)) = Done total → (k < 5)%nat →
  run (S n) s (mkPending k i ts bs) =
    (m ← write_field k (Segment.file_mmap s) (Segment.file_offset s) (mkPending k i ts bs);
     run n (Segment.set_mmap s m) (mkPending (S k) i ts bs)).
Proof.
  intros Ht Hk. rewrite run_S. unfold writer_step. cbn [body done_ id clock]. rewrite Ht, bind_Done.
  do 5 (destruct k as [|k]; [by rewrite bind_assoc_outcome|]). lia.
Qed.

Lemma push_steps s bs ts :
  Segment.push s bs ts =
    ('(s, r) ← begin_push s bs ts;
     match r with
     | Ok p => '(s, _) ← run 10 s p; mret (s, Ok (id p))
     | Err e => mret (s, Err e)
     end).
Proof.
  unfold Segment.push, begin_push. destruct (u32 (MessageHeader.size + as_u32 (zlen bs))) as [total| |] eqn:Ht; [|done..].
  rewrite !bind_Done, bind_assoc_outcome. apply bind_ext. intros room. destruct (room <? total).
  { rewrite bind_assoc_outcome. apply bind_ext. intros least. by destruct (_ <=? _). }
  rewrite bind_Done. cbn zeta. unfold Segment.write_message.
  do 3 (rewrite (run_field _ _ _ _ _ _ _ Ht) by lia; cbn [write_field id clock body];
    rewrite ?bind_assoc_outcome; apply bind_ext; intros ?).
  rewrite (run_field _ _ _ _ _ _ _ Ht) by lia. cbn [write_field id clock body].
  rewrite ?bind_assoc_outcome. apply bind_ext. intros m.
  rewrite (run_field _ _ _ _ _ _ _ Ht) by lia. cbn [write_field id clock body].
  rewrite ?bind_assoc_outcome. apply bind_ext. intros h. rewrite ?bind_assoc_outcome. apply bind_ext. intros m2.
  do 2 (rewrite run_S; unfold writer_step at 1; cbn [body done_ id clock]; rewrite Ht, !bind_Done).
  rewrite run_S. unfold writer_step at 1. cbn [body done_ id clock]. rewrite Ht, bind_Done, ?bind_assoc_outcome.
  apply bind_ext. intros o. rewrite bind_Done.
  rewrite run_S. unfold writer_step at 1. cbn [body done_ id clock]. rewrite Ht, bind_Done, ?bind_assoc_outcome.
  apply bind_ext. intros hd. rewrite bind_Done.
  rewrite run_S. unfold writer_step at 1. cbn [body done_ id clock]. rewrite Ht, bind_Done, ?bind_assoc_outcome.
  apply bind_ext. intros st. rewrite ?bind_assoc_outcome. by apply bind_ext.
Qed.

End ops.
(** ** One writer and any number of readers *)

Section race.
Context `{Profile} `{Hasher}.

(** [published] are the messages whose [push] has returned. *)
Record sys : Type := mkSys {
  segment : Segment.t;
  writer : option pending;
  readers : nat → reader;
  published : list msg;
}.

Definition free (r : reader) : Prop := match r with Idle | Got _ _ => True | _ => False end.

Inductive step : sys → sys → Prop :=
| step_begin s rs ms x s' r :
    wf_msg x → msg_size x + 4 < 2 ^ 32 → begin_push s x.2 x.1 = Done (s', r) →
    step (mkSys s None rs ms) (mkSys s' (match r with Ok p => Some p | Err _ => None end) rs ms)
| step_write s p rs ms s' q :
    writer_step s p = Done (s', q) →
    step (mkSys s (Some p) rs ms)
      (mkSys s' q rs (match q with Some _ => ms | None => ms ++ [(clock p, body p)] end))
| step_ask s w rs ms a id :
    free (rs a) → 0 ≤ id < 2 ^ 63 →
    step (mkSys s w rs ms) (mkSys s w (<[a := Ask id]> rs) ms)
| step_read s w rs ms a r :
    reader_step s (rs a) = Done r →
    step (mkSys s w rs ms) (mkSys s w (<[a := r]> rs) ms).

Inductive reachable : sys → Prop :=
| reachable_start s ms n : rep s ms (replicate n 0) → reachable (mkSys s None (λ _, Idle) ms)
| reachable_step x x' : reachable x → step x x' → reachable x'.

(** *** What a reader can rely on while a message is being written *)

Record view (s : Segment.t) (ms : list msg) : Prop := {
  vi_index : Segment.index s = OffsetIndex.mk (Segment.tail s) (offsets 4 ms);
  vi_offset : 4 + total_size ms ≤ Segment.file_offset s < 2 ^ 31;
  vi_tail : 0 ≤ Segment.tail s < 2 ^ 63;
  vi_head : Segment.tail s + zlen ms ≤ Segment.head s;
  vi_wf : Forall wf_msg ms;
  vi_stored i x : ms !! i = Some x →
    stored (Segment.file_mmap s) (4 + total_size (take i ms)) (enc_msg (Segment.tail s + Z.of_nat i) x);
}.

Lemma rep_view s ms rest : rep s ms rest → view s ms.
Proof.
  intros Hr. destruct (rep_sizes _ _ _ Hr) as (Hsz & Hpos & _ & Hlt). pose proof (zlen_nonneg rest).
  pose proof (rep_len_range _ _ _ Hr). constructor; try apply Hr.
  - rewrite (rep_offset _ _ _ Hr). lia.
  - rewrite (rep_head _ _ _ Hr). lia.
  - intros i x Hi. by apply (get_present _ _ _ _ _ Hr).
Qed.

(** A write at or past the end of the published messages. *)
Lemma stored_prefix (m m' : list Z) n off bs :
  stored m off bs → off + zlen bs ≤ n → take (Z.to_nat n) m' = take (Z.to_nat n) m → stored m' off bs.
Proof.
  intros (pre & post & -> & <-) Hn Ht. exists pre, (drop (length (pre ++ bs)) m'). split; [|done].
  rewrite <-(take_drop (length (pre ++ bs)) m') at 1. rewrite app_assoc. f_equal.
  assert (length (pre ++ bs) ≤ Z.to_nat n)%nat as Hle by (rewrite length_app; unfold zlen in *; lia).
  transitivity (take (length (pre ++ bs)) (take (Z.to_nat n) m')); [by rewrite take_take, Nat.min_l|].
  by rewrite Ht, take_take, Nat.min_l, app_assoc, take_app_length by done.
Qed.

Lemma mem_write_prefix m off bs m' n :
  mem_write m off bs = Done m' → 0 ≤ n ≤ off → take (Z.to_nat n) m' = take (Z.to_nat n) m.
Proof.
  unfold mem_write. destruct (_ && _) eqn:E; [|done]. intros [= <-] Hn.
  apply andb_prop in E as [?%Z.leb_le ?%Z.leb_le]. pose proof (zlen_nonneg bs).
  rewrite take_app_le by (rewrite length_take; unfold zlen in *; lia). rewrite take_take. f_equal. lia.
Qed.

Lemma write_field_prefix k m off p m' :
  write_field k m off p = Done m' → 0 ≤ off → take (Z.to_nat off) m' = take (Z.to_nat off) m.
Proof.
  intros Hw Ho. unfold write_field, write_u64, write_u32, MessageHeader.size in Hw.
  do 4 (destruct k as [|k]; [eapply mem_write_prefix; [exact Hw|lia]|]).
  apply bind_Done_iff in Hw as (h & _ & Hw). eapply mem_write_prefix; [exact Hw|lia].
Qed.

(** *** The state in the middle of a [push] that began in [s0] *)

Record midway (s0 : Segment.t) (x : msg) (s : Segment.t) (p : pending) : Prop := {
  mw_pending : p = mkPending (done_ p) (Segment.head s0) x.1 x.2;
  mw_done : (done_ p ≤ 9)%nat;
  mw_run : run (done_ p) s0 (mkPending 0 (Segment.head s0) x.1 x.2) = Done (s, Some p);
  mw_tail : Segment.tail s = Segment.tail s0;
  mw_index : Segment.index s = Segment.index s0;
  mw_offset : Segment.file_offset s = Segment.file_offset s0 + (if Nat.leb 8 (done_ p) then msg_size x else 0);
  mw_head : Segment.head s = Segment.head s0 + (if Nat.leb 9 (done_ p) then 1 else 0);
  mw_prefix : take (Z.to_nat (Segment.file_offset s0)) (Segment.file_mmap s) =
    take (Z.to_nat (Segment.file_offset s0)) (Segment.file_mmap s0);
}.

Lemma midway_view s0 ms rest x s p :
  rep s0 ms rest → fits s0 x → wf_msg x → midway s0 x s p → view s ms.
Proof.
  intros Hr Hf Hx [_ _ _ Htl Hix Hoff Hhd Hpre]. destruct (rep_view _ _ _ Hr) as [Vi Vo Vt Vh Vw Vs].
  pose proof (rep_len_range _ _ _ Hr) as Hlen. unfold fits in Hf. pose proof (msg_size_pos x) as Hpos.
  constructor; rewrite ?Htl, ?Hix; try done.
  - rewrite Hoff. clear -Vo Hf Hlen Hpos. destruct (Nat.leb _ _); lia.
  - rewrite Hhd. clear -Vh. destruct (Nat.leb _ _); lia.
  - intros i y Hi. eapply stored_prefix; [by apply Vs| |exact Hpre].
    rewrite (rep_offset _ _ _ Hr), zlen_enc_msg, (total_size_split _ _ _ Hi).
    pose proof (total_size_nonneg (drop (S i) ms)). lia.
Qed.

Lemma run_end n s p s' p' :
  run n s p = Done (s', Some p') → run (S n) s p = writer_step s' p' .
Proof.
  revert s p. induction n as [|n IH]; intros s p.
  - intros [= <- <-]. rewrite run_S. destruct (writer_step s p) as [[s1 [q|]]| |]; done.
  - rewrite run_S. intros ([s1 [q|]] & Hw & Hr)%bind_Done_iff; [|done].
    rewrite run_S, Hw, bind_Done. by apply IH.
Qed.

(** An access that is not the last. *)
Lemma writer_goes_on s0 ms rest x s p s' q :
  rep s0 ms rest → fits s0 x → wf_msg x → midway s0 x s p → (done_ p < 9)%nat →
  writer_step s p = Done (s', q) → ∃ p', q = Some p' ∧ midway s0 x s' p'.
Proof.
  intros Hr Hf Hx [Hp Hd Hrun Htl Hix Hoff Hhd Hpre] Hlt Hw.
  pose proof (run_end _ _ _ _ _ Hrun) as Hend. rewrite Hw in Hend.
  pose proof (rep_len_range _ _ _ Hr) as Hlen. unfold fits in Hf. pose proof (msg_size_pos x) as Hpos.
  destruct (rep_sizes _ _ _ Hr) as (_ & Hts & _). pose proof (rep_offset _ _ _ Hr) as Hfo.
  pose proof (rep_head _ _ _ Hr) as Hhd0. pose proof (rep_tail _ _ _ Hr) as Htl0.
  destruct (rep_sizes _ _ _ Hr) as (_ & _ & H20 & H31). destruct Hx as [_ Hxl]. pose proof (zlen_nonneg x.2) as Hxn.
  destruct p as [k i ts bs]. cbn [done_] in *. injection Hp as -> -> ->.
  assert (u32 (MessageHeader.size + as_u32 (zlen x.2)) = Done (msg_size x)) as Ht.
  { unfold msg_size, MessageHeader.size in *. rewrite as_u32_in by (unfold in_u32; lia). apply u32_in. unfold in_u32; lia. }
  unfold writer_step in Hw. cbn [done_ id clock body] in Hw. rewrite Ht, bind_Done in Hw.
  destruct k as [|[|[|[|[|[|[|[|[|k]]]]]]]]]; [..|lia]; cbn [Nat.leb] in Hoff, Hhd;
    try (apply bind_Done_iff in Hw as (m & Hm & [= <- <-]);
      eexists; split; [done|]; constructor; cbn -[run]; try done; try lia;
      rewrite <-Hpre; replace (Segment.file_offset s0) with (Segment.file_offset s) by lia;
      eapply write_field_prefix; [exact Hm|lia]).
  - injection Hw as <- <-. eexists. split; [done|]. by constructor.
  - injection Hw as <- <-. eexists. split; [done|]. by constructor.
  - rewrite u32_in in Hw by (unfold in_u32; lia).
    injection Hw as <- <-. eexists. split; [done|]. constructor; cbn -[run]; try done; lia.
  - rewrite u64_in in Hw by (unfold in_u64, zlen in *; lia).
    injection Hw as <- <-. eexists. split; [done|]. constructor; cbn -[run]; try done; lia.
Qed.

Lemma run_prefix n m s p r : run (n + m) s p = Done r → ∃ r', run n s p = Done r'.
Proof.
  revert s p. induction n as [|n IH]; intros s p; [by eexists|]. cbn [Nat.add]. rewrite !run_S.
  intros ([s1 [q|]] & Hw & Hr)%bind_Done_iff; rewrite Hw, bind_Done; [by eapply IH|by eexists].
Qed.

(** The whole [push] of a message that fits. *)
Lemma run_whole s0 ms rest x :
  rep s0 ms rest → wf_msg x → fits s0 x →
  begin_push s0 x.2 x.1 = Done (s0, Ok (mkPending 0 (Segment.head s0) x.1 x.2)) ∧
  ∃ s' q, run 10 s0 (mkPending 0 (Segment.head s0) x.1 x.2) = Done (s', q) ∧
    rep s' (ms ++ [x]) (drop (Z.to_nat (msg_size x)) rest).
Proof.
  intros Hr Hx Hf. destruct (push_fits _ _ _ _ Hr Hx Hf) as (s' & Hp & Hr' & _).
  assert (begin_push s0 x.2 x.1 = Done (s0, Ok (mkPending 0 (Segment.head s0) x.1 x.2))) as Hb.
  { rewrite push_steps in Hp. unfold begin_push in *.
    destruct (u32 (MessageHeader.size + _)) as [total| |] eqn:Ht; [|done..]. rewrite bind_Done in *.
    destruct (u32 (Segment.file_len s0 - _)) as [room| |]; [|done..]. rewrite bind_Done in *.
    destruct (room <? total); [|done]. exfalso.
    destruct (u32 (total + 4)) as [least| |]; [|done..]. rewrite bind_Done in Hp. by destruct (_ <=? _). }
  split; [done|]. rewrite push_steps, Hb, bind_Done in Hp. apply bind_Done_iff in Hp as ([s1 q] & Hrun & [= ->]).
  by exists s', q.
Qed.

(** Every access goes through, and the last one completes the message. *)
Lemma writer_progress s0 ms rest x s p :
  rep s0 ms rest → fits s0 x → wf_msg x → midway s0 x s p →
  ∃ s' q, writer_step s p = Done (s', q) ∧
    match q with
    | Some p' => midway s0 x s' p'
    | None => rep s' (ms ++ [x]) (drop (Z.to_nat (msg_size x)) rest)
    end.
Proof.
  intros Hr Hf Hx Hm. destruct (run_whole _ _ _ _ Hr Hx Hf) as (_ & s1 & q1 & Hrun & Hr1).
  pose proof (run_end _ _ _ _ _ (mw_run _ _ _ _ Hm)) as Hend. pose proof (mw_done _ _ _ _ Hm) as Hd.
  destruct (run_prefix (S (done_ p)) (9 - done_ p) s0 (mkPending 0 (Segment.head s0) x.1 x.2) (s1, q1)) as ([s' q] & Hpre).
  { replace (S (done_ p) + (9 - done_ p))%nat with 10%nat by lia. done. }
  rewrite Hend in Hpre. exists s', q. split; [done|]. destruct (decide (done_ p < 9)%nat) as [Hlt|Hge].
  - by destruct (writer_goes_on _ _ _ _ _ _ _ _ Hr Hf Hx Hm Hlt Hpre) as (p' & -> & Hm').
  - assert (done_ p = 9%nat) as H9 by lia. rewrite H9 in Hend. rewrite Hend, Hpre in Hrun. injection Hrun as -> ->.
    assert (q1 = None) as ->; [|done]. unfold writer_step in Hpre. rewrite H9 in Hpre.
    apply bind_Done_iff in Hpre as (? & _ & (? & _ & (? & _ & [= _ <-])%bind_Done_iff)%bind_Done_iff). done.
Qed.

(** *** The invariant *)

Definition writer_ok (s : Segment.t) (w : option pending) (ms : list msg) : Prop :=
  match w with
  | None => ∃ rest, rep s ms rest
  | Some p => ∃ s0 rest x, rep s0 ms rest ∧ fits s0 x ∧ wf_msg x ∧ midway s0 x s p
  end.

(** The message a reader is at is published. *)
Definition at_message (s : Segment.t) (ms : list msg) (id off : Z) : Prop :=
  ∃ i x, id = Segment.tail s + Z.of_nat i ∧ ms !! i = Some x ∧ off = 4 + total_size (take i ms).

Definition reader_ok (s : Segment.t) (ms : list msg) (r : reader) : Prop :=
  match r with
  | Idle | Got _ None => True
  | Ask id => 0 ≤ id < 2 ^ 63
  | Found id => Segment.tail s ≤ id < 2 ^ 63
  | Header id off | Length id off | Identity id off | Got id (Some off) => at_message s ms id off
  end.

Record sys_inv (x : sys) : Prop := {
  si_writer : writer_ok (segment x) (writer x) (published x);
  si_readers a : reader_ok (segment x) (published x) (readers x a);
}.

Lemma writer_view s w ms : writer_ok s w ms → view s ms.
Proof.
  destruct w as [p|]; [|by intros [rest Hr%rep_view]].
  intros (s0 & rest & x & Hr & Hf & Hx & Hm). by eapply midway_view.
Qed.

Lemma at_message_grow s s' ms ms' id off :
  Segment.tail s' = Segment.tail s → at_message s ms id off → at_message s' (ms ++ ms') id off.
Proof.
  intros Ht (i & x & -> & Hi & ->). exists i, x. rewrite Ht. split_and!; [done|by apply lookup_app_l_Some|].
  apply lookup_lt_Some in Hi. by rewrite take_app_le by lia.
Qed.

Lemma reader_ok_grow s s' ms ms' r :
  Segment.tail s' = Segment.tail s → reader_ok s ms r → reader_ok s' (ms ++ ms') r.
Proof.
  intros Ht. destruct r as [|id|id|id off|id off|id off|id [off|]]; cbn; rewrite ?Ht; try done;
    by apply at_message_grow.
Qed.

(** A reader's next access goes through. *)
Lemma reader_progress s ms r :
  view s ms → reader_ok s ms r → ∃ r', reader_step s r = Done r' ∧ reader_ok s ms r'.
Proof.
  intros [Vi Vo Vt Vh Vw Vs].
  assert (∀ id off, at_message s ms id off → ∃ x, stored (Segment.file_mmap s) off (enc_msg id x) ∧ wf_msg x ∧
    in_u64 id ∧ 4 ≤ off ∧ off + msg_size x ≤ Segment.file_offset s ∧ 20 ≤ msg_size x) as Hat.
  { intros id off (i & x & -> & Hi & ->). exists x. pose proof (Vs _ _ Hi) as Hst.
    pose proof (Forall_lookup_1 _ _ _ _ Vw Hi) as Hx. rewrite (total_size_split _ _ _ Hi) in Vo.
    pose proof (total_size_nonneg (take i ms)). pose proof (total_size_nonneg (drop (S i) ms)).
    pose proof (total_size_ge (take i ms)) as Hge. apply lookup_lt_Some in Hi.
    pose proof (msg_size_pos x). unfold zlen in Hge. rewrite length_take, Nat.min_l in Hge by lia.
    split_and!; try done; unfold in_u64; lia. }
  destruct r as [|id|id|id off|id off|id off|id [off|]]; cbn [reader_step reader_ok]; intros Hr.
  - by eexists.
  - destruct ((id <? Segment.head s) && (Segment.tail s <? Segment.head s)); eexists; (split; [done|]); cbn; [lia|done].
  - rewrite Vi, OffsetIndex.get_offset_in by (unfold in_u64; cbn; lia). rewrite bind_Done. cbn.
    destruct (offsets 4 ms !! Z.to_nat (id - Segment.tail s)) as [off|] eqn:Ho; eexists; (split; [done|]); [|done].
    assert (is_Some (ms !! Z.to_nat (id - Segment.tail s))) as [x Hx].
    { apply lookup_lt_is_Some_2. apply lookup_lt_Some in Ho. pose proof (zlen_offsets 4 ms). unfold zlen in *. lia. }
    rewrite (offsets_lookup _ _ _ _ Hx) in Ho. injection Ho as <-. cbn.
    exists (Z.to_nat (id - Segment.tail s)), x. split_and!; [lia|done|done].
  - destruct (Hat _ _ Hr) as (x & Hst & Hx & Hid & H4 & Hend & H20).
    rewrite assert_true, bind_Done by lia. by eexists.
  - destruct (Hat _ _ Hr) as (x & Hst & Hx & Hid & H4 & Hend & H20). rewrite (header_len _ _ _ _ Hst Hx).
    unfold msg_size, MessageHeader.size in *. pose proof (zlen_nonneg x.2). mint.
    rewrite assert_true, bind_Done by lia. by eexists.
  - destruct (Hat _ _ Hr) as (x & Hst & Hx & Hid & H4 & Hend & H20). rewrite (header_id _ _ _ _ Hst Hid), bind_Done.
    rewrite assert_true, bind_Done by lia. by eexists.
  - by eexists.
  - by eexists.
Qed.

Lemma begin_ok s ms rest x :
  rep s ms rest → wf_msg x → msg_size x + 4 < 2 ^ 32 →
  ∃ s' r, begin_push s x.2 x.1 = Done (s', r) ∧ Segment.tail s' = Segment.tail s ∧
    writer_ok s' (match r with Ok p => Some p | Err _ => None end) ms.
Proof.
  intros Hr Hx Hbig. destruct (decide (fits s x)) as [Hf|Hf].
  - destruct (run_whole _ _ _ _ Hr Hx Hf) as (Hb & _). eexists s, _. split; [exact Hb|]. split; [done|].
    exists s, rest, x. split_and!; try done. constructor; cbn; try done; lia.
  - destruct (rep_sizes _ _ _ Hr) as (Hsz & Hpos & _). pose proof (rep_offset _ _ _ Hr). pose proof (zlen_nonneg rest).
    pose proof (rep_len_range _ _ _ Hr). pose proof (zlen_nonneg x.2). destruct Hx as [_ Hx].
    unfold fits, msg_size, begin_push in *. unfold MessageHeader.size in *. mint.
    rewrite (proj2 (Z.ltb_lt _ _)) by lia. mint.
    destruct (_ <=? _); eexists _, _; (split; [done|]); (split; [done|]); exists rest; [done|by apply rep_set_closed].
Qed.

Lemma publish_step_inv x x' : sys_inv x → step x x' → sys_inv x'.
Proof.
  intros [Hw Hrd] Hst. destruct Hst as [s rs ms y s' r Hy Hbig Hb|s p rs ms s' q Hs|s w rs ms a id Hf Hid|s w rs ms a r Hr]; cbn in *.
  - destruct Hw as [rest Hrep]. destruct (begin_ok _ _ _ _ Hrep Hy Hbig) as (s2 & r2 & Hb2 & Ht & Hok).
    rewrite Hb in Hb2. injection Hb2 as <- <-. constructor; cbn; [done|]. intros a. rewrite <-(app_nil_r ms).
    by apply (reader_ok_grow s).
  - destruct Hw as (s0 & rest & y & Hrep & Hf & Hy & Hm).
    destruct (writer_progress _ _ _ _ _ _ Hrep Hf Hy Hm) as (s2 & q2 & Hs2 & Hok). rewrite Hs in Hs2. injection Hs2 as <- <-.
    assert (Segment.tail s' = Segment.tail s) as Ht.
    { unfold writer_step in Hs. apply bind_Done_iff in Hs as (t & _ & Hs).
      destruct (done_ p) as [|[|[|[|[|[|[|[|[|k]]]]]]]]];
        repeat match goal with Hb : _ ≫= _ = Done _ |- _ => apply bind_Done_iff in Hb as (? & _ & Hb) end;
        by injection Hs as <- _. }
    destruct q as [p'|]; constructor; cbn.
    + by exists s0, rest, y.
    + intros a. rewrite <-(app_nil_r ms). by apply (reader_ok_grow s).
    + rewrite (mw_pending _ _ _ _ Hm). cbn. rewrite <-surjective_pairing. by eexists.
    + intros a. by apply (reader_ok_grow s).
  - constructor; cbn; [done|]. intros b. destruct (decide (a = b)) as [<-|Hne];
      [by rewrite fn_lookup_insert|by rewrite fn_lookup_insert_ne].
  - constructor; cbn; [done|]. intros b. destruct (decide (a = b)) as [<-|Hne];
      [rewrite fn_lookup_insert|by rewrite fn_lookup_insert_ne].
    destruct (reader_progress _ _ _ (writer_view _ _ _ Hw) (Hrd a)) as (r' & Hr' & Hok). congruence.
Qed.

Lemma reachable_publish_inv x : reachable x → sys_inv x.
Proof. induction 1 as [s ms n Hr|]; [|by eapply publish_step_inv]. constructor; cbn; [by eexists|done]. Qed.

(** ** Theorem *)

(** C11: Reading a segment while messages are appended to it. Whatever the
    interleaving of the accesses of one [push] and of any number of [get]s,
    none of them panics or leaves the mapping; a [get] that returns a message
    returns one whose [push] has returned, complete and with its id; and a
    [get] that finds nothing does so at a moment when no message of that id
    was published. *)
Theorem get_while_pushing x :
  reachable x →
  (∀ p, writer x = Some p → ∃ s q, writer_step (segment x) p = Done (s, q)) ∧
  (∀ a, ∃ r, reader_step (segment x) (readers x a) = Done r) ∧
  (∀ a id off, readers x a = Got id (Some off) →
    ∃ y, published x !! Z.to_nat (id - Segment.tail (segment x)) = Some y ∧
      message_is (Message.mk (segment x) off) id y) ∧
  (∀ a id, reader_step (segment x) (readers x a) = Done (Got id None) →
    free (readers x a) ∨ Segment.tail (segment x) + zlen (published x) ≤ id ∨ published x = []).
Proof.
  intros [Hw Hrd]%reachable_publish_inv. pose proof (writer_view _ _ _ Hw) as Hv. split_and!.
  - intros p Hp. rewrite Hp in Hw. destruct Hw as (s0 & rest & y & Hr & Hf & Hy & Hm).
    destruct (writer_progress _ _ _ _ _ _ Hr Hf Hy Hm) as (s' & q & Hs & _). by exists s', q.
  - intros a. destruct (reader_progress _ _ _ Hv (Hrd a)) as (r & Hr & _). by exists r.
  - intros a id off Ha. specialize (Hrd a). rewrite Ha in Hrd. destruct Hrd as (i & y & -> & Hi & ->).
    exists y. replace (Z.to_nat _) with i by lia. split; [done|].
    pose proof (vi_tail _ _ Hv). pose proof (vi_offset _ _ Hv) as Ho. apply lookup_lt_Some in Hi as Hlt.
    pose proof (total_size_ge (published x)) as Hge. apply message_fields; cbn.
    + by apply (vi_stored _ _ Hv).
    + unfold in_u64, zlen in *. lia.
    + by eapply Forall_lookup_1; [apply (vi_wf _ _ Hv)|].
  - intros a id Hstep. specialize (Hrd a).
    destruct (readers x a) as [|id'|id'|id' off|id' off|id' off|id' [off|]]; cbn [reader_step] in Hstep; try (by left).
    + destruct (_ && _) eqn:E; [done|]. injection Hstep as ->. right.
      pose proof (vi_head _ _ Hv). pose proof (zlen_nonneg (published x)).
      destruct (published x) as [|y ms] eqn:Hm; [by right|]. left. rewrite zlen_cons in *. pose proof (zlen_nonneg ms). lia.
    + rewrite (vi_index _ _ Hv) in Hstep. cbn in Hrd. pose proof (vi_tail _ _ Hv).
      rewrite OffsetIndex.get_offset_in in Hstep by (unfold in_u64; cbn; lia). rewrite bind_Done in Hstep. cbn in Hstep.
      destruct (offsets _ _ !! _) as [off|] eqn:Ho; [done|]. injection Hstep as ->. right. left.
      apply lookup_ge_None_1 in Ho. pose proof (zlen_offsets 4 (published x)). unfold zlen in *. lia.
    + by apply bind_Done_iff in Hstep as (? & _ & ?).
    + exfalso. clear -Hstep. repeat match goal with Hb : _ ≫= _ = Done _ |- _ => apply bind_Done_iff in Hb as (? & _ & Hb) end. done.
    + by apply bind_Done_iff in Hstep as (? & _ & (? & _ & ?)%bind_Done_iff).
Qed.

End race.

(** ** A run at concrete inputs

    A segment with one message; the second is written while reader 0 asks
    for it twice and reader 1 for the first. *)
#[local] Existing Instance dev_profile.
#[local] Existing Instance sum_hasher.

Inductive act : Type :=
| Begin (x : msg)
| Write
| AskFor (a : nat) (id : Z)
| Read (a : nat).

Definition free_b (r : reader) : bool := match r with Idle | Got _ _ => true | _ => false end.

Definition perform (x : sys) (t : act) : option sys :=
  match t with
  | Begin m =>
      match writer x with
      | Some _ => None
      | None =>
          if bool_decide (0 ≤ m.1 < 2 ^ 32) && (msg_size m + 4 <? 2 ^ 32) then
            match begin_push (segment x) m.2 m.1 with
            | Done (s, r) => Some (mkSys s (match r with Ok p => Some p | Err _ => None end) (readers x) (published x))
            | _ => None
            end
          else None
      end
  | Write =>
      match writer x with
      | Some p =>
          match writer_step (segment x) p with
          | Done (s, q) =>
              Some (mkSys s q (readers x) (match q with Some _ => published x | None => published x ++ [(clock p, body p)] end))
          | _ => None
          end
      | None => None
      end
  | AskFor a id =>
      if free_b (readers x a) && (0 <=? id) && (id <? 2 ^ 63)
      then Some (mkSys (segment x) (writer x) (<[a := Ask id]> (readers x)) (published x)) else None
  | Read a =>
      match reader_step (segment x) (readers x a) with
      | Done r => Some (mkSys (segment x) (writer x) (<[a := r]> (readers x)) (published x))
      | _ => None
      end
  end.

Lemma act_step x t x' : perform x t = Some x' → step x x'.
Proof.
  destruct x as [s w rs ms], t as [m| |a i|a]; cbn.
  - destruct w; [done|]. destruct (_ && _) eqn:E; [|done]. apply andb_true_iff in E as [Hm%bool_decide_eq_true_1 Hb].
    destruct (begin_push s m.2 m.1) as [[s' r]| |] eqn:Hp; [|done..]. intros [= <-].
    apply (step_begin s rs ms m); [|lia|done]. unfold wf_msg, in_u32, msg_size in *. split; lia.
  - destruct w as [p|]; [|done]. destruct (writer_step s p) as [[s' q]| |] eqn:Hp; [|done..]. intros [= <-].
    by apply step_write.
  - destruct (free_b (rs a) && _ && _) eqn:E; [|done]. intros [= <-].
    apply step_ask; [destruct (rs a); (done || lia)|lia].
  - destruct (reader_step s (rs a)) as [r| |] eqn:Hr; [|done..]. intros [= <-]. by apply step_read.
Qed.

Definition perform_all (x : option sys) (script : list act) : option sys :=
  foldl (λ x t, x ← x; perform x t) x script.

Lemma script_reachable script x x' :
  (∀ y, x = Some y → reachable y) → perform_all x script = Some x' → reachable x'.
Proof.
  revert x. induction script as [|t script IH]; intros x Hx; cbn; [apply Hx|].
  intros Hr. eapply IH; [|exact Hr]. intros y (z & -> & Hp)%bind_Some.
  eapply reachable_step; [by apply Hx|by eapply act_step].
Qed.

Definition sample_start : sys := mkSys (fill [(6, B "one")]) None (λ _, Idle) [(6, B "one")].

Lemma sample_start_reachable : reachable sample_start.
Proof.
  apply (reachable_start _ _ 37). constructor; cycle 3; [by vm_compute|..]; cycle 1; [by vm_compute|..]; cycle 3.
  { by repeat (constructor; [by vm_compute|]). }
  all: vm_compute; reflexivity.
Qed.

(** The head has moved, the index has not: reader 0 finds nothing, and
    reader 1 is about to check the first message. *)
Definition script : list act :=
  [Begin (7, B "two")] ++ replicate 9 Write ++ [AskFor 0 2; Read 0; Read 0; AskFor 1 0; Read 1; Read 1].
Definition sample_race : sys := default sample_start (perform_all (Some sample_start) script).

Lemma sample_race_reachable : reachable sample_race.
Proof. apply (script_reachable script (Some sample_start)); [intros y [= <-]; apply sample_start_reachable|by vm_compute]. Qed.

Example sample_race_state :
  readers sample_race 0%nat = Got 2 None ∧ readers sample_race 1%nat = Header 1 4 ∧
  Segment.head (segment sample_race) = 3 ∧ published sample_race = [(6, B "one")].
Proof. by vm_compute. Qed.

Lemma get_while_pushing_witness :
  (∀ p, writer sample_race = Some p → ∃ s q, writer_step (segment sample_race) p = Done (s, q)) ∧
  (∀ a, ∃ r, reader_step (segment sample_race) (readers sample_race a) = Done r) ∧
  (∀ a id off, readers sample_race a = Got id (Some off) →
    ∃ y, published sample_race !! Z.to_nat (id - Segment.tail (segment sample_race)) = Some y ∧
      message_is (Message.mk (segment sample_race) off) id y) ∧
  (∀ a id, reader_step (segment sample_race) (readers sample_race a) = Done (Got id None) →
    free (readers sample_race a) ∨
    Segment.tail (segment sample_race) + zlen (published sample_race) ≤ id ∨ published sample_race = []).
Proof. exact (get_while_pushing sample_race sample_race_reachable). Defined.

End Publish.
