(* ===== verification/Refs.v ===== *)
(** * The lifetime of a segment ([Arc<Segment>])

    The segments of a backend are shared by reference counts: [find_segment]
    clones the reference of a segment into the [Message] it hands out, and a
    worker or the event loop drops it when the message was sent. The garbage
    collection takes segments out of the list and waits until it holds the
    last reference of each before it deletes it; dropping the last reference
    unmaps the file. A message is a pointer into the mapping, so it must not
    outlive it. [QueueBackend.delete] and [QueueBackend.gc] (file
    [Backend.v]) are what this does when nobody holds a message. *)
From S2P Require Import Prelude.

Module Refs.
#[local] Arguments Nat.eq_dec : simpl never.

(** Segments are numbered in the order they are created. *)
Abbreviation segment := nat.
Abbreviation agent := nat.

Record t : Type := mk {
  (** [QueueBackend::segments] *)
  segments : list segment;
  (** the segments [gc] or [delete] drained and did not delete yet *)
  drained : list segment;
  (** the references of messages, and of the checkpoint's copy of the list *)
  held : list (agent * segment);
  mapped : gset segment;
  (** the data files on disk, and the segments with [deleted] set *)
  files : gset segment;
  deleted : gset segment;
  next : segment;
}.

Definition new : t := mk [] [] [] ∅ ∅ ∅ 0.

(** [Arc::strong_count] *)
Definition references (x : t) : list segment := segments x ++ drained x ++ (held x).*2.
Definition strong_count (x : t) (s : segment) : nat := count_occ Nat.eq_dec (references x) s.

(** Dropping a reference of [s] that was just taken away: the last one runs
    [Drop for Segment]. *)
Definition release (s : segment) (x : t) : t :=
  if decide (strong_count x s = 0%nat) then
    mk (segments x) (drained x) (held x) (mapped x ∖ {[s]})
      (if decide (s ∈ deleted x) then files x ∖ {[s]} else files x) (deleted x) (next x)
  else x.

(** [Segment::create] and [segments.write().push]. *)
Definition push_segment (x : t) : t :=
  mk (segments x ++ [next x]) (drained x) (held x) ({[next x]} ∪ mapped x) ({[next x]} ∪ files x)
    (deleted x) (S (next x)).

(** [find_segment] under the read lock: any segment of the list. *)
Definition clone_ref (a : agent) (s : segment) (x : t) : t :=
  mk (segments x) (drained x) ((a, s) :: held x) (mapped x) (files x) (deleted x) (next x).

(** A message goes to another thread. *)
Definition send_ref (a b : agent) (s : segment) (l1 l2 : list (agent * segment)) (x : t) : t :=
  mk (segments x) (drained x) (l1 ++ (b, s) :: l2) (mapped x) (files x) (deleted x) (next x).

Definition drop_ref (s : segment) (l1 l2 : list (agent * segment)) (x : t) : t :=
  release s (mk (segments x) (drained x) (l1 ++ l2) (mapped x) (files x) (deleted x) (next x)).

(** [locked_segments.drain(..n)]; [delete] drains them all. *)
Definition drain (n : nat) (x : t) : t :=
  mk (drop n (segments x)) (drained x ++ take n (segments x)) (held x) (mapped x) (files x) (deleted x) (next x).

(** [wait_delete_segment] on the next drained segment: [None] is one more
    round of the waiting loop. *)
Definition wait_delete_segment (x : t) : outcome (option t) :=
  match drained x with
  | [] => mret None
  | s :: rest =>
      if (1 <? strong_count x s)%nat then mret None
      else
        _ ← assert (bool_decide (s ∉ deleted x));
        mret (Some (release s
          (mk (segments x) rest (held x) (mapped x) (files x) ({[s]} ∪ deleted x) (next x))))
  end.

Inductive step : t → t → Prop :=
| step_push x : step x (push_segment x)
| step_find x a s : s ∈ segments x → step x (clone_ref a s x)
| step_send x a b s l1 l2 : held x = l1 ++ (a, s) :: l2 → step x (send_ref a b s l1 l2 x)
| step_drop x a s l1 l2 : held x = l1 ++ (a, s) :: l2 → step x (drop_ref s l1 l2 x)
| step_drain x n : (n ≤ length (segments x))%nat → drained x = [] → step x (drain n x)
| step_delete x x' : wait_delete_segment x = Done (Some x') → step x x'.

Inductive reachable : t → Prop :=
| reachable_new : reachable new
| reachable_step x x' : reachable x → step x x' → reachable x'.

(** *** The invariant *)

Record refs_inv (x : t) : Prop := {
  ri_owned : NoDup (segments x ++ drained x);
  (** what is referenced is mapped, and nothing else *)
  ri_mapped s : s ∈ mapped x ↔ s ∈ references x;
  ri_files : mapped x ⊆ files x;
  (** a segment is marked only by who drops its last reference *)
  ri_deleted s : s ∈ deleted x → s ∉ references x ∧ s ∉ files x;
  ri_next s : s ∈ references x ∨ s ∈ deleted x → (s < next x)%nat;
}.

Lemma strong_count_0 x s : strong_count x s = 0%nat ↔ s ∉ references x.
Proof.
  unfold strong_count. rewrite list_elem_of_In. pose proof (count_occ_In Nat.eq_dec (references x) s) as Hc.
  split; [intros H0 Hin%Hc; lia|]. intros Hn. destruct (count_occ _ _ _) eqn:E; [done|]. exfalso. apply Hn, Hc. lia.
Qed.

(** Taking one reference of [s] away and releasing it. *)
Lemma release_inv x x0 s :
  refs_inv x0 → references x0 ≡ₚ s :: references x → NoDup (segments x ++ drained x) →
  mapped x = mapped x0 → files x = files x0 → next x = next x0 →
  (deleted x = deleted x0 ∨ deleted x = {[s]} ∪ deleted x0 ∧ s ∉ references x) →
  refs_inv (release s x).
Proof.
  intros [Ho Hm Hf Hd Hn] Hp Hnd Em Ef En Ed. pose proof (strong_count_0 x s) as H0.
  assert (∀ r, r ∈ references x0 ↔ r = s ∨ r ∈ references x) as Hr.
  { intros r. rewrite Hp. apply elem_of_cons. }
  unfold release. destruct (decide _) as [Hz|Hz].
  - apply H0 in Hz. constructor; cbn -[references]; change (references (mk _ _ _ _ _ _ _)) with (references x).
    + done.
    + intros r. rewrite Em, elem_of_difference, elem_of_singleton, Hm, Hr. split; [tauto|].
      intros Hin. split; [by right|by intros ->].
    + rewrite Em, Ef. destruct (decide _); set_solver.
    + intros r Hrd. assert (r = s ∨ r ∈ deleted x0) as [->|Hr0] by (destruct Ed as [Ed|[Ed _]]; rewrite Ed in Hrd; set_solver).
      * rewrite decide_True by done. split; [done|set_solver].
      * destruct (Hd _ Hr0) as [Hn1 Hn2]. rewrite Hr in Hn1. split; [tauto|]. rewrite Ef. destruct (decide _); set_solver.
    + intros r Hrx. rewrite En. apply Hn. rewrite Hr. destruct Ed as [Ed|[Ed _]]; rewrite Ed in Hrx; set_solver.
  - destruct Ed as [Ed|[_ Hns]]; [|by destruct Hz; apply H0]. rewrite H0 in Hz.
    assert (s ∈ references x) as Hs by (destruct (decide (s ∈ references x)); [done|tauto]).
    constructor; rewrite ?Em, ?Ef, ?En, ?Ed; try done.
    + intros r. rewrite Hm, Hr. split; [intros [->|]; done|by right].
    + intros r Hrd. destruct (Hd _ Hrd) as [Hn1 Hn2]. split; [|done]. rewrite Hr in Hn1. tauto.
    + intros r Hrx. apply Hn. rewrite Hr. tauto.
Qed.

Lemma refs_step_inv x x' : refs_inv x → step x x' → refs_inv x'.
Proof.
  intros Hx Hst. pose proof Hx as [Ho Hm Hf Hd Hn].
  destruct Hst as [x|x a s Hs|x a b s l1 l2 Hh|x a s l1 l2 Hh|x n Hle Hdr|x x' Hw].
  - assert (next x ∉ references x) as Hfresh by (intros Hin; by destruct (Nat.lt_irrefl _ (Hn _ (or_introl Hin)))).
    assert (∀ r, r ∈ references (push_segment x) ↔ r = next x ∨ r ∈ references x) as Hr.
    { intros r. unfold references. cbn. set_solver. }
    constructor; [cbn|intros r; rewrite Hr; cbn; set_solver|cbn; set_solver|intros r; rewrite Hr; cbn|intros r; rewrite Hr; cbn].
    + rewrite <-app_assoc. apply NoDup_app. unfold references in Hfresh. apply NoDup_app in Ho as (H1 & H2 & H3).
      split_and!; [done|set_solver|]. constructor; [set_solver|done].
    + intros Hrd. destruct (Hd _ Hrd). assert (r ≠ next x); [|set_solver].
      intros ->. by destruct (Nat.lt_irrefl _ (Hn _ (or_intror Hrd))).
    + intros [[->|?]|?]; [lia| |]; (transitivity (next x); [apply Hn; tauto|lia]).
  - assert (∀ r, r ∈ references (clone_ref a s x) ↔ r ∈ references x) as Hr.
    { intros r. unfold references. cbn. set_solver. }
    constructor; cbn -[references]; [done|intros r; rewrite Hr; apply Hm|done|intros r; rewrite Hr; apply Hd|intros r; rewrite Hr; apply Hn].
  - assert (references (send_ref a b s l1 l2 x) = references x) as Hr.
    { unfold references. cbn. by rewrite Hh, !fmap_app. }
    constructor; rewrite ?Hr; done.
  - eapply release_inv; [exact Hx| |done..|by left]. unfold references. cbn. rewrite Hh, !fmap_app. cbn. solve_Permutation.
  - assert (references (drain n x) ≡ₚ references x) as Hr.
    { unfold references. cbn. rewrite <-(take_drop n (segments x)) at 3. solve_Permutation. }
    constructor; [|intros r; rewrite Hr; apply Hm|done|intros r; rewrite Hr; apply Hd|intros r; rewrite Hr; apply Hn].
    cbn. rewrite Hdr in *. rewrite app_nil_r in Ho. cbn. rewrite <-(take_drop n (segments x)) in Ho.
    by rewrite (Permutation_app_comm (drop n _)).
  - unfold wait_delete_segment in Hw. destruct (drained x) as [|s rest] eqn:Edr; [done|].
    destruct (Nat.ltb_spec 1 (strong_count x s)) as [|Hc]; [done|]. apply bind_Done_iff in Hw as (_ & _ & [= <-]).
    eapply release_inv; [exact Hx| | |done..|].
    + unfold references. cbn. rewrite Edr. cbn. solve_Permutation.
    + cbn. rewrite <-Permutation_middle in Ho. by apply NoDup_cons in Ho as [_ ?].
    + right. split; [done|]. unfold strong_count, references in *. rewrite Edr in Hc. cbn in *.
      rewrite !list_elem_of_In, (count_occ_not_In Nat.eq_dec). rewrite !count_occ_app in *. cbn in Hc.
      rewrite count_occ_app in Hc. destruct (Nat.eq_dec s s); [lia|done].
Qed.

Lemma reachable_refs_inv x : reachable x → refs_inv x.
Proof.
  induction 1; [|by eapply refs_step_inv]. constructor; cbn; try done; [constructor|set_solver..].
Qed.

(** *** Who waits for a segment *)

Lemma drained_count x s rest :
  refs_inv x → drained x = s :: rest → strong_count x s = S (count_occ Nat.eq_dec (held x).*2 s).
Proof.
  intros [Ho _ _ _ _] Hd. rewrite Hd in Ho. unfold strong_count, references. rewrite Hd, !count_occ_app.
  apply NoDup_app in Ho as (_ & Hns & Hnd). apply NoDup_cons in Hnd as [Hr _]. cbn.
  assert (count_occ Nat.eq_dec (segments x) s = 0%nat) as ->.
  { apply count_occ_not_In. rewrite <-list_elem_of_In. intros Hin. apply (Hns s Hin). left. }
  assert (count_occ Nat.eq_dec rest s = 0%nat) as -> by (by apply count_occ_not_In; rewrite <-list_elem_of_In).
  destruct (Nat.eq_dec s s); [lia|done].
Qed.

(** Nobody takes a new reference of a drained segment. *)
Lemma drained_no_new x x' s rest :
  refs_inv x → step x x' → drained x = s :: rest → s ∈ drained x' →
  (count_occ Nat.eq_dec (held x').*2 s ≤ count_occ Nat.eq_dec (held x).*2 s)%nat.
Proof.
  intros [Ho _ _ _ _] Hst Hd Hs'. rewrite Hd in Ho. apply NoDup_app in Ho as (_ & Hns & _).
  assert (∀ r y, held (release r y) = held y) as Hrel by (intros r y; unfold release; by case_decide).
  destruct Hst as [x|x a r Hr|x a b r l1 l2 Hh|x a r l1 l2 Hh|x n Hle Hdr|x x' Hw]; cbn [held push_segment clone_ref send_ref drain] in *.
  - lia.
  - cbn. destruct (Nat.eq_dec r s) as [->|]; [|lia]. exfalso. apply (Hns s Hr). left.
  - rewrite Hh, !fmap_app. cbn. rewrite !count_occ_app. cbn. destruct (Nat.eq_dec r s); lia.
  - unfold drop_ref. rewrite Hrel. cbn. rewrite Hh, !fmap_app. cbn. rewrite !count_occ_app. cbn. destruct (Nat.eq_dec r s); lia.
  - lia.
  - unfold wait_delete_segment in Hw. rewrite Hd in Hw. destruct (_ <? _)%nat; [done|].
    apply bind_Done_iff in Hw as (_ & _ & [= <-]). by rewrite Hrel.
Qed.

(** *** Theorems *)

(** C19: No reader is left with a pointer into an unmapped file: in every
    reachable state the segment of every message is mapped and its file on
    disk, whatever collections went on meanwhile; and the collection neither
    trips over [assert!(!self.deleted)] nor deletes a segment of the list. *)
Theorem no_dangling_message x a s :
  reachable x → (a, s) ∈ held x →
  s ∈ mapped x ∧ s ∈ files x ∧ s ∉ deleted x ∧ wait_delete_segment x ≠ Panic ∧
  ∀ x', wait_delete_segment x = Done (Some x') → s ∈ mapped x' ∧ segments x' = segments x.
Proof.
  intros Hr%reachable_refs_inv Hin. pose proof Hr as [Ho Hm Hf Hd Hn].
  assert (s ∈ references x) as Hs by (unfold references; rewrite !elem_of_app; right; right; by apply (list_elem_of_fmap_2 snd _ (a, s))).
  assert (∀ x', refs_inv x' → held x' = held x → s ∈ mapped x') as Hkeep.
  { intros x' Hx' Hh. apply (ri_mapped _ Hx'). unfold references. rewrite Hh, !elem_of_app. right; right.
    by apply (list_elem_of_fmap_2 snd _ (a, s)). }
  split_and!; [by apply Hm|apply Hf; by apply Hm| | |].
  - intros Hdel. by destruct (Hd _ Hdel).
  - unfold wait_delete_segment. destruct (drained x) as [|r rest] eqn:Edr; [done|]. destruct (_ <? _)%nat; [done|].
    rewrite bool_decide_true; [done|]. intros Hdel. destruct (Hd _ Hdel) as [[] _]. unfold references. rewrite Edr. set_solver.
  - intros x' Hw. pose proof (refs_step_inv _ _ Hr (step_delete _ _ Hw)) as Hx'.
    unfold wait_delete_segment in Hw. destruct (drained x) as [|r rest]; [done|]. destruct (_ <? _)%nat; [done|].
    apply bind_Done_iff in Hw as (_ & _ & [= <-]). split; [apply Hkeep; [done|]|]; unfold release; by case_decide.
Qed.

(** Dropping references of [s], by whoever holds one. *)
Inductive drops (s : segment) : t → t → Prop :=
| drops_none x : drops s x x
| drops_one x x' a l1 l2 : held x = l1 ++ (a, s) :: l2 → drops s (drop_ref s l1 l2 x) x' → drops s x x'.

Lemma drops_enabled n x s rest :
  refs_inv x → drained x = s :: rest → count_occ Nat.eq_dec (held x).*2 s = n →
  ∃ x1 x2, drops s x x1 ∧ wait_delete_segment x1 = Done (Some x2) ∧ drained x2 = rest ∧
    s ∉ mapped x2 ∧ s ∉ files x2.
Proof.
  revert x. induction n as [|n IH]; intros x Hx Hd Hc.
  - pose proof (drained_count _ _ _ Hx Hd) as Hsc. rewrite Hc in Hsc.
    assert (s ∉ deleted x) as Hnd.
    { intros Hdel. destruct (ri_deleted _ Hx _ Hdel) as [[] _]. unfold references. rewrite Hd. set_solver. }
    assert (∃ x2, wait_delete_segment x = Done (Some x2) ∧ drained x2 = rest ∧ s ∈ deleted x2) as (x2 & Hw & Hd2 & Hdel).
    { unfold wait_delete_segment. rewrite Hd, Hsc. cbn [Nat.ltb Nat.leb]. rewrite bool_decide_true by done. cbn [assert].
      rewrite bind_Done. eexists. split; [reflexivity|]. unfold release. case_decide; cbn; (split; [done|set_solver]). }
    exists x, x2. split; [constructor|]. split; [done|]. split; [done|].
    pose proof (refs_step_inv _ _ Hx (step_delete _ _ Hw)) as Hx2. destruct (ri_deleted _ Hx2 _ Hdel) as [Hnr Hnf].
    split; [|done]. by rewrite (ri_mapped _ Hx2).
  - assert (s ∈ (held x).*2) as (p & Hp & Hin)%list_elem_of_fmap.
    { rewrite list_elem_of_In. apply (count_occ_In Nat.eq_dec). lia. }
    destruct p as [a s']. cbn in Hp. subst s'. apply list_elem_of_split in Hin as (l1 & l2 & Hh).
    pose proof (refs_step_inv _ _ Hx (step_drop x a s l1 l2 Hh)) as Hx1.
    assert (held (drop_ref s l1 l2 x) = l1 ++ l2 ∧ drained (drop_ref s l1 l2 x) = s :: rest) as [Hh1 Hd1].
    { unfold drop_ref, release. by case_decide. }
    destruct (IH (drop_ref s l1 l2 x) Hx1 Hd1) as (x1 & x2 & Hdr & Hrest).
    { rewrite Hh1. rewrite Hh, fmap_app in Hc. cbn in Hc. rewrite fmap_app. rewrite !count_occ_app in *. cbn in Hc.
      destruct (Nat.eq_dec s s); [lia|done]. }
    exists x1, x2. split; [|done]. by econstructor.
Qed.

(** The collection does not wait forever: in every reachable state the
    references that keep a drained segment alive are a finite number that no
    step increases, and once their holders have dropped them the segment is
    unmapped and its file removed. *)
Theorem collection_ends x s rest :
  reachable x → drained x = s :: rest →
  (∃ x1 x2, drops s x x1 ∧ wait_delete_segment x1 = Done (Some x2) ∧ drained x2 = rest ∧
    s ∉ mapped x2 ∧ s ∉ files x2) ∧
  ∀ x', step x x' → s ∈ drained x' →
    (count_occ Nat.eq_dec (held x').*2 s ≤ count_occ Nat.eq_dec (held x).*2 s)%nat.
Proof.
  intros Hx%reachable_refs_inv Hd. split; [by eapply drops_enabled|]. intros x' Hst Hs. by eapply drained_no_new.
Qed.

(** A segment with a message out is drained. *)
Definition sample : t := drain 1 (clone_ref 5 0 (push_segment (push_segment new))).

Lemma sample_reachable : reachable sample.
Proof.
  unfold sample. eapply reachable_step; [|apply step_drain; [cbn; lia|done]].
  eapply reachable_step; [|apply step_find; cbn; left].
  do 2 (eapply reachable_step; [|apply step_push]). apply reachable_new.
Qed.

Lemma no_dangling_message_witness :
  0%nat ∈ mapped sample ∧ 0%nat ∈ files sample ∧ 0%nat ∉ deleted sample ∧ wait_delete_segment sample ≠ Panic ∧
  ∀ x', wait_delete_segment sample = Done (Some x') → 0%nat ∈ mapped x' ∧ segments x' = segments sample.
Proof. apply (no_dangling_message sample 5 0 sample_reachable). cbn. left. Defined.

Lemma collection_ends_witness :
  (∃ x1 x2, drops 0 sample x1 ∧ wait_delete_segment x1 = Done (Some x2) ∧ drained x2 = [] ∧
    0%nat ∉ mapped x2 ∧ 0%nat ∉ files x2) ∧
  ∀ x', step sample x' → 0%nat ∈ drained x' →
    (count_occ Nat.eq_dec (held x').*2 0 ≤ count_occ Nat.eq_dec (held sample).*2 0)%nat.
Proof. exact (collection_ends sample 0 [] sample_reachable eq_refl). Defined.

End Refs.
