(* ===== verification/Files.v ===== *)
(** * Files: the helpers of [utils.rs]

    [Fs] is the part of [std::fs] the program uses: a tree of directories
    and files, whose contents are kept by inode, so that an open file stays
    what it is when its name is taken away. [utils.rs] is modelled on top of
    it, with what other threads do to the tree between two of its system
    calls. Links and permissions are left out, and the errors that come from
    them. *)
From S2P Require Import Prelude.
From S2P Require Import Text.

Module Fs.

(** A path is the list of its components, the last one first: the parent of
    a path is its tail, and joining a name puts it in front. The empty path is
    the root (or the directory of the process). *)
Abbreviation path := (list (list Z)).
Abbreviation ino := nat.

Inductive node : Type := Dir | File (i : ino).
#[export] Instance node_eq_dec : EqDecision node.
Proof. solve_decision. Defined.

(** [io::ErrorKind] *)
Inductive ErrorKind : Type := NotFound | AlreadyExists | Other.

Record t : Type := mk {
  nodes : gmap path node;
  data : gmap ino (list Z);
}.

Definition lookup (x : t) (p : path) : option node :=
  match p with [] => Some Dir | _ => nodes x !! p end.

(** [Path::is_dir] *)
Definition is_dir (x : t) (p : path) : bool := bool_decide (lookup x p = Some Dir).

(** The error of resolving a path up to the directory [d]. *)
Fixpoint walk (x : t) (d : path) : result () ErrorKind :=
  match d with
  | [] => Ok ()
  | _ :: d' =>
      match walk x d' with
      | Err e => Err e
      | Ok _ =>
          match nodes x !! d with
          | Some Dir => Ok ()
          | Some (File _) => Err Other
          | None => Err NotFound
          end
      end
  end.

(** [fs::remove_file] *)
Definition remove_file (x : t) (p : path) : t * result () ErrorKind :=
  match walk x (tail p) with
  | Err e => (x, Err e)
  | Ok _ =>
      match lookup x p with
      | None => (x, Err NotFound)
      | Some Dir => (x, Err Other)
      | Some (File _) => (mk (delete p (nodes x)) (data x), Ok ())
      end
  end.

(** [fs::remove_dir_all] *)
Definition remove_dir_all (x : t) (p : path) : t * result () ErrorKind :=
  match walk x (tail p) with
  | Err e => (x, Err e)
  | Ok _ =>
      match lookup x p with
      | None => (x, Err NotFound)
      | Some (File _) => (x, Err Other)
      | Some Dir => (mk (filter (λ kv, ¬ p `suffix_of` kv.1) (nodes x)) (data x), Ok ())
      end
  end.

(** [fs::create_dir] *)
Definition create_dir (x : t) (p : path) : t * result () ErrorKind :=
  match walk x (tail p) with
  | Err e => (x, Err e)
  | Ok _ =>
      match lookup x p with
      | Some _ => (x, Err AlreadyExists)
      | None => (mk (<[p := Dir]> (nodes x)) (data x), Ok ())
      end
  end.

(** [File::create]: creates the file or empties the one that is there. *)
Definition file_create (x : t) (p : path) : t * result ino ErrorKind :=
  match walk x (tail p) with
  | Err e => (x, Err e)
  | Ok _ =>
      match lookup x p with
      | Some Dir => (x, Err Other)
      | Some (File i) => (mk (nodes x) (<[i := []]> (data x)), Ok i)
      | None =>
          let i := fresh (dom (data x)) in
          (mk (<[p := File i]> (nodes x)) (<[i := []]> (data x)), Ok i)
      end
  end.

(** A [write] of [bytes] at [pos] in an open file. *)
Definition overwrite (contents : list Z) (pos : nat) (bytes : list Z) : list Z :=
  take pos contents ++ replicate (pos - length contents) 0 ++ bytes ++ drop (pos + length bytes) contents.
Definition write_at (x : t) (i : ino) (pos : nat) (bytes : list Z) : t :=
  mk (nodes x) (<[i := overwrite (default [] (data x !! i)) pos bytes]> (data x)).

(** [fs::rename] of a file *)
Definition rename (x : t) (from to : path) : t * result () ErrorKind :=
  match walk x (tail from), walk x (tail to) with
  | Err e, _ | _, Err e => (x, Err e)
  | Ok _, Ok _ =>
      match lookup x from, lookup x to with
      | None, _ => (x, Err NotFound)
      | Some Dir, _ | _, Some Dir => (x, Err Other)
      | Some (File i), _ => (mk (<[to := File i]> (delete from (nodes x))) (data x), Ok ())
      end
  end.

(** What opening and reading a file gives. *)
Definition read (x : t) (p : path) : option (list Z) :=
  match lookup x p with Some (File i) => Some (default [] (data x !! i)) | _ => None end.

(** The parent of everything that exists is a directory. *)
Definition wf (x : t) : Prop := ∀ p n, nodes x !! p = Some n → p ≠ [] ∧ lookup x (tail p) = Some Dir.

(** ** Lemmas *)

Lemma walk_dir x d : wf x → lookup x d = Some Dir → walk x d = Ok ().
Proof.
  intros Hwf. induction d as [|n d IH]; intros Hd; [done|]. cbn in Hd |- *.
  destruct (Hwf _ _ Hd) as [_ Hp]. by rewrite (IH Hp), Hd.
Qed.

Lemma is_dir_true x p : is_dir x p = true ↔ lookup x p = Some Dir.
Proof. apply bool_decide_eq_true. Qed.

(** [y] has what [x] has, and more directories. *)
Definition extends (x y : t) : Prop :=
  wf x → wf y ∧ data y = data x ∧
    (∀ p n, lookup x p = Some n → lookup y p = Some n) ∧
    (∀ p i, lookup y p = Some (File i) → lookup x p = Some (File i)).

#[export] Instance extends_preorder : PreOrder extends.
Proof.
  split; [by intros x Hx|]. intros x y z Hxy Hyz Hx. destruct (Hxy Hx) as (Hy & Hd & H1 & H2).
  destruct (Hyz Hy) as (Hz & Hd' & H1' & H2'). split_and!; [done|congruence|by auto|by auto].
Qed.

Lemma create_dir_extends x p : extends x (create_dir x p).1.
Proof.
  intros Hwf. unfold create_dir. destruct (walk x (tail p)) as [[]|e] eqn:Hw; [|done].
  destruct (lookup x p) as [n|] eqn:Hp; [done|]. cbn.
  destruct p as [|c d]; [done|]. cbn in Hw, Hp.
  assert (lookup x d = Some Dir) as Hd.
  { destruct d as [|c' d]; [done|]. cbn in Hw |- *. repeat case_match; done. }
  assert (∀ q n, lookup x q = Some n → lookup (mk (<[c :: d := Dir]> (nodes x)) (data x)) q = Some n) as Hmono.
  { intros [|c' q] n; [done|]. cbn. intros Hq. rewrite lookup_insert_ne; [done|congruence]. }
  split_and!; [|done|done|].
  - intros q n Hq. cbn in Hq. apply lookup_insert_Some in Hq as [[<- _]|[_ Hq]]; [split; [done|by apply Hmono]|].
    destruct (Hwf _ _ Hq). split; [done|by apply Hmono].
  - intros [|c' q] i; [done|]. cbn. intros [[_ ?]|[_ ?]]%lookup_insert_Some; done.
Qed.

Lemma create_dir_in x c d :
  wf x → lookup x d = Some Dir →
  create_dir x (c :: d) =
    match lookup x (c :: d) with
    | Some _ => (x, Err AlreadyExists)
    | None => (mk (<[c :: d := Dir]> (nodes x)) (data x), Ok ())
    end.
Proof. intros Hwf Hd. unfold create_dir. cbn [tail]. by rewrite walk_dir. Qed.

Lemma overwrite_end contents bytes : overwrite contents (length contents) bytes = contents ++ bytes.
Proof. unfold overwrite. rewrite take_ge, drop_ge, Nat.sub_diag by lia. cbn. by rewrite app_nil_r. Qed.
Lemma overwrite_start contents bytes : overwrite contents 0 bytes = bytes ++ drop (length bytes) contents.
Proof. done. Qed.

End Fs.

(** ** The helpers *)

Module Utils.
Import Fs.

Definition remove_file_if_exist (x : t) (p : path) : t * result () ErrorKind :=
  match remove_file x p with
  | (x', Err NotFound) => (x', Ok ())
  | r => r
  end.

Definition remove_dir_if_exist (x : t) (p : path) : t * result () ErrorKind :=
  match remove_dir_all x p with
  | (x', Err NotFound) => (x', Ok ())
  | r => r
  end.

Section shared.
(** The directories other threads create before the [n]-th system call of
    this one. *)
Variable others : nat → list path.

Record world : Type := mkWorld { fs : t; calls : nat }.

Definition create_dirs (x : t) (ps : list path) : t := foldl (λ x p, (create_dir x p).1) x ps.
Definition interfere (w : world) : world := mkWorld (create_dirs (fs w) (others (calls w))) (S (calls w)).

(** [fs::create_dir_all], which looks for every directory before it makes
    it. *)
Fixpoint create_dir_all (w : world) (p : path) : world * result () ErrorKind :=
  let w := interfere w in
  if is_dir (fs w) p then (w, Ok ())
  else
    match p with
    | [] => (w, Ok ())
    | _ :: parent =>
        match create_dir_all w parent with
        | (w, Err e) => (w, Err e)
        | (w, Ok _) =>
            let w := interfere w in
            let '(x, r) := create_dir (fs w) p in
            (mkWorld x (calls w), r)
        end
    end.

Fixpoint create_dir_if_not_exist (fuel : nat) (w : world) (p : path) : option (world * result () ErrorKind) :=
  match fuel with
  | O => None
  | S fuel =>
      match create_dir_all w p with
      | (w, Err AlreadyExists) =>
          let w := interfere w in
          if negb (is_dir (fs w) p) then create_dir_if_not_exist fuel w p else Some (w, Ok ())
      | (w, r) => Some (w, r)
      end
  end.

(** [InnerQueue::new] on the way to a new queue ([recover] is false): its
    directory afterwards. *)
Definition new_directory (fuel : nat) (w : world) (p : path) : option (world * result () ErrorKind) :=
  let w := interfere w in
  match remove_dir_if_exist (fs w) p with
  | (x, Ok _) => create_dir_if_not_exist fuel (mkWorld x (calls w)) p
  | (x, Err e) => Some (mkWorld x (calls w), Err e)
  end.

(** *** Lemmas *)

Lemma create_dirs_extends x ps : extends x (create_dirs x ps).
Proof.
  revert x. induction ps as [|p ps IH]; intros x; [done|]. cbn. etrans; [apply create_dir_extends|apply IH].
Qed.

Lemma interfere_extends w : extends (fs w) (fs (interfere w)).
Proof. apply create_dirs_extends. Qed.

(** The directories of the path [p] that are not there yet. *)
Fixpoint missing (x : t) (p : path) : nat :=
  match p with
  | [] => 0
  | _ :: d => (if is_dir x p then 0 else 1) + missing x d
  end.

Lemma missing_le x p : (missing x p ≤ length p)%nat.
Proof. induction p; cbn; [done|]. case_match; lia. Qed.

Lemma missing_anti x y p : wf x → extends x y → (missing y p ≤ missing x p)%nat.
Proof.
  intros Hwf Hxy. destruct (Hxy Hwf) as (_ & _ & Hm & _).
  assert (∀ q, is_dir x q = true → is_dir y q = true) as Hd by (intros q; rewrite !is_dir_true; apply Hm).
  induction p as [|n p IH]; [done|]. cbn [missing]. specialize (Hd (n :: p)).
  destruct (is_dir x _), (is_dir y _); try lia; by discriminate Hd.
Qed.

(** No component of [p] is an ordinary file. *)
Definition no_file (x : t) (p : path) : Prop := ∀ q i, q `suffix_of` p → lookup x q ≠ Some (File i).

Lemma no_file_tail x n p : no_file x (n :: p) → no_file x p.
Proof. intros Hn q i Hq. apply Hn. by apply suffix_cons_r. Qed.
Lemma no_file_extends x y p : wf x → extends x y → no_file x p → no_file y p.
Proof. intros Hwf Hxy Hn q i Hq Hl. destruct (Hxy Hwf) as (_ & _ & _ & Hf). by eapply Hn, Hf. Qed.
Lemma no_file_dir x p n : no_file x p → lookup x p = Some n → n = Dir.
Proof. intros Hn Hp. destruct n as [|i]; [done|]. by destruct (Hn p i). Qed.

(** What one round of [create_dir_all] can end in. *)
Lemma create_dir_all_round w p w' r :
  wf (fs w) → no_file (fs w) p → create_dir_all w p = (w', r) →
  extends (fs w) (fs w') ∧
  ((r = Ok () ∧ lookup (fs w') p = Some Dir) ∨
   (r = Err AlreadyExists ∧ (missing (fs w') p < missing (fs w) p)%nat)).
Proof.
  revert w w' r. induction p as [|n p IH]; intros w w' r Hwf Hn Hc; cbn [create_dir_all] in Hc.
  { assert (w' = interfere w ∧ r = Ok ()) as [-> ->] by (destruct (is_dir _ _); by injection Hc as <- <-).
    split; [apply interfere_extends|by left]. }
  pose proof (interfere_extends w) as E1. destruct (E1 Hwf) as (Hwf1 & _ & Hm1 & _).
  pose proof (missing_anti _ _ (n :: p) Hwf E1) as Hle1.
  pose proof (no_file_extends _ _ _ Hwf E1 Hn) as Hn1. set (w1 := interfere w) in *. clearbody w1.
  destruct (is_dir (fs w1) (n :: p)) eqn:Hd.
  { injection Hc as <- <-. split; [done|]. left. split; [done|by apply is_dir_true]. }
  destruct (create_dir_all w1 p) as [w2 r2] eqn:Hp.
  destruct (IH _ _ _ Hwf1 (no_file_tail _ _ _ Hn1) Hp) as (E2 & Hr2). destruct (E2 Hwf1) as (Hwf2 & _ & Hm2 & _).
  pose proof (no_file_extends _ _ _ Hwf1 E2 Hn1) as Hn2.
  assert (E12 : extends (fs w) (fs w2)) by (by etrans).
  destruct Hr2 as [[-> Hp2]|[-> Hlt]].
  2:{ injection Hc as <- <-. split; [done|]. right. split; [done|]. cbn [missing] in Hle1 |- *. rewrite Hd in Hle1.
      pose proof (missing_anti _ _ (n :: p) Hwf1 E2) as Hx. cbn [missing] in Hx. rewrite Hd in Hx.
      destruct (is_dir (fs w2) (n :: p)); lia. }
  pose proof (interfere_extends w2) as E3. destruct (E3 Hwf2) as (Hwf3 & _ & Hm3 & _).
  pose proof (missing_anti _ _ (n :: p) Hwf1 (transitivity E2 E3)) as Hle3.
  pose proof (no_file_extends _ _ _ Hwf2 E3 Hn2) as Hn3. set (w3 := interfere w2) in *. clearbody w3.
  assert (E13 : extends (fs w) (fs w3)) by (by etrans).
  pose proof (create_dir_extends (fs w3) (n :: p)) as E4.
  rewrite (create_dir_in _ _ _ Hwf3 (Hm3 _ _ Hp2)) in Hc, E4.
  destruct (lookup (fs w3) (n :: p)) as [k|] eqn:Hk; injection Hc as <- <-; cbn [fs fst] in *.
  - split; [done|]. right. split; [done|]. pose proof (no_file_dir _ _ _ Hn3 Hk) as ->.
    cbn [missing] in Hle1, Hle3 |- *. rewrite Hd in Hle1, Hle3.
    assert (is_dir (fs w3) (n :: p) = true) as Hd3 by (by apply is_dir_true). rewrite Hd3 in Hle3 |- *.
    pose proof (missing_anti _ _ p Hwf1 (transitivity E2 E3)). lia.
  - split; [by etrans|]. left. split; [done|]. cbn. by rewrite lookup_insert_eq.
Qed.

(** Enough rounds for a path without files, whatever the others do. *)
Lemma create_dir_rounds fuel w p :
  wf (fs w) → no_file (fs w) p → (missing (fs w) p < fuel)%nat →
  ∃ w', create_dir_if_not_exist fuel w p = Some (w', Ok ()) ∧ extends (fs w) (fs w') ∧
    lookup (fs w') p = Some Dir.
Proof.
  revert w. induction fuel as [|fuel IH]; intros w Hwf Hn Hlt; [lia|]. cbn [create_dir_if_not_exist].
  destruct (create_dir_all w p) as [w1 r] eqn:Hc.
  destruct (create_dir_all_round _ _ _ _ Hwf Hn Hc) as (E1 & [[-> Hd]|[-> Hm]]); [by exists w1|].
  destruct (E1 Hwf) as (Hwf1 & _). pose proof (interfere_extends w1) as E2. destruct (E2 Hwf1) as (Hwf2 & _).
  pose proof (missing_anti _ _ p Hwf1 E2) as Hle.
  pose proof (no_file_extends _ _ _ Hwf1 E2 (no_file_extends _ _ _ Hwf E1 Hn)) as Hn2.
  set (w2 := interfere w1) in *. clearbody w2. assert (E12 : extends (fs w) (fs w2)) by (by etrans).
  destruct (is_dir (fs w2) p) eqn:Hd; cbn [negb].
  { exists w2. split_and!; [done|done|by apply is_dir_true]. }
  destruct (IH w2 Hwf2 Hn2) as (w' & Hr & E3 & Hp); [lia|]. exists w'. split_and!; [done|by etrans|done].
Qed.

(** A round on a path that is an ordinary file. *)
Lemma create_dir_all_file w p i :
  wf (fs w) → lookup (fs w) p = Some (File i) →
  ∃ w', create_dir_all w p = (w', Err AlreadyExists) ∧ extends (fs w) (fs w').
Proof.
  intros Hwf Hp. destruct p as [|n p]; [done|]. cbn [create_dir_all].
  pose proof (interfere_extends w) as E1. destruct (E1 Hwf) as (Hwf1 & _ & Hm1 & _).
  pose proof (Hm1 _ _ Hp) as Hp1. set (w1 := interfere w) in *. clearbody w1.
  unfold is_dir at 1. rewrite bool_decide_false by congruence.
  destruct (Hwf1 _ _ Hp1) as [_ Hd]. cbn [tail] in Hd. apply is_dir_true in Hd.
  pose proof (interfere_extends w1) as E2. destruct (E2 Hwf1) as (Hwf2 & _ & Hm2 & _).
  assert (create_dir_all w1 p = (interfere w1, Ok ())) as ->.
  { assert (is_dir (fs (interfere w1)) p = true) as Hd2 by (apply is_dir_true, Hm2; by apply is_dir_true).
    destruct p; cbn [create_dir_all]; by rewrite Hd2. }
  apply is_dir_true in Hd. pose proof (Hm2 _ _ Hp1) as Hp2. pose proof (Hm2 _ _ Hd) as Hd2.
  set (w2 := interfere w1) in *. clearbody w2.
  pose proof (interfere_extends w2) as E3. destruct (E3 Hwf2) as (Hwf3 & _ & Hm3 & _).
  set (w3 := interfere w2) in *. clearbody w3.
  rewrite (create_dir_in _ _ _ Hwf3 (Hm3 _ _ Hd2)), (Hm3 _ _ Hp2).
  exists w3. split; [by destruct w3|]. by repeat (etrans; [eassumption|]).
Qed.

Lemma create_dir_file_loops fuel w p i :
  wf (fs w) → lookup (fs w) p = Some (File i) → create_dir_if_not_exist fuel w p = None.
Proof.
  revert w. induction fuel as [|fuel IH]; intros w Hwf Hp; [done|]. cbn [create_dir_if_not_exist].
  destruct (create_dir_all_file _ _ _ Hwf Hp) as (w1 & -> & E1). destruct (E1 Hwf) as (Hwf1 & _ & Hm1 & _).
  destruct (interfere_extends w1 Hwf1) as (Hwf2 & _ & Hm2 & _). pose proof (Hm2 _ _ (Hm1 _ _ Hp)) as Hp2.
  unfold is_dir at 1. rewrite bool_decide_false by congruence. cbn [negb]. by apply IH.
Qed.

Lemma walk_no_file x d : wf x → no_file x d → walk x d = Ok () ∧ lookup x d = Some Dir ∨ walk x d = Err NotFound.
Proof.
  intros Hwf. induction d as [|n d IH]; intros Hn; [by left|]. cbn [walk].
  destruct (IH (no_file_tail _ _ _ Hn)) as [ [-> _] | -> ]; [|by right].
  destruct (nodes x !! (n :: d)) as [k|] eqn:Hk; [|by right]. left.
  by rewrite (no_file_dir x (n :: d) k Hn Hk) in Hk |- *.
Qed.

(** Above what exists, everything exists. *)
Lemma wf_above x p q n : wf x → p `suffix_of` q → lookup x q = Some n → ∃ k, lookup x p = Some k.
Proof.
  intros Hwf [l ->]. revert n. induction l as [|c l IH]; intros n Hq; [by exists n|].
  destruct (Hwf _ _ Hq) as [_ Hd]. by eapply IH.
Qed.

Lemma remove_dir_if_exist_removes x p :
  wf x → no_file x p → p ≠ [] →
  ∃ x', remove_dir_if_exist x p = (x', Ok ()) ∧ wf x' ∧ no_file x' p ∧
    ∀ q, lookup x' q = if decide (p `suffix_of` q) then None else lookup x q.
Proof.
  intros Hwf Hn Hne. destruct p as [|c d]; [done|]. unfold remove_dir_if_exist, remove_dir_all. cbn [tail].
  assert (∀ q, lookup x (c :: d) = None →
    lookup x q = if decide (c :: d `suffix_of` q) then None else lookup x q) as Habsent.
  { intros q Hd. destruct (decide _) as [Hs|_]; [|done]. destruct (lookup x q) as [n|] eqn:Hq; [|done].
    destruct (wf_above _ _ _ _ Hwf Hs Hq) as [k Hk]. congruence. }
  destruct (walk_no_file x d Hwf (no_file_tail _ _ _ Hn)) as [[-> _]|Hw].
  2:{ rewrite Hw. exists x. split_and!; [done|done|done|]. intros q. apply Habsent.
      destruct (lookup x (c :: d)) as [n|] eqn:Hd; [|done]. destruct (Hwf _ _ Hd) as [_ Hp]. cbn in Hp.
      by rewrite (walk_dir _ _ Hwf Hp) in Hw. }
  destruct (lookup x (c :: d)) as [n|] eqn:Hd; [|exists x; split_and!; try done; by intros q; apply Habsent].
  rewrite (no_file_dir _ _ _ Hn Hd). eexists. split; [done|].
  assert (∀ q, lookup (mk (filter (λ kv, ¬ c :: d `suffix_of` kv.1) (nodes x)) (data x)) q =
    if decide (c :: d `suffix_of` q) then None else lookup x q) as Hl.
  { intros [|e q]; cbn.
    - rewrite decide_False; [done|]. intros [l Hl]. by destruct l.
    - destruct (decide _) as [Hs|Hs].
      + apply map_lookup_filter_None_2. right. intros n' _ Hs'. by apply Hs'.
      + destruct (nodes x !! (e :: q)) as [n'|] eqn:Hq; [by apply map_lookup_filter_Some_2|].
        apply map_lookup_filter_None_2. by left. }
  split_and!; [| |done].
  - intros q n' Hq. cbn in Hq. apply map_lookup_filter_Some_1_1 in Hq as Hq0.
    apply map_lookup_filter_Some_1_2 in Hq as Hs. cbn in Hs. destruct (Hwf _ _ Hq0) as [H1 H2]. split; [done|].
    rewrite Hl, decide_False; [done|]. intros Hs'. apply Hs. etrans; [exact Hs'|].
    destruct q as [|e q]; [done|]. by apply suffix_cons_r.
  - intros q i Hq. rewrite Hl. destruct (decide _); [done|]. by apply Hn.
Qed.

(** *** Theorems *)

(** C34: [create_dir_if_not_exist] returns, with a directory in place and
    everything else still there, after at most one round more than the path
    has components, whatever directories other threads create in between
    (which is what it calls itself for); unless the path is an ordinary
    file: then it calls itself forever. *)
Theorem create_dir_returns w p :
  wf (fs w) →
  (no_file (fs w) p →
    ∃ w', create_dir_if_not_exist (S (length p)) w p = Some (w', Ok ()) ∧
      lookup (fs w') p = Some Dir ∧ ∀ q n, lookup (fs w) q = Some n → lookup (fs w') q = Some n) ∧
  (∀ i, lookup (fs w) p = Some (File i) → ∀ fuel, create_dir_if_not_exist fuel w p = None).
Proof.
  intros Hwf. split.
  - intros Hn. pose proof (missing_le (fs w) p).
    destruct (create_dir_rounds (S (length p)) w p Hwf Hn) as (w' & Hc & E & Hp); [lia|].
    exists w'. destruct (E Hwf) as (_ & _ & Hm & _). by split_and!.
  - intros i Hp fuel. by eapply create_dir_file_loops.
Qed.

(** The directory of a new queue: whatever was below its path before, no
    segment and no checkpoint file of an earlier queue is left, and nothing
    outside of it is touched. *)
Theorem new_directory_fresh w p :
  wf (fs w) → no_file (fs w) p → p ≠ [] →
  ∃ w', new_directory (S (length p)) w p = Some (w', Ok ()) ∧ lookup (fs w') p = Some Dir ∧
    (∀ q, p `suffix_of` q → read (fs w') q = None) ∧
    (∀ q n, ¬ p `suffix_of` q → lookup (fs w) q = Some n → lookup (fs w') q = Some n).
Proof.
  intros Hwf Hn Hne. unfold new_directory. pose proof (interfere_extends w) as E1.
  destruct (E1 Hwf) as (Hwf1 & _ & Hm1 & _). pose proof (no_file_extends _ _ _ Hwf E1 Hn) as Hn1.
  set (w1 := interfere w) in *. clearbody w1.
  destruct (remove_dir_if_exist_removes _ _ Hwf1 Hn1 Hne) as (x & -> & Hwfx & Hnx & Hl).
  pose proof (missing_le x p).
  destruct (create_dir_rounds (S (length p)) (mkWorld x (calls w1)) p Hwfx Hnx) as (w' & Hc & E2 & Hp); [cbn; lia|].
  cbn [fs] in E2. destruct (E2 Hwfx) as (_ & _ & Hm2 & Hf2). exists w'. split_and!; [done|done| |].
  - intros q Hs. unfold read. destruct (lookup (fs w') q) as [[|i]|] eqn:Hq; [done| |done].
    apply Hf2 in Hq. rewrite Hl, decide_True in Hq by done. done.
  - intros q n Hs Hq. apply Hm2. rewrite Hl, decide_False by done. by apply Hm1.
Qed.

End shared.
End Utils.

(** ** Concrete inputs *)

Module FileSamples.
Import Fs.

(** The directory of a queue with the checkpoint of an earlier run. *)
Definition dir : path := [B "my_queue"; B "data"].
Definition TMP_QUEUE_CHECKPOINT_FILE : list Z := B "queue.checkpoint.tmp".
Definition QUEUE_CHECKPOINT_FILE : list Z := B "queue.checkpoint".
Definition file : path := QUEUE_CHECKPOINT_FILE :: dir.
Definition tree : t :=
  mk (<[[B "data"] := Dir]> (<[dir := Dir]> {[file := File 0]})) {[0%nat := B "{}"]}.

Lemma tree_wf : wf tree.
Proof.
  intros p n Hp. cbn in Hp. apply lookup_insert_Some in Hp as [[<- _]|[_ Hp]]; [by split|].
  apply lookup_insert_Some in Hp as [[<- _]|[_ Hp]]; [by split|].
  apply lookup_singleton_Some in Hp as [<- _]. by split.
Qed.

(** Another thread creates the same directory meanwhile. *)
Definition others (n : nat) : list path := if decide (n = 2%nat) then [[B "new"]] else [].
Definition world : Utils.world := Utils.mkWorld tree 0.

Lemma new_no_file : Utils.no_file tree [B "q"; B "new"].
Proof.
  intros q i [l Hl]. destruct l as [|c [|c' [|c'' l]]]; unfold dir in Hl; cbn in Hl; simplify_eq; by vm_compute.
Qed.

Lemma dir_no_file : Utils.no_file tree dir.
Proof.
  intros q i [l Hl]. destruct l as [|c [|c' [|c'' l]]]; unfold dir in Hl; cbn in Hl; simplify_eq; by vm_compute.
Qed.

Lemma create_dir_returns_witness :
  (∃ w', Utils.create_dir_if_not_exist others 3 world [B "q"; B "new"] = Some (w', Ok ()) ∧
     lookup (Utils.fs w') [B "q"; B "new"] = Some Dir) ∧
  ∀ fuel, Utils.create_dir_if_not_exist others fuel world file = None.
Proof.
  destruct (Utils.create_dir_returns others world [B "q"; B "new"] tree_wf) as [H1 _].
  destruct (Utils.create_dir_returns others world file tree_wf) as [_ H2]. split.
  - destruct (H1 new_no_file) as (w' & Hc & Hd & _). exists w'. by split.
  - by apply (H2 0%nat).
Defined.

Lemma new_directory_fresh_witness :
  ∃ w', Utils.new_directory others 3 world dir = Some (w', Ok ()) ∧
    lookup (Utils.fs w') dir = Some Dir ∧ read (Utils.fs w') file = None.
Proof.
  destruct (Utils.new_directory_fresh others world dir tree_wf dir_no_file) as (w' & Hc & Hd & Hr & _); [done|].
  exists w'. split_and!; [exact Hc|exact Hd|]. apply Hr. by exists [QUEUE_CHECKPOINT_FILE].
Defined.
End FileSamples.
