(* ===== verification/Replace.v ===== *)
(** * How a checkpoint file is replaced

    [QueueBackend::checkpoint] and [InnerQueue::checkpoint] write their files
    with [File::create] of a temporary file, [write!], [sync_data] and
    [fs::rename], on the file system of [Files.v]: here one call after the
    other, by any number of threads, with calls that fail and power failures
    at any moment. *)
From stdpp Require Import functions.
From S2P Require Import Prelude.
From S2P Require Import Text.
From S2P Require Import Files.

Module Replace.
Import Fs.

(** What is written but not on the disk yet is lost with the machine:
    [dirty] are the files with writes that were not synced, [flushed] is the
    tree of names the disk holds. *)
Record disk : Type := mkDisk {
  fs : t;
  dirty : gset ino;
  flushed : gmap path node;
}.

Abbreviation agent := nat.

(** Where a thread is in the chain of calls on the temporary file: open with
    a cursor and the rest of the pieces [write!] has to write, synced,
    renamed, or in the [panic!] all errors end in. *)
Inductive stage : Type :=
| Idle
| Writing (i : ino) (cursor : nat) (todo : list (list Z))
| Synced
| Finished
| Panicked.

Record sys : Type := mkSys { on : disk; stages : agent → stage }.

Section protocol.
(** The directory, [TMP_QUEUE_CHECKPOINT_FILE] and [QUEUE_CHECKPOINT_FILE]
    (or the names of the backend), and the pieces each thread writes. *)
Variables (dir : path) (tmp final : list Z) (pieces : agent → list (list Z)).

Definition tmp_path : path := tmp :: dir.
Definition final_path : path := final :: dir.
#[local] Arguments tmp_path : simpl never.
#[local] Arguments final_path : simpl never.
Definition text (a : agent) : list Z := concat (pieces a).

(** The next call of a thread when it succeeds as far as it can. *)
Definition perform (a : agent) (s : sys) : sys :=
  let d := on s in
  match stages s a with
  | Idle =>
      match file_create (fs d) tmp_path with
      | (x, Ok i) => mkSys (mkDisk x ({[i]} ∪ dirty d) (flushed d)) (<[a := Writing i 0 (pieces a)]> (stages s))
      | (x, Err _) => mkSys (mkDisk x (dirty d) (flushed d)) (<[a := Panicked]> (stages s))
      end
  | Writing i cursor (bytes :: todo) =>
      mkSys (mkDisk (write_at (fs d) i cursor bytes) ({[i]} ∪ dirty d) (flushed d))
        (<[a := Writing i (cursor + length bytes) todo]> (stages s))
  | Writing i _ [] => mkSys (mkDisk (fs d) (dirty d ∖ {[i]}) (flushed d)) (<[a := Synced]> (stages s))
  | Synced =>
      match rename (fs d) tmp_path final_path with
      | (x, Ok _) => mkSys (mkDisk x (dirty d) (flushed d)) (<[a := Finished]> (stages s))
      | (x, Err _) => mkSys (mkDisk x (dirty d) (flushed d)) (<[a := Panicked]> (stages s))
      end
  | Finished | Panicked => s
  end.

(** A thread moves, one of its calls fails, or the system writes its tree of
    names to the disk. *)
Inductive step : agent → sys → sys → Prop :=
| step_perform a s : step a s (perform a s)
| step_fault a s : stages s a ≠ Finished → step a s (mkSys (on s) (<[a := Panicked]> (stages s)))
| step_flush a s : step a s (mkSys (mkDisk (fs (on s)) (dirty (on s)) (nodes (fs (on s)))) (stages s)).

(** What a power failure can leave. *)
Definition crash (s : sys) (x : t) : Prop :=
  nodes x = flushed (on s) ∧ ∀ i, i ∉ dirty (on s) → data x !! i = data (fs (on s)) !! i.

(** All that was written is on the disk, and nobody is writing. *)
Definition quiet (s : sys) : Prop :=
  flushed (on s) = nodes (fs (on s)) ∧ (∀ a, stages s a = Idle) ∧
  ∀ i, nodes (fs (on s)) !! final_path = Some (File i) →
    i ∉ dirty (on s) ∧ is_Some (data (fs (on s)) !! i) ∧ nodes (fs (on s)) !! tmp_path ≠ Some (File i).

(** The number of calls until the file is renamed. *)
Definition calls (a : agent) : nat := length (pieces a) + 3.

Hypothesis tmp_final : tmp ≠ final.

Lemma tmp_final_path : tmp_path ≠ final_path.
Proof. unfold tmp_path, final_path. congruence. Qed.

Lemma lookup_tmp x : lookup x tmp_path = nodes x !! tmp_path.
Proof. done. Qed.
Lemma lookup_final x : lookup x final_path = nodes x !! final_path.
Proof. done. Qed.

(** *** One thread

    The inode [old] names the file from before (if there is one), [i] the
    new one, with the text it is to have. *)

Definition old_file (x : t) (o : option (list Z)) (dt : gset ino) (avoid : option ino) (ns : gmap path node) : Prop :=
  match o with
  | Some c => ∃ j, ns !! final_path = Some (File j) ∧ data x !! j = Some c ∧ j ∉ dt ∧ avoid ≠ Some j
  | None => ∀ j, ns !! final_path ≠ Some (File j)
  end.

Definition new_file (x : t) (c : list Z) (dt : gset ino) (ns : gmap path node) : Prop :=
  ∃ i, ns !! final_path = Some (File i) ∧ data x !! i = Some c ∧ i ∉ dt.

Definition one_inv (a : agent) (o : option (list Z)) (s : sys) : Prop :=
  let d := on s in let x := fs d in
  match stages s a with
  | Idle =>
      (∀ i, nodes x !! tmp_path = Some (File i) →
        old_file x o (dirty d) (Some i) (nodes x) ∧ old_file x o (dirty d) (Some i) (flushed d)) ∧
      old_file x o (dirty d) None (nodes x) ∧ old_file x o (dirty d) None (flushed d)
  | Writing i cursor todo =>
      (∃ done, data x !! i = Some done ∧ length done = cursor ∧ text a = done ++ concat todo) ∧
      nodes x !! tmp_path = Some (File i) ∧
      old_file x o (dirty d) (Some i) (nodes x) ∧ old_file x o (dirty d) (Some i) (flushed d)
  | Synced =>
      ∃ i, data x !! i = Some (text a) ∧ i ∉ dirty d ∧ nodes x !! tmp_path = Some (File i) ∧
      old_file x o (dirty d) (Some i) (nodes x) ∧ old_file x o (dirty d) (Some i) (flushed d)
  | Finished =>
      new_file x (text a) (dirty d) (nodes x) ∧
      (old_file x o (dirty d) None (flushed d) ∨ new_file x (text a) (dirty d) (flushed d))
  | Panicked => old_file x o (dirty d) None (nodes x) ∧ old_file x o (dirty d) None (flushed d)
  end.

Lemma old_file_mono x x' o dt dt' av av' ns ns' :
  ns' !! final_path = ns !! final_path →
  (∀ j c, av ≠ Some j → data x !! j = Some c → j ∉ dt → data x' !! j = Some c ∧ j ∉ dt' ∧ av' ≠ Some j) →
  old_file x o dt av ns → old_file x' o dt' av' ns'.
Proof.
  intros Hns Hmono. destruct o as [c|]; cbn; [|by intros Hn j; rewrite Hns].
  intros (j & Hj & Hc & Hd & Ha). destruct (Hmono _ _ Ha Hc Hd) as (? & ? & ?). exists j. by rewrite Hns.
Qed.

Lemma old_file_read x o dt av : old_file x o dt av (nodes x) → read x final_path = o.
Proof.
  unfold read, old_file. rewrite ?lookup_final. destruct o as [c|].
  - intros (j & -> & -> & _). done.
  - intros Hn. destruct (nodes x !! _) as [[|j]|] eqn:E; [done| |done]. by destruct (Hn j).
Qed.

Lemma old_file_crash s x o av :
  crash s x → old_file (fs (on s)) o (dirty (on s)) av (flushed (on s)) → read x final_path = o.
Proof.
  intros [Hn Hd] Ho. apply (old_file_read x o (dirty (on s)) av). rewrite Hn.
  destruct o as [c|]; [|done]. destruct Ho as (j & Hj & Hc & Hdt & Ha). exists j. by rewrite Hd.
Qed.

Lemma new_file_crash s x c :
  crash s x → new_file (fs (on s)) c (dirty (on s)) (flushed (on s)) → read x final_path = Some c.
Proof.
  intros [Hn Hd] (i & Hi & Hc & Hdt). unfold read. rewrite ?lookup_final. by rewrite Hn, Hi, Hd, Hc.
Qed.

Lemma quiet_one_inv a s : quiet s → one_inv a (read (fs (on s)) final_path) s.
Proof.
  intros (Hf & Hi & Hq). unfold one_inv. rewrite Hi, Hf. unfold read. rewrite ?lookup_final.
  assert (∀ av, (∀ j, nodes (fs (on s)) !! final_path = Some (File j) → av ≠ Some j) →
    old_file (fs (on s)) match nodes (fs (on s)) !! final_path with
      | Some (File i) => Some (default [] (data (fs (on s)) !! i)) | _ => None end
      (dirty (on s)) av (nodes (fs (on s)))) as Hold.
  { intros av Hav. unfold old_file. destruct (nodes (fs (on s)) !! final_path) as [[|j]|] eqn:E; [done| |done].
    destruct (Hq _ eq_refl) as (Hd & [c Hc] & _). exists j. rewrite Hc. split_and!; try done. by apply Hav. }
  split_and!.
  - intros i Ht. split; apply Hold; intros j Hj [= ->]; destruct (Hq _ Hj) as (_ & _ & Hne); by apply Hne.
  - by apply Hold.
  - by apply Hold.
Qed.

Lemma one_inv_perform a o s : one_inv a o s → one_inv a o (perform a s).
Proof.
  pose proof tmp_final_path as Htf. unfold one_inv at 1, perform. destruct s as [[x dt fl] st]. cbn [on stages fs dirty flushed].
  destruct (st a) as [|i k [|bytes todo]| | |] eqn:Ea.
  - intros (Ht & Hn & Hf). unfold file_create. destruct (walk _ _) as [[]|e];
      [|unfold one_inv; cbn; by rewrite fn_lookup_insert].
    rewrite ?lookup_tmp, ?lookup_final. destruct (nodes x !! tmp_path) as [[|i]|] eqn:Et; unfold one_inv; cbn;
      rewrite fn_lookup_insert; [by split| |].
    + destruct (Ht i eq_refl) as [H1 H2]. split; [exists []; by rewrite lookup_insert_eq|]. split; [done|].
      split; (eapply old_file_mono; [done| |eassumption]); cbn; intros j c Hj Hc Hd;
        (rewrite lookup_insert_ne by congruence; split_and!; [done|set_solver|done]).
    + pose proof (is_fresh (dom (data x))) as Hfr. set (i := fresh _) in *. clearbody i.
      split; [exists []; by rewrite lookup_insert_eq|]. split; [by rewrite lookup_insert_eq|].
      assert (∀ j c, None ≠ Some j → data x !! j = Some c → j ∉ dt →
        <[i:=[]]> (data x) !! j = Some c ∧ j ∉ {[i]} ∪ dt ∧ Some i ≠ Some j) as Hj.
      { intros j c _ Hc Hd. assert (j ≠ i) by (intros ->; apply Hfr, elem_of_dom; by exists c).
        rewrite lookup_insert_ne by done. split_and!; [done|set_solver|congruence]. }
      split; [eapply old_file_mono; [|exact Hj|exact Hn]|eapply old_file_mono; [|exact Hj|exact Hf]]; [|done].
      by rewrite lookup_insert_ne.
  - intros ((c & Hc & _ & Htx) & Ht & H1 & H2). unfold one_inv; cbn.
    rewrite fn_lookup_insert. exists i. cbn in Htx. rewrite app_nil_r in Htx. subst c.
    split_and!; [done|set_solver|done| |]; (eapply old_file_mono; [done| |eassumption]); cbn;
      intros; split_and!; (done || set_solver).
  - intros ((c & Hc & Hk & Htx) & Ht & H1 & H2). unfold one_inv; cbn.
    rewrite fn_lookup_insert. split_and!; [|done| |].
    + exists (c ++ bytes). rewrite lookup_insert_eq, Hc. cbn. subst k. rewrite overwrite_end, length_app.
      split_and!; [done|done|]. rewrite Htx. cbn. by rewrite app_assoc.
    + eapply old_file_mono; [done| |exact H1]. cbn. intros j cj Hj Hcj Hd.
      rewrite lookup_insert_ne by congruence. split_and!; [done|set_solver|done].
    + eapply old_file_mono; [done| |exact H2]. cbn. intros j cj Hj Hcj Hd.
      rewrite lookup_insert_ne by congruence. split_and!; [done|set_solver|done].
  - intros (i & Hc & Hd & Ht & H1 & H2).
    assert (old_file x o dt None (nodes x) ∧ old_file x o dt None fl) as [H1' H2'].
    { split; (eapply old_file_mono; [done| |eassumption]); cbn; by intros. }
    unfold rename. destruct (walk x (tail tmp_path)) as [[]|e], (walk x (tail final_path)) as [[]|e'];
      try (unfold one_inv; cbn; rewrite fn_lookup_insert; by split).
    rewrite ?lookup_tmp, ?lookup_final. rewrite Ht. rewrite ?lookup_tmp, ?lookup_final.
    destruct (nodes x !! final_path) as [[|j]|]; unfold one_inv; cbn; rewrite fn_lookup_insert;
      [by split| |]; (split; [|by left]; exists i; by rewrite lookup_insert_eq).
  - intros H. unfold one_inv. cbn [on stages fs dirty flushed]. by rewrite Ea.
  - intros H. unfold one_inv. cbn [on stages fs dirty flushed]. by rewrite Ea.
Qed.

Lemma one_inv_panicked a o s :
  stages s a ≠ Finished → one_inv a o s →
  old_file (fs (on s)) o (dirty (on s)) None (nodes (fs (on s))) ∧
  old_file (fs (on s)) o (dirty (on s)) None (flushed (on s)).
Proof.
  unfold one_inv. intros Hf.
  assert (∀ i ns, old_file (fs (on s)) o (dirty (on s)) (Some i) ns → old_file (fs (on s)) o (dirty (on s)) None ns) as Hw.
  { intros i ns. by apply old_file_mono. }
  destruct (stages s a); [tauto| | |done|done].
  - intros (_ & _ & H1 & H2). split; by eapply Hw.
  - intros (i & _ & _ & _ & H1 & H2). split; by eapply Hw.
Qed.

Lemma one_inv_step a o s s' : one_inv a o s → step a s s' → one_inv a o s'.
Proof.
  intros Ho Hst. destruct Hst as [a s|a s Hf|a s]; [by apply one_inv_perform| |].
  - apply one_inv_panicked in Ho; [|done]. unfold one_inv. cbn. by rewrite fn_lookup_insert.
  - unfold one_inv in *. cbn. destruct (stages s a) as [|i k todo| | |].
    + destruct Ho as (Ht & H1 & H2). split_and!; [|done|done]. intros i Hi. by destruct (Ht i Hi).
    + destruct Ho as (Hc & Ht & H1 & _). by split_and!.
    + destruct Ho as (i & Hc & Hd & Ht & H1 & _). exists i. by split_and!.
    + destruct Ho as (H1 & _). split; [done|by right].
    + by destruct Ho.
Qed.

(** *** Runs without faults *)

Definition run (schedule : list agent) (s : sys) : sys := foldl (λ s a, perform a s) s schedule.

Lemma run_app k l s : run (k ++ l) s = run l (run k s).
Proof. apply foldl_app. Qed.

(** The directory is there and neither name is a directory. *)
Definition writable (s : sys) : Prop :=
  walk (fs (on s)) dir = Ok () ∧ nodes (fs (on s)) !! tmp_path ≠ Some Dir ∧
  nodes (fs (on s)) !! final_path ≠ Some Dir.

Lemma walk_nodes x y d : (∀ q, q `suffix_of` d → q ≠ [] → nodes x !! q = nodes y !! q) → walk x d = walk y d.
Proof.
  induction d as [|n d IH]; intros Hq; [done|]. cbn. rewrite IH.
  - by rewrite (Hq (n :: d)).
  - intros q Hs. apply Hq. by apply suffix_cons_r.
Qed.

Lemma walk_dir_insert x n k : walk (mk (<[n :: dir := k]> (nodes x)) (data x)) dir = walk x dir.
Proof.
  apply walk_nodes. intros q [l Hl] _. cbn. apply lookup_insert_ne. intros <-.
  apply (f_equal length) in Hl. rewrite length_app in Hl. cbn in Hl. lia.
Qed.
Lemma walk_same x y : nodes y = nodes x → walk y dir = walk x dir.
Proof. intros Hn. apply walk_nodes. by rewrite Hn. Qed.

(** A thread creates the file. *)
Lemma perform_create a s :
  writable s → stages s a = Idle →
  ∃ i, stages (perform a s) a = Writing i 0 (pieces a) ∧ nodes (fs (on (perform a s))) !! tmp_path = Some (File i) ∧
    data (fs (on (perform a s))) !! i = Some [] ∧ writable (perform a s) ∧
    (∀ j, nodes (fs (on s)) !! tmp_path = Some (File j) → i = j) ∧
    ∀ b, b ≠ a → stages (perform a s) b = stages s b.
Proof.
  pose proof tmp_final_path as Htf. intros (Hw & Ht & Hf) Hi. unfold perform, file_create, writable. rewrite Hi.
  change (tail tmp_path) with dir. rewrite Hw, lookup_tmp. destruct (nodes (fs (on s)) !! tmp_path) as [[|i]|] eqn:E; [done| |].
  - exists i. cbn. rewrite fn_lookup_insert, lookup_insert_eq, E. split_and!; try done.
    + erewrite walk_same; done.
    + by intros j [= ->].
    + intros b Hb. by apply fn_lookup_insert_ne.
  - eexists. cbn. rewrite fn_lookup_insert, !lookup_insert_eq. split_and!; try done.
    + etrans; [|exact Hw]. etrans; [|apply (walk_dir_insert (fs (on s)) tmp (File (fresh (dom (data (fs (on s)))))))].
      by apply walk_same.
    + by rewrite lookup_insert_ne.
    + intros b Hb. by apply fn_lookup_insert_ne.
Qed.

(** A thread writes what is left, over the contents [c] of its file. *)
Lemma run_write a i todo : ∀ s k c,
  stages s a = Writing i k todo → data (fs (on s)) !! i = Some c → (k ≤ length c)%nat →
  let s' := run (replicate (length todo) a) s in
  stages s' a = Writing i (k + length (concat todo)) [] ∧ nodes (fs (on s')) = nodes (fs (on s)) ∧
  data (fs (on s')) !! i = Some (take k c ++ concat todo ++ drop (k + length (concat todo)) c) ∧
  ∀ b, b ≠ a → stages s' b = stages s b.
Proof.
  induction todo as [|bytes todo IH]; intros s k c Hst Hc Hk; cbn -[Nat.add].
  { rewrite Nat.add_0_r, take_drop. by split_and!. }
  unfold run. cbn [length replicate foldl]. change (foldl _ ?s _) with (run (replicate (length todo) a) s).
  assert (perform a s = mkSys (mkDisk (write_at (fs (on s)) i k bytes) ({[i]} ∪ dirty (on s)) (flushed (on s)))
    (<[a := Writing i (k + length bytes) todo]> (stages s))) as -> by (unfold perform; by rewrite Hst).
  assert (overwrite c k bytes = take k c ++ bytes ++ drop (k + length bytes) c) as Ho.
  { unfold overwrite. by replace (k - length c)%nat with 0%nat by lia. }
  assert (length (take k c ++ bytes) = (k + length bytes)%nat) as Hlen by (rewrite length_app, length_take; lia).
  destruct (IH (mkSys (mkDisk (write_at (fs (on s)) i k bytes) ({[i]} ∪ dirty (on s)) (flushed (on s)))
    (<[a := Writing i (k + length bytes) todo]> (stages s))) (k + length bytes)%nat
    (take k c ++ bytes ++ drop (k + length bytes) c)) as (H1 & H2 & H3 & H4).
  - apply fn_lookup_insert.
  - cbn. rewrite lookup_insert_eq, Hc. cbn. by rewrite Ho.
  - rewrite app_assoc, length_app. lia.
  - rewrite H1, H2, H3. rewrite length_app. split_and!; [f_equal; lia|done| |].
    + cbn [concat]. rewrite (app_assoc (take k c) bytes). rewrite <-Hlen at 1. rewrite take_app_length.
      rewrite drop_app_ge by lia. rewrite Hlen, drop_drop. rewrite <-!app_assoc. do 4 f_equal. f_equal. lia.
    + intros b Hb. rewrite H4 by done. by apply fn_lookup_insert_ne.
Qed.

(** A thread syncs and renames what it wrote. *)
Lemma run_sync_rename a s i k j :
  stages s a = Writing i k [] → writable s → nodes (fs (on s)) !! tmp_path = Some (File j) →
  let s' := run [a; a] s in
  stages s' a = Finished ∧ data (fs (on s')) = data (fs (on s)) ∧
  nodes (fs (on s')) = <[final_path := File j]> (delete tmp_path (nodes (fs (on s)))) ∧
  ∀ b, b ≠ a → stages s' b = stages s b.
Proof.
  intros Hst (Hw & _ & Hf) Ht. cbn. unfold perform at 2 4 6 8. rewrite Hst. unfold perform. cbn.
  rewrite fn_lookup_insert. unfold rename. change (tail tmp_path) with dir. change (tail final_path) with dir.
  rewrite Hw, lookup_tmp, lookup_final, Ht.
  destruct (nodes (fs (on s)) !! final_path) as [[|i']|] eqn:E; [done| |];
    (cbn; rewrite fn_lookup_insert; split_and!; [done|done|done|];
     intros b Hb; by rewrite !fn_lookup_insert_ne).
Qed.

(** A thread that finds no temporary file to rename. *)
Lemma run_sync_lost a s i k :
  stages s a = Writing i k [] → walk (fs (on s)) dir = Ok () → nodes (fs (on s)) !! tmp_path = None →
  let s' := run [a; a] s in
  stages s' a = Panicked ∧ data (fs (on s')) = data (fs (on s)) ∧ nodes (fs (on s')) = nodes (fs (on s)) ∧
  ∀ b, b ≠ a → stages s' b = stages s b.
Proof.
  intros Hst Hw Ht. cbn. unfold perform at 2 4 6 8. rewrite Hst. unfold perform. cbn.
  rewrite fn_lookup_insert. unfold rename. change (tail tmp_path) with dir. change (tail final_path) with dir.
  rewrite Hw, lookup_tmp, Ht. cbn. rewrite fn_lookup_insert. split_and!; [done|done|done|].
  intros b Hb. by rewrite !fn_lookup_insert_ne.
Qed.

(** *** Theorems *)

(** C26: The checkpoint file is replaced as a whole. Whatever calls fail and
    whenever the machine stops, on the way or after, the file is then either
    the one from before or the complete new one; a write that comes to its
    end leaves the new one; and it comes to its end when no call fails. *)
Theorem replaced_atomically a s0 s :
  quiet s0 → rtc (step a) s0 s →
  (∀ x, crash s x → read x final_path = read (fs (on s0)) final_path ∨ read x final_path = Some (text a)) ∧
  (stages s a = Finished → read (fs (on s)) final_path = Some (text a)) ∧
  (writable s0 → stages (run (replicate (calls a) a) s0) a = Finished).
Proof.
  intros Hq Hrun. pose proof (quiet_one_inv a s0 Hq) as Hinv. set (o := read _ _) in *. clearbody o.
  assert (one_inv a o s) as Hs.
  { clear Hq. induction Hrun as [|s0 s1 s Hst _ IH]; [done|]. apply IH. by eapply one_inv_step. }
  split_and!.
  - intros x Hx. assert (stages s a = Finished ∨ stages s a ≠ Finished) as [Hf|Hf] by (destruct (stages s a); auto).
    + unfold one_inv in Hs. rewrite Hf in Hs. destruct Hs as [_ [Ho|Hn]];
        [left; by eapply old_file_crash|right; by eapply new_file_crash].
    + left. apply one_inv_panicked in Hs as [_ Ho]; [|done]. by eapply old_file_crash.
  - intros Hf. unfold one_inv in Hs. rewrite Hf in Hs. destruct Hs as [(i & Hi & Hc & _) _].
    unfold read. by rewrite lookup_final, Hi, Hc.
  - intros Hw. destruct Hq as (_ & Hidle & _). destruct (perform_create a s0 Hw (Hidle a)) as (i & H1 & H2 & H3 & (Hw1 & Hn1 & Hn2) & _).
    unfold calls. replace (length (pieces a) + 3)%nat with (1 + (length (pieces a) + 2))%nat by lia.
    rewrite replicate_add, run_app, replicate_add, run_app. cbn [replicate]. change (run [a] s0) with (perform a s0).
    destruct (run_write a i (pieces a) _ _ _ H1 H3) as (H4 & H5 & _); [cbn; lia|].
    eapply run_sync_rename; [exact H4| |by rewrite H5]. unfold writable. rewrite H5. split_and!; [|done|done].
    rewrite <-Hw1. by apply walk_same.
Qed.

(** Two checkpoints of one queue that run at the same time, a [purge]'s
    and the maintenance's: they share the temporary file, so that the second
    to open it empties what the first wrote, its text ends up in the file the
    first has renamed, and its own rename panics. *)
Theorem checkpoints_race a b s0 :
  a ≠ b → quiet s0 → writable s0 →
  ∃ schedule, let s := run schedule s0 in
    stages s a = Finished ∧ stages s b = Panicked ∧
    read (fs (on s)) final_path = Some (text b ++ drop (length (text b)) (text a)).
Proof.
  pose proof tmp_final_path as Htf. intros Hab (_ & Hidle & _) Hw.
  exists ([a; b] ++ replicate (length (pieces a)) a ++ [a; a] ++ replicate (length (pieces b)) b ++ [b; b]).
  cbv zeta. rewrite run_app. change (run [a; b] s0) with (perform b (perform a s0)).
  destruct (perform_create a s0 Hw (Hidle a)) as (i & A1 & A2 & _ & Hw1 & _ & A4).
  destruct (perform_create b _ Hw1) as (j & B1 & B2 & B3 & (Hw2 & Hn1 & Hn2) & B4 & B5); [by rewrite A4|].
  rewrite (B4 i A2) in B1, B2, B3. rewrite <-(B5 a Hab) in A1. set (s1 := perform b _) in *. clearbody s1.
  destruct (run_write a i (pieces a) _ _ _ A1 B3) as (C1 & C2 & C3 & C4); [cbn; lia|].
  rewrite run_app. set (s2 := run _ s1) in *. clearbody s2.
  assert (writable s2) as Hws2 by (unfold writable; rewrite C2; split_and!; [rewrite <-Hw2; by apply walk_same|done|done]).
  rewrite <-C2 in B2. destruct (run_sync_rename a s2 _ _ i C1 Hws2 B2) as (D1 & D2 & D3 & D4).
  rewrite <-(C4 b) in B1 by done. rewrite <-(D4 b) in B1 by done. rewrite <-D2 in C3.
  rewrite run_app. set (s3 := run _ s2) in *. clearbody s3. rewrite take_nil, drop_nil, app_nil_r in C3. cbn [app] in C3.
  destruct (run_write b i (pieces b) _ _ _ B1 C3) as (E1 & E2 & E3 & E4); [lia|].
  rewrite run_app. set (s4 := run _ s3) in *. clearbody s4. rewrite D3 in E2.
  assert (walk (fs (on s4)) dir = Ok ()) as Hws4.
  { rewrite <-(proj1 Hws2). apply walk_nodes. intros q [l Hl] _. rewrite E2.
    assert (∀ n, q ≠ n :: dir) as Hne.
    { intros n ->. apply (f_equal length) in Hl. rewrite length_app in Hl. cbn in Hl. lia. }
    rewrite lookup_insert_ne, lookup_delete_ne by (intros Hq; by eapply Hne). done. }
  destruct (run_sync_lost b s4 _ _ E1 Hws4) as (F1 & F2 & F3 & F4).
  { rewrite E2, lookup_insert_ne by done. apply lookup_delete_eq. }
  split_and!; [|done|].
  - by rewrite F4, E4 by done.
  - unfold read. rewrite lookup_final, F3, F2, E2, lookup_insert_eq, E3. done.
Qed.
End protocol.
End Replace.

(** ** Concrete inputs *)

Module ReplaceSamples.
Import Fs FileSamples.

(** Two checkpoints with different texts, in small pieces. *)
Definition pieces (a : nat) : list (list Z) :=
  if decide (a = 0%nat) then [B "{state: "; B "Ready}"] else [B "[]"].
Definition start : Replace.sys := Replace.mkSys (Replace.mkDisk tree ∅ (nodes tree)) (λ _, Replace.Idle).

Lemma start_quiet : Replace.quiet dir TMP_QUEUE_CHECKPOINT_FILE QUEUE_CHECKPOINT_FILE start.
Proof.
  split; [done|]. split; [done|]. intros i Hi. vm_compute in Hi. injection Hi as <-.
  split_and!; [set_solver|by eexists; vm_compute|by vm_compute].
Qed.

Abbreviation go := (Replace.run dir TMP_QUEUE_CHECKPOINT_FILE QUEUE_CHECKPOINT_FILE pieces).

Lemma go_rtc n s : rtc (Replace.step dir TMP_QUEUE_CHECKPOINT_FILE QUEUE_CHECKPOINT_FILE pieces 0) s (go (replicate n 0%nat) s).
Proof. revert s. induction n as [|n IH]; intros s; [done|]. eapply rtc_l; [apply Replace.step_perform|apply IH]. Qed.

(** After the rename, before the names reach the disk. *)
Lemma replaced_atomically_witness :
  (∀ x, Replace.crash (go (replicate 5 0%nat) start) x →
     read x file = Some (B "{}") ∨ read x file = Some (Replace.text pieces 0)) ∧
  read (Replace.fs (Replace.on (go (replicate 5 0%nat) start))) file = Some (Replace.text pieces 0).
Proof.
  destruct (Replace.replaced_atomically dir TMP_QUEUE_CHECKPOINT_FILE QUEUE_CHECKPOINT_FILE pieces
    ltac:(by vm_compute) 0%nat start _ start_quiet (go_rtc 5 start)) as (H1 & H2 & _).
  split; [exact H1|]. apply H2. by vm_compute.
Defined.

Lemma checkpoints_race_witness :
  ∃ schedule, Replace.stages (go schedule start) 1%nat = Replace.Panicked ∧
    read (Replace.fs (Replace.on (go schedule start))) file =
      Some (Replace.text pieces 1 ++ drop 2 (Replace.text pieces 0)).
Proof.
  destruct (Replace.checkpoints_race dir TMP_QUEUE_CHECKPOINT_FILE QUEUE_CHECKPOINT_FILE pieces
    ltac:(by vm_compute) 0%nat 1%nat start ltac:(done) start_quiet) as (schedule & _ & H1 & H2).
  { split_and!; by vm_compute. }
  exists schedule. by split.
Defined.
End ReplaceSamples.
