(* ===== verification/Wire.v ===== *)
(** * The wire protocol ([protocol.rs])

    Values of the Redis protocol, their serialization, the request parser
    and the two connection buffers. Strings and bodies are byte buffers of
    the third-party [tendril] crate: [Tendril] lists the operations the
    program uses and [TendrilOk] their documented behaviour on the bytes. *)
From S2P Require Import Prelude.
From S2P Require Import Text.
From S2P Require Import Segments.

(** ** Byte buffers *)

Class Tendril (T : Type) : Type := {
  td_new : T;
  (** [into] from a slice or a [str] *)
  td_from : list Z → T;
  (** [as_ref]: the bytes *)
  td_bytes : T → list Z;
  (** [pop_front], [pop_back] and [subtendril], which share the buffer *)
  td_pop_front : Z → T → T;
  td_pop_back : Z → T → T;
  td_subtendril : Z → Z → T → T;
  (** [reserve] followed by [set_len(capacity)]: the new bytes are
      uninitialized *)
  td_grow : Z → T → T;
  (** assignment of bytes through the mutable slice, at an offset *)
  td_write : Z → list Z → T → T;
}.

Definition td_len {T} `{Tendril T} (t : T) : Z := zlen (td_bytes t).

Class TendrilOk (T : Type) `{Tendril T} : Prop := {
  td_new_bytes : td_bytes td_new = [];
  td_from_bytes l : zlen l < 2 ^ 32 → td_bytes (td_from l) = l;
  td_pop_front_bytes n t : 0 ≤ n ≤ td_len t → td_bytes (td_pop_front n t) = drop (Z.to_nat n) (td_bytes t);
  td_pop_back_bytes n t :
    0 ≤ n ≤ td_len t → td_bytes (td_pop_back n t) = take (Z.to_nat (td_len t - n)) (td_bytes t);
  td_subtendril_bytes off n t :
    0 ≤ off → 0 ≤ n → off + n ≤ td_len t →
    td_bytes (td_subtendril off n t) = take (Z.to_nat n) (drop (Z.to_nat off) (td_bytes t));
  td_grow_bytes n t :
    0 ≤ n → ∃ fresh, td_bytes (td_grow n t) = td_bytes t ++ fresh;
  td_write_bytes off bs t :
    0 ≤ off → off + zlen bs ≤ td_len t →
    td_bytes (td_write off bs t) =
      take (Z.to_nat off) (td_bytes t) ++ bs ++ drop (Z.to_nat (off + zlen bs)) (td_bytes t);
}.

(** Lists of bytes meet the interface. *)
#[export] Instance list_tendril : Tendril (list Z) := {
  td_new := [];
  td_from l := l;
  td_bytes t := t;
  td_pop_front n t := drop (Z.to_nat n) t;
  td_pop_back n t := take (Z.to_nat (zlen t - n)) t;
  td_subtendril off n t := take (Z.to_nat n) (drop (Z.to_nat off) t);
  td_grow n t := t ++ replicate (Z.to_nat n) 0;
  td_write off bs t := take (Z.to_nat off) t ++ bs ++ drop (Z.to_nat (off + zlen bs)) t;
}.

#[export] Instance list_tendril_ok : TendrilOk (list Z).
Proof.
  split; try done. intros n t Hn. by exists (replicate (Z.to_nat n) 0).
Qed.

Inductive ProtocolError : Type :=
| Incomplete
| Invalid (message : list Z).

#[export] Instance ProtocolError_eq_dec : EqDecision ProtocolError.
Proof. solve_decision. Defined.

Definition CR : Z := 13.
Definition crlf : list Z := [13; 10].

(** ** Values *)
Module Value.

Inductive t (T : Type) : Type :=
| Nil
| Int (v : Z)
| Data (v : T)
| Array (a : list (t T))
| Status (v : T)
| Error (v : T)
| Message (ticket : Z) (message : Message.t).
Arguments Nil {T}.
Arguments Int {T} v.
Arguments Data {T} v.
Arguments Array {T} a.
Arguments Status {T} v.
Arguments Error {T} v.
Arguments Message {T} ticket message.

Section ops.
Context {T : Type} `{Tendril T}.

(** [serialize_to] on the contents of the [Vec<u8>]. *)
Fixpoint serialize_to (v : t T) (f : list Z) : outcome (list Z) :=
  match v with
  | Nil => mret (f ++ B "$-1" ++ crlf)
  | Int v => mret (f ++ B ":" ++ print_i64 v ++ crlf)
  | Data v => mret (f ++ B "$" ++ print_u64 (td_len v) ++ crlf ++ td_bytes v ++ crlf)
  | Array a =>
      (fix go (a : list (t T)) (f : list Z) : outcome (list Z) :=
         match a with
         | [] => mret f
         | v :: a => f ← serialize_to v f; go a f
         end) a (f ++ B "*" ++ print_u64 (zlen a) ++ crlf)
  | Status v => mret (f ++ B "+" ++ td_bytes v ++ crlf)
  | Error v => mret (f ++ B "-" ++ td_bytes v ++ crlf)
  | Message ticket message =>
      id ← Message.id message;
      body ← Message.body message;
      mret (f ++ B "*3" ++ crlf ++ B ":" ++ print_u64 id ++ crlf ++ B ":" ++ print_i64 ticket ++ crlf
              ++ B "$" ++ print_u64 (zlen body) ++ crlf ++ body ++ crlf)
  end.

End ops.
End Value.

(** ** The parser

    The state of [Parser] is the rest of the body, passed along; [parse]
    calls itself through [parse_array], and both are given fuel, which is
    enough when it exceeds the length of the body. *)
Module Parser.

Section ops.
Context `{Profile} {T : Type} `{Tendril T}.
(** [size_of::<Value>()], which bounds [Vec::with_capacity]. *)
Variable value_size : Z.

Definition split_at (tendril : T) (position : Z) : outcome (T * T) :=
  let offset := as_u32 position in
  len ← u32 (td_len tendril - offset);
  mret (td_pop_back len tendril, td_subtendril offset len tendril).

Definition read_byte (body : T) : outcome (result (Z * T) ProtocolError) :=
  match td_bytes body with
  | byte :: _ => mret (Ok (byte, td_pop_front 1 body))
  | [] => mret (Err Incomplete)
  end.

Definition read (bytes : Z) (body : T) : outcome (result (T * T) ProtocolError) :=
  if bytes <=? td_len body then
    '(first_part, second_part) ← split_at body bytes;
    mret (Ok (first_part, second_part))
  else mret (Err Incomplete).

(** [iter().position(|&b| b == b'\r')]. *)
Fixpoint position (b : Z) (l : list Z) : option Z :=
  match l with
  | [] => None
  | c :: l => if c =? b then Some 0 else Z.succ <$> position b l
  end.

Definition read_line (body : T) : outcome (result (T * T) ProtocolError) :=
  match position CR (td_bytes body) with
  | None => mret (Err (Invalid (B "Missing line separator")))
  | Some nl_pos =>
      n ← u64 (nl_pos + 2);
      try! (line, body) ← read n body;
      '(first_part, second_part) ← split_at line nl_pos;
      if bool_decide (td_bytes second_part = crlf) then mret (Ok (first_part, body))
      else mret (Err (Invalid (B "Invalid line separator")))
  end.

Definition read_string_line (body : T) : outcome (result (T * T) ProtocolError) :=
  try! (line, body) ← read_line body;
  if utf8_valid (td_bytes line) then mret (Ok (line, body))
  else mret (Err (Invalid (B "Expected valid string, got garbage"))).

Definition read_int_line (body : T) : outcome (result (Z * T) ProtocolError) :=
  try! (line, body) ← read_line body;
  match parse_i64 (td_bytes line) with
  | None => mret (Err (Invalid (B "Expected integer, got garbage")))
  | Some value => mret (Ok (value, body))
  end.

Definition parse_status (body : T) : outcome (result (Value.t T * T) ProtocolError) :=
  try! (line, body) ← read_string_line body;
  mret (Ok (Value.Status line, body)).

Definition parse_int (body : T) : outcome (result (Value.t T * T) ProtocolError) :=
  try! (value, body) ← read_int_line body;
  mret (Ok (Value.Int value, body)).

Definition parse_data (body : T) : outcome (result (Value.t T * T) ProtocolError) :=
  try! (length, body) ← read_int_line body;
  if length <? 0 then mret (Ok (Value.Nil, body)) else
  n ← u64 (length + 2);
  try! (data, body) ← read n body;
  '(data, line_sep) ← split_at data length;
  if bool_decide (td_bytes line_sep = crlf) then mret (Ok (Value.Data data, body))
  else mret (Err (Invalid (B "Invalid line separator"))).

Definition parse_error (body : T) : outcome (result (Value.t T * T) ProtocolError) :=
  try! (line, body) ← read_string_line body;
  mret (Ok (Value.Error line, body)).

(** [Vec::with_capacity] panics when the bytes exceed [isize::MAX]. *)
Definition with_capacity (n : Z) : outcome () := assert (n * value_size <? 2 ^ 63).

(** The loop [for _ in 0..length] of [parse_array]. *)
Fixpoint parse_items (parse : T → outcome (result (Value.t T * T) ProtocolError))
    (fuel : nat) (length : Z) (body : T) (rv : list (Value.t T)) :
    outcome (result (Value.t T * T) ProtocolError) :=
  match fuel with
  | O => mret (Err Incomplete)
  | S fuel =>
      if 0 <? length then
        try! (value, body) ← parse body;
        parse_items parse fuel (length - 1) body (rv ++ [value])
      else mret (Ok (Value.Array rv, body))
  end.

Definition parse_array (parse : T → outcome (result (Value.t T * T) ProtocolError))
    (fuel : nat) (body : T) : outcome (result (Value.t T * T) ProtocolError) :=
  try! (length, body) ← read_int_line body;
  if length <? 0 then mret (Ok (Value.Nil, body)) else
  _ ← with_capacity length;
  parse_items parse fuel length body [].

Fixpoint parse (fuel : nat) (body : T) : outcome (result (Value.t T * T) ProtocolError) :=
  match fuel with
  | O => mret (Err Incomplete)
  | S fuel =>
      try! (byte, body) ← read_byte body;
      if byte =? 43 then parse_status body
      else if byte =? 58 then parse_int body
      else if byte =? 36 then parse_data body
      else if byte =? 42 then parse_array (parse fuel) fuel body
      else if byte =? 45 then parse_error body
      else mret (Err (Invalid (B "Invalid response when parsing value")))
  end.

(** [Parser::new(body).parse()]. *)
Definition parse_body (body : T) : outcome (result (Value.t T * T) ProtocolError) :=
  parse (S (length (td_bytes body))) body.

End ops.
End Parser.

(** ** Connection buffers *)
Module ResponseBuffer.

Record t : Type := mk {
  body : list Z;
  bytes_written : Z;
}.

Definition new : t := mk [] 0.

Section ops.
Context `{Profile} {T : Type} `{Tendril T}.

Definition push_value (b : t) (value : Value.t T) : outcome t :=
  body' ← Value.serialize_to value (body b);
  mret (mk body' (bytes_written b)).

Definition remaining (b : t) : outcome Z := u64 (zlen (body b) - bytes_written b).

Definition advance (b : t) (cnt : Z) : outcome t :=
  written ← u64 (bytes_written b + cnt);
  mret (if written =? zlen (body b) then mk [] 0 else mk (body b) written).

(** [&self.body[self.bytes_written..]] *)
Definition bytes (b : t) : outcome (list Z) :=
  _ ← assert (bytes_written b <=? zlen (body b));
  mret (drop (Z.to_nat (bytes_written b)) (body b)).

End ops.
End ResponseBuffer.

Module RequestBuffer.

Definition MIN_REQUESTBUFFER_SIZE : Z := 4 * 1024.

Record t (T : Type) : Type := mk {
  body : T;
  bytes_read : Z;
}.
Arguments mk {T}.
Arguments body {T}.
Arguments bytes_read {T}.

Section ops.
Context `{Profile} {T : Type} `{Tendril T}.
Variable value_size : Z.

Definition new : t T := mk td_new 0.

Definition pop_value (b : t T) : outcome (t T * result (Value.t T) ProtocolError) :=
  parsed ← Parser.parse_body value_size (td_subtendril 0 (bytes_read b) (body b));
  match parsed with
  | Ok (value, rest) => mret (mk rest (as_u32 (td_len rest)), Ok value)
  | Err e => mret (b, Err e)
  end.

Definition remaining (b : t T) : outcome Z :=
  d ← u32 (td_len (body b) - bytes_read b);
  mret (Z.max MIN_REQUESTBUFFER_SIZE d).

Definition advance (b : t T) (cnt : Z) : outcome (t T) :=
  n ← u32 (bytes_read b + as_u32 cnt);
  mret (mk (body b) n).

(** [mut_bytes]: the buffer after it and the slice it returns. *)
Definition mut_bytes (b : t T) : outcome (t T * list Z) :=
  let cur_len := td_len (body b) in
  room ← u32 (cur_len - bytes_read b);
  let body' := if room <? MIN_REQUESTBUFFER_SIZE then td_grow MIN_REQUESTBUFFER_SIZE (body b) else body b in
  _ ← assert (bytes_read b <=? td_len body');
  mret (mk body' (bytes_read b), drop (Z.to_nat (bytes_read b)) (td_bytes body')).

(** One turn of the read loop of [Client::ready]: [read] stores the bytes
    [bs] at the front of the slice. *)
Definition fill (b : t T) (bs : list Z) : outcome (t T) :=
  '(b, _) ← mut_bytes b;
  advance (mk (td_write (bytes_read b) bs (body b)) (bytes_read b)) (zlen bs).

End ops.
End RequestBuffer.
