(* ===== verification/WireFacts.v ===== *)
(** * Facts on the parser and the serializer

    Reading a line, an integer or a block of bytes from a body; what a value
    looks like on the wire ([reply]); parsing undoes serializing; the fuel
    of the parser is enough. *)
From S2P Require Import Prelude.
From S2P Require Import Text.
From S2P Require Import Segments.
From S2P Require Import Wire.

(** ** Positions *)

Lemma position_app b l r : b ∉ l → Parser.position b (l ++ b :: r) = Some (zlen l).
Proof.
  induction l as [|c l IH]; cbn; intros Hb; [by rewrite Z.eqb_refl|].
  apply not_elem_of_cons in Hb as [Hbc Hb]. rewrite (proj2 (Z.eqb_neq c b)) by congruence.
  rewrite IH by done. cbn. rewrite zlen_cons. f_equal. lia.
Qed.

Lemma position_Some b l p :
  Parser.position b l = Some p → ∃ l1 l2, l = l1 ++ b :: l2 ∧ p = zlen l1 ∧ b ∉ l1.
Proof.
  revert p. induction l as [|c l IH]; intros p; cbn; [done|].
  destruct (Z.eqb_spec c b) as [->|Hne].
  - intros [= <-]. exists [], l. split_and!; [done|done|apply not_elem_of_nil].
  - destruct (Parser.position b l) as [p'|]; [|done]. intros [= <-].
    destruct (IH p' eq_refl) as (l1 & l2 & -> & -> & Hb). exists (c :: l1), l2.
    split_and!; [done|rewrite zlen_cons; lia|]. by apply not_elem_of_cons.
Qed.

Lemma position_None b l : b ∉ l → Parser.position b l = None.
Proof.
  induction l as [|c l IH]; cbn; intros Hb; [done|]. apply not_elem_of_cons in Hb as [Hbc Hb].
  rewrite (proj2 (Z.eqb_neq c b)) by congruence. by rewrite IH.
Qed.

Section facts.
Context `{Profile} {T : Type} `{TendrilOk T}.

(** A tendril's length is a [u32]. *)
Definition sized (t : T) : Prop := td_len t < 2 ^ 32.

Lemma sized_split (t : T) (l r : list Z) : td_bytes t = l ++ r → sized t → zlen l + zlen r < 2 ^ 32.
Proof. unfold sized, td_len. intros ->. by rewrite zlen_app. Qed.

Lemma sized_part (t u : T) (l r : list Z) :
  td_bytes t = l ++ r → td_bytes u = r → sized t → sized u.
Proof.
  unfold sized, td_len. intros -> ->. rewrite zlen_app. pose proof (zlen_nonneg l). lia.
Qed.

(** ** Splitting and reading *)

Lemma split_at_ok (t : T) (l r : list Z) :
  td_bytes t = l ++ r → sized t →
  ∃ a b, Parser.split_at t (zlen l) = Done (a, b) ∧ td_bytes a = l ∧ td_bytes b = r.
Proof.
  intros Ht Hs. pose proof (sized_split _ _ _ Ht Hs). pose proof (zlen_nonneg l). pose proof (zlen_nonneg r).
  assert (td_len t = zlen l + zlen r) as Hl by (unfold td_len; by rewrite Ht, zlen_app).
  unfold Parser.split_at. rewrite as_u32_in by (unfold in_u32; lia). cbn zeta. rewrite Hl.
  replace (zlen l + zlen r - zlen l) with (zlen r) by lia. mint.
  eexists _, _. split; [reflexivity|].
  rewrite td_pop_back_bytes, td_subtendril_bytes by lia. rewrite Ht, Hl.
  replace (zlen l + zlen r - zlen r) with (zlen l) by lia. unfold zlen. rewrite !Nat2Z.id.
  by rewrite take_app_length, drop_app_length, firstn_all.
Qed.

Lemma read_ok (body : T) (l r : list Z) :
  td_bytes body = l ++ r → sized body →
  ∃ a b, Parser.read (zlen l) body = Done (Ok (a, b)) ∧ td_bytes a = l ∧ td_bytes b = r.
Proof.
  intros Hb Hs. destruct (split_at_ok _ _ _ Hb Hs) as (a & b & Hsp & Ha & Hb').
  exists a, b. unfold Parser.read. unfold td_len. rewrite Hb, zlen_app.
  pose proof (zlen_nonneg r). rewrite (proj2 (Z.leb_le _ _)) by lia. by rewrite Hsp, bind_Done.
Qed.

(** [read] either splits the body or asks for more. *)
Lemma read_cases (body : T) n :
  0 ≤ n → sized body →
  (∃ a b, Parser.read n body = Done (Ok (a, b)) ∧ td_bytes body = td_bytes a ++ td_bytes b ∧
     zlen (td_bytes a) = n) ∨
  (Parser.read n body = Done (Err Incomplete) ∧ td_len body < n).
Proof.
  intros Hn Hs. destruct (Z.le_gt_cases n (td_len body)) as [Hle|Hgt].
  - left. assert (zlen (take (Z.to_nat n) (td_bytes body)) = n) as Hl by (apply zlen_take; unfold td_len in *; lia).
    destruct (read_ok body (take (Z.to_nat n) (td_bytes body)) (drop (Z.to_nat n) (td_bytes body)))
      as (a & b & Hr & Ha & Hb); [by rewrite take_drop|done|].
    rewrite Hl in Hr. exists a, b. rewrite Ha, Hb, take_drop. by split_and!.
  - right. unfold Parser.read. by rewrite (proj2 (Z.leb_gt _ _)).
Qed.

Lemma read_line_ok (body : T) (l r : list Z) :
  td_bytes body = l ++ crlf ++ r → CR ∉ l → sized body →
  ∃ line rest, Parser.read_line body = Done (Ok (line, rest)) ∧ td_bytes line = l ∧ td_bytes rest = r.
Proof.
  intros Hb Hl Hs. unfold Parser.read_line. rewrite Hb. change (l ++ crlf ++ r) with (l ++ CR :: 10 :: r).
  rewrite position_app by done. pose proof (sized_split _ _ _ Hb Hs). pose proof (zlen_nonneg l).
  pose proof (zlen_nonneg (crlf ++ r)). mint.
  rewrite app_assoc in Hb. replace (zlen l + 2) with (zlen (l ++ crlf)) by (rewrite zlen_app; done).
  destruct (read_ok _ _ _ Hb Hs) as (line & rest & Hr & Hline & Hrest). rewrite Hr, bind_Done.
  destruct (split_at_ok line l crlf Hline) as (a & b & Hsp & Ha & Hb').
  { unfold sized, td_len. rewrite Hline, zlen_app. change (zlen crlf) with 2.
    rewrite zlen_app in *. change (zlen crlf) with 2 in *. pose proof (zlen_nonneg r). lia. }
  rewrite Hsp, bind_Done, bool_decide_true by done. by exists a, rest.
Qed.

(** [read_line] never panics, and what it returns was at the front. *)
Lemma read_line_cases (body : T) :
  sized body →
  (∃ line rest, Parser.read_line body = Done (Ok (line, rest)) ∧
     td_bytes body = td_bytes line ++ crlf ++ td_bytes rest) ∨
  (∃ e, Parser.read_line body = Done (Err e)).
Proof.
  intros Hs. destruct (Parser.position CR (td_bytes body)) as [p|] eqn:Hp.
  2:{ right. unfold Parser.read_line. rewrite Hp. by eexists. }
  pose proof Hp as Hp'. apply position_Some in Hp' as (l1 & l2 & Hb & -> & Hl1).
  destruct l2 as [|c l2]; [|destruct (decide (c = 10)) as [->|Hc]].
  - right. unfold Parser.read_line. rewrite Hp.
    pose proof (sized_split _ _ _ Hb Hs) as Hlt. change (zlen [CR]) with 1 in Hlt. pose proof (zlen_nonneg l1).
    rewrite u64_in, bind_Done by (unfold in_u64; lia).
    destruct (read_cases body (zlen l1 + 2)) as [(a & b & _ & Hab & Hl)|[Hr _]]; [lia|done| |].
    + exfalso. rewrite Hb in Hab. apply (f_equal zlen) in Hab. rewrite !zlen_app in Hab.
      change (zlen [CR]) with 1 in Hab.
      pose proof (zlen_nonneg (td_bytes b)). lia.
    + rewrite Hr, bind_Done. by eexists.
  - left. destruct (read_line_ok body l1 l2 Hb Hl1 Hs) as (line & rest & Hr & Hl & Hrest).
    exists line, rest. by rewrite Hr, Hb, Hl, Hrest.
  - right. unfold Parser.read_line. rewrite Hp. rewrite cons_middle in Hb.
    change (l1 ++ [CR] ++ c :: l2) with (l1 ++ [CR; c] ++ l2) in Hb. rewrite app_assoc in Hb.
    pose proof (sized_split _ _ _ Hb Hs) as Hlt. rewrite zlen_app in Hlt. change (zlen [CR; c]) with 2 in Hlt.
    pose proof (zlen_nonneg l1). pose proof (zlen_nonneg l2).
    rewrite u64_in, bind_Done by (unfold in_u64; lia).
    destruct (read_ok _ _ _ Hb Hs) as (line & rest & Hr & Hline & Hrest).
    rewrite zlen_app in Hr. change (zlen [CR; c]) with 2 in Hr. rewrite Hr, bind_Done.
    destruct (split_at_ok line l1 [CR; c] Hline) as (a & b & Hsp & Ha & Hb').
    { unfold sized, td_len. rewrite Hline, zlen_app. change (zlen [CR; c]) with 2. lia. }
    rewrite Hsp, bind_Done, bool_decide_false by (rewrite Hb'; unfold crlf; congruence). by eexists.
Qed.

(** ** Integers *)

Lemma print_i64_no_cr n : CR ∉ print_i64 n.
Proof.
  intros Hin. pose proof (print_i64_chars n) as Hc. rewrite Forall_forall in Hc.
  destruct (Hc _ Hin) as [Hd|Hd]; unfold is_digit, CR in Hd; [by cbn in Hd|done].
Qed.

Lemma read_int_line_ok (body : T) n r :
  td_bytes body = print_i64 n ++ crlf ++ r → - 2 ^ 63 ≤ n < 2 ^ 63 → sized body →
  ∃ rest, Parser.read_int_line body = Done (Ok (n, rest)) ∧ td_bytes rest = r.
Proof.
  intros Hb Hn Hs. destruct (read_line_ok _ _ _ Hb (print_i64_no_cr n) Hs) as (line & rest & Hr & Hl & Hrest).
  exists rest. unfold Parser.read_int_line. rewrite Hr, bind_Done, Hl, parse_i64_print by done. done.
Qed.

Lemma parse_nonempty_range max l r : 0 ≤ max → parse_nonempty max l = Some r → 0 ≤ r ≤ max.
Proof.
  intros Hm. unfold parse_nonempty. destruct l; [done|]. intros Hp. by apply parse_digits_range in Hp; [|lia].
Qed.

Lemma parse_i64_range l n : parse_i64 l = Some n → - 2 ^ 63 ≤ n < 2 ^ 63.
Proof.
  intros Hp. assert (∃ k m, (n = m ∧ parse_nonempty (2 ^ 63 - 1) k = Some m) ∨
    (n = - m ∧ parse_nonempty (2 ^ 63) k = Some m)) as (k & m & [[-> Hm]|[-> Hm]]).
  { unfold parse_i64 in Hp. repeat case_match; eauto 6.
    all: apply fmap_Some in Hp as (m & Hm & ->); eauto 6. }
  all: apply parse_nonempty_range in Hm; lia.
Qed.

Lemma read_int_line_cases (body : T) :
  sized body →
  (∃ n rest l, Parser.read_int_line body = Done (Ok (n, rest)) ∧ - 2 ^ 63 ≤ n < 2 ^ 63 ∧
     td_bytes body = l ++ crlf ++ td_bytes rest ∧ parse_i64 l = Some n) ∨
  (∃ e, Parser.read_int_line body = Done (Err e)).
Proof.
  intros Hs. unfold Parser.read_int_line.
  destruct (read_line_cases body Hs) as [(line & rest & Hr & Hb)|(e & Hr)]; rewrite Hr, bind_Done; [|right; by eexists].
  destruct (parse_i64 (td_bytes line)) as [n|] eqn:Hn; [|right; by eexists].
  left. exists n, rest, (td_bytes line). pose proof (parse_i64_range _ _ Hn) as [? ?]. by split_and!.
Qed.

(** ** Fuel

    [parse] never panics but for a capacity overflow, what it consumes was at
    the front, and more fuel than bytes changes nothing. *)
Variable value_size : Z.

(** An array header whose announced length cannot be allocated. *)
Definition huge (body : T) : Prop :=
  ∃ before digits n after, td_bytes body = before ++ B "*" ++ digits ++ crlf ++ after ∧
    parse_i64 digits = Some n ∧ 2 ^ 63 ≤ n * value_size.

Lemma huge_more (body body' : T) l : td_bytes body = l ++ td_bytes body' → huge body' → huge body.
Proof.
  intros Hb (before & digits & n & after & Hb' & ?). exists (l ++ before), digits, n, after.
  by rewrite Hb, Hb', app_assoc.
Qed.

(** What a parsing function does to the body. *)
Definition consumes (body : T) (r : outcome (result (Value.t T * T) ProtocolError)) : Prop :=
  match r with
  | Done (Ok (_, rest)) => ∃ l, l ≠ [] ∧ td_bytes body = l ++ td_bytes rest
  | Done (Err _) => True
  | Panic => huge body
  | Undefined => False
  end.

Lemma consumes_more (body body' : T) l r :
  td_bytes body = l ++ td_bytes body' → consumes body' r → consumes body r.
Proof.
  intros Hb. unfold consumes. destruct r as [[[v rest]|e]| |]; [|done|by apply huge_more with l|done].
  intros (k & Hk & Hb'). exists (l ++ k). rewrite Hb, Hb', app_assoc. split; [|done].
  by intros [_ ?]%app_nil.
Qed.

Lemma read_byte_cases (body : T) :
  sized body →
  (∃ byte rest, Parser.read_byte body = Done (Ok (byte, rest)) ∧ td_bytes body = byte :: td_bytes rest) ∨
  Parser.read_byte body = Done (Err Incomplete).
Proof.
  intros Hs. unfold Parser.read_byte. destruct (td_bytes body) as [|byte l] eqn:Hb; [by right|left].
  eexists _, _. split; [reflexivity|]. rewrite td_pop_front_bytes by (unfold td_len; rewrite Hb, zlen_cons;
    pose proof (zlen_nonneg l); lia). by rewrite Hb.
Qed.

Lemma parse_line_consumes (body : T) (f : T → Value.t T) :
  sized body →
  consumes body (try! (line, body) ← Parser.read_string_line body; mret (Ok (f line, body))).
Proof.
  intros Hs. unfold Parser.read_string_line.
  destruct (read_line_cases body Hs) as [(line & rest & -> & Hb)|(e & ->)]; rewrite bind_Done; [|done].
  destruct (utf8_valid _); rewrite bind_Done; [|done]. cbn.
  exists (td_bytes line ++ crlf). rewrite <-app_assoc. split; [|done]. by intros [_ ?]%app_nil.
Qed.

Lemma parse_int_consumes (body : T) : sized body → consumes body (Parser.parse_int body).
Proof.
  intros Hs. unfold Parser.parse_int.
  destruct (read_int_line_cases body Hs) as [(n & rest & l & -> & _ & Hb & _)|(e & ->)]; rewrite bind_Done; [|done].
  exists (l ++ crlf). rewrite <-app_assoc. split; [|done]. by intros [_ ?]%app_nil.
Qed.

Lemma parse_data_consumes (body : T) : sized body → consumes body (Parser.parse_data body).
Proof.
  intros Hs. unfold Parser.parse_data.
  destruct (read_int_line_cases body Hs) as [(n & rest & l & -> & Hn & Hb & _)|(e & ->)]; rewrite bind_Done; [|done].
  assert (sized rest) as Hrs by (eapply (sized_part body); [by rewrite app_assoc in Hb|done|done]).
  destruct (Z.ltb_spec n 0).
  { exists (l ++ crlf). rewrite <-app_assoc. split; [|done]. by intros [_ ?]%app_nil. }
  mint. destruct (read_cases rest (n + 2)) as [(a & b & -> & Hab & Hl)|[-> _]]; [lia|done| |done].
  rewrite bind_Done.
  destruct (split_at_ok a (take (Z.to_nat n) (td_bytes a)) (drop (Z.to_nat n) (td_bytes a)))
    as (d & sep & Hsp & _ & _); [by rewrite take_drop| |].
  { unfold sized, td_len in *. rewrite Hab, zlen_app in Hrs. pose proof (zlen_nonneg (td_bytes b)). lia. }
  rewrite zlen_take in Hsp by lia. rewrite Hsp, bind_Done. case_bool_decide; [|done].
  exists (l ++ crlf ++ td_bytes a). rewrite Hb, Hab, <-!app_assoc. split; [|done].
  by intros [_ [? _]%app_nil]%app_nil.
Qed.

Lemma parse_items_consumes f fuel n (body : T) rv :
  (∀ body, sized body → consumes body (f body)) → sized body →
  match Parser.parse_items f fuel n body rv with
  | Done (Ok (_, rest)) => ∃ l, td_bytes body = l ++ td_bytes rest
  | Done (Err _) => True
  | Panic => huge body
  | Undefined => False
  end.
Proof.
  intros Hf. revert n body rv. induction fuel as [|fuel IH]; intros n body rv Hs; [done|].
  cbn [Parser.parse_items]. destruct (0 <? n); [|by exists []].
  pose proof (Hf body Hs) as Hc. destruct (f body) as [[[v rest]|e]| |]; [|done..].
  destruct Hc as (l & _ & Hb). rewrite bind_Done.
  specialize (IH (n - 1) rest (rv ++ [v]) ltac:(by eapply sized_part)).
  destruct (Parser.parse_items _ _ _ _ _) as [[[v' rest']|e']| |]; [|done|by eapply huge_more|done].
  destruct IH as (l' & Hb'). exists (l ++ l'). by rewrite Hb, Hb', app_assoc.
Qed.

Lemma parse_array_consumes f fuel (body rest : T) :
  (∀ body, sized body → consumes body (f body)) → sized rest → td_bytes body = B "*" ++ td_bytes rest →
  consumes body (Parser.parse_array value_size f fuel rest).
Proof.
  intros Hf Hrs Hb. unfold Parser.parse_array.
  destruct (read_int_line_cases rest Hrs) as [(n & rest' & l & -> & Hn & Hb' & Hp)|(e & ->)]; rewrite bind_Done; [|done].
  rewrite Hb' in Hb. destruct (Z.ltb_spec n 0); [by exists (B "*" ++ l ++ crlf); rewrite <-!app_assoc|].
  unfold Parser.with_capacity, assert. destruct (Z.ltb_spec (n * value_size) (2 ^ 63)); rewrite ?bind_Done;
    [|by exists [], l, n, (td_bytes rest')].
  assert (sized rest') as Hrs' by (eapply (sized_part rest); [by rewrite app_assoc in Hb'|done|done]).
  pose proof (parse_items_consumes f fuel n rest' [] Hf Hrs') as Hi.
  destruct (Parser.parse_items _ _ _ _ _) as [[[v' r']|e']| |];
    [|done|by apply (huge_more body rest' (B "*" ++ l ++ crlf)); [by rewrite <-!app_assoc|]|done].
  destruct Hi as (l' & Hl'). exists (B "*" ++ l ++ crlf ++ l'). by rewrite Hb, Hl', <-!app_assoc.
Qed.

Lemma parse_consumes fuel (body : T) : sized body → consumes body (Parser.parse value_size fuel body).
Proof.
  revert body. induction fuel as [|fuel IH]; intros body Hs; [done|]. cbn [Parser.parse].
  destruct (read_byte_cases body Hs) as [(byte & rest & -> & Hb)| ->]; rewrite bind_Done; [|done].
  assert (sized rest) as Hrs by (by apply (sized_part body rest [byte] (td_bytes rest))).
  assert (∀ r, consumes rest r → consumes body r) as Hmore by (intros r; by apply (consumes_more body rest [byte])).
  repeat case_match; try done;
    [by apply Hmore, parse_line_consumes|by apply Hmore, parse_int_consumes|by apply Hmore, parse_data_consumes|
    |by apply Hmore, parse_line_consumes].
  apply parse_array_consumes; [exact IH|done|]. rewrite Hb. by replace byte with 42 by lia.
Qed.

Definition size (body : T) : nat := length (td_bytes body).

Lemma parse_items_fuel f g k j n (body : T) rv bound :
  (∀ body, sized body → (size body ≤ bound)%nat → f body = g body ∧ consumes body (g body)) → sized body →
  (size body ≤ bound)%nat → (size body < k)%nat → (size body < j)%nat →
  Parser.parse_items f k n body rv = Parser.parse_items g j n body rv.
Proof.
  intros Hfg. revert j n body rv. induction k as [|k IH]; intros j n body rv Hs Hb Hk Hj; [lia|].
  destruct j as [|j]; [lia|]. cbn [Parser.parse_items]. destruct (0 <? n); [|done].
  destruct (Hfg body Hs Hb) as [-> Hc]. destruct (g body) as [[[v rest]|e]| |]; [|done..].
  destruct Hc as (l & Hne & Hl). rewrite !bind_Done.
  assert (size rest < size body)%nat.
  { unfold size. rewrite Hl, length_app. destruct l; [done|simpl; lia]. }
  apply IH; [by eapply sized_part|lia..].
Qed.

Lemma parse_fuel k j (body : T) :
  sized body → (size body < k)%nat → (size body < j)%nat →
  Parser.parse value_size k body = Parser.parse value_size j body.
Proof.
  revert j body. induction k as [|k IH]; intros j body Hs Hk Hj; [lia|]. destruct j as [|j]; [lia|].
  cbn [Parser.parse].
  destruct (read_byte_cases body Hs) as [(byte & rest & -> & Hb)| ->]; rewrite !bind_Done; [|done].
  assert (sized rest) as Hrs by (by apply (sized_part body rest [byte] (td_bytes rest))).
  assert (S (size rest) = size body) as Hsz by (unfold size; by rewrite Hb).
  repeat case_match; try done. unfold Parser.parse_array.
  destruct (read_int_line_cases rest Hrs) as [(n & rest' & l & -> & Hn & Hb' & _)|(e & ->)]; rewrite !bind_Done; [|done].
  case_match; [done|]. destruct (Parser.with_capacity _ _); [|done..]. rewrite !bind_Done.
  assert (size rest' ≤ size rest)%nat by (unfold size; rewrite Hb', !length_app; lia).
  apply (parse_items_fuel _ _ _ _ _ _ _ (size rest')); [|by eapply (sized_part rest); [rewrite app_assoc in Hb'|..]|lia..].
  intros body2 Hs2 Hb2. split; [apply IH; (done || lia)|by apply parse_consumes].
Qed.

End facts.
