(* ===== verification/WireProps.v ===== *)
(** * Properties of the wire protocol

    Parsing undoes serializing; the parser terminates; the request buffer
    yields the same values however the bytes arrive; the response buffer
    hands out exactly what was serialized. *)
From S2P Require Import Prelude.
From S2P Require Import Text.
From S2P Require Import Settings.
From S2P Require Import Segments.
From S2P Require Import SegmentSpec.
From S2P Require Import SegmentFacts.
From S2P Require Import SegmentProps.
From S2P Require Import LogSpec.
From S2P Require Import Wire.
From S2P Require Import WireFacts.

(** What a peer sees of a value: messages arrive as arrays. *)
Inductive reply : Type :=
| RNil
| RInt (v : Z)
| RData (v : list Z)
| RArray (a : list reply)
| RStatus (v : list Z)
| RError (v : list Z).

Section reply_ind.
Variable P : reply → Prop.
Hypothesis Hnil : P RNil.
Hypothesis Hint : ∀ v, P (RInt v).
Hypothesis Hdata : ∀ v, P (RData v).
Hypothesis Harray : ∀ a, Forall P a → P (RArray a).
Hypothesis Hstatus : ∀ v, P (RStatus v).
Hypothesis Herror : ∀ v, P (RError v).

Fixpoint reply_rect' (r : reply) : P r :=
  match r with
  | RNil => Hnil
  | RInt v => Hint v
  | RData v => Hdata v
  | RArray a => Harray a ((fix go (a : list reply) : Forall P a :=
      match a with [] => Forall_nil_2 P | r :: a => Forall_cons_2 P r a (reply_rect' r) (go a) end) a)
  | RStatus v => Hstatus v
  | RError v => Herror v
  end.
End reply_ind.

Fixpoint enc_reply (r : reply) : list Z :=
  match r with
  | RNil => B "$-1" ++ crlf
  | RInt v => B ":" ++ print_i64 v ++ crlf
  | RData v => B "$" ++ print_u64 (zlen v) ++ crlf ++ v ++ crlf
  | RArray a => (B "*" ++ print_u64 (zlen a) ++ crlf) ++ foldr (λ r l, enc_reply r ++ l) [] a
  | RStatus v => B "+" ++ v ++ crlf
  | RError v => B "-" ++ v ++ crlf
  end.

Definition enc_replies (a : list reply) : list Z := foldr (λ r l, enc_reply r ++ l) [] a.

(** Integers in range, one-line strings, and arrays that can be allocated. *)
Fixpoint wf_reply (value_size : Z) (r : reply) : Prop :=
  match r with
  | RNil => True
  | RInt v => - 2 ^ 63 ≤ v < 2 ^ 63
  | RData v => zlen v < 2 ^ 32
  | RArray a => zlen a * value_size < 2 ^ 63 ∧ zlen a < 2 ^ 63 ∧
      foldr (λ r Q, wf_reply value_size r ∧ Q) True a
  | RStatus v => CR ∉ v ∧ utf8_valid v = true
  | RError v => CR ∉ v ∧ utf8_valid v = true
  end.

Section props.
Context `{Profile} {T : Type} `{TendrilOk T}.

(** The reply a value is seen as. *)
Fixpoint wire (v : Value.t T) : outcome reply :=
  match v with
  | Value.Nil => mret RNil
  | Value.Int v => mret (RInt v)
  | Value.Data v => mret (RData (td_bytes v))
  | Value.Array a =>
      a ← (fix go (a : list (Value.t T)) : outcome (list reply) :=
             match a with
             | [] => mret []
             | v :: a => r ← wire v; a ← go a; mret (r :: a)
             end) a;
      mret (RArray a)
  | Value.Status v => mret (RStatus (td_bytes v))
  | Value.Error v => mret (RError (td_bytes v))
  | Value.Message ticket message =>
      id ← Message.id message;
      body ← Message.body message;
      _ ← assert (0 <=? id);
      mret (RArray [RInt id; RInt ticket; RData body])
  end.

Definition wires (a : list (Value.t T)) : outcome (list reply) :=
  foldr (λ v acc, r ← wire v; a ← acc; mret (r :: a)) (mret []) a.

Lemma wire_array a : wire (Value.Array a) = (a ← wires a; mret (RArray a)).
Proof.
  cbn [wire]. enough (∀ l, (fix go (a : list (Value.t T)) : outcome (list reply) :=
      match a with [] => mret [] | v :: a => r ← wire v; a ← go a; mret (r :: a) end) l = wires l) as -> by done.
  induction l as [|v l IH]; [done|]. cbn. by rewrite IH.
Qed.

Definition serialize_all (a : list (Value.t T)) (f : list Z) : outcome (list Z) :=
  foldl (λ acc v, f ← acc; Value.serialize_to v f) (mret f) a.

Lemma foldl_bind_Done a (m : outcome (list Z)) :
  foldl (λ acc v, f ← acc; Value.serialize_to (T:=T) v f) m a = (f ← m; serialize_all a f).
Proof.
  destruct m as [f| |]; [done|..]; by induction a.
Qed.

Lemma serialize_array a f :
  Value.serialize_to (Value.Array a) f = serialize_all a (f ++ B "*" ++ print_u64 (zlen a) ++ crlf).
Proof.
  cbn [Value.serialize_to]. generalize (f ++ B "*" ++ print_u64 (zlen a) ++ crlf). intros g. revert g.
  induction a as [|v a IH]; intros g; [done|]. unfold serialize_all. cbn [foldl].
  rewrite foldl_bind_Done, (bind_Done g).
  destruct (Value.serialize_to v g); [rewrite !bind_Done; apply IH|done..].
Qed.

(** ** Serializing *)

Lemma wires_length a rs : wires a = Done rs → length rs = length a.
Proof.
  revert rs. induction a as [|v a IH]; intros rs; cbn; [by intros [= <-]|].
  intros (r & _ & (rs' & Hrs & [= <-])%bind_Done_iff)%bind_Done_iff. cbn. by rewrite (IH _ Hrs).
Qed.

Lemma Value_ind' (P : Value.t T → Prop) :
  P Value.Nil → (∀ v, P (Value.Int v)) → (∀ v, P (Value.Data v)) →
  (∀ a, Forall P a → P (Value.Array a)) → (∀ v, P (Value.Status v)) → (∀ v, P (Value.Error v)) →
  (∀ t m, P (Value.Message t m)) → ∀ v, P v.
Proof.
  intros Hn Hi Hd Ha Hs He Hm. fix IH 1. intros [|v|v|a|v|v|t m]; [done|done|done| |done|done|done].
  apply Ha. induction a as [|v a IHa]; constructor; [apply IH|apply IHa].
Qed.

(** The bytes appended are those of the reply. *)
Lemma serialize_wire v r f :
  wire v = Done r → Value.serialize_to v f = Done (f ++ enc_reply r).
Proof.
  revert r f. induction v as [|v|v|a IH|v|v|t m] using Value_ind'; intros r f Hw.
  1-3, 5-6: injection Hw as <-; done.
  - rewrite wire_array in Hw. apply bind_Done_iff in Hw as (rs & Hrs & [= <-]).
    rewrite serialize_array. cbn [enc_reply]. fold (enc_replies rs).
    rewrite (app_assoc f (B "*" ++ print_u64 (zlen rs) ++ crlf)). replace (zlen rs) with (zlen a) by (unfold zlen; by rewrite (wires_length _ _ Hrs)).
    generalize (f ++ B "*" ++ print_u64 (zlen a) ++ crlf). intros g. revert rs Hrs g.
    induction IH as [|v a Hv _ IHa]; intros rs Hrs g; cbn in Hrs.
    { injection Hrs as <-. unfold serialize_all, enc_replies. cbn. by rewrite app_nil_r. }
    apply bind_Done_iff in Hrs as (r & Hr & (rs' & Hrs & [= <-])%bind_Done_iff).
    unfold serialize_all. cbn [foldl]. rewrite foldl_bind_Done, (bind_Done g).
    rewrite (Hv _ g Hr), bind_Done, (IHa _ Hrs). cbn [enc_replies foldr]. by rewrite app_assoc.
  - cbn in Hw. apply bind_Done_iff in Hw as (id & Hid & (body & Hbody & Hw)%bind_Done_iff).
    apply bind_Done_iff in Hw as (u & Hpos%assert_true_iff & [= <-]).
    cbn [Value.serialize_to]. rewrite Hid, Hbody, !bind_Done. cbn [enc_reply foldr].
    rewrite app_nil_r. change (print_u64 (zlen [RInt id; RInt t; RData body])) with (B "3").
    unfold print_i64 at 2. rewrite (proj2 (Z.ltb_ge id 0)) by lia.
    change (B "*3") with (B "*" ++ B "3"). unfold mret, outcome_ret. f_equal.
    by rewrite <-!app_assoc.
Qed.

Lemma serialize_all_append a f :
  Forall (λ v, ∀ f, Value.serialize_to v f = (out ← Value.serialize_to v []; mret (f ++ out))) a →
  serialize_all a f = (out ← serialize_all a []; mret (f ++ out)).
Proof.
  intros Ha. revert f. induction Ha as [|v a Hv _ IH]; intros f; [cbn; by rewrite app_nil_r|].
  unfold serialize_all. cbn [foldl]. rewrite !foldl_bind_Done, !bind_Done, Hv.
  destruct (Value.serialize_to v []) as [out| |]; [|done..]. rewrite !bind_Done, (IH (f ++ out)), (IH out).
  destruct (serialize_all a []); [|done..]. rewrite !bind_Done. by rewrite app_assoc.
Qed.

(** A value is appended to what is in the buffer. *)
Lemma serialize_append v f : Value.serialize_to v f = (out ← Value.serialize_to v []; mret (f ++ out)).
Proof.
  revert f. induction v as [|v|v|a IH|v|v|t m] using Value_ind'; intros f; try done.
  - rewrite !serialize_array, (serialize_all_append a (f ++ _) IH), (serialize_all_append a ([] ++ _) IH).
    destruct (serialize_all a []) as [out| |]; [|done..]. rewrite !bind_Done. cbn [app]. by rewrite <-!app_assoc.
  - cbn [Value.serialize_to]. destruct (Message.id m); [|done..]. rewrite !bind_Done. by destruct (Message.body m).
Qed.

(** The messages of the queues that a value holds. *)
Fixpoint messages (v : Value.t T) : list Message.t :=
  match v with
  | Value.Message _ m => [m]
  | Value.Array a => flat_map messages a
  | _ => []
  end.

(** The id and the body are within the mapping of the segment. *)
Definition legible (m : Message.t) : Prop := ∃ id body, Message.id m = Done id ∧ Message.body m = Done body.

Lemma legible_cases m : legible m ∨ ¬ legible m.
Proof.
  unfold legible. destruct (Message.id m) as [id| |]; [|right; by intros (? & ? & ? & _)..].
  destruct (Message.body m) as [body| |]; [left; by eexists _, _|right; by intros (? & ? & _ & ?)..].
Qed.

Lemma serialize_all_cases a :
  Forall (λ v, (∃ out, Value.serialize_to v [] = Done out) ∨ ∃ m, m ∈ messages v ∧ ¬ legible m) a →
  (∀ f, ∃ out, serialize_all a f = Done out) ∨ ∃ m, m ∈ flat_map messages a ∧ ¬ legible m.
Proof.
  induction 1 as [|v a Hv _ IH]; [left; intros f; by exists f|]. cbn [flat_map]. setoid_rewrite elem_of_app.
  destruct Hv as [[out Hv]|(m & ? & ?)]; [|right; exists m; auto]. destruct IH as [IH|(m & ? & ?)]; [left|right; exists m; auto].
  intros f. unfold serialize_all. cbn [foldl]. rewrite foldl_bind_Done, bind_Done, serialize_append, Hv. apply IH.
Qed.

(** A value whose messages can all be read has bytes. *)
Lemma serialize_cases v : (∃ out, Value.serialize_to v [] = Done out) ∨ ∃ m, m ∈ messages v ∧ ¬ legible m.
Proof.
  induction v as [|v|v|a IH|v|v|t m] using Value_ind'; try (left; by eexists).
  - rewrite serialize_array. destruct (serialize_all_cases a IH) as [Ha|(m & Hm)]; [left; apply Ha|right; by exists m].
  - destruct (legible_cases m) as [(id & body & Hid & Hb)|Hm]; [left|right; exists m; split; [left|done]].
    cbn [Value.serialize_to]. rewrite Hid, Hb. by eexists.
Qed.

(** ** Parsing what was serialized *)

Variable value_size : Z.

Lemma enc_reply_nonempty r : (3 ≤ length (enc_reply r))%nat.
Proof.
  destruct r; cbn [enc_reply]; rewrite ?length_app; cbn; try lia.
  all: pose proof (length_app); rewrite ?length_app; cbn; lia.
Qed.

(** The parser reads [r] from the front of a body. *)
Definition parses (r : reply) : Prop :=
  ∀ fuel (body : T) rest, td_bytes body = enc_reply r ++ rest → sized body →
    (length (enc_reply r) < fuel)%nat →
    ∃ v body', Parser.parse value_size fuel body = Done (Ok (v, body')) ∧ wire v = Done r ∧ td_bytes body' = rest.

Lemma read_byte_ok (body : T) byte l :
  td_bytes body = byte :: l → ∃ rest, Parser.read_byte body = Done (Ok (byte, rest)) ∧ td_bytes rest = l.
Proof.
  intros Hb. unfold Parser.read_byte. rewrite Hb. eexists. split; [reflexivity|].
  rewrite td_pop_front_bytes by (unfold td_len; rewrite Hb, zlen_cons; pose proof (zlen_nonneg l); lia).
  by rewrite Hb.
Qed.

Lemma parse_items_ok fuel k (body : T) rest rs rv :
  Forall parses rs → td_bytes body = enc_replies rs ++ rest → sized body →
  (length (enc_replies rs) < fuel)%nat → (length (enc_replies rs) < k)%nat →
  ∃ vs body', Parser.parse_items (Parser.parse value_size k) fuel (zlen rs) body rv
      = Done (Ok (Value.Array (rv ++ vs), body')) ∧ wires vs = Done rs ∧ td_bytes body' = rest.
Proof.
  intros Hrs. revert fuel body rv. induction Hrs as [|r rs Hr Hrs IH]; intros fuel body rv Hb Hs Hf Hk.
  { destruct fuel as [|fuel]; [lia|]. exists [], body. cbn. rewrite app_nil_r. change (zlen []) with 0. cbn. split; [done|]. split; [done|]. by rewrite Hb. }
  cbn [enc_replies foldr] in *. fold (enc_replies rs) in *. rewrite length_app in Hf, Hk.
  pose proof (enc_reply_nonempty r). destruct fuel as [|fuel]; [lia|].
  cbn [Parser.parse_items]. rewrite zlen_cons. pose proof (zlen_nonneg rs).
  rewrite (proj2 (Z.ltb_lt 0 _)) by lia. rewrite <-app_assoc in Hb.
  destruct (Hr k body _ Hb Hs) as (v & body' & Hp & Hv & Hb'); [lia|]. rewrite Hp, bind_Done.
  replace (1 + zlen rs - 1) with (zlen rs) by lia.
  destruct (IH fuel body' (rv ++ [v]) Hb') as (vs & body2 & Hp2 & Hvs & Hb2); [exact (sized_part _ _ _ _ Hb Hb' Hs)|lia|lia|].
  exists (v :: vs), body2. rewrite Hp2, <-app_assoc. split; [done|]. split; [|done].
  change (wires (v :: vs)) with (r ← wire v; a ← wires vs; mret (r :: a)).
  by rewrite Hv, bind_Done, Hvs, bind_Done.
Qed.

(** The byte in front is read off. *)
Lemma read_tag (body : T) byte l :
  td_bytes body = byte :: l → sized body →
  ∃ rest, Parser.read_byte body = Done (Ok (byte, rest)) ∧ td_bytes rest = l ∧ sized rest.
Proof.
  intros Hb Hs. destruct (read_byte_ok _ _ _ Hb) as (rest & Hr & Hl). exists rest. split_and!; [done..|].
  apply (sized_part body rest [byte] l); [by rewrite Hb|done|done].
Qed.

Lemma read_string_line_ok (body : T) l r :
  td_bytes body = l ++ crlf ++ r → CR ∉ l → utf8_valid l = true → sized body →
  ∃ line rest, Parser.read_string_line body = Done (Ok (line, rest)) ∧ td_bytes line = l ∧ td_bytes rest = r.
Proof.
  intros Hb Hl Hu Hs. destruct (read_line_ok _ _ _ Hb Hl Hs) as (line & rest & Hr & Hline & Hrest).
  exists line, rest. unfold Parser.read_string_line. by rewrite Hr, bind_Done, Hline, Hu.
Qed.

Lemma print_u64_i64 n : 0 ≤ n → print_u64 n = print_i64 n.
Proof. intros Hn. unfold print_i64. by rewrite (proj2 (Z.ltb_ge n 0)) by lia. Qed.

Lemma parse_data_ok (body : T) d r :
  td_bytes body = print_u64 (zlen d) ++ crlf ++ d ++ crlf ++ r → zlen d < 2 ^ 32 → sized body →
  ∃ v rest, Parser.parse_data body = Done (Ok (Value.Data v, rest)) ∧ td_bytes v = d ∧ td_bytes rest = r.
Proof.
  intros Hb Hd Hs. pose proof (zlen_nonneg d). rewrite print_u64_i64 in Hb by done.
  destruct (read_int_line_ok _ _ _ Hb) as (b1 & Hr1 & Hb1); [lia|done|].
  assert (sized b1) as Hs1 by (eapply (sized_part body); [rewrite Hb, app_assoc; reflexivity|done|done]).
  unfold Parser.parse_data. rewrite Hr1, bind_Done, (proj2 (Z.ltb_ge (zlen d) 0)) by lia. mint.
  rewrite app_assoc in Hb1. destruct (read_ok _ _ _ Hb1 Hs1) as (a & b & Hr & Ha & Hb').
  rewrite zlen_app in Hr. change (zlen crlf) with 2 in Hr. rewrite Hr, bind_Done.
  destruct (split_at_ok a d crlf Ha) as (v & sep & Hsp & Hv & Hsep).
  { unfold sized, td_len in *. rewrite Ha. rewrite Hb1, zlen_app in Hs1. pose proof (zlen_nonneg r). lia. }
  rewrite Hsp, bind_Done, bool_decide_true by done. by exists v, b.
Qed.

Lemma wf_all a : foldr (λ r Q, wf_reply value_size r ∧ Q) True a → Forall (wf_reply value_size) a.
Proof. induction a as [|r a IH]; cbn; [by constructor|]. intros [? ?]. constructor; [done|by apply IH]. Qed.

Lemma parse_array_ok fuel (body : T) a r :
  Forall parses a → td_bytes body = print_u64 (zlen a) ++ crlf ++ enc_replies a ++ r →
  zlen a * value_size < 2 ^ 63 → zlen a < 2 ^ 63 → sized body → (length (enc_replies a) < fuel)%nat →
  ∃ vs rest, Parser.parse_array value_size (Parser.parse value_size fuel) fuel body
      = Done (Ok (Value.Array vs, rest)) ∧ wires vs = Done a ∧ td_bytes rest = r.
Proof.
  intros Ha Hb Hc Hm Hs Hf. pose proof (zlen_nonneg a). rewrite print_u64_i64 in Hb by done.
  destruct (read_int_line_ok _ _ _ Hb) as (b1 & Hr1 & Hb1); [lia|done|].
  assert (sized b1) as Hs1 by (eapply (sized_part body); [rewrite Hb, app_assoc; reflexivity|done|done]).
  unfold Parser.parse_array. rewrite Hr1, bind_Done, (proj2 (Z.ltb_ge (zlen a) 0)) by lia.
  unfold Parser.with_capacity, assert. rewrite (proj2 (Z.ltb_lt _ _)) by done. rewrite bind_Done.
  apply (parse_items_ok fuel fuel b1 r a []); done.
Qed.

#[local] Ltac tag :=
  repeat match goal with |- context [Z.of_N ?n] => let x := eval vm_compute in (Z.of_N n) in change (Z.of_N n) with x end;
  cbn [Z.eqb Pos.eqb].

Lemma parse_reply r : wf_reply value_size r → parses r.
Proof.
  induction r as [|n|d|a IH|s|s] using reply_rect'; intros Hwf fuel body rest Hb Hs Hf;
    (destruct fuel as [|fuel]; [lia|]); cbn [enc_reply] in Hb, Hf; rewrite <-?app_assoc in Hb;
    cbn [Parser.parse]; destruct (read_tag _ _ _ Hb Hs) as (b1 & Hrb & Hb1 & Hs1);
    rewrite Hrb, bind_Done; clear Hrb Hb; tag.
  - destruct (read_int_line_ok b1 (-1) rest Hb1) as (b2 & Hr & Hb2); [lia|done|].
    exists Value.Nil, b2. unfold Parser.parse_data. by rewrite Hr, bind_Done.
  - destruct (read_int_line_ok b1 n rest Hb1 Hwf Hs1) as (b2 & Hr & Hb2).
    exists (Value.Int n), b2. unfold Parser.parse_int. by rewrite Hr, bind_Done.
  - destruct (parse_data_ok b1 d rest Hb1 Hwf Hs1) as (v & b2 & Hr & Hv & Hb2).
    exists (Value.Data v), b2. rewrite Hr. cbn. by rewrite Hv.
  - fold (enc_replies a) in *. destruct Hwf as (Hc & Hm & Hwf%wf_all).
    destruct (parse_array_ok fuel b1 a rest) as (vs & b2 & Hr & Hvs & Hb2); try done.
    { clear - IH Hwf. induction IH; inversion_clear Hwf; constructor; auto. }
    { rewrite !length_app in Hf. cbn in Hf. lia. }
    exists (Value.Array vs), b2. by rewrite Hr, wire_array, Hvs, bind_Done.
  - destruct Hwf as [Hcr Hu]. destruct (read_string_line_ok b1 s rest Hb1 Hcr Hu Hs1) as (v & b2 & Hr & Hv & Hb2).
    exists (Value.Status v), b2. unfold Parser.parse_status. rewrite Hr, bind_Done. cbn. by rewrite Hv.
  - destruct Hwf as [Hcr Hu]. destruct (read_string_line_ok b1 s rest Hb1 Hcr Hu Hs1) as (v & b2 & Hr & Hv & Hb2).
    exists (Value.Error v), b2. unfold Parser.parse_error. rewrite Hr, bind_Done. cbn. by rewrite Hv.
Qed.

(** The bytes of a value, from the wire form. *)
Lemma serialize_bytes v r bytes :
  wire v = Done r → Value.serialize_to v [] = Done bytes → bytes = enc_reply r.
Proof. intros Hw. rewrite (serialize_wire _ _ [] Hw). by intros [= <-]. Qed.

Lemma parse_bytes (body : T) v r bytes rest :
  wire v = Done r → wf_reply value_size r → Value.serialize_to v [] = Done bytes →
  td_bytes body = bytes ++ rest → sized body →
  ∃ v' body', Parser.parse_body value_size body = Done (Ok (v', body')) ∧ wire v' = Done r ∧ td_bytes body' = rest.
Proof.
  intros Hw Hwf Hv Hb Hs. rewrite (serialize_bytes _ _ _ Hw Hv) in Hb.
  apply (parse_reply r Hwf _ body rest Hb Hs). rewrite Hb, length_app. lia.
Qed.

(** ** The request buffer *)

(** What has been received and not parsed yet. *)
Definition received (b : RequestBuffer.t T) : list Z :=
  take (Z.to_nat (RequestBuffer.bytes_read b)) (td_bytes (RequestBuffer.body b)).

Definition request_ok (b : RequestBuffer.t T) : Prop :=
  0 ≤ RequestBuffer.bytes_read b ≤ td_len (RequestBuffer.body b) ∧ sized (RequestBuffer.body b).

(** The reads of a connection, from the new buffer, and the values popped. *)
Inductive fed : RequestBuffer.t T → list Z → Prop :=
| fed_new : fed RequestBuffer.new []
| fed_fill b b1 slice bs b' got :
    fed b got → RequestBuffer.mut_bytes b = Done (b1, slice) → zlen bs ≤ zlen slice →
    sized (RequestBuffer.body b1) → RequestBuffer.fill b bs = Done b' → fed b' (got ++ bs)
| fed_pop b b' v got rest :
    fed b got → RequestBuffer.pop_value value_size b = Done (b', Ok v) →
    received b' = rest → fed b' rest.

Lemma mut_bytes_ok b :
  request_ok b → ∃ b1 slice, RequestBuffer.mut_bytes b = Done (b1, slice) ∧
    RequestBuffer.bytes_read b1 = RequestBuffer.bytes_read b ∧
    td_bytes (RequestBuffer.body b1) = received b ++ slice.
Proof.
  intros [Hr Hs]. unfold RequestBuffer.mut_bytes, sized in *. mint.
  set (body' := if _ <? _ then _ else _).
  assert (∃ fresh, td_bytes body' = td_bytes (RequestBuffer.body b) ++ fresh) as (fresh & Hf).
  { unfold body'. case_match; [by apply td_grow_bytes|]. exists []. by rewrite app_nil_r. }
  pose proof (zlen_nonneg fresh). unfold td_len in *.
  unfold assert. rewrite (proj2 (Z.leb_le _ _)) by (rewrite Hf, zlen_app; lia). rewrite bind_Done.
  eexists _, _. split; [reflexivity|]. cbn [RequestBuffer.bytes_read RequestBuffer.body]. split; [done|].
  unfold received. rewrite Hf, drop_app_le by (unfold zlen in Hr; lia).
  by rewrite app_assoc, take_drop.
Qed.

Lemma mut_bytes_body b b1 slice :
  RequestBuffer.mut_bytes b = Done (b1, slice) →
  RequestBuffer.body b1 = RequestBuffer.body b ∨
  RequestBuffer.body b1 = td_grow RequestBuffer.MIN_REQUESTBUFFER_SIZE (RequestBuffer.body b).
Proof.
  intros (room & _ & (u & _ & [= <- _])%bind_Done_iff)%bind_Done_iff. cbn [RequestBuffer.body].
  destruct (_ <? _); [by right|by left].
Qed.

Lemma fill_ok b b1 slice bs :
  request_ok b → RequestBuffer.mut_bytes b = Done (b1, slice) → zlen bs ≤ zlen slice →
  sized (RequestBuffer.body b1) →
  ∃ b', RequestBuffer.fill b bs = Done b' ∧ request_ok b' ∧ received b' = received b ++ bs.
Proof.
  intros Hb Hm Hl Hs. destruct (mut_bytes_ok b Hb) as (b2 & sl2 & Hm2 & Hr & Hbytes).
  rewrite Hm in Hm2. injection Hm2 as <- <-. unfold RequestBuffer.fill. rewrite Hm, bind_Done.
  destruct Hb as [Hbr Hbs].
  assert (zlen (received b) = RequestBuffer.bytes_read b) as Hlr by (unfold received; rewrite zlen_take; unfold td_len in Hbr; lia).
  pose proof (zlen_nonneg bs). pose proof (f_equal zlen Hbytes) as Hlen. rewrite zlen_app in Hlen.
  unfold sized, td_len in *. unfold RequestBuffer.advance. cbn [RequestBuffer.bytes_read RequestBuffer.body].
  rewrite Hr, as_u32_in by (unfold in_u32; lia). mint. eexists. split; [reflexivity|].
  assert (td_bytes (td_write (RequestBuffer.bytes_read b) bs (RequestBuffer.body b1)) =
    received b ++ bs ++ drop (Z.to_nat (zlen bs)) slice) as Hw.
  { rewrite td_write_bytes by (unfold td_len; lia). rewrite Hbytes, <-Hlr.
    unfold zlen at 1 3. rewrite Nat2Z.id, take_app_length. unfold zlen. rewrite drop_app_ge by lia.
    do 3 f_equal. lia. }
  unfold request_ok, received at 1. cbn [RequestBuffer.bytes_read RequestBuffer.body]. unfold sized, td_len. rewrite Hw.
  split; [split; rewrite !zlen_app, zlen_drop; lia|]. rewrite app_assoc.
  replace (Z.to_nat _) with (length (received b ++ bs)) by (rewrite length_app; unfold zlen in *; lia).
  apply take_app_length.
Qed.

Lemma sub_bytes b : request_ok b →
  td_bytes (td_subtendril 0 (RequestBuffer.bytes_read b) (RequestBuffer.body b)) = received b.
Proof. intros [? _]. rewrite td_subtendril_bytes by lia. done. Qed.

Lemma sub_sized b : request_ok b →
  sized (td_subtendril 0 (RequestBuffer.bytes_read b) (RequestBuffer.body b)).
Proof.
  intros Hb. unfold sized, td_len. rewrite sub_bytes by done. destruct Hb as [Hr Hs].
  unfold received, sized, td_len in *. rewrite zlen_take; lia.
Qed.

(** The buffer left by a successful parse holds the rest. *)
Lemma popped_ok (rest : T) :
  sized rest → request_ok (RequestBuffer.mk rest (as_u32 (td_len rest))) ∧
    received (RequestBuffer.mk rest (as_u32 (td_len rest))) = td_bytes rest.
Proof.
  intros Hs. pose proof (zlen_nonneg (td_bytes rest)). unfold sized, request_ok, received, td_len in *.
  cbn [RequestBuffer.bytes_read RequestBuffer.body]. rewrite as_u32_in by (unfold in_u32; lia).
  split; [unfold sized, td_len; lia|]. unfold zlen. by rewrite Nat2Z.id, firstn_all.
Qed.

Lemma fed_ok b got : fed b got → request_ok b ∧ received b = got.
Proof.
  induction 1 as [|b b1 slice bs b' got _ [Hok <-] Hm Hl Hs Hf|b b' v got rest _ [Hok <-] Hp <-].
  - unfold request_ok, received, sized, td_len. cbn. by rewrite td_new_bytes.
  - destruct (fill_ok b b1 slice bs Hok Hm Hl Hs) as (b2 & Hf2 & Hok2 & Hr2).
    rewrite Hf in Hf2. by injection Hf2 as <-.
  - split; [|done]. unfold RequestBuffer.pop_value, Parser.parse_body in Hp.
    apply bind_Done_iff in Hp as (parsed & Hparse & Hp).
    pose proof (parse_consumes value_size (S (length (td_bytes (td_subtendril 0 (RequestBuffer.bytes_read b) (RequestBuffer.body b))))) _ (sub_sized b Hok)) as Hc.
    rewrite Hparse in Hc. destruct parsed as [[v' rest]|e]; [|done]. injection Hp as <- <-.
    destruct Hc as (l & _ & Hl). apply popped_ok.
    apply (sized_part _ _ _ _ Hl eq_refl). by apply sub_sized.
Qed.

(** ** The response buffer *)

(** The values pushed on a new buffer and the bytes written to the socket:
    [write] takes some of the bytes offered. *)
Inductive served : ResponseBuffer.t → list Z → list Z → Prop :=
| served_new : served ResponseBuffer.new [] []
| served_push b v r b' pushed sent :
    served b pushed sent → wire v = Done r → ResponseBuffer.push_value b v = Done b' →
    served b' (pushed ++ enc_reply r) sent
| served_write b out n b' pushed sent :
    served b pushed sent → ResponseBuffer.bytes b = Done out → 0 ≤ n ≤ zlen out →
    ResponseBuffer.advance b n = Done b' → served b' pushed (sent ++ take (Z.to_nat n) out).

Definition outstanding (b : ResponseBuffer.t) : list Z :=
  drop (Z.to_nat (ResponseBuffer.bytes_written b)) (ResponseBuffer.body b).

Definition response_ok (b : ResponseBuffer.t) : Prop :=
  0 ≤ ResponseBuffer.bytes_written b ≤ zlen (ResponseBuffer.body b).

Lemma bytes_ok b : response_ok b → ResponseBuffer.bytes b = Done (outstanding b).
Proof.
  intros Hb. unfold ResponseBuffer.bytes, assert. by rewrite (proj2 (Z.leb_le _ _)) by apply Hb.
Qed.

Lemma advance_ok b n :
  response_ok b → 0 ≤ n ≤ zlen (outstanding b) → zlen (ResponseBuffer.body b) < 2 ^ 64 →
  ∃ b', ResponseBuffer.advance b n = Done b' ∧ response_ok b' ∧
    outstanding b' = drop (Z.to_nat n) (outstanding b) ∧
    zlen (ResponseBuffer.body b') ≤ zlen (ResponseBuffer.body b).
Proof.
  intros Hb Hn Hl. unfold response_ok, outstanding in *. rewrite zlen_drop in Hn by lia.
  unfold ResponseBuffer.advance. mint. eexists. split; [reflexivity|].
  destruct (Z.eqb_spec (ResponseBuffer.bytes_written b + n) (zlen (ResponseBuffer.body b)));
    cbn [ResponseBuffer.bytes_written ResponseBuffer.body].
  - split; [done|]. split; [|apply zlen_nonneg]. rewrite drop_drop.
    transitivity (@nil Z); [done|]. symmetry. apply drop_ge. unfold zlen in *. lia.
  - split; [lia|]. split; [|done]. rewrite drop_drop. f_equal. lia.
Qed.

Lemma push_bytes_ok b v out :
  response_ok b → Value.serialize_to v [] = Done out →
  ∃ b', ResponseBuffer.push_value b v = Done b' ∧ response_ok b' ∧
    outstanding b' = outstanding b ++ out ∧
    zlen (ResponseBuffer.body b') = zlen (ResponseBuffer.body b) + zlen out.
Proof.
  intros Hb Hw. unfold ResponseBuffer.push_value. rewrite serialize_append, Hw, bind_Done. cbn.
  eexists. split; [reflexivity|]. unfold response_ok, outstanding in *.
  cbn [ResponseBuffer.bytes_written ResponseBuffer.body]. pose proof (zlen_nonneg out).
  rewrite zlen_app. split; [lia|]. split; [|done]. apply drop_app_le. unfold zlen in Hb. lia.
Qed.

Lemma push_value_ok b v r :
  response_ok b → wire v = Done r →
  ∃ b', ResponseBuffer.push_value b v = Done b' ∧ response_ok b' ∧
    outstanding b' = outstanding b ++ enc_reply r ∧
    zlen (ResponseBuffer.body b') = zlen (ResponseBuffer.body b) + zlen (enc_reply r).
Proof.
  intros Hb Hw%(λ Hw, serialize_wire v r [] Hw). by apply (push_bytes_ok b v (enc_reply r)).
Qed.

Lemma served_ok b pushed sent :
  served b pushed sent → zlen pushed < 2 ^ 64 →
  response_ok b ∧ pushed = sent ++ outstanding b ∧ zlen (ResponseBuffer.body b) ≤ zlen pushed.
Proof.
  induction 1 as [|b v r b' pushed sent _ IH Hw Hp|b out n b' pushed sent _ IH Ho Hn Ha]; intros Hl; [done|..].
  - rewrite zlen_app in *. pose proof (zlen_nonneg (enc_reply r)). destruct IH as (Hok & -> & Hle); [lia|].
    destruct (push_value_ok b v r Hok Hw) as (b2 & Hp2 & Hok2 & Hout & Hlen). rewrite Hp in Hp2. injection Hp2 as <-.
    split; [done|]. rewrite Hout, app_assoc. split; [done|]. lia.
  - destruct (IH Hl) as (Hok & -> & Hle). rewrite (bytes_ok b Hok) in Ho. injection Ho as <-.
    destruct (advance_ok b n Hok Hn) as (b2 & Ha2 & Hok2 & Hout & Hlen); [lia|]. rewrite Ha in Ha2. injection Ha2 as <-.
    split; [done|]. rewrite Hout, <-app_assoc, take_drop. split; [done|]. lia.
Qed.

(** ** Theorems *)

(** C31: The request that was serialized on the other side is the value
    popped, however its bytes arrived: from any buffer whose unparsed bytes,
    read in any pieces and after any earlier requests, are the encoding of
    [v] and [rest], [pop_value] returns a value with the wire form of [v] and
    leaves [rest]. *)
Theorem request_in_pieces b v r bytes rest :
  fed b (bytes ++ rest) → wire v = Done r → wf_reply value_size r → Value.serialize_to v [] = Done bytes →
  ∃ b' v', RequestBuffer.pop_value value_size b = Done (b', Ok v') ∧ wire v' = Done r ∧ fed b' rest.
Proof.
  intros Hfed Hw Hwf Hv. destruct (fed_ok _ _ Hfed) as [Hok Hrec].
  destruct (parse_bytes (td_subtendril 0 (RequestBuffer.bytes_read b) (RequestBuffer.body b)) v r bytes rest)
    as (v' & body' & Hp & Hw' & Hb'); [done|done|done| |by apply sub_sized|].
  { by rewrite sub_bytes, Hrec. }
  assert (sized body') as Hs'.
  { eapply sized_part; [|exact Hb'|by apply (sub_sized b)]. by rewrite sub_bytes, Hrec. }
  assert (RequestBuffer.pop_value value_size b = Done (RequestBuffer.mk body' (as_u32 (td_len body')), Ok v')) as Hpop.
  { unfold RequestBuffer.pop_value. by rewrite Hp, bind_Done. }
  eexists _, v'. split; [exact Hpop|]. split; [done|]. eapply fed_pop; [done|exact Hpop|].
  destruct (popped_ok body' Hs') as [_ ->]. done.
Qed.

(** C33: The parser always returns on a body of any bytes, with fuel to spare
    (more fuel gives the same answer): a value, whose bytes were a non-empty
    prefix of the body, or an error. The one panic is the allocation of an
    array whose announced length is too large: a [*] followed by that length.
    (How deep arrays nest, which costs stack, is not modelled.) *)
Theorem parser_total (body : T) k :
  sized body → (length (td_bytes body) < k)%nat →
  Parser.parse value_size k body = Parser.parse_body value_size body ∧
  match Parser.parse_body value_size body with
  | Done (Ok (_, rest)) => ∃ l, l ≠ [] ∧ td_bytes body = l ++ td_bytes rest
  | Done (Err _) => True
  | Panic => ∃ before digits n after, td_bytes body = before ++ B "*" ++ digits ++ crlf ++ after ∧
      parse_i64 digits = Some n ∧ 2 ^ 63 ≤ n * value_size
  | Undefined => False
  end.
Proof.
  intros Hs Hk. split; [apply parse_fuel; unfold size; [done|lia|lia]|].
  apply (parse_consumes value_size _ body Hs).
Qed.

(** The parser allocates the announced length before reading an element:
    an array header whose length in [Value]s exceeds [isize::MAX] bytes
    panics, in the thread of the event loop. *)
Theorem announced_length_panics (body : T) digits n after :
  td_bytes body = [42] ++ digits ++ crlf ++ after → CR ∉ digits → parse_i64 digits = Some n →
  0 < value_size → 2 ^ 63 ≤ n * value_size → sized body →
  Parser.parse_body value_size body = Panic.
Proof.
  intros Hb Hcr Hn Hv Hl Hs. unfold Parser.parse_body. cbn [Parser.parse].
  destruct (read_tag _ _ _ Hb Hs) as (b1 & Hr & Hb1 & Hs1). rewrite Hr, bind_Done. cbn [Z.eqb Pos.eqb].
  destruct (read_line_ok _ _ _ Hb1 Hcr Hs1) as (line & rest & Hline & Hlb & _).
  unfold Parser.parse_array, Parser.read_int_line. rewrite Hline, bind_Done, Hlb, Hn.
  unfold mret at 1, outcome_ret. rewrite bind_Done, (proj2 (Z.ltb_ge n 0)) by nia.
  unfold Parser.with_capacity, assert. by rewrite (proj2 (Z.ltb_ge _ _)) by lia.
Qed.

(** A request is refused, and not waited for, when the bytes received so
    far end inside its first line: without a carriage return the parser
    answers [Invalid], where the rest of the line may still be on its way. *)
Theorem partial_line_refused b byte l :
  fed b (byte :: l) → byte ∈ [36; 42; 43; 45; 58] → CR ∉ l →
  RequestBuffer.pop_value value_size b = Done (b, Err (Invalid (B "Missing line separator"))).
Proof.
  intros Hfed Hbyte Hcr. destruct (fed_ok _ _ Hfed) as [Hok Hrec].
  unfold RequestBuffer.pop_value, Parser.parse_body. cbn [Parser.parse].
  set (body := td_subtendril _ _ _). assert (td_bytes body = byte :: l) as Hb by (unfold body; by rewrite sub_bytes).
  destruct (read_tag body _ _ Hb (sub_sized b Hok)) as (b1 & Hr & Hb1 & _). rewrite Hr, bind_Done.
  assert (Parser.read_line b1 = Done (Err (Invalid (B "Missing line separator")))) as Hline.
  { unfold Parser.read_line. by rewrite Hb1, position_None. }
  repeat (apply elem_of_cons in Hbyte as [->|Hbyte]; [cbn [Z.eqb Pos.eqb];
    unfold Parser.parse_status, Parser.parse_int, Parser.parse_data, Parser.parse_array, Parser.parse_error,
      Parser.read_string_line, Parser.read_int_line; by rewrite Hline|]).
  by apply elem_of_nil in Hbyte.
Qed.

(** C32: A connection writes every reply once and in order: at any time the
    bytes sent and the bytes still offered are together the encodings of the
    values pushed, however short the writes were; and a write of any length
    that was offered is accepted. *)
Theorem responses_in_order b pushed sent :
  served b pushed sent → zlen pushed < 2 ^ 64 →
  ∃ out, ResponseBuffer.bytes b = Done out ∧ pushed = sent ++ out ∧ ResponseBuffer.remaining b = Done (zlen out) ∧
    ∀ n, 0 ≤ n ≤ zlen out → ∃ b', ResponseBuffer.advance b n = Done b'.
Proof.
  intros Hserved Hlen.
  destruct (served_ok b pushed sent Hserved Hlen) as (Hok & Heq & Hle).
  exists (outstanding b). split; [by apply bytes_ok|]. split; [done|]. split.
  - unfold ResponseBuffer.remaining, outstanding, response_ok in *. rewrite zlen_drop by lia. by mint.
  - intros n Hn. destruct (advance_ok b n Hok Hn) as (b' & Hb' & _); [lia|]. by exists b'.
Qed.

End props.

(** ** Witnesses *)

#[local] Existing Instance dev_profile.

Definition feed (b : RequestBuffer.t (list Z)) (bs : list Z) : RequestBuffer.t (list Z) :=
  match RequestBuffer.fill b bs with Done b' => b' | _ => b end.

Lemma list_grow_length n (t : list Z) : 0 ≤ n → td_len (td_grow n t) = zlen t + n.
Proof. intros Hn. unfold td_len. cbn. rewrite zlen_app, zlen_replicate. lia. Qed.

Lemma list_mut_bytes_room (b b1 : RequestBuffer.t (list Z)) slice :
  request_ok b → RequestBuffer.mut_bytes b = Done (b1, slice) → RequestBuffer.MIN_REQUESTBUFFER_SIZE ≤ zlen slice.
Proof.
  intros [Hr Hs]. unfold RequestBuffer.mut_bytes, sized in *. mint. set (body' := if _ <? _ then _ else _).
  intros (u & _ & [= _ <-])%bind_Done_iff.
  assert (RequestBuffer.bytes_read b + RequestBuffer.MIN_REQUESTBUFFER_SIZE ≤ td_len body').
  { unfold body'. destruct (Z.ltb_spec (td_len (RequestBuffer.body b) - RequestBuffer.bytes_read b) RequestBuffer.MIN_REQUESTBUFFER_SIZE);
      [rewrite list_grow_length by done; unfold td_len in *; cbn [td_bytes list_tendril] in *|]; lia. }
  unfold td_len in *. cbn [td_bytes list_tendril] in *. rewrite zlen_drop; unfold RequestBuffer.MIN_REQUESTBUFFER_SIZE in *; lia.
Qed.

Lemma fed_feed b got bs :
  fed 32 b got → zlen bs ≤ RequestBuffer.MIN_REQUESTBUFFER_SIZE →
  zlen (RequestBuffer.body b) + RequestBuffer.MIN_REQUESTBUFFER_SIZE < 2 ^ 32 → fed 32 (feed b bs) (got ++ bs).
Proof.
  intros Hfed Hbs Hl. destruct (fed_ok 32 _ _ Hfed) as [Hok _].
  destruct (mut_bytes_ok b Hok) as (b1 & slice & Hm & _). pose proof (list_mut_bytes_room _ _ _ Hok Hm) as Hslice.
  assert (sized (RequestBuffer.body b1)) as Hs.
  { unfold sized. destruct (mut_bytes_body b b1 slice Hm) as [-> | ->]; [|rewrite list_grow_length by done; lia].
    unfold td_len, RequestBuffer.MIN_REQUESTBUFFER_SIZE in *. cbn [td_bytes list_tendril]. lia. }
  destruct (fill_ok b b1 slice bs Hok Hm ltac:(lia) Hs) as (b' & Hf & _).
  unfold feed. rewrite Hf. exact (fed_fill 32 b b1 slice bs b' got Hfed Hm ltac:(lia) Hs Hf).
Qed.

(** A request of two strings, in two pieces. *)
Definition sample_request : Value.t (list Z) := Value.Array [Value.Data (B "foo"); Value.Data []].
Definition sample_piece1 : list Z := B "*2" ++ crlf ++ B "$3" ++ crlf ++ B "f".
Definition sample_piece2 : list Z := B "oo" ++ crlf ++ B "$0" ++ crlf ++ crlf ++ B ":1".
Definition sample_buffer : RequestBuffer.t (list Z) :=
  feed (feed RequestBuffer.new sample_piece1) sample_piece2.

Lemma sample_fed : fed 32 sample_buffer (sample_piece1 ++ sample_piece2).
Proof.
  apply fed_feed; [|by vm_compute..].
  apply (fed_feed RequestBuffer.new [] sample_piece1); [constructor|by vm_compute..].
Qed.

Lemma request_in_pieces_witness :
  ∃ b' v', RequestBuffer.pop_value 32 sample_buffer = Done (b', Ok v') ∧
    wire v' = Done (RArray [RData (B "foo"); RData []]) ∧ fed 32 b' (B ":1").
Proof.
  refine (request_in_pieces 32 sample_buffer sample_request (RArray [RData (B "foo"); RData []])
    (B "*2" ++ crlf ++ B "$3" ++ crlf ++ B "foo" ++ crlf ++ B "$0" ++ crlf ++ crlf) (B ":1") _ _ _ _).
  - exact sample_fed.
  - by vm_compute.
  - by vm_compute.
  - by vm_compute.
Defined.

Lemma parser_total_witness :
  Parser.parse 32 100 (B "$3") = Parser.parse_body 32 (B "$3").
Proof. refine (proj1 (parser_total 32 (B "$3") 100 _ _)); [by vm_compute|cbn; lia]. Defined.

Lemma announced_length_panics_witness :
  Parser.parse_body 32 (B "*288230376151711744" ++ crlf) = Panic.
Proof.
  refine (announced_length_panics 32 (B "*288230376151711744" ++ crlf) (B "288230376151711744") 288230376151711744 []
    _ _ _ _ _ _); [by vm_compute| |by vm_compute..].
  apply (bool_decide_unpack _). by vm_compute.
Defined.

Lemma partial_line_refused_witness :
  RequestBuffer.pop_value 32 (feed RequestBuffer.new (B "*2")) =
    Done (feed RequestBuffer.new (B "*2"), Err (Invalid (B "Missing line separator"))).
Proof.
  refine (partial_line_refused 32 _ 42 (B "2") _ _ _); [|by apply (bool_decide_unpack _); vm_compute..].
  apply (fed_feed RequestBuffer.new [] (B "*2")); [constructor|by vm_compute..].
Defined.

(** Two replies, of which a short write sent three bytes. *)
Lemma responses_in_order_witness :
  ∃ out, ResponseBuffer.bytes (ResponseBuffer.mk (B ":1" ++ crlf ++ B "+OK" ++ crlf) 3) = Done out ∧
    B ":1" ++ crlf ++ B "+OK" ++ crlf = (B ":1" ++ [13]) ++ out.
Proof.
  destruct (responses_in_order (T:=list Z) (ResponseBuffer.mk (B ":1" ++ crlf ++ B "+OK" ++ crlf) 3)
    (B ":1" ++ crlf ++ B "+OK" ++ crlf) (B ":1" ++ [13])) as (out & Hb & Heq & _).
  - apply (served_write (T:=list Z) (ResponseBuffer.mk (B ":1" ++ crlf ++ B "+OK" ++ crlf) 0)
      (B ":1" ++ crlf ++ B "+OK" ++ crlf) 3 _ (B ":1" ++ crlf ++ B "+OK" ++ crlf) []); [|by vm_compute..].
    apply (served_push (T:=list Z) (ResponseBuffer.mk (B ":1" ++ crlf) 0) (Value.Status (B "OK")) (RStatus (B "OK"))
      _ (B ":1" ++ crlf) []); [|by vm_compute..].
    apply (served_push (T:=list Z) ResponseBuffer.new (Value.Int 1) (RInt 1) _ [] []); [|by vm_compute..].
    constructor.
  - by vm_compute.
  - by exists out.
Defined.
