(* ===== verification/Atoms.v ===== *)
(** * Queue and channel names as keys ([atom.rs])

    Names are kept as [Atom]s, a third-party string buffer in a type of its
    own, and tables keyed by them are asked with plain [&str]s. That works
    because [Atom] hashes and compares as the string it holds ([Borrow]'s
    contract). [AtomMap] is the standard library's hash map as far as it
    depends on that: an entry is found when both the hash and the key agree.
    The rest of the development keys its tables by the bytes of a name; the
    theorem here says that this is what the program sees. *)
From S2P Require Import Prelude.
From S2P Require Import Text.
From S2P Require Import Wire.

Module Atom.
Section ops.
Context {T : Type} `{Tendril T}.
(** What the hasher of the map makes of a [str]. *)
Variable hash_str : list Z → Z.

Record t : Type := mk { inner : T }.

(** [#[derive(PartialEq)]]: tendrils are equal when their contents are. *)
Definition eq (a b : t) : bool := bool_decide (td_bytes (inner a) = td_bytes (inner b)).

Definition deref (a : t) : list Z := td_bytes (inner a).
Definition borrow (a : t) : list Z := td_bytes (inner a).
Definition hash (a : t) : Z := hash_str (deref a).
Definition from (s : list Z) : t := mk (td_from s).
End ops.
Arguments t : clear implicits.
End Atom.

(** ** [HashMap<Atom, V>] *)
Module AtomMap.
Section ops.
Context {T : Type} `{Tendril T} {V : Type}.
Variable hash_str : list Z → Z.

(** The entries with the hash they were stored under. *)
Abbreviation t := (list (Z * Atom.t T * V)).

Definition is_key (s : list Z) (e : Z * Atom.t T * V) : bool :=
  (e.1.1 =? hash_str s) && bool_decide (Atom.borrow e.1.2 = s).

Fixpoint get (m : t) (s : list Z) : option V :=
  match m with
  | [] => None
  | e :: m => if is_key s e then Some e.2 else get m s
  end.

(** [insert] keeps the key that is there. *)
Fixpoint insert (m : t) (a : Atom.t T) (v : V) : t :=
  match m with
  | [] => [(Atom.hash hash_str a, a, v)]
  | e :: m =>
      if (e.1.1 =? Atom.hash hash_str a) && Atom.eq e.1.2 a then (e.1, v) :: m else e :: insert m a v
  end.

Fixpoint remove (m : t) (s : list Z) : t :=
  match m with
  | [] => []
  | e :: m => if is_key s e then m else e :: remove m s
  end.

(** Queue and channel tables are used through these. *)
Inductive op : Type :=
| Insert (name : list Z) (v : V)
| Remove (name : list Z)
| Get (name : list Z).

Definition run (m : t) (o : op) : t * option V :=
  match o with
  | Insert name v => (insert m (Atom.from name) v, get m name)
  | Remove name => (remove m name, get m name)
  | Get name => (m, get m name)
  end.

(** The same on a map keyed by the bytes. *)
Definition spec (g : gmap (list Z) V) (o : op) : gmap (list Z) V * option V :=
  match o with
  | Insert name v => (<[name := v]> g, g !! name)
  | Remove name => (delete name g, g !! name)
  | Get name => (g, g !! name)
  end.

Fixpoint run_all (m : t) (ops : list op) : list (option V) :=
  match ops with
  | [] => []
  | o :: ops => let '(m, r) := run m o in r :: run_all m ops
  end.
Fixpoint spec_all (g : gmap (list Z) V) (ops : list op) : list (option V) :=
  match ops with
  | [] => []
  | o :: ops => let '(g, r) := spec g o in r :: spec_all g ops
  end.

Definition name_of (o : op) : list Z := match o with Insert s _ | Remove s | Get s => s end.

(** *** The refinement *)

Record rep (m : t) (g : gmap (list Z) V) : Prop := {
  rep_hash e : e ∈ m → e.1.1 = hash_str (Atom.borrow e.1.2);
  rep_keys : NoDup ((λ e, Atom.borrow e.1.2) <$> m);
  rep_get s : get m s = g !! s;
}.

(** The hash decides nothing when it is the key's. *)
Lemma is_key_borrow s e : e.1.1 = hash_str (Atom.borrow e.1.2) → is_key s e = bool_decide (Atom.borrow e.1.2 = s).
Proof.
  intros He. unfold is_key. rewrite He. destruct (decide (Atom.borrow e.1.2 = s)) as [<-|Hne].
  - by rewrite Z.eqb_refl.
  - rewrite (bool_decide_false _ Hne). apply andb_false_r.
Qed.

Lemma get_None m s :
  (∀ e, e ∈ m → e.1.1 = hash_str (Atom.borrow e.1.2)) →
  get m s = None ↔ s ∉ (λ e, Atom.borrow e.1.2) <$> m.
Proof.
  induction m as [|e m IH]; intros Hh; cbn; [by split; [intros _ ?%elem_of_nil|]|].
  rewrite is_key_borrow by (apply Hh; left). rewrite not_elem_of_cons, <-IH by (intros e' He'; apply Hh; by right).
  case_bool_decide as Hs; [split; [done|by intros [? _]]|]. split; [by intros ->|by intros [_ ->]].
Qed.

Context `{!TendrilOk T}.

Lemma insert_rep m g name v :
  zlen name < 2 ^ 32 → rep m g → rep (insert m (Atom.from name) v) (<[name := v]> g).
Proof.
  intros Hlen [Hh Hk Hg]. pose proof (td_from_bytes name Hlen) as Hb.
  assert (∀ s, get (insert m (Atom.from name) v) s = if decide (name = s) then Some v else get m s) as Hget.
  { clear Hk Hg. intros s. induction m as [|e m IH]; cbn.
    - rewrite is_key_borrow; unfold Atom.hash, Atom.deref, Atom.borrow; cbn; [|done]. rewrite Hb.
      by destruct (decide (name = s)) as [->|Hne]; [rewrite bool_decide_true|rewrite bool_decide_false].
    - pose proof (Hh e ltac:(left)) as He. unfold Atom.hash, Atom.deref, Atom.eq. cbn.
      fold (Atom.borrow e.1.2). rewrite Hb, He.
      destruct (decide (Atom.borrow e.1.2 = name)) as [Hn|Hn].
      + rewrite Hn, Z.eqb_refl, (bool_decide_true (name = name)) by done. cbn.
        rewrite !is_key_borrow by done. cbn. rewrite Hn. by repeat case_match; case_bool_decide; simplify_eq.
      + rewrite (bool_decide_false _ Hn), andb_false_r. cbn. rewrite IH by (intros e' He'; apply Hh; by right).
        rewrite is_key_borrow by done. case_bool_decide as Hs; [|done]. by rewrite decide_False by congruence. }
  assert (∀ e, e ∈ insert m (Atom.from name) v → e.1.1 = hash_str (Atom.borrow e.1.2)) as Hh'.
  { clear Hk Hg Hget. induction m as [|e0 m IH]; cbn; intros e.
    - intros ->%list_elem_of_singleton. done.
    - case_match; intros [->|He]%elem_of_cons; [apply (Hh e0); left|apply Hh; by right|apply Hh; left|].
      apply IH; [|done]. intros e' He'. apply Hh. by right. }
  split; [done| |intros s; rewrite Hget; destruct (decide _) as [<-|]; [by rewrite bytes_insert_eq|by rewrite bytes_insert_ne]].
  clear Hget Hg Hh'. revert Hk. induction m as [|e m IH]; cbn; intros Hk.
  - apply NoDup_cons. split; [apply not_elem_of_nil|constructor].
  - apply NoDup_cons in Hk as [Hn Hk]. pose proof (Hh e ltac:(left)) as He.
    unfold Atom.hash, Atom.deref, Atom.eq. cbn. fold (Atom.borrow e.1.2). rewrite Hb, He.
    destruct (decide (Atom.borrow e.1.2 = name)) as [Hs|Hs].
    + rewrite Hs, Z.eqb_refl, (bool_decide_true (name = name)) by done. cbn. by apply NoDup_cons.
    + rewrite (bool_decide_false _ Hs), andb_false_r. cbn. apply NoDup_cons.
      split; [|apply IH; [intros e' He'; apply Hh; by right|done]].
      assert (Hh2 : ∀ e', e' ∈ m → e'.1.1 = hash_str (Atom.borrow e'.1.2)) by (intros e' He'; apply Hh; by right).
      clear IH Hk. intros Hin. apply Hn. revert Hin Hh2. clear Hn Hh. induction m as [|e1 m IH]; cbn; intros Hin Hh2.
      * apply list_elem_of_singleton in Hin. destruct Hs. etrans; [exact Hin|exact Hb].
      * case_match; cbn in Hin; apply elem_of_cons in Hin as [->|Hin]; [left|by right|left|right].
        apply IH; [done|]. intros e' He'. apply Hh2. by right.
Qed.

Lemma remove_rep m g s : rep m g → rep (remove m s) (delete s g).
Proof.
  intros [Hh Hk Hg].
  assert (remove m s `sublist_of` m) as Hsub.
  { clear Hh Hk Hg. induction m as [|e m IH]; cbn; [done|]. case_match; [by apply sublist_cons|by apply sublist_skip]. }
  assert (∀ e, e ∈ remove m s → e.1.1 = hash_str (Atom.borrow e.1.2)) as Hh'.
  { intros e He. apply Hh. by eapply elem_of_submseteq, sublist_submseteq. }
  split; [done| |].
  - eapply sublist_NoDup; [exact Hk|by apply fmap_sublist].
  - intros k. destruct (decide (s = k)) as [<-|Hne].
    + rewrite bytes_delete_eq. apply get_None; [done|]. clear Hh' Hsub Hg. induction m as [|e m IH]; cbn; [apply not_elem_of_nil|].
      cbn in Hk. apply NoDup_cons in Hk as [Hn Hk]. rewrite is_key_borrow by (apply Hh; left).
      case_bool_decide as Hs; [by subst s|]. cbn. rewrite not_elem_of_cons. split; [done|].
      apply IH; [|done]. intros e' He'. apply Hh. by right.
    + rewrite bytes_delete_ne, <-Hg by done. clear Hh' Hsub Hg Hk. induction m as [|e m IH]; cbn; [done|].
      assert (∀ e', e' ∈ m → e'.1.1 = hash_str (Atom.borrow e'.1.2)) as Hh2 by (intros e' He'; apply Hh; by right).
      rewrite !is_key_borrow by (apply Hh; left). case_bool_decide as Hs.
      * rewrite bool_decide_false by congruence. done.
      * cbn. rewrite is_key_borrow by (apply Hh; left). by rewrite IH.
Qed.

(** C39: A table keyed by [Atom]s and asked with strings is a map from the
    bytes of names: whatever is inserted, removed and looked up, in whatever
    order and with whatever hasher, the answers are those of a finite map. *)
Theorem atom_table_refines ops :
  Forall (λ o, zlen (name_of o) < 2 ^ 32) ops → run_all [] ops = spec_all ∅ ops.
Proof.
  assert (rep [] ∅) as Hr by (split; [by intros e ?%elem_of_nil|constructor|done]).
  revert Hr. generalize (@nil (Z * Atom.t T * V)) as m. generalize (∅ : gmap (list Z) V) as g.
  induction ops as [|o ops IH]; intros g m Hr Ho; [done|]. apply Forall_cons in Ho as [Hn Ho].
  cbn. destruct o as [name v|name|name]; cbn; f_equal; try apply (rep_get _ _ Hr); apply IH; try done.
  - by apply insert_rep.
  - by apply remove_rep.
Qed.

End ops.
Arguments op : clear implicits.
End AtomMap.

Module AtomTests.
Import AtomMap.

(** A hasher under which all names collide. *)
Definition colliding (_ : list Z) : Z := 0.

(** The unit test [borrow_str_compatible]. *)
Definition borrow_str_compatible : outcome () :=
  let hm := insert (V := Z) colliding [] (Atom.from (T := list Z) (B "key1")) 1 in
  let hm := insert colliding hm (Atom.from (B "key2")) 2 in
  _ ← assert (bool_decide (get colliding hm (B "key1") = Some 1));
  assert (bool_decide (get colliding hm (B "key2") = Some 2)).

Definition sample_ops : list (op Z) :=
  [Insert (B "a") 1; Insert (B "b") 2; Insert (B "a") 3; Get (B "a"); Remove (B "a"); Get (B "a"); Get (B "b")].

Lemma atom_table_refines_witness :
  borrow_str_compatible = Done () ∧
  run_all (T := list Z) colliding [] sample_ops = spec_all ∅ sample_ops ∧
  spec_all ∅ sample_ops = [None; None; Some 1; Some 3; Some 3; None; Some 2].
Proof.
  split; [by vm_compute|]. split; [|by vm_compute].
  refine (atom_table_refines (T := list Z) colliding sample_ops _). by repeat constructor.
Defined.
End AtomTests.
