(* ===== verification/Locks.v ===== *)
(** * The three-state lock ([tristate_lock.rs])

    A mutex for writers and a read-write lock for readers. Every call of a
    locking method is an agent that goes through the acquisitions of the
    method one by one and then drops its guard field by field; the two locks
    of the standard library are modelled by what they grant. *)
From stdpp Require Import functions.
From S2P Require Import Prelude.

Module TristateLock.

(** The guards: [TristateLockReadGuard], [TristateLockWriteGuard] and
    [TristateLockExclusiveGuard]. *)
Inductive mode : Type := Reader | Writer | Exclusive.

#[global] Instance mode_eq_dec : EqDecision mode.
Proof. solve_decision. Defined.

Abbreviation agent := nat.

(** [struct TristateLock]: the owner of [w_lock], and the readers and the
    writer of [r_lock]. *)
Record t : Type := mk {
  w_lock : option agent;
  r_readers : gset agent;
  r_writer : option agent;
}.

Definition new : t := mk None ∅ None.

(** *** The two locks of the standard library *)

(** [Mutex::lock] returns when this does; [Mutex::try_lock]. *)
Definition mutex_try_lock (a : agent) (l : t) : option t :=
  match w_lock l with
  | None => Some (mk (Some a) (r_readers l) (r_writer l))
  | Some _ => None
  end.
Definition mutex_unlock (l : t) : t := mk None (r_readers l) (r_writer l).

Definition rw_try_read (a : agent) (l : t) : option t :=
  match r_writer l with
  | None => Some (mk (w_lock l) ({[a]} ∪ r_readers l) None)
  | Some _ => None
  end.
Definition rw_try_write (a : agent) (l : t) : option t :=
  match r_writer l with
  | None => if decide (r_readers l = ∅) then Some (mk (w_lock l) ∅ (Some a)) else None
  | Some _ => None
  end.
Definition rw_unlock_read (a : agent) (l : t) : t := mk (w_lock l) (r_readers l ∖ {[a]}) (r_writer l).
Definition rw_unlock_write (l : t) : t := mk (w_lock l) (r_readers l) None.

(** *** Where a call is *)
Inductive pc : Type :=
| Idle
(** called [read], [write] or [lock] and not granted yet *)
| Waiting (m : mode)
(** in [lock], [w_lock] is held and [r_lock] is not *)
| LockedW
(** in [try_lock], [w_lock.try_lock()] has been tried *)
| TriedW (w : bool)
(** in [try_lock], one of the two failed: the guards obtained are dropped *)
| Failed (w r : bool)
| Holds (m : mode)
(** the exclusive guard drops [w_guard] first *)
| DroppedW.

#[global] Instance pc_eq_dec : EqDecision pc.
Proof. solve_decision. Defined.

Record sys : Type := mkSys {
  lock : t;
  pcs : agent → pc;
}.

Definition start : sys := mkSys new (λ _, Idle).

(** *** One step of agent [a]; [call] starts a method and the rest go on *)
Inductive call : sys → sys → Prop :=
| call_blocking a m l p : p a = Idle → call (mkSys l p) (mkSys l (<[a := Waiting m]> p))
| call_try_read a l l' p :
    p a = Idle → rw_try_read a l = Some l' → call (mkSys l p) (mkSys l' (<[a := Holds Reader]> p))
| call_try_write a l l' p :
    p a = Idle → mutex_try_lock a l = Some l' → call (mkSys l p) (mkSys l' (<[a := Holds Writer]> p))
| call_try_lock_ok a l l' p :
    p a = Idle → mutex_try_lock a l = Some l' → call (mkSys l p) (mkSys l' (<[a := TriedW true]> p))
| call_try_lock_no a l p :
    p a = Idle → mutex_try_lock a l = None → call (mkSys l p) (mkSys l (<[a := TriedW false]> p)).

Inductive advance : sys → sys → Prop :=
| read_granted a l l' p :
    p a = Waiting Reader → rw_try_read a l = Some l' → advance (mkSys l p) (mkSys l' (<[a := Holds Reader]> p))
| write_granted a l l' p :
    p a = Waiting Writer → mutex_try_lock a l = Some l' → advance (mkSys l p) (mkSys l' (<[a := Holds Writer]> p))
| lock_w a l l' p :
    p a = Waiting Exclusive → mutex_try_lock a l = Some l' → advance (mkSys l p) (mkSys l' (<[a := LockedW]> p))
| lock_r a l l' p :
    p a = LockedW → rw_try_write a l = Some l' → advance (mkSys l p) (mkSys l' (<[a := Holds Exclusive]> p))
| try_lock_ok a l l' p :
    p a = TriedW true → rw_try_write a l = Some l' → advance (mkSys l p) (mkSys l' (<[a := Holds Exclusive]> p))
| try_lock_no_r a w l p :
    p a = TriedW w → rw_try_write a l = None → advance (mkSys l p) (mkSys l (<[a := Failed w false]> p))
| try_lock_no_w a l l' p :
    p a = TriedW false → rw_try_write a l = Some l' → advance (mkSys l p) (mkSys l' (<[a := Failed false true]> p))
| failed_drop_w a r l p :
    p a = Failed true r → advance (mkSys l p) (mkSys (mutex_unlock l) (<[a := Failed false r]> p))
| failed_drop_r a l p :
    p a = Failed false true → advance (mkSys l p) (mkSys (rw_unlock_write l) (<[a := Idle]> p))
| failed_done a l p :
    p a = Failed false false → advance (mkSys l p) (mkSys l (<[a := Idle]> p))
| drop_read a l p :
    p a = Holds Reader → advance (mkSys l p) (mkSys (rw_unlock_read a l) (<[a := Idle]> p))
| drop_write a l p :
    p a = Holds Writer → advance (mkSys l p) (mkSys (mutex_unlock l) (<[a := Idle]> p))
| drop_exclusive_w a l p :
    p a = Holds Exclusive → advance (mkSys l p) (mkSys (mutex_unlock l) (<[a := DroppedW]> p))
| drop_exclusive_r a l p :
    p a = DroppedW → advance (mkSys l p) (mkSys (rw_unlock_write l) (<[a := Idle]> p)).

Inductive reachable : sys → Prop :=
| reach_start : reachable start
| reach_call s s' : reachable s → call s s' → reachable s'
| reach_advance s s' : reachable s → advance s s' → reachable s'.

(** *** The invariant: what the locks record is what the agents own *)

Definition owns_w (p : pc) : bool :=
  match p with
  | LockedW | TriedW true | Failed true _ | Holds Writer | Holds Exclusive => true
  | _ => false
  end.
Definition owns_rw (p : pc) : bool :=
  match p with
  | Failed _ true | Holds Exclusive | DroppedW => true
  | _ => false
  end.

Record lock_inv (s : sys) : Prop := {
  inv_w a : owns_w (pcs s a) = true ↔ w_lock (lock s) = Some a;
  inv_rw a : owns_rw (pcs s a) = true ↔ r_writer (lock s) = Some a;
  inv_readers a : pcs s a = Holds Reader ↔ a ∈ r_readers (lock s);
  inv_alone : r_writer (lock s) ≠ None → r_readers (lock s) = ∅;
}.

Lemma start_inv : lock_inv start.
Proof. constructor; cbn; try done; by intros a. Qed.

(** One agent moves: it is enough to look at that agent. *)
Lemma move_inv a q (l l' : t) p :
  lock_inv (mkSys l p) →
  (w_lock l' = w_lock l ∧ owns_w q = owns_w (p a) ∨
   w_lock l = None ∧ w_lock l' = Some a ∧ owns_w q = true ∨
   owns_w (p a) = true ∧ w_lock l' = None ∧ owns_w q = false) →
  (r_writer l' = r_writer l ∧ owns_rw q = owns_rw (p a) ∨
   r_writer l = None ∧ r_writer l' = Some a ∧ owns_rw q = true ∨
   owns_rw (p a) = true ∧ r_writer l' = None ∧ owns_rw q = false) →
  (r_readers l' = r_readers l ∧ (q = Holds Reader ↔ p a = Holds Reader) ∨
   r_readers l' = {[a]} ∪ r_readers l ∧ q = Holds Reader ∨
   r_readers l' = r_readers l ∖ {[a]} ∧ q ≠ Holds Reader) →
  (r_writer l' ≠ None → r_readers l' = ∅) →
  lock_inv (mkSys l' (<[a := q]> p)).
Proof.
  intros [Hw Hrw Hr _] Mw Mrw Mr Ha. cbn in *.
  constructor; cbn; [intros b; specialize (Hw b) as Hb; specialize (Hw a)
    |intros b; specialize (Hrw b) as Hb; specialize (Hrw a)
    |intros b; specialize (Hr b) as Hb; specialize (Hr a)|done].
  all: destruct (decide (a = b)) as [<-|Hne];
    [rewrite fn_lookup_insert|rewrite fn_lookup_insert_ne by done].
  - destruct Mw as [[-> ->]|[(_ & -> & ->)|(? & -> & ->)]]; [done|done|]. split; [done|intros [=]].
  - destruct Mw as [[-> _]|[(E & -> & _)|(E & -> & _)]]; [done| |].
    + rewrite E in Hb. split; [intros ?%Hb; done|intros [= ->]; done].
    + apply Hw in E. rewrite E in Hb. split; [intros [= ->]%Hb; done|done].
  - destruct Mrw as [[-> ->]|[(_ & -> & ->)|(? & -> & ->)]]; [done|done|]. split; [done|intros [=]].
  - destruct Mrw as [[-> _]|[(E & -> & _)|(E & -> & _)]]; [done| |].
    + rewrite E in Hb. split; [intros ?%Hb; done|intros [= ->]; done].
    + apply Hrw in E. rewrite E in Hb. split; [intros [= ->]%Hb; done|done].
  - destruct Mr as [[-> Hq]|[[-> ->]|[-> Hq]]]; [by rewrite Hq|set_solver|]. split; [done|set_solver].
  - destruct Mr as [[-> _]|[[-> _]|[-> _]]]; [done|set_solver|]. set_solver.
Qed.

(** *** What the grants change *)

Lemma mutex_try_lock_Some a l l' :
  mutex_try_lock a l = Some l' → w_lock l = None ∧ l' = mk (Some a) (r_readers l) (r_writer l).
Proof. unfold mutex_try_lock. destruct (w_lock l); [done|]. by intros [= <-]. Qed.

Lemma rw_try_read_Some a l l' :
  rw_try_read a l = Some l' → r_writer l = None ∧ l' = mk (w_lock l) ({[a]} ∪ r_readers l) None.
Proof. unfold rw_try_read. destruct (r_writer l); [done|]. by intros [= <-]. Qed.

Lemma rw_try_write_Some a l l' :
  rw_try_write a l = Some l' → r_writer l = None ∧ r_readers l = ∅ ∧ l' = mk (w_lock l) ∅ (Some a).
Proof.
  unfold rw_try_write. destruct (r_writer l); [done|]. destruct (decide _); [|done]. by intros [= <-].
Qed.

#[local] Ltac grants :=
  repeat match goal with
  | H : mutex_try_lock _ _ = Some _ |- _ => apply mutex_try_lock_Some in H as [? ->]
  | H : rw_try_read _ _ = Some _ |- _ => apply rw_try_read_Some in H as [? ->]
  | H : rw_try_write _ _ = Some _ |- _ => apply rw_try_write_Some in H as (? & ? & ->)
  end.

(** Closes the conditions of [move_inv], given where the agent was. *)
#[local] Ltac moved Hinv :=
  pose proof Hinv as [_ _ _ ?Halone]; cbn in *;
  eapply move_inv; [exact Hinv|..]; cbn;
  repeat match goal with E : _ = Some _ |- _ => rewrite E | E : _ = None |- _ => rewrite E | E : _ = ∅ |- _ => rewrite E
                    | E : ?p ?a = _ |- context [?p ?a] => rewrite E end;
  try done; first [left; by split_and!|right; left; by split_and!|right; right; by split_and!|set_solver|idtac].

Lemma call_inv s s' : lock_inv s → call s s' → lock_inv s'.
Proof. intros Hinv Hc. destruct Hc; grants; moved Hinv. Qed.

Lemma advance_inv s s' : lock_inv s → advance s s' → lock_inv s'.
Proof. intros Hinv Hc. destruct Hc; grants; moved Hinv. Qed.

Lemma reachable_lock_inv s : reachable s → lock_inv s.
Proof. induction 1; [apply start_inv|by eapply call_inv|by eapply advance_inv]. Qed.

(** *** Theorems *)

(** The pairs of guards that may be held at the same time. *)
Definition compatible (m n : mode) : bool :=
  match m, n with
  | Reader, Reader | Reader, Writer | Writer, Reader => true
  | _, _ => false
  end.

Lemma held_compatible s a b m n :
  lock_inv s → pcs s a = Holds m → pcs s b = Holds n → a ≠ b → compatible m n = true.
Proof.
  intros [Hw Hrw Hr Ha] Hm Hn Hne.
  assert (owns_w (Holds m) = true → owns_w (Holds n) = true → False) as Hww.
  { rewrite <-Hm, <-Hn. intros E1%Hw E2%Hw. congruence. }
  assert (∀ c d, pcs s c = Holds Exclusive → pcs s d = Holds Reader → False) as Hrx.
  { intros c d Hc Hd. assert (owns_rw (pcs s c) = true) as E%Hrw by by rewrite Hc.
    apply Hr in Hd. rewrite Ha in Hd by congruence. by apply elem_of_empty in Hd. }
  destruct m, n; try done; exfalso; first [by apply Hww|by apply (Hrx a b)|by apply (Hrx b a)].
Qed.

(** Two guards granted one after the other to agents 0 and 1. *)
Lemma both_held m n :
  compatible m n = true → ∃ s, reachable s ∧ pcs s 0%nat = Holds m ∧ pcs s 1%nat = Holds n.
Proof.
  assert (∀ m n l, compatible m n = true →
    advance (mkSys new (<[0%nat := Waiting m]> (λ _, Idle))) (mkSys l (<[0%nat := Holds m]> (<[0%nat := Waiting m]> (λ _, Idle)))) →
    ∀ l', advance (mkSys l (<[1%nat := Waiting n]> (<[0%nat := Holds m]> (<[0%nat := Waiting m]> (λ _, Idle)))))
      (mkSys l' (<[1%nat := Holds n]> (<[1%nat := Waiting n]> (<[0%nat := Holds m]> (<[0%nat := Waiting m]> (λ _, Idle)))))) →
    ∃ s, reachable s ∧ pcs s 0%nat = Holds m ∧ pcs s 1%nat = Holds n) as Hgo.
  { intros m' n' l _ H1 l' H2.
    exists (mkSys l' (<[1%nat := Holds n']> (<[1%nat := Waiting n']> (<[0%nat := Holds m']> (<[0%nat := Waiting m']> (λ _, Idle)))))).
    split; [|done].
    eapply reach_advance; [|exact H2]. eapply reach_call; [|exact (call_blocking 1%nat n' l _ eq_refl)].
    eapply reach_advance; [|exact H1]. eapply reach_call; [apply reach_start|exact (call_blocking 0%nat m' new _ eq_refl)]. }
  intros Hc. destruct m, n; try done.
  - apply (Hgo _ _ (mk None ({[0%nat]} ∪ ∅) None)) with (mk None ({[1%nat]} ∪ ({[0%nat]} ∪ ∅)) None); [done|by apply read_granted..].
  - apply (Hgo _ _ (mk None ({[0%nat]} ∪ ∅) None)) with (mk (Some 1%nat) ({[0%nat]} ∪ ∅) None); [done|by apply read_granted|by apply write_granted].
  - apply (Hgo _ _ (mk (Some 0%nat) ∅ None)) with (mk (Some 0%nat) ({[1%nat]} ∪ ∅) None); [done|by apply write_granted|by apply read_granted].
Qed.

(** C16: The guards that two calls can hold at the same time are exactly
    reader with reader and reader with writer: writers exclude each other,
    and an exclusive guard excludes every other guard, at every moment
    between its acquisition and its release. *)
Theorem guards_exclude m n :
  compatible m n = true ↔
  ∃ s a b, reachable s ∧ a ≠ b ∧ pcs s a = Holds m ∧ pcs s b = Holds n.
Proof.
  split.
  - intros (s & Hs & Hm & Hn)%both_held. by exists s, 0%nat, 1%nat.
  - intros (s & a & b & Hs & Hne & Hm & Hn). by eapply held_compatible; [apply reachable_lock_inv|..].
Qed.

(** C17: The lock never deadlocks: whenever some call has not returned its
    guard, some agent can go on, although [lock] takes two locks one after
    the other and the exclusive guard releases them in the same order. *)
Theorem lock_no_deadlock s a : reachable s → pcs s a ≠ Idle → ∃ s', advance s s'.
Proof.
  intros Hs Ha. apply reachable_lock_inv in Hs as [Hw Hrw Hr Halone]. destruct s as [l p]. cbn in *.
  destruct (r_writer l) as [b|] eqn:Eb.
  { pose proof (proj2 (Hrw b) eq_refl) as Hb. destruct (p b) as [|?| | |[] []|[]|] eqn:E; try done;
      eexists; [by apply failed_drop_w|by apply failed_drop_r|by apply drop_exclusive_w|by apply drop_exclusive_r]. }
  destruct (w_lock l) as [b|] eqn:Ew.
  { pose proof (proj2 (Hw b) eq_refl) as Hb.
    destruct (decide (r_readers l = ∅)) as [Er|Er].
    - destruct (p b) as [|?| |[]|[] ?|[]|] eqn:E; try done; eexists;
        [apply (lock_r b _ (mk (w_lock l) ∅ (Some b)))|apply (try_lock_ok b _ (mk (w_lock l) ∅ (Some b)))
        |by apply failed_drop_w|by apply drop_write|by apply drop_exclusive_w]; try done;
        unfold rw_try_write; by rewrite Eb, decide_True.
    - apply set_choose_L in Er as [c Hc]. eexists. apply (drop_read c). by apply Hr. }
  assert (owns_w (p a) = false) as Na by (destruct (owns_w (p a)) eqn:Oa; [by apply Hw in Oa|done]).
  assert (owns_rw (p a) = false) as Nra by (destruct (owns_rw (p a)) eqn:Oa; [by apply Hrw in Oa|done]).
  destruct (p a) as [|[]| |[]|[] []|[]|] eqn:E; try done.
  - eexists. apply (read_granted a _ (mk (w_lock l) ({[a]} ∪ r_readers l) None)); [done|].
    unfold rw_try_read. by rewrite Eb.
  - eexists. apply (write_granted a _ (mk (Some a) (r_readers l) (r_writer l))); [done|].
    unfold mutex_try_lock. by rewrite Ew.
  - eexists. apply (lock_w a _ (mk (Some a) (r_readers l) (r_writer l))); [done|].
    unfold mutex_try_lock. by rewrite Ew.
  - destruct (rw_try_write a l) as [l'|] eqn:Et; eexists; [by eapply try_lock_no_w|by eapply try_lock_no_r].
  - eexists. by apply failed_done.
  - eexists. by apply drop_read.
Qed.

(** A reader, a writer and a waiting [lock] call. *)
Lemma lock_no_deadlock_witness :
  ∃ s', advance (mkSys (mk None ({[0%nat]} ∪ ∅) None) (<[0%nat := Holds Reader]> (<[0%nat := Waiting Reader]> (λ _, Idle)))) s'.
Proof.
  apply (lock_no_deadlock _ 0%nat); [|done].
  eapply reach_advance; [|exact (read_granted 0%nat new _ _ eq_refl eq_refl)].
  eapply reach_call; [apply reach_start|exact (call_blocking 0%nat Reader new _ eq_refl)].
Defined.

End TristateLock.
