(* ===== verification/Calls.v ===== *)
(** * The methods of [Queue] and the guards they run under ([queue.rs])

    Every public method of [Queue] takes a guard of the three-state lock and
    runs the method of [InnerQueue] of the same name (file [Queues.v]). Here a
    call is a sequence of steps: the method's mutex and guard are obtained,
    the body runs, the guard is given back. [overlap] says which two bodies
    can run at the same time.

    [checkpoint] and [maintenance] take their guard in
    [let inner = unsafe { mem::transmute(&*self.inner.read()) };]: the guard
    is a temporary of that statement and is dropped at its end, so their
    bodies run under no guard at all. *)
From stdpp Require Import functions.
From S2P Require Import Prelude.
From S2P Require Import Locks.

Module Queue.
Import TristateLock.

Inductive method : Type :=
| config_cloned | set_config | create_channel | delete_channel | purge_channel | iter_channels
| get | push | push_many | ack | purge | info | delete | seek_channel_to_id | seek_channel_to_timestamp
| checkpoint | maintenance.

(** [inner.read()], [inner.write()] or [inner.lock()]. *)
Definition guard (m : method) : mode :=
  match m with
  | config_cloned | purge_channel | iter_channels | get | ack | info
  | seek_channel_to_id | seek_channel_to_timestamp => Reader
  | push | push_many => Writer
  | set_config | create_channel | delete_channel | purge | delete => Exclusive
  | checkpoint | maintenance => Reader
  end.

(** [checkpoint] and [maintenance] lock [maintenance_mutex] first, and keep
    it until they return. *)
Definition maintenance_mutex (m : method) : bool :=
  match m with checkpoint | maintenance => true | _ => false end.

(** The guard that is held while the body runs. *)
Definition held (m : method) : option mode :=
  if maintenance_mutex m then None else Some (guard m).

(** The methods whose [InnerQueue] method has [&mut self]. *)
Definition mutates (m : method) : bool :=
  match m with
  | set_config | create_channel | delete_channel | push | push_many | purge | delete
  | checkpoint | maintenance => true
  | _ => false
  end.

(** Two bodies can run at the same time. *)
Definition overlap (m n : method) : bool :=
  match held m, held n with
  | Some g, Some h => compatible g h
  | None, None => false
  | _, _ => true
  end.

(** *** Calls as steps *)

Inductive stage : Type :=
| Out
(** the method's mutex is held, the guard was asked for *)
| Entering (m : method)
| Body (m : method).

(** [maintenance_lock] is the owner of [maintenance_mutex]. *)
Record calls : Type := mkCalls {
  inner : TristateLock.sys;
  maintenance_lock : option agent;
  stages : agent → stage;
}.

Definition idle : calls := mkCalls TristateLock.start None (λ _, Out).

Definition set_stage (a : agent) (g : stage) (s : calls) : calls :=
  mkCalls (inner s) (maintenance_lock s) (<[a := g]> (stages s)).

Inductive step : calls → calls → Prop :=
| step_call a m l p mm st :
    st a = Out → p a = Idle → (maintenance_mutex m = true → mm = None) →
    step (mkCalls (mkSys l p) mm st)
      (mkCalls (mkSys l (<[a := Waiting (guard m)]> p))
        (if maintenance_mutex m then Some a else mm) (<[a := Entering m]> st))
(** the lock moves; no guard is dropped before its owner's call is over *)
| step_lock l l' mm st :
    advance l l' →
    (∀ a g, st a ≠ Out → pcs l a = Holds g → pcs l' a = Holds g) →
    step (mkCalls l mm st) (mkCalls l' mm st)
| step_body a m l p mm st :
    st a = Entering m → p a = Holds (guard m) → maintenance_mutex m = false →
    step (mkCalls (mkSys l p) mm st) (mkCalls (mkSys l p) mm (<[a := Body m]> st))
(** the end of the statement drops the temporary guard *)
| step_body_unguarded a m l p mm st :
    st a = Entering m → p a = Holds Reader → maintenance_mutex m = true →
    step (mkCalls (mkSys l p) mm st)
      (mkCalls (mkSys (rw_unlock_read a l) (<[a := Idle]> p)) mm (<[a := Body m]> st))
| step_return a m l mm st :
    st a = Body m →
    step (mkCalls l mm st)
      (mkCalls l (if maintenance_mutex m then None else mm) (<[a := Out]> st)).

Inductive reachable : calls → Prop :=
| reachable_idle : reachable idle
| reachable_step s s' : reachable s → step s s' → reachable s'.

(** *** The invariant *)

Record calls_inv (s : calls) : Prop := {
  ca_lock : lock_inv (inner s);
  ca_guard a m : stages s a = Body m → maintenance_mutex m = false → pcs (inner s) a = Holds (guard m);
  ca_mutex a m : stages s a = Body m ∨ stages s a = Entering m → maintenance_mutex m = true →
    maintenance_lock s = Some a;
}.

(** Only [a]'s stage changes. *)
Lemma stage_inv a g l l' p p' mm mm' st :
  calls_inv (mkCalls (mkSys l p) mm st) → lock_inv (mkSys l' p') →
  (∀ b, b ≠ a → p' b = p b) →
  (∀ m, g = Body m → maintenance_mutex m = false → p' a = Holds (guard m)) →
  (∀ m, g = Body m ∨ g = Entering m → maintenance_mutex m = true → mm' = Some a) →
  (mm' = mm ∨ mm = None ∨ mm = Some a) →
  calls_inv (mkCalls (mkSys l' p') mm' (<[a := g]> st)).
Proof.
  intros [_ Hg Hm] Hl Hp Hga Hma Hmm. cbn in *. constructor; cbn; [done|..]; intros b m;
    (destruct (decide (a = b)) as [<-|Hne];
      [rewrite !fn_lookup_insert|rewrite !fn_lookup_insert_ne by done]); intros Hst He.
  - by apply Hga.
  - rewrite Hp by done. by apply Hg.
  - by eapply Hma.
  - pose proof (Hm b m Hst He). destruct Hmm as [->|[?|?]]; congruence.
Qed.

Lemma queue_step_inv s s' : calls_inv s → step s s' → calls_inv s'.
Proof.
  intros Hinv Hst. pose proof Hinv as [Hl Hg Hm].
  destruct Hst as [a m l p mm st Ho Hi Hn|l l' mm st Had Hk|a m l p mm st He Hh Hn|a m l p mm st He Hh Hn|a m l mm st Hb];
    cbn in *.
  - eapply stage_inv; [exact Hinv| | |done| |].
    + by apply (call_inv _ _ Hl), call_blocking.
    + intros b Hb. by rewrite fn_lookup_insert_ne.
    + intros m' [[=]|[= <-]] Hm'. by rewrite Hm'.
    + destruct (maintenance_mutex m); [right; left; by apply Hn|by left].
  - constructor; cbn; [by eapply advance_inv| |done]. intros a m Ha Hmm. apply Hk; [congruence|by apply Hg].
  - eapply stage_inv; [exact Hinv|done|done| | |by left].
    + by intros m' [= <-].
    + intros m' [[= <-]|?]; congruence.
  - eapply stage_inv; [exact Hinv| | | | |by left].
    + by apply (advance_inv _ _ Hl), drop_read.
    + intros b Hb. by rewrite fn_lookup_insert_ne.
    + intros m' [= <-]. congruence.
    + intros m' [[= <-]|?] _; [|congruence]. eapply Hm; [by right|done].
  - destruct l as [l p]. eapply stage_inv; [exact Hinv|done|done|done| |].
    + by intros m' [?|?].
    + destruct (maintenance_mutex m) eqn:E; [|by left]. right; right. eapply Hm; [by left|done].
Qed.

Lemma reachable_calls_inv s : reachable s → calls_inv s.
Proof.
  induction 1; [|by eapply queue_step_inv]. constructor; [apply start_inv|done|by intros a m [?|?]].
Qed.

(** *** Going in *)

(** What the lock grants to a call that finds it free enough. *)
Definition grant (a : agent) (g : mode) (l : t) : option t :=
  match g with
  | Reader => rw_try_read a l
  | Writer => mutex_try_lock a l
  | Exclusive => l ← mutex_try_lock a l; rw_try_write a l
  end.

(** [a] runs [m] and nothing else changed. *)
Definition entered (a : agent) (m : method) (l : t) (s s' : calls) : Prop :=
  lock (inner s') = l ∧ stages s' a = Body m ∧
  maintenance_lock s' = (if maintenance_mutex m then Some a else maintenance_lock s) ∧
  ∀ b, b ≠ a → stages s' b = stages s b ∧ pcs (inner s') b = pcs (inner s) b.

Definition outside (a : agent) (s : calls) : Prop := stages s a = Out ∧ pcs (inner s) a = Idle.

(** A granted guard is obtained without disturbing the others. *)
Lemma granted a m l l' p mm st :
  reachable (mkCalls (mkSys l p) mm st) → st a = Entering m → p a = Waiting (guard m) →
  grant a (guard m) l = Some l' →
  ∃ p', reachable (mkCalls (mkSys l' p') mm st) ∧ p' a = Holds (guard m) ∧ ∀ b, b ≠ a → p' b = p b.
Proof.
  intros Hr He Hp Hg.
  assert (∀ l1 p1 l2 q, (∀ b, b ≠ a → p1 b = p b) → p1 a ≠ Holds (guard m) →
    (∀ g, p1 a ≠ Holds g) → reachable (mkCalls (mkSys l1 p1) mm st) →
    advance (mkSys l1 p1) (mkSys l2 (<[a := q]> p1)) → reachable (mkCalls (mkSys l2 (<[a := q]> p1)) mm st)) as Hgo.
  { intros l1 p1 l2 q Hb _ Hn Hr1 Had. eapply reachable_step; [exact Hr1|]. apply step_lock; [done|].
    intros b g _ Hh. cbn in *. destruct (decide (a = b)) as [<-|?]; [by destruct (Hn g)|].
    by rewrite fn_lookup_insert_ne. }
  assert (∀ q, ∀ b, b ≠ a → <[a := q]> p b = p b) as Hne by (intros; by rewrite fn_lookup_insert_ne).
  destruct (guard m) eqn:Em; cbn in Hg.
  - exists (<[a := Holds Reader]> p). split_and!; [|by rewrite fn_lookup_insert|apply Hne].
    eapply Hgo; try done; rewrite ?Hp; try done. by apply read_granted.
  - exists (<[a := Holds Writer]> p). split_and!; [|by rewrite fn_lookup_insert|apply Hne].
    eapply Hgo; try done; rewrite ?Hp; try done. by apply write_granted.
  - destruct (mutex_try_lock a l) as [l1|] eqn:E1; [|done]. cbn in Hg.
    exists (<[a := Holds Exclusive]> (<[a := LockedW]> p)). split_and!.
    + eapply Hgo; [by intros; apply Hne|by rewrite fn_lookup_insert..| |].
      * eapply Hgo; try done; rewrite ?Hp; try done. by apply lock_w.
      * apply lock_r; [by rewrite fn_lookup_insert|done].
    + by rewrite fn_lookup_insert.
    + intros b Hb. by rewrite !fn_lookup_insert_ne.
Qed.

Lemma enter a m s l' :
  reachable s → outside a s → (maintenance_mutex m = true → maintenance_lock s = None) →
  grant a (guard m) (lock (inner s)) = Some l' →
  ∃ s', reachable s' ∧ entered a m (if maintenance_mutex m then rw_unlock_read a l' else l') s s'.
Proof.
  destruct s as [[l p] mm st]. intros Hr [Ho Hi] Hm Hg. cbn in *.
  pose proof (reachable_step _ _ Hr (step_call a m l p mm st Ho Hi Hm)) as Hr1.
  destruct (granted a m _ l' _ _ _ Hr1) as (p' & Hr2 & Hp & Hb);
    [by rewrite fn_lookup_insert|by rewrite fn_lookup_insert|done|].
  assert (∀ b, b ≠ a → p' b = p b) as Hb' by (intros b Hne; by rewrite Hb, fn_lookup_insert_ne).
  destruct (maintenance_mutex m) eqn:E; eexists; (split; [eapply reachable_step; [exact Hr2|]|]).
  - apply (step_body_unguarded a m); [by rewrite fn_lookup_insert| |done]. by destruct m.
  - unfold entered. cbn. rewrite fn_lookup_insert, E. split_and!; [done..|]. intros b Hne.
    rewrite !fn_lookup_insert_ne by done. by split; [|apply Hb'].
  - apply (step_body a m); [by rewrite fn_lookup_insert|done|done].
  - unfold entered. cbn. rewrite fn_lookup_insert, E. split_and!; [done..|]. intros b Hne.
    rewrite !fn_lookup_insert_ne by done. by split; [|apply Hb'].
Qed.

(** *** Theorems *)

Lemma overlap_held s a b m n :
  calls_inv s → a ≠ b → stages s a = Body m → stages s b = Body n → overlap m n = true.
Proof.
  intros [Hl Hg Hm] Hne Ha Hb. unfold overlap, held.
  destruct (maintenance_mutex m) eqn:Em, (maintenance_mutex n) eqn:En; try done.
  - pose proof (Hm a m (or_introl Ha) Em). pose proof (Hm b n (or_introl Hb) En). congruence.
  - apply (held_compatible (inner s) a b); [done|by apply Hg|by apply Hg|done].
Qed.

Lemma enter_two a b m n l1 l2 :
  a ≠ b → maintenance_mutex m && maintenance_mutex n = false → grant a (guard m) new = Some l1 →
  grant b (guard n) (if maintenance_mutex m then rw_unlock_read a l1 else l1) = Some l2 →
  ∃ s, reachable s ∧ stages s a = Body m ∧ stages s b = Body n.
Proof.
  intros Hne Hmn H1 H2.
  destruct (enter a m idle l1 reachable_idle) as (s1 & Hr1 & Hl1 & Hb1 & Hm1 & Ho1); [done|done|exact H1|].
  destruct (Ho1 b) as [Hsb Hpb]; [done|].
  destruct (enter b n s1 l2 Hr1) as (s2 & Hr2 & _ & Hb2 & _ & Ho2); [by split| |by rewrite Hl1|].
  { intros Hn. rewrite Hm1. by destruct (maintenance_mutex m), (maintenance_mutex n). }
  exists s2. destruct (Ho2 a) as [-> _]; done.
Qed.

(** After the temporary guard is gone the lock is as it was. *)
Lemma unguarded_new a l : rw_try_read a new = Some l → rw_unlock_read a l = new.
Proof. intros [= <-]. unfold rw_unlock_read, new. cbn. f_equal. set_solver. Qed.

Lemma grant_new a g : ∃ l, grant a g new = Some l.
Proof. destruct g; [by eexists..|]. cbn. unfold rw_try_write. cbn. rewrite decide_True by done. by eexists. Qed.

Lemma grant_compatible a b g h l :
  compatible g h = true → grant a g new = Some l → ∃ l', grant b h l = Some l'.
Proof. intros Hc Hg. destruct g, h; try done; injection Hg as <-; by eexists. Qed.

(** C18: Which methods of one queue run at the same time: their bodies overlap
    exactly when the guards they hold are compatible, and the maintenance and
    the checkpoint overlap with every method but each other, since the guard
    they ask for is dropped before their body starts. *)
Theorem bodies_overlap m n :
  overlap m n = true ↔
  ∃ s a b, reachable s ∧ a ≠ b ∧ stages s a = Body m ∧ stages s b = Body n.
Proof.
  split; [|intros (s & a & b & Hs%reachable_calls_inv & Hne & Ha & Hb); by eapply overlap_held].
  intros Ho.
  assert (∀ m n, (maintenance_mutex m = true → maintenance_mutex n = false) → overlap m n = true →
    maintenance_mutex n = false → ∃ s, reachable s ∧ stages s 0%nat = Body m ∧ stages s 1%nat = Body n) as Hgo.
  { clear. intros m n _ Ho Hn. destruct (grant_new 0%nat (guard m)) as [l1 H1].
    assert (∃ l2, grant 1%nat (guard n) (if maintenance_mutex m then rw_unlock_read 0%nat l1 else l1) = Some l2) as [l2 H2].
    { unfold overlap, held in Ho. rewrite Hn in Ho. destruct (maintenance_mutex m) eqn:Em.
      - rewrite unguarded_new; [apply grant_new|by destruct m].
      - by eapply grant_compatible. }
    eapply enter_two; [done|by rewrite Hn, andb_false_r|exact H1|exact H2]. }
  destruct (maintenance_mutex n) eqn:En.
  - assert (maintenance_mutex m = false) as Em.
    { unfold overlap, held in Ho. rewrite En in Ho. by destruct (maintenance_mutex m). }
    destruct (Hgo n m) as (s & Hr & Hn & Hm); [done| |done|by exists s, 1%nat, 0%nat].
    unfold overlap, held in *. by rewrite Em, En.
  - destruct (Hgo m n) as (s & Hr & Hm & Hn); [done..|by exists s, 0%nat, 1%nat].
Qed.

(** The maintenance runs beside the methods that hold the exclusive guard:
    it walks the table of channels while another thread inserts into it. *)
Lemma maintenance_unguarded m :
  guard m = Exclusive →
  ∃ s a b, reachable s ∧ a ≠ b ∧ stages s a = Body m ∧ pcs (inner s) a = Holds Exclusive ∧
    stages s b = Body maintenance.
Proof.
  intros Hm. assert (maintenance_mutex m = false) as Em by (by destruct m).
  destruct (proj1 (bodies_overlap m maintenance)) as (s & a & b & Hr & Hne & Ha & Hb).
  { unfold overlap, held. by rewrite Em. }
  exists s, a, b. split_and!; try done. rewrite <-Hm. by apply (ca_guard _ (reachable_calls_inv _ Hr)).
Qed.

(** Without the two unguarded methods, the channel table and the
    configuration change only while nothing else runs. *)
Lemma exclusive_alone m n :
  overlap m n = true → maintenance_mutex n = false → mutates m = true → maintenance_mutex m = false →
  guard m = Writer ∧ guard n = Reader.
Proof. destruct m, n; cbn; intros; done. Qed.

End Queue.
