(* ===== verification/MetaLock.v ===== *)
(** * Creating and deleting under the meta lock ([server.rs], [Dispatch])

    The requests that use one queue, as agents: [SET] and [DEL queue channel]
    take the meta lock while they hold the queue's [Arc], and [DEL queue]
    waits under the meta lock until its [Arc] is the only one. The contents
    of the commands are in [Commands.v]; here they are reduced to the lock
    and the reference counts, step by step. *)
From stdpp Require Import functions relations.
From S2P Require Import Prelude.

Module MetaLock.

Abbreviation agent := nat.

(** What a request does once it has the queue. *)
Inductive command : Type :=
| Use                (* RPUSH, HMGET, HDEL, ...: no meta lock *)
| ChangeChannel      (* create_channel of SET, delete_channel of DEL *)
| DeleteQueue.       (* delete_queue of DEL *)

Inductive pc : Type :=
| Idle
(** holds the [Arc]; [ChangeChannel] and [DeleteQueue] take the lock next *)
| Has (c : command)
(** holds the [Arc] and the meta lock *)
| Locked (c : command)
(** in [delete_queue], out of the table: [while Arc::strong_count(&q) > 1] *)
| Draining
(** the meta lock is released, the [Arc] is still held *)
| Leaving.

Record sys : Type := mkSys {
  meta_lock : option agent;
  (** the queue is in the table [queues] *)
  listed : bool;
  pcs : agent → pc;
}.

Definition holds_arc (p : pc) : bool := match p with Idle => false | _ => true end.

Inductive step : sys → sys → Prop :=
(** [get_queue], or [create_queue] with the queue present *)
| get_queue a c m p : p a = Idle → step (mkSys m true p) (mkSys m true (<[a := Has c]> p))
| use_done a m l p : p a = Has Use → step (mkSys m l p) (mkSys m l (<[a := Idle]> p))
| take_lock a c l p :
    p a = Has c → c ≠ Use → step (mkSys None l p) (mkSys (Some a) l (<[a := Locked c]> p))
| change_channel a m l p :
    p a = Locked ChangeChannel → step (mkSys m l p) (mkSys None l (<[a := Leaving]> p))
(** [queues.write().remove(name)] *)
| remove_queue a m p :
    p a = Locked DeleteQueue → step (mkSys m true p) (mkSys m false (<[a := Draining]> p))
| already_removed a m p :
    p a = Locked DeleteQueue → step (mkSys m false p) (mkSys None false (<[a := Leaving]> p))
| drained a m l p :
    p a = Draining → (∀ b, b ≠ a → holds_arc (p b) = false) →
    step (mkSys m l p) (mkSys None l (<[a := Leaving]> p))
| leave a m l p : p a = Leaving → step (mkSys m l p) (mkSys m l (<[a := Idle]> p)).

Definition start : sys := mkSys None true (λ _, Idle).

Definition in_section (p : pc) : bool :=
  match p with Locked _ | Draining => true | _ => false end.

(** Who is in the section holds the lock, and who drains has delisted. *)
Record meta_inv (s : sys) : Prop := {
  inv_section a : in_section (pcs s a) = true ↔ meta_lock s = Some a;
  inv_draining a : pcs s a = Draining → listed s = false;
}.

Lemma meta_start_inv : meta_inv start.
Proof. by constructor. Qed.

Lemma meta_move_inv a q m m' l l' p :
  meta_inv (mkSys m l p) → (l = false → l' = false) → (q = Draining → l' = false) →
  (m' = m ∧ in_section q = in_section (p a) ∨ m = None ∧ m' = Some a ∧ in_section q = true ∨
   in_section (p a) = true ∧ m' = None ∧ in_section q = false) →
  meta_inv (mkSys m' l' (<[a := q]> p)).
Proof.
  intros [Hs Hd] Hl Hq Hm. cbn in *.
  constructor; cbn; intros b; pose proof (Hs b) as Hb; pose proof (Hd b) as Hdb; specialize (Hs a);
    destruct (decide (a = b)) as [<-|Hne]; rewrite ?fn_lookup_insert; rewrite ?fn_lookup_insert_ne by done; auto.
  - destruct Hm as [[-> ->]|[(_ & -> & ->)|(? & -> & ->)]]; [done|done|]. split; [done|intros [=]].
  - destruct Hm as [[-> _]|[(E & -> & _)|(E & -> & _)]]; [done| |].
    + rewrite E in Hb. split; [intros ?%Hb; done|intros [= ->]; done].
    + apply Hs in E. rewrite E in Hb. split; [intros [= ->]%Hb; done|done].
Qed.

Lemma step_inv s s' : meta_inv s → step s s' → meta_inv s'.
Proof.
  intros Hinv Hst. destruct Hst; eapply meta_move_inv; try exact Hinv; cbn; try done;
    repeat match goal with E : ?p ?a = _ |- context [?p ?a] => rewrite E end;
    first [by left; by split|right; left; by split_and!|right; right; by split_and!|idtac].
Qed.

Lemma steps_inv s s' : meta_inv s → rtc step s s' → meta_inv s'.
Proof. intros Hinv. induction 1; [done|eauto using step_inv]. Qed.

(** The two requests that wait for each other. *)
Definition stuck (a b : agent) (c : command) (s : sys) : Prop :=
  meta_inv s ∧ pcs s a = Draining ∧ pcs s b = Has c.

Lemma stuck_step a b c s s' : c ≠ Use → stuck a b c s → step s s' → stuck a b c s'.
Proof.
  intros Hc (Hinv & Ha & Hb) Hst. split; [by eapply step_inv|].
  pose proof (proj1 (inv_section _ Hinv a)) as Hm. rewrite Ha in Hm. specialize (Hm eq_refl).
  assert (a ≠ b) as Hab by congruence.
  destruct Hst as [x ? ? p Hx|x ? ? p Hx|x ? ? p Hx|x ? ? p Hx|x ? p Hx|x ? p Hx|x ? ? p Hx Hall|x ? ? p Hx]; cbn in *;
    try (rewrite !fn_lookup_insert_ne by congruence; done); try done.
  - assert (x = a) as -> by (pose proof (proj1 (inv_section _ Hinv x)) as Hx'; cbn in Hx'; rewrite Hx in Hx'; specialize (Hx' eq_refl); congruence).
    specialize (Hall b). rewrite Hb in Hall. by specialize (Hall ltac:(congruence)).
Qed.

(** C36: [DEL] of a queue and a concurrent [SET] (or [DEL] of a channel) on it
    deadlock: once [delete_queue] waits, under the meta lock, for the other
    [Arc]s of the queue, a request that holds one and is about to take the
    meta lock never gets it, whatever the other requests do; neither of the
    two returns, and no request takes the meta lock ever again. *)
Theorem delete_deadlocks s a b c s' :
  rtc step start s → pcs s a = Draining → pcs s b = Has c → c ≠ Use → rtc step s s' →
  pcs s' a = Draining ∧ pcs s' b = Has c ∧ meta_lock s' = Some a.
Proof.
  intros Hs Ha Hb Hc Hs'.
  assert (stuck a b c s) as Hstuck by (split; [by eapply steps_inv; [apply meta_start_inv|]|done]).
  clear Hs Ha Hb. induction Hs' as [s|s s1 s2 Hst _ IH]; [|by eapply IH, stuck_step].
  destruct Hstuck as (Hinv & Ha & Hb). split_and!; [done..|]. apply (inv_section _ Hinv). by rewrite Ha.
Qed.

(** A [SET] got the queue before a [DEL] took the lock. *)
Lemma delete_deadlocks_witness :
  ∃ s, rtc step start s ∧ ∀ s', rtc step s s' →
    pcs s' 1%nat = Draining ∧ pcs s' 0%nat = Has ChangeChannel ∧ meta_lock s' = Some 1%nat.
Proof.
  exists (mkSys (Some 1%nat) false
    (<[1%nat := Draining]> (<[1%nat := Locked DeleteQueue]> (<[1%nat := Has DeleteQueue]>
      (<[0%nat := Has ChangeChannel]> (λ _, Idle)))))).
  assert (rtc step start (mkSys (Some 1%nat) false
    (<[1%nat := Draining]> (<[1%nat := Locked DeleteQueue]> (<[1%nat := Has DeleteQueue]>
      (<[0%nat := Has ChangeChannel]> (λ _, Idle))))))) as Hreach.
  { eapply rtc_l; [exact (get_queue 0%nat ChangeChannel None _ eq_refl)|].
    eapply rtc_l; [exact (get_queue 1%nat DeleteQueue None _ eq_refl)|].
    eapply rtc_l; [refine (take_lock 1%nat DeleteQueue true _ eq_refl _); discriminate|].
    eapply rtc_l; [exact (remove_queue 1%nat (Some 1%nat) _ eq_refl)|]. apply rtc_refl. }
  split; [exact Hreach|]. intros s' Hs'.
  refine (delete_deadlocks _ 1%nat 0%nat ChangeChannel s' Hreach eq_refl eq_refl _ Hs'). discriminate.
Defined.

End MetaLock.
