(* ===== verification/Channels.v ===== *)
(** * Channels ([queue.rs], [Channel])

    A channel is a reading position and the messages handed out but not yet
    acknowledged: a linked hash map from tickets to in-flight states, in
    least-recently-used order, and a heap of the in-flight ids.

    The [linked_hash_map] crate is third-party code: the interface
    [LinkedHashMap] lists the operations the program uses, [LinkedHashMapOk]
    their documented behaviour in terms of the iteration order, and
    [alist_map] is an implementation that meets it. *)
From S2P Require Import Prelude.
From S2P Require Import Heaps.

(** ** Linked hash maps with [i64] keys *)

Class LinkedHashMap (V M : Type) : Type := {
  lm_default : M;
  lm_len : M → Z;
  lm_get : Z → M → option V;
  lm_insert : Z → V → M → M;
  lm_remove : Z → M → option V * M;
  lm_front : M → option (Z * V);
  lm_iter : M → list (Z * V);
  (** [iter_mut] and an assignment to the values it yields, in order *)
  lm_iter_mut : list V → M → M;
}.

(** The value of the first entry with key [k]. *)
Fixpoint assoc {V} (k : Z) (l : list (Z * V)) : option V :=
  match l with
  | [] => None
  | (k', v) :: l => if k' =? k then Some v else assoc k l
  end.

Definition without {V} (k : Z) (l : list (Z * V)) : list (Z * V) :=
  filter (λ e, e.1 ≠ k) l.

Class LinkedHashMapOk (V M : Type) `{LinkedHashMap V M} : Prop := {
  lm_iter_default : lm_iter lm_default = [];
  lm_len_iter m : lm_len m = zlen (lm_iter m);
  lm_get_iter k m : lm_get k m = assoc k (lm_iter m);
  (** a new entry, or one inserted again, goes to the back *)
  lm_insert_iter k v m : lm_iter (lm_insert k v m) = without k (lm_iter m) ++ [(k, v)];
  lm_remove_iter k m : lm_iter (lm_remove k m).2 = without k (lm_iter m);
  lm_remove_val k m : (lm_remove k m).1 = assoc k (lm_iter m);
  lm_front_iter m : lm_front m = head (lm_iter m);
  lm_iter_mut_iter vs m :
    length vs = length (lm_iter m) → lm_iter (lm_iter_mut vs m) = zip (lm_iter m).*1 vs;
}.

(** An association list in insertion order meets the interface. *)
#[export] Instance alist_map {V} : LinkedHashMap V (list (Z * V)) := {
  lm_default := [];
  lm_len := zlen;
  lm_get := assoc;
  lm_insert k v m := without k m ++ [(k, v)];
  lm_remove k m := (assoc k m, without k m);
  lm_front m := head m;
  lm_iter m := m;
  lm_iter_mut vs m := zip m.*1 vs;
}.

#[export] Instance alist_map_ok {V} : LinkedHashMapOk V (list (Z * V)).
Proof. by split. Qed.

Module Channel.

Definition EXPIRED : Z := 0.

Record InFlightState : Type := mkInFlight {
  id : Z;
  expiration : Z;
}.

#[global] Instance InFlightState_eq_dec : EqDecision InFlightState.
Proof. solve_decision. Defined.

(** [struct Channel], over the type of its linked hash map. *)
Record t (M : Type) : Type := mk {
  last_touched : Z;
  expired_count : Z;
  tail : Z;
  in_flight_map : M;
  in_flight_heap : list BinaryHeap.entry;
}.
Arguments mk {M}.
Arguments last_touched {M}.
Arguments expired_count {M}.
Arguments tail {M}.
Arguments in_flight_map {M}.
Arguments in_flight_heap {M}.

#[global] Instance t_eq_dec {M} `{EqDecision M} : EqDecision (t M).
Proof. solve_decision. Defined.

Section ops.
Context `{Profile} {M : Type} `{LinkedHashMap InFlightState M}.
Implicit Types c : t M.

Definition touch c (clock : Z) : t M :=
  mk clock (expired_count c) (tail c) (in_flight_map c) (in_flight_heap c).
Definition set_tail c (tail : Z) : t M :=
  mk (last_touched c) (expired_count c) tail (in_flight_map c) (in_flight_heap c).

(** A channel as [create_channel] and [recover] make it. *)
Definition fresh (clock tail : Z) : t M := mk clock 0 tail lm_default [].

Definition real_tail c : outcome Z :=
  match BinaryHeap.peek (in_flight_heap c) with
  | Some (top, _) => _ ← debug_assert (top <? tail c); mret top
  | None => mret (tail c)
  end.

(** The loop of [update_state] over the entries not yet counted. *)
Fixpoint expire_loop (clock count : Z) (states : list InFlightState) :
    outcome (Z * list InFlightState) :=
  match states with
  | [] => mret (count, [])
  | s :: states =>
      if expiration s <=? clock then
        count ← u32 (count + 1);
        '(count, states) ← expire_loop clock count states;
        mret (count, mkInFlight (id s) EXPIRED :: states)
      else mret (count, s :: states)
  end.

Definition update_state c (clock : Z) : outcome (t M) :=
  let values := (lm_iter (in_flight_map c)).*2 in
  let skipped := Z.to_nat (expired_count c) in
  '(count, states) ← expire_loop clock (expired_count c) (drop skipped values);
  mret (mk (last_touched c) count (tail c)
          (lm_iter_mut (take skipped values ++ states) (in_flight_map c)) (in_flight_heap c)).

Definition in_flight_count c (clock : Z) : outcome (t M * Z) :=
  c ← update_state c clock;
  n ← u32 (as_u32 (lm_len (in_flight_map c)) - expired_count c);
  mret (c, n).

Definition purge c (new_tail : Z) : t M := mk (last_touched c) 0 new_tail lm_default [].

Definition messages_available c : Z := expired_count c.

End ops.
End Channel.
