(* ===== verification/ChannelFacts.v ===== *)
(** * The invariant of a channel

    [chan_ok c] relates the linked hash map, the count of expired entries,
    the heap of in-flight ids and the tail. The lemmas show that every
    operation of [queue.rs] on a channel but [InnerQueue::purge] and the two
    seeks preserves it, and what each operation does to the map. *)
From S2P Require Import Prelude.
From S2P Require Import Heaps.
From S2P Require Import Channels.

(** ** Association lists *)

Lemma assoc_Some {V} k (v : V) l : assoc k l = Some v → (k, v) ∈ l.
Proof.
  induction l as [|[k' v'] l IH]; cbn; [done|].
  destruct (Z.eqb_spec k' k) as [->|]; [intros [= ->]; left|right; by apply IH].
Qed.

Lemma assoc_None {V} k (l : list (Z * V)) : assoc k l = None ↔ k ∉ l.*1.
Proof.
  induction l as [|[k' v'] l IH]; cbn; [split; [by intros _ ?%elem_of_nil|done]|].
  rewrite not_elem_of_cons. destruct (Z.eqb_spec k' k) as [->|]; [naive_solver|].
  rewrite IH. naive_solver.
Qed.

Lemma assoc_elem {V} k (v : V) l : NoDup l.*1 → (k, v) ∈ l → assoc k l = Some v.
Proof.
  induction l as [|[k' v'] l IH]; cbn; [by intros _ ?%elem_of_nil|].
  intros [Hk Hnd]%NoDup_cons [[= -> ->]|Hin]%elem_of_cons; [by rewrite Z.eqb_refl|].
  destruct (Z.eqb_spec k' k) as [->|]; [|by apply IH].
  destruct Hk. by apply (list_elem_of_fmap_2' fst _ (k, v)).
Qed.

Lemma elem_of_without {V} k (e : Z * V) l : e ∈ without k l ↔ e.1 ≠ k ∧ e ∈ l.
Proof. unfold without. by rewrite list_elem_of_filter. Qed.

Lemma without_fresh {V} k (l : list (Z * V)) : k ∉ l.*1 → without k l = l.
Proof.
  induction l as [|e l IH]; [done|]. intros [Hk Hl]%not_elem_of_cons.
  unfold without in *. rewrite filter_cons_True by (cbn; congruence). by rewrite IH.
Qed.

Lemma without_front {V} k (v : V) l : NoDup ((k, v) :: l).*1 → without k ((k, v) :: l) = l.
Proof.
  intros [Hk Hl]%NoDup_cons. unfold without. rewrite filter_cons_False by (intros H; by apply H).
  by apply without_fresh.
Qed.

Lemma without_sub {V} k (l : list (Z * V)) : without k l `sublist_of` l.
Proof. apply sublist_filter. Qed.

Lemma NoDup_map_sub {A B} (f : A → B) (l k : list A) :
  l `sublist_of` k → NoDup (f <$> k) → NoDup (f <$> l).
Proof. intros Hs Hnd. eapply sublist_NoDup; [exact Hnd|]. by apply fmap_sublist. Qed.

(** ** The invariant *)

Section invariant.
Context `{Profile} {M : Type} `{LinkedHashMap Channel.InFlightState M}.
Implicit Types (c : Channel.t M) (s : Channel.InFlightState).

(** The in-flight entries, least recently used first. *)
Definition in_flight c : list (Z * Channel.InFlightState) := lm_iter (Channel.in_flight_map c).

Definition entry_id (e : Z * Channel.InFlightState) : Z := Channel.id e.2.
Definition entry_expiration (e : Z * Channel.InFlightState) : Z := Channel.expiration e.2.

(** The first [n] entries are marked [EXPIRED] and no other is. *)
Definition expired (e : Z * Channel.InFlightState) : Prop := entry_expiration e = Channel.EXPIRED.
Definition pending (e : Z * Channel.InFlightState) : Prop := 0 < entry_expiration e < 2 ^ 32.
Definition counted (n : Z) (l : list (Z * Channel.InFlightState)) : Prop :=
  ∃ pre live, l = pre ++ live ∧ n = zlen pre ∧ Forall expired pre ∧ Forall pending live.

Record chan_ok c : Prop := {
  co_tickets : NoDup (in_flight c).*1;
  co_counted : counted (Channel.expired_count c) (in_flight c);
  co_ids : NoDup (entry_id <$> in_flight c);
  co_range : Forall (λ e, 0 ≤ entry_id e < Channel.tail c) (in_flight c);
  co_tail : 0 ≤ Channel.tail c;
  co_sorted : BinaryHeap.sorted (Channel.in_flight_heap c);
  (** every in-flight message is in the heap under its ticket *)
  co_heap e : e ∈ in_flight c → (entry_id e, e.1) ∈ Channel.in_flight_heap c;
  (** a heap entry whose ticket is in flight has that entry's id *)
  co_known id ticket s :
    (id, ticket) ∈ Channel.in_flight_heap c → (ticket, s) ∈ in_flight c → Channel.id s = id;
  (** the id on top of the heap is in flight *)
  co_top id ticket :
    BinaryHeap.peek (Channel.in_flight_heap c) = Some (id, ticket) →
    id ∈ entry_id <$> in_flight c;
}.

(** A ticket that was never drawn for an entry still in the heap. *)
Definition unused (ticket : Z) c : Prop := ticket ∉ (Channel.in_flight_heap c).*2.

(** What [real_tail] should be: the smallest id a consumer may still need. *)
Definition first_unacked c (n : Z) : Prop :=
  match in_flight c with
  | [] => n = Channel.tail c
  | _ => n ∈ entry_id <$> in_flight c ∧ Forall (λ e, n ≤ entry_id e) (in_flight c)
  end.

Lemma unused_map c ticket : chan_ok c → unused ticket c → ticket ∉ (in_flight c).*1.
Proof.
  intros Hc Hu ((t & s) & -> & Hin)%list_elem_of_fmap. apply Hu.
  apply (co_heap _ Hc) in Hin. by apply (list_elem_of_fmap_2 snd) in Hin.
Qed.

Lemma real_tail_ok c :
  chan_ok c →
  ∃ n, Channel.real_tail c = Done n ∧ first_unacked c n ∧ 0 ≤ n ≤ Channel.tail c.
Proof.
  intros Hc. unfold Channel.real_tail, first_unacked.
  pose proof (co_top _ Hc) as Htop. pose proof (co_tail _ Hc).
  destruct (BinaryHeap.peek _) as [[id ticket]|] eqn:Hp.
  - specialize (Htop _ _ eq_refl). pose proof Htop as (e & -> & He)%list_elem_of_fmap.
    pose proof (co_range _ Hc) as Hr. eapply Forall_forall in Hr; [|exact He].
    rewrite debug_assert_true, bind_Done by lia. eexists. split; [done|]. split; [|lia].
    destruct (in_flight c) eqn:Hl; [by apply elem_of_nil in He|].
    rewrite <-Hl in *. split; [done|]. apply Forall_forall. intros e' He'.
    apply (BinaryHeap.peek_min _ _ (entry_id e', e'.1)) in Hp;
      [done|apply (co_sorted _ Hc)|by apply (co_heap _ Hc)].
  - exists (Channel.tail c). split; [done|]. split; [|lia].
    destruct (in_flight c) as [|e l] eqn:Hl; [done|].
    assert (Hin : e ∈ in_flight c) by (rewrite Hl; left).
    apply (co_heap _ Hc) in Hin. destruct (Channel.in_flight_heap c); [by apply elem_of_nil in Hin|done].
Qed.

Lemma first_unacked_unique c n m : first_unacked c n → first_unacked c m → n = m.
Proof.
  unfold first_unacked. destruct (in_flight c) as [|e l]; [congruence|].
  intros [(e1 & -> & H1)%list_elem_of_fmap Hn] [(e2 & -> & H2)%list_elem_of_fmap Hm].
  rewrite Forall_forall in Hn, Hm. specialize (Hn _ H2). specialize (Hm _ H1). lia.
Qed.

(** ** Preservation *)

Lemma touch_ok c clock : chan_ok c → chan_ok (Channel.touch c clock).
Proof. by intros []. Qed.

Section map_ok.
Context `{!LinkedHashMapOk Channel.InFlightState M}.

Lemma purged_ok c n : 0 ≤ n → chan_ok (Channel.purge c n).
Proof.
  intros Hn. constructor; unfold in_flight; cbn; rewrite ?lm_iter_default; try done; try constructor.
  all: try by (intros; exfalso; eapply elem_of_nil).
  by exists [], [].
Qed.

Lemma fresh_ok clock n : 0 ≤ n → chan_ok (Channel.fresh clock n).
Proof. intros Hn. apply (purged_ok (Channel.fresh clock n) n Hn). Qed.

(** A list of entries with some expirations changed. *)
Lemma same_entries (l k : list (Z * Channel.InFlightState)) :
  k.*1 = l.*1 → entry_id <$> k = entry_id <$> l →
  ∀ e, e ∈ k → ∃ e', e' ∈ l ∧ e'.1 = e.1 ∧ entry_id e' = entry_id e.
Proof.
  intros H1 H2 e [i Hi]%list_elem_of_lookup.
  assert (k.*1 !! i = Some e.1) as Hk1 by (by rewrite list_lookup_fmap, Hi).
  assert ((entry_id <$> k) !! i = Some (entry_id e)) as Hk2 by (by rewrite list_lookup_fmap, Hi).
  rewrite H1, list_lookup_fmap in Hk1. rewrite H2, list_lookup_fmap in Hk2.
  destruct (l !! i) as [e'|] eqn:He'; cbn in *; [|done]. simplify_eq.
  exists e'. split; [by eapply list_elem_of_lookup_2|done].
Qed.

Lemma chan_ok_mark c c' :
  chan_ok c → (in_flight c').*1 = (in_flight c).*1 →
  entry_id <$> in_flight c' = entry_id <$> in_flight c →
  counted (Channel.expired_count c') (in_flight c') →
  Channel.tail c' = Channel.tail c → Channel.in_flight_heap c' = Channel.in_flight_heap c →
  chan_ok c'.
Proof.
  intros Hc H1 H2 Hcount Ht Hh. pose proof (same_entries _ _ H1 H2) as Hsame.
  constructor; rewrite ?H1, ?H2, ?Ht, ?Hh; try apply Hc; try done.
  - apply Forall_forall. intros e (e' & He' & _ & <-)%Hsame.
    pose proof (co_range _ Hc) as Hr. by eapply Forall_forall in Hr.
  - intros e (e' & He' & <- & <-)%Hsame. by apply (co_heap _ Hc).
  - intros id ticket s Hin (e' & He' & Ht' & Hid)%Hsame. cbn in *. subst ticket.
    destruct e' as [t' s']. unfold entry_id in Hid. cbn in Hid. rewrite <-Hid.
    by eapply (co_known _ Hc).
Qed.

(** ** Insertion and removal *)

(** The entries [l0] stay and one is inserted with a ticket never used: a
    message fetched, or the front one sent again. *)
Lemma chan_ok_add c c' l0 ticket s :
  chan_ok c → unused ticket c → l0 `sublist_of` in_flight c →
  in_flight c' = l0 ++ [(ticket, s)] →
  Channel.in_flight_heap c' = BinaryHeap.push (Channel.id s, ticket) (Channel.in_flight_heap c) →
  (∀ i, i ∈ entry_id <$> in_flight c → i ∈ entry_id <$> l0 ∨ i = Channel.id s) →
  Channel.id s ∉ entry_id <$> l0 → 0 ≤ Channel.id s < Channel.tail c' →
  Channel.tail c ≤ Channel.tail c' → counted (Channel.expired_count c') (in_flight c') →
  chan_ok c'.
Proof.
  intros Hc Hu Hsub Hl Hh Hcover Hnew Hid Ht Hcount.
  assert (∀ e, e ∈ l0 → e ∈ in_flight c) as Hin by (intros; by eapply elem_of_sublist).
  pose proof (unused_map _ _ Hc Hu) as Hum.
  constructor; rewrite ?Hl, ?Hh, ?fmap_app; cbn.
  - apply NoDup_app. split_and!.
    + by apply (NoDup_map_sub _ _ (in_flight c)), Hc.
    + intros t (e & -> & He)%list_elem_of_fmap Ht'%list_elem_of_singleton.
      apply Hum. rewrite <-Ht'. apply list_elem_of_fmap_2. auto.
    + apply NoDup_singleton.
  - by rewrite <-Hl.
  - apply NoDup_app. split_and!; [by apply (NoDup_map_sub _ _ (in_flight c)), Hc| |apply NoDup_singleton].
    intros i Hi ->%list_elem_of_singleton. by apply Hnew.
  - apply Forall_app. split; [|by constructor]. apply Forall_forall. intros e He%Hin.
    pose proof (co_range _ Hc) as Hr. eapply Forall_forall in Hr; [|done]. lia.
  - lia.
  - by apply BinaryHeap.push_sorted, Hc.
  - intros e [He| ->%list_elem_of_singleton]%elem_of_app; apply BinaryHeap.elem_of_push; [right|by left].
    by apply (co_heap _ Hc), Hin.
  - intros id t s' [[= -> ->]|Hold]%BinaryHeap.elem_of_push [He|He]%elem_of_app.
    + destruct Hum. by apply Hin, (list_elem_of_fmap_2 fst) in He.
    + apply list_elem_of_singleton in He. by simplify_eq.
    + eapply (co_known _ Hc); [done|auto].
    + apply list_elem_of_singleton in He. simplify_eq. destruct Hu.
      by apply (list_elem_of_fmap_2 snd) in Hold.
  - intros id t Hp%BinaryHeap.peek_push. apply elem_of_app.
    destruct Hp as [[= -> ->]|Hp]; [right; by apply list_elem_of_singleton|].
    apply (co_top _ Hc), Hcover in Hp as [Hp| ->]; [by left|right; by apply list_elem_of_singleton].
Qed.

(** [ack]: one pending entry leaves, and the heap loses entries whose
    ticket is no longer in flight until the top one is in flight. *)
Lemma chan_ok_remove c c' ticket :
  chan_ok c → in_flight c' = without ticket (in_flight c) → Channel.tail c' = Channel.tail c →
  Channel.in_flight_heap c' `suffix_of` Channel.in_flight_heap c →
  (∀ x, x ∈ Channel.in_flight_heap c → x.2 ∈ (in_flight c').*1 → x ∈ Channel.in_flight_heap c') →
  (∀ x, BinaryHeap.peek (Channel.in_flight_heap c') = Some x → x.2 ∈ (in_flight c').*1) →
  counted (Channel.expired_count c') (in_flight c') →
  chan_ok c'.
Proof.
  intros Hc Hl Ht [h Hh] Hkeep Htop Hcount.
  assert (∀ e, e ∈ in_flight c' → e ∈ in_flight c) as Hin.
  { intros e. rewrite Hl. by intros [_ ?]%elem_of_without. }
  assert (∀ x, x ∈ Channel.in_flight_heap c' → x ∈ Channel.in_flight_heap c) as Hheap.
  { intros x Hx. rewrite Hh. apply elem_of_app. by right. }
  constructor; rewrite ?Ht; try apply Hc; try done.
  - rewrite Hl. apply (NoDup_map_sub _ _ (in_flight c)), Hc. apply without_sub.
  - rewrite Hl. apply (NoDup_map_sub _ _ (in_flight c)), Hc. apply without_sub.
  - apply Forall_forall. intros e He%Hin. pose proof (co_range _ Hc) as Hr.
    by eapply Forall_forall in Hr.
  - pose proof (co_sorted _ Hc) as Hs. rewrite Hh in Hs.
    by apply BinaryHeap.sorted_suffix in Hs.
  - intros e He. apply Hkeep; [by apply (co_heap _ Hc), Hin|]. cbn. by apply list_elem_of_fmap_2.
  - intros id t s Hx He. eapply (co_known _ Hc); eauto.
  - intros id t Hp. specialize (Htop _ Hp). apply BinaryHeap.peek_elem, Hheap in Hp.
    apply list_elem_of_fmap in Htop as ([t' s] & Ht' & He). cbn in Ht'. subst t'.
    apply list_elem_of_fmap. exists (t, s). split; [|done].
    symmetry. eapply (co_known _ Hc); eauto.
Qed.

(** ** [update_state] *)

Definition mark s : Channel.InFlightState := Channel.mkInFlight (Channel.id s) Channel.EXPIRED.
Definition mark_entry (e : Z * Channel.InFlightState) : Z * Channel.InFlightState := (e.1, mark e.2).

Lemma expire_loop_ok clock count states :
  0 ≤ count → count + zlen states < 2 ^ 32 →
  ∃ k, Channel.expire_loop clock count states
         = Done (count + Z.of_nat k, (mark <$> take k states) ++ drop k states) ∧
    (k ≤ length states)%nat ∧ Forall (λ s, Channel.expiration s ≤ clock) (take k states) ∧
    (∀ s, states !! k = Some s → clock < Channel.expiration s).
Proof.
  revert count. induction states as [|s states IH]; intros count Hc Hlen; cbn.
  { exists O. rewrite Z.add_0_r. by split_and!. }
  rewrite zlen_cons in Hlen. pose proof (zlen_nonneg states).
  destruct (Z.leb_spec (Channel.expiration s) clock) as [Hle|Hlt].
  - mint. destruct (IH (count + 1)) as (k & Hk & Hkl & Hall & Hnext); [lia|lia|].
    rewrite Hk, bind_Done. exists (S k). cbn.
    split_and!; [do 2 f_equal; lia|lia|by constructor|done].
  - exists O. rewrite Z.add_0_r. split_and!; [done|lia|constructor|]. by intros ? [= <-].
Qed.

Lemma zip_keys_values {A B} (l : list (A * B)) : zip l.*1 l.*2 = l.
Proof. apply zip_fst_snd. Qed.

Lemma mark_expired pre : Forall expired pre → mark_entry <$> pre = pre.
Proof.
  induction 1 as [|[t [i e]] pre He _ IH]; [done|]. unfold expired, entry_expiration in He.
  cbn [Channel.expiration snd] in He. subst e. cbn. by rewrite IH.
Qed.

Lemma zip_mark (l : list (Z * Channel.InFlightState)) k :
  zip l.*1 ((mark <$> take k l.*2) ++ drop k l.*2) = (mark_entry <$> take k l) ++ drop k l.
Proof.
  revert k. induction l as [|[t s] l IH]; intros [|k]; try done; cbn.
  - by rewrite zip_keys_values.
  - by rewrite <-IH.
Qed.

Lemma update_state_ok c clock :
  chan_ok c → 0 ≤ clock → zlen (in_flight c) < 2 ^ 32 →
  ∃ c' k, Channel.update_state c clock = Done c' ∧ chan_ok c' ∧
    Channel.last_touched c' = Channel.last_touched c ∧ Channel.tail c' = Channel.tail c ∧
    Channel.in_flight_heap c' = Channel.in_flight_heap c ∧
    Channel.expired_count c' = Z.of_nat k ∧ (k ≤ length (in_flight c))%nat ∧
    in_flight c' = (mark_entry <$> take k (in_flight c)) ++ drop k (in_flight c) ∧
    Forall (λ e, entry_expiration e ≤ clock) (take k (in_flight c)) ∧
    (∀ e, in_flight c !! k = Some e → clock < entry_expiration e).
Proof.
  intros Hc Hclock Hlen. destruct (co_counted _ Hc) as (pre & live & Hl & Hn & Hpre & Hlive).
  unfold Channel.update_state. fold (in_flight c).
  assert (Hskip : Z.to_nat (Channel.expired_count c) = length pre) by (unfold zlen in *; lia).
  rewrite Hskip, Hl, fmap_app, take_app_length', drop_app_length' by (by rewrite length_fmap).
  destruct (expire_loop_ok clock (Channel.expired_count c) live.*2) as (k & Hk & Hkl & Hall & Hnext).
  { rewrite Hn. apply zlen_nonneg. }
  { rewrite Hl, zlen_app in Hlen. unfold zlen in *. rewrite length_fmap. lia. }
  rewrite Hk, bind_Done. rewrite length_fmap in Hkl.
  assert (Hnew : zip (in_flight c).*1 (pre.*2 ++ (mark <$> take k live.*2) ++ drop k live.*2)
    = (mark_entry <$> take (length pre + k) (in_flight c)) ++ drop (length pre + k) (in_flight c)).
  { rewrite Hl, fmap_app, zip_with_app, zip_keys_values, zip_mark by (by rewrite !length_fmap).
    rewrite take_app_add, drop_app_add, fmap_app, (mark_expired pre Hpre), <-app_assoc. done. }
  eexists _, (length pre + k)%nat. split; [reflexivity|]. cbn.
  match goal with |- chan_ok ?c' ∧ _ =>
    assert (Hl' : in_flight c' = (mark_entry <$> take (length pre + k) (in_flight c))
                    ++ drop (length pre + k) (in_flight c)) end.
  { unfold in_flight at 1. cbn. rewrite lm_iter_mut_iter; [exact Hnew|].
    fold (in_flight c). rewrite Hl, !length_app, length_fmap, !length_fmap.
    rewrite length_take, length_drop, !length_fmap. lia. }
  rewrite <-Hl, Hl'.
  split_and!; try done; try (rewrite Hn; unfold zlen; lia); try (rewrite Hl, length_app; lia).
  - apply (chan_ok_mark c); try done; rewrite Hl'.
    + rewrite fmap_app, <-list_fmap_compose. change (fst ∘ mark_entry) with (@fst Z Channel.InFlightState).
      by rewrite <-fmap_app, take_drop.
    + rewrite fmap_app, <-list_fmap_compose. change (entry_id ∘ mark_entry) with entry_id.
      by rewrite <-fmap_app, take_drop.
    + cbn. eexists _, _. split; [done|]. split_and!.
      * rewrite Hn. unfold zlen. rewrite length_fmap, length_take, Hl, length_app. lia.
      * apply Forall_fmap, Forall_forall. by intros.
      * rewrite Hl, drop_app_add. by apply Forall_drop.
  - rewrite Hl, take_app_add. apply Forall_app. split.
    + eapply Forall_impl; [exact Hpre|]. unfold expired. intros e ->. done.
    + rewrite <-fmap_take, Forall_fmap in Hall. exact Hall.
  - intros e. rewrite Hl, lookup_app_r by lia. replace (_ + k - _)%nat with k by lia.
    intros He. apply (Hnext e.2). by rewrite list_lookup_fmap, He.
Qed.

End map_ok.
End invariant.
