(* ===== verification/Queues.v ===== *)
(** * Queues ([queue.rs], [InnerQueue])

    A queue is a backend and named channels. The backend is used through the
    interface [BackendOps]; [backend_ops] is the instance given by
    [QueueBackend] (file [Backend.v]). Operations that lock one channel and
    change it return the queue with that channel replaced; the random tickets
    of [rand::random] are arguments. *)
From S2P Require Import Prelude.
From S2P Require Import Heaps.
From S2P Require Import Settings.
From S2P Require Import Segments.
From S2P Require Import Backend.
From S2P Require Import Channels.

(** ** What a queue uses of its backend *)
Class BackendOps (B Msg : Type) : Type := {
  be_get : B → Z → outcome (option Msg);
  be_push : Os → B → list Z → Z → outcome (B * result Z QueueBackendError);
  be_head : B → Z;
  be_tail : B → Z;
  be_find_id_for_timestamp : B → Z → outcome Z;
  be_purge : B → B;
  be_gc : B → Z → Z → outcome (B * list (list Z));
  be_checkpoint : Os → bool → B → bool → outcome (B * list Z);
  be_delete : B → outcome (B * list (list Z));
  be_set_config : B → Config.QueueConfig → B;
  be_segments_count : B → Z;
  be_disk_usage : B → outcome Z;
  be_message_id : Msg → outcome Z;
}.

#[export] Instance backend_ops `{Profile} `{Hasher} `{Json QueueBackend.checkpoint_t} :
    BackendOps QueueBackend.t Message.t := {
  be_get := QueueBackend.get;
  be_push := QueueBackend.push;
  be_head := QueueBackend.head;
  be_tail := QueueBackend.tail;
  be_find_id_for_timestamp := QueueBackend.find_id_for_timestamp;
  be_purge := QueueBackend.purge;
  be_gc := QueueBackend.gc;
  be_checkpoint := QueueBackend.checkpoint;
  be_delete := QueueBackend.delete;
  be_set_config := QueueBackend.set_config;
  be_segments_count := QueueBackend.segments_count;
  be_disk_usage := QueueBackend.disk_usage;
  be_message_id := Message.id;
}.

(** Applies [f] to every value of a map; the first panic wins. *)
Definition map_values {V W} (f : V → outcome W) (m : gmap (list Z) V) :
    outcome (gmap (list Z) W) :=
  l ← foldr (λ kv acc, w ← f kv.2; l ← acc; mret ((kv.1, w) :: l)) (mret []) (map_to_list m);
  mret (list_to_map l).

(** Rust's [Iterator::min]. *)
Definition min_list (l : list Z) : option Z :=
  match l with
  | [] => None
  | x :: l => Some (foldr Z.min x l)
  end.

Module InnerQueue.

Inductive QueueError : Type :=
| QueueAlreadyExists
| QueueNotFound
| ChannelAlreadyExists
| ChannelNotFound
| TicketNotFound
| EndOfQueue (tail : Z)
| Backend (e : QueueBackendError).

#[global] Instance QueueError_eq_dec : EqDecision QueueError.
Proof. solve_decision. Defined.

Inductive QueueState : Type := Ready | Deleting.

#[global] Instance QueueState_eq_dec : EqDecision QueueState.
Proof. solve_decision. Defined.

Record ChannelInfo : Type := mkChannelInfo {
  ci_tail : Z;
  ci_last_touched : Z;
  ci_in_flight_count : Z;
}.

Record QueueInfo : Type := mkQueueInfo {
  qi_head : Z;
  qi_tail : Z;
  qi_channels : gmap (list Z) ChannelInfo;
  qi_segments_count : Z;
  qi_disk_usage : Z;
}.

Record ChannelCheckpoint : Type := mkChannelCheckpoint {
  cc_tail : Z;
  cc_last_touched : Z;
}.

Record QueueCheckpoint : Type := mkQueueCheckpoint {
  qc_state : QueueState;
  qc_channels : gmap (list Z) ChannelCheckpoint;
}.

#[global] Instance QueueState_countable : Countable QueueState.
Proof.
  apply (inj_countable' (λ s, bool_decide (s = Ready)) (λ b, if b then Ready else Deleting)).
  by intros [].
Defined.

#[global] Instance ChannelCheckpoint_eq_dec : EqDecision ChannelCheckpoint.
Proof. solve_decision. Defined.
#[global] Instance ChannelCheckpoint_countable : Countable ChannelCheckpoint.
Proof.
  apply (inj_countable' (λ c, (cc_tail c, cc_last_touched c)) (λ c, mkChannelCheckpoint c.1 c.2)).
  by intros [].
Defined.

#[global] Instance QueueCheckpoint_eq_dec : EqDecision QueueCheckpoint.
Proof. solve_decision. Defined.
#[global] Instance QueueCheckpoint_countable : Countable QueueCheckpoint.
Proof.
  apply (inj_countable' (λ c, (qc_state c, qc_channels c)) (λ c, mkQueueCheckpoint c.1 c.2)).
  by intros [].
Defined.

(** [struct InnerQueue]; each channel is behind its own mutex. *)
Record t (B M : Type) : Type := mk {
  config : Config.QueueConfig;
  backend : B;
  channels : gmap (list Z) (Channel.t M);
  state : QueueState;
}.
Arguments mk {B M}.
Arguments config {B M}.
Arguments backend {B M}.
Arguments channels {B M}.
Arguments state {B M}.

Section ops.
Context `{Profile} {B Msg M : Type} `{BackendOps B Msg}
  `{LinkedHashMap Channel.InFlightState M} `{Json QueueCheckpoint}.
Implicit Types (q : t B M) (c : Channel.t M).

Definition set_backend q (b : B) : t B M := mk (config q) b (channels q) (state q).
Definition set_channels q chans : t B M := mk (config q) (backend q) chans (state q).

(** [Queue::set_config]. *)
Definition set_config q (config : Config.QueueConfig) : t B M :=
  mk config (be_set_config (backend q) config) (channels q) (state q).

Definition set_state q (new_state : QueueState) : outcome (t B M) :=
  if bool_decide (state q = new_state) then mret q else
  match state q with
  | Deleting => Panic
  | Ready => mret (mk (config q) (backend q) (channels q) new_state)
  end.

Definition create_channel q (channel_name : list Z) (clock : Z) : t B M * result () QueueError :=
  match channels q !! channel_name with
  | None =>
      let channel := Channel.fresh clock (be_head (backend q)) in
      (set_channels q (<[channel_name := channel]> (channels q)), Ok ())
  | Some _ => (q, Err ChannelAlreadyExists)
  end.

Definition delete_channel q (channel_name : list Z) : t B M * result () QueueError :=
  match channels q !! channel_name with
  | Some _ => (set_channels q (delete channel_name (channels q)), Ok ())
  | None => (q, Err ChannelNotFound)
  end.

(** The lookup and the lock shared by the channel operations. *)
Definition with_channel {R} q (channel_name : list Z)
    (f : Channel.t M → outcome (Channel.t M * result R QueueError)) :
    outcome (t B M * result R QueueError) :=
  match channels q !! channel_name with
  | Some c =>
      '(c, r) ← f c;
      mret (set_channels q (<[channel_name := c]> (channels q)), r)
  | None => mret (q, Err ChannelNotFound)
  end.

Definition purge_channel q (channel_name : list Z) (clock : Z) :
    outcome (t B M * result () QueueError) :=
  with_channel q channel_name (λ c,
    mret (Channel.touch (Channel.purge c (be_head (backend q))) clock, Ok ())).

(** The last part of [get]: a message the channel has not read yet. *)
Definition fetch (cfg : Config.QueueConfig) (b : B) c (clock random : Z) :
    outcome (Channel.t M * result (Z * Msg) QueueError) :=
  message ← be_get b (Channel.tail c);
  match message with
  | Some message =>
      let ticket := random in
      id ← be_message_id message;
      expiration ← u32 (clock + Config.message_timeout cfg);
      let state := Channel.mkInFlight id expiration in
      tail' ← u64 (id + 1);
      mret (Channel.mk (Channel.last_touched c) (Channel.expired_count c) tail'
              (lm_insert ticket state (Channel.in_flight_map c))
              (BinaryHeap.push (id, ticket) (Channel.in_flight_heap c)),
            Ok (ticket, message))
  | None => mret (c, Err (EndOfQueue (Channel.tail c)))
  end.

(** The first part of [get]: the front in-flight message timed out and is
    sent again under a new ticket. *)
Definition resend (cfg : Config.QueueConfig) (b : B) c (clock random ticket : Z)
    (front : Channel.InFlightState) : outcome (Channel.t M * result (Z * Msg) QueueError) :=
  expired_count ←
    (if Channel.expiration front =? Channel.EXPIRED
     then u32 (Channel.expired_count c - 1) else mret (Channel.expired_count c));
  state ← unwrap (lm_remove ticket (Channel.in_flight_map c)).1;
  let map := (lm_remove ticket (Channel.in_flight_map c)).2 in
  let id := Channel.id state in
  let ticket := random in
  expiration ← u32 (clock + Config.message_timeout cfg);
  let state := Channel.mkInFlight id expiration in
  let c := Channel.mk (Channel.last_touched c) expired_count (Channel.tail c)
             (lm_insert ticket state map)
             (BinaryHeap.push (id, ticket) (Channel.in_flight_heap c)) in
  found ← be_get b id;
  message ← unwrap found;
  mret (c, Ok (ticket, message)).

Definition get_locked (cfg : Config.QueueConfig) (b : B) c (clock random : Z) :
    outcome (Channel.t M * result (Z * Msg) QueueError) :=
  let c := Channel.touch c clock in
  match lm_front (Channel.in_flight_map c) with
  | Some (ticket, front) =>
      if Channel.expiration front <=? clock then resend cfg b c clock random ticket front
      else fetch cfg b c clock random
  | None => fetch cfg b c clock random
  end.

Definition get q (channel_name : list Z) (clock random : Z) :
    outcome (t B M * result (Z * Msg) QueueError) :=
  with_channel q channel_name (λ c, get_locked (config q) (backend q) c clock random).

Definition push (os : Os) q (message : list Z) (clock : Z) :
    outcome (t B M * result Z QueueError) :=
  '(b, r) ← be_push os (backend q) message clock;
  mret (set_backend q b, match r with Ok id => Ok id | Err e => Err (Backend e) end).

(** The loop of [push_many] stops at the first error. *)
Fixpoint push_loop (os : Os) q (messages : list (list Z)) (clock : Z) :
    outcome (t B M * result () QueueError) :=
  match messages with
  | [] => mret (q, Ok ())
  | message :: messages =>
      '(q, r) ← push os q message clock;
      match r with
      | Ok _ => push_loop os q messages clock
      | Err e => mret (q, Err e)
      end
  end.

Definition push_many (os : Os) q (messages : list (list Z)) (clock : Z) :
    outcome (t B M * result Z QueueError) :=
  _ ← assert (0 <? zlen messages);
  '(q, r) ← push_loop os q (removelast messages) clock;
  match r with
  | Err e => mret (q, Err e)
  | Ok _ =>
      message ← unwrap (last messages);
      push os q message clock
  end.

(** The clean-up of [ack]: pops heap entries whose ticket is gone. *)
Fixpoint pop_stale (map : M) (heap : list BinaryHeap.entry) : list BinaryHeap.entry :=
  match heap with
  | [] => []
  | (id, ticket) :: heap' =>
      match lm_get ticket map with
      | None => pop_stale map heap'
      | Some _ => heap
      end
  end.

Definition ack_locked c (ticket clock : Z) : outcome (Channel.t M * result () QueueError) :=
  let c := Channel.touch c clock in
  match lm_get ticket (Channel.in_flight_map c) with
  | Some state =>
      if clock <? Channel.expiration state then
        _ ← unwrap (lm_remove ticket (Channel.in_flight_map c)).1;
        let map := (lm_remove ticket (Channel.in_flight_map c)).2 in
        mret (Channel.mk (Channel.last_touched c) (Channel.expired_count c) (Channel.tail c) map
                (pop_stale map (Channel.in_flight_heap c)), Ok ())
      else mret (c, Err TicketNotFound)
  | None => mret (c, Err TicketNotFound)
  end.

Definition ack q (channel_name : list Z) (ticket clock : Z) :
    outcome (t B M * result () QueueError) :=
  with_channel q channel_name (λ c, ack_locked c ticket clock).

Definition seek_channel_to_id q (channel_name : list Z) (id clock : Z) :
    outcome (t B M * result () QueueError) :=
  with_channel q channel_name (λ c, mret (Channel.touch (Channel.set_tail c id) clock, Ok ())).

Definition seek_channel_to_timestamp q (channel_name : list Z) (timestamp clock : Z) :
    outcome (t B M * result () QueueError) :=
  with_channel q channel_name (λ c,
    id ← be_find_id_for_timestamp (backend q) timestamp;
    mret (Channel.touch (Channel.set_tail c id) clock, Ok ())).

(** [InnerQueue::checkpoint] and the new contents of [queue.checkpoint];
    [written] tells whether both checkpoint files could be replaced. *)
Definition checkpoint (os : Os) (written : bool) q (full : bool) :
    outcome (t B M * list Z) :=
  '(q, chans) ←
    (if bool_decide (state q = Ready) then
       '(b, _) ← be_checkpoint os written (backend q) full;
       chans ← map_values (λ c,
         tail ← Channel.real_tail c;
         mret (mkChannelCheckpoint tail (Channel.last_touched c))) (channels q);
       mret (set_backend q b, chans)
     else mret (q, ∅));
  _ ← assert written;
  mret (q, json_encode (mkQueueCheckpoint (state q) chans)).

(** The channel part of [InnerQueue::purge]: the heap is not cleared. *)
Definition purge_in_flight (tail : Z) c : Channel.t M :=
  Channel.mk (Channel.last_touched c) 0 tail lm_default (Channel.in_flight_heap c).

Definition purge (os : Os) (written : bool) q : outcome (t B M * list Z) :=
  let q := set_backend q (be_purge (backend q)) in
  let q := set_channels q (purge_in_flight (be_tail (backend q)) <$> channels q) in
  checkpoint os written q false.

(** [InnerQueue::info]: counting the in-flight messages updates a channel. *)
Definition info q (clock : Z) : outcome (t B M * QueueInfo) :=
  disk_usage ← be_disk_usage (backend q);
  counted ← map_values (λ c, Channel.in_flight_count c clock) (channels q);
  mret (set_channels q (fst <$> counted),
        {| qi_head := be_head (backend q);
           qi_tail := be_tail (backend q);
           qi_channels := (λ cn, mkChannelInfo (Channel.tail cn.1) (Channel.last_touched cn.1) cn.2)
                          <$> counted;
           qi_segments_count := as_u32 (be_segments_count (backend q));
           qi_disk_usage := disk_usage |}).

(** [InnerQueue::iter_channels] with the callback's results. *)
Definition iter_channels {R} q (clock : Z) (cb : list Z → Channel.t M → R) :
    outcome (t B M * gmap (list Z) R) :=
  chans ← map_values (λ c, Channel.update_state c clock) (channels q);
  mret (set_channels q chans, map_imap (λ name c, Some (cb name c)) chans).

(** [InnerQueue::delete]: the state, the backend's files, and the last
    checkpoint written. *)
Definition delete_queue (os : Os) (written removed : bool) q :
    outcome (t B M * list (list Z)) :=
  q ← set_state q Deleting;
  '(q, _) ← checkpoint os written q false;
  '(b, paths) ← be_delete (backend q);
  _ ← assert removed;
  mret (set_backend q b, paths).

(** [InnerQueue::recover] on the contents of [queue.checkpoint]. *)
Definition recover q (checkpoint_file : option (list Z)) : t B M :=
  match checkpoint_file ≫= json_decode with
  | None => q
  | Some queue_checkpoint =>
      let q := mk (config q) (backend q) (channels q) (qc_state queue_checkpoint) in
      match state q with
      | Ready =>
          set_channels q
            (((λ cc, Channel.fresh (cc_last_touched cc) (cc_tail cc)) <$> qc_channels queue_checkpoint)
             ∪ channels q)
      | Deleting => q
      end
  end.

(** [InnerQueue::new] over the backend [QueueBackend::new] returned. *)
Definition new (os : Os) (written : bool) (config : Config.QueueConfig) (backend : B)
    (checkpoint_file : option (list Z)) (recover_ : bool) : outcome (t B M) :=
  let queue := mk config backend ∅ Ready in
  if recover_ then mret (recover queue checkpoint_file)
  else '(queue, _) ← checkpoint os written queue false; mret queue.

Definition maintenance (os : Os) (written : bool) q (clock : Z) :
    outcome (t B M * list (list Z) * list Z) :=
  tails ← map_values Channel.real_tail (channels q);
  let smallest_tail := default 0 (min_list (map_to_list tails).*2) in
  '(b, paths) ← be_gc (backend q) smallest_tail clock;
  '(q, cp) ← checkpoint os written (set_backend q b) false;
  mret (q, paths, cp).

(** [Drop for InnerQueue]. *)
Definition drop_queue (os : Os) (written : bool) q : outcome (t B M) :=
  if bool_decide (state q = Deleting) then mret q
  else '(q, _) ← checkpoint os written q true; mret q.

End ops.
End InnerQueue.
