(* ===== verification/QueueFacts.v ===== *)
(** * Correctness of queues

    What a backend promises to a queue is the class [BackendOk];
    [backend_ok] discharges it for [QueueBackend]. Against that interface,
    the operations of a queue keep the invariant [queue_inv]: every message
    a channel was given is in flight or acknowledged, and stays in the log
    until it is acknowledged. *)
From S2P Require Import Prelude.
From S2P Require Import Heaps.
From S2P Require Import Settings.
From S2P Require Import Segments.
From S2P Require Import SegmentSpec.
From S2P Require Import SegmentFacts.
From S2P Require Import Backend.
From S2P Require Import LogSpec.
From S2P Require Import BackendFacts.
From S2P Require Import Retention.
From S2P Require Import BackendRecovery.
From S2P Require Import Channels.
From S2P Require Import ChannelFacts.
From S2P Require Import Queues.

(** ** The contract of a backend

    [be_rep b start ms]: the backend holds the messages [ms], numbered from
    [start]. [be_room] is what [push] needs of the operating system and of
    the sizes; [be_gc_ready] what [gc] needs of the clock and the sizes. *)
Class BackendOk (B Msg : Type) `{BackendOps B Msg} : Type := {
  be_rep : B → Z → list msg → Prop;
  be_msg : Msg → Z → msg → Prop;
  be_config : B → Config.QueueConfig;
  be_room : Os → B → msg → Prop;
  be_gc_ready : B → Z → Prop;
  be_bounds b start ms :
    be_rep b start ms → 1 ≤ start ∧ be_head b = start + zlen ms ∧ be_head b < 2 ^ 63;
  be_get_ok b start ms id :
    be_rep b start ms → 0 ≤ id →
    match entry start ms id with
    | Some (id', x) => ∃ m, be_get b id = Done (Some m) ∧ be_msg m id' x
    | None => be_get b id = Done None
    end;
  be_message_id_ok m id x : be_msg m id x → be_message_id m = Done id;
  be_push_ok os b start ms x :
    be_rep b start ms → be_room os b x →
    ∃ b' r, be_push os b x.2 x.1 = Done (b', r) ∧ be_config b' = be_config b ∧
      match r with
      | Ok id => id = be_head b ∧ be_rep b' start (ms ++ [x])
      | Err e => e = MessageTooBig ∧ be_rep b' start ms
      end;
  (** without hard limits, nothing from [smallest_tail] on is removed *)
  be_gc_ok b start ms smallest_tail clock :
    be_rep b start ms → be_gc_ready b clock →
    ∃ b' paths start', be_gc b smallest_tail clock = Done (b', paths) ∧
      be_rep b' start' (drop (Z.to_nat (start' - start)) ms) ∧
      be_config b' = be_config b ∧ start ≤ start' ∧
      (Config.hard_retention_period (be_config b) = 0 →
       Config.hard_retention_size (be_config b) = 0 → start' ≤ Z.max start smallest_tail);
  be_checkpoint_ok os b start ms full :
    be_rep b start ms → no_faults os →
    ∃ b' file, be_checkpoint os true b full = Done (b', file) ∧ be_rep b' start ms ∧
      be_config b' = be_config b;
}.

Section backend.
Context `{Profile} `{Hasher} `{Json QueueBackend.checkpoint_t}.

Lemma gc_not_kept (c : Config.QueueConfig) smallest clock total s :
  Config.hard_retention_period c = 0 → Config.hard_retention_size c = 0 →
  ¬ kept c smallest clock total s → Segment.head s ≤ smallest.
Proof.
  intros Hp Hs Hk. destruct (Z.le_gt_cases (Segment.head s) smallest); [done|].
  destruct Hk. right. split; [by split; left|left; lia].
Qed.

#[export] Program Instance backend_ok : BackendOk QueueBackend.t Message.t := {
  be_rep b start ms := backend_rep b start ms ∧ QueueBackend.tail b = start;
  be_msg := message_is;
  be_config := QueueBackend.config;
  be_room os b x :=
    wf_msg x ∧ msg_size x + 4 < 2 ^ 32 ∧ no_faults os ∧ os_zeroes os ∧
    4 < Config.segment_size (QueueBackend.config b) < 2 ^ 31 ∧ QueueBackend.head b + 1 < 2 ^ 63;
  be_gc_ready b clock :=
    clock_ok clock (QueueBackend.segments b) ∧ lens_ok (QueueBackend.segments b) ∧
    total_len (QueueBackend.segments b) < 2 ^ 64;
}.
Next Obligation.
  cbn. intros b start ms [Hb _]. pose proof (br_start _ _ _ Hb). pose proof (br_head _ _ _ Hb).
  by rewrite (backend_rep_next _ _ _ Hb) in *.
Qed.
Next Obligation. cbn. intros b start ms id [Hb _] Hid. by apply get_refines. Qed.
Next Obligation. cbn. by intros m id x (? & _ & _). Qed.
Next Obligation.
  cbn. intros os b start ms x [Hb Ht] (? & ? & ? & ? & ? & ?).
  destruct (push_refines os b start ms x) as (b' & r & Hp & Hc & Htl & Hr); [done..|].
  exists b', r. split_and!; [done..|]. destruct r; [|naive_solver].
  destruct Hr as [-> Hr]. split_and!; [done|done|congruence].
Qed.
Next Obligation.
  cbn. intros b start ms smallest clock [Hb Ht] (? & ? & ?).
  destruct (gc_refines b start ms smallest clock)
    as (n & start' & b' & paths & Hgc & Hb' & Hle & Hc & _ & _ & _ & Htl & H0' & Hn & Hrm & _); [done..|].
  exists b', paths, start'. split_and!; [done|done| |done|done|].
  - rewrite Htl. case_decide; [|done]. rewrite H0'; done.
  - intros Hp Hs. destruct n as [|n]; [rewrite H0' by done; lia|].
    destruct Hn as (s & Hs' & ->); [lia|]. etrans; [|apply Z.le_max_r].
    eapply gc_not_kept, Hrm; [done..|simpl; lia].
Qed.
Next Obligation.
  cbn. intros os b start ms full [[Hc Hs Hst Htl Hhd] Ht] Hos.
  destruct (checkpoint_segments_ok os start full _ _ _ _ Hos Hc) as (segs & cps & Hcp & Hsync & _); [lia|].
  eexists _, _. unfold QueueBackend.checkpoint. rewrite Ht, Hcp, bind_Done.
  split; [reflexivity|]. split; [|done]. split; [|by qb]. constructor; qb; [|by eapply synced_sealed|lia..].
  by eapply synced_chain.
Qed.

End backend.

(** ** Operations on one channel *)

Section channel.
Context `{Profile} {B Msg M : Type} `{BackendOk B Msg} `{!LinkedHashMap Channel.InFlightState M}
  `{!LinkedHashMapOk Channel.InFlightState M}.
Implicit Types (c : Channel.t M) (b : B).

(** The front entry, if it has timed out: the next one to be sent again. *)
Definition front_due c (clock : Z) : option (Z * Channel.InFlightState) :=
  match in_flight c with
  | e :: _ => if entry_expiration e <=? clock then Some e else None
  | [] => None
  end.

Lemma get_locked_unfold (cfg : Config.QueueConfig) b c clock random :
  InnerQueue.get_locked cfg b c clock random =
    match front_due c clock with
    | Some (ticket, front) => InnerQueue.resend cfg b (Channel.touch c clock) clock random ticket front
    | None => InnerQueue.fetch cfg b (Channel.touch c clock) clock random
    end.
Proof.
  unfold InnerQueue.get_locked, front_due. cbn zeta. rewrite lm_front_iter.
  change (lm_iter (Channel.in_flight_map (Channel.touch c clock))) with (in_flight c).
  destruct (in_flight c) as [|[ticket front] l]; [done|]. cbn. unfold entry_expiration. cbn.
  by destruct (_ <=? _).
Qed.

Lemma fetch_ok (cfg : Config.QueueConfig) b start ms c clock random :
  be_rep b start ms → chan_ok c → unused random c →
  0 < clock + Config.message_timeout cfg < 2 ^ 32 →
  match entry start ms (Channel.tail c) with
  | Some (id, x) => ∃ c' m,
      InnerQueue.fetch cfg b c clock random = Done (c', Ok (random, m)) ∧ be_msg m id x ∧ chan_ok c' ∧
      in_flight c' = in_flight c ++ [(random, Channel.mkInFlight id (clock + Config.message_timeout cfg))] ∧
      Channel.tail c' = id + 1 ∧ Channel.last_touched c' = Channel.last_touched c
  | None => InnerQueue.fetch cfg b c clock random = Done (c, Err (InnerQueue.EndOfQueue (Channel.tail c)))
  end.
Proof.
  intros Hb Hc Hu Hexp. pose proof (be_get_ok _ _ _ (Channel.tail c) Hb (co_tail _ Hc)) as Hget.
  destruct (be_bounds _ _ _ Hb) as (Hst & Hhd & Hmax). pose proof (co_tail _ Hc).
  unfold InnerQueue.fetch. destruct (entry start ms (Channel.tail c)) as [[id x]|] eqn:He.
  2:{ by rewrite Hget, bind_Done. }
  destruct Hget as (m & Hget & Hm). rewrite Hget, bind_Done, (be_message_id_ok _ _ _ Hm), bind_Done.
  unfold entry in He. destruct (ms !! _) eqn:Hx in He; [|done]. cbn in He. simplify_eq.
  apply lookup_lt_Some in Hx. unfold zlen in *. mint.
  eexists _, m. split; [reflexivity|].
  match goal with |- _ ∧ chan_ok ?c' ∧ _ => assert (Hl : in_flight c' = in_flight c ++
    [(random, Channel.mkInFlight (Z.max (Channel.tail c) start) (clock + Config.message_timeout cfg))]) end.
  { unfold in_flight. cbn. rewrite lm_insert_iter. fold (in_flight c).
    by rewrite without_fresh by (by apply unused_map). }
  split_and!; try done. eapply (chan_ok_add c); try done; cbn; try lia.
  - by left.
  - intros (e & He & Hin)%list_elem_of_fmap. pose proof (co_range _ Hc) as Hr.
    eapply Forall_forall in Hr; [|done]. lia.
  - destruct (co_counted _ Hc) as (pre & live & Hpl & Hn & Hpre & Hlive).
    rewrite Hl, Hpl, <-app_assoc. eexists _, _. split_and!; [done..|].
    apply Forall_app. split; [done|]. by constructor.
Qed.

(** The count of expired entries when the front one leaves. *)
Lemma resend_count c ticket front l :
  chan_ok c → in_flight c = (ticket, front) :: l → zlen (in_flight c) < 2 ^ 32 →
  ∃ n, (if Channel.expiration front =? Channel.EXPIRED
      then u32 (Channel.expired_count c - 1) else mret (Channel.expired_count c)) = Done n ∧ counted n l.
Proof.
  intros Hc Hl Hlen.
  destruct (co_counted _ Hc) as ([|e pre] & live & Hpl & Hn & Hpre & Hlive);
    rewrite Hl in Hpl; cbn in Hpl; [subst live|injection Hpl as <- ->].
  - apply Forall_cons in Hlive as [Hf Hlive]. unfold pending, entry_expiration in Hf. cbn in Hf.
    rewrite (proj2 (Z.eqb_neq _ _)) by (unfold Channel.EXPIRED; lia).
    eexists. split; [done|]. by exists [], l.
  - apply Forall_cons in Hpre as [Hf Hpre]. unfold expired, entry_expiration in Hf. cbn in Hf.
    rewrite Hf, Z.eqb_refl, Hn, zlen_cons.
    rewrite Hl, zlen_cons, zlen_app in Hlen. pose proof (zlen_nonneg pre). pose proof (zlen_nonneg live).
    rewrite u32_in by (unfold in_u32; lia). eexists. split; [done|].
    exists pre, live. split_and!; [done|lia|done..].
Qed.

Lemma resend_ok (cfg : Config.QueueConfig) b start ms c clock random ticket front l x :
  be_rep b start ms → chan_ok c → unused random c →
  in_flight c = (ticket, front) :: l → entry start ms (Channel.id front) = Some (Channel.id front, x) →
  0 < clock + Config.message_timeout cfg < 2 ^ 32 → zlen (in_flight c) < 2 ^ 32 →
  ∃ c' m,
    InnerQueue.resend cfg b c clock random ticket front = Done (c', Ok (random, m)) ∧
    be_msg m (Channel.id front) x ∧ chan_ok c' ∧
    in_flight c' = l ++ [(random, Channel.mkInFlight (Channel.id front) (clock + Config.message_timeout cfg))] ∧
    Channel.tail c' = Channel.tail c ∧ Channel.last_touched c' = Channel.last_touched c.
Proof.
  intros Hb Hc Hu Hl Hx Hexp Hlen. pose proof (co_range _ Hc) as Hr. rewrite Hl in Hr.
  apply Forall_cons in Hr as [Hr _]. change (entry_id (ticket, front)) with (Channel.id front) in Hr.
  pose proof (be_get_ok _ _ _ (Channel.id front) Hb (proj1 Hr)) as Hget. rewrite Hx in Hget.
  destruct Hget as (m & Hget & Hm).
  pose proof (resend_count c ticket front l Hc Hl Hlen) as Hcount.
  destruct Hcount as (n & Hn & Hcount). unfold InnerQueue.resend. rewrite Hn, bind_Done.
  rewrite lm_remove_val. fold (in_flight c). rewrite Hl. cbn [assoc]. rewrite Z.eqb_refl. cbn [unwrap].
  rewrite bind_Done. mint. rewrite Hget, bind_Done. cbn [unwrap]. rewrite bind_Done.
  eexists _, m. split; [reflexivity|].
  pose proof (co_tickets _ Hc) as Ht. pose proof (co_ids _ Hc) as Hids. rewrite Hl in Ht, Hids.
  pose proof (unused_map _ _ Hc Hu) as Hum. rewrite Hl in Hum. apply not_elem_of_cons in Hum as [_ Hum].
  match goal with |- _ ∧ chan_ok ?c' ∧ _ => assert (Hl' : in_flight c' = l ++
    [(random, Channel.mkInFlight (Channel.id front) (clock + Config.message_timeout cfg))]) end.
  { unfold in_flight. cbn. rewrite lm_insert_iter, lm_remove_iter. fold (in_flight c).
    by rewrite Hl, without_front, without_fresh by done. }
  apply NoDup_cons in Hids as [Hnew _].
  split_and!; try done. eapply (chan_ok_add c _ l random (Channel.mkInFlight (Channel.id front) _)); try done; cbn; try lia.
  - rewrite Hl. by constructor.
  - rewrite Hl. intros i [->|Hi]%elem_of_cons; [by right|by left].
  - destruct Hcount as (pre & live & Hpl & Hn' & Hpre & Hlive).
    rewrite Hl', Hpl, <-app_assoc. eexists _, _. split_and!; [done..|].
    apply Forall_app. split; [done|]. by constructor.
Qed.

(** *** Acknowledging *)

Lemma pop_stale_ok (m : M) h :
  InnerQueue.pop_stale m h `suffix_of` h ∧
  (∀ x, x ∈ h → x.2 ∈ (lm_iter m).*1 → x ∈ InnerQueue.pop_stale m h) ∧
  (∀ x, BinaryHeap.peek (InnerQueue.pop_stale m h) = Some x → x.2 ∈ (lm_iter m).*1).
Proof.
  induction h as [|[id ticket] h (Hs & Hk & Ht)]; cbn; [done|].
  rewrite lm_get_iter. destruct (assoc ticket (lm_iter m)) as [s|] eqn:Ha.
  - split_and!; [done|done|]. intros x [= <-]. cbn.
    by apply assoc_Some, (list_elem_of_fmap_2 fst) in Ha.
  - split_and!; [by apply suffix_cons_r| |done]. intros x [->|Hx]%elem_of_cons Hin; [|by apply Hk].
    by apply assoc_None in Ha.
Qed.

Lemma counted_without n l ticket s :
  NoDup l.*1 → assoc ticket l = Some s → 0 < Channel.expiration s →
  counted n l → counted n (without ticket l).
Proof.
  intros Hnd Ha Hs (pre & live & -> & -> & Hpre & Hlive).
  exists pre, (without ticket live). split_and!; [|done|done|].
  - unfold without. rewrite filter_app. f_equal. apply without_fresh.
    intros ([t s'] & Ht & Hin)%list_elem_of_fmap. cbn in Ht. subst t.
    assert (assoc ticket (pre ++ live) = Some s') as Ha'.
    { apply assoc_elem; [done|]. apply elem_of_app. by left. }
    eapply Forall_forall in Hpre; [|exact Hin]. unfold expired, entry_expiration in Hpre. cbn in Hpre.
    unfold Channel.EXPIRED in Hpre. simplify_eq. lia.
  - apply Forall_forall. intros e [_ He]%elem_of_without. by eapply Forall_forall in Hlive.
Qed.

(** The in-flight entry a consumer may still acknowledge under [ticket]. *)
Definition ackable c (ticket clock : Z) : option Channel.InFlightState :=
  match assoc ticket (in_flight c) with
  | Some s => if clock <? Channel.expiration s then Some s else None
  | None => None
  end.

Lemma ack_locked_ok c ticket clock :
  chan_ok c → 0 ≤ clock →
  match ackable c ticket clock with
  | Some s => ∃ c', InnerQueue.ack_locked c ticket clock = Done (c', Ok ()) ∧ chan_ok c' ∧
      in_flight c' = without ticket (in_flight c) ∧ Channel.tail c' = Channel.tail c ∧
      Channel.expired_count c' = Channel.expired_count c ∧ Channel.last_touched c' = clock
  | None => InnerQueue.ack_locked c ticket clock =
      Done (Channel.touch c clock, Err InnerQueue.TicketNotFound)
  end.
Proof.
  intros Hc Hclock. unfold InnerQueue.ack_locked, ackable. cbn zeta. rewrite lm_get_iter.
  change (lm_iter (Channel.in_flight_map (Channel.touch c clock))) with (in_flight c).
  destruct (assoc ticket (in_flight c)) as [s|] eqn:Ha; [|done].
  destruct (Z.ltb_spec clock (Channel.expiration s)) as [Hlt|]; [|done].
  rewrite lm_remove_val.
  change (lm_iter (Channel.in_flight_map (Channel.touch c clock))) with (in_flight c).
  rewrite Ha. cbn [unwrap]. rewrite bind_Done. eexists. split; [reflexivity|].
  match goal with |- chan_ok ?c' ∧ _ =>
    assert (Hl : in_flight c' = without ticket (in_flight c)) by (unfold in_flight; cbn; by rewrite lm_remove_iter) end.
  split_and!; try done.
  destruct (pop_stale_ok (lm_remove ticket (Channel.in_flight_map c)).2 (Channel.in_flight_heap c))
    as (Hs & Hk & Ht).
  eapply (chan_ok_remove c); try done. rewrite Hl. cbn.
  eapply counted_without; [apply (co_tickets _ Hc)|done|lia|apply (co_counted _ Hc)].
Qed.

End channel.
