(* ===== verification/Delivery.v ===== *)
(** * At-least-once delivery

    A queue as a transition system: [run op q] runs one operation of
    [InnerQueue], [ghost_step] records per channel which ids have been
    acknowledged, and [reachable] closes the initial queues under the
    operations. The invariant says that every message a channel has passed
    is acknowledged or in flight, that no message is both, and that the log
    still holds every message that is not acknowledged. *)
From S2P Require Import Prelude.
From S2P Require Import Heaps.
From S2P Require Import Settings.
From S2P Require Import Segments.
From S2P Require Import SegmentSpec.
From S2P Require Import SegmentFacts.
From S2P Require Import Backend.
From S2P Require Import LogSpec.
From S2P Require Import Channels.
From S2P Require Import ChannelFacts.
From S2P Require Import Queues.
From S2P Require Import QueueFacts.

(** ** Maps of channels *)

Lemma map_values_list {V W} (f : V → outcome W) (l : list (list Z * V)) :
  Forall (λ kv, ∃ w, f kv.2 = Done w) l →
  ∃ l', foldr (λ kv acc, w ← f kv.2; l ← acc; mret ((kv.1, w) :: l)) (mret []) l = Done l' ∧
    Forall2 (λ kv kw, kw.1 = kv.1 ∧ f kv.2 = Done kw.2) l l'.
Proof.
  induction 1 as [|[k v] l (w & Hw) _ (l' & Hl & Hall)]; cbn in *.
  { exists []. split; [done|constructor]. }
  rewrite Hl, Hw, !bind_Done. exists ((k, w) :: l'). split; [done|]. by constructor.
Qed.

(** The result of [map_values]: [f]'s value under every key. *)
Definition mapped {V W} (f : V → outcome W) (m : gmap (list Z) V) (m' : gmap (list Z) W) : Prop :=
  ∀ k, match m !! k with
       | Some v => ∃ w, m' !! k = Some w ∧ f v = Done w
       | None => m' !! k = None
       end.

Lemma map_values_ok {V W} (f : V → outcome W) (m : gmap (list Z) V) :
  (∀ k v, m !! k = Some v → ∃ w, f v = Done w) →
  ∃ m', map_values f m = Done m' ∧ mapped f m m'.
Proof.
  intros Hf. destruct (map_values_list f (map_to_list m)) as (l & Hl & Hall).
  { apply Forall_forall. intros [k v] Hin%elem_of_map_to_list. by eapply Hf. }
  unfold map_values. rewrite Hl, bind_Done. eexists. split; [done|].
  assert (Hk : l.*1 = (map_to_list m).*1).
  { clear -Hall. induction Hall as [|[] [] ? ? [? _] _ IH]; cbn in *; [done|]. by f_equal. }
  assert (Hnd : NoDup l.*1) by (rewrite Hk; apply NoDup_fst_map_to_list).
  intros k. destruct (m !! k) as [v|] eqn:Hv.
  - apply elem_of_map_to_list, list_elem_of_lookup in Hv as [i Hi].
    destruct (Forall2_lookup_l _ _ _ _ _ Hall Hi) as ([k' w] & Hw & Hkk & Hfw). cbn in *. subst k'.
    exists w. split; [|done]. apply elem_of_list_to_map_1; [done|]. by eapply list_elem_of_lookup_2.
  - apply not_elem_of_list_to_map_1. rewrite Hk. intros ([k' v] & -> & Hin)%list_elem_of_fmap.
    apply elem_of_map_to_list in Hin. cbn in *. congruence.
Qed.

Lemma map_values_Done {V W} (f : V → outcome W) (m : gmap (list Z) V) m' :
  map_values f m = Done m' → mapped f m m'.
Proof.
  intros Hm. assert (∀ k v, m !! k = Some v → ∃ w, f v = Done w) as Hall.
  { unfold map_values in Hm. apply bind_Done_iff in Hm as (l & Hl & _). intros k v Hv.
    apply elem_of_map_to_list in Hv. revert l Hl. induction (map_to_list m) as [|[k' v'] kv IH]; [by apply elem_of_nil in Hv|].
    intros l (w & Hw & (l' & Hl' & _)%bind_Done_iff)%bind_Done_iff.
    apply elem_of_cons in Hv as [[= -> ->]|Hv]; [by exists w|by eapply IH]. }
  destruct (map_values_ok f m Hall) as (m2 & Hm2 & Hmap). rewrite Hm in Hm2. by injection Hm2 as <-.
Qed.

Lemma map_values_dom {V W} (f : V → outcome W) (m : gmap (list Z) V) m' :
  map_values f m = Done m' → dom m' = dom m.
Proof.
  intros Hm. unfold map_values in Hm. apply bind_Done_iff in Hm as (l & Hl & [= <-]).
  rewrite dom_list_to_map_L. rewrite <-(list_to_map_to_list m) at 1. rewrite dom_list_to_map_L. f_equal.
  revert l Hl. induction (map_to_list m) as [|[k v] kv IH]; cbn; [by intros l [= <-]|].
  intros l (w & _ & (l' & Hl' & [= <-])%bind_Done_iff)%bind_Done_iff. cbn. f_equal. by apply IH.
Qed.

(** An operation on one channel keeps the table's names. *)
Lemma with_channel_dom {B M Msg R} `{BackendOps B Msg} `{LinkedHashMap Channel.InFlightState M}
    (q : InnerQueue.t B M) name (f : Channel.t M → outcome (Channel.t M * result R InnerQueue.QueueError)) q' r :
  InnerQueue.with_channel q name f = Done (q', r) → dom (InnerQueue.channels q') = dom (InnerQueue.channels q).
Proof.
  unfold InnerQueue.with_channel. destruct (InnerQueue.channels q !! name) as [c|] eqn:Hc; [|by intros [= <- _]].
  intros ([c' r'] & _ & [= <- _])%bind_Done_iff. cbn. rewrite dom_insert_lookup_L; [done|by eexists].
Qed.

Lemma mapped_Some {V W} (f : V → outcome W) m m' k w :
  mapped f m m' → m' !! k = Some w → ∃ v, m !! k = Some v ∧ f v = Done w.
Proof. intros Hm Hw. specialize (Hm k). destruct (m !! k); naive_solver. Qed.

Lemma foldr_min x l y : y ∈ x :: l → foldr Z.min x l ≤ y.
Proof.
  revert y. induction l as [|z l IH]; intros y; cbn; [by intros ->%list_elem_of_singleton|].
  intros [->|[->|Hy]%elem_of_cons]%elem_of_cons; [|lia|].
  - assert (foldr Z.min x l ≤ x); [apply IH; left|lia].
  - assert (foldr Z.min x l ≤ y); [apply IH; by right|lia].
Qed.

(** The smallest value of a map bounds each of them. *)
Lemma min_tail_le (m : gmap (list Z) Z) k n :
  m !! k = Some n → default 0 (min_list (map_to_list m).*2) ≤ n.
Proof.
  intros Hin%elem_of_map_to_list%(list_elem_of_fmap_2 snd). cbn in Hin.
  destruct (map_to_list m).*2 as [|x l]; [by apply elem_of_nil in Hin|]. by apply foldr_min.
Qed.

(** ** The transition system *)

Inductive op : Type :=
| Push (body : list Z) (clock : Z)
| Get (name : list Z) (clock ticket : Z)
| Ack (name : list Z) (ticket clock : Z)
| CreateChannel (name : list Z) (clock : Z)
| DeleteChannel (name : list Z)
| PurgeChannel (name : list Z) (clock : Z)
| UpdateChannels (clock : Z)
| Maintenance (clock : Z)
| Checkpoint (full : bool).

(** What is known of a channel: where it started, and the acknowledged ids. *)
Record ghost : Type := mkGhost {
  origin : Z;
  acked : gset Z;
}.

Section delivery.
Context `{Profile} {B Msg M : Type} `{BackendOk B Msg} `{!LinkedHashMap Channel.InFlightState M}
  `{!LinkedHashMapOk Channel.InFlightState M} `{Json InnerQueue.QueueCheckpoint}.
Variable os : Os.
Hypothesis Hos : no_faults os.
Implicit Types (q : InnerQueue.t B M) (c : Channel.t M) (G : gmap (list Z) ghost).

Definition run (o : op) q : outcome (InnerQueue.t B M) :=
  match o with
  | Push body clock => fst <$> InnerQueue.push os q body clock
  | Get name clock ticket => fst <$> InnerQueue.get q name clock ticket
  | Ack name ticket clock => fst <$> InnerQueue.ack q name ticket clock
  | CreateChannel name clock => mret (fst (InnerQueue.create_channel q name clock))
  | DeleteChannel name => mret (fst (InnerQueue.delete_channel q name))
  | PurgeChannel name clock => fst <$> InnerQueue.purge_channel q name clock
  | UpdateChannels clock => fst <$> InnerQueue.iter_channels q clock (λ _ _, ())
  | Maintenance clock => (λ r, r.1.1) <$> InnerQueue.maintenance os true q clock
  | Checkpoint full => fst <$> InnerQueue.checkpoint os true q full
  end.

(** The environment of an operation: clocks and sizes are in range and the
    tickets drawn are new. *)
Definition admissible (o : op) q : Prop :=
  match o with
  | Push body clock => be_room os (InnerQueue.backend q) (clock, body)
  | Get name clock ticket =>
      0 < clock + Config.message_timeout (InnerQueue.config q) < 2 ^ 32 ∧
      ∀ c, InnerQueue.channels q !! name = Some c →
        unused ticket c ∧ zlen (in_flight c) + 1 < 2 ^ 32
  | Ack _ _ clock | UpdateChannels clock => 0 ≤ clock
  | Maintenance clock => be_gc_ready (InnerQueue.backend q) clock
  | _ => True
  end.

Definition ghost_step (o : op) q G : gmap (list Z) ghost :=
  match o with
  | Ack name ticket clock =>
      match InnerQueue.channels q !! name ≫= λ c, ackable c ticket clock with
      | Some s => alter (λ g, mkGhost (origin g) ({[Channel.id s]} ∪ acked g)) name G
      | None => G
      end
  | CreateChannel name _ =>
      match InnerQueue.channels q !! name with
      | None => <[name := mkGhost (be_head (InnerQueue.backend q)) ∅]> G
      | Some _ => G
      end
  | DeleteChannel name => delete name G
  | PurgeChannel name _ =>
      match InnerQueue.channels q !! name with
      | Some _ => <[name := mkGhost (be_head (InnerQueue.backend q)) ∅]> G
      | None => G
      end
  | _ => G
  end.

Inductive reachable : InnerQueue.t B M → gmap (list Z) ghost → Prop :=
| reachable_init q start ms :
    be_rep (InnerQueue.backend q) start ms →
    be_config (InnerQueue.backend q) = InnerQueue.config q →
    Config.hard_retention_period (InnerQueue.config q) = 0 →
    Config.hard_retention_size (InnerQueue.config q) = 0 →
    InnerQueue.channels q = ∅ → InnerQueue.state q = InnerQueue.Ready →
    reachable q ∅
| reachable_step o q G q' :
    reachable q G → admissible o q → run o q = Done q' → reachable q' (ghost_step o q G).

(** ** The invariant *)

Record channel_inv (start head : Z) c (g : ghost) : Prop := {
  ci_ok : chan_ok c;
  ci_tail : start ≤ Channel.tail c ≤ head;
  ci_stored : Forall (λ e, start ≤ entry_id e) (in_flight c);
  ci_len : zlen (in_flight c) < 2 ^ 32;
  ci_origin : origin g ≤ Channel.tail c;
  (** every id the channel has passed is acknowledged or in flight *)
  ci_passed id : origin g ≤ id < Channel.tail c → id ∈ acked g ∨ id ∈ entry_id <$> in_flight c;
  ci_acked id : id ∈ acked g → id < Channel.tail c ∧ id ∉ entry_id <$> in_flight c;
  ci_from : Forall (λ e, origin g ≤ entry_id e) (in_flight c);
}.

Record queue_inv q start (ms : list msg) G : Prop := {
  qi_rep : be_rep (InnerQueue.backend q) start ms;
  qi_config : be_config (InnerQueue.backend q) = InnerQueue.config q;
  qi_period : Config.hard_retention_period (InnerQueue.config q) = 0;
  qi_size : Config.hard_retention_size (InnerQueue.config q) = 0;
  qi_ready : InnerQueue.state q = InnerQueue.Ready;
  qi_chans name c : InnerQueue.channels q !! name = Some c →
    ∃ g, G !! name = Some g ∧ channel_inv start (be_head (InnerQueue.backend q)) c g;
}.

Lemma channel_inv_touch start head c g clock :
  channel_inv start head c g → channel_inv start head (Channel.touch c clock) g.
Proof. intros []. constructor; try done. by apply touch_ok. Qed.

Lemma channel_inv_fresh start head clock g :
  0 ≤ start ≤ head → g = mkGhost head ∅ → channel_inv start head (Channel.fresh clock head) g.
Proof.
  intros Hs ->. constructor; unfold in_flight; cbn; rewrite ?lm_iter_default; try done; try lia.
  apply fresh_ok. lia.
Qed.

(** One channel and its ghost change. *)
Lemma queue_inv_set q start ms G name c g :
  queue_inv q start ms G → channel_inv start (be_head (InnerQueue.backend q)) c g →
  queue_inv (InnerQueue.set_channels q (<[name := c]> (InnerQueue.channels q))) start ms (<[name := g]> G).
Proof.
  intros [] Hc. constructor; try done. cbn [InnerQueue.channels InnerQueue.set_channels].
  intros name' c' Hl. destruct (decide (name = name')) as [->|].
    rewrite bytes_insert_eq in Hl. rewrite bytes_insert_eq. simplify_eq. by eexists.
  - rewrite bytes_insert_ne in Hl by done. rewrite bytes_insert_ne by done. eauto.
Qed.

Lemma queue_inv_chan q start ms G name c :
  queue_inv q start ms G → InnerQueue.channels q !! name = Some c →
  ∃ g, G !! name = Some g ∧ channel_inv start (be_head (InnerQueue.backend q)) c g.
Proof. intros Hq. apply (qi_chans _ _ _ _ Hq). Qed.

(** ** Operations on one channel keep it *)

Lemma entry_stored start (ms : list msg) id :
  start ≤ id < start + zlen ms → ∃ x, entry start ms id = Some (id, x) ∧ ms !! Z.to_nat (id - start) = Some x.
Proof.
  intros Hid. destruct (lookup_lt_is_Some_2 ms (Z.to_nat (id - start))) as [x Hx]; [unfold zlen in *; lia|].
  exists x. unfold entry. by rewrite Z.max_l, Hx by lia.
Qed.

Lemma entry_end start (ms : list msg) id : start + zlen ms ≤ id → entry start ms id = None.
Proof.
  intros Hid. pose proof (zlen_nonneg ms). unfold entry.
  rewrite lookup_ge_None_2; [done|unfold zlen in *; lia].
Qed.

(** What [get] promises: the front message again if it timed out, else the
    next message of the log, else the end of the queue. *)
Definition get_spec start (ms : list msg) c (clock random : Z)
    (r : result (Z * Msg) InnerQueue.QueueError) : Prop :=
  match front_due c clock with
  | Some (_, s) => ∃ m x, r = Ok (random, m) ∧ be_msg m (Channel.id s) x ∧
      ms !! Z.to_nat (Channel.id s - start) = Some x
  | None =>
      if decide (Channel.tail c < start + zlen ms) then
        ∃ m x, r = Ok (random, m) ∧ be_msg m (Channel.tail c) x ∧
          ms !! Z.to_nat (Channel.tail c - start) = Some x
      else r = Err (InnerQueue.EndOfQueue (Channel.tail c))
  end.

Lemma front_due_front c clock ticket s :
  front_due c clock = Some (ticket, s) → ∃ l, in_flight c = (ticket, s) :: l ∧ Channel.expiration s ≤ clock.
Proof.
  unfold front_due. destruct (in_flight c) as [|e l]; [done|].
  destruct (Z.leb_spec (entry_expiration e) clock); [|done]. intros [= ->]. by exists l.
Qed.

Lemma get_locked_inv (cfg : Config.QueueConfig) b start ms c g clock random :
  be_rep b start ms → channel_inv start (be_head b) c g → unused random c →
  0 < clock + Config.message_timeout cfg < 2 ^ 32 → zlen (in_flight c) + 1 < 2 ^ 32 →
  ∃ c' r, InnerQueue.get_locked cfg b c clock random = Done (c', r) ∧
    channel_inv start (be_head b) c' g ∧ get_spec start ms c clock random r.
Proof.
  intros Hb Hc Hu Hexp Hlen. destruct (be_bounds _ _ _ Hb) as (Hst & Hhd & Hmax).
  destruct Hc as [Hok Htail Hstored Hl Horig Hpassed Hacked Hfrom].
  pose proof (touch_ok _ clock Hok) as Htok. rewrite get_locked_unfold. unfold get_spec.
  destruct (front_due c clock) as [[ticket s]|] eqn:Hf.
  - apply front_due_front in Hf as (l & Hl' & _). rewrite Hl' in Hstored, Hfrom.
    apply Forall_cons in Hfrom as [Hfs Hfrom]. apply Forall_cons in Hstored as [Hs Hstored]. change (entry_id (ticket, s)) with (Channel.id s) in Hs.
    pose proof (co_range _ Hok) as Hr. rewrite Hl' in Hr. apply Forall_cons in Hr as [Hr _].
    change (entry_id (ticket, s)) with (Channel.id s) in Hr.
    destruct (entry_stored start ms (Channel.id s)) as (x & Hx & Hms); [lia|].
    destruct (resend_ok cfg b start ms (Channel.touch c clock) clock random ticket s l x)
      as (c' & m & Hrs & Hm & Hok' & Hl2 & Ht & _); [done..|].
    rewrite Hrs. eexists _, _. split; [done|]. split; [|by eexists _, _].
    assert (∀ i, i ∈ entry_id <$> in_flight c' ↔ i ∈ entry_id <$> in_flight c) as Hids.
    { intros i. rewrite Hl2, Hl', fmap_app. cbn. rewrite elem_of_app, !elem_of_cons, elem_of_nil.
      change (entry_id (ticket, s)) with (Channel.id s). tauto. }
    cbn in Ht. constructor; rewrite ?Ht; try done.
    + rewrite Hl2. apply Forall_app. split; [done|]. by constructor.
    + rewrite Hl2, zlen_app. rewrite Hl', zlen_cons in Hl. rewrite zlen_cons, zlen_nil. lia.
    + intros id Hid. rewrite Hids. auto.
    + intros id Hid. rewrite Hids. auto.
    + rewrite Hl2. apply Forall_app. split; [done|]. by constructor.
  - pose proof (fetch_ok cfg b start ms (Channel.touch c clock) clock random Hb Htok Hu Hexp) as Hfe.
    cbn [Channel.touch Channel.tail] in Hfe. case_decide as Hlt.
    + destruct (entry_stored start ms (Channel.tail c)) as (x & Hx & Hms); [lia|].
      rewrite Hx in Hfe. destruct Hfe as (c' & m & Hfe & Hm & Hok' & Hl2 & Ht & _).
      rewrite Hfe. eexists _, _. split; [done|]. split; [|by eexists _, _].
      change (in_flight (Channel.touch c clock)) with (in_flight c) in Hl2.
      assert (∀ i, i ∈ entry_id <$> in_flight c' ↔ i ∈ entry_id <$> in_flight c ∨ i = Channel.tail c) as Hids.
      { intros i. rewrite Hl2, fmap_app. cbn. rewrite elem_of_app, list_elem_of_singleton. done. }
      constructor; rewrite ?Ht; try done; try lia.
      * rewrite Hl2. apply Forall_app. split; [done|]. constructor; [cbn; lia|done].
      * rewrite Hl2, zlen_app, zlen_cons, zlen_nil. lia.
      * intros id Hid. rewrite Hids. destruct (decide (id = Channel.tail c)); [tauto|].
        destruct (Hpassed id); [lia|tauto|tauto].
      * intros id Hid. rewrite Hids. destruct (Hacked id Hid). split; [lia|]. intros [?| ->]; [done|lia].
      * rewrite Hl2. apply Forall_app. split; [done|]. constructor; [cbn; lia|done].
    + rewrite entry_end in Hfe by lia. rewrite Hfe. eexists _, _. split; [done|]. split; [|done].
      by apply channel_inv_touch.
Qed.

Lemma ackable_elem c ticket clock s :
  ackable c ticket clock = Some s → (ticket, s) ∈ in_flight c ∧ clock < Channel.expiration s.
Proof.
  unfold ackable. destruct (assoc ticket (in_flight c)) eqn:Has; [|done].
  destruct (Z.ltb_spec clock (Channel.expiration i)); [|done]. intros [= ->].
  split; [by apply assoc_Some|done].
Qed.

(** What is not acknowledged is at or after [real_tail], and in flight or
    still to be read. *)
Lemma unacked_stored start head c g :
  channel_inv start head c g →
  ∃ n, Channel.real_tail c = Done n ∧
    ∀ id, origin g ≤ id → id ∉ acked g →
      n ≤ id ∧ (id ∈ entry_id <$> in_flight c ∨ Channel.tail c ≤ id) ∧ start ≤ id.
Proof.
  intros [Hok Htail Hstored Hlen Horig Hpassed Hacked Hfrom].
  destruct (real_tail_ok c Hok) as (n & Hn & Hf & Hr). exists n. split; [done|].
  intros id Hid Hna. destruct (Z.le_gt_cases (Channel.tail c) id); [split_and!; [lia|by right|lia]|].
  destruct (Hpassed id) as [?|Hin]; [lia|done|]. pose proof Hin as (e & -> & He)%list_elem_of_fmap.
  rewrite Forall_forall in Hstored. specialize (Hstored _ He).
  unfold first_unacked in Hf. destruct (in_flight c) eqn:Hl; [by apply elem_of_nil in He|].
  destruct Hf as [_ Hf]. rewrite Forall_forall in Hf. specialize (Hf _ He).
  split_and!; [done|by left|done].
Qed.

Lemma get_spec_new start head ms c g clock ticket m id :
  channel_inv start head c g → get_spec start ms c clock ticket (Ok (ticket, m)) →
  be_message_id m = Done id →
  id ∉ acked g ∧ (∀ e, e ∈ in_flight c → entry_id e = id → entry_expiration e ≤ clock).
Proof.
  intros [Hok Htail Hstored Hlen Horig Hpassed Hacked Hfrom]. unfold get_spec.
  destruct (front_due c clock) as [[t s]|] eqn:Hf.
  - intros (m' & x & [= <-] & Hm & _) Hid. rewrite (be_message_id_ok _ _ _ Hm) in Hid. injection Hid as <-.
    apply front_due_front in Hf as (l & Hl & Hexp).
    assert ((t, s) ∈ in_flight c) as Hin by (rewrite Hl; left). split.
    + intros Ha. destruct (Hacked _ Ha) as [_ Hn]. by apply Hn, (list_elem_of_fmap_2 entry_id _ (t, s)).
    + intros e He Heq. by rewrite (NoDup_fmap_inj_elem entry_id (in_flight c) e (t, s) (co_ids _ Hok)).
  - case_decide; [|done]. intros (m' & x & [= <-] & Hm & _) Hid.
    rewrite (be_message_id_ok _ _ _ Hm) in Hid. injection Hid as <-. split.
    + intros Ha. destruct (Hacked _ Ha). lia.
    + intros e He Heq. pose proof (co_range _ Hok) as Hr. eapply Forall_forall in Hr; [|done]. lia.
Qed.

Lemma ack_locked_inv start head c g ticket clock :
  channel_inv start head c g → 0 ≤ clock →
  ∃ c' r, InnerQueue.ack_locked c ticket clock = Done (c', r) ∧
    match ackable c ticket clock with
    | Some s => r = Ok () ∧
        channel_inv start head c' (mkGhost (origin g) ({[Channel.id s]} ∪ acked g))
    | None => r = Err InnerQueue.TicketNotFound ∧ channel_inv start head c' g
    end.
Proof.
  intros Hc Hclock. pose proof (ack_locked_ok c ticket clock (ci_ok _ _ _ _ Hc) Hclock) as Ha.
  destruct (ackable c ticket clock) as [s|] eqn:Hs.
  2:{ rewrite Ha. eexists _, _. split; [done|]. split; [done|]. by apply channel_inv_touch. }
  destruct Ha as (c' & Ha & Hok' & Hl & Ht & _). rewrite Ha. eexists _, _. split; [done|]. split; [done|].
  destruct Hc as [Hok Htail Hstored Hlen Horig Hpassed Hacked Hfrom].
  assert ((ticket, s) ∈ in_flight c) as Hin.
  { by apply ackable_elem in Hs as [? _]. }
  pose proof (co_range _ Hok) as Hr. rewrite Forall_forall in Hr. pose proof (Hr _ Hin) as Hrs.
  change (entry_id (ticket, s)) with (Channel.id s) in Hrs.
  assert (∀ i, i ∈ entry_id <$> in_flight c' ↔ i ∈ entry_id <$> in_flight c ∧ i ≠ Channel.id s) as Hids.
  { intros i. rewrite Hl, !list_elem_of_fmap. setoid_rewrite elem_of_without. split.
    - intros (e & -> & Hne & He). split; [by exists e|]. intros Heq. apply Hne.
      assert (e = (ticket, s)) as ->; [|done].
      by eapply (NoDup_fmap_inj_elem entry_id); [apply (co_ids _ Hok)|..].
    - intros ((e & -> & He) & Hne). exists e. split_and!; [done| |done].
      intros Hts. apply Hne. destruct e as [t s']. cbn in Hts. subst t. pose proof (assoc_elem _ _ _ (co_tickets _ Hok) He) as E1.
      pose proof (assoc_elem _ _ _ (co_tickets _ Hok) Hin) as E2.
      rewrite E1 in E2. by injection E2 as ->. }
  constructor; cbn; rewrite ?Ht; try done.
  - apply Forall_forall. intros e He. rewrite Hl in He. apply elem_of_without in He as [_ He].
    by eapply Forall_forall in Hstored.
  - rewrite Hl. pose proof (without_sub ticket (in_flight c)) as Hsub.
    apply sublist_length in Hsub. unfold zlen in *. lia.
  - intros id Hid. rewrite Hids, elem_of_union, elem_of_singleton.
    destruct (decide (id = Channel.id s)); [tauto|]. destruct (Hpassed id Hid); tauto.
  - intros id. rewrite elem_of_union, elem_of_singleton, Hids.
    intros [->|Hid]; [split; [lia|tauto]|]. destruct (Hacked id Hid). tauto.
  - apply Forall_forall. intros e He. rewrite Hl in He. apply elem_of_without in He as [_ He].
    by eapply Forall_forall in Hfrom.
Qed.

Lemma update_state_inv start head c g clock :
  channel_inv start head c g → 0 ≤ clock →
  ∃ c', Channel.update_state c clock = Done c' ∧ channel_inv start head c' g.
Proof.
  intros [Hok Htail Hstored Hlen Horig Hpassed Hacked Hfrom] Hclock.
  destruct (update_state_ok c clock Hok Hclock Hlen)
    as (c' & k & Hu & Hok' & _ & Ht & _ & _ & _ & Hl & _). exists c'. split; [done|].
  assert (entry_id <$> in_flight c' = entry_id <$> in_flight c) as Hids.
  { rewrite Hl, fmap_app, <-list_fmap_compose. change (entry_id ∘ mark_entry) with entry_id.
    by rewrite <-fmap_app, take_drop. }
  constructor; rewrite ?Ht, ?Hids; try done.
  - change (Forall ((λ i, start ≤ i) ∘ entry_id) (in_flight c')). rewrite <-Forall_fmap, Hids.
    by apply Forall_fmap.
  - pose proof (f_equal length Hids) as Hn. rewrite !length_fmap in Hn. unfold zlen in *. lia.
  - change (Forall ((λ i, origin g ≤ i) ∘ entry_id) (in_flight c')). rewrite <-Forall_fmap, Hids.
    by apply Forall_fmap.
Qed.

(** ** Operations on a queue keep it *)

Lemma channel_inv_grow start head start' head' c g :
  channel_inv start head c g → head ≤ head' →
  (∀ n, first_unacked c n → start' ≤ Z.max start n) → channel_inv start' head' c g.
Proof.
  intros [Hok Htail Hstored Hlen Horig Hpassed Hacked Hfrom] Hhd Hst.
  destruct (real_tail_ok c Hok) as (n & _ & Hn & Hr). specialize (Hst n Hn).
  assert (Forall (λ e, start' ≤ entry_id e) (in_flight c)) as Hs'.
  { unfold first_unacked in Hn. apply Forall_forall. intros e He.
    rewrite Forall_forall in Hstored. specialize (Hstored _ He).
    destruct (in_flight c) eqn:Hl; [by apply elem_of_nil in He|].
    destruct Hn as [_ Hn]. rewrite Forall_forall in Hn. specialize (Hn _ He). cbn in *. lia. }
  constructor; try done. lia.
Qed.

Lemma queue_inv_backend q start ms G b start' ms' :
  queue_inv q start ms G → be_rep b start' ms' → be_config b = be_config (InnerQueue.backend q) →
  be_head (InnerQueue.backend q) ≤ be_head b →
  (∀ name c n, InnerQueue.channels q !! name = Some c → first_unacked c n → start' ≤ Z.max start n) →
  queue_inv (InnerQueue.set_backend q b) start' ms' G.
Proof.
  intros [Hrep Hcfg Hp Hs Hr Hch] Hb Hcb Hhd Hst. constructor; try done.
  - cbn. congruence.
  - cbn. intros name c Hc. destruct (Hch _ _ Hc) as (g & Hg & Hci). exists g. split; [done|].
    eapply channel_inv_grow; eauto.
Qed.

Lemma push_inv q start ms G body clock :
  queue_inv q start ms G → be_room os (InnerQueue.backend q) (clock, body) →
  ∃ q' r, InnerQueue.push os q body clock = Done (q', r) ∧
    match r with
    | Ok id => id = start + zlen ms ∧ queue_inv q' start (ms ++ [(clock, body)]) G
    | Err e => e = InnerQueue.Backend MessageTooBig ∧ queue_inv q' start ms G
    end.
Proof.
  intros Hq Hroom. destruct (be_bounds _ _ _ (qi_rep _ _ _ _ Hq)) as (_ & Hhd & _).
  destruct (be_push_ok os _ start ms (clock, body) (qi_rep _ _ _ _ Hq) Hroom) as (b' & r & Hp & Hc & Hr).
  unfold InnerQueue.push. cbn [fst snd] in Hp. rewrite Hp, bind_Done. eexists _, _. split; [done|].
  destruct r as [id|e]; destruct Hr as [-> Hb']; (split; [done|]);
    destruct (be_bounds _ _ _ Hb') as (_ & Hhd' & _); rewrite ?zlen_app, ?zlen_cons, ?zlen_nil in Hhd';
    (eapply queue_inv_backend; [done..|lia|intros; lia]).
Qed.

(** Applying an operation to one channel. *)
Lemma with_channel_inv {R} q start ms G name (f : Channel.t M → outcome (Channel.t M * result R InnerQueue.QueueError))
    (P : Channel.t M → result R InnerQueue.QueueError → Prop) (h : Channel.t M → ghost → ghost) :
  queue_inv q start ms G →
  (∀ c g, InnerQueue.channels q !! name = Some c → channel_inv start (be_head (InnerQueue.backend q)) c g →
     ∃ c' r, f c = Done (c', r) ∧ channel_inv start (be_head (InnerQueue.backend q)) c' (h c g) ∧ P c r) →
  ∃ q' r, InnerQueue.with_channel q name f = Done (q', r) ∧
    match InnerQueue.channels q !! name with
    | Some c => ∃ g, G !! name = Some g ∧ queue_inv q' start ms (<[name := h c g]> G) ∧ P c r
    | None => q' = q ∧ r = Err InnerQueue.ChannelNotFound
    end.
Proof.
  intros Hq Hf. unfold InnerQueue.with_channel.
  destruct (InnerQueue.channels q !! name) as [c|] eqn:Hc; [|by eexists _, _].
  destruct (queue_inv_chan _ _ _ _ _ _ Hq Hc) as (g & Hg & Hci).
  destruct (Hf c g eq_refl Hci) as (c' & r & Hfc & Hci' & HP). rewrite Hfc, bind_Done.
  eexists _, _. split; [reflexivity|]. exists g. split; [done|]. split; [|done].
  by apply queue_inv_set.
Qed.

Lemma insert_same_ghost G name g : G !! name = Some g → <[name := g]> G = G.
Proof. apply insert_id. Qed.

Lemma get_inv q start ms G name clock ticket :
  queue_inv q start ms G → admissible (Get name clock ticket) q →
  ∃ q' r, InnerQueue.get q name clock ticket = Done (q', r) ∧ queue_inv q' start ms G ∧
    match InnerQueue.channels q !! name with
    | Some c => get_spec start ms c clock ticket r
    | None => r = Err InnerQueue.ChannelNotFound
    end.
Proof.
  intros Hq [Hexp Hc]. destruct (with_channel_inv q start ms G name
    (λ c, InnerQueue.get_locked (InnerQueue.config q) (InnerQueue.backend q) c clock ticket)
    (λ c r, get_spec start ms c clock ticket r) (λ _ g, g) Hq) as (q' & r & Hg & Hr).
  { intros c g Hl Hci. destruct (Hc _ Hl). by eapply get_locked_inv; [apply (qi_rep _ _ _ _ Hq)|..]. }
  exists q', r. split; [done|]. destruct (InnerQueue.channels q !! name) as [c|].
  - destruct Hr as (g & HG & Hq' & Hr). by rewrite insert_same_ghost in Hq'.
  - by destruct Hr as [-> ->].
Qed.

Lemma ack_inv q start ms G name ticket clock :
  queue_inv q start ms G → 0 ≤ clock →
  ∃ q' r, InnerQueue.ack q name ticket clock = Done (q', r) ∧
    queue_inv q' start ms (ghost_step (Ack name ticket clock) q G) ∧
    r = match InnerQueue.channels q !! name with
        | Some c => match ackable c ticket clock with Some _ => Ok () | None => Err InnerQueue.TicketNotFound end
        | None => Err InnerQueue.ChannelNotFound
        end.
Proof.
  intros Hq Hclock. destruct (with_channel_inv q start ms G name
    (λ c, InnerQueue.ack_locked c ticket clock)
    (λ c r, r = match ackable c ticket clock with Some _ => Ok () | None => Err InnerQueue.TicketNotFound end)
    (λ c g, match ackable c ticket clock with
            | Some s => mkGhost (origin g) ({[Channel.id s]} ∪ acked g) | None => g end) Hq)
    as (q' & r & Hg & Hr).
  { intros c g _ Hci. destruct (ack_locked_inv _ _ _ _ ticket clock Hci Hclock) as (c' & r & Ha & Hr).
    exists c', r. split; [done|]. by destruct (ackable c ticket clock); destruct Hr as [-> Hr]. }
  exists q', r. split; [done|]. cbn [ghost_step].
  destruct (InnerQueue.channels q !! name) as [c|]; cbn [mbind option_bind].
  - destruct Hr as (g & HG & Hq' & ->). split; [|done]. destruct (ackable c ticket clock) as [s|].
    + enough (alter (λ g, mkGhost (origin g) ({[Channel.id s]} ∪ acked g)) name G =
        <[name := mkGhost (origin g) ({[Channel.id s]} ∪ acked g)]> G) as -> by done.
      apply partial_alter_ext. intros ? <-. by rewrite HG.
    + by rewrite insert_same_ghost in Hq'.
  - by destruct Hr as [-> ->].
Qed.

(** The channel part of a checkpoint. *)
Definition save_channel c : outcome InnerQueue.ChannelCheckpoint :=
  tail ← Channel.real_tail c;
  mret (InnerQueue.mkChannelCheckpoint tail (Channel.last_touched c)).

Lemma real_tails_ok q start ms G :
  queue_inv q start ms G →
  ∃ tails, map_values Channel.real_tail (InnerQueue.channels q) = Done tails ∧
    mapped Channel.real_tail (InnerQueue.channels q) tails.
Proof.
  intros Hq. apply map_values_ok. intros name c Hc.
  destruct (queue_inv_chan _ _ _ _ _ _ Hq Hc) as (g & _ & Hci).
  destruct (real_tail_ok c (ci_ok _ _ _ _ Hci)) as (n & Hn & _). by exists n.
Qed.

Lemma backend_checkpoint_inv q start ms G full :
  queue_inv q start ms G →
  ∃ b' file, be_checkpoint os true (InnerQueue.backend q) full = Done (b', file) ∧
    queue_inv (InnerQueue.set_backend q b') start ms G ∧ be_head b' = be_head (InnerQueue.backend q).
Proof.
  intros Hq. destruct (be_checkpoint_ok os _ start ms full (qi_rep _ _ _ _ Hq) Hos) as (b' & file & Hcp & Hb' & Hcb).
  destruct (be_bounds _ _ _ (qi_rep _ _ _ _ Hq)) as (_ & Hhd & _).
  destruct (be_bounds _ _ _ Hb') as (_ & Hhd' & _). exists b', file.
  split_and!; [done|eapply queue_inv_backend; [done..|lia|intros; lia]|congruence].
Qed.

Lemma checkpoint_inv q start ms G full :
  queue_inv q start ms G →
  ∃ q' chans, InnerQueue.checkpoint os true q full
      = Done (q', json_encode (InnerQueue.mkQueueCheckpoint InnerQueue.Ready chans)) ∧
    queue_inv q' start ms G ∧ InnerQueue.channels q' = InnerQueue.channels q ∧
    mapped save_channel (InnerQueue.channels q) chans.
Proof.
  intros Hq. destruct (backend_checkpoint_inv _ _ _ _ full Hq) as (b' & file & Hcp & Hq' & _).
  destruct (map_values_ok save_channel (InnerQueue.channels q)) as (chans & Hch & Hm).
  { intros name c Hc. destruct (queue_inv_chan _ _ _ _ _ _ Hq Hc) as (g & _ & Hci).
    destruct (real_tail_ok c (ci_ok _ _ _ _ Hci)) as (n & Hn & _).
    unfold save_channel. rewrite Hn, bind_Done. by eexists. }
  exists (InnerQueue.set_backend q b'), chans. unfold save_channel in Hch.
  unfold InnerQueue.checkpoint. rewrite bool_decide_true by apply (qi_ready _ _ _ _ Hq).
  rewrite Hcp, bind_Done, Hch, !bind_Done. cbn [assert]. rewrite bind_Done.
  split; [|done]. cbn. by rewrite (qi_ready _ _ _ _ Hq).
Qed.

(** Without hard limits, a collection with a position no channel needs
    removes a prefix of the log that ends before it. *)
Lemma gc_inv q start ms G smallest clock :
  queue_inv q start ms G → be_gc_ready (InnerQueue.backend q) clock →
  (∀ name c n, InnerQueue.channels q !! name = Some c → Channel.real_tail c = Done n → smallest ≤ n) →
  ∃ b' paths start', be_gc (InnerQueue.backend q) smallest clock = Done (b', paths) ∧
    queue_inv (InnerQueue.set_backend q b') start' (drop (Z.to_nat (start' - start)) ms) G ∧ start ≤ start' ∧
    be_head (InnerQueue.backend q) ≤ be_head b'.
Proof.
  intros Hq Hgc Hsm.
  destruct (be_gc_ok _ start ms smallest clock (qi_rep _ _ _ _ Hq) Hgc)
    as (b' & paths & start' & Hb & Hb' & Hcb & Hle & Hmax).
  rewrite (qi_config _ _ _ _ Hq) in Hmax. specialize (Hmax (qi_period _ _ _ _ Hq) (qi_size _ _ _ _ Hq)).
  destruct (be_bounds _ _ _ (qi_rep _ _ _ _ Hq)) as (_ & Hhd & _). destruct (be_bounds _ _ _ Hb') as (_ & Hhd' & _).
  assert (be_head (InnerQueue.backend q) ≤ be_head b') as Hmono.
  { rewrite Hhd, Hhd'. unfold zlen. rewrite length_drop. lia. }
  exists b', paths, start'. split_and!; [done| |done|done].
  eapply queue_inv_backend; [done..|]. intros name c n Hc Hn. enough (smallest ≤ n) by lia.
  eapply Hsm; [exact Hc|]. destruct (queue_inv_chan _ _ _ _ _ _ Hq Hc) as (g & _ & Hci).
  destruct (real_tail_ok c (ci_ok _ _ _ _ Hci)) as (n' & Hn' & Hf & _). by rewrite (first_unacked_unique c n n').
Qed.

(** Without hard limits, maintenance removes a prefix of the log that ends
    before every channel's first unacknowledged message. *)
Lemma maintenance_inv q start ms G clock :
  queue_inv q start ms G → be_gc_ready (InnerQueue.backend q) clock →
  ∃ q' paths cp start', InnerQueue.maintenance os true q clock = Done (q', paths, cp) ∧
    queue_inv q' start' (drop (Z.to_nat (start' - start)) ms) G ∧ start ≤ start' ∧
    InnerQueue.channels q' = InnerQueue.channels q.
Proof.
  intros Hq Hgc. destruct (real_tails_ok _ _ _ _ Hq) as (tails & Ht & Hm).
  unfold InnerQueue.maintenance. rewrite Ht, bind_Done. cbn zeta.
  destruct (gc_inv q start ms G (default 0 (min_list (map_to_list tails).*2)) clock Hq Hgc)
    as (b' & paths & start' & Hb & Hq' & Hle & _).
  { intros name c n Hc Hn. apply (min_tail_le _ name). specialize (Hm name). rewrite Hc in Hm.
    destruct Hm as (n' & -> & Hn'). congruence. }
  rewrite Hb, bind_Done. destruct (checkpoint_inv _ _ _ _ false Hq') as (q' & chans & Hcp & Hq'' & Hch & _).
  rewrite Hcp, bind_Done. eexists _, _, _, _. by split_and!.
Qed.

Lemma iter_channels_inv q start ms G clock :
  queue_inv q start ms G → 0 ≤ clock →
  ∃ q' r, InnerQueue.iter_channels q clock (λ _ (_ : Channel.t M), ()) = Done (q', r) ∧ queue_inv q' start ms G.
Proof.
  intros Hq Hclock.
  destruct (map_values_ok (λ c, Channel.update_state c clock) (InnerQueue.channels q)) as (chans & Hch & Hm).
  { intros name c Hc. destruct (queue_inv_chan _ _ _ _ _ _ Hq Hc) as (g & _ & Hci).
    destruct (update_state_inv _ _ _ _ clock Hci Hclock) as (c' & Hu & _). by exists c'. }
  unfold InnerQueue.iter_channels. rewrite Hch, bind_Done. eexists _, _. split; [reflexivity|].
  destruct Hq as [Hrep Hcfg Hp Hs Hr Hq]. constructor; try done. cbn. intros name c' Hc'.
  destruct (mapped_Some _ _ _ _ _ Hm Hc') as (c & Hc & Hu). destruct (Hq _ _ Hc) as (g & Hg & Hci).
  exists g. split; [done|]. destruct (update_state_inv _ _ _ _ clock Hci Hclock) as (c2 & Hu2 & Hci2). congruence.
Qed.

Lemma create_channel_inv q start ms G name clock :
  queue_inv q start ms G →
  queue_inv (fst (InnerQueue.create_channel q name clock)) start ms (ghost_step (CreateChannel name clock) q G).
Proof.
  intros Hq. unfold InnerQueue.create_channel. cbn [ghost_step].
  destruct (InnerQueue.channels q !! name); [done|]. cbn [fst].
  destruct (be_bounds _ _ _ (qi_rep _ _ _ _ Hq)) as (? & Hhd & _). pose proof (zlen_nonneg ms).
  apply queue_inv_set; [done|]. apply channel_inv_fresh; [lia|done].
Qed.

Lemma delete_channel_inv q start ms G name :
  queue_inv q start ms G →
  queue_inv (fst (InnerQueue.delete_channel q name)) start ms (ghost_step (DeleteChannel name) q G).
Proof.
  intros Hq. unfold InnerQueue.delete_channel. cbn [ghost_step].
  destruct (InnerQueue.channels q !! name) eqn:Hn; cbn [fst];
    destruct Hq as [Hrep Hcfg Hp Hs Hr Hq]; constructor; try done;
    cbn [InnerQueue.channels InnerQueue.set_channels]; intros name' c' Hc';
    (destruct (decide (name = name')) as [->|];
      [try rewrite bytes_delete_eq in Hc'; congruence|]);
    try rewrite bytes_delete_ne in Hc' by done; rewrite bytes_delete_ne by done; eauto.
Qed.

Lemma purge_channel_inv q start ms G name clock :
  queue_inv q start ms G →
  ∃ q' r, InnerQueue.purge_channel q name clock = Done (q', r) ∧
    queue_inv q' start ms (ghost_step (PurgeChannel name clock) q G).
Proof.
  intros Hq. destruct (be_bounds _ _ _ (qi_rep _ _ _ _ Hq)) as (? & Hhd & _). pose proof (zlen_nonneg ms).
  destruct (with_channel_inv q start ms G name
    (λ c, mret (Channel.touch (Channel.purge c (be_head (InnerQueue.backend q))) clock, Ok ()))
    (λ _ _, True) (λ _ _, mkGhost (be_head (InnerQueue.backend q)) ∅) Hq) as (q' & r & Hg & Hr).
  { intros c g _ _. eexists _, _. split; [reflexivity|]. split; [|done].
    by apply (channel_inv_fresh _ _ clock); [lia|]. }
  exists q', r. split; [exact Hg|]. cbn [ghost_step].
  destruct (InnerQueue.channels q !! name); [naive_solver|]. by destruct Hr as [-> _].
Qed.

(** Every admissible operation returns and keeps the invariant. *)
Lemma run_inv o q start ms G :
  queue_inv q start ms G → admissible o q →
  ∃ q' start' ms', run o q = Done q' ∧ queue_inv q' start' ms' (ghost_step o q G).
Proof.
  intros Hq. destruct o; cbn [run admissible]; intros Ha.
  - destruct (push_inv _ _ _ _ _ _ Hq Ha) as (q' & [id|e] & -> & _ & Hq'); by eexists _, _, _.
  - destruct (get_inv _ _ _ _ _ _ _ Hq Ha) as (q' & r & -> & Hq' & _); by eexists _, _, _.
  - destruct (ack_inv _ _ _ _ name ticket clock Hq Ha) as (q' & r & -> & Hq' & _); by eexists _, _, _.
  - eexists _, _, _. split; [done|]. by apply create_channel_inv.
  - eexists _, _, _. split; [done|]. by apply delete_channel_inv.
  - destruct (purge_channel_inv _ _ _ _ name clock Hq) as (q' & r & -> & Hq'); by eexists _, _, _.
  - destruct (iter_channels_inv _ _ _ _ clock Hq Ha) as (q' & r & -> & Hq'); by eexists _, _, _.
  - destruct (maintenance_inv _ _ _ _ clock Hq Ha) as (q' & p & cp & st & -> & Hq' & _); by eexists _, _, _.
  - destruct (checkpoint_inv _ _ _ _ full Hq) as (q' & ch & -> & Hq' & _); by eexists _, _, _.
Qed.

Lemma reachable_inv q G : reachable q G → ∃ start ms, queue_inv q start ms G.
Proof.
  induction 1 as [q start ms Hb Hcfg Hp Hs Hc Hr|o q G q' _ (start & ms & Hq) Ha Hrun].
  - exists start, ms. constructor; try done. intros name c. by rewrite Hc, lookup_empty.
  - destruct (run_inv _ _ _ _ _ Hq Ha) as (q2 & start' & ms' & Hrun' & Hq').
    exists start', ms'. congruence.
Qed.

(** ** Restarting from a checkpoint *)

Context `{!JsonOk InnerQueue.QueueCheckpoint}.

(** The queue a later start makes of a backend and a checkpoint file. *)
Definition restarted q (b2 : B) (file : list Z) : InnerQueue.t B M :=
  InnerQueue.recover (InnerQueue.mk (InnerQueue.config q) b2 ∅ InnerQueue.Ready) (Some file).

Lemma restarted_channel q b2 (qc : InnerQueue.t B M) chans name c :
  mapped save_channel (InnerQueue.channels q) chans → InnerQueue.channels q !! name = Some c →
  ∃ n, Channel.real_tail c = Done n ∧
    InnerQueue.channels (restarted qc b2
      (json_encode (InnerQueue.mkQueueCheckpoint InnerQueue.Ready chans))) !! name
    = Some (Channel.fresh (Channel.last_touched c) n).
Proof.
  intros Hm Hc. specialize (Hm name). rewrite Hc in Hm. destruct Hm as (cc & Hcc & Hs).
  unfold save_channel in Hs. apply bind_Done_iff in Hs as (n & Hn & [= <-]).
  exists n. split; [done|]. unfold restarted, InnerQueue.recover. cbn [mbind option_bind].
  rewrite json_roundtrip. cbn. rewrite lookup_union_l by apply lookup_empty.
  by rewrite lookup_fmap, Hcc.
Qed.

(** ** Properties *)

(** C1: at-least-once. In every reachable queue, an id at or after a
    channel's origin was acknowledged on that channel, or it is still in the
    log, is in flight or not yet read, and is not below the position
    [real_tail] that checkpoints and garbage collection use. *)
Theorem at_least_once q G name c :
  reachable q G → InnerQueue.channels q !! name = Some c →
  ∃ start ms g n, be_rep (InnerQueue.backend q) start ms ∧ G !! name = Some g ∧
    Channel.real_tail c = Done n ∧
    ∀ id, origin g ≤ id < be_head (InnerQueue.backend q) →
      id ∈ acked g ∨
      (n ≤ id ∧ (id ∈ entry_id <$> in_flight c ∨ Channel.tail c ≤ id) ∧
       ∃ x, entry start ms id = Some (id, x)).
Proof.
  intros (start & ms & Hq)%reachable_inv Hc.
  destruct (queue_inv_chan _ _ _ _ _ _ Hq Hc) as (g & Hg & Hci).
  destruct (be_bounds _ _ _ (qi_rep _ _ _ _ Hq)) as (_ & Hhd & _).
  destruct (unacked_stored _ _ _ _ Hci) as (n & Hn & Hall).
  exists start, ms, g, n. split_and!; [apply (qi_rep _ _ _ _ Hq)|done|done|].
  intros id Hid. destruct (decide (id ∈ acked g)) as [|Hna]; [by left|right].
  destruct (Hall id) as (? & ? & ?); [lia|done|]. split_and!; [done|done|].
  destruct (entry_stored start ms id) as (x & Hx & _); [lia|]. by exists x.
Qed.

(** A checkpoint followed by a start, on a backend with the same log,
    gives every channel a consistent state from which every message it has
    not acknowledged will be read again. *)
Theorem restart_redelivers q G full q' file :
  reachable q G → InnerQueue.checkpoint os true q full = Done (q', file) →
  ∃ start ms, be_rep (InnerQueue.backend q') start ms ∧
    ∀ b2 name c, be_rep b2 start ms → InnerQueue.channels q !! name = Some c →
    ∃ c2 g, InnerQueue.channels (restarted q b2 file) !! name = Some c2 ∧ G !! name = Some g ∧
      chan_ok c2 ∧ in_flight c2 = [] ∧ Channel.tail c2 ≤ Channel.tail c ∧
      ∀ id, origin g ≤ id < be_head b2 → id ∉ acked g →
        Channel.tail c2 ≤ id ∧ ∃ x, entry start ms id = Some (id, x).
Proof.
  intros (start & ms & Hq)%reachable_inv Hcp.
  destruct (checkpoint_inv _ _ _ _ full Hq) as (q2 & chans & Hcp' & Hq' & _ & Hm).
  rewrite Hcp in Hcp'. injection Hcp' as <- ->. exists start, ms. split; [apply (qi_rep _ _ _ _ Hq')|].
  intros b2 name c Hb2 Hc. destruct (queue_inv_chan _ _ _ _ _ _ Hq Hc) as (g & Hg & Hci).
  destruct (restarted_channel q b2 q chans name c Hm Hc) as (n & Hn & Hr).
  destruct (unacked_stored _ _ _ _ Hci) as (n' & Hn' & Hall). assert (n' = n) as -> by congruence.
  destruct (real_tail_ok c (ci_ok _ _ _ _ Hci)) as (n' & Hn2 & _ & Hb). assert (n' = n) as -> by congruence.
  destruct (be_bounds _ _ _ Hb2) as (_ & Hhd & _).
  eexists _, g. split_and!; [done|done|apply fresh_ok; lia| |cbn; lia|].
  { unfold in_flight. cbn. apply lm_iter_default. }
  intros id Hid Hna. destruct (Hall id) as (? & _ & ?); [lia|done|]. split; [done|].
  destruct (entry_stored start ms id) as (x & Hx & _); [lia|]. by exists x.
Qed.

(** C21: in a reachable queue no operation panics or touches memory it does
    not own, whatever the build profile. *)
Theorem run_total q G o :
  reachable q G → admissible o q → ∃ q', run o q = Done q'.
Proof.
  intros (start & ms & Hq)%reachable_inv Ha.
  destruct (run_inv _ _ _ _ _ Hq Ha) as (q' & ? & ? & -> & _). by eexists.
Qed.

(** C20: [get] returns the front in-flight message if it timed out, else the
    next message of the log, else the end of the queue; it never returns a
    message that was acknowledged or one another consumer still holds. *)
Theorem get_delivers q G name c clock ticket :
  reachable q G → admissible (Get name clock ticket) q → InnerQueue.channels q !! name = Some c →
  ∃ q' r start ms g, InnerQueue.get q name clock ticket = Done (q', r) ∧
    be_rep (InnerQueue.backend q) start ms ∧ G !! name = Some g ∧ get_spec start ms c clock ticket r ∧
    ∀ m id, r = Ok (ticket, m) → be_message_id m = Done id →
      id ∉ acked g ∧ (∀ e, e ∈ in_flight c → entry_id e = id → entry_expiration e ≤ clock).
Proof.
  intros (start & ms & Hq)%reachable_inv Ha Hc.
  destruct (get_inv _ _ _ _ _ _ _ Hq Ha) as (q' & r & Hget & _ & Hr). rewrite Hc in Hr.
  destruct (queue_inv_chan _ _ _ _ _ _ Hq Hc) as (g & Hg & Hci).
  exists q', r, start, ms, g. split_and!; [done|apply (qi_rep _ _ _ _ Hq)|done|done|].
  intros m id -> Hid. by eapply get_spec_new.
Qed.

(** A ticket is good for one acknowledgement: it is refused afterwards,
    and the message it stood for is in flight no more. *)
Theorem ack_once c ticket clock c' clock' :
  chan_ok c → 0 ≤ clock → InnerQueue.ack_locked c ticket clock = Done (c', Ok ()) →
  chan_ok c' ∧
  InnerQueue.ack_locked c' ticket clock' = Done (Channel.touch c' clock', Err InnerQueue.TicketNotFound) ∧
  ∃ s, (ticket, s) ∈ in_flight c ∧ clock < Channel.expiration s ∧
    Channel.id s ∉ entry_id <$> in_flight c'.
Proof.
  intros Hc Hclock Ha. pose proof (ack_locked_ok c ticket clock Hc Hclock) as Hok.
  destruct (ackable c ticket clock) as [s|] eqn:Hs; [|congruence].
  destruct Hok as (c2 & Ha2 & Hok & Hl & _). rewrite Ha in Ha2. injection Ha2 as <-.
  split; [done|]. split.
  - unfold InnerQueue.ack_locked. cbn zeta. rewrite lm_get_iter.
    change (lm_iter (Channel.in_flight_map (Channel.touch c' clock'))) with (in_flight c').
    rewrite Hl. enough (assoc ticket (without ticket (in_flight c)) = None) as -> by done.
    apply assoc_None. intros (e & -> & [He _]%elem_of_without)%list_elem_of_fmap. by destruct He.
  - apply ackable_elem in Hs as [Hin Hlt]. exists s. split_and!; [done|done|].
    rewrite Hl. intros (e & Hid & [Hne He]%elem_of_without)%list_elem_of_fmap. apply Hne.
    by rewrite (NoDup_fmap_inj_elem entry_id (in_flight c) e (ticket, s) (co_ids _ Hc)).
Qed.

End delivery.
