(* ===== verification/Rereading.v ===== *)
(** * Reading on

    A consumer that asks for one message after the other, on a queue that
    was just opened: it is given everything from the channel's position on,
    so it gets to every message that the log has from there. *)
From S2P Require Import Prelude.
From S2P Require Import Heaps.
From S2P Require Import Settings.
From S2P Require Import LogSpec.
From S2P Require Import SegmentSpec.
From S2P Require Import Channels.
From S2P Require Import ChannelFacts.
From S2P Require Import Queues.
From S2P Require Import QueueFacts.
From S2P Require Import Delivery.

Module Rereading.

Section reading.
Context `{Profile} {B Msg M : Type} `{BackendOk B Msg} `{!LinkedHashMap Channel.InFlightState M}
  `{!LinkedHashMapOk Channel.InFlightState M}.
Implicit Types (q : InnerQueue.t B M) (c : Channel.t M).

(** [get] with one ticket after the other, until there is nothing to get. *)
Fixpoint get_all q (name : list Z) (clock : Z) (tickets : list Z) : outcome (InnerQueue.t B M * list (Z * Msg)) :=
  match tickets with
  | [] => mret (q, [])
  | ticket :: tickets =>
      '(q, r) ← InnerQueue.get q name clock ticket;
      match r with
      | Ok got => '(q, l) ← get_all q name clock tickets; mret (q, got :: l)
      | Err _ => mret (q, [])
      end
  end.

(** A channel none of whose messages has timed out, and tickets that are new
    to it. *)
Definition ready_to_read c (clock : Z) (tickets : list Z) : Prop :=
  chan_ok c ∧ Forall (λ e, clock < entry_expiration e) (in_flight c) ∧ NoDup tickets ∧
  Forall (λ ticket, unused ticket c) tickets.

Lemma none_due c clock : Forall (λ e, clock < entry_expiration e) (in_flight c) → front_due c clock = None.
Proof. unfold front_due. intros Hall. destruct Hall as [|e l He _]; [done|]. by rewrite (proj2 (Z.leb_gt _ _)). Qed.

Lemma fetch_heap (cfg : Config.QueueConfig) (b : B) c clock random c' r ticket :
  InnerQueue.fetch cfg b c clock random = Done (c', r) → ticket ≠ random → unused ticket c → unused ticket c'.
Proof.
  unfold InnerQueue.fetch, unused. intros (o & _ & Hf)%bind_Done_iff Hne Hu. destruct o as [m|]; [|by injection Hf as <- _].
  apply bind_Done_iff in Hf as (id & _ & (e & _ & (tl & _ & [= <- _])%bind_Done_iff)%bind_Done_iff). cbn.
  intros ([i t] & -> & [[= _ ->]|Hin]%BinaryHeap.elem_of_push)%list_elem_of_fmap; [done|].
  apply Hu. by apply (list_elem_of_fmap_2 snd) in Hin.
Qed.

(** One more message, or the end. *)
Lemma get_next q name c clock ticket tickets start ms :
  InnerQueue.channels q !! name = Some c → be_rep (InnerQueue.backend q) start ms →
  ready_to_read c clock (ticket :: tickets) →
  0 < Config.message_timeout (InnerQueue.config q) → 0 < clock + Config.message_timeout (InnerQueue.config q) < 2 ^ 32 →
  match entry start ms (Channel.tail c) with
  | Some (id, x) => ∃ q' c' m, InnerQueue.get q name clock ticket = Done (q', Ok (ticket, m)) ∧ be_msg m id x ∧
      InnerQueue.channels q' !! name = Some c' ∧ InnerQueue.backend q' = InnerQueue.backend q ∧
      InnerQueue.config q' = InnerQueue.config q ∧ ready_to_read c' clock tickets ∧ Channel.tail c' = id + 1
  | None => ∃ q' e, InnerQueue.get q name clock ticket = Done (q', Err e)
  end.
Proof.
  intros Hc Hb (Hok & Hw & Hnd & Hus) Ht Hexp. apply NoDup_cons in Hnd as [Hnt Hnd]. apply Forall_cons in Hus as [Hu Hus].
  unfold InnerQueue.get, InnerQueue.with_channel. rewrite Hc, get_locked_unfold, (none_due _ _ Hw).
  pose proof (fetch_ok (InnerQueue.config q) _ start ms (Channel.touch c clock) clock ticket Hb (touch_ok _ _ Hok) Hu Hexp) as Hf.
  cbn [Channel.touch Channel.tail] in Hf. destruct (entry start ms (Channel.tail c)) as [[id x]|].
  - destruct Hf as (c' & m & Hf & Hm & Hok' & Hl & Htl & _). rewrite Hf, bind_Done.
    eexists _, c', m. split; [reflexivity|]. split; [done|]. cbn [InnerQueue.channels InnerQueue.set_channels InnerQueue.backend InnerQueue.config].
    split; [apply bytes_insert_eq|]. split_and!; [done..| |done]. split_and!; [done| |done|].
    + rewrite Hl. apply Forall_app. split; [exact Hw|]. constructor; [cbn; lia|done].
    + apply Forall_forall. intros t Hin. eapply fetch_heap; [exact Hf|by intros ->|].
      rewrite Forall_forall in Hus. by apply Hus.
  - rewrite Hf, bind_Done. by eexists _, _.
Qed.

Lemma get_all_total q name c clock tickets start ms :
  InnerQueue.channels q !! name = Some c → be_rep (InnerQueue.backend q) start ms → ready_to_read c clock tickets →
  0 < Config.message_timeout (InnerQueue.config q) → 0 < clock + Config.message_timeout (InnerQueue.config q) < 2 ^ 32 →
  ∃ q' l, get_all q name clock tickets = Done (q', l).
Proof.
  revert q c. induction tickets as [|t tickets IH]; intros q c Hc Hb Hr Ht Hexp; [by eexists _, _|].
  pose proof (get_next q name c clock t tickets start ms Hc Hb Hr Ht Hexp) as Hg. cbn [get_all].
  destruct (entry start ms (Channel.tail c)) as [[i y]|].
  - destruct Hg as (q2 & c2 & m & Hg & _ & Hc2 & Hb2 & Hcfg & Hr2 & _). rewrite Hg, bind_Done.
    rewrite <-Hb2 in Hb. rewrite <-Hcfg in Ht, Hexp. destruct (IH q2 c2 Hc2 Hb Hr2 Ht Hexp) as (q' & l & ->). by eexists _, _.
  - destruct Hg as (q2 & e & ->). by eexists _, _.
Qed.

(** Enough [get]s get to any message that is not below the position. *)
Lemma get_all_reaches q name c clock tickets start ms id x :
  InnerQueue.channels q !! name = Some c → be_rep (InnerQueue.backend q) start ms → ready_to_read c clock tickets →
  0 < Config.message_timeout (InnerQueue.config q) → 0 < clock + Config.message_timeout (InnerQueue.config q) < 2 ^ 32 →
  entry start ms id = Some (id, x) → Channel.tail c ≤ id → id - Z.max (Channel.tail c) start < zlen tickets →
  ∃ q' l t m, get_all q name clock tickets = Done (q', l) ∧ (t, m) ∈ l ∧ be_msg m id x.
Proof.
  intros Hc Hb Hr Ht Hexp Hx Hle Hn. pose proof (be_bounds _ _ _ Hb) as (Hst & _ & _).
  assert (start ≤ id ∧ ms !! Z.to_nat (id - start) = Some x) as [Hid Hms].
  { unfold entry in Hx. apply fmap_Some in Hx as (y & Hy & [= Hmax <-]). split; [lia|]. by rewrite <-Hmax in Hy. }
  revert q c Hc Hb Hr Ht Hexp Hle Hn.
  induction tickets as [|ticket tickets IH]; intros q c Hc Hb Hr Ht Hexp Hle Hn; [rewrite zlen_nil in Hn; lia|].
  pose proof (get_next q name c clock ticket tickets start ms Hc Hb Hr Ht Hexp) as Hg.
  destruct (entry start ms (Channel.tail c)) as [[i y]|] eqn:He.
  2: { exfalso. unfold entry in He. apply fmap_None, lookup_ge_None_1 in He. apply lookup_lt_Some in Hms. lia. }
  unfold entry in He. apply fmap_Some in He as (y' & Hy & [= -> ->]).
  destruct Hg as (q1 & c1 & m & Hg & Hm & Hc1 & Hb1 & Hcfg & Hr1 & Htl).
  cbn [get_all]. rewrite Hg, bind_Done.
  rewrite <-Hb1 in Hb. rewrite <-Hcfg in Ht, Hexp.
  destruct (get_all_total q1 name c1 clock tickets start ms Hc1 Hb Hr1 Ht Hexp) as (q2 & l2 & Hall).
  destruct (decide (Z.max (Channel.tail c) start = id)) as [Heq|Hne].
  - rewrite Hall, bind_Done. eexists _, _, ticket, m. split; [done|]. split; [left|].
    rewrite Heq in Hy. rewrite Hms in Hy. injection Hy as ->. by rewrite Heq in Hm.
  - rewrite zlen_cons in Hn.
    destruct (IH q1 c1 Hc1 Hb Hr1 Ht Hexp) as (q' & l & t & m' & Hrun & Hin & Hm'); [lia..|].
    rewrite Hrun, bind_Done. eexists _, _, t, m'. split; [done|]. split; [by right|done].
Qed.

(** A consumer that asks often enough, before the first message it was given
    times out, is given the message [x] with id [id]. *)
Definition will_read q (name : list Z) (id : Z) (x : msg) : Prop :=
  ∃ n, ∀ clock tickets,
    0 < Config.message_timeout (InnerQueue.config q) → 0 < clock + Config.message_timeout (InnerQueue.config q) < 2 ^ 32 →
    NoDup tickets → n ≤ zlen tickets →
    ∃ q' l t m, get_all q name clock tickets = Done (q', l) ∧ (t, m) ∈ l ∧ be_msg m id x.

Lemma will_read_from q name c start ms id x :
  InnerQueue.channels q !! name = Some c → be_rep (InnerQueue.backend q) start ms →
  chan_ok c → in_flight c = [] → Channel.in_flight_heap c = [] →
  entry start ms id = Some (id, x) → Channel.tail c ≤ id → will_read q name id x.
Proof.
  intros Hc Hb Hok Hl Hh Hx Hle. exists (id - Z.max (Channel.tail c) start + 1). intros clock tickets Ht Hexp Hnd Hn.
  eapply get_all_reaches; [done..| |done|done|exact Hx|done|lia]. unfold ready_to_read, unused. rewrite Hl, Hh.
  split_and!; [done..|]. apply Forall_forall. intros t _. by apply not_elem_of_nil.
Qed.

End reading.
End Rereading.
