(* ===== verification/Opening.v ===== *)
(** * A queue as it is opened

    What [InnerQueue::new] makes of a backend and of a checkpoint file, and
    that the first look at the queue ([InnerQueue::info], in [Server::new])
    leaves it as it is: the channels are idle at their saved positions. *)
From S2P Require Import Prelude.
From S2P Require Import Heaps.
From S2P Require Import Settings.
From S2P Require Import Segments.
From S2P Require Import Backend.
From S2P Require Import Channels.
From S2P Require Import ChannelFacts.
From S2P Require Import Queues.
From S2P Require Import QueueFacts.
From S2P Require Import Delivery.

Module Opening.

Section opened.
Context `{Profile} {B Msg M : Type} `{BackendOps B Msg} `{!LinkedHashMap Channel.InFlightState M}
  `{!LinkedHashMapOk Channel.InFlightState M} `{Json InnerQueue.QueueCheckpoint}.
Implicit Types (q : InnerQueue.t B M).

(** What a checkpoint file says: a queue without a file, or with one that
    does not parse, is new; one that was being deleted has no channels. *)
Definition read_back (file : option (list Z)) : InnerQueue.QueueState * gmap (list Z) InnerQueue.ChannelCheckpoint :=
  match file ≫= json_decode with
  | None => (InnerQueue.Ready, ∅)
  | Some cp =>
      match InnerQueue.qc_state cp with
      | InnerQueue.Ready => (InnerQueue.Ready, InnerQueue.qc_channels cp)
      | InnerQueue.Deleting => (InnerQueue.Deleting, ∅)
      end
  end.

(** A channel with nothing in flight, at the position it was saved with. *)
Definition idle (cc : InnerQueue.ChannelCheckpoint) (c : Channel.t M) : Prop :=
  Channel.tail c = InnerQueue.cc_tail cc ∧ Channel.last_touched c = InnerQueue.cc_last_touched cc ∧
  Channel.expired_count c = 0 ∧ Channel.in_flight_heap c = [] ∧ in_flight c = [].

Lemma idle_ok cc c : 0 ≤ InnerQueue.cc_tail cc → idle cc c → chan_ok c.
Proof.
  intros Hc (Ht & _ & He & Hh & Hi). constructor; rewrite ?Hi, ?Hh, ?He, ?Ht; try done; try (by constructor).
  - by exists [], [].
  - by intros e ?%elem_of_nil.
  - by intros id ticket s ?%elem_of_nil.
Qed.

Definition restored (chans : gmap (list Z) InnerQueue.ChannelCheckpoint) (m : gmap (list Z) (Channel.t M)) : Prop :=
  ∀ name, match chans !! name with
          | Some cc => ∃ c, m !! name = Some c ∧ idle cc c
          | None => m !! name = None
          end.

Record opened (c : Config.QueueConfig) (b : B) (file : option (list Z)) q : Prop := {
  op_config : InnerQueue.config q = c;
  op_backend : InnerQueue.backend q = b;
  op_state : InnerQueue.state q = (read_back file).1;
  op_channels : restored (read_back file).2 (InnerQueue.channels q);
}.

Lemma fresh_counted clock cc :
  ∃ c, Channel.in_flight_count (Channel.fresh (InnerQueue.cc_last_touched cc) (InnerQueue.cc_tail cc)) clock = Done (c, 0) ∧
    idle cc c.
Proof.
  assert (lm_iter (lm_iter_mut [] (lm_default (LinkedHashMap:=LinkedHashMap0))) = []) as Hi.
  { by rewrite lm_iter_mut_iter, lm_iter_default by by rewrite lm_iter_default. }
  unfold Channel.in_flight_count, Channel.update_state, Channel.fresh. cbn. rewrite lm_iter_default.
  change (Z.to_nat 0) with O. cbn.  rewrite lm_len_iter, Hi.
  eexists. split; [by rewrite u32_in|]. by split_and!.
Qed.

Definition start_channel (cc : InnerQueue.ChannelCheckpoint) : Channel.t M :=
  Channel.fresh (InnerQueue.cc_last_touched cc) (InnerQueue.cc_tail cc).

Lemma recover_fields c (b : B) file :
  let q := InnerQueue.recover (M:=M) (InnerQueue.mk c b ∅ InnerQueue.Ready) file in
  InnerQueue.config q = c ∧ InnerQueue.backend q = b ∧ InnerQueue.state q = (read_back file).1 ∧
  InnerQueue.channels q = start_channel <$> (read_back file).2.
Proof.
  cbv zeta. unfold InnerQueue.recover, read_back.
  destruct (file ≫= json_decode) as [cp|]; [|split_and!; [done..|]; cbn; by rewrite fmap_empty].
  cbn. destruct (InnerQueue.qc_state cp); cbn; split_and!; [done..| |done|done|done|];
    by rewrite ?map_union_empty, ?fmap_empty.
Qed.

(** As [InnerQueue::new] leaves it. *)
Lemma new_opened os c (b : B) file :
  ∃ q, InnerQueue.new os true c b file true = Done q ∧ opened c b file q.
Proof.
  eexists. split; [reflexivity|]. destruct (recover_fields c b file) as (Hc & Hb & Hs & Hch). constructor; [done..|].
  rewrite Hch. intros name. rewrite lookup_fmap. destruct ((read_back file).2 !! name) as [cc|]; [|done]. cbn.
  eexists. split; [reflexivity|]. split_and!; try done. apply lm_iter_default.
Qed.

(** As [Server::new] goes on with it. *)
Lemma new_info_opened os c (b : B) file clock du :
  be_disk_usage b = Done du →
  ∃ q q' i, InnerQueue.new os true c b file true = Done q ∧ InnerQueue.info q clock = Done (q', i) ∧ opened c b file q'.
Proof.
  intros Hdu. destruct (recover_fields c b file) as (Hc & Hb & Hs & Hch).
  destruct (map_values_ok (λ c, Channel.in_flight_count c clock) (start_channel <$> (read_back file).2)) as (m & Hm & Hmap).
  { intros k v (cc & <- & _)%lookup_fmap_Some. destruct (fresh_counted clock cc) as (c' & Hc' & _). by eexists. }
  eexists _, _, _. split; [reflexivity|]. split.
  - unfold InnerQueue.info. rewrite Hb, Hdu, bind_Done, Hch, Hm, bind_Done. reflexivity.
  - constructor; [done..|]. intros name. specialize (Hmap name). cbn. rewrite lookup_fmap in Hmap. rewrite lookup_fmap.
    destruct ((read_back file).2 !! name) as [cc|]; [|by rewrite Hmap]. destruct Hmap as (w & -> & Hw).
    destruct (fresh_counted clock cc) as (c' & Hc' & Hi). unfold start_channel in Hw. rewrite Hw in Hc'.
    injection Hc' as ->. by exists c'.
Qed.

(** The file that the last checkpoint of the channels wrote. *)
Lemma read_back_encode `{!JsonOk InnerQueue.QueueCheckpoint} chans :
  read_back (Some (json_encode (InnerQueue.mkQueueCheckpoint InnerQueue.Ready chans))) = (InnerQueue.Ready, chans).
Proof. unfold read_back. cbn [mbind option_bind]. by rewrite json_roundtrip. Qed.

End opened.

End Opening.
