(* ===== verification/Maintenance.v ===== *)
(** * Maintenance in small steps

    [Queue::maintenance] runs beside the clients' operations: it locks one
    channel after the other to read [real_tail], collects garbage with the
    smallest of them, checkpoints the backend, locks the channels again to
    save them, and writes [queue.checkpoint]. [advance] is one of these
    steps, and the transition system of [Delivery.v] is extended with them,
    with pushes, deliveries, acknowledgements and purges of channels in
    between. Creating and deleting channels at the same time changes the
    table that the maintenance walks ([Queue.maintenance_unguarded]); it is
    left out here. *)
From S2P Require Import Prelude.
From S2P Require Import Heaps.
From S2P Require Import Settings.
From S2P Require Import Segments.
From S2P Require Import SegmentSpec.
From S2P Require Import Backend.
From S2P Require Import LogSpec.
From S2P Require Import Channels.
From S2P Require Import ChannelFacts.
From S2P Require Import Queues.
From S2P Require Import QueueFacts.
From S2P Require Import Delivery.
From S2P Require Import Rereading.

Module Maintenance.
Import Rereading.

Abbreviation saved := (gmap (list Z) InnerQueue.ChannelCheckpoint).

(** Where a call of [maintenance] or [checkpoint] is; [Resting] when there
    is none. *)
Inductive stage : Type :=
| Resting
(** [todo] are the channels left of [self.channels.values()] *)
| Measuring (todo : list (list Z)) (tails : list Z) (clock : Z)
| Collected
| Saving (todo : list (list Z)) (chans : saved).

Section ops.
Context `{Profile} {B Msg M : Type} `{BackendOps B Msg} `{!LinkedHashMap Channel.InFlightState M}.
Variable os : Os.
Implicit Types (q : InnerQueue.t B M).

Definition names q : list (list Z) := (map_to_list (InnerQueue.channels q)).*1.

Definition begin q (clock : Z) : stage := Measuring (names q) [] clock.

(** One step: the queue, the next stage, and the channels written to
    [queue.checkpoint] by the last one. *)
Definition advance q (st : stage) : outcome (InnerQueue.t B M * stage * option saved) :=
  match st with
  | Resting => mret (q, Resting, None)
  | Measuring (name :: todo) tails clock =>
      c ← unwrap (InnerQueue.channels q !! name);
      tail ← Channel.real_tail c;
      mret (q, Measuring todo (tails ++ [tail]) clock, None)
  | Measuring [] tails clock =>
      '(b, _) ← be_gc (InnerQueue.backend q) (default 0 (min_list tails)) clock;
      mret (InnerQueue.set_backend q b, Collected, None)
  | Collected =>
      '(b, _) ← be_checkpoint os true (InnerQueue.backend q) false;
      mret (InnerQueue.set_backend q b, Saving (names q) ∅, None)
  | Saving (name :: todo) chans =>
      c ← unwrap (InnerQueue.channels q !! name);
      cc ← save_channel c;
      mret (q, Saving todo (<[name := cc]> chans), None)
  | Saving [] chans => mret (q, Resting, Some chans)
  end.

(** Steps with nothing in between, until the checkpoint is written. *)
Fixpoint advance_all (fuel : nat) q (st : stage) : outcome (InnerQueue.t B M * option saved) :=
  match fuel with
  | O => mret (q, None)
  | S fuel =>
      '(q, st, w) ← advance q st;
      match w with Some chans => mret (q, Some chans) | None => advance_all fuel q st end
  end.

(** Every channel twice, the collection, the backend and the file. *)
Definition steps q : nat := 2 * length (names q) + 3.

End ops.

(** ** The steps in a row are the method *)

Lemma min_list_Some l m : min_list l = Some m ↔ m ∈ l ∧ ∀ x, x ∈ l → m ≤ x.
Proof.
  destruct l as [|x l]; cbn; [split; [done|by intros [?%elem_of_nil _]]|].
  assert (foldr Z.min x l ∈ x :: l ∧ ∀ y, y ∈ x :: l → foldr Z.min x l ≤ y) as [Hin Hle].
  { split; [|apply foldr_min]. induction l as [|y l IH]; cbn; [left|].
    destruct (Z.min_spec y (foldr Z.min x l)) as [[_ ->]|[_ ->]]; set_solver. }
  split; [by intros [= <-]|]. intros [Hm Hmle]. f_equal. apply Z.le_antisymm; auto.
Qed.

Lemma min_list_perm l k : l ≡ₚ k → min_list l = min_list k.
Proof.
  intros Hp. destruct (min_list l) as [m|] eqn:Hl.
  - symmetry. apply min_list_Some. apply min_list_Some in Hl. by setoid_rewrite <-Hp.
  - destruct l; [|done]. apply Permutation_nil_l in Hp. by subst k.
Qed.

(** What [map_values] collects, as a list. *)
Definition collect {V W} (f : V → outcome W) (kvs : list (list Z * V)) : outcome (list (list Z * W)) :=
  foldr (λ kv acc, w ← f kv.2; l ← acc; mret ((kv.1, w) :: l)) (mret []) kvs.

Lemma collect_cons {V W} (f : V → outcome W) k v kvs l :
  collect f ((k, v) :: kvs) = Done l → ∃ w l', f v = Done w ∧ collect f kvs = Done l' ∧ l = (k, w) :: l'.
Proof. intros (w & Hw & (l' & Hl & [= <-])%bind_Done_iff)%bind_Done_iff. by exists w, l'. Qed.

Lemma collect_fst {V W} (f : V → outcome W) kvs l : collect f kvs = Done l → l.*1 = kvs.*1.
Proof.
  revert l. induction kvs as [|[k v] kvs IH]; intros l; [by intros [= <-]|].
  intros (w & l' & _ & Hl & ->)%collect_cons. cbn. f_equal. by apply IH.
Qed.

Section rows.
Context `{Profile} {B Msg M : Type} `{BackendOps B Msg} `{!LinkedHashMap Channel.InFlightState M}
  `{Json InnerQueue.QueueCheckpoint}.
Variable os : Os.
Implicit Types (q : InnerQueue.t B M).

Lemma measure_all q kvs l tails clock fuel :
  (∀ name c, (name, c) ∈ kvs → InnerQueue.channels q !! name = Some c) →
  collect Channel.real_tail kvs = Done l →
  advance_all os (length kvs + fuel) q (Measuring kvs.*1 tails clock) =
    advance_all os fuel q (Measuring [] (tails ++ l.*2) clock).
Proof.
  revert l tails. induction kvs as [|[name c] kvs IH]; intros l tails Hin.
  { intros [= <-]. by rewrite app_nil_r. }
  intros (n & l' & Hn & Hl & ->)%collect_cons. cbn [length Nat.add fmap list_fmap fst advance_all advance].
  rewrite (Hin name c) by left. cbn [unwrap]. rewrite bind_Done, Hn, !bind_Done, (IH l' (tails ++ [n])) by set_solver.
  by rewrite <-app_assoc.
Qed.

Lemma save_all q kvs l chans fuel :
  (∀ name c, (name, c) ∈ kvs → InnerQueue.channels q !! name = Some c) → NoDup kvs.*1 →
  collect save_channel kvs = Done l →
  advance_all os (length kvs + fuel) q (Saving kvs.*1 chans) =
    advance_all os fuel q (Saving [] (list_to_map l ∪ chans)).
Proof.
  revert l chans. induction kvs as [|[name c] kvs IH]; intros l chans Hin Hnd.
  { intros [= <-]. cbn. by rewrite (left_id_L ∅ (∪)). }
  intros (cc & l' & Hcc & Hl & ->)%collect_cons. cbn in Hnd. apply NoDup_cons in Hnd as [Hnot Hnd].
  cbn [length Nat.add fmap list_fmap fst advance_all advance].
  rewrite (Hin name c) by left. cbn [unwrap]. rewrite bind_Done, Hcc, !bind_Done.
  rewrite (IH l' (<[name := cc]> chans)); [|set_solver|done|done]. do 2 f_equal.
  rewrite <-insert_union_r; [cbn; by rewrite insert_union_l|].
  apply not_elem_of_list_to_map_1. by rewrite (collect_fst _ _ _ Hl).
Qed.

Lemma table_entries q name c : (name, c) ∈ map_to_list (InnerQueue.channels q) → InnerQueue.channels q !! name = Some c.
Proof. apply elem_of_map_to_list. Qed.

(** C22: Run one after the other, the steps of the maintenance do exactly what
    the method of [Queues.v] does: the same queue, and the same contents of
    [queue.checkpoint]. *)
Theorem maintenance_steps q clock q' paths cp :
  InnerQueue.state q = InnerQueue.Ready → InnerQueue.maintenance os true q clock = Done (q', paths, cp) →
  ∃ chans, advance_all os (steps q) q (begin q clock) = Done (q', Some chans) ∧
    cp = json_encode (InnerQueue.mkQueueCheckpoint InnerQueue.Ready chans).
Proof.
  intros Hready (tails & (l & Hl & [= <-])%bind_Done_iff & Hm)%bind_Done_iff.
  apply bind_Done_iff in Hm as ([b ps] & Hgc & ([q1 cp1] & Hcp & [= <- _ <-])%bind_Done_iff).
  unfold InnerQueue.checkpoint in Hcp. cbn [InnerQueue.state InnerQueue.set_backend] in Hcp.
  rewrite bool_decide_true in Hcp by done. cbn [InnerQueue.backend InnerQueue.set_backend] in Hcp.
  apply bind_Done_iff in Hcp as ([q2 chans] & ([b2 file2] & Hb2 & (m & Hm & [= <- <-])%bind_Done_iff)%bind_Done_iff & Hw).
  apply bind_Done_iff in Hw as (_ & _ & [= <- <-]). apply bind_Done_iff in Hm as (l2 & Hl2 & [= <-]).
  pose proof (NoDup_fst_map_to_list (InnerQueue.channels q)) as Hnd.
  exists (list_to_map l2). cbn [InnerQueue.channels InnerQueue.set_backend] in Hl2.
  split; [|cbn; by rewrite Hready]. unfold steps, begin, names. rewrite length_fmap.
  replace (2 * length (map_to_list (InnerQueue.channels q)) + 3)%nat
    with (length (map_to_list (InnerQueue.channels q)) + S (S (length (map_to_list (InnerQueue.channels q)) + 1)))%nat by lia.
  rewrite (measure_all q _ l) by (by apply table_entries || done).
  cbn [advance_all advance app].
  rewrite (min_list_perm l.*2 (map_to_list (list_to_map (M:=gmap (list Z) Z) l)).*2).
  2:{ apply fmap_Permutation. symmetry. apply map_to_list_to_map. by rewrite (collect_fst _ _ _ Hl). }
  rewrite Hgc, !bind_Done. cbn [advance_all advance InnerQueue.backend InnerQueue.set_backend]. rewrite Hb2, !bind_Done.
  change (names _) with (map_to_list (InnerQueue.channels q)).*1.
  rewrite (save_all _ _ l2 ∅ 1); [|intros ? ?; apply (table_entries q)|done|exact Hl2].
  cbn [advance_all advance]. rewrite bind_Done, (right_id_L ∅ (∪)). done.
Qed.

End rows.

Section interleaved.
Context `{Profile} {B Msg M : Type} `{BackendOk B Msg} `{!LinkedHashMap Channel.InFlightState M}
  `{!LinkedHashMapOk Channel.InFlightState M} `{Json InnerQueue.QueueCheckpoint}.
Variable os : Os.
Hypothesis Hos : no_faults os.
Implicit Types (q : InnerQueue.t B M) (G : gmap (list Z) ghost) (st : stage).

(** *** The interleaved system *)

(** A queue, what is known of its channels, the running maintenance, and the
    channels of the last [queue.checkpoint] written. *)
Record sys : Type := mkSys {
  queue : InnerQueue.t B M;
  ghosts : gmap (list Z) ghost;
  at_stage : stage;
  file : option saved;
}.

(** What may run between the steps of the maintenance. *)
Definition beside (o : op) st : Prop :=
  match o with
  | Push _ _ | Get _ _ _ | Ack _ _ _ | PurgeChannel _ _ | UpdateChannels _ => True
  | CreateChannel _ _ | DeleteChannel _ => st = Resting
  | Delivery.Maintenance _ | Checkpoint _ => False
  end.

Definition gc_ready q st : Prop :=
  match st with Measuring [] _ clock => be_gc_ready (InnerQueue.backend q) clock | _ => True end.

Inductive step : sys → sys → Prop :=
| step_op o q G q' st w :
    beside o st → admissible os o q → run os o q = Done q' →
    step (mkSys q G st w) (mkSys q' (ghost_step o q G) st w)
| step_begin q G clock w :
    step (mkSys q G Resting w) (mkSys q G (begin q clock) w)
(** [Queue::checkpoint] is the second half *)
| step_begin_checkpoint q G w :
    step (mkSys q G Resting w) (mkSys q G Collected w)
| step_advance q G st w q' st' w' :
    gc_ready q st → advance os q st = Done (q', st', w') →
    step (mkSys q G st w) (mkSys q' G st' (match w' with Some chans => Some chans | None => w end)).

Inductive reachable : sys → Prop :=
| reachable_start q : Delivery.reachable os q ∅ → reachable (mkSys q ∅ Resting None)
| reachable_step x x' : reachable x → step x x' → reachable x'.

(** *** Positions that stay behind

    [settled t g]: every id from the channel's origin to [t] is acknowledged. *)
Definition settled (t : Z) (g : ghost) : Prop := ∀ id, origin g ≤ id < t → id ∈ acked g.

(** [t] was a [real_tail] of the channel some time ago. *)
Definition behind (head t : Z) G (name : list Z) : Prop :=
  t ≤ head ∧ ∀ g, G !! name = Some g → settled t g.

Lemma real_tail_settled start head (c : Channel.t M) g n :
  channel_inv start head c g → Channel.real_tail c = Done n → settled n g ∧ n ≤ head.
Proof.
  intros [Hok Htail _ _ _ Hpassed _ Hfrom] Hn.
  destruct (real_tail_ok c Hok) as (n' & Hn' & Hf & Hr). assert (n' = n) as -> by congruence.
  split; [|lia]. intros id Hid. destruct (Hpassed id) as [?|(e & -> & He)%list_elem_of_fmap]; [lia|done|].
  unfold first_unacked in Hf. destruct (in_flight c) eqn:Hl; [by apply elem_of_nil in He|].
  destruct Hf as [_ Hf]. eapply Forall_forall in Hf; [|exact He]. cbn in *. lia.
Qed.

(** A settled position is not beyond the channel's own. *)
Lemma settled_below start head (c : Channel.t M) g t n :
  channel_inv start head c g → settled t g → Channel.real_tail c = Done n → t ≤ n.
Proof.
  intros Hc Hs Hn. pose proof Hc as [Hok Htail _ _ Horig _ Hacked Hfrom].
  destruct (real_tail_ok c Hok) as (n' & Hn' & Hf & Hr). assert (n' = n) as -> by congruence.
  destruct (Z.le_gt_cases t n) as [|Hlt]; [done|]. exfalso. unfold first_unacked in Hf.
  destruct (in_flight c) as [|e l] eqn:Hl.
  - subst n. destruct (Hacked (Channel.tail c)); [apply Hs; lia|lia].
  - destruct Hf as [(e' & -> & He')%list_elem_of_fmap _]. eapply Forall_forall in Hfrom; [|exact He'].
    destruct (Hacked (entry_id e')) as [_ Hn2]; [apply Hs; cbn in *; lia|].
    apply Hn2. by apply list_elem_of_fmap_2.
Qed.

Lemma ghost_step_behind o q G t head' name :
  behind (be_head (InnerQueue.backend q)) t G name → be_head (InnerQueue.backend q) ≤ head' →
  behind head' t (ghost_step o q G) name.
Proof.
  intros [Ht Hs] Hhd. split; [lia|].
  assert (∀ n g, (n = name → settled t g) → ∀ g', <[n := g]> G !! name = Some g' → settled t g') as Hins.
  { intros n g Hg g'. destruct (decide (n = name)) as [->|Hne].
    - rewrite bytes_insert_eq. intros [= <-]. by apply Hg.
    - rewrite bytes_insert_ne by done. apply Hs. }
  assert (settled t (mkGhost (be_head (InnerQueue.backend q)) ∅)) as Hnew by (intros id ?; cbn in *; lia).
  intros g. destruct o; cbn [ghost_step]; try (by apply Hs).
  - destruct (InnerQueue.channels q !! name0 ≫= _) as [s|]; [|apply Hs].
    intros [(-> & g0 & Hg0 & ->)|[_ Hg]]%lookup_alter_Some; [|by apply Hs].
    intros id Hid. cbn in *. apply elem_of_union_r. by apply (Hs g0).
  - destruct (InnerQueue.channels q !! name0); [apply Hs|]. by apply Hins.
  - intros Hg. apply Hs. destruct (decide (name0 = name)) as [->|Hne]; [by rewrite bytes_delete_eq in Hg|].
    by rewrite bytes_delete_ne in Hg.
  - destruct (InnerQueue.channels q !! name0); [|apply Hs]. by apply Hins.
Qed.

Lemma behind_mono head head' t G name : behind head t G name → head ≤ head' → behind head' t G name.
Proof. intros [Ht Hs] ?. split; [lia|done]. Qed.

(** *** The invariant *)

Definition saved_ok (head : Z) G (chans : saved) : Prop :=
  ∀ name cc, chans !! name = Some cc →
    0 ≤ InnerQueue.cc_tail cc ∧ behind head (InnerQueue.cc_tail cc) G name.

(** Every channel is still to be visited or was. *)
Definition stage_ok q G st : Prop :=
  let head := be_head (InnerQueue.backend q) in
  let table := dom (InnerQueue.channels q) in
  match st with
  | Resting | Collected => True
  | Measuring todo tails _ =>
      list_to_set todo ⊆ table ∧ ∀ name, name ∈ table → name ∈ todo ∨ ∃ t, t ∈ tails ∧ behind head t G name
  | Saving todo chans =>
      list_to_set todo ⊆ table ∧ saved_ok head G chans ∧
      ∀ name, name ∈ table → name ∈ todo ∨ name ∈ dom chans
  end.

Record sys_inv (x : sys) start (ms : list msg) : Prop := {
  mi_queue : queue_inv (queue x) start ms (ghosts x);
  mi_stage : stage_ok (queue x) (ghosts x) (at_stage x);
  mi_file chans : file x = Some chans → saved_ok (be_head (InnerQueue.backend (queue x))) (ghosts x) chans;
}.

Lemma saved_ok_step o q G head' chans :
  saved_ok (be_head (InnerQueue.backend q)) G chans → be_head (InnerQueue.backend q) ≤ head' →
  saved_ok head' (ghost_step o q G) chans.
Proof. intros Hs Hhd name cc Hcc. destruct (Hs _ _ Hcc). split; [done|]. by apply ghost_step_behind. Qed.

Lemma saved_ok_mono head head' G chans : saved_ok head G chans → head ≤ head' → saved_ok head' G chans.
Proof. intros Hs Hhd name cc Hcc. destruct (Hs _ _ Hcc). split; [done|]. by eapply behind_mono. Qed.

(** A client's operation neither shrinks the log nor changes the table. *)
Lemma beside_keeps o q q' st :
  beside o st → run os o q = Done q' → st = Resting ∨ dom (InnerQueue.channels q') = dom (InnerQueue.channels q).
Proof.
  destruct o; cbn [beside run]; intros Hb; try done; try (by left); intros Hr; right.
  - destruct (InnerQueue.push os q body clock) as [[q1 r]| |] eqn:Hp; [|done..]. injection Hr as <-.
    by apply bind_Done_iff in Hp as ([b r'] & _ & [= <- _]).
  - destruct (InnerQueue.get q name clock ticket) as [[q1 r]| |] eqn:Hp; [|done..]. injection Hr as <-.
    by apply with_channel_dom in Hp.
  - destruct (InnerQueue.ack q name ticket clock) as [[q1 r]| |] eqn:Hp; [|done..]. injection Hr as <-.
    by apply with_channel_dom in Hp.
  - destruct (InnerQueue.purge_channel q name clock) as [[q1 r]| |] eqn:Hp; [|done..]. injection Hr as <-.
    by apply with_channel_dom in Hp.
  - destruct (InnerQueue.iter_channels q clock _) as [[q1 r]| |] eqn:Hp; [|done..]. injection Hr as <-.
    apply bind_Done_iff in Hp as (m & Hm%map_values_dom & [= <- _]). exact Hm.
Qed.

Lemma with_channel_backend {R} q name (f : Channel.t M → outcome (Channel.t M * result R InnerQueue.QueueError)) q' r :
  InnerQueue.with_channel q name f = Done (q', r) → InnerQueue.backend q' = InnerQueue.backend q.
Proof.
  unfold InnerQueue.with_channel. destruct (_ !! _) as [c|]; [|by intros [= <- _]].
  by intros ([c' r'] & _ & [= <- _])%bind_Done_iff.
Qed.

(** Only pushes change the backend. *)
Lemma beside_backend o q q' st :
  beside o st → run os o q = Done q' →
  match o with
  | Push body clock => ∃ r, be_push os (InnerQueue.backend q) body clock = Done (InnerQueue.backend q', r)
  | _ => InnerQueue.backend q' = InnerQueue.backend q
  end.
Proof.
  intros Hb. destruct o; cbn [beside run] in *; try done.
  - destruct (InnerQueue.push os q body clock) as [[q1 r]| |] eqn:Hp; [|done..]. intros [= <-].
    apply bind_Done_iff in Hp as ([b r'] & Hp & [= <- _]). by exists r'.
  - destruct (InnerQueue.get q name clock ticket) as [[q1 r]| |] eqn:Hp; [|done..]. intros [= <-].
    by apply with_channel_backend in Hp.
  - destruct (InnerQueue.ack q name ticket clock) as [[q1 r]| |] eqn:Hp; [|done..]. intros [= <-].
    by apply with_channel_backend in Hp.
  - unfold InnerQueue.create_channel. intros [= <-]. by destruct (_ !! _).
  - unfold InnerQueue.delete_channel. intros [= <-]. by destruct (_ !! _).
  - destruct (InnerQueue.purge_channel q name clock) as [[q1 r]| |] eqn:Hp; [|done..]. intros [= <-].
    by apply with_channel_backend in Hp.
  - destruct (InnerQueue.iter_channels q clock _) as [[q1 r]| |] eqn:Hp; [|done..]. intros [= <-].
    by apply bind_Done_iff in Hp as (m & _ & [= <- _]).
Qed.

Lemma beside_head o q q' G st start ms :
  queue_inv q start ms G → beside o st → admissible os o q → run os o q = Done q' →
  be_head (InnerQueue.backend q) ≤ be_head (InnerQueue.backend q').
Proof.
  intros Hq Hb Ha Hr. pose proof (beside_backend _ _ _ _ Hb Hr) as Hbe. destruct o; try (by rewrite Hbe).
  cbn [run admissible] in *. destruct (push_inv os q start ms G body clock Hq Ha) as (q1 & r & Hp & Hres).
  rewrite Hp in Hr. injection Hr as <-. destruct (be_bounds _ _ _ (qi_rep _ _ _ _ Hq)) as (_ & Hh & _).
  destruct r as [id|e]; destruct Hres as [_ Hq1]; destruct (be_bounds _ _ _ (qi_rep _ _ _ _ Hq1)) as (_ & Hh1 & _);
    rewrite ?zlen_app, ?zlen_cons, ?zlen_nil in Hh1; cbn; lia.
Qed.

(** A client's operation between two steps. *)
Lemma op_inv o q G q' st w start ms :
  sys_inv (mkSys q G st w) start ms → beside o st → admissible os o q → run os o q = Done q' →
  ∃ start' ms', sys_inv (mkSys q' (ghost_step o q G) st w) start' ms'.
Proof.
  intros [Hq Hst Hf] Hb Ha Hr. cbn in *. pose proof (beside_head _ _ _ _ _ _ _ Hq Hb Ha Hr) as Hhd.
  destruct (run_inv os Hos o q start ms G Hq Ha) as (q2 & start' & ms' & Hr' & Hq').
  assert (q2 = q') as -> by congruence. exists start', ms'. constructor; cbn; [done| |].
  - destruct (beside_keeps _ _ _ _ Hb Hr) as [->|Hd]; [done|]. destruct st as [|todo tails clock| |todo chans]; try done.
    + destruct Hst as [Ht Hall]. cbn. rewrite Hd. split; [done|]. intros name Hn.
      destruct (Hall _ Hn) as [?|(t & Hin & Hbh)]; [by left|right]. exists t. split; [done|]. by apply ghost_step_behind.
    + destruct Hst as (Ht & Hs & Hall). cbn. rewrite Hd. split_and!; [done| |done]. by apply saved_ok_step.
  - intros chans Hw. apply saved_ok_step; [by apply Hf|done].
Qed.

(** The tails measured a while ago still bound what is needed. *)
Lemma measured_below q G start ms tails :
  queue_inv q start ms G →
  (∀ name, name ∈ dom (InnerQueue.channels q) →
    ∃ t, t ∈ tails ∧ behind (be_head (InnerQueue.backend q)) t G name) →
  ∀ name c n, InnerQueue.channels q !! name = Some c → Channel.real_tail c = Done n →
    default 0 (min_list tails) ≤ n.
Proof.
  intros Hq Hall name c n Hc Hn. destruct (Hall name) as (t & Ht & _ & Hs); [by eapply elem_of_dom_2|].
  destruct (queue_inv_chan _ _ _ _ _ _ Hq Hc) as (g & Hg & Hci).
  pose proof (settled_below _ _ _ _ _ _ Hci (Hs _ Hg) Hn).
  destruct tails as [|x l]; [by apply elem_of_nil in Ht|]. pose proof (foldr_min x l t Ht). cbn. lia.
Qed.

Lemma names_elem q name : name ∈ names q ↔ name ∈ dom (InnerQueue.channels q).
Proof.
  unfold names. rewrite list_elem_of_fmap, elem_of_dom. split.
  - intros ([n c] & -> & Hin%elem_of_map_to_list). by exists c.
  - intros [c Hc]. exists (name, c). split; [done|]. by apply elem_of_map_to_list.
Qed.

(** A step of the maintenance goes through and keeps the invariant. *)
Lemma maintenance_advance_inv q G st w start ms :
  sys_inv (mkSys q G st w) start ms → gc_ready q st →
  ∃ q' st' w' start' ms', advance os q st = Done (q', st', w') ∧
    sys_inv (mkSys q' G st' (match w' with Some chans => Some chans | None => w end)) start' ms'.
Proof.
  intros [Hq Hst Hf] Hgc. cbn in *. destruct st as [|[|name todo] tails clock| |[|name todo] chans]; cbn [advance] in *.
  - by eexists _, _, _, start, ms.
  - destruct Hst as [_ Hall].
    destruct (gc_inv q start ms G (default 0 (min_list tails)) clock Hq Hgc) as (b' & paths & start' & Hb & Hq' & _ & Hhd).
    { eapply measured_below; [exact Hq|]. intros name Hn. by destruct (Hall name Hn) as [[]%elem_of_nil|?]. }
    rewrite Hb, bind_Done. eexists _, _, _, start', _. split; [done|]. constructor; cbn; [done|done|].
    intros chans Hw. eapply saved_ok_mono; [by apply Hf|done].
  - destruct Hst as [Ht Hall]. assert (name ∈ dom (InnerQueue.channels q)) as [c Hc]%elem_of_dom by (apply Ht; set_solver).
    destruct (queue_inv_chan _ _ _ _ _ _ Hq Hc) as (g & Hg & Hci).
    destruct (real_tail_ok c (ci_ok _ _ _ _ Hci)) as (n & Hn & _).
    destruct (real_tail_settled _ _ _ _ _ Hci Hn) as [Hs Hle].
    rewrite Hc. cbn [unwrap]. rewrite bind_Done, Hn, bind_Done. eexists _, _, _, start, ms. split; [done|].
    constructor; cbn; [done| |done]. split; [set_solver|]. intros name' Hn'.
    destruct (decide (name' = name)) as [->|Hne].
    { right. exists n. split; [set_solver|]. split; [done|]. intros g' Hg'. by rewrite Hg in Hg'; injection Hg' as <-. }
    destruct (Hall _ Hn') as [?|(t & ? & ?)]; [left; set_solver|right; exists t; set_solver].
  - destruct (backend_checkpoint_inv os Hos _ _ _ _ false Hq) as (b' & file & Hcp & Hq' & Hhd).
    rewrite Hcp, bind_Done. eexists _, _, _, start, ms. split; [done|]. constructor; cbn; [done| |].
    + split_and!; [|by intros ? ?; rewrite lookup_empty|].
      * intros n. rewrite elem_of_list_to_set. apply names_elem.
      * intros n Hn. left. by apply names_elem.
    + rewrite Hhd. exact Hf.
  - eexists _, _, _, start, ms. split; [done|]. constructor; cbn; [done|done|]. intros chans' [= <-].
    apply Hst.
  - destruct Hst as (Ht & Hs & Hall). assert (name ∈ dom (InnerQueue.channels q)) as [c Hc]%elem_of_dom by (apply Ht; set_solver).
    destruct (queue_inv_chan _ _ _ _ _ _ Hq Hc) as (g & Hg & Hci).
    destruct (real_tail_ok c (ci_ok _ _ _ _ Hci)) as (n & Hn & _ & Hr).
    destruct (real_tail_settled _ _ _ _ _ Hci Hn) as [Hsn Hle].
    rewrite Hc. cbn [unwrap]. rewrite bind_Done. unfold save_channel. rewrite Hn, !bind_Done. eexists _, _, _, start, ms.
    split; [done|]. constructor; cbn; [done| |done]. split_and!; [set_solver| |].
    + intros name' cc. destruct (decide (name = name')) as [<-|Hne].
      * rewrite bytes_insert_eq. intros [= <-]. split; [cbn; lia|]. split; [done|].
        intros g' Hg'. by rewrite Hg in Hg'; injection Hg' as <-.
      * rewrite bytes_insert_ne by done. apply Hs.
    + intros name' Hn'. rewrite dom_insert, elem_of_union, elem_of_singleton.
      destruct (Hall _ Hn') as [Hin|?]; [|by right; right]. apply elem_of_cons in Hin as [->|?]; [right; by left|by left].
Qed.

Lemma maintenance_step_inv x x' start ms :
  sys_inv x start ms → step x x' → ∃ start' ms', sys_inv x' start' ms'.
Proof.
  intros Hx Hst. destruct Hst as [o q G q' st w Hb Ha Hr|q G clock w|q G w|q G st w q' st' w' Hgc Ha].
  - by eapply op_inv.
  - destruct Hx as [Hq _ Hf]. exists start, ms. constructor; [done| |done]. cbn. split.
    + intros n. rewrite elem_of_list_to_set. apply names_elem.
    + intros n Hn. left. by apply names_elem.
  - destruct Hx as [Hq _ Hf]. by exists start, ms.
  - destruct (maintenance_advance_inv _ _ _ _ _ _ Hx Hgc) as (q2 & st2 & w2 & start' & ms' & Ha' & Hx').
    rewrite Ha in Ha'. injection Ha' as <- <- <-. by exists start', ms'.
Qed.

Lemma reachable_maintenance_inv x : reachable x → ∃ start ms, sys_inv x start ms.
Proof.
  induction 1 as [q Hq|x x' _ (start & ms & Hx) Hst]; [|by eapply maintenance_step_inv].
  apply (Delivery.reachable_inv os Hos) in Hq as (start & ms & Hq). by exists start, ms.
Qed.

(** ** Theorems *)

(** The maintenance never panics, whatever clients do between its steps:
    every step of it goes through in every reachable state. *)
Theorem maintenance_total x :
  reachable x → gc_ready (queue x) (at_stage x) →
  ∃ q' st' w', advance os (queue x) (at_stage x) = Done (q', st', w').
Proof.
  intros (start & ms & Hx)%reachable_maintenance_inv Hgc. destruct x as [q G st w].
  destruct (maintenance_advance_inv _ _ _ _ _ _ Hx Hgc) as (q' & st' & w' & _ & _ & Ha & _). by exists q', st', w'.
Qed.

Context `{!JsonOk InnerQueue.QueueCheckpoint}.

(** What the checkpoint file gives back of a channel. *)
Lemma restarted_saved q (b2 : B) (chans : saved) name cc :
  chans !! name = Some cc →
  InnerQueue.channels (restarted q b2 (json_encode (InnerQueue.mkQueueCheckpoint InnerQueue.Ready chans))) !! name =
    Some (Channel.fresh (InnerQueue.cc_last_touched cc) (InnerQueue.cc_tail cc)).
Proof.
  intros Hcc. unfold restarted, InnerQueue.recover. cbn [mbind option_bind]. rewrite json_roundtrip. cbn.
  rewrite lookup_union_l by apply lookup_empty. by rewrite lookup_fmap, Hcc.
Qed.

Lemma restarted_backend q (b2 : B) (chans : saved) :
  let q2 := restarted q b2 (json_encode (InnerQueue.mkQueueCheckpoint InnerQueue.Ready chans)) in
  InnerQueue.backend q2 = b2 ∧ InnerQueue.config q2 = InnerQueue.config q.
Proof. unfold restarted, InnerQueue.recover. cbn [mbind option_bind]. by rewrite json_roundtrip. Qed.

(** A position from the checkpoint that is not beyond the message, on a log
    that has it: the message is read. *)
Lemma restarted_reads q (b2 : B) (chans : saved) name cc start2 ms2 id x clock tickets :
  chans !! name = Some cc → 0 ≤ InnerQueue.cc_tail cc ≤ id → be_rep b2 start2 ms2 → entry start2 ms2 id = Some (id, x) →
  0 < Config.message_timeout (InnerQueue.config q) → 0 < clock + Config.message_timeout (InnerQueue.config q) < 2 ^ 32 →
  NoDup tickets → id - Z.max (InnerQueue.cc_tail cc) start2 < zlen tickets →
  ∃ q' l t m,
    get_all (restarted q b2 (json_encode (InnerQueue.mkQueueCheckpoint InnerQueue.Ready chans))) name clock tickets
      = Done (q', l) ∧ (t, m) ∈ l ∧ be_msg m id x.
Proof.
  intros Hcc Hpos Hb Hx Ht Hexp Hnd Hn. destruct (restarted_backend q b2 chans) as [Hb2 Hcfg].
  rewrite <-Hb2 in Hb. rewrite <-Hcfg in Ht, Hexp.
  eapply (get_all_reaches _ _ _ _ _ start2 ms2); [by apply restarted_saved|exact Hb| |done|done|exact Hx|cbn; lia|done].
  split_and!; [apply fresh_ok; lia| |done|].
  - unfold in_flight. cbn. by rewrite lm_iter_default.
  - apply Forall_forall. intros t _ Hin. by apply elem_of_nil in Hin.
Qed.

(** C7: A maintenance beside the clients loses nothing and saves no position
    too far. At every moment of it, a message that a channel has not
    acknowledged is in the log, and in flight or unread, although garbage is
    collected with positions measured earlier; and no position that the last
    [queue.checkpoint] holds, each saved at its own moment, is beyond it. So
    when a queue is opened with that file, on whatever log, and the log has
    the message, a consumer that keeps asking is given it: of any run of
    [get]s with new tickets, before the first of them times out and long
    enough to cover the ids from the position to the message, one returns
    it. (What the log still has after a crash is [crash_delivers].) *)
Theorem checkpoint_rereads x name c :
  reachable x → InnerQueue.channels (queue x) !! name = Some c →
  ∃ start ms g, be_rep (InnerQueue.backend (queue x)) start ms ∧ ghosts x !! name = Some g ∧
    ∀ id, origin g ≤ id < be_head (InnerQueue.backend (queue x)) → id ∉ acked g →
      (id ∈ entry_id <$> in_flight c ∨ Channel.tail c ≤ id) ∧ (∃ m, entry start ms id = Some (id, m)) ∧
      ∀ chans cc, file x = Some chans → chans !! name = Some cc → InnerQueue.cc_tail cc ≤ id ∧
        ∀ b2 start2 ms2 body clock tickets,
          be_rep b2 start2 ms2 → entry start2 ms2 id = Some (id, body) →
          0 < Config.message_timeout (InnerQueue.config (queue x)) →
          0 < clock + Config.message_timeout (InnerQueue.config (queue x)) < 2 ^ 32 →
          NoDup tickets → id - Z.max (InnerQueue.cc_tail cc) start2 < zlen tickets →
          ∃ q2 l t m,
            get_all (restarted (queue x) b2 (json_encode (InnerQueue.mkQueueCheckpoint InnerQueue.Ready chans)))
              name clock tickets = Done (q2, l) ∧ (t, m) ∈ l ∧ be_msg m id body.
Proof.
  intros (start & ms & Hx)%reachable_maintenance_inv Hc. destruct Hx as [Hq _ Hf].
  destruct (queue_inv_chan _ _ _ _ _ _ Hq Hc) as (g & Hg & Hci).
  destruct (unacked_stored _ _ _ _ Hci) as (n & Hn & Hall).
  destruct (be_bounds _ _ _ (qi_rep _ _ _ _ Hq)) as (_ & Hhd & _).
  exists start, ms, g. split_and!; [apply (qi_rep _ _ _ _ Hq)|done|]. intros id Hid Hna.
  destruct (Hall id) as (Hle & Hin & Hst); [lia|done|]. split_and!; [done| |].
  { destruct (entry_stored start ms id) as (m & Hm & _); [lia|]. by exists m. }
  intros chans cc Hw Hcc. destruct (Hf _ Hw _ _ Hcc) as [Hpos [_ Hs]].
  pose proof (settled_below _ _ _ _ _ _ Hci (Hs _ Hg) Hn) as Hsaved. split; [lia|].
  intros b2 start2 ms2 body clock tickets Hb2 Hx2 Ht Hexp Hnd Htk. eapply restarted_reads; try done. lia.
Qed.

End interleaved.
End Maintenance.
