(* ===== verification/Crashes.v ===== *)
(** * A queue that crashes

    The transition system of [Maintenance.v] over the backend of
    [Backend.v], with the files on disk: the data files are the mappings of
    the segments as they are, [backend.checkpoint] is what the last
    checkpoint of the backend wrote and [queue.checkpoint] what the last
    checkpoint of the channels did. The process may die at any moment, also
    between the two, and the queue is opened again from these files. It is
    the process that dies and not the machine: the kernel keeps what was
    written through the mappings, synced or not. *)
From S2P Require Import Prelude.
From S2P Require Import Heaps.
From S2P Require Import Settings.
From S2P Require Import Segments.
From S2P Require Import SegmentSpec.
From S2P Require Import SegmentFacts.
From S2P Require Import Backend.
From S2P Require Import LogSpec.
From S2P Require Import BackendFacts.
From S2P Require Import Retention.
From S2P Require Import BackendRecovery.
From S2P Require Import CrashRecovery.
From S2P Require Import Channels.
From S2P Require Import ChannelFacts.
From S2P Require Import Queues.
From S2P Require Import QueueFacts.
From S2P Require Import Delivery.
From S2P Require Import Rereading.
From S2P Require Import Opening.
From S2P Require Import Maintenance.

Module Crashes.
Import Maintenance Rereading Opening.

Section crashes.
Context `{Profile} `{Hasher} `{!Json QueueBackend.checkpoint_t} `{!JsonOk QueueBackend.checkpoint_t} {M : Type}
  `{!LinkedHashMap Channel.InFlightState M} `{!LinkedHashMapOk Channel.InFlightState M}
  `{!Json InnerQueue.QueueCheckpoint} `{!JsonOk InnerQueue.QueueCheckpoint}.
Variable os : Os.
Hypothesis Hos : no_faults os.

Abbreviation queue_t := (InnerQueue.t QueueBackend.t M).
Abbreviation system := (Maintenance.sys (B:=QueueBackend.t) (M:=M)).
Implicit Types (q : queue_t) (x : system) (b : QueueBackend.t).

(** [backend_file] is [backend.checkpoint]; [listed] is the backend whose
    segments it lists. *)
Record disk : Type := mkDisk {
  listed : QueueBackend.t;
  backend_file : list Z;
}.

(** The step of the maintenance that checkpoints the backend writes it. *)
Definition flush x x' (d : disk) : disk :=
  match at_stage x, at_stage x' with
  | Collected, Saving _ _ =>
      match QueueBackend.checkpoint os true (InnerQueue.backend (queue x)) false with
      | Done (b, file) => mkDisk b file
      | _ => d
      end
  | _, _ => d
  end.

Lemma flush_same x x' d : at_stage x = at_stage x' → flush x x' d = d.
Proof. unfold flush. intros <-. by destruct (at_stage x). Qed.

(** A new queue writes both files ([InnerQueue::new]). *)
Inductive reachable : system → disk → Prop :=
| reachable_new cfg q b cpf :
    Config.hard_retention_period cfg = 0 → Config.hard_retention_size cfg = 0 →
    InnerQueue.new os true cfg (QueueBackend.mk cfg [] 1 1) None false = Done q →
    QueueBackend.checkpoint os true (QueueBackend.mk cfg [] 1 1) false = Done (b, cpf) →
    reachable (mkSys q ∅ Resting (Some ∅)) (mkDisk b cpf)
| reachable_on x d x' : reachable x d → step os x x' → reachable x' (flush x x' d).

(** There is always a [queue.checkpoint]. *)
Lemma reachable_file x d : reachable x d → is_Some (file x).
Proof.
  induction 1 as [|x d x' _ IH Hst]; [by eexists|].
  destruct Hst as [o q G q' st w _ _ _|q G clock w|q G w|q G st w q' st' w' _ _]; try exact IH. by destruct w'.
Qed.

(** ** The backend since its checkpoint *)

Definition durable (d : disk) b : Prop :=
  ∃ b0 start ms full, backend_rep b0 start ms ∧ QueueBackend.tail b0 = start ∧
    named (QueueBackend.config b0) (QueueBackend.segments b0) ∧ closed_full (QueueBackend.segments b0) ∧
    QueueBackend.checkpoint os true b0 full = Done (listed d, backend_file d) ∧ later (listed d) b.

Lemma durable_grown d b :
  durable d b → named (QueueBackend.config b) (QueueBackend.segments b) ∧ closed_full (QueueBackend.segments b).
Proof.
  intros (b0 & start & ms & full & Hb0 & Ht & Hn & Hf & Hcp & Hl).
  destruct (checkpoint_keeps _ _ _ _ _ _ _ Hb0 Ht Hos Hcp) as (Hrep & Hcfg & _ & _ & Hsync).
  destruct (later_grown _ _ _ _ Hrep (closed_full_synced _ _ Hsync Hf) Hl) as (start' & ms' & k & l & Hgr).
  split; [|by destruct Hgr]. eapply grown_named; [exact Hgr|]. rewrite Hcfg. by eapply named_synced.
Qed.

Lemma durable_here b start ms full b' file :
  backend_rep b start ms → QueueBackend.tail b = start →
  named (QueueBackend.config b) (QueueBackend.segments b) → closed_full (QueueBackend.segments b) →
  QueueBackend.checkpoint os true b full = Done (b', file) → durable (mkDisk b' file) b'.
Proof. intros. exists b, start, ms, full. by split_and!; [..|constructor]. Qed.

Lemma durable_act d b a b' : durable d b → act_ok a b → run_act a b = Done b' → durable d b'.
Proof.
  intros (b0 & start & ms & full & Hb0 & Ht & Hn & Hf & Hcp & Hl) Ha Hr.
  exists b0, start, ms, full. split_and!; try done. by eapply later_act.
Qed.

(** ** The invariant *)

Definition crash_inv x d : Prop :=
  (∃ start ms, sys_inv x start ms) ∧ durable d (InnerQueue.backend (queue x)).

Lemma op_durable d o q q' st :
  beside o st → admissible os o q → run os o q = Done q' →
  durable d (InnerQueue.backend q) → durable d (InnerQueue.backend q').
Proof.
  intros Hb Ha Hr Hd. pose proof (beside_backend _ _ _ _ _ Hb Hr) as Hbe. destruct o; try (by rewrite Hbe).
  destruct Hbe as [r Hp]. eapply (durable_act d _ (Append os (clock, body))); [exact Hd|exact Ha|].
  cbn [run_act be_push backend_ops fst snd] in *. by rewrite Hp.
Qed.

Lemma advance_durable d q st q' st' w start ms :
  be_rep (InnerQueue.backend q) start ms → gc_ready q st → advance os q st = Done (q', st', w) →
  durable d (InnerQueue.backend q) →
  durable (flush (mkSys q ∅ st None) (mkSys q' ∅ st' None) d) (InnerQueue.backend q').
Proof.
  intros [Hrep Ht] Hgc Ha Hd. destruct st as [|[|name todo] tails clock| |[|name todo] chans]; cbn [advance] in Ha.
  - by injection Ha as <- <- _.
  - apply bind_Done_iff in Ha as ([b paths] & Hb & [= <- <- _]).
    eapply (durable_act d _ (Collect (default 0 (min_list tails)) clock)); [exact Hd|exact Hgc|].
    cbn [run_act be_gc backend_ops] in *. by rewrite Hb.
  - apply bind_Done_iff in Ha as (c & _ & (n & _ & [= <- <- _])%bind_Done_iff). exact Hd.
  - apply bind_Done_iff in Ha as ([b file] & Hb & [= <- <- _]). cbn [be_checkpoint backend_ops] in Hb.
    unfold flush. cbn [at_stage queue]. rewrite Hb. destruct (durable_grown _ _ Hd). by eapply durable_here.
  - by injection Ha as <- <- _.
  - apply bind_Done_iff in Ha as (c & _ & (cc & _ & [= <- <- _])%bind_Done_iff). exact Hd.
Qed.

Lemma new_crash_inv cfg q b cpf :
  Config.hard_retention_period cfg = 0 → Config.hard_retention_size cfg = 0 →
  InnerQueue.new os true cfg (QueueBackend.mk cfg [] 1 1) None false = Done q →
  QueueBackend.checkpoint os true (QueueBackend.mk cfg [] 1 1) false = Done (b, cpf) →
  crash_inv (mkSys q ∅ Resting (Some ∅)) (mkDisk b cpf).
Proof.
  intros Hp Hs Hnew Hcp. set (b0 := QueueBackend.mk cfg [] 1 1) in *.
  assert (backend_rep b0 1 []) as Hb0 by (constructor; try done; cbn; try lia; constructor).
  assert (queue_inv (InnerQueue.mk (M:=M) cfg b0 ∅ InnerQueue.Ready) 1 [] ∅) as Hq0 by by constructor.
  destruct (checkpoint_inv os Hos _ _ _ _ false Hq0) as (q1 & chans & Hc1 & Hq1 & _).
  unfold InnerQueue.new in Hnew. rewrite Hc1, bind_Done in Hnew. injection Hnew as <-.
  assert (InnerQueue.backend q1 = b) as Hb.
  { unfold InnerQueue.checkpoint in Hc1. cbn [InnerQueue.state InnerQueue.backend] in Hc1.
    rewrite bool_decide_true in Hc1 by done. cbn [be_checkpoint backend_ops] in Hc1. rewrite Hcp, bind_Done in Hc1.
    apply bind_Done_iff in Hc1 as ([q2 m] & (m' & _ & [= <- _])%bind_Done_iff & (u & _ & [= <- _])%bind_Done_iff). done. }
  split.
  - exists 1, []. constructor; [done|done|]. intros chans' [= <-] name cc. by rewrite lookup_empty.
  - cbn [queue]. rewrite Hb. eapply durable_here; [exact Hb0|done|by constructor|by constructor|exact Hcp].
Qed.

Lemma reachable_crash_inv x d : reachable x d → crash_inv x d.
Proof.
  induction 1 as [cfg q b cpf Hp Hs Hnew Hcp|x d x' _ [(start & ms & Hx) Hd] Hst]; [by eapply new_crash_inv|].
  split; [by eapply maintenance_step_inv|].
  destruct Hst as [o q G q' st w Hb Ha Hr|q G clock w|q G w|q G st w q' st' w' Hgc Ha]; try exact Hd.
  - unfold flush. cbn [at_stage queue] in *. assert (durable d (InnerQueue.backend q')) by by eapply op_durable.
    by destruct st.
  - eapply advance_durable; [apply (qi_rep _ _ _ _ (mi_queue _ _ _ Hx))|exact Hgc|exact Ha|exact Hd].
Qed.

(** ** Opening the queue again *)

Lemma start_of_segments b start ms start' ms' :
  backend_rep b start ms → backend_rep b start' ms' → QueueBackend.segments b ≠ [] → start' = start.
Proof.
  intros [Hc _ _ _ _] [Hc' _ _ _ _] Hne. apply chain_first in Hc, Hc'. by destruct (QueueBackend.segments b); [|congruence].
Qed.

(** What is read again by a channel that was saved some time ago. *)
Lemma saved_reads_again x start ms chans name c cc id :
  sys_inv x start ms → file x = Some chans → InnerQueue.channels (queue x) !! name = Some c → chans !! name = Some cc →
  ∃ g, ghosts x !! name = Some g ∧
    (origin g ≤ id → id ∉ acked g → InnerQueue.cc_tail cc ≤ id ∧ start ≤ id).
Proof.
  intros [Hq _ Hf] Hw Hc Hcc. destruct (queue_inv_chan _ _ _ _ _ _ Hq Hc) as (g & Hg & Hci).
  exists g. split; [done|]. intros Ho Hna. destruct (Hf _ Hw _ _ Hcc) as [_ [_ Hs]]. specialize (Hs _ Hg).
  destruct (unacked_stored _ _ _ _ Hci) as (n & _ & Hall). destruct (Hall id Ho Hna) as (_ & _ & Hst).
  split; [|done]. destruct (Z.le_gt_cases (InnerQueue.cc_tail cc) id) as [|Hlt]; [done|]. exfalso. apply Hna, Hs. lia.
Qed.

(** What [q3], opened after a crash of [x], delivers. The segments at the
    crash are those that the last backend checkpoint lists and that are still
    there, [kept], and those added since, [new], whose messages are lost. If
    none is kept (they were collected), the queue starts again with an empty
    log at id 1. Otherwise its log is that of [kept], a prefix of the log at
    the crash that goes at least to the head at the checkpoint, and every
    message in it that a saved channel has not acknowledged is not below the
    channel's position and is read again. *)
Definition delivered_again x (d : disk) (chans : saved) (q3 : queue_t) : Prop :=
  let b := InnerQueue.backend (queue x) in
  let b3 := InnerQueue.backend q3 in
  ∃ kept new, QueueBackend.segments b = kept ++ new ∧
    labels kept `suffix_of` labels (QueueBackend.segments (listed d)) ∧
    Forall (λ s, QueueBackend.head (listed d) ≤ Segment.tail s) new ∧
    match kept with
    | [] => b3 = QueueBackend.mk (QueueBackend.config b) [] 1 1
    | _ => ∃ start ms n, backend_rep b start ms ∧ backend_rep b3 start (take n ms) ∧
        QueueBackend.head (listed d) ≤ QueueBackend.head b3 ∧
        QueueBackend.head b3 = match new with s :: _ => Segment.tail s | [] => QueueBackend.head b end ∧
        ∀ name c cc, InnerQueue.channels (queue x) !! name = Some c → chans !! name = Some cc →
          ∃ g c3, ghosts x !! name = Some g ∧ InnerQueue.channels q3 !! name = Some c3 ∧ idle cc c3 ∧
            ∀ id, origin g ≤ id < QueueBackend.head b3 → id ∉ acked g →
              Channel.tail c3 ≤ id ∧ ∃ m, entry start (take n ms) id = Some (id, m) ∧ will_read q3 name id m
    end.

(** What is known of a channel that starts again at [t], which it was saved
    with some time ago; it may have been created again since. *)
Definition reread (t : Z) (g : option ghost) : ghost :=
  match g with
  | Some g => if decide (origin g ≤ t) then mkGhost (origin g) (filter (λ id, id < t) (acked g)) else mkGhost t ∅
  | None => mkGhost t ∅
  end.

Definition reread_all (chans : saved) (G : gmap (list Z) ghost) : gmap (list Z) ghost :=
  map_imap (λ name cc, Some (reread (InnerQueue.cc_tail cc) (G !! name))) chans.

(** No saved position is outside of the log that was found. *)
Definition within b (chans : saved) : Prop :=
  ∀ name cc, chans !! name = Some cc → QueueBackend.tail b ≤ InnerQueue.cc_tail cc ≤ QueueBackend.head b.

Lemma reread_channel_inv start head cc (c : Channel.t M) (g : option ghost) :
  0 ≤ start → start ≤ InnerQueue.cc_tail cc ≤ head → idle cc c →
  (∀ g0, g = Some g0 → settled (InnerQueue.cc_tail cc) g0) →
  channel_inv start head c (reread (InnerQueue.cc_tail cc) g).
Proof.
  intros Hst Hb Hidle Hs. pose proof (idle_ok cc c ltac:(lia) Hidle) as Hok.
  destruct Hidle as (Ht & _ & _ & _ & Hi).
  assert (origin (reread (InnerQueue.cc_tail cc) g) ≤ InnerQueue.cc_tail cc ∧
    (∀ id, origin (reread (InnerQueue.cc_tail cc) g) ≤ id < InnerQueue.cc_tail cc → id ∈ acked (reread (InnerQueue.cc_tail cc) g)) ∧
    ∀ id, id ∈ acked (reread (InnerQueue.cc_tail cc) g) → id < InnerQueue.cc_tail cc) as (Ho & Hpass & Hack).
  { destruct g as [g|]; cbn [reread]; [case_decide as Hd|]; cbn; split_and!; try lia; set_solver. }
  constructor; rewrite ?Ht, ?Hi; try done.
  - intros id Hid. left. by apply Hpass.
  - intros id Hid%Hack. split; [done|]. apply not_elem_of_nil.
Qed.

Lemma backend_new_config (os' : Z → Os) files file cfg r b :
  QueueBackend.new os' files file cfg r = Done b → QueueBackend.config b = cfg.
Proof.
  unfold QueueBackend.new, QueueBackend.recover. destruct r; [|by intros [= <-]].
  destruct (file ≫= json_decode); [|by intros [= <-]]. by intros (segs & _ & [= <-])%bind_Done_iff.
Qed.

(** Where all positions are within the log, the queue goes on under the
    invariant of [Delivery.v]. *)
Lemma reread_queue_inv x (start0 : Z) (ms0 : list msg) (start : Z) (ms : list msg) (chans : saved) (q3 : queue_t) :
  sys_inv x start0 ms0 → file x = Some chans → be_rep (InnerQueue.backend q3) start ms →
  QueueBackend.config (InnerQueue.backend q3) = QueueBackend.config (InnerQueue.backend (queue x)) →
  InnerQueue.config q3 = QueueBackend.config (InnerQueue.backend (queue x)) → InnerQueue.state q3 = InnerQueue.Ready →
  restored chans (InnerQueue.channels q3) → within (InnerQueue.backend q3) chans →
  queue_inv q3 start ms (reread_all chans (ghosts x)).
Proof.
  intros [Hq _ Hf] Hw Hrep Hc Hc3 Hst Hch Hin. destruct (be_bounds _ _ _ Hrep) as (H1 & _ & _).
  pose proof (qi_config _ _ _ _ Hq) as Hcfg. cbn [be_config] in Hcfg.
  constructor; [done|cbn; congruence|..|done|].
  - rewrite Hc3. cbn in Hcfg. rewrite Hcfg. apply (qi_period _ _ _ _ Hq).
  - rewrite Hc3. cbn in Hcfg. rewrite Hcfg. apply (qi_size _ _ _ _ Hq).
  - intros name c3 Hc3'. specialize (Hch name). destruct (chans !! name) as [cc|] eqn:Hcc; [|congruence].
    destruct Hch as (c & Hc' & Hi). assert (c = c3) as -> by congruence.
    exists (reread (InnerQueue.cc_tail cc) (ghosts x !! name)). split; [by unfold reread_all; rewrite map_lookup_imap, Hcc|].
    destruct (Hin _ _ Hcc). destruct Hrep as [_ Ht]. cbn [be_head backend_ops].
    apply reread_channel_inv; [lia|lia|done|]. intros g Hg. destruct (Hf _ Hw _ _ Hcc) as [_ [_ Hs]]. by apply Hs.
Qed.

Lemma crash_reads_again x (d : disk) (os' : Z → Os) (chans : saved) :
  reachable x d → (∀ id, no_faults (os' id)) → Forall spare (QueueBackend.segments (InnerQueue.backend (queue x))) →
  file x = Some chans →
  ∃ b3, QueueBackend.new os' (QueueBackend.segment_files (InnerQueue.backend (queue x))) (Some (backend_file d))
      (QueueBackend.config (InnerQueue.backend (queue x))) true = Done b3 ∧
    ∀ q3 : queue_t, InnerQueue.backend q3 = b3 → restored chans (InnerQueue.channels q3) →
      delivered_again x d chans q3 ∧
      (InnerQueue.config q3 = QueueBackend.config (InnerQueue.backend (queue x)) → InnerQueue.state q3 = InnerQueue.Ready →
       within b3 chans → ∃ start ms, queue_inv q3 start ms (reread_all chans (ghosts x))).
Proof.
  intros [(start0 & ms0 & Hx) (b0 & start & ms & full & Hb0 & Ht & Hn & Hf & Hcp & Hl)]%reachable_crash_inv Hos' Hsp Hw.
  destruct (checkpoint_keeps _ _ _ _ _ _ _ Hb0 Ht Hos Hcp) as (Hrep1 & _ & _ & Hhd1 & Hsync).
  destruct (later_grown _ _ _ _ Hrep1 (closed_full_synced _ _ Hsync Hf) Hl) as (? & ? & ? & ? & Hgr).
  destruct (crash_reopens os os' b0 start ms full _ _ _ Hb0 Ht Hn Hf Hos Hos' Hcp Hl Hsp)
    as (start2 & ms2 & kept & new & b3 & Hrep2 & Hseg & Hlab & Hnew & Hopen & Hres).
  assert (QueueBackend.config b0 = QueueBackend.config (InnerQueue.backend (queue x))) as Hcfg
    by (destruct (checkpoint_keeps _ _ _ _ _ _ _ Hb0 Ht Hos Hcp) as (_ & ? & _); destruct Hgr; congruence).
  rewrite Hcfg in Hopen, Hres. exists b3. split; [done|]. intros q3 <- Hch. split.
  2:{ intros Hc3 Hst3 Hin. assert (∃ start3 ms3, be_rep (InnerQueue.backend q3) start3 ms3) as (start3 & ms3 & Hrep3).
    { destruct kept; [|destruct Hres as (n & ? & ? & _); by exists start2, (take n ms2)].
      exists 1, []. rewrite Hres. split; [|done]. constructor; try done; cbn; try lia; constructor. }
    exists start3, ms3. eapply reread_queue_inv; [exact Hx|exact Hw|exact Hrep3|by eapply backend_new_config|done..]. }
  exists kept, new. split; [done|]. split; [by rewrite (labels_synced _ _ Hsync)|]. split; [by rewrite Hhd1|]. destruct kept as [|s0 kept]; [done|].
  destruct Hres as (n & Hrep3 & Htail3 & Hhd3 & Hle & Hend). exists start2, ms2, n.
  split_and!; [done|done|by rewrite Hhd1|done|]. intros name c cc Hc Hcc.
  assert (start2 = start0) as ->.
  { destruct (qi_rep _ _ _ _ (mi_queue _ _ _ Hx)) as [Hrep0 _].
    eapply (start_of_segments _ _ _ _ _ Hrep0 Hrep2). by rewrite Hseg. }
  destruct (queue_inv_chan _ _ _ _ _ _ (mi_queue _ _ _ Hx) Hc) as (g & Hg & _).
  specialize (Hch name). rewrite Hcc in Hch. destruct Hch as (c3 & Hc3 & Hi).
  exists g, c3. split_and!; [done..|]. intros id Hid Hna.
  destruct (saved_reads_again _ _ _ _ _ _ _ id Hx Hw Hc Hcc) as (g' & Hg' & Hrd). rewrite Hg in Hg'. injection Hg' as <-.
  destruct Hrd as [Htl Hst]; [lia|done|]. pose proof Hi as (Hct & _ & _ & Hheap & Hfl). rewrite Hct. split; [done|].
  pose proof (backend_rep_next _ _ _ Hrep3) as Hnx. destruct (entry_stored start0 (take n ms2) id) as (m & Hm & _); [lia|].
  exists m. split; [done|]. destruct (mi_file _ _ _ Hx _ Hw _ _ Hcc) as [Hpos _].
  eapply (will_read_from q3 name c3); [done|split; [exact Hrep3|exact Htail3]|by eapply idle_ok|done|done|exact Hm|by rewrite Hct].
Qed.

(** ** Theorem *)

(** C8: The process dies at any moment of a queue's life, during a
    maintenance or not, with at least a byte left over in every segment (one
    that is filled exactly is lost: [exact_fit_lost]). The queue opens again
    from the files on disk without a panic. If a segment that the last
    backend checkpoint lists is left, its log is the prefix of the log at the
    crash that those segments hold, and every message of the prefix that a
    saved channel has not acknowledged is read again by that channel, however
    old the saved position is; the messages of segments added since that
    checkpoint are lost ([third_lost_head]). If none is left, the queue
    starts again with an empty log at id 1. When no saved position is outside of the
    log that was found, the queue goes on under the invariant of
    [at_least_once], less the acknowledgements from the saved positions on. *)
Theorem crash_delivers x (d : disk) (os' : Z → Os) (chans : saved) :
  reachable x d → (∀ id, no_faults (os' id)) → Forall spare (QueueBackend.segments (InnerQueue.backend (queue x))) →
  file x = Some chans →
  ∃ b3 q3,
    QueueBackend.new os' (QueueBackend.segment_files (InnerQueue.backend (queue x))) (Some (backend_file d))
      (QueueBackend.config (InnerQueue.backend (queue x))) true = Done b3 ∧
    InnerQueue.new os true (InnerQueue.config (queue x)) b3
      (Some (json_encode (InnerQueue.mkQueueCheckpoint InnerQueue.Ready chans))) true = Done q3 ∧
    InnerQueue.backend q3 = b3 ∧ delivered_again x d chans q3 ∧
    (within b3 chans → ∃ start ms, queue_inv q3 start ms (reread_all chans (ghosts x))).
Proof.
  intros Hx Hos' Hsp Hw. destruct (crash_reads_again x d os' chans Hx Hos' Hsp Hw) as (b3 & Hb3 & Hall).
  destruct (new_opened os (InnerQueue.config (queue x)) b3
    (Some (json_encode (InnerQueue.mkQueueCheckpoint InnerQueue.Ready chans)))) as (q3 & Hq3 & [Hc Hb Hst Hch]).
  rewrite read_back_encode in Hst, Hch. destruct (Hall _ Hb Hch) as [Hd Hi]. exists b3, q3. split_and!; [done..|].
  apply Hi; [|done]. rewrite Hc. apply reachable_crash_inv in Hx as [(start & ms & Hx) _].
  symmetry. apply (qi_config _ _ _ _ (mi_queue _ _ _ Hx)).
Qed.

End crashes.
End Crashes.
