(* ===== verification/Samples.v ===== *)
(** * A queue run at concrete inputs

    A queue with 64-byte segments, driven through pushes, deliveries and an
    acknowledgement in both build profiles: the closed instances of the
    properties of [Delivery.v]. *)
From S2P Require Import Prelude.
From S2P Require Import Heaps.
From S2P Require Import Text.
From S2P Require Import Settings.
From S2P Require Import Segments.
From S2P Require Import SegmentSpec.
From S2P Require Import SegmentFacts.
From S2P Require Import Backend.
From S2P Require Import LogSpec.
From S2P Require Import BackendFacts.
From S2P Require Import Retention.
From S2P Require Import BackendRecovery.
From S2P Require Import Channels.
From S2P Require Import ChannelFacts.
From S2P Require Import Queues.
From S2P Require Import QueueFacts.
From S2P Require Import Delivery.

#[local] Existing Instance dev_profile.
#[local] Existing Instance sum_hasher.
#[local] Instance sample_json : Json QueueBackend.checkpoint_t := countable_json.
#[local] Instance sample_queue_json : Json InnerQueue.QueueCheckpoint := countable_json.
#[local] Instance sample_queue_json_ok : JsonOk InnerQueue.QueueCheckpoint := countable_json_ok.

Abbreviation sample_queue := (InnerQueue.t QueueBackend.t (list (Z * Channel.InFlightState))).

Definition sample_config : Config.QueueConfig := tiny_config 64.
Definition sample_new : sample_queue :=
  InnerQueue.mk sample_config (QueueBackend.mk sample_config [] 1 1) ∅ InnerQueue.Ready.

(** One channel, three messages, the first acknowledged and the second in
    flight; the third needs a second segment. *)
Definition sample_ops : list op :=
  [CreateChannel (B "c") 5; Push (B "one") 6; Push (B "two") 7; Get (B "c") 8 100; Get (B "c") 8 101;
   Ack (B "c") 100 9; Push (B "three") 10].

Fixpoint exec (ops : list op) (q : sample_queue) (G : gmap (list Z) ghost) :
    outcome (sample_queue * gmap (list Z) ghost) :=
  match ops with
  | [] => mret (q, G)
  | o :: ops => q' ← run os_sound o q; exec ops q' (ghost_step o q G)
  end.

(** The environment checks of [admissible], for the samples. *)
Definition admissible_b (o : op) (q : sample_queue) : bool :=
  match o with
  | Push body clock =>
      (0 <=? clock) && (clock <? 2 ^ 32) && (zlen body <? 1000) &&
      (4 <? Config.segment_size (QueueBackend.config (InnerQueue.backend q))) &&
      (Config.segment_size (QueueBackend.config (InnerQueue.backend q)) <? 2 ^ 31) &&
      (QueueBackend.head (InnerQueue.backend q) + 1 <? 2 ^ 63)
  | Get name clock ticket =>
      (0 <? clock + Config.message_timeout (InnerQueue.config q)) &&
      (clock + Config.message_timeout (InnerQueue.config q) <? 2 ^ 32) &&
      match InnerQueue.channels q !! name with
      | Some c => bool_decide (ticket ∉ (Channel.in_flight_heap c).*2) && (zlen (in_flight c) + 1 <? 2 ^ 32)
      | None => true
      end
  | Ack _ _ clock | UpdateChannels clock => 0 <=? clock
  | Maintenance _ => false
  | _ => true
  end.

Lemma admissible_b_ok o q : admissible_b o q = true → admissible os_sound o q.
Proof.
  destruct o; cbn; try done; try (intros; lia).
  - intros Ha. unfold wf_msg, msg_size, in_u32, MessageHeader.size. cbn.
    pose proof (zlen_nonneg body). split_and!; (done || lia).
  - intros Ha. split; [lia|]. intros c Hc. rewrite Hc in Ha.
    apply andb_true_iff in Ha as [_ [Hu%bool_decide_eq_true_1 Hl]%andb_true_iff].
    split; [exact Hu|lia].
Qed.

Fixpoint admissible_all (ops : list op) (q : sample_queue) : bool :=
  match ops with
  | [] => true
  | o :: ops => admissible_b o q &&
      match run os_sound o q with Done q' => admissible_all ops q' | _ => false end
  end.

Lemma exec_reachable ops q G q' G' :
  reachable os_sound q G → admissible_all ops q = true → exec ops q G = Done (q', G') →
  reachable os_sound q' G'.
Proof.
  revert q G. induction ops as [|o ops IH]; intros q G Hr Ha He; cbn in *.
  { by injection He as <- <-. }
  apply andb_true_iff in Ha as [Ha Hall]. apply bind_Done_iff in He as (q1 & Hrun & He).
  rewrite Hrun in Hall. eapply IH; [|exact Hall|exact He].
  eapply reachable_step; [done|by apply admissible_b_ok|done].
Qed.

Lemma sample_new_reachable : reachable os_sound sample_new ∅.
Proof.
  apply (reachable_init os_sound sample_new 1 []); try done. split; [|done].
  constructor; try done; cbn; try lia; constructor.
Qed.

(** The end of the sample run. *)
Definition sample_end : sample_queue * gmap (list Z) ghost :=
  match exec sample_ops sample_new ∅ with Done r => r | _ => (sample_new, ∅) end.

Lemma sample_end_reachable : reachable os_sound sample_end.1 sample_end.2.
Proof.
  eapply (exec_reachable sample_ops); [apply sample_new_reachable|by vm_compute|by vm_compute].
Qed.

(** ** The properties of [Delivery.v] at the sample run *)

Definition sample_channel : Channel.t (list (Z * Channel.InFlightState)) :=
  default (Channel.fresh 0 0) (InnerQueue.channels sample_end.1 !! B "c").

Lemma sample_channel_lookup : InnerQueue.channels sample_end.1 !! B "c" = Some sample_channel.
Proof. by vm_compute. Qed.

(** Message 1 is acknowledged, message 2 is in flight, message 3 unread. *)
Example sample_end_state :
  Channel.tail sample_channel = 3 ∧ in_flight sample_channel = [(101, Channel.mkInFlight 2 38)] ∧
  QueueBackend.head (InnerQueue.backend sample_end.1) = 4 ∧
  sample_end.2 !! B "c" = Some (mkGhost 1 {[1]}).
Proof. by vm_compute. Qed.

Lemma no_faults_sound : no_faults os_sound.
Proof. done. Qed.

Lemma at_least_once_witness :
  ∃ start ms g n, be_rep (InnerQueue.backend sample_end.1) start ms ∧
    sample_end.2 !! B "c" = Some g ∧ Channel.real_tail sample_channel = Done n ∧
    ∀ id, origin g ≤ id < be_head (InnerQueue.backend sample_end.1) →
      id ∈ acked g ∨
      (n ≤ id ∧ (id ∈ entry_id <$> in_flight sample_channel ∨ Channel.tail sample_channel ≤ id) ∧
       ∃ x, entry start ms id = Some (id, x)).
Proof.
  exact (at_least_once os_sound no_faults_sound _ _ (B "c") _ sample_end_reachable sample_channel_lookup).
Defined.

Lemma restart_redelivers_witness :
  ∃ q' file, InnerQueue.checkpoint os_sound true sample_end.1 false = Done (q', file) ∧
  ∃ start ms, be_rep (InnerQueue.backend q') start ms ∧
    ∀ b2 name c, be_rep b2 start ms → InnerQueue.channels sample_end.1 !! name = Some c →
    ∃ c2 g, InnerQueue.channels (restarted sample_end.1 b2 file) !! name = Some c2 ∧
      sample_end.2 !! name = Some g ∧
      chan_ok c2 ∧ in_flight c2 = [] ∧ Channel.tail c2 ≤ Channel.tail c ∧
      ∀ id, origin g ≤ id < be_head b2 → id ∉ acked g →
        Channel.tail c2 ≤ id ∧ ∃ x, entry start ms id = Some (id, x).
Proof.
  eexists _, _. split; [vm_compute; reflexivity|].
  eapply (restart_redelivers os_sound no_faults_sound _ _ false); [apply sample_end_reachable|].
  vm_compute. reflexivity.
Defined.

Lemma run_total_witness : ∃ q', run os_sound (Get (B "c") 40 102) sample_end.1 = Done q'.
Proof.
  apply (run_total os_sound no_faults_sound _ _ (Get (B "c") 40 102) sample_end_reachable).
  apply admissible_b_ok. by vm_compute.
Defined.

(** At time 40 message 2 has timed out and is sent again. *)
Lemma get_delivers_witness :
  ∃ q' r start ms g, InnerQueue.get sample_end.1 (B "c") 40 102 = Done (q', r) ∧
    be_rep (InnerQueue.backend sample_end.1) start ms ∧ sample_end.2 !! B "c" = Some g ∧
    get_spec start ms sample_channel 40 102 r ∧
    ∀ m id, r = Ok (102, m) → be_message_id m = Done id →
      id ∉ acked g ∧ (∀ e, e ∈ in_flight sample_channel → entry_id e = id → entry_expiration e ≤ 40).
Proof.
  apply (get_delivers os_sound no_faults_sound _ _ (B "c") _ 40 102 sample_end_reachable).
  - apply admissible_b_ok. by vm_compute.
  - exact sample_channel_lookup.
Defined.

Lemma sample_channel_ok : chan_ok sample_channel.
Proof.
  destruct (reachable_inv os_sound no_faults_sound _ _ sample_end_reachable) as (start & ms & Hq).
  destruct (qi_chans _ _ _ _ Hq _ _ sample_channel_lookup) as (g & _ & Hc). exact (ci_ok _ _ _ _ Hc).
Qed.

Lemma ack_once_witness :
  ∃ c', InnerQueue.ack_locked sample_channel 101 20 = Done (c', Ok ()) ∧ chan_ok c' ∧
  InnerQueue.ack_locked c' 101 21 = Done (Channel.touch c' 21, Err InnerQueue.TicketNotFound) ∧
  ∃ s, (101, s) ∈ in_flight sample_channel ∧ 20 < Channel.expiration s ∧
    Channel.id s ∉ entry_id <$> in_flight c'.
Proof.
  eexists. split; [vm_compute; reflexivity|].
  apply (ack_once sample_channel 101 20 _ 21 sample_channel_ok); [lia|vm_compute; reflexivity].
Defined.
