(* ===== verification/MaintenanceSamples.v ===== *)
(** * The maintenance run at concrete inputs

    The queue of [Samples.v], with a maintenance whose steps alternate with
    the acknowledgement and the pushes of clients, and a crash after its
    checkpoint: the closed instances of the properties of [Maintenance.v]. *)
From S2P Require Import Prelude.
From S2P Require Import Heaps.
From S2P Require Import Text.
From S2P Require Import Settings.
From S2P Require Import Segments.
From S2P Require Import SegmentSpec.
From S2P Require Import SegmentFacts.
From S2P Require Import Backend.
From S2P Require Import LogSpec.
From S2P Require Import BackendFacts.
From S2P Require Import Retention.
From S2P Require Import BackendRecovery.
From S2P Require Import Channels.
From S2P Require Import ChannelFacts.
From S2P Require Import Queues.
From S2P Require Import QueueFacts.
From S2P Require Import Delivery.
From S2P Require Import Rereading.
From S2P Require Import Samples.
From S2P Require Import Maintenance.
Import Maintenance Rereading.

#[local] Existing Instance dev_profile.
#[local] Existing Instance sum_hasher.
#[local] Existing Instance sample_json.
#[local] Existing Instance sample_queue_json.
#[local] Existing Instance sample_queue_json_ok.

Abbreviation sample_sys := (sys (B:=QueueBackend.t) (M:=list (Z * Channel.InFlightState))).

Inductive act : Type :=
| Run (o : op)
| Begin (clock : Z)
| Advance.

Definition beside_b (o : op) (st : stage) : bool :=
  match o, st with
  | CreateChannel _ _, Resting | DeleteChannel _, Resting => true
  | CreateChannel _ _, _ | DeleteChannel _, _ | Delivery.Maintenance _, _ | Checkpoint _, _ => false
  | _, _ => true
  end.

Definition gc_ready_b (q : sample_queue) (st : stage) : bool :=
  match st with
  | Measuring [] _ clock =>
      forallb (λ s, (0 <=? clock - Segment.last_timestamp s) && (clock - Segment.last_timestamp s <? 2 ^ 32) &&
        (0 <=? Segment.file_len s)) (QueueBackend.segments (InnerQueue.backend q)) &&
      (total_len (QueueBackend.segments (InnerQueue.backend q)) <? 2 ^ 64)
  | _ => true
  end.

Definition perform (x : sample_sys) (a : act) : option sample_sys :=
  match a with
  | Run o =>
      if beside_b o (at_stage x) && admissible_b o (queue x) then
        match run os_sound o (queue x) with
        | Done q => Some (mkSys q (ghost_step o (queue x) (ghosts x)) (at_stage x) (file x))
        | _ => None
        end
      else None
  | Begin clock =>
      match at_stage x with
      | Resting => Some (mkSys (queue x) (ghosts x) (begin (queue x) clock) (file x))
      | _ => None
      end
  | Advance =>
      if gc_ready_b (queue x) (at_stage x) then
        match advance os_sound (queue x) (at_stage x) with
        | Done (q, st, w) =>
            Some (mkSys q (ghosts x) st (match w with Some chans => Some chans | None => file x end))
        | _ => None
        end
      else None
  end.

Lemma beside_b_ok o st : beside_b o st = true → beside o st.
Proof. by destruct o, st. Qed.

Lemma gc_ready_b_ok q st : gc_ready_b q st = true → gc_ready q st.
Proof.
  destruct st as [|[|] tails clock| |]; try done. cbn. intros [Hall Ht]%andb_true_iff.
  rewrite List.forallb_forall in Hall. split_and!; [| |lia]; apply Forall_forall; intros s Hs%list_elem_of_In;
    specialize (Hall s Hs); lia.
Qed.

Lemma perform_step x a x' : perform x a = Some x' → step os_sound x x'.
Proof.
  destruct x as [q G st w], a as [o|clock|]; cbn.
  - destruct (_ && _) eqn:E; [|done]. apply andb_true_iff in E as [Hb%beside_b_ok Ha%admissible_b_ok].
    destruct (run os_sound o q) as [q'| |] eqn:Hr; [|done..]. intros [= <-]. by apply step_op.
  - destruct st; try done. intros [= <-]. by apply step_begin.
  - destruct (gc_ready_b q st) eqn:E; [|done]. apply gc_ready_b_ok in E.
    destruct (advance os_sound q st) as [[[q' st'] w']| |] eqn:Ha; [|done..]. intros [= <-]. by apply step_advance.
Qed.

Definition perform_all (x : sample_sys) (script : list act) : option sample_sys :=
  foldl (λ x a, x ← x; perform x a) (Some x) script.

Lemma perform_all_none script : foldl (λ x a, x ← x; perform x a) None script = None.
Proof. by induction script. Qed.

Lemma perform_all_reachable script x x' :
  Maintenance.reachable os_sound x → perform_all x script = Some x' → Maintenance.reachable os_sound x'.
Proof.
  revert x. induction script as [|a script IH]; intros x Hx; cbn; [by intros [= <-]|].
  destruct (perform x a) as [x1|] eqn:Ha; [|by rewrite perform_all_none].
  apply IH. eapply reachable_step; [exact Hx|by eapply perform_step].
Qed.

Definition begun : sample_sys := mkSys sample_new ∅ Resting None.

Lemma begun_reachable : Maintenance.reachable os_sound begun.
Proof. apply reachable_start, sample_new_reachable. Qed.

(** Two messages are read and the first is acknowledged. The maintenance
    measures the channel, a third message is pushed and the second
    acknowledged; the first segment stays, since the position is old. The
    checkpoint saves the channel, and the third message is read after it. *)
Definition script : list act :=
  (Run <$> [CreateChannel (B "c") 5; Push (B "one") 6; Push (B "two") 7; Get (B "c") 8 100;
            Get (B "c") 8 101; Ack (B "c") 100 9]) ++
  [Begin 10; Advance; Run (Push (B "three") 10); Run (Ack (B "c") 101 11); Advance; Advance; Advance; Advance;
   Run (Get (B "c") 12 102)].

Definition ran : sample_sys := default begun (perform_all begun script).

Lemma ran_maintenance_reachable : Maintenance.reachable os_sound ran.
Proof. apply (perform_all_reachable script begun); [apply begun_reachable|by vm_compute]. Qed.

Definition ran_channel : Channel.t (list (Z * Channel.InFlightState)) :=
  default (Channel.fresh 0 0) (InnerQueue.channels (queue ran) !! B "c").

Lemma ran_channel_lookup : InnerQueue.channels (queue ran) !! B "c" = Some ran_channel.
Proof. by vm_compute. Qed.

(** Message 3 is in flight; the file says that the channel is at 3. *)
Example ran_state :
  in_flight ran_channel = [(102, Channel.mkInFlight 3 42)] ∧ Channel.tail ran_channel = 4 ∧
  (InnerQueue.cc_tail <$> (file ran ≫= λ chans, chans !! B "c")) = Some 3 ∧
  ghosts ran !! B "c" = Some (mkGhost 1 {[1; 2]}).
Proof. by vm_compute. Qed.

(** Message 3 is in flight. The queue opened again on its log, with the file
    as it is, gives it to the first that asks. *)
Definition ran_chans : saved := default ∅ (file ran).
Definition ran_saved : InnerQueue.ChannelCheckpoint :=
  default (InnerQueue.mkChannelCheckpoint 0 0) (ran_chans !! B "c").

Lemma ran_file : file ran = Some ran_chans.
Proof. by vm_compute. Qed.

Lemma ran_saved_lookup : ran_chans !! B "c" = Some ran_saved.
Proof. by vm_compute. Qed.

Lemma ran_ghost : ghosts ran !! B "c" = Some (mkGhost 1 {[1; 2]}).
Proof. by vm_compute. Qed.

Lemma checkpoint_rereads_witness :
  ∃ q2 l t m body,
    get_all (restarted (queue ran) (InnerQueue.backend (queue ran))
      (json_encode (InnerQueue.mkQueueCheckpoint InnerQueue.Ready ran_chans))) (B "c") 60 [200] = Done (q2, l) ∧
    (t, m) ∈ l ∧ be_msg (B:=QueueBackend.t) m 3 body.
Proof.
  destruct (checkpoint_rereads os_sound no_faults_sound ran (B "c") ran_channel ran_maintenance_reachable ran_channel_lookup)
    as (start & ms & g & Hb & Hg & Hall).
  rewrite ran_ghost in Hg. injection Hg as <-.
  destruct (Hall 3) as (_ & (body & Hm) & Hf); [by vm_compute|by apply (bool_decide_unpack _); vm_compute|].
  destruct (Hf ran_chans ran_saved ran_file ran_saved_lookup) as [_ Hr].
  destruct (Hr (InnerQueue.backend (queue ran)) start ms body 60 [200] Hb Hm) as (q2 & l & t & m & Hd & Hin & Hbm);
    [by vm_compute|by vm_compute|apply NoDup_singleton| |].
  - assert (InnerQueue.cc_tail ran_saved = 3) as -> by by vm_compute. change (zlen [200]) with 1. lia.
  - exists q2, l, t, m, body. split_and!; [exact Hd|exact Hin|exact Hbm].
Defined.

(** In the middle of the maintenance. *)
Definition measured : sample_sys := default begun (perform_all begun (take 10 script)).

Lemma measured_reachable : Maintenance.reachable os_sound measured.
Proof. apply (perform_all_reachable (take 10 script) begun); [apply begun_reachable|by vm_compute]. Qed.

Lemma maintenance_total_witness :
  ∃ q' st' w', advance os_sound (queue measured) (at_stage measured) = Done (q', st', w').
Proof.
  apply (maintenance_total os_sound no_faults_sound measured measured_reachable).
  apply gc_ready_b_ok. by vm_compute.
Defined.

Lemma maintenance_steps_witness :
  ∃ q' paths cp, InnerQueue.maintenance os_sound true (queue ran) 50 = Done (q', paths, cp) ∧
  ∃ chans, advance_all os_sound (steps (queue ran)) (queue ran) (begin (queue ran) 50) = Done (q', Some chans) ∧
    cp = json_encode (InnerQueue.mkQueueCheckpoint InnerQueue.Ready chans).
Proof.
  eexists _, _, _. split; [vm_compute; reflexivity|].
  eapply (maintenance_steps os_sound (queue ran) 50); [by vm_compute|vm_compute; reflexivity].
Defined.
