(* ===== verification/CrashSamples.v ===== *)
(** * A queue that crashes, at concrete inputs

    The queue of [Samples.v] stopped in the middle of a maintenance and
    opened again: the closed instance of the property of [Crashes.v], and
    runs in which messages and channels are lost. *)
From S2P Require Import Prelude.
From S2P Require Import Heaps.
From S2P Require Import Text.
From S2P Require Import Settings.
From S2P Require Import Segments.
From S2P Require Import SegmentSpec.
From S2P Require Import SegmentFacts.
From S2P Require Import Backend.
From S2P Require Import LogSpec.
From S2P Require Import BackendFacts.
From S2P Require Import Retention.
From S2P Require Import BackendRecovery.
From S2P Require Import CrashRecovery.
From S2P Require Import Channels.
From S2P Require Import ChannelFacts.
From S2P Require Import Queues.
From S2P Require Import QueueFacts.
From S2P Require Import Delivery.
From S2P Require Import Samples.
From S2P Require Import Maintenance.
From S2P Require Import MaintenanceSamples.
From S2P Require Import Crashes.
Import Maintenance Crashes.

#[local] Existing Instance dev_profile.
#[local] Existing Instance sum_hasher.
#[local] Existing Instance sample_json.
#[local] Existing Instance sample_queue_json.
#[local] Existing Instance sample_queue_json_ok.
#[local] Instance sample_json_ok : JsonOk QueueBackend.checkpoint_t := countable_json_ok.

(** ** Runs *)

Definition empty : QueueBackend.t := QueueBackend.mk sample_config [] 1 1.
Definition new_disk : disk :=
  match QueueBackend.checkpoint os_sound true empty false with Done (b, f) => mkDisk b f | _ => mkDisk empty [] end.
Definition new_sys : sample_sys := mkSys sample_new ∅ Resting (Some ∅).

Lemma new_sys_reachable : Crashes.reachable os_sound new_sys new_disk.
Proof. apply (reachable_new os_sound sample_config sample_new); [done|done|by vm_compute|by vm_compute]. Qed.

Fixpoint go (x : sample_sys) (d : disk) (script : list act) : option (sample_sys * disk) :=
  match script with
  | [] => Some (x, d)
  | a :: script => x' ← perform x a; go x' (flush os_sound x x' d) script
  end.

Lemma go_reachable script x d x' d' :
  Crashes.reachable os_sound x d → go x d script = Some (x', d') → Crashes.reachable os_sound x' d'.
Proof.
  revert x d. induction script as [|a script IH]; intros x d Hx; cbn [go]; [by intros [= <- <-]|].
  intros (x1 & Ha & Hg)%bind_Some. eapply IH; [|exact Hg]. eapply reachable_on; [exact Hx|by eapply perform_step].
Qed.

(** The queue that is opened from the files of a run. *)
Definition open_again (r : sample_sys * disk) : option sample_queue :=
  let b := InnerQueue.backend (queue r.1) in
  match QueueBackend.new (λ _, os_sound) (QueueBackend.segment_files b) (Some (backend_file r.2)) sample_config true with
  | Done b3 =>
      match file r.1 with
      | Some chans =>
          match InnerQueue.new os_sound true sample_config b3
              (Some (json_encode (InnerQueue.mkQueueCheckpoint InnerQueue.Ready chans))) true with
          | Done q => Some q
          | _ => None
          end
      | None => None
      end
  | _ => None
  end.

(** ** A crash between the two checkpoints *)

(** A maintenance has written both files. Two messages are pushed and read,
    the first is acknowledged; the next maintenance has checkpointed the
    backend, and not yet the channels, when the process dies. *)
Definition maintained (clock : Z) (n : nat) : list act := Begin clock :: replicate n Advance.
Definition halfway : list act :=
  [Run (CreateChannel (B "c") 5); Run (Push (B "one") 6)] ++ maintained 6 5 ++
  (Run <$> [Push (B "two") 7; Get (B "c") 8 100; Get (B "c") 8 101; Ack (B "c") 100 9]) ++ maintained 10 3.

Definition stopped_at : sample_sys * disk := default (new_sys, new_disk) (go new_sys new_disk halfway).

Lemma stopped_reachable : Crashes.reachable os_sound stopped_at.1 stopped_at.2.
Proof.
  apply (go_reachable halfway new_sys new_disk); [apply new_sys_reachable|by vm_compute].
Qed.

Definition stopped_chans : saved := default ∅ (file stopped_at.1).

Lemma crash_delivers_witness :
  ∃ b3 q3 : _,
    QueueBackend.new (λ _, os_sound) (QueueBackend.segment_files (InnerQueue.backend (queue stopped_at.1)))
      (Some (backend_file stopped_at.2)) (QueueBackend.config (InnerQueue.backend (queue stopped_at.1))) true = Done b3 ∧
    InnerQueue.new os_sound true (InnerQueue.config (queue stopped_at.1)) b3
      (Some (json_encode (InnerQueue.mkQueueCheckpoint InnerQueue.Ready stopped_chans))) true = Done q3 ∧
    InnerQueue.backend q3 = b3 ∧ delivered_again stopped_at.1 stopped_at.2 stopped_chans q3 ∧
    (within b3 stopped_chans → ∃ start ms, queue_inv q3 start ms (reread_all stopped_chans (ghosts stopped_at.1))).
Proof.
  refine (crash_delivers os_sound no_faults_sound stopped_at.1 stopped_at.2 (λ _, os_sound) stopped_chans
    stopped_reachable _ _ _).
  - by intros ? [].
  - unfold spare. apply (bool_decide_unpack _). by vm_compute.
  - by vm_compute.
Defined.

(** Here the saved position is within the log. *)
Example stopped_within :
  match open_again stopped_at with
  | Some q => bool_decide (map_Forall (λ _ cc,
      QueueBackend.tail (InnerQueue.backend q) ≤ InnerQueue.cc_tail cc ≤ QueueBackend.head (InnerQueue.backend q)) stopped_chans) = true
  | None => False
  end.
Proof. by vm_compute. Qed.

(** All three messages are there again but the third: it was pushed to a
    segment that no checkpoint lists yet, and its id is given out again. *)
Definition third_lost : option sample_queue :=
  r ← go new_sys new_disk ([Run (CreateChannel (B "c") 5); Run (Push (B "one") 6)] ++ maintained 6 5 ++
    [Run (Push (B "two") 7); Run (Push (B "three") 8)]);
  open_again r.

Example third_lost_head :
  match third_lost with
  | Some q => QueueBackend.head (InnerQueue.backend q) = 3 ∧
      match InnerQueue.push os_sound q (B "four") 9 with Done (_, r) => r = Ok 3 | _ => False end
  | None => False
  end.
Proof. by vm_compute. Qed.

(** A channel that no checkpoint has saved yet is gone as well. *)
Example new_channel_lost :
  match r ← go new_sys new_disk [Run (CreateChannel (B "c") 5)]; open_again r with
  | Some q => InnerQueue.channels q !! B "c" = None
  | None => False
  end.
Proof. by vm_compute. Qed.

(** ** A position beyond the end of the log

    Between the checkpoint of the backend and that of the channels, two
    messages are pushed, the second to a new segment, and all are read and
    acknowledged. After a crash the log ends at 3 and the channel is at 4:
    the next message pushed gets the id 3, and the channel never reads it. *)
Definition ahead : option sample_queue :=
  r ← go new_sys new_disk ([Run (CreateChannel (B "c") 5); Run (Push (B "one") 6)] ++ maintained 6 3 ++
    (Run <$> [Push (B "two") 7; Push (B "three") 8; Get (B "c") 9 100; Get (B "c") 9 101; Get (B "c") 9 102;
              Ack (B "c") 100 10; Ack (B "c") 101 10; Ack (B "c") 102 10]) ++ [Advance; Advance]);
  open_again r.

Example crash_skips :
  match ahead with
  | Some q =>
      QueueBackend.head (InnerQueue.backend q) = 3 ∧ Channel.tail <$> InnerQueue.channels q !! B "c" = Some 4 ∧
      match InnerQueue.push os_sound q (B "four") 11 with
      | Done (q, r) => r = Ok 3 ∧
          match InnerQueue.get q (B "c") 12 103 with
          | Done (_, r) => r = Err (InnerQueue.EndOfQueue 4)
          | _ => False
          end
      | _ => False
      end
  | None => False
  end.
Proof. by vm_compute. Qed.
