(* ===== verification/QueueProps.v ===== *)
(** * Properties of channels and queues

    The functional behaviour of the single operations of [InnerQueue], on
    their error branches too, and the cases where a channel's position and
    its in-flight messages disagree. *)
From S2P Require Import Prelude.
From S2P Require Import Heaps.
From S2P Require Import Text.
From S2P Require Import Settings.
From S2P Require Import Segments.
From S2P Require Import SegmentSpec.
From S2P Require Import SegmentFacts.
From S2P Require Import Backend.
From S2P Require Import LogSpec.
From S2P Require Import BackendFacts.
From S2P Require Import BackendProps.
From S2P Require Import Seek.
From S2P Require Import Channels.
From S2P Require Import ChannelFacts.
From S2P Require Import Queues.
From S2P Require Import QueueFacts.
From S2P Require Import Delivery.
From S2P Require Import Samples.

Section props.
Context `{Profile} {B Msg M : Type} `{BackendOk B Msg} `{!LinkedHashMap Channel.InFlightState M}
  `{!LinkedHashMapOk Channel.InFlightState M} `{Json InnerQueue.QueueCheckpoint}.
Implicit Types (q : InnerQueue.t B M) (c : Channel.t M).

(** The position a checkpoint saves and garbage collection respects is
    the smallest id still in flight, or the tail when nothing is. *)
Theorem real_tail_smallest c :
  chan_ok c → ∃ n, Channel.real_tail c = Done n ∧ first_unacked c n ∧ 0 ≤ n ≤ Channel.tail c.
Proof. apply real_tail_ok. Qed.

(** [update_state] marks as expired exactly the longest prefix of the
    least-recently-used order that has timed out, and counts it. *)
Theorem update_state_marks c clock :
  chan_ok c → 0 ≤ clock → zlen (in_flight c) < 2 ^ 32 →
  ∃ c' k, Channel.update_state c clock = Done c' ∧ chan_ok c' ∧
    Channel.tail c' = Channel.tail c ∧ Channel.messages_available c' = Z.of_nat k ∧
    in_flight c' = (mark_entry <$> take k (in_flight c)) ++ drop k (in_flight c) ∧
    Forall (λ e, entry_expiration e ≤ clock) (take k (in_flight c)) ∧
    (∀ e, in_flight c !! k = Some e → clock < entry_expiration e).
Proof.
  intros Hc Hclock Hlen. destruct (update_state_ok c clock Hc Hclock Hlen)
    as (c' & k & Hu & Hok & _ & Ht & _ & He & _ & Hl & Hall & Hnext).
  exists c', k. by split_and!.
Qed.

(** Every message fits whatever the log has become, up to [bound] messages. *)
Definition all_fit os (cfg : Config.QueueConfig) start bound (messages : list (list Z)) clock : Prop :=
  ∀ (b : B) ms' body, body ∈ messages → be_rep b start ms' → zlen ms' ≤ bound → be_config b = cfg →
    be_room os b (clock, body).

(** One push stores the message or refuses it and stores nothing. *)
Lemma push_one os q start ms bound messages clock body :
  all_fit os (be_config (InnerQueue.backend q)) start bound messages clock →
  body ∈ messages → be_rep (InnerQueue.backend q) start ms → zlen ms ≤ bound →
  ∃ q' r, InnerQueue.push os q body clock = Done (q', r) ∧
    be_config (InnerQueue.backend q') = be_config (InnerQueue.backend q) ∧
    InnerQueue.channels q' = InnerQueue.channels q ∧
    match r with
    | Ok id => id = start + zlen ms ∧ be_rep (InnerQueue.backend q') start (ms ++ [(clock, body)])
    | Err e => e = InnerQueue.Backend MessageTooBig ∧ be_rep (InnerQueue.backend q') start ms
    end.
Proof.
  intros Hfit Hin Hr Hl. destruct (be_bounds _ _ _ Hr) as (_ & Hhd & _).
  destruct (be_push_ok os _ start ms (clock, body) Hr (Hfit _ _ _ Hin Hr Hl eq_refl))
    as (b' & r & Hp & Hc & Hpost). cbn [fst snd] in Hp.
  unfold InnerQueue.push. rewrite Hp, bind_Done. eexists _, _. split; [done|].
  split; [done|]. split; [done|]. destruct r; destruct Hpost as [-> ?]; (split; [lia||done|done]).
Qed.

Lemma push_loop_prefix os start bound messages clock l q ms :
  all_fit os (be_config (InnerQueue.backend q)) start bound messages clock →
  (∀ b, b ∈ l → b ∈ messages) → be_rep (InnerQueue.backend q) start ms → zlen ms + zlen l ≤ bound →
  ∃ q' r k, InnerQueue.push_loop os q l clock = Done (q', r) ∧
    be_rep (InnerQueue.backend q') start (ms ++ ((λ body, (clock, body)) <$> take k l)) ∧
    InnerQueue.channels q' = InnerQueue.channels q ∧
    be_config (InnerQueue.backend q') = be_config (InnerQueue.backend q) ∧
    match r with
    | Ok _ => k = length l
    | Err e => e = InnerQueue.Backend MessageTooBig ∧ (k < length l)%nat
    end.
Proof.
  revert q ms. induction l as [|b l IH]; intros q ms Hfit Hin Hr Hl.
  { exists q, (Ok ()), O. cbn. rewrite app_nil_r. by split_and!. }
  rewrite zlen_cons in Hl. pose proof (zlen_nonneg l).
  destruct (push_one os q start ms bound messages clock b Hfit) as (q1 & r & Hp & Hcfg & Hch & Hpost);
    [apply Hin; left|done|lia|].
  cbn [InnerQueue.push_loop]. rewrite Hp, bind_Done. destruct r as [id|e]; destruct Hpost as [-> Hr1].
  - destruct (IH q1 (ms ++ [(clock, b)])) as (q2 & r & k & Hp2 & Hr2 & Hch2 & Hcfg2 & Hk);
      [by rewrite Hcfg|intros b' Hb; apply Hin; by right|done|rewrite zlen_app, zlen_cons, zlen_nil; lia|].
    exists q2, r, (S k). cbn. rewrite <-app_assoc in Hr2.
    split_and!; [done|done|congruence|congruence|]. destruct r; [by f_equal|]. destruct Hk. split; [done|lia].
  - exists q1, (Err (InnerQueue.Backend MessageTooBig)), O. cbn. rewrite app_nil_r. split_and!; (done || lia).
Qed.

(** C38: [push_many] appends the messages in order under consecutive ids; when
    one is refused, exactly the ones before it have been stored. *)
Theorem push_many_prefix os q start ms messages clock :
  be_rep (InnerQueue.backend q) start ms → messages ≠ [] →
  (∀ b ms' body, body ∈ messages → be_rep b start ms' → zlen ms' ≤ zlen ms + zlen messages →
     be_config b = be_config (InnerQueue.backend q) → be_room os b (clock, body)) →
  ∃ q' r k, InnerQueue.push_many os q messages clock = Done (q', r) ∧
    be_rep (InnerQueue.backend q') start (ms ++ ((λ body, (clock, body)) <$> take k messages)) ∧
    InnerQueue.channels q' = InnerQueue.channels q ∧
    match r with
    | Ok id => k = length messages ∧ id = start + zlen ms + zlen messages - 1
    | Err e => e = InnerQueue.Backend MessageTooBig ∧ (k < length messages)%nat
    end.
Proof.
  intros Hrep Hne Hfit. destruct (exists_last Hne) as (l & x & ->).
  pose proof (zlen_nonneg l). assert (zlen (l ++ [x]) = zlen l + 1) as Hx by (rewrite zlen_app; done).
  unfold InnerQueue.push_many. rewrite assert_true, bind_Done by lia.
  rewrite removelast_app, app_nil_r by done. rewrite last_snoc.
  destruct (push_loop_prefix os start _ (l ++ [x]) clock l q ms Hfit) as (q1 & r & k & Hp & Hr1 & Hch & Hcfg & Hk);
    [intros; apply elem_of_app; by left|done|lia|].
  rewrite Hp, bind_Done. destruct r as [[]|e].
  - subst k. rewrite firstn_all in Hr1. cbn [unwrap]. rewrite bind_Done.
    assert (zlen ((λ body : list Z, (clock, body)) <$> l) = zlen l) as Hlen by (unfold zlen; by rewrite length_fmap).
    destruct (push_one os q1 start (ms ++ ((λ body, (clock, body)) <$> l)) (zlen ms + zlen (l ++ [x])) (l ++ [x]) clock x)
      as (q2 & r & Hp2 & _ & Hch2 & Hpost); [rewrite Hcfg; exact Hfit|apply elem_of_app; right; by apply list_elem_of_singleton|done| |].
    { rewrite zlen_app, Hlen. lia. }
    destruct r as [id|e]; destruct Hpost as [-> Hr2].
    + exists q2, (Ok (start + zlen (ms ++ ((λ body : list Z, (clock, body)) <$> l)))), (length (l ++ [x])).
      rewrite firstn_all, fmap_app, app_assoc. split_and!; [done|done|congruence|done|].
      rewrite zlen_app, Hlen. lia.
    + exists q2, (Err (InnerQueue.Backend MessageTooBig)), (length l). rewrite take_app_length.
      split_and!; [done|done|congruence|done|]. rewrite length_app. simpl. lia.
  - destruct Hk as [-> Hk]. exists q1, (Err (InnerQueue.Backend MessageTooBig)), k.
    rewrite take_app_le by lia. split_and!; [done|done|done|done|]. rewrite length_app. lia.
Qed.

(** Creating a channel starts it at the end of the log, a second creation
    is refused, and deleting it gives the queue back; deleting an unknown
    channel is refused. *)
Theorem create_delete_channel q name clock :
  match InnerQueue.channels q !! name with
  | Some _ => InnerQueue.create_channel q name clock = (q, Err InnerQueue.ChannelAlreadyExists)
  | None =>
      ∃ q', InnerQueue.create_channel q name clock = (q', Ok ()) ∧
        InnerQueue.channels q' !! name = Some (Channel.fresh clock (be_head (InnerQueue.backend q))) ∧
        (∀ clock', InnerQueue.create_channel q' name clock' = (q', Err InnerQueue.ChannelAlreadyExists)) ∧
        InnerQueue.delete_channel q' name = (q, Ok ()) ∧
        InnerQueue.delete_channel q name = (q, Err InnerQueue.ChannelNotFound)
  end.
Proof.
  unfold InnerQueue.create_channel, InnerQueue.delete_channel.
  destruct (InnerQueue.channels q !! name) as [c|] eqn:Hc; [done|].
  eexists. split; [done|]. cbn [InnerQueue.set_channels InnerQueue.channels InnerQueue.backend].
  rewrite bytes_insert_eq. split_and!; [done|done| |done].
  f_equal. unfold InnerQueue.set_channels. cbn. rewrite delete_insert_id by done. by destruct q.
Qed.

(** [Deleting] is final: a queue in that state refuses to become ready,
    writes no channel into its checkpoint, and none is recovered from it. *)
Theorem deleting_is_final `{!JsonOk InnerQueue.QueueCheckpoint} os q full b2 :
  InnerQueue.state q = InnerQueue.Deleting →
  InnerQueue.set_state q InnerQueue.Ready = Panic ∧
  InnerQueue.set_state q InnerQueue.Deleting = Done q ∧
  ∃ file, InnerQueue.checkpoint os true q full = Done (q, file) ∧
    InnerQueue.state (restarted q b2 file) = InnerQueue.Deleting ∧
    InnerQueue.channels (restarted q b2 file) = ∅.
Proof.
  intros Hs. unfold InnerQueue.set_state, InnerQueue.checkpoint. rewrite Hs.
  split; [done|]. split; [done|]. eexists. split; [reflexivity|].
  unfold restarted, InnerQueue.recover. cbn [mbind option_bind]. rewrite json_roundtrip. cbn. by rewrite ?Hs.
Qed.

(** [InnerQueue::purge] empties the in-flight map of a channel but not
    its heap: with nothing in flight any more, the channel still reports the
    smallest purged id as its position, so that checkpoints and garbage
    collection stay behind. *)
Theorem purge_keeps_position c tail :
  chan_ok c → in_flight c ≠ [] → Channel.tail c ≤ tail →
  ∃ n, first_unacked c n ∧ in_flight (InnerQueue.purge_in_flight tail c) = [] ∧
    Channel.real_tail (InnerQueue.purge_in_flight tail c) = Done n ∧ n < tail.
Proof.
  intros Hc Hne Ht. destruct (real_tail_ok c Hc) as (n & Hn & Hf & Hr).
  exists n. split; [done|]. split; [apply lm_iter_default|].
  unfold Channel.real_tail in *. cbn.
  destruct (BinaryHeap.peek (Channel.in_flight_heap c)) as [[id ticket]|] eqn:Hp.
  - pose proof (co_top _ Hc _ _ Hp) as (e & -> & He)%list_elem_of_fmap.
    pose proof (co_range _ Hc) as Hrange. eapply Forall_forall in Hrange; [|exact He].
    rewrite debug_assert_true, bind_Done in Hn by lia. injection Hn as <-.
    rewrite debug_assert_true, bind_Done by lia. split; [done|lia].
  - destruct (in_flight c) as [|e l] eqn:Hl; [done|].
    assert (Hin : e ∈ in_flight c) by (rewrite Hl; left).
    apply (co_heap _ Hc) in Hin. destruct (Channel.in_flight_heap c); [by apply elem_of_nil in Hin|done].
Qed.

(** Seeking back to an id while messages are in flight leaves the
    channel's position at the smallest in-flight id: a debug build panics,
    a release build checkpoints past the messages the seek asked for. *)
Theorem seek_back_ignored c id :
  chan_ok c → in_flight c ≠ [] → (∀ n, first_unacked c n → id ≤ n) →
  if debug_assertions then Channel.real_tail (Channel.set_tail c id) = Panic
  else ∃ n, first_unacked c n ∧ id ≤ n ∧ Channel.real_tail (Channel.set_tail c id) = Done n.
Proof.
  intros Hc Hne Hid. destruct (real_tail_ok c Hc) as (n & Hn & Hf & Hr). specialize (Hid n Hf).
  unfold Channel.real_tail in *. cbn.
  destruct (BinaryHeap.peek (Channel.in_flight_heap c)) as [[top ticket]|] eqn:Hp.
  - pose proof (co_top _ Hc _ _ Hp) as (e & -> & He)%list_elem_of_fmap.
    pose proof (co_range _ Hc) as Hrange. eapply Forall_forall in Hrange; [|exact He].
    rewrite debug_assert_true, bind_Done in Hn by lia. injection Hn as <-.
    unfold debug_assert. rewrite (proj2 (Z.ltb_ge _ _)) by done. destruct debug_assertions; [done|].
    rewrite bind_Done. by eexists.
  - destruct (in_flight c) as [|e l] eqn:Hl; [done|].
    assert (Hin : e ∈ in_flight c) by (rewrite Hl; left).
    apply (co_heap _ Hc) in Hin. destruct (Channel.in_flight_heap c); [by apply elem_of_nil in Hin|done].
Qed.

(** After garbage collection has removed an in-flight message, its
    redelivery hands out the first message left in the log under a ticket
    that stands for the removed id; with an empty log it panics. *)
Theorem resend_after_gc (cfg : Config.QueueConfig) b start ms c clock random ticket front l :
  be_rep b start ms → chan_ok c → unused random c → in_flight c = (ticket, front) :: l →
  Channel.expiration front ≤ clock → Channel.id front < start →
  0 < clock + Config.message_timeout cfg < 2 ^ 32 → zlen (in_flight c) < 2 ^ 32 →
  match ms with
  | x :: _ => ∃ c' m, InnerQueue.get_locked cfg b c clock random = Done (c', Ok (random, m)) ∧
      be_msg m start x ∧
      assoc random (in_flight c') = Some (Channel.mkInFlight (Channel.id front) (clock + Config.message_timeout cfg))
  | [] => InnerQueue.get_locked cfg b c clock random = Panic
  end.
Proof.
  intros Hb Hc Hu Hl Hexp Hid Ht Hlen. rewrite get_locked_unfold.
  unfold front_due. rewrite Hl. change (entry_expiration (ticket, front)) with (Channel.expiration front).
  rewrite (proj2 (Z.leb_le _ _)) by done.
  destruct (resend_count c ticket front l Hc Hl Hlen) as (n & Hn & _).
  pose proof (co_range _ Hc) as Hr. rewrite Hl in Hr. apply Forall_cons in Hr as [Hr _].
  change (entry_id (ticket, front)) with (Channel.id front) in Hr.
  pose proof (be_get_ok _ _ _ (Channel.id front) Hb (proj1 Hr)) as Hget.
  assert (entry start ms (Channel.id front) = (λ x, (start, x)) <$> head ms) as He.
  { unfold entry. rewrite Z.max_r, Z.sub_diag by lia. by destruct ms. }
  rewrite He in Hget. unfold InnerQueue.resend.
  change (Channel.expired_count (Channel.touch c clock)) with (Channel.expired_count c).
  rewrite Hn, bind_Done, lm_remove_val.
  change (lm_iter (Channel.in_flight_map (Channel.touch c clock))) with (in_flight c).
  rewrite Hl. cbn [assoc]. rewrite Z.eqb_refl. cbn [unwrap]. rewrite bind_Done. mint.
  destruct ms as [|x ms]; cbn in Hget.
  - by rewrite Hget, bind_Done.
  - destruct Hget as (m & Hget & Hm). rewrite Hget, bind_Done. cbn [unwrap]. rewrite bind_Done.
    eexists _, m. split; [reflexivity|]. split; [done|]. unfold in_flight. cbn.
    rewrite lm_insert_iter. apply assoc_elem.
    + rewrite fmap_app. apply NoDup_app. split_and!; [| |apply NoDup_singleton].
      * apply (NoDup_map_sub _ _ _ (without_sub _ _)). rewrite lm_remove_iter.
        apply (NoDup_map_sub _ _ _ (without_sub _ _)), (co_tickets _ Hc).
      * intros k (e & Hk & [He' _]%elem_of_without)%list_elem_of_fmap Hk'%list_elem_of_singleton.
        cbn in Hk'. congruence.
    + apply elem_of_app. right. by apply list_elem_of_singleton.
Qed.

End props.

(** ** Closed instances *)

#[local] Existing Instance dev_profile.
#[local] Existing Instance sum_hasher.
#[local] Existing Instance Samples.sample_json.
#[local] Existing Instance sample_queue_json.
#[local] Existing Instance sample_queue_json_ok.

Lemma sample_in_flight : in_flight sample_channel = [(101, Channel.mkInFlight 2 38)].
Proof. by vm_compute. Qed.

Lemma real_tail_smallest_witness :
  ∃ n, Channel.real_tail sample_channel = Done n ∧ first_unacked sample_channel n ∧
    0 ≤ n ≤ Channel.tail sample_channel.
Proof. exact (real_tail_smallest sample_channel sample_channel_ok). Defined.

Lemma update_state_marks_witness :
  ∃ c' k, Channel.update_state sample_channel 40 = Done c' ∧ chan_ok c' ∧
    Channel.tail c' = Channel.tail sample_channel ∧ Channel.messages_available c' = Z.of_nat k ∧
    in_flight c' = (mark_entry <$> take k (in_flight sample_channel)) ++ drop k (in_flight sample_channel) ∧
    Forall (λ e, entry_expiration e ≤ 40) (take k (in_flight sample_channel)) ∧
    (∀ e, in_flight sample_channel !! k = Some e → 40 < entry_expiration e).
Proof. apply (update_state_marks sample_channel 40 sample_channel_ok); [lia|by vm_compute]. Defined.

Lemma purge_keeps_position_witness :
  ∃ n, first_unacked sample_channel n ∧ in_flight (InnerQueue.purge_in_flight 4 sample_channel) = [] ∧
    Channel.real_tail (InnerQueue.purge_in_flight 4 sample_channel) = Done n ∧ n < 4.
Proof.
  apply (purge_keeps_position sample_channel 4 sample_channel_ok); [by rewrite sample_in_flight|by vm_compute].
Defined.

Lemma seek_back_ignored_witness : Channel.real_tail (Channel.set_tail sample_channel 1) = Panic.
Proof.
  refine (seek_back_ignored sample_channel 1 sample_channel_ok _ _); [by rewrite sample_in_flight|].
  intros n. unfold first_unacked. rewrite sample_in_flight. cbn.
  intros [->%list_elem_of_singleton _]. cbn. lia.
Defined.

Lemma deleting_is_final_witness :
  InnerQueue.set_state (InnerQueue.mk Samples.sample_config (InnerQueue.backend sample_end.1)
    (InnerQueue.channels sample_end.1) InnerQueue.Deleting) InnerQueue.Ready = Panic.
Proof.
  apply (deleting_is_final os_sound (InnerQueue.mk Samples.sample_config (InnerQueue.backend sample_end.1)
    (InnerQueue.channels sample_end.1) InnerQueue.Deleting) false (InnerQueue.backend sample_new) eq_refl).
Defined.

(** Only message 5 is left of the log; message 2 is still in flight. *)
Definition late_backend : QueueBackend.t :=
  default sample_backend (fill (QueueBackend.mk Samples.sample_config [] 5 5) [(50, B "five")]).

Lemma late_backend_rep : backend_rep late_backend 5 [(50, B "five")].
Proof.
  apply (fill_rep (QueueBackend.mk Samples.sample_config [] 5 5) 5 [] [(50, B "five")]).
  - constructor; try done; cbn; try lia; constructor.
  - by repeat (constructor; [by vm_compute|]).
  - by vm_compute.
  - by vm_compute.
  - by vm_compute.
Qed.

Lemma resend_after_gc_witness :
  ∃ c' m, InnerQueue.get_locked Samples.sample_config late_backend sample_channel 40 102 = Done (c', Ok (102, m)) ∧
    message_is m 5 (50, B "five") ∧ assoc 102 (in_flight c') = Some (Channel.mkInFlight 2 70).
Proof.
  refine (resend_after_gc Samples.sample_config late_backend 5 [(50, B "five")] sample_channel 40 102 101
    (Channel.mkInFlight 2 38) [] _ _ _ _ _ _ _ _).
  - split; [exact late_backend_rep|by vm_compute].
  - exact sample_channel_ok.
  - apply (bool_decide_unpack _). by vm_compute.
  - exact sample_in_flight.
  - by vm_compute.
  - by vm_compute.
  - by vm_compute.
  - by vm_compute.
Defined.

Lemma sample_backend_log : ∃ start ms, be_rep (InnerQueue.backend sample_new) start ms ∧ start = 1 ∧ ms = [].
Proof. exists 1, []. split; [|done]. split; [apply empty_backend_rep|done]. Qed.

(** The second body does not fit in any segment. *)
Definition sample_bodies : list (list Z) := [B "a"; replicate 60 7; B "c"].

Lemma push_many_prefix_witness :
  ∃ q' r k, InnerQueue.push_many os_sound sample_new sample_bodies 6 = Done (q', r) ∧
    be_rep (InnerQueue.backend q') 1
      ([] ++ ((λ body, (6, body)) <$> take k sample_bodies)) ∧
    InnerQueue.channels q' = InnerQueue.channels sample_new ∧
    match r with
    | Ok id => k = length sample_bodies ∧
        id = 1 + zlen (A:=msg) [] + zlen sample_bodies - 1
    | Err e => e = InnerQueue.Backend MessageTooBig ∧ (k < length sample_bodies)%nat
    end.
Proof.
  apply (push_many_prefix os_sound sample_new 1 [] sample_bodies 6).
  - split; [apply empty_backend_rep|done].
  - done.
  - intros b ms' body Hin [Hb Ht] Hlen Hcfg. cbn in Hcfg |- *. rewrite Hcfg.
    assert (zlen body < 100) as Hbody.
    { assert (Forall (λ b, zlen b < 100) sample_bodies) as Hall by (apply (bool_decide_unpack _); by vm_compute).
      rewrite Forall_forall in Hall. by apply Hall. }
    pose proof (zlen_nonneg body). change (zlen (A:=msg) []) with 0 in Hlen.
    assert (zlen ms' ≤ 3) as Hl3 by exact Hlen.
    unfold wf_msg, msg_size, in_u32, MessageHeader.size. cbn [fst snd].
    rewrite (backend_rep_next _ _ _ Hb). split_and!; try lia.
    + by intros [].
    + by intros n.
    + by vm_compute.
    + by vm_compute.
Defined.
