(* ===== verification/Tests.v ===== *)
(** * The repository's unit tests, on the model

    Each [#[test]] function of the files under [src/src] is an [outcome ()]
    here: its assertions are [assert], its [unwrap]s are [unwrap], and it
    passes when it is [Done ()]. The tests of the backend and of the queues
    are functions of the size of a segment, which is 4 MiB in the code, and of
    the number of messages where the code writes 100000; they are run with
    segments of a kilobyte. *)
From S2P Require Import Prelude.
From S2P Require Import Offsets.
From S2P Require Import Heaps.
From S2P Require Import Text.
From S2P Require Import Settings.
From S2P Require Import Segments.
From S2P Require Import SegmentFacts.
From S2P Require Import Backend.
From S2P Require Import Channels.
From S2P Require Import Queues.
From S2P Require Import Wire.

#[local] Existing Instance sum_hasher.
#[local] Instance test_backend_json : Json QueueBackend.checkpoint_t := countable_json.
#[local] Instance test_queue_json : Json InnerQueue.QueueCheckpoint := countable_json.

(** ** Control flow of the tests *)

Definition assert_eq {A} `{EqDecision A} (a b : A) : outcome () := assert (bool_decide (a = b)).

(** [while cond { body }]; a test that is still looping when the fuel is
    gone fails. *)
Fixpoint while_loop {S : Type} (fuel : nat) (cond : S → outcome (bool * S)) (body : S → outcome S) (s : S) : outcome S :=
  match fuel with
  | O => Panic
  | Datatypes.S fuel =>
      '(go, s) ← cond s;
      if (go : bool) then (s ← body s; while_loop fuel cond body s) else mret s
  end.

(** [for x in l { body }] *)
Definition for_each {A} (l : list A) (body : A → outcome ()) : outcome () :=
  foldr (λ x rest, _ ← body x; rest) (mret ()) l.

Definition unwrap_ok {A E} (r : result A E) : outcome A :=
  match r with Ok a => Done a | Err _ => Panic end.
Definition unwrap_err {A E} (r : result A E) : outcome E :=
  match r with Err e => Done e | Ok _ => Panic end.

(** [gen_message()] *)
Definition gen_message : list Z := replicate 96 51.

(** [floki.toml], which [ServerConfig::read] finds in the repository. *)
Definition floki_str (key : list Z) : option (list Z) :=
  if bool_decide (key = B "bind_address") then Some (B "127.0.0.1:9797")
  else if bool_decide (key = B "data_directory") then Some (B "./data/")
  else if bool_decide (key = B "monitor_interval") then Some (B "1s")
  else if bool_decide (key = B "maintenance_interval") then Some (B "1s")
  else if bool_decide (key = B "segment_size") then Some (B "128mb")
  else if bool_decide (key = B "message_timeout") then Some (B "30s")
  else if bool_decide (key = B "retention_period") then Some (B "0")
  else if bool_decide (key = B "retention_size") then Some (B "0")
  else if bool_decide (key = B "hard_retention_period") then Some (B "24h")
  else if bool_decide (key = B "hard_retention_size") then Some (B "0")
  else None.
Definition floki_int (key : list Z) : option Z :=
  if bool_decide (key = B "max_connections") then Some 1024 else None.

(** ** [rev.rs] and [cookie.rs] *)
Module RevTests.

(** [<] and [>] of [PartialOrd] *)
Definition lt (a b : Z) : bool := bool_decide (Rev.partial_cmp a b = Some Lt).
Definition gt (a b : Z) : bool := bool_decide (Rev.partial_cmp a b = Some Gt).

Definition test_eq : outcome () := _ ← assert (Rev.eq 1 1); assert (negb (Rev.eq 1 0)).
Definition test_rev_cmp : outcome () := _ ← assert (lt 1 0); assert (gt 1 2).
End RevTests.

Module CookieTests.
Definition round_trip : outcome () :=
  let a := Cookie.new 1 1 in
  _ ← assert_eq (Cookie.token a) 1;
  _ ← assert_eq (Cookie.nonce a) 1;
  let a := Cookie.new (2 ^ 16 - 1) (2 ^ 48 - 1) in
  _ ← assert_eq (Cookie.token a) (2 ^ 16 - 1);
  assert_eq (Cookie.nonce a) (2 ^ 48 - 1).

Definition overflow : outcome () :=
  let a := Cookie.new (2 ^ 16 + 1) (2 ^ 48 + 1) in
  _ ← assert_eq (Cookie.token a) 1;
  assert_eq (Cookie.nonce a) 1.
End CookieTests.

(** ** [protocol.rs] *)
Module ProtocolTests.
Section tests.
Context `{Profile}.

Abbreviation value := (Value.t (list Z)).

(** [size_of::<Value>()] *)
Definition value_size : Z := 32.

(** What [assert_eq_repr!] compares are the values printed by [Debug]; here
    the values themselves, which have no [Message] inside. *)
Fixpoint same (v w : value) : bool :=
  match v, w with
  | Value.Nil, Value.Nil => true
  | Value.Int a, Value.Int b => a =? b
  | Value.Data a, Value.Data b | Value.Status a, Value.Status b | Value.Error a, Value.Error b =>
      bool_decide (a = b)
  | Value.Array l, Value.Array k =>
      (fix go (l k : list value) : bool :=
         match l, k with
         | [], [] => true
         | v :: l, w :: k => same v w && go l k
         | _, _ => false
         end) l k
  | _, _ => false
  end.

Definition parse (slice : list Z) : outcome (result (value * list Z) ProtocolError) :=
  Parser.parse_body value_size slice.

Definition parse_incomplete : outcome () :=
  r ← parse (B "*2" ++ crlf ++ B "$3" ++ crlf ++ B "foo");
  e ← unwrap_err r;
  assert_eq e Incomplete.

Definition parse_error : outcome () :=
  r ← parse (B "-foo" ++ crlf);
  '(v, _) ← unwrap_ok r;
  _ ← assert (same v (Value.Error (B "foo")));
  r ← parse (B "-invalid line sep" ++ [CR; CR]);
  e ← unwrap_err r;
  assert (match e with Invalid _ => true | Incomplete => false end).

(** An array of two strings, on the wire and as a value. *)
Definition foo_barz : list Z := B "*2" ++ crlf ++ B "$3" ++ crlf ++ B "foo" ++ crlf ++ B "$4" ++ crlf ++ B "barz" ++ crlf.
Definition foo_barz_value : value := Value.Array [Value.Data (B "foo"); Value.Data (B "barz")].

Definition parse_valid_array : outcome () :=
  r ← parse foo_barz;
  '(v, _) ← unwrap_ok r;
  assert (same v foo_barz_value).

Definition parser_multiple2 : outcome () :=
  r ← parse (foo_barz ++ foo_barz);
  '(v, body) ← unwrap_ok r;
  _ ← assert (same v foo_barz_value);
  r ← parse body;
  '(v, body) ← unwrap_ok r;
  _ ← assert (same v foo_barz_value);
  r ← parse body;
  e ← unwrap_err r;
  assert_eq e Incomplete.

Definition request_parse : outcome () :=
  req ← RequestBuffer.fill (RequestBuffer.new (T := list Z)) (B "+OK" ++ [CR]);
  '(req, r) ← RequestBuffer.pop_value value_size req;
  e ← unwrap_err r;
  _ ← assert_eq e Incomplete;
  req ← RequestBuffer.fill req (10 :: B ":100" ++ crlf);
  '(req, r) ← RequestBuffer.pop_value value_size req;
  v ← unwrap_ok r;
  _ ← assert (same v (Value.Status (B "OK")));
  '(req, r) ← RequestBuffer.pop_value value_size req;
  v ← unwrap_ok r;
  assert (same v (Value.Int 100)).

Definition message_response : outcome () :=
  r ← parse (B "*2" ++ crlf ++ B "*2" ++ crlf ++ B ":7270781675605147315" ++ crlf ++ B "$25" ++ crlf
    ++ B "message 1 from producer 0" ++ crlf ++ B "*2" ++ crlf ++ B ":4590316895040267280" ++ crlf
    ++ B "$25" ++ crlf ++ B "message 2 from producer 0" ++ crlf);
  '(_, body) ← unwrap_ok r;
  assert_eq (zlen body) 0.
End tests.
End ProtocolTests.

(** ** [queue_backend.rs] *)
Module BackendTests.
Section tests.
Context `{Profile}.
Variable segment_size : Z.

(** Enough turns for every loop: each of them pushes or reads a message, and
    a message takes more than 100 bytes of the three segments. *)
Definition turns : nat := Z.to_nat (segment_size / 30).

Definition get_backend_opt (name : list Z) (recover : bool)
    (files : gmap (list Z) (list Z)) (checkpoint : option (list Z)) : outcome QueueBackend.t :=
  server_config ← Config.read floki_str floki_int true;
  let d := Config.default_queue_config server_config in
  let server_config := Config.mkServerConfig (B "./test_data") (Config.bind_address server_config)
    (Config.max_connections server_config) (Config.maintenance_interval server_config)
    (Config.monitor_interval server_config)
    (Config.mkQueueConfig (Config.name d) (Config.data_directory d) segment_size (Config.message_timeout d) 1 2 0 0) in
  let c := Config.new_queue_config server_config name in
  let c := Config.mkQueueConfig (Config.name c) (Config.data_directory c) (Config.segment_size c) 1
    (Config.retention_period c) (Config.hard_retention_period c) (Config.retention_size c)
    (Config.hard_retention_size c) in
  QueueBackend.new (λ _, os_sound) files checkpoint c recover.

Definition get_backend : outcome QueueBackend.t := get_backend_opt (B "test") false ∅ None.

(** [backend.push(gen_message(), clock).unwrap()] *)
Definition push (b : QueueBackend.t) (clock : Z) : outcome (QueueBackend.t * Z) :=
  '(b, r) ← QueueBackend.push os_sound b gen_message clock;
  id ← unwrap_ok r;
  mret (b, id).

(** [while backend.segments_count() < 3 { push; num_writes += 1 }]; [stamp]
    is the timestamp of the next message. *)
Definition fill_three (b : QueueBackend.t) (num_writes : Z) (stamp : QueueBackend.t → Z → Z) :
    outcome (QueueBackend.t * Z) :=
  while_loop turns (λ s, mret (QueueBackend.segments_count s.1 <? 3, s))
    (λ s, '(b, _) ← push s.1 (stamp s.1 s.2); mret (b, s.2 + 1)) (b, num_writes).

Definition get_timestamp (b : QueueBackend.t) (timestamp : Z) : outcome Z :=
  id ← QueueBackend.find_id_for_timestamp b timestamp;
  m ← QueueBackend.get b id;
  m ← unwrap m;
  Message.timestamp m.

(** [assert_eq!(backend.find_id_for_timestamp(timestamp), id)] *)
Definition found (b : QueueBackend.t) (timestamp id : Z) : outcome () :=
  i ← QueueBackend.find_id_for_timestamp b timestamp; assert_eq i id.

(** [assert_eq!(get_timestamp(ts), ts)] *)
Definition found_itself (b : QueueBackend.t) (ts : Z) : outcome () := t ← get_timestamp b ts; assert_eq t ts.

Definition test_find_timestamp : outcome () :=
  b ← get_backend;
  '(b, num_writes) ← fill_three b 1 (λ _ n, as_u32 n);
  _ ← found b 0 (QueueBackend.tail b);
  _ ← found b (as_u32 num_writes) (QueueBackend.head b);
  t ← get_timestamp b 0;
  _ ← assert_eq t 1;
  _ ← for_each (seqZ 1 (as_u32 num_writes - 1)) (found_itself b);
  (* remove middle file *)
  let b := QueueBackend.set_segments b (take 1 (QueueBackend.segments b) ++ drop 2 (QueueBackend.segments b)) in
  for_each (QueueBackend.segments b) (λ segment,
    for_each (seqZ (as_u32 (Segment.tail segment)) (as_u32 (Segment.head segment) - as_u32 (Segment.tail segment)))
      (found_itself b)).

Definition test_find_timestamp2 : outcome () :=
  b ← get_backend;
  '(b, num_writes) ← fill_three b 1 (λ _ n, as_u32 (n / 10));
  _ ← found b 0 1;
  for_each (seqZ 10 (num_writes - 10)) (λ id, found b (as_u32 (id / 10)) (id - id mod 10)).

Definition test_find_timestamp3 : outcome () :=
  b ← get_backend;
  _ ← found b 0 (QueueBackend.tail b);
  _ ← found b 100000 (QueueBackend.tail b);
  (* simulate get misses *)
  let b := QueueBackend.mk (QueueBackend.config b) (QueueBackend.segments b) 10000 (QueueBackend.tail b) in
  _ ← found b 0 (QueueBackend.tail b);
  found b 100000 (QueueBackend.tail b).

(** [backend.gc(tail, clock)] and [assert_eq!(backend.segments_count(), n)] *)
Definition gc_leaves (b : QueueBackend.t) (tail clock n : Z) : outcome QueueBackend.t :=
  '(b, _) ← QueueBackend.gc b tail clock;
  _ ← assert_eq (QueueBackend.segments_count b) n;
  mret b.

Definition test_retention_period : outcome () :=
  b ← get_backend;
  '(b, _) ← fill_three b 0 (λ b _, as_u32 (QueueBackend.segments_count b));
  let head := QueueBackend.head b in
  _ ← assert_eq (Segment.last_timestamp <$> QueueBackend.segments b) [1; 2; 2];
  b ← gc_leaves b 1 2 3;
  b ← gc_leaves b head 2 3;
  b ← gc_leaves b 1 3 3;
  b ← gc_leaves b head 3 2;
  _ ← gc_leaves b head 4 1;
  mret ().

Definition test_hard_retention_period : outcome () :=
  b ← get_backend;
  '(b, _) ← fill_three b 0 (λ _ _, 1);
  _ ← gc_leaves b 1 4 1;
  mret ().

(** [while let Some(message) = backend.get(id)]: the next id, the number of
    messages and of holes. *)
Record reads : Type := mkReads { next_id : Z; num_reads : Z; holes : Z }.

Definition read_all (b : QueueBackend.t) : outcome reads :=
  '(_, r) ← while_loop turns
    (λ s, m ← QueueBackend.get b (next_id s.2); mret (bool_decide (is_Some m), (m, s.2)))
    (λ s,
      message ← unwrap s.1;
      message_id ← Message.id message;
      mret (None, mkReads (message_id + 1) (num_reads s.2 + 1)
        (if message_id =? next_id s.2 then holes s.2 else holes s.2 + 1)))
    (None, mkReads 1 0 0);
  mret r.

(** [file.set_len(n)] on the contents of a file *)
Definition set_len (contents : list Z) (n : Z) : list Z :=
  take (Z.to_nat n) contents ++ replicate (Z.to_nat n - length contents) 0.

Definition reads_are (r : reads) (id n h : Z) : outcome () :=
  _ ← assert_eq (next_id r) id; _ ← assert_eq (num_reads r) n; assert_eq (holes r) h.

Definition test_corrupt_files : outcome () :=
  b ← get_backend;
  '(b, num_writes) ← fill_three b 0 (λ _ _, 0);
  '(b, checkpoint) ← QueueBackend.checkpoint os_sound true b true;
  first ← unwrap (QueueBackend.segments b !! 0%nat);
  second ← unwrap (QueueBackend.segments b !! 1%nat);
  let files := QueueBackend.segment_files b in
  (* zero second half of first file, nuke the second *)
  let files := <[Segment.file_path first :=
    set_len (set_len (Segment.file_mmap first) (Segment.file_len first / 2)) (Segment.file_len first)]> files in
  let files := <[Segment.file_path second :=
    set_len (set_len (Segment.file_mmap second) 0) (Segment.file_len second)]> files in
  b ← get_backend_opt (B "test") true files (Some checkpoint);
  r ← read_all b;
  _ ← reads_are r (QueueBackend.head b) (num_writes / 4 + 1) 1;
  (* truncate the third *)
  third ← unwrap (QueueBackend.segments b !! 2%nat);
  let files := <[Segment.file_path third := []]> (QueueBackend.segment_files b ∪ files) in
  b ← get_backend_opt (B "test") true files (Some checkpoint);
  r ← read_all b;
  first ← unwrap (QueueBackend.segments b !! 0%nat);
  _ ← reads_are r (Segment.head first) (num_writes / 4) 0;
  (* push to the third file, that we nuked *)
  let prev_reads := num_reads r in
  '(b, _) ← push b 0;
  '(b, _) ← push b 0;
  r ← read_all b;
  reads_are r (QueueBackend.head b) (prev_reads + 2) 1.

(** The turn of the loop for the file [segment_num]. *)
Definition missing_file (files : gmap (list Z) (list Z)) (checkpoint : list Z) (n h : Z) : outcome () :=
  b ← get_backend_opt (B "test") true files (Some checkpoint);
  r ← read_all b;
  reads_are r (QueueBackend.head b) n h.

Definition test_missing_file : outcome () :=
  b ← get_backend;
  '(b, num_writes) ← fill_three b 0 (λ _ _, 0);
  '(b, checkpoint) ← QueueBackend.checkpoint os_sound true b true;
  match Segment.file_path <$> QueueBackend.segments b with
  | [p0; p1; p2] =>
      let files := delete p0 (QueueBackend.segment_files b) in
      _ ← missing_file files checkpoint ((num_writes - 1) / 2 + 1) 1;
      let files := delete p1 files in
      _ ← missing_file files checkpoint 1 1;
      let files := delete p2 files in
      missing_file files checkpoint 0 0
  | _ => Panic
  end.
End tests.

Definition all `{Profile} (segment_size : Z) : list (outcome ()) :=
  (λ t, t segment_size) <$>
    [test_find_timestamp; test_find_timestamp2; test_find_timestamp3; test_retention_period;
     test_hard_retention_period; test_corrupt_files; test_missing_file].
End BackendTests.

(** ** [queue.rs] *)
Module QueueTests.
Section tests.
Context `{Profile}.
Variables (segment_size : Z) (count : nat).

Abbreviation queue := (InnerQueue.t QueueBackend.t (list (Z * Channel.InFlightState))).

(** What is on the disk for the next start: the data files and the two
    checkpoints. *)
Record disk : Type := mkDisk {
  files : gmap (list Z) (list Z);
  backend_checkpoint : option (list Z);
  queue_checkpoint : option (list Z);
}.

Definition get_queue_opt (name : list Z) (recover : bool) (d : disk) : outcome queue :=
  server_config ← Config.read floki_str floki_int true;
  let c := Config.default_queue_config server_config in
  let server_config := Config.mkServerConfig (B "./test_data") (Config.bind_address server_config)
    (Config.max_connections server_config) (Config.maintenance_interval server_config)
    (Config.monitor_interval server_config)
    (Config.mkQueueConfig (Config.name c) (Config.data_directory c) segment_size (Config.message_timeout c) 1 2
      (Config.retention_size c) (Config.hard_retention_size c)) in
  let c := Config.new_queue_config server_config name in
  let c := Config.mkQueueConfig (Config.name c) (Config.data_directory c) (Config.segment_size c) 1
    (Config.retention_period c) (Config.hard_retention_period c) (Config.retention_size c)
    (Config.hard_retention_size c) in
  b ← QueueBackend.new (λ _, os_sound) (files d) (backend_checkpoint d) c recover;
  InnerQueue.new os_sound true c b (queue_checkpoint d) recover.

Definition get_queue : outcome queue := get_queue_opt (B "test") false (mkDisk ∅ None None).

(** [q.checkpoint(true)], and what it leaves on the disk. *)
Definition checkpoint (q : queue) : outcome (queue * disk) :=
  '(_, backend_file) ← QueueBackend.checkpoint os_sound true (InnerQueue.backend q) true;
  '(q, queue_file) ← InnerQueue.checkpoint os_sound true q true;
  mret (q, mkDisk (QueueBackend.segment_files (InnerQueue.backend q)) (Some backend_file) (Some queue_file)).

(** [q = get_queue_recover()]: the queue that was in [q] is dropped after
    the new one is made. *)
Definition get_queue_recover (q : queue) (d : disk) : outcome queue :=
  q' ← get_queue_opt (B "test") true d;
  _ ← InnerQueue.drop_queue os_sound true q;
  mret q'.

(** The end of a test drops its queue. *)
Definition finish (q : queue) : outcome () := _ ← InnerQueue.drop_queue os_sound true q; mret ().

Definition test : list Z := B "test".

(** [q.push(gen_message(), clock).unwrap()] *)
Definition push (q : queue) (clock : Z) : outcome queue :=
  '(q, r) ← InnerQueue.push os_sound q gen_message clock; _ ← unwrap_ok r; mret q.

(** [q.get("test", clock)] with the ticket it draws. *)
Definition get (q : queue) (clock ticket : Z) : outcome (queue * result (Z * Message.t) InnerQueue.QueueError) :=
  InnerQueue.get q test clock ticket.

(** [q.get("test", clock).unwrap()] and [.unwrap_err()] *)
Definition get_some (q : queue) (clock ticket : Z) : outcome queue :=
  '(q, r) ← get q clock ticket; _ ← unwrap_ok r; mret q.
Definition get_none (q : queue) (clock ticket : Z) : outcome queue :=
  '(q, r) ← get q clock ticket; _ ← unwrap_err r; mret q.

(** [q.create_channel("test", clock).unwrap()], and [unwrap_err] of it. *)
Definition create (q : queue) (clock : Z) : outcome queue :=
  let '(q, r) := InnerQueue.create_channel q test clock in _ ← unwrap_ok r; mret q.
Definition create_again (q : queue) (clock : Z) : outcome queue :=
  let '(q, r) := InnerQueue.create_channel q test clock in
  e ← unwrap_err r; _ ← assert (match e with InnerQueue.ChannelAlreadyExists => true | _ => false end); mret q.

Fixpoint repeat_n {A : Type} (n : nat) (body : A → outcome A) (a : A) : outcome A :=
  match n with O => mret a | S n => a ← body a; repeat_n n body a end.

Definition test_fill : outcome () :=
  q ← get_queue;
  q ← repeat_n count (λ q, push q 0) q;
  finish q.

Definition test_put_get : outcome () :=
  q ← get_queue;
  q ← create q 0;
  '(q, _) ← repeat_n count (λ s,
    q ← push s.1 0;
    '(q, r) ← get q 0 s.2;
    '(_, m) ← unwrap_ok r;
    body ← Message.body m;
    _ ← assert_eq body gen_message;
    mret (q, s.2 + 1)) (q, 1);
  finish q.

Definition test_create_channel : outcome () :=
  q ← get_queue;
  q ← get_none q 0 1;
  q ← push q 0;
  q ← create q 0;
  q ← create_again q 0;
  q ← get_none q 0 2;
  q ← push q 0;
  q ← get_some q 0 3;
  finish q.

(** [assert_eq!(q.info(clock).channels["test"].in_flight_count, n)] *)
Definition in_flight_is (q : queue) (clock n : Z) : outcome queue :=
  '(q, info) ← InnerQueue.info q clock;
  c ← unwrap (InnerQueue.qi_channels info !! test);
  _ ← assert_eq (InnerQueue.ci_in_flight_count c) n;
  mret q.

Definition test_in_flight : outcome () :=
  q ← get_queue;
  q ← create q 0;
  q ← push q 1;
  q ← get_some q 1 1;
  q ← get_none q 1 2;
  q ← in_flight_is q 1 1;
  q ← in_flight_is q 2 0;
  finish q.

Definition test_in_flight_timeout : outcome () :=
  q ← get_queue;
  q ← create q 0;
  q ← push q 0;
  q ← get_some q 0 1;
  q ← get_none q 0 2;
  q ← get_some q 1 3;
  finish q.

Definition segments (q : queue) (clock : Z) : outcome (queue * Z) :=
  '(q, info) ← InnerQueue.info q clock; mret (q, InnerQueue.qi_segments_count info).

Definition turns : nat := Z.to_nat (segment_size / 30).

(** [while q.info(clock).segments_count < 3 { body }] on a queue and a
    counter *)
Definition until_three (clock : Z) (body : queue → Z → outcome queue) (q : queue) (n : Z) : outcome (queue * Z) :=
  while_loop turns (λ s, '(q, k) ← segments s.1 clock; mret (k <? 3, (q, s.2)))
    (λ s, q ← body s.1 s.2; mret (q, s.2 + 1)) (q, n).

Definition test_backend_recover : outcome () :=
  q ← get_queue;
  q ← create q 0;
  '(q, put_msg_count) ← until_three 0 (λ q _, push q 0) q 0;
  '(q, d) ← checkpoint q;
  q ← get_queue_recover q d;
  q ← create_again q 1;
  '(q, k) ← segments q 0;
  _ ← assert_eq k 3;
  '(q, get_msg_count) ← while_loop turns
    (λ s, '(q, r) ← get s.1 0 (s.2 + 1); mret (is_ok r, (q, s.2)))
    (λ s, mret (s.1, s.2 + 1)) (q, 0);
  _ ← assert_eq get_msg_count put_msg_count;
  finish q.

Definition test_queue_recover : outcome () :=
  q ← get_queue;
  q ← create q 0;
  q ← push q 0;
  q ← push q 0;
  q ← get_some q 0 1;
  q ← get_some q 0 2;
  q ← get_none q 0 3;
  '(q, d) ← checkpoint q;
  q ← get_queue_recover q d;
  q ← create_again q 0;
  q ← get_some q 0 4;
  q ← get_some q 0 5;
  q ← get_none q 0 6;
  finish q.

Definition test_maintenance : outcome () :=
  q ← get_queue;
  q ← create q 1;
  '(q, _) ← until_three 1 (λ q n,
    q ← push q 1;
    '(q, r) ← get q 1 (n + 1);
    '(ticket, _) ← unwrap_ok r;
    '(q, r) ← InnerQueue.ack q test ticket 1;
    _ ← unwrap_ok r;
    mret q) q 0;
  '(q, _, _) ← InnerQueue.maintenance os_sound true q 2;
  '(q, k) ← segments q 2;
  _ ← assert_eq k 3;
  '(q, _, _) ← InnerQueue.maintenance os_sound true q 3;
  '(q, k) ← segments q 3;
  _ ← assert_eq k 1;
  finish q.
End tests.

Definition all `{Profile} (segment_size : Z) (count : nat) : list (outcome ()) :=
  [test_fill segment_size count; test_put_get segment_size count; test_create_channel segment_size;
   test_in_flight segment_size; test_in_flight_timeout segment_size; test_backend_recover segment_size;
   test_queue_recover segment_size; test_maintenance segment_size].
End QueueTests.

(** The unit tests of the repository pass on the model, in both build
    profiles: those of the orders, the cookies and the parser as they are,
    those of the backend and of the queues with segments of 1000 bytes (8
    messages each). *)
Theorem unit_tests_pass (dbg : bool) (P := dbg : Profile) :
  Forall (λ t, t = Done ())
    ([RevTests.test_eq; RevTests.test_rev_cmp; CookieTests.round_trip; CookieTests.overflow;
      ProtocolTests.parse_incomplete; ProtocolTests.parse_error; ProtocolTests.parse_valid_array;
      ProtocolTests.parser_multiple2; ProtocolTests.request_parse; ProtocolTests.message_response]
     ++ BackendTests.all 1000 ++ QueueTests.all 1000 50).
Proof. destruct dbg; vm_compute; repeat constructor. Qed.
