(* ===== verification/Commands.v ===== *)
(** * Commands ([server.rs], [NotifyMessage] and [Dispatch])

    A request is carried out by [Dispatch] on a worker thread: it works on
    the shared table of queues, sends notifications to the event loop and
    answers the client with one message. The state below is what a request
    changes: the table, the notifications sent, in order, and the
    directories removed from the disk. A request runs alone here; the locks
    are in [Locks.v] and [MetaLock.v]. *)
From S2P Require Import Prelude.
From S2P Require Import Text.
From S2P Require Import Settings.
From S2P Require Import Segments.
From S2P Require Import Backend.
From S2P Require Import Channels.
From S2P Require Import Queues.
From S2P Require Import Wire.

(** [struct ServerInfo]. *)
Record ServerInfo : Type := mkServerInfo {
  client_count : Z;
  blocked_client_count : Z;
  queue_count : Z;
  thread_count : Z;
  si_clock : Z;
}.

Module NotifyMessage.

(** The [promise] of the last two is the reply, an argument of [Dispatch]. *)
Inductive t (T : Type) : Type :=
| Response (response : Value.t T)
| PutResponse (response : Value.t T) (queue : list Z) (head : Z)
| MessagesAvailable (queue channel : list Z) (available : Z)
| GetWouldBlock (request : Value.t T) (queue channel : list Z) (required_head timeout : Z)
| ChannelCreate (queue channel : list Z)
| ChannelDelete (queue channel : list Z)
| QueueCreate (queue : list Z)
| QueueDelete (queue : list Z)
| ServerInfo
| ServerSetConfig (key value : list Z).
Arguments Response {T}.
Arguments PutResponse {T}.
Arguments MessagesAvailable {T}.
Arguments GetWouldBlock {T}.
Arguments ChannelCreate {T}.
Arguments ChannelDelete {T}.
Arguments QueueCreate {T}.
Arguments QueueDelete {T}.
Arguments ServerInfo {T}.
Arguments ServerSetConfig {T}.

Section ops.
Context {T : Type} `{Tendril T}.

Definition with_value (value : Value.t T) : t T := Response value.
Definition with_ok : t T := with_value (Value.Status (td_from (B "OK"))).
Definition with_error (error : list Z) : t T := with_value (Value.Error (td_from error)).
Definition with_nil : t T := with_value Value.Nil.
Definition with_int (int : Z) : t T := with_value (Value.Int int).

(** The [Debug] text of an [io::Error]. *)
Variable io_debug : Z → list Z.

Definition debug_backend_error (e : QueueBackendError) : list Z :=
  match e with
  | MessageTooBig => B "MessageTooBig"
  | SegmentFull => B "SegmentFull"
  | SegmentFileInvalid => B "SegmentFileInvalid"
  | Io e => B "Io(" ++ io_debug e ++ B ")"
  end.

Definition debug_queue_error (e : InnerQueue.QueueError) : list Z :=
  match e with
  | InnerQueue.QueueAlreadyExists => B "QueueAlreadyExists"
  | InnerQueue.QueueNotFound => B "QueueNotFound"
  | InnerQueue.ChannelAlreadyExists => B "ChannelAlreadyExists"
  | InnerQueue.ChannelNotFound => B "ChannelNotFound"
  | InnerQueue.TicketNotFound => B "TicketNotFound"
  | InnerQueue.EndOfQueue n => B "EndOfQueue(" ++ print_u64 n ++ B ")"
  | InnerQueue.Backend e => B "Backend(" ++ debug_backend_error e ++ B ")"
  end.

(** [impl From<QueueError> for NotifyMessage]. *)
Definition from_error (from : InnerQueue.QueueError) : t T :=
  match from with
  | InnerQueue.QueueNotFound => with_error (B "QNF Queue Not Found")
  | InnerQueue.ChannelNotFound => with_error (B "CNF Channel Not Found")
  | InnerQueue.QueueAlreadyExists => with_error (B "QAE Queue Already Exists")
  | InnerQueue.ChannelAlreadyExists => with_error (B "CAE Channel Already Exists")
  | _ => with_error (B "Unexpected error " ++ debug_queue_error from)
  end.

End ops.
End NotifyMessage.

(** ** Strings of requests *)

(** [(b as char).is_alphanumeric()]: the byte is taken as the code point
    U+0000 - U+00FF; beyond ASCII these are the letters and the numbers
    (superscripts and fractions) of Latin-1. *)
Definition is_alphanumeric (b : Z) : bool :=
  in_range 48 57 b || in_range 65 90 b || in_range 97 122 b ||
  (b =? 0xAA) || (b =? 0xB2) || (b =? 0xB3) || (b =? 0xB5) || (b =? 0xB9) || (b =? 0xBA) ||
  in_range 0xBC 0xBE b || in_range 0xC0 0xD6 b || in_range 0xD8 0xF6 b || in_range 0xF8 0xFF b.

Definition check_identifier_str (possibly_str : list Z) : option (list Z) :=
  if forallb (λ b, is_alphanumeric b || (b =? 95)) possibly_str then Some possibly_str else None.

(** [str::splitn(n, ".")] for [n = S k]: at most [k] dots split. *)
Fixpoint splitn (k : nat) (cur s : list Z) : list (list Z) :=
  match s with
  | [] => [cur]
  | b :: s =>
      match k with
      | O => [cur ++ b :: s]
      | S k' => if b =? 46 then cur :: splitn k' [] s else splitn k (cur ++ [b]) s
      end
  end.

(** [str::starts_with]. *)
Definition starts_with (prefix s : list Z) : bool := bool_decide (take (length prefix) s = prefix).

(** [queue_config_set!]: the new configuration or the error text. *)
Definition queue_config_set (c : Config.QueueConfig) (k v : list Z) : result Config.QueueConfig (list Z) :=
  let duration (f : Z → Config.QueueConfig) :=
    match Config.parse_duration v with
    | Ok d => Ok (f (as_u32 (d / 1000)))
    | Err _ => Err (B "IPA Invalid Duration Value")
    end in
  let size (f : Z → Config.QueueConfig) :=
    match Config.parse_size v with
    | Ok n => Ok (f n)
    | Err _ => Err (B "IPA Invalid Size Value")
    end in
  let '(Config.mkQueueConfig name dir segment_size message_timeout retention_period
         hard_retention_period retention_size hard_retention_size) := c in
  if bool_decide (k = B "message_timeout") then
    duration (λ d, Config.mkQueueConfig name dir segment_size d retention_period
      hard_retention_period retention_size hard_retention_size)
  else if bool_decide (k = B "segment_size") then
    size (λ n, Config.mkQueueConfig name dir n message_timeout retention_period
      hard_retention_period retention_size hard_retention_size)
  else if bool_decide (k = B "retention_size") then
    size (λ n, Config.mkQueueConfig name dir segment_size message_timeout retention_period
      hard_retention_period n hard_retention_size)
  else if bool_decide (k = B "hard_retention_size") then
    size (λ n, Config.mkQueueConfig name dir segment_size message_timeout retention_period
      hard_retention_period retention_size n)
  else if bool_decide (k = B "retention_period") then
    duration (λ d, Config.mkQueueConfig name dir segment_size message_timeout d
      hard_retention_period retention_size hard_retention_size)
  else if bool_decide (k = B "hard_retention_period") then
    duration (λ d, Config.mkQueueConfig name dir segment_size message_timeout retention_period
      d retention_size hard_retention_size)
  else Err (B "IPA Invalid CONFIG SET parameter").

(** ** Requests *)
Module Dispatch.

(** What a request takes from its [Dispatch] and from its surroundings:
    the configuration and the clock it was created with, the disk, the
    random tickets in the order they are drawn, and the replies of the event
    loop to the two notifications that carry a promise. *)
Record Env (T : Type) : Type := mkEnv {
  config : Config.ServerConfig;
  clock : Z;
  os : Os;
  written : bool;
  removed : bool;
  ticket : nat → Z;
  server_info : ServerInfo;
  server_set_config : list Z → list Z → NotifyMessage.t T;
}.
Arguments config {T}.
Arguments clock {T}.
Arguments os {T}.
Arguments written {T}.
Arguments removed {T}.
Arguments ticket {T}.
Arguments server_info {T}.
Arguments server_set_config {T}.

Record state (T B M : Type) : Type := mkState {
  queues : gmap (list Z) (InnerQueue.t B M);
  sent : list (NotifyMessage.t T);
  wiped : list (list Z);
}.
Arguments mkState {T B M}.
Arguments queues {T B M}.
Arguments sent {T B M}.
Arguments wiped {T B M}.

Section ops.
Context `{Profile} {T : Type} `{Tendril T} {B M : Type} `{BackendOps B Message.t}
  `{LinkedHashMap Channel.InFlightState M} `{Json InnerQueue.QueueCheckpoint}
  `{Json Config.ServerConfig} `{Json (gmap (list Z) Config.QueueConfig)}
  `{Json (gmap (list Z) InnerQueue.QueueInfo)} `{Json ServerInfo}.
(** [size_of::<Value>()], [QueueBackend::new(config, false)] and the [Debug]
    text of an [io::Error]. *)
Variable value_size : Z.
Variable new_backend : Config.QueueConfig → outcome B.
Variable io_debug : Z → list Z.

Abbreviation queue := (InnerQueue.t B M).
Abbreviation message := (NotifyMessage.t T).
Implicit Types (st : state T B M) (env : Env T) (args : list (list Z)).

Definition set_queues st qs : state T B M := mkState qs (sent st) (wiped st).
Definition set_queue st (name : list Z) (q : queue) : state T B M :=
  set_queues st (<[name := q]> (queues st)).
Definition notify_server st (n : message) : state T B M :=
  mkState (queues st) (sent st ++ [n]) (wiped st).
Definition wipe st (dir : list Z) : state T B M := mkState (queues st) (sent st) (wiped st ++ [dir]).

Definition reply st (n : message) : outcome (state T B M * message) := mret (st, n).
Definition error st (text : string) : outcome (state T B M * message) :=
  reply st (NotifyMessage.with_error (Text.B text)).
Definition queue_error st (e : InnerQueue.QueueError) : outcome (state T B M * message) :=
  reply st (NotifyMessage.from_error io_debug e).

(** [args[i]] *)
Definition arg args (i : nat) : outcome (list Z) := unwrap (args !! i).

Definition get_queue st (name : list Z) : result queue InnerQueue.QueueError :=
  match queues st !! name with Some q => Ok q | None => Err InnerQueue.QueueNotFound end.

(** [InnerQueue::new] removes the queue's directory first. *)
Definition create_queue env st (name : list Z) (use_existing : bool) :
    outcome (state T B M * result () InnerQueue.QueueError) :=
  match queues st !! name with
  | Some _ => mret (st, if use_existing then Ok () else Err InnerQueue.QueueAlreadyExists)
  | None =>
      let c := Config.new_queue_config (config env) name in
      let st := wipe st (Config.data_directory c) in
      _ ← assert (removed env);
      b ← new_backend c;
      q ← InnerQueue.new (os env) (written env) c b None false;
      let st := notify_server st (NotifyMessage.QueueCreate name) in
      mret (set_queue st name q, Ok ())
  end.

(** Nobody else uses the queue: [strong_count] is 1. *)
Definition delete_queue env st (name : list Z) : outcome (state T B M) :=
  match queues st !! name with
  | None => mret st
  | Some q =>
      let st := set_queues st (delete name (queues st)) in
      let st := notify_server st (NotifyMessage.QueueDelete name) in
      '(q, _) ← InnerQueue.delete_queue (os env) (written env) (removed env) q;
      mret (wipe st (Config.data_directory (InnerQueue.config q)))
  end.

Definition delete_channel st (queue_name : list Z) (q : queue) (channel_name : list Z) :
    state T B M * result () InnerQueue.QueueError :=
  match InnerQueue.delete_channel q channel_name with
  | (q, Ok _) =>
      (notify_server (set_queue st queue_name q) (NotifyMessage.ChannelDelete queue_name channel_name), Ok ())
  | (q, Err e) => (set_queue st queue_name q, Err e)
  end.

Definition create_channel env st (queue_name : list Z) (q : queue) (channel_name : list Z)
    (use_existing : bool) : state T B M * result () InnerQueue.QueueError :=
  match InnerQueue.create_channel q channel_name (clock env) with
  | (q, Ok _) =>
      (notify_server (set_queue st queue_name q) (NotifyMessage.ChannelCreate queue_name channel_name), Ok ())
  | (q, Err e) => (set_queue st queue_name q, if use_existing then Ok () else Err e)
  end.

Definition hmset env st args : outcome (state T B M * message) :=
  if zlen args <? 5 then error st "MPA Queue or Channel or TS|ID or Value Missing" else
  queue_name ← arg args 1;
  channel_name ← arg args 2;
  seek_type ← arg args 3;
  seek_value_str ← arg args 4;
  match get_queue st queue_name with
  | Err e => queue_error st e
  | Ok q =>
      let seek (r : outcome (queue * result () InnerQueue.QueueError)) :=
        '(q, r) ← r;
        let st := set_queue st queue_name q in
        match r with
        | Ok _ => reply st (NotifyMessage.with_int 2)
        | Err e => queue_error st e
        end in
      if bool_decide (seek_type = Text.B "TS") then
        match parse_u32 seek_value_str with
        | Some timestamp => seek (InnerQueue.seek_channel_to_timestamp q channel_name timestamp (clock env))
        | None => error st "IPA Invalid Timestamp"
        end
      else if bool_decide (seek_type = Text.B "ID") then
        match parse_u64 seek_value_str with
        | Some id => seek (InnerQueue.seek_channel_to_id q channel_name id (clock env))
        | None => error st "IPA Invalid ID"
        end
      else error st "IPA Invalid Seek Type Expected TS or ID"
  end.

(** The loop of [hmget]: [n] rounds are left, [results] were read. *)
Fixpoint hmget_loop env st (queue_name channel_name : list Z) (timeout : Z) (request : Value.t T)
    (n : nat) (results : list (Value.t T)) : outcome (state T B M * message) :=
  match n with
  | O => reply st (NotifyMessage.with_value (Value.Array results))
  | S n =>
      q ← unwrap (queues st !! queue_name);
      '(q, r) ← InnerQueue.get q channel_name (clock env) (ticket env (length results));
      let st := set_queue st queue_name q in
      match r with
      | Ok (ticket, message) =>
          hmget_loop env st queue_name channel_name timeout request n (results ++ [Value.Message ticket message])
      | Err (InnerQueue.EndOfQueue required_head) =>
          if negb (timeout =? 0) && (zlen results =? 0) then
            reply st (NotifyMessage.GetWouldBlock request queue_name channel_name required_head timeout)
          else reply st (NotifyMessage.with_value (Value.Array results))
      | Err e => queue_error st e
      end
  end.

Definition hmget env st (request : Value.t T) args : outcome (state T B M * message) :=
  if zlen args <? 4 then error st "MPA Queue or Channel or Count Missing" else
  queue_name ← arg args 1;
  channel_name ← arg args 2;
  count_arg ← arg args 3;
  match parse_u64 count_arg with
  | None => error st "IPA Invalid count value"
  | Some count =>
      match match args !! 4%nat with Some a => parse_u32 a | None => Some 0 end with
      | None => error st "IPA Invalid timeout value"
      | Some timeout =>
          match get_queue st queue_name with
          | Err e => queue_error st e
          | Ok _ =>
              _ ← Parser.with_capacity value_size count;
              hmget_loop env st queue_name channel_name timeout request (Z.to_nat count) []
          end
      end
  end.

Definition set env st args : outcome (state T B M * message) :=
  if zlen args <? 3 then error st "MPA Queue or Channel Missing" else
  cmd ← arg args 0;
  last_arg ← unwrap (last args);
  let nx_flag := bool_decide (cmd = Text.B "SETNX") || ((3 <? zlen args) && bool_decide (last_arg = Text.B "NX")) in
  queue_arg ← arg args 1;
  channel_arg ← arg args 2;
  match check_identifier_str queue_arg with
  | None => error st "IPA Invalid Identifier Name"
  | Some queue_name =>
      match check_identifier_str channel_arg with
      | None => error st "IPA Invalid Identifier Name"
      | Some channel_name =>
          '(st, r) ← create_queue env st queue_name nx_flag;
          match r with
          | Err e => queue_error st e
          | Ok _ =>
              q ← unwrap (queues st !! queue_name);
              match create_channel env st queue_name q channel_name nx_flag with
              | (st, Err e) => queue_error st e
              | (st, Ok _) => reply st NotifyMessage.with_ok
              end
          end
      end
  end.

Definition rpush env st args : outcome (state T B M * message) :=
  if zlen args <? 3 then error st "MPA Queue or Value Missing" else
  queue_name ← arg args 1;
  let messages := drop 2 args in
  match get_queue st queue_name with
  | Err e => queue_error st e
  | Ok q =>
      '(q, r) ← InnerQueue.push_many (os env) q messages (clock env);
      let st := set_queue st queue_name q in
      match r with
      | Err e => queue_error st e
      | Ok last_id =>
          head ← u64 (last_id + 1);
          reply st (NotifyMessage.PutResponse (Value.Int (zlen messages)) queue_name head)
      end
  end.

(** The loop of [hdel]: acknowledges until a ticket is not a number. *)
Fixpoint hdel_loop env st (queue_name channel_name : list Z) (tickets : list (list Z)) (successfully : Z) :
    outcome (state T B M * message) :=
  match tickets with
  | [] => reply st (NotifyMessage.with_int successfully)
  | ticket_arg :: tickets =>
      match parse_i64 ticket_arg with
      | None => error st "IPA Invalid Ticket"
      | Some ticket =>
          q ← unwrap (queues st !! queue_name);
          '(q, r) ← InnerQueue.ack q channel_name ticket (clock env);
          hdel_loop env (set_queue st queue_name q) queue_name channel_name tickets
            (if is_ok r then successfully + 1 else successfully)
      end
  end.

Definition hdel env st args : outcome (state T B M * message) :=
  if zlen args <? 4 then error st "MPA Queue, Channel or Id Missing" else
  queue_name ← arg args 1;
  channel_name ← arg args 2;
  match get_queue st queue_name with
  | Err e => queue_error st e
  | Ok _ => hdel_loop env st queue_name channel_name (drop 3 args) 0
  end.

Definition del env st args : outcome (state T B M * message) :=
  if zlen args <? 2 then error st "MPA Queue Missing" else
  queue_name ← arg args 1;
  match get_queue st queue_name with
  | Err _ => reply st (NotifyMessage.with_int 0)
  | Ok q =>
      match args !! 2%nat with
      | None => st ← delete_queue env st queue_name; reply st (NotifyMessage.with_int 1)
      | Some channel_name =>
          match delete_channel st queue_name q channel_name with
          | (st, Ok _) => reply st (NotifyMessage.with_int 1)
          | (st, Err _) => reply st (NotifyMessage.with_int 0)
          end
      end
  end.

Definition srem env st args : outcome (state T B M * message) :=
  if zlen args <? 3 then error st "MPA Queue or Channel Missing" else
  queue_name ← arg args 1;
  channel_name ← arg args 2;
  match get_queue st queue_name with
  | Err _ => reply st (NotifyMessage.with_int 0)
  | Ok q =>
      if bool_decide (channel_name = Text.B "*") then
        '(q, _) ← InnerQueue.purge (os env) (written env) q;
        reply (set_queue st queue_name q) (NotifyMessage.with_int 1)
      else
        '(q, r) ← InnerQueue.purge_channel q channel_name (clock env);
        reply (set_queue st queue_name q) (NotifyMessage.with_int (if is_ok r then 1 else 0))
  end.

Definition config_queue_get st (queue_prefix : list Z) : gmap (list Z) Config.QueueConfig :=
  map_imap (λ name q,
    if bool_decide (queue_prefix = Text.B "*") || starts_with queue_prefix name
    then Some (InnerQueue.config q) else None) (queues st).

Definition json_reply st (json_bytes : list Z) : outcome (state T B M * message) :=
  reply st (NotifyMessage.with_value (Value.Array [Value.Data (td_from json_bytes)])).

Definition config_get env st args : outcome (state T B M * message) :=
  name ← arg args 2;
  match splitn 1 [] name with
  | [a] =>
      if bool_decide (a = Text.B "server") then json_reply st (json_encode (config env))
      else if bool_decide (a = Text.B "queues") then json_reply st (json_encode (config_queue_get st (Text.B "*")))
      else error st "IPA Invalid CONFIG parameter"
  | [a; queue_prefix] =>
      if bool_decide (a = Text.B "queues") then json_reply st (json_encode (config_queue_get st queue_prefix))
      else error st "IPA Invalid CONFIG parameter"
  | _ => error st "IPA Invalid CONFIG parameter"
  end.

(** The changed copy of a queue's configuration is dropped. *)
Definition config_set env st args : outcome (state T B M * message) :=
  name ← arg args 2;
  config_value ← arg args 3;
  match splitn 2 [] name with
  | [a; config_name] =>
      if bool_decide (a = Text.B "server") then
        reply (notify_server st (NotifyMessage.ServerSetConfig config_name config_value))
          (server_set_config env config_name config_value)
      else error st "IPA Invalid CONFIG SET parameter"
  | [a; queue_name; config_name] =>
      if bool_decide (a = Text.B "queues") then
        match get_queue st queue_name with
        | Err e => queue_error st e
        | Ok q =>
            match queue_config_set (InnerQueue.config q) config_name config_value with
            | Err text => reply st (NotifyMessage.with_error text)
            | Ok _ => reply st NotifyMessage.with_ok
            end
        end
      else error st "IPA Invalid CONFIG SET parameter"
  | _ => error st "IPA Invalid CONFIG SET parameter"
  end.

Definition config_command env st args : outcome (state T B M * message) :=
  if (zlen args <? 3) || (bool_decide (args !! 1%nat = Some (Text.B "SET")) && (zlen args <? 4))
  then error st "MPA Missing CONFIG Parameter" else
  sub ← arg args 1;
  if bool_decide (sub = Text.B "GET") then config_get env st args
  else if bool_decide (sub = Text.B "SET") then config_set env st args
  else error st "IPA Invalid CONFIG Parameter".

(** [Queue::info] counts the in-flight messages, which updates channels. *)
Definition info_queue env st (queue_prefix : list Z) :
    outcome (state T B M * gmap (list Z) InnerQueue.QueueInfo) :=
  let chosen := filter (λ e, starts_with queue_prefix e.1 = true) (queues st) in
  infos ← map_values (λ q, InnerQueue.info q (clock env)) chosen;
  mret (set_queues st ((fst <$> infos) ∪ queues st), snd <$> infos).

Definition info env st args : outcome (state T B M * message) :=
  if zlen args <? 2 then error st "MPA Missing INFO Parameter" else
  name ← arg args 1;
  match splitn 1 [] name with
  | [a] =>
      if bool_decide (a = Text.B "server") then
        json_reply (notify_server st NotifyMessage.ServerInfo) (json_encode (server_info env))
      else if bool_decide (a = Text.B "queues") then
        '(st, infos) ← info_queue env st []; json_reply st (json_encode infos)
      else error st "IPA Invalid INFO parameter"
  | [a; queue_prefix] =>
      if bool_decide (a = Text.B "queues") then
        '(st, infos) ← info_queue env st queue_prefix; json_reply st (json_encode infos)
      else error st "IPA Invalid INFO parameter"
  | _ => error st "IPA Invalid INFO parameter"
  end.

(** The arguments of a request: an array of 1 to 50 strings. *)
Fixpoint data_args (a : list (Value.t T)) : option (list (list Z)) :=
  match a with
  | [] => Some []
  | Value.Data d :: a => cons (td_bytes d) <$> data_args a
  | _ :: _ => None
  end.

Definition run_command env st (request : Value.t T) args : outcome (state T B M * message) :=
  cmd ← arg args 0;
  if bool_decide (cmd = Text.B "RPUSH") then rpush env st args
  else if bool_decide (cmd = Text.B "HMGET") then hmget env st request args
  else if bool_decide (cmd = Text.B "HDEL") then hdel env st args
  else if bool_decide (cmd = Text.B "INFO") then info env st args
  else if bool_decide (cmd = Text.B "HMSET") then hmset env st args
  else if bool_decide (cmd = Text.B "SET" ∨ cmd = Text.B "SETNX") then set env st args
  else if bool_decide (cmd = Text.B "DEL") then del env st args
  else if bool_decide (cmd = Text.B "SREM") then srem env st args
  else if bool_decide (cmd = Text.B "CONFIG") then config_command env st args
  else error st "UCOM Unknown Command".

Definition dispatch env st (request : Value.t T) : outcome (state T B M * message) :=
  match request with
  | Value.Array a =>
      if (0 <? zlen a) && (zlen a <=? 50) then
        match data_args a with
        | Some args => run_command env st request args
        | None => error st "ICOM Invalid Type"
        end
      else error st "ICOM Invalid Command"
  | _ => error st "ICOM Invalid Command"
  end.

End ops.
End Dispatch.
