(* ===== verification/CommandProps.v ===== *)
(** * Properties of the commands

    What each command answers and changes; that the queues only change
    through the operations of [Delivery.v]; the directory a new queue
    removes. *)
From S2P Require Import Prelude.
From S2P Require Import Text.
From S2P Require Import Settings.
From S2P Require Import Segments.
From S2P Require Import Backend.
From S2P Require Import Channels.
From S2P Require Import Queues.
From S2P Require Import Delivery.
From S2P Require Import Wire.
From S2P Require Import Commands.

(** ** Identifiers and directories *)

Lemma forallb_Forall' {A} (f : A → bool) l : forallb f l = true ↔ Forall (λ x, f x = true) l.
Proof. rewrite List.forallb_forall, Forall_forall. by setoid_rewrite list_elem_of_In. Qed.

Lemma identifier_chars s name :
  check_identifier_str s = Some name → name = s ∧ 47 ∉ name ∧ 46 ∉ name ∧ 0 ∉ name.
Proof.
  unfold check_identifier_str. destruct (forallb _ s) eqn:E; [|done]. intros [= <-].
  apply forallb_Forall' in E. rewrite Forall_forall in E.
  split; [done|]. split_and!; intros Hin; by specialize (E _ Hin).
Qed.

(** The directory of a queue with a non-empty identifier is one level below
    the server's directory. *)
Lemma path_join_below dir name :
  name ≠ [] → 47 ∉ name → ∃ sep, Config.path_join dir name = dir ++ sep ++ name ∧ (sep = [] ∨ sep = [47]).
Proof.
  intros Hne Hs. destruct name as [|b name]; [done|].
  assert (b ≠ 47) as Hb by (intros ->; apply Hs; left).
  assert (Config.path_join dir (b :: name) = match last dir with
    | None => b :: name | Some 47 => dir ++ b :: name | Some _ => dir ++ 47 :: b :: name end) as ->.
  { unfold Config.path_join. by repeat (done || case_match). }
  destruct (last dir) as [c|] eqn:Hl; [|apply last_None in Hl as ->; exists []; auto].
  destruct (decide (c = 47)) as [->|Hc]; [exists []; auto|]. exists [47].
  split; [|auto]. by repeat (done || case_match).
Qed.

(** The entry of the data directory that holds a queue's files gives the
    configuration of the queue of the decoded name. *)
Lemma read_queue_config_new {E} sc qn name :
  check_identifier_str qn = Some name → name ≠ [] →
  Config.read_queue_config (E:=E) sc (Config.data_directory (Config.new_queue_config sc name)) =
    Done (Ok (Config.new_queue_config sc (from_utf8_lossy name))).
Proof.
  intros Hn Hne. destruct (identifier_chars _ _ Hn) as (_ & H47 & H46 & _).
  unfold Config.read_queue_config. cbn. by rewrite Config.file_name_join.
Qed.

Lemma read_entries_new {E} sc names acc :
  Forall (λ name, check_identifier_str name = Some name ∧ name ≠ []) names →
  Config.read_entries (E:=E) sc ((λ name, Ok (Config.data_directory (Config.new_queue_config sc name))) <$> names) acc =
    Done (Ok (acc ++ ((λ name, Config.new_queue_config sc (from_utf8_lossy name)) <$> names))).
Proof.
  intros Hall. revert acc. induction Hall as [|name names [Hn Hne] _ IH]; intros acc; cbn [fmap list_fmap Config.read_entries];
    [by rewrite app_nil_r|].
  rewrite (read_queue_config_new _ _ _ Hn Hne), bind_Done, IH. by rewrite <-app_assoc.
Qed.

(** C37: A restart finds the queues that were created: the directories of any
    queues with non-empty identifiers give back exactly the configurations
    the queues were created with, if and only if every name is valid UTF-8.
    (Identifiers may hold Latin-1 letters, which are not.) *)
Theorem created_queues_found sc names :
  Forall (λ name, check_identifier_str name = Some name ∧ name ≠ []) names →
  Config.read_queue_configs (E:=Z) sc
      (Ok ((λ name, Ok (Config.data_directory (Config.new_queue_config sc name))) <$> names)) =
    Done (Ok (Config.new_queue_config sc <$> names)) ↔
  Forall (λ name, utf8_valid name = true) names.
Proof.
  intros Hall. cbn [Config.read_queue_configs]. rewrite read_entries_new by done. cbn [app]. split.
  - intros [= Heq]. clear Hall. induction names as [|name names IH]; [done|].
    cbn in Heq. injection Heq as Hname _ Heq. constructor; [by apply utf8_lossy_same|by apply IH].
  - clear Hall. induction 1 as [|name names Hv _ IH]; [done|]. cbn. apply utf8_lossy_same in Hv as ->.
    do 3 f_equal. by injection IH.
Qed.

Definition sample_server_config : Config.ServerConfig :=
  Config.mkServerConfig (Text.B "data") (Text.B "0.0.0.0:9797") 10 1 1
    (Config.mkQueueConfig [] [] (16 * 1024 * 1024) 5 5 5 5 5).

Lemma created_queues_found_witness :
  Config.read_queue_configs (E:=Z) sample_server_config (Ok [Ok (Text.B "data/jobs"); Ok (Text.B "data/mail_2")]) =
    Done (Ok (Config.new_queue_config sample_server_config <$> [Text.B "jobs"; Text.B "mail_2"])).
Proof.
  apply (created_queues_found sample_server_config [Text.B "jobs"; Text.B "mail_2"]); repeat constructor; by vm_compute.
Defined.

(** A queue named with one Latin-1 letter is not found again: the restart
    opens another directory. *)
Lemma latin1_queue_lost sc :
  check_identifier_str [0xE9] = Some [0xE9] ∧
  Config.read_queue_config (E:=Z) sc (Config.data_directory (Config.new_queue_config sc [0xE9])) =
    Done (Ok (Config.new_queue_config sc replacement)).
Proof. split; [done|]. by rewrite (read_queue_config_new sc [0xE9] [0xE9]). Qed.

(** ** Commands *)
Module Dispatch.
Import Commands.Dispatch.

Section props.
Context `{Profile} {T : Type} `{Tendril T} {B M : Type} `{BackendOps B Message.t}
  `{LinkedHashMap Channel.InFlightState M} `{Json InnerQueue.QueueCheckpoint}
  `{Json Config.ServerConfig} `{Json (gmap (list Z) Config.QueueConfig)}
  `{Json (gmap (list Z) InnerQueue.QueueInfo)} `{Json ServerInfo}.
Variable value_size : Z.
Variable new_backend : Config.QueueConfig → outcome B.
Variable io_debug : Z → list Z.
Implicit Types (st : state T B M) (env : Env T) (args : list (list Z)).

Lemma create_queue_new env st name nx st' r :
  queues st !! name = None → create_queue new_backend env st name nx = Done (st', r) →
  ∃ b q, new_backend (Config.new_queue_config (config env) name) = Done b ∧
    InnerQueue.new (os env) (written env) (Config.new_queue_config (config env) name) b None false = Done q ∧
    r = Ok () ∧
    st' = mkState (<[name := q]> (queues st)) (sent st ++ [NotifyMessage.QueueCreate name])
            (wiped st ++ [Config.path_join (Config.server_data_directory (config env)) name]).
Proof.
  intros Hn. unfold create_queue. rewrite Hn. intros (u & _ & Hc)%bind_Done_iff.
  apply bind_Done_iff in Hc as (b & Hb & (q & Hq & [= <- <-])%bind_Done_iff). by exists b, q.
Qed.

(** ** Queues only change by their operations *)

(** The operations a request can perform, with its clock and its tickets. *)
Definition from_env env (o : op) : Prop :=
  match o with
  | Push _ clk | CreateChannel _ clk | PurgeChannel _ clk | UpdateChannels clk | Ack _ _ clk => clk = clock env
  | Get _ clk t => clk = clock env ∧ ∃ i, t = ticket env i
  | DeleteChannel _ => True
  | Maintenance _ | Checkpoint _ => False
  end.

Fixpoint run_all env (ops : list op) (q : InnerQueue.t B M) : outcome (InnerQueue.t B M) :=
  match ops with
  | [] => mret q
  | o :: ops => q ← run (os env) o q; run_all env ops q
  end.

Definition evolves env (q q' : InnerQueue.t B M) : Prop :=
  ∃ ops, Forall (from_env env) ops ∧ run_all env ops q = Done q'.

Lemma run_all_app env ops ops' q : run_all env (ops ++ ops') q = (q ← run_all env ops q; run_all env ops' q).
Proof. revert q. induction ops as [|o ops IH]; intros q; cbn; [done|]. destruct (run _ o q); cbn; auto. Qed.

#[local] Instance evolves_preorder env : PreOrder (evolves env).
Proof.
  split; [intros q; by exists []|]. intros q1 q2 q3 (ops & Ho & Hr) (ops' & Ho' & Hr').
  exists (ops ++ ops'). split; [by apply Forall_app|]. by rewrite run_all_app, Hr.
Qed.

Lemma evolves_one env o q q' : from_env env o → run (os env) o q = Done q' → evolves env q q'.
Proof. intros Ho Hr. exists [o]. split; [by constructor|]. cbn. by rewrite Hr. Qed.

(** What a request may do to the table: a queue of the new table evolved
    from the one of that name or, when there was none, from a new queue. *)
Definition updates env st st' : Prop :=
  ∀ name q', queues st' !! name = Some q' → ∃ q, queues st !! name = Some q ∧ evolves env q q'.

Definition fresh_queue env (name : list Z) (q : InnerQueue.t B M) : Prop :=
  ∃ b, new_backend (Config.new_queue_config (config env) name) = Done b ∧
    InnerQueue.new (os env) (written env) (Config.new_queue_config (config env) name) b None false = Done q.

Definition changes env st st' : Prop :=
  ∀ name q', queues st' !! name = Some q' →
    ∃ q, evolves env q q' ∧ (queues st !! name = Some q ∨ queues st !! name = None ∧ fresh_queue env name q).

#[local] Instance updates_preorder env : PreOrder (updates env).
Proof.
  split; [intros st name q Hq; exists q; by split|].
  intros st1 st2 st3 H12 H23 name q3 Hq3. destruct (H23 _ _ Hq3) as (q2 & Hq2 & E23).
  destruct (H12 _ _ Hq2) as (q1 & Hq1 & E12). exists q1. split; [done|]. by etrans.
Qed.

Lemma updates_changes env st st' : updates env st st' → changes env st st'.
Proof. intros Hu name q' Hq'. destruct (Hu _ _ Hq') as (q & ? & ?). exists q. auto. Qed.

Lemma changes_updates env st1 st2 st3 : changes env st1 st2 → updates env st2 st3 → changes env st1 st3.
Proof.
  intros H12 H23 name q3 Hq3. destruct (H23 _ _ Hq3) as (q2 & Hq2 & E23).
  destruct (H12 _ _ Hq2) as (q1 & E12 & Hq1). exists q1. split; [by etrans|done].
Qed.

Lemma set_queue_updates env st name q q' :
  queues st !! name = Some q → evolves env q q' → updates env st (set_queue st name q').
Proof.
  intros Hq He name' q2. cbn. destruct (decide (name = name')) as [<-|Hne].
  - rewrite bytes_insert_eq. intros [= <-]. by exists q.
  - rewrite bytes_insert_ne by done. intros Hq2. exists q2. by split.
Qed.

Lemma notify_updates env st n : updates env st (notify_server st n).
Proof. intros name q Hq. by exists q. Qed.

(** *** Each operation of a handler is a run of operations *)

Lemma push_many_evolves env q messages q' r :
  InnerQueue.push_many (os env) q messages (clock env) = Done (q', r) → evolves env q q'.
Proof.
  assert (∀ q m q' r, InnerQueue.push (os env) q m (clock env) = Done (q', r) → evolves env q q') as Hpush.
  { intros q1 m q2 r' Hp. apply (evolves_one env (Push m (clock env))); [done|]. cbn. by rewrite Hp. }
  assert (∀ ms q q' r, InnerQueue.push_loop (os env) q ms (clock env) = Done (q', r) → evolves env q q') as Hloop.
  { induction ms as [|m ms IH]; intros q1 q2 r'; cbn [InnerQueue.push_loop]; [by intros [= <- <-]|].
    intros ([q3 r3] & Hp%Hpush & Hl)%bind_Done_iff. etrans; [exact Hp|]. destruct r3; [by eapply IH|].
    by injection Hl as <- <-. }
  unfold InnerQueue.push_many. intros (u & _ & ([q1 r1] & Hl%Hloop & Hp)%bind_Done_iff)%bind_Done_iff.
  etrans; [exact Hl|]. destruct r1; [|by injection Hp as <- <-].
  apply bind_Done_iff in Hp as (m & _ & Hp%Hpush). done.
Qed.

Lemma info_evolves env q q' i : InnerQueue.info q (clock env) = Done (q', i) → evolves env q q'.
Proof.
  intros (du & _ & (counted & Hc%map_values_Done & [= <- _])%bind_Done_iff)%bind_Done_iff.
  apply (evolves_one env (UpdateChannels (clock env))); [done|]. cbn [run]. unfold InnerQueue.iter_channels.
  assert (map_values (λ c, Channel.update_state c (clock env)) (InnerQueue.channels q) = Done (fst <$> counted)) as ->;
    [|by rewrite bind_Done].
  destruct (map_values_ok (λ c, Channel.update_state c (clock env)) (InnerQueue.channels q)) as (m & Hm & Hmap).
  { intros k c Hk. specialize (Hc k). rewrite Hk in Hc. destruct Hc as (w & _ & Hw).
    unfold Channel.in_flight_count in Hw. apply bind_Done_iff in Hw as (c' & Hc' & _). by exists c'. }
  rewrite Hm. f_equal. apply map_eq. intros k. rewrite lookup_fmap. specialize (Hc k). specialize (Hmap k).
  destruct (InnerQueue.channels q !! k) as [c|].
  - destruct Hc as (w & -> & Hw). destruct Hmap as (c' & -> & Hc'). unfold Channel.in_flight_count in Hw.
    rewrite Hc', bind_Done in Hw. apply bind_Done_iff in Hw as (n & _ & [= <-]). done.
  - by rewrite Hc, Hmap.
Qed.

(** *** The handlers *)

(** Splits the run of a handler at its binds and its branches. *)
#[local] Ltac split_run H :=
  repeat first
    [ progress cbn beta iota in H
    | match type of H with
      | mbind _ _ = Done _ => let x := fresh "x" in let E := fresh "E" in
          apply bind_Done_iff in H as (x & E & H)
      | Done _ = Done _ => injection H as <- <-
      | mret _ = Done _ => injection H as <- <-
      | reply _ _ = Done _ => injection H as <- <-
      | error _ _ = Done _ => injection H as <- <-
      | queue_error _ _ _ = Done _ => injection H as <- <-
      | json_reply _ _ = Done _ => injection H as <- <-
      | (let '(_, _) := ?p in _) = Done _ => destruct p
      | (if ?b then _ else _) = Done _ => let E := fresh "E" in destruct b eqn:E
      | match ?p with _ => _ end = Done _ => let E := fresh "E" in destruct p eqn:E
      end ].

Lemma get_queue_Ok st name q : get_queue st name = Ok q → queues st !! name = Some q.
Proof. unfold get_queue. destruct (queues st !! name); [by intros [= ->]|done]. Qed.

Lemma unwrap_Done {A} (o : option A) a : unwrap o = Done a → o = Some a.
Proof. destruct o; [by intros [= ->]|done]. Qed.

Lemma rpush_updates env st args st' n : rpush io_debug env st args = Done (st', n) → updates env st st'.
Proof.
  unfold rpush. intros Hr. split_run Hr; try reflexivity.
  all: apply get_queue_Ok in E1; eapply set_queue_updates; [exact E1|]; by eapply push_many_evolves.
Qed.

Lemma hmget_loop_updates env st qn cn timeout request k results st' n :
  hmget_loop io_debug env st qn cn timeout request k results = Done (st', n) → updates env st st'.
Proof.
  revert st results. induction k as [|k IH]; intros st results Hr; cbn [hmget_loop] in Hr; split_run Hr; [reflexivity|..].
  all: apply unwrap_Done in E; match type of E0 with InnerQueue.get _ _ _ _ = Done (?q', _) =>
    assert (updates env st (set_queue st qn q')) as Hu by
      (eapply set_queue_updates; [exact E|]; apply (evolves_one env (Get cn (clock env) (ticket env (length results))));
        [split; [done|by eexists]|cbn [run]; by rewrite E0]) end; try exact Hu.
  etrans; [exact Hu|]. by eapply IH.
Qed.

Lemma hmget_updates env st request args st' n :
  hmget value_size io_debug env st request args = Done (st', n) → updates env st st'.
Proof. unfold hmget. intros Hr. split_run Hr; try reflexivity; by eapply hmget_loop_updates. Qed.

Lemma hdel_loop_updates env st qn cn tickets k st' n :
  hdel_loop env st qn cn tickets k = Done (st', n) → updates env st st'.
Proof.
  revert st k. induction tickets as [|t tickets IH]; intros st k Hr; cbn [hdel_loop] in Hr.
  { injection Hr as <- _. reflexivity. }
  destruct (parse_i64 t) as [ticket|]; [|injection Hr as <- _; reflexivity].
  apply bind_Done_iff in Hr as (q & Hq%unwrap_Done & ([q' r] & Ha & Hr)%bind_Done_iff).
  etrans; [|by eapply IH]. eapply set_queue_updates; [exact Hq|].
  apply (evolves_one env (Ack cn ticket (clock env))); [done|]. cbn [run]. by rewrite Ha.
Qed.

Lemma hdel_updates env st args st' n : hdel io_debug env st args = Done (st', n) → updates env st st'.
Proof. unfold hdel. intros Hr. split_run Hr; try reflexivity; by eapply hdel_loop_updates. Qed.

Lemma create_channel_updates env st qn q cn nx :
  queues st !! qn = Some q → updates env st (fst (create_channel env st qn q cn nx)).
Proof.
  intros Hq. unfold create_channel.
  assert (updates env st (set_queue st qn (fst (InnerQueue.create_channel q cn (clock env))))) as Hu.
  { eapply set_queue_updates; [exact Hq|]. by apply (evolves_one env (CreateChannel cn (clock env))). }
  destruct (InnerQueue.create_channel q cn (clock env)) as [q' [u|e]]; cbn in *; [|done].
  etrans; [exact Hu|]. apply notify_updates.
Qed.

Lemma delete_channel_updates env st qn q cn :
  queues st !! qn = Some q → updates env st (fst (delete_channel st qn q cn)).
Proof.
  intros Hq. unfold delete_channel.
  assert (updates env st (set_queue st qn (fst (InnerQueue.delete_channel q cn)))) as Hu.
  { eapply set_queue_updates; [exact Hq|]. by apply (evolves_one env (DeleteChannel cn)). }
  destruct (InnerQueue.delete_channel q cn) as [q' [u|e]]; cbn in *; [|done].
  etrans; [exact Hu|]. apply notify_updates.
Qed.

Lemma create_queue_changes env st qn nx st' r :
  create_queue new_backend env st qn nx = Done (st', r) → changes env st st'.
Proof.
  intros Hc. destruct (queues st !! qn) as [q|] eqn:Hq.
  { unfold create_queue in Hc. rewrite Hq in Hc. injection Hc as <- _. by apply updates_changes. }
  destruct (create_queue_new env st qn nx st' r Hq Hc) as (b & q & Hb & Hnew & _ & ->).
  intros name q'. cbn [queues]. destruct (decide (qn = name)) as [<-|Hne].
  - rewrite bytes_insert_eq. intros [= <-]. exists q. split; [reflexivity|]. right. split; [done|]. by exists b.
  - rewrite bytes_insert_ne by done. intros Hq'. exists q'. split; [reflexivity|by left].
Qed.

Lemma set_changes env st args st' n :
  set new_backend io_debug env st args = Done (st', n) → changes env st st'.
Proof.
  unfold set. intros Hr. destruct (zlen args <? 3); [by injection Hr as <- _; apply updates_changes|].
  apply bind_Done_iff in Hr as (cmd & _ & (last_arg & _ & (qa & _ & (ca & _ & Hr)%bind_Done_iff)%bind_Done_iff)%bind_Done_iff).
  destruct (check_identifier_str qa) as [qn|]; [|by injection Hr as <- _; apply updates_changes].
  destruct (check_identifier_str ca) as [cn|]; [|by injection Hr as <- _; apply updates_changes].
  apply bind_Done_iff in Hr as ([st1 r] & Hc%create_queue_changes & Hr).
  destruct r as [u|e]; [|by injection Hr as <- _].
  apply bind_Done_iff in Hr as (q & Hq%unwrap_Done & Hr). eapply changes_updates; [exact Hc|].
  match type of Hr with match create_channel _ _ _ _ _ ?nx with _ => _ end = _ =>
    pose proof (create_channel_updates env st1 qn q cn nx Hq) as Hu end.
  destruct (create_channel _ _ _ _ _ _) as [st2 [u2|e2]]; by injection Hr as <- _.
Qed.

Lemma delete_queue_updates env st qn st' : delete_queue env st qn = Done st' → updates env st st'.
Proof.
  unfold delete_queue. destruct (queues st !! qn); [|intros [= <-]; reflexivity].
  intros ([q' ps] & _ & [= <-])%bind_Done_iff. intros name q2. cbn. intros Hq2.
  destruct (decide (qn = name)) as [<-|]; [by rewrite bytes_delete_eq in Hq2|].
  rewrite bytes_delete_ne in Hq2 by done. exists q2. by split.
Qed.

Lemma del_updates env st args st' n : del env st args = Done (st', n) → updates env st st'.
Proof.
  unfold del. destruct (zlen args <? 2); [by intros [= <- _]|].
  intros (qn & _ & Hr)%bind_Done_iff. destruct (get_queue st qn) as [q|] eqn:Hq; [|by injection Hr as <- _].
  apply get_queue_Ok in Hq. destruct (args !! 2%nat) as [cn|].
  - pose proof (delete_channel_updates env st qn q cn Hq) as Hu.
    destruct (delete_channel _ _ _ _) as [st2 [u|e]]; by injection Hr as <- _.
  - apply bind_Done_iff in Hr as (st2 & Hd%delete_queue_updates & [= <- _]). done.
Qed.

Lemma srem_updates env st args st' n :
  args !! 2%nat ≠ Some (Text.B "*") → srem env st args = Done (st', n) → updates env st st'.
Proof.
  intros Hstar. unfold srem. destruct (zlen args <? 3); [by intros [= <- _]|].
  intros (qn & _ & (cn & Hcn%unwrap_Done & Hr)%bind_Done_iff)%bind_Done_iff.
  destruct (get_queue st qn) as [q|] eqn:Hq; [apply get_queue_Ok in Hq|by injection Hr as <- _].
  rewrite bool_decide_false in Hr by congruence.
  apply bind_Done_iff in Hr as ([q' r] & Hp & [= <- _]). eapply set_queue_updates; [exact Hq|].
  apply (evolves_one env (PurgeChannel cn (clock env))); [done|]. cbn [run]. by rewrite Hp.
Qed.

Lemma info_queue_updates env st prefix st' infos :
  info_queue env st prefix = Done (st', infos) → updates env st st'.
Proof.
  unfold info_queue. intros (m & Hm%map_values_Done & [= <- _])%bind_Done_iff. intros name q'. cbn.
  intros [Hq|[_ Hq]]%lookup_union_Some_raw; [|exists q'; by split].
  rewrite lookup_fmap, fmap_Some in Hq. destruct Hq as ([q2 i] & Hi & ->).
  destruct (mapped_Some _ _ _ _ _ Hm Hi) as (q & Hq & Hinfo). apply map_lookup_filter_Some in Hq as [Hq _].
  exists q. split; [done|]. by eapply info_evolves.
Qed.

Lemma info_updates env st args st' n : info env st args = Done (st', n) → updates env st st'.
Proof.
  unfold info. intros Hr. split_run Hr; try reflexivity; try apply notify_updates; by eapply info_queue_updates.
Qed.

Lemma config_command_updates env st args st' n :
  config_command io_debug env st args = Done (st', n) → updates env st st'.
Proof.
  unfold config_command, config_get, config_set. intros Hr.
  split_run Hr; try reflexivity; apply notify_updates.
Qed.

Lemma run_command_changes env st request args st' n :
  args !! 0%nat ≠ Some (Text.B "HMSET") →
  (args !! 0%nat = Some (Text.B "SREM") → args !! 2%nat ≠ Some (Text.B "*")) →
  run_command value_size new_backend io_debug env st request args = Done (st', n) → changes env st st'.
Proof.
  intros Hseek Hpurge. unfold run_command. intros (cmd & Hcmd%unwrap_Done & Hr)%bind_Done_iff.
  repeat case_bool_decide; try congruence.
  - by eapply updates_changes, rpush_updates.
  - by eapply updates_changes, hmget_updates.
  - by eapply updates_changes, hdel_updates.
  - by eapply updates_changes, info_updates.
  - by eapply set_changes.
  - by eapply updates_changes, del_updates.
  - eapply updates_changes, srem_updates; [|done]. apply Hpurge. congruence.
  - by eapply updates_changes, config_command_updates.
  - injection Hr as <- _. by apply updates_changes.
Qed.

(** ** Theorems *)

(** Whatever a client sends, each queue of the table afterwards is the
    queue of that name before, or a newly created one, after a run of the
    operations of the transition system of [Delivery.v], with the request's
    clock and its tickets; so what holds of the reachable queues holds of the
    queues that are served. [HMSET], which seeks, and [SREM queue *] are the
    two commands outside the system. *)
Theorem requests_evolve_queues env st request st' n :
  (∀ a args, request = Value.Array a → data_args a = Some args →
     args !! 0%nat ≠ Some (Text.B "HMSET") ∧
     (args !! 0%nat = Some (Text.B "SREM") → args !! 2%nat ≠ Some (Text.B "*"))) →
  dispatch value_size new_backend io_debug env st request = Done (st', n) →
  ∀ name q', queues st' !! name = Some q' →
    ∃ q ops, Forall (from_env env) ops ∧ run_all env ops q = Done q' ∧
      (queues st !! name = Some q ∨ queues st !! name = None ∧ fresh_queue env name q).
Proof.
  intros Hreq Hd. assert (changes env st st') as Hc.
  { unfold dispatch in Hd. destruct request as [| | |a| | |];
      try (injection Hd as <- _; by apply updates_changes).
    destruct (_ && _); [|injection Hd as <- _; by apply updates_changes].
    destruct (data_args a) as [args|] eqn:Ha; [|injection Hd as <- _; by apply updates_changes].
    destruct (Hreq _ _ eq_refl Ha). by eapply run_command_changes. }
  intros name q' Hq'. destruct (Hc name q' Hq') as (q & (ops & Ho & Hr) & Hq). by exists q, ops.
Qed.

(** What [HMGET] should read: messages one by one until the count is
    reached or [get] refuses. *)
Fixpoint gets env (q : InnerQueue.t B M) (cn : list Z) (k i : nat) :
    outcome (InnerQueue.t B M * list (Value.t T) * option InnerQueue.QueueError) :=
  match k with
  | O => mret (q, [], None)
  | S k =>
      '(q, r) ← InnerQueue.get q cn (clock env) (ticket env i);
      match r with
      | Ok (t, m) => '(q, ms, e) ← gets env q cn k (S i); mret (q, Value.Message t m :: ms, e)
      | Err e => mret (q, [], Some e)
      end
  end.

Definition hmget_answer (request : Value.t T) (qn cn : list Z) (timeout : Z) (ms : list (Value.t T))
    (e : option InnerQueue.QueueError) : NotifyMessage.t T :=
  match e with
  | None => NotifyMessage.with_value (Value.Array ms)
  | Some (InnerQueue.EndOfQueue head) =>
      if negb (timeout =? 0) && (zlen ms =? 0) then NotifyMessage.GetWouldBlock request qn cn head timeout
      else NotifyMessage.with_value (Value.Array ms)
  | Some e => NotifyMessage.from_error io_debug e
  end.

Lemma set_queue_twice st name q q' : set_queue (set_queue st name q) name q' = set_queue st name q'.
Proof. unfold set_queue, set_queues. cbn. f_equal. apply insert_insert_eq. Qed.

Lemma hmget_loop_gets env st qn cn timeout request k q results :
  queues st !! qn = Some q →
  hmget_loop io_debug env st qn cn timeout request k results =
    ('(q', ms, e) ← gets env q cn k (length results);
     mret (match k with O => st | _ => set_queue st qn q' end, hmget_answer request qn cn timeout (results ++ ms) e)).
Proof.
  revert st q results. induction k as [|k IH]; intros st q results Hq; cbn [hmget_loop gets].
  { rewrite bind_Done. cbn. by rewrite app_nil_r. }
  rewrite Hq. cbn [unwrap]. rewrite bind_Done, bind_assoc_outcome.
  destruct (InnerQueue.get q cn _ _) as [[q1 [[t m]|e]]| |]; [..|done|done]; cbn [mbind outcome_bind].
  - rewrite (IH _ q1) by apply bytes_insert_eq. rewrite length_app, Nat.add_comm. cbn [length Nat.add].
    rewrite bind_assoc_outcome. destruct (gets env q1 cn k (S (length results))) as [[[q2 ms] e]| |] eqn:Hg; [|done..].
    cbn [mbind outcome_bind]. unfold mret, outcome_ret. rewrite bind_Done, <-app_assoc. do 2 f_equal.
    destruct k; [|apply set_queue_twice]. cbn in Hg. by injection Hg as <- _ _.
  - cbn. rewrite app_nil_r. destruct e; try done. by destruct (_ && _).
Qed.

(** C27: [HMGET] is [gets]: it reads up to [count] messages, one [get] after
    the other with a ticket each, stops at the first refusal, answers with
    the messages read, blocks exactly when there is none, the queue is at
    its end and a timeout was given, and fails with any other refusal. *)
Theorem hmget_spec env st request cmd qn cn count_arg timeout_arg count timeout q :
  queues st !! qn = Some q → parse_u64 count_arg = Some count →
  match timeout_arg with [] => timeout = 0 | a :: _ => parse_u32 a = Some timeout end →
  count * value_size < 2 ^ 63 →
  hmget value_size io_debug env st request (cmd :: qn :: cn :: count_arg :: timeout_arg) =
    ('(q', ms, e) ← gets env q cn (Z.to_nat count) 0;
     mret (match Z.to_nat count with O => st | _ => set_queue st qn q' end,
           hmget_answer request qn cn timeout ms e)).
Proof.
  intros Hq Hcount Htimeout Hcap. unfold hmget. rewrite !zlen_cons.
  pose proof (zlen_nonneg timeout_arg). rewrite (proj2 (Z.ltb_ge _ _)) by lia.
  change (arg _ 1) with (Done qn). change (arg _ 2) with (Done cn). change (arg _ 3) with (Done count_arg).
  rewrite !bind_Done, Hcount.
  assert (match (cmd :: qn :: cn :: count_arg :: timeout_arg) !! 4%nat with Some a => parse_u32 a | None => Some 0 end
    = Some timeout) as -> by (destruct timeout_arg; cbn; congruence).
  unfold get_queue. rewrite Hq. unfold Parser.with_capacity, assert. rewrite (proj2 (Z.ltb_lt _ _)) by done.
  rewrite bind_Done. by apply hmget_loop_gets.
Qed.

Lemma new_channels env c b q :
  InnerQueue.new (os env) (written env) c b None false = Done q → InnerQueue.channels q = ∅.
Proof.
  unfold InnerQueue.new. intros ([q' f] & Hc & [= <-])%bind_Done_iff. unfold InnerQueue.checkpoint in Hc.
  apply bind_Done_iff in Hc as ([q2 chans] & Hq2 & (u & _ & [= <- _])%bind_Done_iff). cbn in Hq2.
  apply bind_Done_iff in Hq2 as ([b2 f2] & _ & (m & _ & [= <- _])%bind_Done_iff). done.
Qed.

(** The channel [create_channel] adds. *)
Definition with_channel env (q : InnerQueue.t B M) (cn : list Z) : InnerQueue.t B M :=
  InnerQueue.set_channels q
    (<[cn := Channel.fresh (clock env) (be_head (InnerQueue.backend q))]> (InnerQueue.channels q)).

Definition set_flag args : bool :=
  bool_decide (args !! 0%nat = Some (Text.B "SETNX")) ||
  ((3 <? zlen args) && bool_decide (last args = Some (Text.B "NX"))).

(** C28: [SET] and [SETNX] on every branch: a missing queue is created with
    the channel, in an emptied directory; on a present queue the plain
    command fails, and with the [NX] flag the channel is created unless it
    is present already. The event loop is told of what was created, in
    order. *)
Theorem set_spec env st cmd qn cn rest :
  check_identifier_str qn = Some qn → check_identifier_str cn = Some cn →
  set new_backend io_debug env st (cmd :: qn :: cn :: rest) =
    match queues st !! qn with
    | None =>
        let c := Config.new_queue_config (config env) qn in
        _ ← assert (removed env);
        b ← new_backend c;
        q ← InnerQueue.new (os env) (written env) c b None false;
        mret (mkState (<[qn := with_channel env q cn]> (queues st))
                (sent st ++ [NotifyMessage.QueueCreate qn; NotifyMessage.ChannelCreate qn cn])
                (wiped st ++ [Config.data_directory c]), NotifyMessage.with_ok)
    | Some q =>
        if set_flag (cmd :: qn :: cn :: rest) then
          match InnerQueue.channels q !! cn with
          | Some _ => mret (st, NotifyMessage.with_ok)
          | None => mret (mkState (<[qn := with_channel env q cn]> (queues st))
                            (sent st ++ [NotifyMessage.ChannelCreate qn cn]) (wiped st), NotifyMessage.with_ok)
          end
        else mret (st, NotifyMessage.with_error (Text.B "QAE Queue Already Exists"))
    end.
Proof.
  intros Hqn Hcn. unfold set. rewrite !zlen_cons. pose proof (zlen_nonneg rest).
  rewrite (proj2 (Z.ltb_ge _ _)) by lia. unfold arg. cbn [unwrap lookup list_lookup]. rewrite !bind_Done.
  destruct (last (cmd :: qn :: cn :: rest)) as [l|] eqn:Hl; [|by apply last_None in Hl].
  cbn [unwrap]. rewrite !bind_Done, Hqn, Hcn.
  assert (bool_decide (cmd = Text.B "SETNX") || (3 <? 1 + (1 + (1 + zlen rest))) && bool_decide (l = Text.B "NX")
    = set_flag (cmd :: qn :: cn :: rest)) as ->.
  { unfold set_flag. rewrite Hl, !zlen_cons. f_equal; [|f_equal]; apply bool_decide_ext; cbn; split; congruence. }
  unfold create_queue. destruct (queues st !! qn) as [q|] eqn:Hq.
  - destruct (set_flag _); rewrite bind_Done; [|done]. rewrite Hq. cbn [unwrap]. rewrite bind_Done.
    unfold create_channel, InnerQueue.create_channel. destruct (InnerQueue.channels q !! cn) eqn:Hc; [|done].
    unfold reply, set_queue, set_queues. rewrite insert_id by done. by destruct st.
  - cbn zeta. destruct (assert _); [|done..]. cbn [mbind outcome_bind].
    destruct (new_backend _) as [b| |]; [|done..]. cbn [mbind outcome_bind].
    destruct (InnerQueue.new _ _ _ _ _ _) as [q| |] eqn:Hnew; [|done..]. cbn [mbind outcome_bind].
    unfold mret, outcome_ret.
    rewrite bind_Done. match goal with |- context [queues (set_queue ?s qn q) !! qn] =>
      assert (queues (set_queue s qn q) !! qn = Some q) as -> by apply bytes_insert_eq end.
    cbn [unwrap mbind outcome_bind].
    unfold create_channel, InnerQueue.create_channel. rewrite (new_channels _ _ _ _ Hnew), lookup_empty.
    unfold reply, notify_server, set_queue, set_queues, wipe. cbn. rewrite insert_insert_eq, <-app_assoc. unfold with_channel.
    by rewrite (new_channels _ _ _ _ Hnew).
Qed.

(** [HMGET] allocates for the announced count before reading: a count
    whose values exceed [isize::MAX] bytes panics in the worker thread, and
    the request is never answered. *)
Theorem hmget_count_panics env st request cmd qn cn count_arg rest count q :
  queues st !! qn = Some q → parse_u64 count_arg = Some count → 2 ^ 63 ≤ count * value_size →
  match rest with [] => True | a :: _ => is_Some (parse_u32 a) end →
  hmget value_size io_debug env st request (cmd :: qn :: cn :: count_arg :: rest) = Panic.
Proof.
  intros Hq Hcount Hcap Hrest. unfold hmget. rewrite !zlen_cons.
  pose proof (zlen_nonneg rest). rewrite (proj2 (Z.ltb_ge _ _)) by lia.
  change (arg _ 1) with (Done qn). change (arg _ 2) with (Done cn). change (arg _ 3) with (Done count_arg).
  rewrite !bind_Done, Hcount.
  assert (∃ t, match (cmd :: qn :: cn :: count_arg :: rest) !! 4%nat with Some a => parse_u32 a | None => Some 0 end
    = Some t) as [t ->] by (destruct rest; cbn; [by eexists|done]).
  unfold get_queue. rewrite Hq. unfold Parser.with_capacity, assert. by rewrite (proj2 (Z.ltb_ge _ _)).
Qed.

(** *** Splitting at dots *)

Lemma splitn_no_dot k cur s : 46 ∉ s → splitn k cur s = [cur ++ s].
Proof.
  revert cur. induction s as [|b s IH]; intros cur Hs; [by destruct k; cbn; rewrite ?app_nil_r|].
  destruct k; [done|]. cbn. apply not_elem_of_cons in Hs as [Hb Hs].
  rewrite (proj2 (Z.eqb_neq b 46)) by congruence. rewrite IH by done. by rewrite <-app_assoc.
Qed.

Lemma splitn_dot k cur s r : 46 ∉ s → splitn (S k) cur (s ++ 46 :: r) = (cur ++ s) :: splitn k [] r.
Proof.
  revert cur. induction s as [|b s IH]; intros cur Hs; [by cbn; rewrite app_nil_r|].
  cbn. apply not_elem_of_cons in Hs as [Hb Hs].
  rewrite (proj2 (Z.eqb_neq b 46)) by congruence. rewrite IH by done. by rewrite <-app_assoc.
Qed.

Lemma splitn_0 s : splitn 0 [] s = [s].
Proof. by destruct s. Qed.

(** [CONFIG SET queues.<name>.<parameter>] on a queue checks the
    parameter and the value, answers [OK], and changes nothing: the queue,
    like the rest of the state, is as before. *)
Theorem config_set_queue_no_effect env st cmd qn config_name value q c' :
  46 ∉ qn → queues st !! qn = Some q → queue_config_set (InnerQueue.config q) config_name value = Ok c' →
  config_command io_debug env st
      [cmd; Text.B "SET"; Text.B "queues" ++ 46 :: qn ++ 46 :: config_name; value] =
    Done (st, NotifyMessage.with_ok).
Proof.
  intros Hqn Hq Hc. unfold config_command. change (zlen [_; _; _; _]) with 4.
  change (4 <? 3) with false. change (4 <? 4) with false. rewrite andb_false_r.
  change (false || false) with false. cbn iota. change (arg _ 1) with (Done (Text.B "SET")).
  rewrite bind_Done, (bool_decide_false (Text.B "SET" = Text.B "GET")), bool_decide_true by done.
  unfold config_set. change (arg _ 2) with (Done (Text.B "queues" ++ 46 :: qn ++ 46 :: config_name)).
  change (arg _ 3) with (Done value). rewrite !bind_Done.
  assert (46 ∉ Text.B "queues") as Hdot by (apply (bool_decide_unpack _); by vm_compute).
  rewrite splitn_dot by exact Hdot. rewrite splitn_dot by exact Hqn. rewrite splitn_0.
  rewrite bool_decide_true by done. unfold get_queue. cbn [app]. by rewrite Hq, Hc.
Qed.

(** The directory [create_queue] empties, when it creates. *)
Lemma set_wiped env st args st' n :
  set new_backend io_debug env st args = Done (st', n) →
  match (qn ← args !! 1%nat; cn ← args !! 2%nat; _ ← check_identifier_str cn; check_identifier_str qn) with
  | Some qn => wiped st' = wiped st ++ (match queues st !! qn with Some _ => [] | None =>
      [Config.path_join (Config.server_data_directory (config env)) qn] end)
  | None => wiped st' = wiped st
  end.
Proof.
  unfold set, arg. intros Hr. destruct (zlen args <? 3) eqn:Hlen.
  { injection Hr as <- _. destruct args as [|? [|? [|? args]]]; [done..|]. exfalso. rewrite !zlen_cons in Hlen. pose proof (zlen_nonneg args). lia. }
  apply bind_Done_iff in Hr as (cmd & _ & (last_arg & _ & (qa & Hqa%unwrap_Done & (ca & Hca%unwrap_Done & Hr)%bind_Done_iff)%bind_Done_iff)%bind_Done_iff).
  rewrite Hqa, Hca. cbn [mbind option_bind].
  destruct (check_identifier_str qa) as [qn|] eqn:Hqn; [|injection Hr as <- _; by destruct (check_identifier_str ca)].
  destruct (check_identifier_str ca) as [cn|]; [|by injection Hr as <- _]. cbn [mbind option_bind].
  apply bind_Done_iff in Hr as ([st1 r] & Hc & Hr).
  assert (wiped st' = wiped st1) as ->.
  { destruct r as [u|e]; [|by injection Hr as <- _]. apply bind_Done_iff in Hr as (q & _ & Hr).
    unfold create_channel in Hr. destruct (InnerQueue.create_channel _ _ _) as [q2 [u2|e2]]; [by injection Hr as <- _|].
    by destruct (_ || _); injection Hr as <- _. }
  clear Hr. destruct (queues st !! qn) as [q|] eqn:Hq.
  - unfold create_queue in Hc. rewrite Hq in Hc. injection Hc as <- _. by rewrite app_nil_r.
  - by destruct (create_queue_new _ _ _ _ _ _ Hq Hc) as (b & q & _ & _ & _ & ->).
Qed.

(** The directory that [SET] empties before it creates a queue: at most
    one, named after the queue, and when the name is not empty it lies one
    level below the server's data directory, so that no other queue's files
    are touched. *)
Theorem set_empties_own_directory env st args st' n :
  set new_backend io_debug env st args = Done (st', n) →
  wiped st' = wiped st ∨
  ∃ qn, queues st !! qn = None ∧
    wiped st' = wiped st ++ [Config.path_join (Config.server_data_directory (config env)) qn] ∧
    (qn ≠ [] → 47 ∉ qn ∧ 46 ∉ qn ∧ ∃ sep, (sep = [] ∨ sep = [47]) ∧
       Config.path_join (Config.server_data_directory (config env)) qn =
         Config.server_data_directory (config env) ++ sep ++ qn).
Proof.
  intros Hr%set_wiped. destruct (qn ← _; _) as [qn|] eqn:Hn; [|by left].
  destruct (queues st !! qn) eqn:Hq; [left; by rewrite app_nil_r in Hr|]. right. exists qn.
  split; [done|]. split; [done|]. intros Hne.
  apply bind_Some in Hn as (qa & _ & (ca & _ & (cn & _ & Hqn)%bind_Some)%bind_Some).
  destruct (identifier_chars _ _ Hqn) as (_ & H47 & H46 & _).
  destruct (path_join_below (Config.server_data_directory (config env)) qn Hne H47) as (sep & Hp & Hsep).
  split_and!; [done..|]. by exists sep.
Qed.

(** The empty string is an identifier, and creating the queue of that
    name empties the server's data directory itself, with the files of every
    queue. *)
Theorem empty_name_empties_everything env st cmd cn rest st' n b :
  queues st !! [] = None → check_identifier_str cn = Some cn →
  last (Config.server_data_directory (config env)) = Some b →
  set new_backend io_debug env st (cmd :: [] :: cn :: rest) = Done (st', n) →
  ∃ sep, (sep = [] ∨ sep = [47]) ∧ wiped st' = wiped st ++ [Config.server_data_directory (config env) ++ sep].
Proof.
  intros Hq Hcn Hl Hr%set_wiped. cbn [lookup list_lookup mbind option_bind] in Hr. rewrite Hcn in Hr.
  cbn [mbind option_bind] in Hr. change (check_identifier_str []) with (Some (@nil Z)) in Hr. cbn iota in Hr.
  rewrite Hq in Hr. rewrite Hr. unfold Config.path_join. rewrite Hl.
  destruct (decide (b = 47)) as [->|Hb]; [exists []; split; [auto|by rewrite !app_nil_r]|].
  exists [47]. split; [auto|]. repeat (done || case_match).
Qed.

End props.
End Dispatch.
