(* ===== verification/Scripts.v ===== *)
(** * Requests as scripts of queue operations

    What a request means for a queue, without the argument checks and the
    replies of [Dispatch]: a list of the operations of [Delivery.v], run one
    after the other until one is refused. [requests_run_scripts] says that
    this is what [Dispatch.dispatch] does; [exec] keeps the record of what
    each channel acknowledged. *)
From S2P Require Import Prelude.
From S2P Require Import Heaps.
From S2P Require Import Text.
From S2P Require Import Settings.
From S2P Require Import Segments.
From S2P Require Import SegmentSpec.
From S2P Require Import Backend.
From S2P Require Import Channels.
From S2P Require Import ChannelFacts.
From S2P Require Import Queues.
From S2P Require Import QueueFacts.
From S2P Require Import Delivery.
From S2P Require Import Wire.
From S2P Require Import Commands.
From S2P Require Import CommandProps.

Module Script.
Import Commands.Dispatch.

Section scripts.
Context `{Profile} {T : Type} `{Tendril T} {B M : Type} `{BackendOps B Message.t}
  `{LinkedHashMap Channel.InFlightState M} `{Json InnerQueue.QueueCheckpoint}
  `{Json Config.ServerConfig} `{Json (gmap (list Z) Config.QueueConfig)}
  `{Json (gmap (list Z) InnerQueue.QueueInfo)} `{Json ServerInfo}.
Variable value_size : Z.
Variable new_backend : Config.QueueConfig → outcome B.
Variable io_debug : Z → list Z.

Abbreviation queue := (InnerQueue.t B M).
Implicit Types (st : state T B M) (env : Env T) (args : list (list Z)) (q : queue).

(** ** Scripts *)

(** [HDEL] acknowledges until a ticket is not a number. *)
Fixpoint acks (channel : list Z) (clk : Z) (tickets : list (list Z)) : list op :=
  match tickets with
  | [] => []
  | t :: tickets =>
      match parse_i64 t with
      | Some ticket => Ack channel ticket clk :: acks channel clk tickets
      | None => []
      end
  end.

(** What the arguments of a request ask of the queue [name]. *)
Definition script env args (name : list Z) : list op :=
  match args with
  | cmd :: target :: rest =>
      if bool_decide (cmd = Text.B "INFO") then
        match splitn 1 [] target with
        | [a] => if bool_decide (a = Text.B "queues") then [UpdateChannels (clock env)] else []
        | [a; prefix] =>
            if bool_decide (a = Text.B "queues") && starts_with prefix name then [UpdateChannels (clock env)] else []
        | _ => []
        end
      else if bool_decide (target = name) then
        if bool_decide (cmd = Text.B "RPUSH") then (λ m, Push m (clock env)) <$> rest
        else
          match rest with
          | [] => []
          | channel :: rest =>
              if bool_decide (cmd = Text.B "HMGET") then
                match rest with
                | count :: _ =>
                    match parse_u64 count with
                    | Some n => (λ i, Get channel (clock env) (ticket env i)) <$> seq 0 (Z.to_nat n)
                    | None => []
                    end
                | [] => []
                end
              else if bool_decide (cmd = Text.B "HDEL") then acks channel (clock env) rest
              else if bool_decide (cmd = Text.B "SET" ∨ cmd = Text.B "SETNX") then [CreateChannel channel (clock env)]
              else if bool_decide (cmd = Text.B "DEL") then [DeleteChannel channel]
              else if bool_decide (cmd = Text.B "SREM") then [PurgeChannel channel (clock env)]
              else []
          end
      else []
  | _ => []
  end.

(** One operation, and whether the request goes on after it. *)
Definition step_op env (o : op) q : outcome (queue * bool) :=
  match o with
  | Push body clk => '(q, r) ← InnerQueue.push (os env) q body clk; mret (q, is_ok r)
  | Get channel clk t => '(q, r) ← InnerQueue.get q channel clk t; mret (q, is_ok r)
  | _ => q ← run (os env) o q; mret (q, true)
  end.

(** Runs a script; [G] is what is known of the channels (file [Delivery.v]). *)
Fixpoint exec env (ops : list op) q (G : gmap (list Z) ghost) : outcome (queue * gmap (list Z) ghost) :=
  match ops with
  | [] => mret (q, G)
  | o :: ops =>
      '(q', go) ← step_op env o q;
      if (go : bool) then exec env ops q' (ghost_step o q G) else mret (q', ghost_step o q G)
  end.

Lemma step_op_run env o q q' go : step_op env o q = Done (q', go) → run (os env) o q = Done q'.
Proof.
  destruct o; cbn [step_op]; try by intros (q1 & Hr & [= <- <-])%bind_Done_iff.
  - intros ([q1 r] & Hr & [= <- <-])%bind_Done_iff. cbn [run]. by rewrite Hr.
  - intros ([q1 r] & Hr & [= <- <-])%bind_Done_iff. cbn [run]. by rewrite Hr.
Qed.

Lemma exec_one env o q q' G : run (os env) o q = Done q' → exec env [o] q G = Done (q', ghost_step o q G).
Proof.
  intros Hr. cbn [exec]. destruct o; cbn [step_op run] in *;
    try (rewrite Hr; cbn [mbind outcome_bind]; reflexivity).
  - destruct (InnerQueue.push _ _ _ _) as [[q1 r]| |]; [|done..]. injection Hr as <-. cbn. by destruct r.
  - destruct (InnerQueue.get _ _ _ _) as [[q1 r]| |]; [|done..]. injection Hr as <-. cbn. by destruct r.
Qed.

(** ** Each command runs its script *)

Lemma push_loop_exec env messages rest : ∀ q q' r G,
  InnerQueue.push_loop (os env) q messages (clock env) = Done (q', r) →
  exec env (((λ m, Push m (clock env)) <$> messages) ++ rest) q G =
    match r with Ok _ => exec env rest q' G | Err _ => Done (q', G) end.
Proof.
  induction messages as [|m messages IH]; intros q q' r G; cbn [InnerQueue.push_loop]; [by intros [= <- <-]|].
  intros ([q1 r1] & Hp & Hl)%bind_Done_iff. cbn [fmap list_fmap app exec step_op ghost_step]. rewrite Hp, !bind_Done.
  destruct r1; cbn [is_ok]; [by apply IH|by injection Hl as <- <-].
Qed.

Lemma push_many_exec env q messages q' r G :
  InnerQueue.push_many (os env) q messages (clock env) = Done (q', r) →
  exec env ((λ m, Push m (clock env)) <$> messages) q G = Done (q', G).
Proof.
  unfold InnerQueue.push_many. intros (u & _ & ([q1 r1] & Hl & Hp)%bind_Done_iff)%bind_Done_iff.
  destruct messages as [|m0 messages _] using rev_ind; [cbn in Hl; injection Hl as <- <-; by inv_outcome|].
  rewrite removelast_last in Hl. rewrite fmap_app, (push_loop_exec _ _ _ _ _ _ _ Hl).
  destruct r1; [|by injection Hp as <- _]. rewrite last_snoc in Hp. cbn [unwrap] in Hp. rewrite bind_Done in Hp.
  cbn [fmap list_fmap exec step_op ghost_step]. rewrite Hp, !bind_Done. by destruct r.
Qed.

Lemma gets_exec env q channel n q' ms e G : ∀ i,
  Dispatch.gets env q channel n i = Done (q', ms, e) →
  exec env ((λ i, Get channel (clock env) (ticket env i)) <$> seq i n) q G = Done (q', G).
Proof.
  revert q q' ms e. induction n as [|n IH]; intros q q' ms e i; cbn [Dispatch.gets seq fmap list_fmap exec]; [by intros [= <- <- <-]|].
  intros ([q1 r] & Hg & Hr)%bind_Done_iff. cbn [step_op ghost_step]. rewrite Hg, !bind_Done.
  destruct r as [[t m]|e']; cbn [is_ok].
  - apply bind_Done_iff in Hr as ([[q2 ms2] e2] & Hr & [= <- _ _]). by eapply IH.
  - by injection Hr as <- _ _.
Qed.

(** The table with one queue replaced. *)
Definition replaced st st' (name : list Z) q' : Prop := queues st' = <[name := q']> (queues st).

Lemma hdel_loop_exec env qn cn tickets : ∀ st k q G st' n,
  queues st !! qn = Some q → hdel_loop env st qn cn tickets k = Done (st', n) →
  ∃ q' G', replaced st st' qn q' ∧ exec env (acks cn (clock env) tickets) q G = Done (q', G').
Proof.
  unfold replaced. induction tickets as [|t tickets IH]; intros st k q G st' n Hq; cbn [hdel_loop acks].
  { intros [= <- _]. exists q, G. by rewrite insert_id. }
  destruct (parse_i64 t) as [ticket|]; [|intros [= <- _]; exists q, G; by rewrite insert_id].
  rewrite Hq. cbn [unwrap]. rewrite bind_Done. intros ([q1 r] & Ha & Hr)%bind_Done_iff.
  destruct (IH (set_queue st qn q1) _ q1 (ghost_step (Ack cn ticket (clock env)) q G) _ _ (bytes_insert_eq (queues st) qn q1) Hr) as (q' & G' & Hq' & He).
  exists q', G'. split.
  - rewrite Hq'. cbn. apply insert_insert_eq.
  - cbn [exec step_op run]. rewrite Ha. exact He.
Qed.

(** *** Which requests are carried out *)

Definition present st (name : list Z) : bool := bool_decide (is_Some (queues st !! name)).

Definition valid_name (s : list Z) : bool := bool_decide (is_Some (check_identifier_str s)).

(** The request passes the checks of its handler: enough arguments, numbers
    and names in their form, and the queue there (for [SET], there or not as
    the command and its [NX] want it). *)
Definition accepted st args : bool :=
  match args with
  | cmd :: target :: rest =>
      if bool_decide (cmd = Text.B "INFO") then
        match splitn 1 [] target with
        | [a] => bool_decide (a = Text.B "server") || bool_decide (a = Text.B "queues")
        | [a; _] => bool_decide (a = Text.B "queues")
        | _ => false
        end
      else if bool_decide (cmd = Text.B "RPUSH") then (1 <=? zlen rest) && present st target
      else if bool_decide (cmd = Text.B "HMGET") then
        match rest with
        | _ :: count :: rest =>
            bool_decide (is_Some (parse_u64 count)) &&
            match rest with [] => true | timeout :: _ => bool_decide (is_Some (parse_u32 timeout)) end && present st target
        | _ => false
        end
      else if bool_decide (cmd = Text.B "HDEL") then (2 <=? zlen rest) && present st target
      else if bool_decide (cmd = Text.B "SET" ∨ cmd = Text.B "SETNX") then
        match rest with
        | [] => false
        | channel :: more =>
            valid_name target && valid_name channel &&
            (negb (present st target) || bool_decide (cmd = Text.B "SETNX") || bool_decide (last more = Some (Text.B "NX")))
        end
      else if bool_decide (cmd = Text.B "DEL") then present st target
      else if bool_decide (cmd = Text.B "SREM") then (1 <=? zlen rest) && present st target
      else false
  | _ => false
  end.

(** [SET] names the one queue that may be created, [DEL] without a channel
    the one that is deleted. *)
Definition creates args : option (list Z) :=
  match args with
  | cmd :: target :: _ => if bool_decide (cmd = Text.B "SET" ∨ cmd = Text.B "SETNX") then Some target else None
  | _ => None
  end.
Definition deletes args : option (list Z) :=
  match args with [cmd; target] => if bool_decide (cmd = Text.B "DEL") then Some target else None | _ => None end.

(** The queue of a name after its script. *)
Definition ran env args (name : list Z) q q' : Prop :=
  ∀ G, ∃ G', exec env (script env args name) q G = Done (q', G').

(** What a request that is carried out makes of the queue [name]. *)
Definition runs env args st st' (name : list Z) : Prop :=
  match queues st !! name, queues st' !! name with
  | Some q, Some q' => deletes args ≠ Some name ∧ ran env args name q q'
  | Some _, None => deletes args = Some name
  | None, Some q' => creates args = Some name ∧ ∃ q, Dispatch.fresh_queue new_backend env name q ∧ ran env args name q q'
  | None, None => creates args ≠ Some name
  end.

(** The answer to a request that is not carried out: an error, or 0. *)
Definition declined (n : NotifyMessage.t T) : Prop :=
  match n with NotifyMessage.Response (Value.Error _) | NotifyMessage.Response (Value.Int 0) => True | _ => False end.

Definition treated env args st st' (n : NotifyMessage.t T) : Prop :=
  if accepted st args then ∀ name, runs env args st st' name
  else queues st' = queues st ∧ (head args ≠ Some (Text.B "CONFIG") → declined n).

Lemma present_Some st name q : queues st !! name = Some q → present st name = true.
Proof. intros Hq. apply bool_decide_true. by exists q. Qed.

Lemma present_error st name e : get_queue st name = Err e → present st name = false.
Proof. unfold get_queue, present. destruct (queues st !! name); [done|]. intros _. by apply bool_decide_false; intros []. Qed.

Lemma treated_declined env args st st' n :
  accepted st args = false → queues st' = queues st → declined n → treated env args st st' n.
Proof. intros Ha Hq Hn. unfold treated. rewrite Ha. by split. Qed.

Lemma declined_error e : declined (NotifyMessage.from_error io_debug e).
Proof. by destruct e. Qed.

(** Another queue than the target has nothing to run. *)
Lemma script_other env cmd target rest name :
  cmd ≠ Text.B "INFO" → target ≠ name → script env (cmd :: target :: rest) name = [].
Proof. intros Hc Hn. unfold script. by rewrite bool_decide_false, bool_decide_false by done. Qed.

Lemma script_target env cmd target rest :
  cmd ≠ Text.B "INFO" →
  script env (cmd :: target :: rest) target =
    if bool_decide (cmd = Text.B "RPUSH") then (λ m, Push m (clock env)) <$> rest
    else script env (cmd :: target :: rest) target.
Proof. intros Hc. unfold script. rewrite bool_decide_false, (bool_decide_true (target = target)) by done. by case_bool_decide. Qed.

Lemma ran_nothing env args name q : script env args name = [] → ran env args name q q.
Proof. intros Hs G. exists G. by rewrite Hs. Qed.

Lemma deletes_other cmd target rest : cmd ≠ Text.B "DEL" → deletes (cmd :: target :: rest) = None.
Proof. intros Hc. destruct rest; [|done]. cbn. by rewrite bool_decide_false. Qed.

(** One queue, the target, is replaced by what its script makes of it. *)
Lemma treated_replaced env cmd target rest st st' n q q' :
  cmd ≠ Text.B "INFO" → creates (cmd :: target :: rest) = None → deletes (cmd :: target :: rest) = None →
  queues st !! target = Some q → replaced st st' target q' → ran env (cmd :: target :: rest) target q q' →
  accepted st (cmd :: target :: rest) = true → treated env (cmd :: target :: rest) st st' n.
Proof.
  intros Hi Hc Hd Hq Hr He Ha. unfold treated, runs. rewrite Ha. intros name. rewrite Hr, Hc, Hd.
  destruct (decide (target = name)) as [<-|Hne]; [by rewrite Hq, bytes_insert_eq|].
  rewrite bytes_insert_ne by done. destruct (queues st !! name) as [q2|]; [|done].
  split; [done|]. apply ran_nothing. by apply script_other.
Qed.

(** Only queues that were there run their scripts, and all of them stay. *)
Lemma treated_kept env args st st' n :
  creates args = None → deletes args = None → accepted st args = true →
  (∀ name, match queues st !! name, queues st' !! name with
           | Some q, Some q' => ran env args name q q'
           | None, None => True
           | _, _ => False
           end) → treated env args st st' n.
Proof.
  intros Hc Hd Ha Hq. unfold treated, runs. rewrite Ha. intros name. specialize (Hq name). rewrite Hc, Hd.
  by destruct (queues st !! name), (queues st' !! name).
Qed.

Lemma info_runs (o : Os) (clk : Z) q q' i :
  InnerQueue.info q clk = Done (q', i) → run o (UpdateChannels clk) q = Done q'.
Proof.
  intros (du & _ & (counted & Hc%map_values_Done & [= <- _])%bind_Done_iff)%bind_Done_iff.
  cbn [run]. unfold InnerQueue.iter_channels.
  assert (map_values (λ c, Channel.update_state c clk) (InnerQueue.channels q) = Done (fst <$> counted)) as ->;
    [|by rewrite bind_Done].
  destruct (map_values_ok (λ c, Channel.update_state c clk) (InnerQueue.channels q)) as (m & Hm & Hmap).
  { intros k c Hk. specialize (Hc k). rewrite Hk in Hc. destruct Hc as (w & _ & Hw).
    unfold Channel.in_flight_count in Hw. apply bind_Done_iff in Hw as (c' & Hc' & _). by exists c'. }
  rewrite Hm. f_equal. apply map_eq. intros k. rewrite lookup_fmap. specialize (Hc k). specialize (Hmap k).
  destruct (InnerQueue.channels q !! k) as [c|].
  - destruct Hc as (w & -> & Hw). destruct Hmap as (c' & -> & Hc'). unfold Channel.in_flight_count in Hw.
    rewrite Hc', bind_Done in Hw. apply bind_Done_iff in Hw as (n & _ & [= <-]). done.
  - by rewrite Hc, Hmap.
Qed.

(** A handler that refuses leaves the queues alone and says so. *)
#[local] Ltac refused := apply treated_declined; [|done|first [done | apply declined_error]].

Lemma script_rpush env target rest : script env (Text.B "RPUSH" :: target :: rest) target = (λ m, Push m (clock env)) <$> rest.
Proof. unfold script. by rewrite (bool_decide_true (target = target)). Qed.

(** What each command checks. *)
Lemma accepted_rpush st target rest :
  accepted st (Text.B "RPUSH" :: target :: rest) = (1 <=? zlen rest) && present st target.
Proof. done. Qed.

Lemma accepted_hmget st target cn count rest :
  accepted st (Text.B "HMGET" :: target :: cn :: count :: rest) =
    bool_decide (is_Some (parse_u64 count)) &&
    match rest with [] => true | timeout :: _ => bool_decide (is_Some (parse_u32 timeout)) end && present st target.
Proof. done. Qed.

Lemma accepted_hdel st target rest :
  accepted st (Text.B "HDEL" :: target :: rest) = (2 <=? zlen rest) && present st target.
Proof. done. Qed.

Lemma accepted_del st target rest : accepted st (Text.B "DEL" :: target :: rest) = present st target.
Proof. done. Qed.

Lemma accepted_srem st target rest :
  accepted st (Text.B "SREM" :: target :: rest) = (1 <=? zlen rest) && present st target.
Proof. done. Qed.

Lemma accepted_set st cmd target channel more :
  cmd = Text.B "SET" ∨ cmd = Text.B "SETNX" →
  accepted st (cmd :: target :: channel :: more) =
    valid_name target && valid_name channel &&
      (negb (present st target) || bool_decide (cmd = Text.B "SETNX") || bool_decide (last more = Some (Text.B "NX"))).
Proof. by intros [-> | ->]. Qed.

Lemma rpush_treated env st target rest st' n :
  rpush io_debug env st (Text.B "RPUSH" :: target :: rest) = Done (st', n) →
  treated env (Text.B "RPUSH" :: target :: rest) st st' n.
Proof.
  intros Hr. unfold rpush in Hr. change (arg _ 1) with (Done target) in Hr. change (drop 2 _) with rest in Hr.
  destruct (Z.ltb_spec (zlen (Text.B "RPUSH" :: target :: rest)) 3) as [Hl|Hl]; rewrite !zlen_cons in Hl.
  { injection Hr as <- <-. refused. by rewrite accepted_rpush, (proj2 (Z.leb_gt 1 _)) by lia. }
  rewrite bind_Done in Hr. destruct (get_queue st target) as [q|e] eqn:Hq.
  2: { injection Hr as <- <-. refused. rewrite accepted_rpush. by rewrite (present_error _ _ _ Hq), andb_false_r. }
  apply Dispatch.get_queue_Ok in Hq. apply bind_Done_iff in Hr as ([q' r] & Hp & Hr).
  assert (queues st' = <[target := q']> (queues st)) as Hrep.
  { destruct r; [apply bind_Done_iff in Hr as (? & _ & [= <- _])|injection Hr as <- _]; done. }
  eapply treated_replaced; [done|done|by apply deletes_other|exact Hq|exact Hrep| |].
  - intros G. exists G. rewrite script_rpush. by eapply push_many_exec.
  - by rewrite accepted_rpush, (proj2 (Z.leb_le 1 _)), (present_Some _ _ _ Hq) by lia.
Qed.

Lemma hmget_treated env st request target rest st' n :
  hmget value_size io_debug env st request (Text.B "HMGET" :: target :: rest) = Done (st', n) →
  treated env (Text.B "HMGET" :: target :: rest) st st' n.
Proof.
  unfold hmget. destruct rest as [|cn [|count rest]].
  1-2: by change (_ <? 4) with true; intros [= <- <-]; refused.
  rewrite (proj2 (Z.ltb_ge _ _)) by (rewrite !zlen_cons; pose proof (zlen_nonneg rest); lia).
  change (arg _ 1) with (Done target). change (arg _ 2) with (Done cn). change (arg _ 3) with (Done count).
  change (_ !! 4%nat) with (rest !! 0%nat). rewrite !bind_Done. destruct (parse_u64 count) as [k|] eqn:Hk.
  2: { intros [= <- <-]. refused. by rewrite accepted_hmget, Hk. }
  destruct (match rest !! 0%nat with Some a => parse_u32 a | None => Some 0 end) as [timeout|] eqn:Ht.
  2: { intros [= <- <-]. refused. rewrite accepted_hmget. destruct rest as [|a rest]; [done|]. cbn in Ht. by rewrite Ht, andb_false_r. }
  destruct (get_queue st target) as [q|e] eqn:Hq.
  2: { intros [= <- <-]. refused. by rewrite accepted_hmget, (present_error _ _ _ Hq), andb_false_r. }
  apply Dispatch.get_queue_Ok in Hq. intros (u & _ & Hr)%bind_Done_iff.
  rewrite (Dispatch.hmget_loop_gets _ _ _ _ _ _ _ _ q) in Hr by done.
  apply bind_Done_iff in Hr as ([[q' ms] e] & Hg & [= <- _]).
  assert (ran env (Text.B "HMGET" :: target :: cn :: count :: rest) target q q') as Hran.
  { intros G. exists G. unfold script. rewrite (bool_decide_true (target = target)) by done. cbn [bool_decide]. rewrite Hk.
    by eapply gets_exec. }
  eapply (treated_replaced _ _ _ _ _ _ _ q q'); [done|done|by apply deletes_other|exact Hq| |exact Hran|].
  - unfold replaced. destruct (Z.to_nat k); [|done]. cbn in Hg. injection Hg as <- _ _. by rewrite insert_id.
  - rewrite accepted_hmget, Hk, (present_Some _ _ _ Hq). destruct rest as [|a rest]; [done|]. cbn in Ht. by rewrite Ht.
Qed.

Lemma hdel_treated env st target rest st' n :
  hdel io_debug env st (Text.B "HDEL" :: target :: rest) = Done (st', n) →
  treated env (Text.B "HDEL" :: target :: rest) st st' n.
Proof.
  unfold hdel. destruct (Z.ltb_spec (zlen (Text.B "HDEL" :: target :: rest)) 4) as [Hl|Hl]; rewrite !zlen_cons in Hl.
  { intros [= <- <-]. refused. by rewrite accepted_hdel, (proj2 (Z.leb_gt 2 _)) by lia. }
  destruct rest as [|cn tickets]; [by cbn in Hl|]. change (arg _ 1) with (Done target).
  change (arg _ 2) with (Done cn). change (drop 3 _) with tickets. rewrite !bind_Done.
  destruct (get_queue st target) as [q|e] eqn:Hq.
  2: { intros [= <- <-]. refused. by rewrite accepted_hdel, (present_error _ _ _ Hq), andb_false_r. }
  apply Dispatch.get_queue_Ok in Hq. intros Hr.
  destruct (hdel_loop_exec env target cn tickets st 0 q ∅ st' n Hq Hr) as (q' & G0 & Hrep & _).
  eapply treated_replaced; [done|done|by apply deletes_other|exact Hq|exact Hrep| |].
  - intros G. destruct (hdel_loop_exec env target cn tickets st 0 q G st' n Hq Hr) as (q2 & G' & Hrep2 & He).
    exists G'. unfold script. rewrite (bool_decide_true (target = target)) by done.
    enough (q2 = q') as <- by done. unfold replaced in *. rewrite Hrep in Hrep2.
    apply (f_equal (lookup target)) in Hrep2. rewrite !bytes_insert_eq in Hrep2. by injection Hrep2.
  - by rewrite accepted_hdel, (proj2 (Z.leb_le 2 _)), (present_Some _ _ _ Hq) by lia.
Qed.

Lemma last_cons2 {A} (a b c : A) l : last (a :: b :: c :: l) = match l with [] => Some c | _ => last l end.
Proof. by destruct l. Qed.

(** [SETNX], or [SET] with [NX] at its end. *)
Lemma set_flag cmd target channel more la :
  last (cmd :: target :: channel :: more) = Some la →
  bool_decide (cmd = Text.B "SETNX") || (3 <? zlen (cmd :: target :: channel :: more)) && bool_decide (la = Text.B "NX") =
    bool_decide (cmd = Text.B "SETNX") || bool_decide (last more = Some (Text.B "NX")).
Proof.
  rewrite last_cons2. intros Hla. f_equal. destruct more as [|m more]; [done|].
  rewrite Hla, (proj2 (Z.ltb_lt 3 _)) by (rewrite !zlen_cons; pose proof (zlen_nonneg more); lia). cbn [andb].
  apply bool_decide_ext. split; congruence.
Qed.

Lemma set_created env st cmd target channel more q q' st' n :
  cmd = Text.B "SET" ∨ cmd = Text.B "SETNX" → accepted st (cmd :: target :: channel :: more) = true →
  (queues st !! target = Some q ∨ queues st !! target = None ∧ Dispatch.fresh_queue new_backend env target q) →
  q' = (InnerQueue.create_channel q channel (clock env)).1 → queues st' = <[target := q']> (queues st) →
  treated env (cmd :: target :: channel :: more) st st' n.
Proof.
  intros Hcmd Ha Hsrc Hq' Hst'. unfold treated. rewrite Ha. intros name. unfold runs. rewrite Hst'.
  assert (deletes (cmd :: target :: channel :: more) = None) as -> by done.
  assert (creates (cmd :: target :: channel :: more) = Some target) as -> by (cbn [creates]; by rewrite bool_decide_true).
  destruct (decide (target = name)) as [<-|Hne].
  - assert (ran env (cmd :: target :: channel :: more) target q q') as Hran.
    { intros G. exists (ghost_step (CreateChannel channel (clock env)) q G). unfold script.
      rewrite (bool_decide_true (target = target)) by done. subst q'.
      destruct Hcmd as [-> | ->]; by apply (exec_one env (CreateChannel channel (clock env))). }
    rewrite bytes_insert_eq. destruct Hsrc as [-> |[-> Hf]]; [done|]. split; [done|]. by exists q.
  - rewrite bytes_insert_ne by done. destruct (queues st !! name) as [q2|]; [|congruence]. split; [done|].
    apply ran_nothing, script_other; [destruct Hcmd; by subst|done].
Qed.

Lemma set_treated env st cmd target rest st' n :
  cmd = Text.B "SET" ∨ cmd = Text.B "SETNX" →
  set new_backend io_debug env st (cmd :: target :: rest) = Done (st', n) →
  treated env (cmd :: target :: rest) st st' n.
Proof.
  intros Hcmd. unfold set. destruct rest as [|channel more].
  { change (_ <? 3) with true. intros [= <- <-]. refused. by destruct Hcmd as [-> | ->]. }
  rewrite (proj2 (Z.ltb_ge _ 3)) by (rewrite !zlen_cons; pose proof (zlen_nonneg more); lia).
  change (arg _ 0) with (Done cmd). change (arg _ 1) with (Done target). change (arg _ 2) with (Done channel).
  rewrite bind_Done. intros (la & Hla%Dispatch.unwrap_Done & Hr)%bind_Done_iff. cbv zeta in Hr.
  rewrite (set_flag _ _ _ _ _ Hla), !bind_Done in Hr. set (nx := _ || _) in Hr.
  assert (accepted st (cmd :: target :: channel :: more) =
    valid_name target && valid_name channel && (negb (present st target) || nx)) as Ha.
  { rewrite accepted_set by done. unfold nx. by rewrite orb_assoc. }
  clearbody nx. unfold valid_name in Ha.
  destruct (check_identifier_str target) as [qn|] eqn:Hqn; [|injection Hr as <- <-; by refused; rewrite Ha].
  destruct (check_identifier_str channel) as [cn|] eqn:Hcn; [|injection Hr as <- <-; by refused; rewrite Ha].
  apply identifier_chars in Hqn as [-> _]. apply identifier_chars in Hcn as [-> _].
  rewrite !bool_decide_true in Ha by eauto. cbn [andb] in Ha.
  apply bind_Done_iff in Hr as ([st1 r] & Hc & Hr). destruct (queues st !! target) as [q|] eqn:Hq.
  - rewrite (present_Some _ _ _ Hq) in Ha. unfold create_queue in Hc. rewrite Hq in Hc. injection Hc as <- <-.
    destruct nx; [|injection Hr as <- <-; by refused]. rewrite Hq in Hr. cbn [unwrap] in Hr. rewrite bind_Done in Hr.
    eapply (set_created _ _ _ _ _ _ q); [done..|by left|done|]. unfold create_channel in Hr.
    destruct (InnerQueue.create_channel q channel (clock env)) as [q' [u|e]]; by injection Hr as <- _.
  - unfold present in Ha. rewrite Hq in Ha. rewrite bool_decide_false in Ha by (by intros []).
    destruct (Dispatch.create_queue_new _ env st target nx st1 r Hq Hc) as (b & q & Hb & Hnew & -> & ->).
    cbn [queues] in Hr. rewrite bytes_insert_eq in Hr. cbn [unwrap] in Hr. rewrite bind_Done in Hr.
    eapply (set_created _ _ _ _ _ _ q); [done|exact Ha|right; split; [done|by exists b]|done|]. unfold create_channel in Hr.
    destruct (InnerQueue.create_channel q channel (clock env)) as [q' [u|e]]; [|destruct nx]; injection Hr as <- _;
      cbn; apply insert_insert_eq.
Qed.

Lemma del_treated env st target rest st' n :
  del env st (Text.B "DEL" :: target :: rest) = Done (st', n) →
  treated env (Text.B "DEL" :: target :: rest) st st' n.
Proof.
  unfold del. rewrite (proj2 (Z.ltb_ge _ 2)) by (rewrite !zlen_cons; pose proof (zlen_nonneg rest); lia).
  change (arg _ 1) with (Done target). rewrite bind_Done. destruct (get_queue st target) as [q|e] eqn:Hq.
  2: { intros [= <- <-]. refused. by rewrite accepted_del, (present_error _ _ _ Hq). }
  apply Dispatch.get_queue_Ok in Hq.
  assert (accepted st (Text.B "DEL" :: target :: rest) = true) as Ha by (by rewrite accepted_del, (present_Some _ _ _ Hq)).
  destruct rest as [|channel rest].
  - change (_ !! 2%nat) with (@None (list Z)). intros (st2 & Hd & [= <- _])%bind_Done_iff. unfold delete_queue in Hd.
    rewrite Hq in Hd. apply bind_Done_iff in Hd as ([q' ps] & _ & [= <-]).
    unfold treated, runs. rewrite Ha. intros name. change (deletes _) with (Some target). change (creates _) with (@None (list Z)).
    cbn [queues wipe notify_server set_queues]. destruct (decide (target = name)) as [<-|Hne]; [by rewrite bytes_delete_eq, Hq|].
    rewrite bytes_delete_ne by done. destruct (queues st !! name) as [q2|]; [|done]. split; [congruence|].
    apply ran_nothing. by apply script_other.
  - change (_ !! 2%nat) with (Some channel). unfold delete_channel. intros Hr.
    eapply (treated_replaced _ _ _ _ _ _ _ q (InnerQueue.delete_channel q channel).1); [done..|exact Hq| | |done].
    + destruct (InnerQueue.delete_channel q channel) as [q' [u|e]]; by injection Hr as <- _.
    + intros G. exists (ghost_step (DeleteChannel channel) q G). unfold script.
      rewrite (bool_decide_true (target = target)) by done. by apply (exec_one env (DeleteChannel channel)).
Qed.

Lemma srem_treated env st target rest st' n :
  head rest ≠ Some (Text.B "*") → srem env st (Text.B "SREM" :: target :: rest) = Done (st', n) →
  treated env (Text.B "SREM" :: target :: rest) st st' n.
Proof.
  intros Hstar. unfold srem. destruct rest as [|channel rest].
  { change (_ <? 3) with true. intros [= <- <-]. by refused. }
  rewrite (proj2 (Z.ltb_ge _ 3)) by (rewrite !zlen_cons; pose proof (zlen_nonneg rest); lia).
  change (arg _ 1) with (Done target). change (arg _ 2) with (Done channel). rewrite !bind_Done.
  destruct (get_queue st target) as [q|e] eqn:Hq.
  2: { intros [= <- <-]. refused. by rewrite accepted_srem, (present_error _ _ _ Hq), andb_false_r. }
  apply Dispatch.get_queue_Ok in Hq.
  rewrite bool_decide_false by (intros ->; by apply Hstar). intros ([q' r] & Hp & [= <- _])%bind_Done_iff.
  eapply (treated_replaced _ _ _ _ _ _ _ q q'); [done|done|by apply deletes_other|exact Hq|done| |].
  - intros G. exists (ghost_step (PurgeChannel channel (clock env)) q G).
    unfold script. rewrite (bool_decide_true (target = target)) by done.
    apply (exec_one env (PurgeChannel channel (clock env))). cbn [run]. by rewrite Hp.
  - rewrite accepted_srem, (proj2 (Z.leb_le 1 _)), (present_Some _ _ _ Hq); [done|]. rewrite zlen_cons. pose proof (zlen_nonneg rest). lia.
Qed.

Lemma info_queue_treated env args st prefix st' infos n :
  info_queue env st prefix = Done (st', infos) →
  creates args = None → deletes args = None → accepted st args = true →
  (∀ name, script env args name = if starts_with prefix name then [UpdateChannels (clock env)] else []) →
  treated env args st st' n.
Proof.
  unfold info_queue. intros (m & Hm & [= <- _])%bind_Done_iff Hc Hd Ha Hsc. pose proof Hm as Hm'%map_values_Done.
  apply treated_kept; [done..|]. intros name. cbn. specialize (Hm' name). rewrite map_lookup_filter in Hm'.
  rewrite lookup_union, lookup_fmap. destruct (queues st !! name) as [q|] eqn:Hq; cbn in Hm'.
  - destruct (starts_with prefix name) eqn:Hp.
    + rewrite option_guard_True in Hm' by done. cbn in Hm'. destruct Hm' as ([q2 i] & Hi & Hinfo). rewrite Hi. cbn.
      assert (queues st !! name = Some q) as Hq1 by done. rewrite ?union_Some_l. cbn.
      intros G. exists (ghost_step (UpdateChannels (clock env)) q G). rewrite Hsc, Hp. apply exec_one. by eapply info_runs.
    + rewrite option_guard_False in Hm' by done. cbn in Hm'. rewrite Hm'. cbn. apply ran_nothing. by rewrite Hsc, Hp.
  - cbn in Hm'. by rewrite Hm'.
Qed.

Lemma info_treated env st target rest st' n :
  info env st (Text.B "INFO" :: target :: rest) = Done (st', n) →
  treated env (Text.B "INFO" :: target :: rest) st st' n.
Proof.
  unfold info. rewrite (proj2 (Z.ltb_ge _ 2)) by (rewrite !zlen_cons; pose proof (zlen_nonneg rest); lia).
  change (arg _ 1) with (Done target). rewrite bind_Done. intros Hr.
  assert (deletes (Text.B "INFO" :: target :: rest) = None) as Hd by by apply deletes_other.
  assert (∀ st1, accepted st1 (Text.B "INFO" :: target :: rest) =
    match splitn 1 [] target with
    | [a] => bool_decide (a = Text.B "server") || bool_decide (a = Text.B "queues")
    | [a; _] => bool_decide (a = Text.B "queues")
    | _ => false
    end) as Ha by done.
  assert (∀ name, script env (Text.B "INFO" :: target :: rest) name =
    match splitn 1 [] target with
    | [a] => if bool_decide (a = Text.B "queues") then [UpdateChannels (clock env)] else []
    | [a; prefix] => if bool_decide (a = Text.B "queues") && starts_with prefix name then [UpdateChannels (clock env)] else []
    | _ => []
    end) as Hsc by done.
  destruct (splitn 1 [] target) as [|a [|prefix [|]]]; try by (injection Hr as <- <-; refused).
  - destruct (bool_decide (a = Text.B "server")) eqn:Hs.
    { injection Hr as <- _. apply treated_kept; [done|done|apply Ha|]. intros name. cbn.
      destruct (queues st !! name); [|done]. apply ran_nothing. rewrite Hsc. apply bool_decide_eq_true in Hs as ->. done. }
    destruct (bool_decide (a = Text.B "queues")) eqn:Hqs; [|injection Hr as <- <-; by refused; rewrite Ha].
    apply bind_Done_iff in Hr as ([st1 infos] & Hi & [= <- _]).
    eapply info_queue_treated; [exact Hi|done|done|by rewrite Ha|]. intros name. by rewrite Hsc.
  - destruct (bool_decide (a = Text.B "queues")) eqn:Hqs; [|injection Hr as <- <-; by refused; rewrite Ha].
    apply bind_Done_iff in Hr as ([st1 infos] & Hi & [= <- _]).
    eapply info_queue_treated; [exact Hi|done|done|by rewrite Ha|]. intros name. by rewrite Hsc.
Qed.

(** Splits the run of a handler at its binds and its branches. *)
#[local] Ltac split_run H :=
  repeat first
    [ progress cbn beta iota in H
    | match type of H with
      | mbind _ _ = Done _ => let x := fresh "x" in let E := fresh "E" in
          apply bind_Done_iff in H as (x & E & H)
      | Done _ = Done _ => injection H as <- <-
      | mret _ = Done _ => injection H as <- <-
      | reply _ _ = Done _ => injection H as <- <-
      | error _ _ = Done _ => injection H as <- <-
      | queue_error _ _ _ = Done _ => injection H as <- <-
      | json_reply _ _ = Done _ => injection H as <- <-
      | (let '(_, _) := ?p in _) = Done _ => destruct p
      | (if ?b then _ else _) = Done _ => let E := fresh "E" in destruct b eqn:E
      | match ?p with _ => _ end = Done _ => let E := fresh "E" in destruct p eqn:E
      end ].

Lemma config_command_queues env st args st' n :
  config_command io_debug env st args = Done (st', n) → queues st' = queues st.
Proof. unfold config_command, config_get, config_set. intros Hr. split_run Hr; done. Qed.

(** The commands that are not in the transition system of [Delivery.v]:
    [HMSET] seeks, and [SREM queue *] purges the whole queue. *)
Definition plain args : Prop :=
  args !! 0%nat ≠ Some (Text.B "HMSET") ∧
  (args !! 0%nat = Some (Text.B "SREM") → args !! 2%nat ≠ Some (Text.B "*")).

(** A command without an argument is refused. *)
Lemma lone_command env st request cmd st' n :
  run_command value_size new_backend io_debug env st request [cmd] = Done (st', n) →
  cmd ≠ Text.B "CONFIG" → st' = st ∧ declined n.
Proof.
  intros Hr Hc. unfold run_command, rpush, hmget, hdel, info, hmset, set, del, srem in Hr. cbn [arg unwrap lookup list_lookup] in Hr.
  rewrite bind_Done in Hr. repeat (case_bool_decide; [try (by destruct Hc); by injection Hr as <- <-|]). by injection Hr as <- <-.
Qed.

Lemma run_command_treated env st request args st' n :
  plain args → run_command value_size new_backend io_debug env st request args = Done (st', n) →
  treated env args st st' n.
Proof.
  intros [Hseek Hpurge] Hr. destruct args as [|cmd [|target rest]]; [done| |].
  { unfold treated. cbn [accepted]. destruct (decide (cmd = Text.B "CONFIG")) as [->|Hc].
    - split; [|by intros []]. by apply (config_command_queues env st [Text.B "CONFIG"] st' n).
    - apply lone_command in Hr as [-> Hn]; [|done]. by split. }
  unfold run_command in Hr. change (arg _ 0) with (Done cmd) in Hr. rewrite bind_Done in Hr.
  repeat case_bool_decide; subst; try (by destruct Hseek).
  - by eapply rpush_treated.
  - by eapply hmget_treated.
  - by eapply hdel_treated.
  - by apply info_treated.
  - by apply set_treated.
  - by apply del_treated.
  - apply srem_treated; [|done]. intros Hh. apply Hpurge; [done|]. by destruct rest.
  - unfold treated. change (accepted st _) with false. split; [by eapply config_command_queues|by intros []].
  - injection Hr as <- <-. refused. unfold accepted. by rewrite !bool_decide_false by done.
Qed.

Lemma data_args_length (a : list (Value.t T)) args : data_args a = Some args → zlen a = zlen args.
Proof.
  revert args. induction a as [|v a IH]; intros args; cbn [data_args]; [by intros [= <-]|].
  destruct v; try done. intros (args' & Ha & ->)%fmap_Some. by rewrite !zlen_cons, (IH _ Ha).
Qed.

(** A request has at most 50 arguments. *)
Definition carried_out st args : bool := (zlen args <=? 50) && accepted st args.

Lemma dispatch_treated env st a args st' n :
  data_args a = Some args → plain args →
  dispatch value_size new_backend io_debug env st (Value.Array a) = Done (st', n) →
  if carried_out st args then ∀ name, runs env args st st' name
  else queues st' = queues st ∧ (head args ≠ Some (Text.B "CONFIG") → declined n).
Proof.
  intros Ha Hp Hd. unfold dispatch in Hd. rewrite (data_args_length _ _ Ha), Ha in Hd. unfold carried_out.
  destruct (Z.leb_spec (zlen args) 50) as [Hl|Hl]; cbn [andb].
  - destruct args as [|cmd args]; [injection Hd as <- <-; by split|].
    rewrite (proj2 (Z.ltb_lt 0 _)) in Hd by (rewrite zlen_cons; pose proof (zlen_nonneg args); lia).
    by apply run_command_treated in Hd.
  - rewrite andb_false_r in Hd. injection Hd as <- <-. by split.
Qed.

(** A queue of the new table is one of the old table or a new one, as it was
    or after its script. *)
Lemma dispatch_follows env st a args st' n :
  data_args a = Some args → plain args →
  dispatch value_size new_backend io_debug env st (Value.Array a) = Done (st', n) →
  ∀ name q', queues st' !! name = Some q' →
    ∃ q, (queues st !! name = Some q ∨
          queues st !! name = None ∧ Dispatch.fresh_queue new_backend env name q) ∧
      (q' = q ∨ ran env args name q q').
Proof.
  intros Ha Hp Hd name q' Hq'. pose proof (dispatch_treated _ _ _ _ _ _ Ha Hp Hd) as Ht.
  destruct (carried_out st args).
  - specialize (Ht name). unfold runs in Ht. rewrite Hq' in Ht. destruct (queues st !! name) as [q|]; [exists q; naive_solver|].
    destruct Ht as (_ & q & Hf & Hr). exists q. auto.
  - destruct Ht as [Hs _]. rewrite Hs in Hq'. exists q'. auto.
Qed.

(** ** Theorem *)

(** C10: What a request does to the queues is its script. A request that is
    carried out, which its arguments and the names of the queues decide,
    creates the queue that [SET] or [SETNX] names, deletes the queue that
    [DEL] names without a channel, and takes every other queue through its
    script and no further: the operations that the arguments ask of that
    queue (none, for a queue the request is not about), in their order, up
    to the first that is refused. Any other request leaves the whole table
    as it was and, [CONFIG] apart, is answered with an error or with 0. The
    requests are those of [plain]: not [HMSET], not [SREM queue *]. *)
Theorem requests_run_scripts env st a args st' n :
  data_args a = Some args → plain args →
  dispatch value_size new_backend io_debug env st (Value.Array a) = Done (st', n) →
  if carried_out st args then
    ∀ name, match queues st !! name, queues st' !! name with
      | Some q, Some q' => deletes args ≠ Some name ∧ ∀ G, ∃ G', exec env (script env args name) q G = Done (q', G')
      | Some _, None => deletes args = Some name
      | None, Some q' => creates args = Some name ∧
          ∃ q, Dispatch.fresh_queue new_backend env name q ∧ ∀ G, ∃ G', exec env (script env args name) q G = Done (q', G')
      | None, None => creates args ≠ Some name
      end
  else queues st' = queues st ∧ (head args ≠ Some (Text.B "CONFIG") → declined n).
Proof. apply dispatch_treated. Qed.

End scripts.
End Script.
