(* ===== verification/Server.v ===== *)
(** * The event loop ([server.rs], [Server], [Client], [ServerHandler])

    One thread owns the connections and the clients that wait for messages;
    the requests run on worker threads ([Commands.v]) and answer through
    notifications. A client is processing a request, or waits in the list of
    a channel with a timer running, or neither.

    The [mio] event loop is third-party code: sockets are the bytes they
    deliver and accept, and [EventLoop] lists the timer operations.
    Registering a socket for events is taken to succeed; what it is
    registered for is the client's [interest]. *)
From S2P Require Import Prelude.
From S2P Require Import Offsets.
From S2P Require Import Settings.
From S2P Require Import Wire.
From S2P Require Import Commands.

(** [mio::EventSet] *)
Record EventSet : Type := mkEventSet {
  readable : bool;
  writable : bool;
  error : bool;
  hup : bool;
}.
Definition ev_all : EventSet := mkEventSet true true true true.
Definition no_readable (e : EventSet) : EventSet := mkEventSet false (writable e) (error e) (hup e).
Definition no_writable (e : EventSet) : EventSet := mkEventSet (readable e) false (error e) (hup e).

#[export] Instance EventSet_eq_dec : EqDecision EventSet.
Proof. solve_decision. Defined.

(** [TimeoutMessage::Timeout] with its token, [TimeoutType]. *)
Record TimeoutType : Type := mkTimeout {
  tm_token : Z;
  tm_queue : list Z;
  tm_channel : list Z;
}.

#[export] Instance TimeoutType_eq_dec : EqDecision TimeoutType.
Proof. solve_decision. Defined.

(** The timers of the event loop, [E], and their handles, [Tm]. *)
Class EventLoop (E Tm : Type) : Type := {
  (** [timeout_ms]; [None] when the timer wheel is full *)
  el_timeout_ms : TimeoutType → Z → E → option (Tm * E);
  el_clear_timeout : Tm → E → bool * E;
  (** a timer fires: the loop is about to call the handler *)
  el_fire : Tm → E → E;
  (** the timers that have not fired and have not been cleared *)
  el_live : E → Tm → option TimeoutType;
}.

Class EventLoopOk (E Tm : Type) `{EventLoop E Tm} : Prop := {
  el_timeout_ms_live msg ms e tm e' :
    el_timeout_ms msg ms e = Some (tm, e') →
    el_live e tm = None ∧ el_live e' tm = Some msg ∧ ∀ tm', tm' ≠ tm → el_live e' tm' = el_live e tm';
  el_clear_timeout_live tm e :
    (el_clear_timeout tm e).1 = bool_decide (is_Some (el_live e tm)) ∧
    el_live (el_clear_timeout tm e).2 tm = None ∧
    ∀ tm', tm' ≠ tm → el_live (el_clear_timeout tm e).2 tm' = el_live e tm';
  el_fire_live tm e :
    el_live (el_fire tm e) tm = None ∧ ∀ tm', tm' ≠ tm → el_live (el_fire tm e) tm' = el_live e tm';
}.

Module Client.

(** [struct Client]; the socket is left to the events. *)
Record t (T Tm : Type) : Type := mk {
  token : Z;
  interest : EventSet;
  request_clock_ms : Z;
  request : RequestBuffer.t T;
  response : ResponseBuffer.t;
  timeout : option (Tm * list Z * list Z);
  processing : option Z;
  hup : bool;
}.
Arguments mk {T Tm}.
Arguments token {T Tm}.
Arguments interest {T Tm}.
Arguments request_clock_ms {T Tm}.
Arguments request {T Tm}.
Arguments response {T Tm}.
Arguments timeout {T Tm}.
Arguments processing {T Tm}.
Arguments hup {T Tm}.

Section ops.
Context {T Tm : Type} `{Tendril T}.
Implicit Types c : t T Tm.

Definition new (tok : Z) : t T Tm :=
  mk tok (no_writable ev_all) 0 RequestBuffer.new ResponseBuffer.new None None false.

Definition set_interest c i : t T Tm :=
  mk (token c) i (request_clock_ms c) (request c) (response c) (timeout c) (processing c) (hup c).
Definition set_clock c n : t T Tm :=
  mk (token c) (interest c) n (request c) (response c) (timeout c) (processing c) (hup c).
Definition set_request c r : t T Tm :=
  mk (token c) (interest c) (request_clock_ms c) r (response c) (timeout c) (processing c) (hup c).
Definition set_response c r : t T Tm :=
  mk (token c) (interest c) (request_clock_ms c) (request c) r (timeout c) (processing c) (hup c).
Definition set_timeout c tm : t T Tm :=
  mk (token c) (interest c) (request_clock_ms c) (request c) (response c) tm (processing c) (hup c).
Definition set_processing c p : t T Tm :=
  mk (token c) (interest c) (request_clock_ms c) (request c) (response c) (timeout c) p (hup c).
Definition set_hup c h : t T Tm :=
  mk (token c) (interest c) (request_clock_ms c) (request c) (response c) (timeout c) (processing c) h.

End ops.
End Client.

(** The clients that wait for messages of one queue: [WaitingClients]. *)
Record WaitingClients (T : Type) : Type := mkWaiting {
  w_head : Z;
  w_channels : gmap (list Z) (list (Z * Value.t T));
}.
Arguments mkWaiting {T}.
Arguments w_head {T}.
Arguments w_channels {T}.

(** [Default::default()]. *)
Definition waiting_default {T} : WaitingClients T := mkWaiting 0 ∅.

(** A request handed to the thread pool: what [Dispatch] holds of its own. *)
Record Job (T : Type) : Type := mkJob {
  job_cookie : Z;
  job_request : Value.t T;
  job_config : Config.ServerConfig;
  job_clock : Z;
}.
Arguments mkJob {T}.
Arguments job_cookie {T}.
Arguments job_request {T}.
Arguments job_config {T}.
Arguments job_clock {T}.

Module Server.

(** [struct Server] and the event loop it runs in. *)
Record t (T E : Type) : Type := mk {
  config : Config.ServerConfig;
  waiting_clients : gmap (list Z) (WaitingClients T);
  awaking_clients : list (Z * Value.t T);
  thread_count : Z;
  nonce : Z;
  internal_clock_ms : Z;
  event_loop : E;
  jobs : list (Job T);
}.
Arguments mk {T E}.
Arguments config {T E}.
Arguments waiting_clients {T E}.
Arguments awaking_clients {T E}.
Arguments thread_count {T E}.
Arguments nonce {T E}.
Arguments internal_clock_ms {T E}.
Arguments event_loop {T E}.
Arguments jobs {T E}.

Section ops.
Context `{Profile} {T E Tm : Type} `{Tendril T} `{EventLoop E Tm}.
Implicit Types (s : t T E) (c : Client.t T Tm).

Definition set_waiting s w : t T E :=
  mk (config s) w (awaking_clients s) (thread_count s) (nonce s) (internal_clock_ms s) (event_loop s) (jobs s).
Definition set_awaking s a : t T E :=
  mk (config s) (waiting_clients s) a (thread_count s) (nonce s) (internal_clock_ms s) (event_loop s) (jobs s).
Definition set_nonce s n : t T E :=
  mk (config s) (waiting_clients s) (awaking_clients s) (thread_count s) n (internal_clock_ms s) (event_loop s) (jobs s).
Definition set_clock s n : t T E :=
  mk (config s) (waiting_clients s) (awaking_clients s) (thread_count s) (nonce s) n (event_loop s) (jobs s).
Definition set_loop s e : t T E :=
  mk (config s) (waiting_clients s) (awaking_clients s) (thread_count s) (nonce s) (internal_clock_ms s) e (jobs s).
Definition set_jobs s j : t T E :=
  mk (config s) (waiting_clients s) (awaking_clients s) (thread_count s) (nonce s) (internal_clock_ms s) (event_loop s) j.
Definition set_config s (cfg : Config.ServerConfig) : t T E :=
  mk cfg (waiting_clients s) (awaking_clients s) (thread_count s) (nonce s) (internal_clock_ms s) (event_loop s) (jobs s).

(** [clock_ms] caches the time read, [now], until the next tick. *)
Definition clock_ms s (now : Z) : t T E * Z :=
  let s := if internal_clock_ms s =? 0 then set_clock s now else s in
  (s, internal_clock_ms s).

Definition make_cookie s (token : Z) : t T E * Z :=
  let s := set_nonce s (as_u64 (nonce s + 1)) in
  (s, Cookie.new token (nonce s)).

(** *** The waiting clients *)

Definition wake s (clients : list (Z * Value.t T)) : t T E :=
  set_awaking s (awaking_clients s ++ clients).
Definition put_waiting s (queue : list Z) (w : WaitingClients T) : t T E :=
  set_waiting s (<[queue := w]> (waiting_clients s)).

Definition wait_queue s (request : Value.t T) (queue channel : list Z) (token required_tail : Z) : t T E :=
  match waiting_clients s !! queue with
  | Some w =>
      match w_channels w !! channel with
      | Some tokens =>
          if w_head w <=? required_tail then
            put_waiting s queue (mkWaiting (w_head w) (<[channel := tokens ++ [(token, request)]]> (w_channels w)))
          else wake s [(token, request)]
      | None => wake s [(token, request)]
      end
  | None => wake s [(token, request)]
  end.

(** [tokens.drain(..cmp::min(available, tokens.len()))]: the length. *)
Definition drain_len (available : Z) (tokens : list (Z * Value.t T)) : nat :=
  Z.to_nat (Z.min available (zlen tokens)).

(** The channels are visited in the order of the map. *)
Definition notify_queue s (queue : list Z) (new_head : Z) : t T E :=
  match waiting_clients s !! queue with
  | Some w =>
      if w_head w <? new_head then
        let available := new_head - w_head w in
        let drained := concat ((λ e, take (drain_len available e.2) e.2) <$> map_to_list (w_channels w)) in
        let channels := (λ tokens, drop (drain_len available tokens) tokens) <$> w_channels w in
        wake (put_waiting s queue (mkWaiting new_head channels)) drained
      else s
  | None => s
  end.

Definition notify_channel s (queue channel : list Z) (available : Z) : t T E :=
  match waiting_clients s !! queue with
  | Some w =>
      match w_channels w !! channel with
      | Some tokens =>
          let n := drain_len available tokens in
          wake (put_waiting s queue (mkWaiting (w_head w) (<[channel := drop n tokens]> (w_channels w)))) (take n tokens)
      | None => s
      end
  | None => s
  end.

(** [tokens.retain(|&(t, _)| t != token)]; the absence is [unreachable!]. *)
Definition retain s (queue channel : list Z) (token : Z) : outcome (t T E) :=
  w ← unwrap (waiting_clients s !! queue);
  tokens ← unwrap (w_channels w !! channel);
  mret (put_waiting s queue
    (mkWaiting (w_head w) (<[channel := filter (λ e, e.1 ≠ token) tokens]> (w_channels w)))).

Definition notify_timeout s (queue channel : list Z) (token : Z) : outcome (t T E) :=
  retain s queue channel token.

Definition notify_queue_deleted s (queue : list Z) : outcome (t T E) :=
  w ← unwrap (waiting_clients s !! queue);
  mret (wake (set_waiting s (delete queue (waiting_clients s))) (concat (map_to_list (w_channels w)).*2)).

Definition notify_queue_created s (queue : list Z) : outcome (t T E) :=
  _ ← assert (bool_decide (waiting_clients s !! queue = None));
  mret (put_waiting s queue waiting_default).

Definition notify_channel_deleted s (queue channel : list Z) : outcome (t T E) :=
  w ← unwrap (waiting_clients s !! queue);
  tokens ← unwrap (w_channels w !! channel);
  mret (wake (put_waiting s queue (mkWaiting (w_head w) (delete channel (w_channels w)))) tokens).

Definition notify_channel_created s (queue channel : list Z) : outcome (t T E) :=
  w ← unwrap (waiting_clients s !! queue);
  _ ← debug_assert (bool_decide (w_channels w !! channel = None));
  mret (put_waiting s queue (mkWaiting (w_head w) (<[channel := []]> (w_channels w)))).

Definition clear_timeout s (tm : Tm) : outcome (t T E) :=
  let '(cleared, e) := el_clear_timeout tm (event_loop s) in
  _ ← assert cleared;
  mret (set_loop s e).

Definition notify_client_gone s c : outcome (t T E) :=
  match Client.timeout c with
  | None => mret s
  | Some (tm, queue, channel) =>
      s ← clear_timeout s tm;
      retain s queue channel (Client.token c)
  end.

(** [Server::config_set] *)
Definition config_set s (key value : list Z) : t T E * NotifyMessage.t T :=
  let cfg := config s in
  match queue_config_set (Config.default_queue_config cfg) key value with
  | Err text => (s, NotifyMessage.with_error text)
  | Ok q =>
      (set_config s (Config.mkServerConfig (Config.server_data_directory cfg) (Config.bind_address cfg)
         (Config.max_connections cfg) (Config.maintenance_interval cfg) (Config.monitor_interval cfg) q),
       NotifyMessage.with_ok)
  end.

(** [Iterator::sum] at [u32] *)
Definition sum_u32 (l : list Z) : outcome Z := foldl (λ acc n, acc ← acc; u32 (acc + n)) (mret 0) l.

(** [Server::info] with the number of connections, the number of queues
    and the time. *)
Definition info s (clients queues now_s : Z) : outcome ServerInfo :=
  blocked ← foldl (λ acc w, acc ← acc;
      n ← sum_u32 ((λ e, as_u32 (zlen e.2)) <$> map_to_list (w_channels w)); u32 (acc + n))
    (mret 0) (map_to_list (waiting_clients s)).*2;
  mret (mkServerInfo (as_u32 clients) blocked (as_u32 queues) (thread_count s) now_s).

End ops.
End Server.

(** ** A client's requests and answers *)
Module ClientOps.

Section ops.
Context `{Profile} {T E Tm : Type} `{Tendril T} `{EventLoop E Tm}.
(** [size_of::<Value>()]. *)
Variable value_size : Z.
Implicit Types (s : Server.t T E) (c : Client.t T Tm).

(** [Client::send_response] *)
Definition send_response c (value : Value.t T) : outcome (Client.t T Tm) :=
  response ← ResponseBuffer.push_value (Client.response c) value;
  mret (Client.set_interest (Client.set_response c response) (no_readable ev_all)).

(** [Client::dispatch]: the request goes to the thread pool under a new
    cookie. [now] is the time, if it is read. *)
Definition dispatch s c (request : Value.t T) (now : Z) : outcome (Server.t T E * Client.t T Tm) :=
  _ ← assert (bool_decide (Client.processing c = None));
  let '(s, cookie) := Server.make_cookie s (Client.token c) in
  let c := Client.set_processing c (Some cookie) in
  let '(s, ms) := Server.clock_ms s now in
  let job := mkJob cookie request (Server.config s) (as_u32 (ms / 1000)) in
  mret (Server.set_jobs s (Server.jobs s ++ [job]), c).

(** [Client::retry] *)
Definition retry s c (request : Value.t T) (now : Z) : outcome (Server.t T E * Client.t T Tm) :=
  tm ← unwrap (Client.timeout c);
  s ← Server.clear_timeout s tm.1.1;
  dispatch s (Client.set_timeout c None) request now.

(** [Client::try_parse_request]; [false] is the [Err] of a refused request. *)
Definition try_parse_request s c (now : Z) : outcome (Server.t T E * Client.t T Tm * bool) :=
  '(request, r) ← RequestBuffer.pop_value value_size (Client.request c);
  let c := Client.set_request c request in
  match r with
  | Ok value =>
      let '(s, ms) := Server.clock_ms s now in
      let c := Client.set_interest (Client.set_clock c ms) (no_writable (no_readable ev_all)) in
      '(s, c) ← dispatch s c value now;
      mret (s, c, true)
  | Err Incomplete => mret (s, c, true)
  | Err (Invalid _) => mret (s, c, false)
  end.

(** The read loop: [reads] are the non-empty reads of the socket. *)
Fixpoint fill_request (b : RequestBuffer.t T) (reads : list (list Z)) : outcome (RequestBuffer.t T) :=
  match reads with
  | [] => mret b
  | bs :: reads => b ← RequestBuffer.fill b bs; fill_request b reads
  end.

(** The write loop: [writes] are the numbers of bytes the socket accepts,
    until it accepts none. *)
Fixpoint drain_response (b : ResponseBuffer.t) (writes : list Z) : outcome ResponseBuffer.t :=
  match writes with
  | [] => _ ← ResponseBuffer.bytes b; mret b
  | n :: writes =>
      _ ← ResponseBuffer.bytes b;
      if n =? 0 then mret b else b ← ResponseBuffer.advance b n; drain_response b writes
  end.

(** [Client::ready]: [false] asks for the client to be removed. *)
Definition ready s c (events : EventSet) (reads : list (list Z)) (writes : list Z) (now : Z) :
    outcome (Server.t T E * Client.t T Tm * bool) :=
  if hup events || error events then
    mret (s, Client.set_hup c true, bool_decide (is_Some (Client.processing c)))
  else
    '(s, c, ok) ←
      (if readable events then
         request ← fill_request (Client.request c) reads;
         try_parse_request s (Client.set_request c request) now
       else mret (s, c, true));
    if negb ok then mret (s, c, false) else
    c ←
      (if writable events then
         response ← drain_response (Client.response c) writes;
         let c := Client.set_response c response in
         left ← ResponseBuffer.remaining response;
         mret (if left =? 0 then Client.set_interest c (no_writable ev_all) else c)
       else mret c);
    mret (s, c, true).

(** [Client::notify] *)
Definition notify s c (cookie : Z) (msg : NotifyMessage.t T) (now : Z) :
    outcome (Server.t T E * Client.t T Tm * bool) :=
  _ ← assert (bool_decide (Client.timeout c = None));
  if bool_decide (Some cookie ≠ Client.processing c) then mret (s, c, true) else
  let c := Client.set_processing c None in
  if Client.hup c then mret (s, c, false) else
  match msg with
  | NotifyMessage.GetWouldBlock request queue channel required_head timeout =>
      deadline ← u64 (Client.request_clock_ms c + timeout * 1000);
      let '(s, clock) := Server.clock_ms s now in
      if deadline <=? clock then
        c ← send_response c Value.Nil; mret (s, c, true)
      else
        '(tm, e) ← unwrap (el_timeout_ms (mkTimeout (Client.token c) queue channel) (deadline - clock)
                             (Server.event_loop s));
        let c := Client.set_timeout c (Some (tm, queue, channel)) in
        mret (Server.wait_queue (Server.set_loop s e) request queue channel (Client.token c) required_head, c, true)
  | NotifyMessage.PutResponse response queue head =>
      c ← send_response c response;
      mret (Server.notify_queue s queue head, c, true)
  | NotifyMessage.Response response =>
      c ← send_response c response;
      mret (s, c, true)
  | _ => Panic
  end.

(** [Client::timeout] *)
Definition timeout s c (queue channel : list Z) : outcome (Server.t T E * Client.t T Tm * bool) :=
  _ ← assert (bool_decide (Client.processing c = None));
  _ ← assert (bool_decide (is_Some (Client.timeout c)));
  s ← Server.notify_timeout s queue channel (Client.token c);
  c ← send_response (Client.set_timeout c None) Value.Nil;
  mret (s, c, true).

End ops.
End ClientOps.

(** ** The handler of the event loop *)
Module ServerHandler.

(** [Token(0)]. *)
Definition SERVER : Z := 0.

(** [struct ServerHandler]; the slab of clients is a map by token. *)
Record t (T E Tm : Type) : Type := mk {
  server : Server.t T E;
  clients : gmap Z (Client.t T Tm);
}.
Arguments mk {T E Tm}.
Arguments server {T E Tm}.
Arguments clients {T E Tm}.

Section ops.
Context `{Profile} {T E Tm : Type} `{Tendril T} `{EventLoop E Tm}.
Variable value_size : Z.
Implicit Types (h : t T E Tm) (s : Server.t T E) (c : Client.t T Tm).

(** [Server::remove_client]; the client of [SERVER] does not exist. *)
Definition remove_client h (token : Z) : outcome (t T E Tm) :=
  c ← unwrap (clients h !! token);
  s ← Server.notify_client_gone (server h) c;
  mret (mk s (delete token (clients h))).

(** The end of the three handlers: the client is put back, and removed when
    the handler said so. *)
Definition finish h (token : Z) (r : outcome (Server.t T E * Client.t T Tm * bool)) : outcome (t T E Tm) :=
  '(s, c, is_ok) ← r;
  let h := mk s (<[token := c]> (clients h)) in
  if is_ok : bool then mret h else remove_client h token.

(** [Server::ready]: [accepted] is the token of the slab's free entry when a
    connection came in and there is room. *)
Definition accept h (events : EventSet) (accepted : option Z) : outcome (t T E Tm) :=
  _ ← assert (bool_decide (events = mkEventSet true false false false));
  mret match accepted with
       | Some token => mk (server h) (<[token := Client.new token]> (clients h))
       | None => h
       end.

(** [Server::notify]: the messages for [SERVER]. *)
Definition notify_server h (msg : NotifyMessage.t T) (queue_count now_s : Z) : outcome (t T E Tm) :=
  let on (s : outcome (Server.t T E)) := s ← s; mret (mk s (clients h)) in
  match msg with
  | NotifyMessage.MessagesAvailable queue channel available =>
      on (mret (Server.notify_channel (server h) queue channel available))
  | NotifyMessage.QueueDelete queue => on (Server.notify_queue_deleted (server h) queue)
  | NotifyMessage.QueueCreate queue => on (Server.notify_queue_created (server h) queue)
  | NotifyMessage.ChannelDelete queue channel => on (Server.notify_channel_deleted (server h) queue channel)
  | NotifyMessage.ChannelCreate queue channel => on (Server.notify_channel_created (server h) queue channel)
  | NotifyMessage.ServerInfo =>
      _ ← Server.info (server h) (Z.of_nat (size (clients h))) queue_count now_s; mret h
  | NotifyMessage.ServerSetConfig key value => on (mret (Server.config_set (server h) key value).1)
  | _ => Panic
  end.

(** [ServerHandler::ready], for a client. *)
Definition ready h (token : Z) (events : EventSet) (reads : list (list Z)) (writes : list Z) (now : Z) :
    outcome (t T E Tm) :=
  match clients h !! token with
  | Some c => finish h token (ClientOps.ready value_size (server h) c events reads writes now)
  | None => remove_client h token
  end.

(** [ServerHandler::notify], for a client: the token is the cookie's. *)
Definition notify h (cookie : Z) (msg : NotifyMessage.t T) (now : Z) : outcome (t T E Tm) :=
  let token := Cookie.token cookie in
  match clients h !! token with
  | Some c => finish h token (ClientOps.notify (server h) c cookie msg now)
  | None => remove_client h token
  end.

(** [ServerHandler::timeout]: the timer has fired and is not live any more. *)
Definition timeout h (timeout : TimeoutType) : outcome (t T E Tm) :=
  let token := tm_token timeout in
  match clients h !! token with
  | Some c => finish h token (ClientOps.timeout (server h) c (tm_queue timeout) (tm_channel timeout))
  | None => remove_client h token
  end.

(** [Server::tick]: the clients that wake run their requests again. *)
Fixpoint retry_all h (awaking : list (Z * Value.t T)) (now : Z) : outcome (t T E Tm) :=
  match awaking with
  | [] => mret h
  | (token, request) :: awaking =>
      c ← unwrap (clients h !! token);
      '(s, c) ← ClientOps.retry (server h) c request now;
      retry_all (mk s (<[token := c]> (clients h))) awaking now
  end.

Definition tick h (now : Z) : outcome (t T E Tm) :=
  let awaking := Server.awaking_clients (server h) in
  h ← retry_all (mk (Server.set_awaking (server h) []) (clients h)) awaking now;
  mret (mk (Server.set_clock (server h) 0) (clients h)).

(** *** [impl Handler for ServerHandler] *)

Definition on_ready h (token : Z) (events : EventSet) (reads : list (list Z)) (writes : list Z)
    (accepted : option Z) (now : Z) : outcome (t T E Tm) :=
  if token =? SERVER then accept h events accepted else ready h token events reads writes now.

Definition on_notify h (cookie : Z) (msg : NotifyMessage.t T) (queue_count now_s now : Z) : outcome (t T E Tm) :=
  if Cookie.token cookie =? SERVER then notify_server h msg queue_count now_s else notify h cookie msg now.

(** [Server::timeout] handles no message. *)
Definition on_timeout h (msg : TimeoutType) : outcome (t T E Tm) :=
  if tm_token msg =? SERVER then Panic else timeout h msg.

(** What the event loop calls the handler with: a socket with what it can
    read, write and accept; a notification; a timer that fires; a signal.
    Each carries the time and the counters the handler may ask for. *)
Inductive event : Type :=
| Ready (token : Z) (events : EventSet) (reads : list (list Z)) (writes : list Z) (accepted : option Z) (now : Z)
| Notify (cookie : Z) (msg : NotifyMessage.t T) (queue_count now_s now : Z)
| Timeout (tm : Tm) (msg : TimeoutType)
| Interrupted.

Definition handle h (e : event) : outcome (t T E Tm) :=
  match e with
  | Ready token events reads writes accepted now => on_ready h token events reads writes accepted now
  | Notify cookie msg queue_count now_s now => on_notify h cookie msg queue_count now_s now
  | Timeout tm msg =>
      on_timeout (mk (Server.set_loop (server h) (el_fire tm (Server.event_loop (server h)))) (clients h)) msg
  | Interrupted => Panic
  end.

(** One iteration of the loop: its events, then the tick. *)
Fixpoint handle_all h (es : list event) : outcome (t T E Tm) :=
  match es with
  | [] => mret h
  | e :: es => h ← handle h e; handle_all h es
  end.

Definition iteration h (es : list event) (now : Z) : outcome (t T E Tm) :=
  h ← handle_all h es; tick h now.

End ops.
Arguments event : clear implicits.
End ServerHandler.
