(* ===== verification/Tables.v ===== *)
(** * The tables of queues and channels

    The names of the queues and of their channels are kept twice: by the
    queues and by the event loop, which has a list of waiting clients for
    each. A message for [SERVER] that does not fit the loop's table panics;
    [shape_step] is what a message does to the table when it fits. *)
From S2P Require Import Prelude.
From S2P Require Import Wire.
From S2P Require Import Commands.
From S2P Require Import Server.

Abbreviation shape := (gmap (list Z) (gset (list Z))).

Section shapes.
Context `{Profile} {T E Tm : Type} `{Tendril T} `{EventLoop E Tm}.
Implicit Types (s : Server.t T E) (h : ServerHandler.t T E Tm) (tb : shape).

Definition table s : shape := (λ w, dom (w_channels w)) <$> Server.waiting_clients s.

(** What a message for [SERVER] does to the table, when it fits it. *)
Definition shape_step tb (msg : NotifyMessage.t T) : option shape :=
  match msg with
  | NotifyMessage.QueueCreate q => match tb !! q with Some _ => None | None => Some (<[q := ∅]> tb) end
  | NotifyMessage.QueueDelete q => match tb !! q with Some _ => Some (delete q tb) | None => None end
  | NotifyMessage.ChannelCreate q c =>
      match tb !! q with
      | Some cs => if decide (c ∈ cs) then None else Some (<[q := {[c]} ∪ cs]> tb)
      | None => None
      end
  | NotifyMessage.ChannelDelete q c =>
      match tb !! q with
      | Some cs => if decide (c ∈ cs) then Some (<[q := cs ∖ {[c]}]> tb) else None
      | None => None
      end
  | NotifyMessage.MessagesAvailable _ _ _ | NotifyMessage.ServerInfo | NotifyMessage.ServerSetConfig _ _ => Some tb
  | _ => None
  end.

(** Several messages, in order. *)
Fixpoint shapes tb (msgs : list (NotifyMessage.t T)) : option shape :=
  match msgs with
  | [] => Some tb
  | m :: msgs => tb ← shape_step tb m; shapes tb msgs
  end.

Lemma shapes_app tb l k : shapes tb (l ++ k) = (tb ← shapes tb l; shapes tb k).
Proof. revert tb. induction l as [|m l IH]; intros tb; cbn; [done|]. destruct (shape_step tb m); cbn; auto. Qed.

Lemma table_lookup s q : table s !! q = (λ w, dom (w_channels w)) <$> Server.waiting_clients s !! q.
Proof. apply lookup_fmap. Qed.

Lemma table_Some s q cs :
  table s !! q = Some cs → ∃ w, Server.waiting_clients s !! q = Some w ∧ cs = dom (w_channels w).
Proof. rewrite table_lookup. destruct (Server.waiting_clients s !! q) as [w|]; [|done]. intros [= <-]. by exists w. Qed.

Lemma table_None s q : table s !! q = None → Server.waiting_clients s !! q = None.
Proof. rewrite table_lookup. by destruct (Server.waiting_clients s !! q). Qed.

Lemma table_put s q w : table (Server.put_waiting s q w) = <[q := dom (w_channels w)]> (table s).
Proof. unfold table. cbn. by rewrite fmap_insert. Qed.

Lemma table_put_same s q w w' :
  Server.waiting_clients s !! q = Some w → dom (w_channels w') = dom (w_channels w) →
  table (Server.put_waiting s q w') = table s.
Proof.
  intros Hw Hd. rewrite table_put, Hd. apply insert_id. by rewrite table_lookup, Hw.
Qed.

(** The operations that move clients keep the table. *)
Lemma notify_channel_table s q ch n : table (Server.notify_channel s q ch n) = table s.
Proof.
  unfold Server.notify_channel. destruct (Server.waiting_clients s !! q) as [w|] eqn:Hw; [|done].
  destruct (w_channels w !! ch) as [l|] eqn:Hch; [|done]. cbn zeta.
  change (table (Server.wake ?a ?b)) with (table a). apply (table_put_same _ _ w); [done|].
  apply dom_insert_lookup_L. by eexists.
Qed.

Lemma notify_queue_table s q head : table (Server.notify_queue s q head) = table s.
Proof.
  unfold Server.notify_queue. destruct (Server.waiting_clients s !! q) as [w|] eqn:Hw; [|done].
  destruct (_ <? _); [|done]. cbn zeta. change (table (Server.wake ?a ?b)) with (table a).
  apply (table_put_same _ _ w); [done|]. apply dom_fmap_L.
Qed.

Lemma wait_queue_table s r q ch t head : table (Server.wait_queue s r q ch t head) = table s.
Proof.
  unfold Server.wait_queue. destruct (Server.waiting_clients s !! q) as [w|] eqn:Hw; [|done].
  destruct (w_channels w !! ch) as [l|] eqn:Hch; [|done]. destruct (_ <=? _); [|done].
  apply (table_put_same _ _ w); [done|]. apply dom_insert_lookup_L. by eexists.
Qed.

Lemma retain_table s q ch t s' : Server.retain s q ch t = Done s' → table s' = table s.
Proof.
  unfold Server.retain. destruct (Server.waiting_clients s !! q) as [w|] eqn:Hw; [|done]. cbn.
  destruct (w_channels w !! ch) as [l|] eqn:Hch; [|done]. cbn. intros [= <-].
  apply (table_put_same _ _ w); [done|]. apply dom_insert_lookup_L. by eexists.
Qed.

(** *** The messages for [SERVER] *)

Lemma queue_created_table s q :
  table s !! q = None →
  ∃ s', Server.notify_queue_created s q = Done s' ∧ table s' = <[q := ∅]> (table s).
Proof.
  intros Hq%table_None. unfold Server.notify_queue_created.
  rewrite bool_decide_true by done. cbn. eexists. split; [reflexivity|]. apply table_put.
Qed.

Lemma queue_deleted_table s q cs :
  table s !! q = Some cs →
  ∃ s', Server.notify_queue_deleted s q = Done s' ∧ table s' = delete q (table s).
Proof.
  intros (w & Hw & ->)%table_Some. unfold Server.notify_queue_deleted. rewrite Hw. cbn.
  eexists. split; [reflexivity|]. apply fmap_delete.
Qed.

Lemma channel_created_table s q c cs :
  table s !! q = Some cs → c ∉ cs →
  ∃ s', Server.notify_channel_created s q c = Done s' ∧ table s' = <[q := {[c]} ∪ cs]> (table s).
Proof.
  intros (w & Hw & ->)%table_Some Hc%not_elem_of_dom. unfold Server.notify_channel_created. rewrite Hw.
  cbn [unwrap]. rewrite bind_Done, debug_assert_true by by apply bool_decide_true. rewrite bind_Done.
  eexists. split; [reflexivity|]. rewrite table_put. cbn. by rewrite dom_insert_L.
Qed.

Lemma channel_deleted_table s q c cs :
  table s !! q = Some cs → c ∈ cs →
  ∃ s', Server.notify_channel_deleted s q c = Done s' ∧ table s' = <[q := cs ∖ {[c]}]> (table s).
Proof.
  intros (w & Hw & ->)%table_Some [l Hl]%elem_of_dom. unfold Server.notify_channel_deleted. rewrite Hw.
  cbn [unwrap]. rewrite bind_Done, Hl. cbn [unwrap]. rewrite bind_Done. eexists. split; [reflexivity|].
  change (table (Server.wake ?a ?b)) with (table a). rewrite table_put. cbn. by rewrite dom_delete_L.
Qed.

Lemma config_set_table s k v : table (Server.config_set s k v).1 = table s.
Proof. unfold Server.config_set. by destruct (queue_config_set _ k v). Qed.

(** The counters of [INFO] fit. *)
Definition server_fits h (msg : NotifyMessage.t T) (queue_count now_s : Z) : Prop :=
  match msg with
  | NotifyMessage.ServerInfo => ∃ i,
      Server.info (ServerHandler.server h) (Z.of_nat (base.size (ServerHandler.clients h))) queue_count now_s = Done i
  | _ => True
  end.

(** A message that fits the table is handled, changes the table as
    [shape_step] says and touches no connection. *)
Lemma notify_server_table h msg queue_count now_s tb :
  shape_step (table (ServerHandler.server h)) msg = Some tb → server_fits h msg queue_count now_s →
  ∃ s', ServerHandler.notify_server h msg queue_count now_s = Done (ServerHandler.mk s' (ServerHandler.clients h)) ∧
    table s' = tb.
Proof.
  destruct h as [s cl]. cbn [ServerHandler.server ServerHandler.clients]. intros Hs Hf.
  assert (∀ r : outcome (Server.t T E), (∃ s', r = Done s' ∧ table s' = tb) →
    ∃ s', (s ← r; mret (ServerHandler.mk (Tm:=Tm) s cl)) = Done (ServerHandler.mk s' cl) ∧ table s' = tb) as Hon.
  { intros r (s' & -> & ?). by exists s'. }
  destruct msg as [| |q ch n| |q ch|q ch|q|q| |k v]; try done; cbn [shape_step] in Hs;
    unfold ServerHandler.notify_server; cbn [ServerHandler.server ServerHandler.clients].
  - injection Hs as <-. apply Hon. eexists. split; [done|]. apply notify_channel_table.
  - destruct (table s !! q) as [cs|] eqn:Hq; [|done]. destruct (decide _); [done|]. injection Hs as <-.
    apply Hon. by apply channel_created_table.
  - destruct (table s !! q) as [cs|] eqn:Hq; [|done]. destruct (decide _); [|done]. injection Hs as <-.
    apply Hon. by apply channel_deleted_table.
  - destruct (table s !! q) as [cs|] eqn:Hq; [done|]. injection Hs as <-. apply Hon. by apply queue_created_table.
  - destruct (table s !! q) as [cs|] eqn:Hq; [|done]. injection Hs as <-. apply Hon. by eapply queue_deleted_table.
  - injection Hs as <-. destruct Hf as [i Hi]. cbn in Hi. rewrite Hi, bind_Done. by eexists.
  - injection Hs as <-. apply Hon. eexists. split; [done|]. apply config_set_table.
Qed.

(** The messages for [SERVER] are delivered one by one. *)
Fixpoint deliver h (msgs : list (NotifyMessage.t T)) (queue_count now_s : Z) : outcome (ServerHandler.t T E Tm) :=
  match msgs with
  | [] => mret h
  | m :: msgs => h ← ServerHandler.notify_server h m queue_count now_s; deliver h msgs queue_count now_s
  end.

Lemma deliver_table h msgs queue_count now_s tb :
  shapes (table (ServerHandler.server h)) msgs = Some tb → Forall (λ m, m ≠ NotifyMessage.ServerInfo) msgs →
  ∃ s', deliver h msgs queue_count now_s = Done (ServerHandler.mk s' (ServerHandler.clients h)) ∧ table s' = tb.
Proof.
  revert h. induction msgs as [|m msgs IH]; intros [s cl] Hs Hm; cbn in *.
  { injection Hs as <-. by exists s. }
  apply bind_Some in Hs as (tb1 & Hm1 & Hs). apply Forall_cons in Hm as [Hi Hm].
  destruct (notify_server_table (ServerHandler.mk s cl) m queue_count now_s tb1) as (s1 & -> & <-); [done|by destruct m|].
  rewrite bind_Done. by apply IH.
Qed.

End shapes.
