(* ===== verification/Mirror.v ===== *)
(** * The table of waiting clients mirrors the table of queues

    The event loop keeps a list of waiting clients per queue and channel and
    panics when a notification does not fit them. What the requests send,
    delivered in order, keeps the two tables equal in their queues and
    channels, so that those panics are not reached. *)
From S2P Require Import Prelude.
From S2P Require Import Text.
From S2P Require Import Settings.
From S2P Require Import Segments.
From S2P Require Import Backend.
From S2P Require Import Channels.
From S2P Require Import Queues.
From S2P Require Import Delivery.
From S2P Require Import Wire.
From S2P Require Import Commands.
From S2P Require Import CommandProps.
From S2P Require Import Server.
From S2P Require Import Tables.

Section mirror.
Context `{Profile} {T : Type} `{Tendril T} {B M : Type} `{BackendOps B Message.t}
  `{LinkedHashMap Channel.InFlightState M} `{Json InnerQueue.QueueCheckpoint}
  `{Json Config.ServerConfig} `{Json (gmap (list Z) Config.QueueConfig)}
  `{Json (gmap (list Z) InnerQueue.QueueInfo)} `{Json ServerInfo}.
Variable value_size : Z.
Variable new_backend : Config.QueueConfig → outcome B.
Variable io_debug : Z → list Z.
Implicit Types (st : Dispatch.state T B M) (env : Dispatch.Env T) (args : list (list Z)) (q : InnerQueue.t B M).

(** ** Operations that keep the channels of a queue *)

Definition names (chans : gmap (list Z) (Channel.t M)) : gset (list Z) := dom chans.

Lemma with_channel_names {R} q cn (f : Channel.t M → outcome (Channel.t M * result R InnerQueue.QueueError)) q' r :
  InnerQueue.with_channel q cn f = Done (q', r) → names (InnerQueue.channels q') = names (InnerQueue.channels q).
Proof. apply with_channel_dom. Qed.

Lemma push_many_names os q ms clock q' r :
  InnerQueue.push_many os q ms clock = Done (q', r) → InnerQueue.channels q' = InnerQueue.channels q.
Proof.
  assert (∀ q m q' r, InnerQueue.push os q m clock = Done (q', r) → InnerQueue.channels q' = InnerQueue.channels q) as Hpush.
  { unfold InnerQueue.push. intros q1 m q2 r' ([b r2] & _ & [= <- _])%bind_Done_iff. done. }
  assert (∀ l q q' r, InnerQueue.push_loop os q l clock = Done (q', r) → InnerQueue.channels q' = InnerQueue.channels q) as Hloop.
  { induction l as [|m l IH]; intros q1 q2 r'; cbn [InnerQueue.push_loop]; [by intros [= <- <-]|].
    intros ([q3 r3] & Hp%Hpush & Hl)%bind_Done_iff. rewrite <-Hp. destruct r3; [by eapply IH|]. by injection Hl as <- _. }
  unfold InnerQueue.push_many. intros (u & _ & ([q1 r1] & Hl%Hloop & Hp)%bind_Done_iff)%bind_Done_iff.
  rewrite <-Hl. destruct r1; [|by injection Hp as <- _]. apply bind_Done_iff in Hp as (m & _ & Hp%Hpush). done.
Qed.

Lemma checkpoint_channels os written q full q' f :
  InnerQueue.checkpoint os written q full = Done (q', f) → InnerQueue.channels q' = InnerQueue.channels q.
Proof.
  unfold InnerQueue.checkpoint. intros ([q2 chans] & Hq & (u & _ & [= <- _])%bind_Done_iff)%bind_Done_iff.
  destruct (bool_decide _); [|by injection Hq as <- _].
  by apply bind_Done_iff in Hq as ([b g] & _ & (m & _ & [= <- _])%bind_Done_iff).
Qed.

Lemma purge_names os written q q' f :
  InnerQueue.purge os written q = Done (q', f) → names (InnerQueue.channels q') = names (InnerQueue.channels q).
Proof. unfold InnerQueue.purge. intros ->%checkpoint_channels. cbn. apply dom_fmap_L. Qed.

Lemma info_names q clock q' i :
  InnerQueue.info q clock = Done (q', i) → names (InnerQueue.channels q') = names (InnerQueue.channels q).
Proof.
  intros (du & _ & (m & Hm%map_values_dom & [= <- _])%bind_Done_iff)%bind_Done_iff.
  cbn. unfold names. by rewrite dom_fmap_L.
Qed.

(** ** The table of queues *)

Definition queue_table (qs : gmap (list Z) (InnerQueue.t B M)) : shape := (λ q, names (InnerQueue.channels q)) <$> qs.

Lemma queue_table_lookup qs name : queue_table qs !! name = (λ q, names (InnerQueue.channels q)) <$> qs !! name.
Proof. apply lookup_fmap. Qed.

Lemma queue_table_Some qs name q : qs !! name = Some q → queue_table qs !! name = Some (names (InnerQueue.channels q)).
Proof. rewrite queue_table_lookup. by intros ->. Qed.

Lemma queue_table_insert qs name q :
  queue_table (<[name := q]> qs) = <[name := names (InnerQueue.channels q)]> (queue_table qs).
Proof. unfold queue_table. by rewrite fmap_insert. Qed.

Lemma queue_table_keep qs name q q' :
  qs !! name = Some q → names (InnerQueue.channels q') = names (InnerQueue.channels q) →
  queue_table (<[name := q']> qs) = queue_table qs.
Proof. intros Hq Hn. rewrite queue_table_insert, Hn. apply insert_id. by apply queue_table_Some. Qed.

(** ** What the requests send *)

(** The messages sent from [st] to [st'] describe how the table changed. *)
Definition tracked st st' : Prop :=
  ∃ msgs, Dispatch.sent st' = Dispatch.sent st ++ msgs ∧ Forall (λ m, m ≠ NotifyMessage.ServerInfo) msgs ∧
    shapes (queue_table (Dispatch.queues st)) msgs = Some (queue_table (Dispatch.queues st')).

#[local] Instance tracked_preorder : PreOrder tracked.
Proof.
  split.
  - intros st. exists []. by rewrite app_nil_r.
  - intros st1 st2 st3 (m1 & Hs1 & Hi1 & Hm1) (m2 & Hs2 & Hi2 & Hm2). exists (m1 ++ m2).
    rewrite Hs2, Hs1, <-app_assoc, shapes_app, Hm1. split; [done|]. split; [by apply Forall_app|done].
Qed.

Lemma keeps_tracked st st' :
  Dispatch.sent st' = Dispatch.sent st → queue_table (Dispatch.queues st') = queue_table (Dispatch.queues st) → tracked st st'.
Proof. intros Hs Hn. exists []. rewrite app_nil_r. split; [done|]. split; [done|]. cbn. by rewrite Hn. Qed.

Lemma set_queue_tracked st name q q' :
  Dispatch.queues st !! name = Some q → names (InnerQueue.channels q') = names (InnerQueue.channels q) →
  tracked st (Dispatch.set_queue st name q').
Proof. intros Hq Hn. apply keeps_tracked; [done|]. by eapply queue_table_keep. Qed.

(** *** The messages that change the table *)

(** One message sent. *)
Lemma sent_tracked st st' m :
  Dispatch.sent st' = Dispatch.sent st ++ [m] → m ≠ NotifyMessage.ServerInfo →
  shape_step (queue_table (Dispatch.queues st)) m = Some (queue_table (Dispatch.queues st')) → tracked st st'.
Proof. intros Hs Hi Hm. exists [m]. split; [done|]. split; [by repeat constructor|]. cbn. by rewrite Hm. Qed.

Lemma queue_created st name q :
  Dispatch.queues st !! name = None → InnerQueue.channels q = ∅ →
  ∀ wiped, tracked st (Dispatch.mkState (<[name := q]> (Dispatch.queues st))
    (Dispatch.sent st ++ [NotifyMessage.QueueCreate name]) wiped).
Proof.
  intros Hn Hq wiped. eapply sent_tracked; [done|done|]. cbn.
  rewrite queue_table_lookup, Hn, queue_table_insert, Hq. cbn. unfold names. by rewrite dom_empty_L.
Qed.

Lemma queue_deleted st name q wiped :
  Dispatch.queues st !! name = Some q →
  tracked st (Dispatch.mkState (delete name (Dispatch.queues st))
    (Dispatch.sent st ++ [NotifyMessage.QueueDelete name]) wiped).
Proof.
  intros Hq. eapply sent_tracked; [done|done|]. cbn. rewrite (queue_table_Some _ _ _ Hq).
  unfold queue_table. by rewrite fmap_delete.
Qed.

Lemma channel_created st name q cn c :
  Dispatch.queues st !! name = Some q → InnerQueue.channels q !! cn = None →
  tracked st (Dispatch.notify_server
    (Dispatch.set_queue st name (InnerQueue.set_channels q (<[cn := c]> (InnerQueue.channels q))))
    (NotifyMessage.ChannelCreate name cn)).
Proof.
  intros Hq Hc. eapply sent_tracked; [done|done|]. cbn. rewrite (queue_table_Some _ _ _ Hq).
  rewrite decide_False by by apply not_elem_of_dom. rewrite queue_table_insert. cbn. unfold names. by rewrite dom_insert_L.
Qed.

Lemma channel_deleted st name q cn c :
  Dispatch.queues st !! name = Some q → InnerQueue.channels q !! cn = Some c →
  tracked st (Dispatch.notify_server
    (Dispatch.set_queue st name (InnerQueue.set_channels q (delete cn (InnerQueue.channels q))))
    (NotifyMessage.ChannelDelete name cn)).
Proof.
  intros Hq Hc. eapply sent_tracked; [done|done|]. cbn. rewrite (queue_table_Some _ _ _ Hq).
  rewrite decide_True by (apply elem_of_dom; by eexists).
  rewrite queue_table_insert. cbn. unfold names. by rewrite dom_delete_L.
Qed.

(** *** The handlers *)

(** A handler's run is a chain of binds and branches: the shared steps. *)
#[local] Ltac unchanged H := injection H as <- _; reflexivity.

Lemma get_queue_Some st name q : Dispatch.get_queue st name = Ok q → Dispatch.queues st !! name = Some q.
Proof. unfold Dispatch.get_queue. destruct (Dispatch.queues st !! name); [by intros [= ->]|done]. Qed.

Lemma unwrap_Some {A} (o : option A) a : unwrap o = Done a → o = Some a.
Proof. destruct o; [by intros [= ->]|done]. Qed.

Lemma rpush_tracked env st args st' n : Dispatch.rpush io_debug env st args = Done (st', n) → tracked st st'.
Proof.
  unfold Dispatch.rpush. destruct (zlen args <? 3); [intros Hr; unchanged Hr|].
  intros (qn & _ & Hr)%bind_Done_iff. destruct (Dispatch.get_queue st qn) as [q|] eqn:Hq; [|unchanged Hr].
  apply get_queue_Some in Hq. apply bind_Done_iff in Hr as ([q' r] & Hp%push_many_names & Hr).
  assert (tracked st (Dispatch.set_queue st qn q')) as Ht by (eapply set_queue_tracked; [done|by rewrite Hp]).
  destruct r; [|by injection Hr as <- _]. by apply bind_Done_iff in Hr as (hd & _ & [= <- _]).
Qed.

Lemma hmget_loop_tracked env st qn cn timeout request k results st' n :
  Dispatch.hmget_loop io_debug env st qn cn timeout request k results = Done (st', n) → tracked st st'.
Proof.
  revert st results. induction k as [|k IH]; intros st results; cbn [Dispatch.hmget_loop]; [intros Hr; unchanged Hr|].
  intros (q & Hq%unwrap_Some & ([q' r] & Hg%with_channel_names & Hr)%bind_Done_iff)%bind_Done_iff.
  etrans; [by eapply (set_queue_tracked st qn q q')|].
  destruct r as [[t m]|e]; [by eapply IH|]. destruct e; try unchanged Hr. destruct (_ && _); unchanged Hr.
Qed.

Lemma hmget_tracked env st request args st' n :
  Dispatch.hmget value_size io_debug env st request args = Done (st', n) → tracked st st'.
Proof.
  unfold Dispatch.hmget. destruct (zlen args <? 4); [intros Hr; unchanged Hr|].
  intros (qn & _ & (cn & _ & (ca & _ & Hr)%bind_Done_iff)%bind_Done_iff)%bind_Done_iff.
  destruct (parse_u64 ca); [|unchanged Hr]. destruct (match args !! 4%nat with Some _ => _ | None => _ end); [|unchanged Hr].
  destruct (Dispatch.get_queue st qn); [|unchanged Hr]. apply bind_Done_iff in Hr as (u & _ & Hr).
  by eapply hmget_loop_tracked.
Qed.

Lemma hdel_loop_tracked env st qn cn tickets k st' n :
  Dispatch.hdel_loop env st qn cn tickets k = Done (st', n) → tracked st st'.
Proof.
  revert st k. induction tickets as [|t tickets IH]; intros st k; cbn [Dispatch.hdel_loop]; [intros Hr; unchanged Hr|].
  destruct (parse_i64 t); [|intros Hr; unchanged Hr].
  intros (q & Hq%unwrap_Some & ([q' r] & Hg%with_channel_names & Hr)%bind_Done_iff)%bind_Done_iff.
  etrans; [by eapply (set_queue_tracked st qn q q')|]. by eapply IH.
Qed.

Lemma hdel_tracked env st args st' n : Dispatch.hdel io_debug env st args = Done (st', n) → tracked st st'.
Proof.
  unfold Dispatch.hdel. destruct (zlen args <? 4); [intros Hr; unchanged Hr|].
  intros (qn & _ & (cn & _ & Hr)%bind_Done_iff)%bind_Done_iff.
  destruct (Dispatch.get_queue st qn); [|unchanged Hr]. by eapply hdel_loop_tracked.
Qed.

Lemma hmset_tracked env st args st' n : Dispatch.hmset io_debug env st args = Done (st', n) → tracked st st'.
Proof.
  unfold Dispatch.hmset. destruct (zlen args <? 5); [intros Hr; unchanged Hr|].
  intros (qn & _ & (cn & _ & (ty & _ & (v & _ & Hr)%bind_Done_iff)%bind_Done_iff)%bind_Done_iff)%bind_Done_iff.
  destruct (Dispatch.get_queue st qn) as [q|] eqn:Hq; [apply get_queue_Some in Hq|unchanged Hr].
  assert (∀ r : outcome (InnerQueue.t B M * result () InnerQueue.QueueError), (r ≫= (λ '(q, r), match r with Ok _ => Dispatch.reply (Dispatch.set_queue st qn q) (NotifyMessage.with_int 2)
      | Err e => Dispatch.queue_error io_debug (Dispatch.set_queue st qn q) e end)) = Done (st', n) →
    (∀ q' e, r = Done (q', e) → names (InnerQueue.channels q') = names (InnerQueue.channels q)) → tracked st st') as Hseek.
  { intros r ([q' e] & Hr' & Hk)%bind_Done_iff Hn. etrans; [eapply (set_queue_tracked st qn q q'); [done|by eapply Hn]|].
    destruct e; unchanged Hk. }
  case_bool_decide; [|case_bool_decide; [|unchanged Hr]].
  - destruct (parse_u32 v); [|unchanged Hr]. eapply Hseek; [exact Hr|]. intros q' e. apply with_channel_names.
  - destruct (parse_u64 v); [|unchanged Hr]. eapply Hseek; [exact Hr|]. intros q' e. apply with_channel_names.
Qed.

Lemma srem_tracked env st args st' n : Dispatch.srem env st args = Done (st', n) → tracked st st'.
Proof.
  unfold Dispatch.srem. destruct (zlen args <? 3); [intros Hr; unchanged Hr|].
  intros (qn & _ & (cn & _ & Hr)%bind_Done_iff)%bind_Done_iff.
  destruct (Dispatch.get_queue st qn) as [q|] eqn:Hq; [apply get_queue_Some in Hq|unchanged Hr].
  case_bool_decide; apply bind_Done_iff in Hr as ([q' r] & Hp & [= <- _]);
    (eapply set_queue_tracked; [exact Hq|]); [by eapply purge_names|by eapply with_channel_names].
Qed.

Lemma info_queue_tracked env st prefix st' infos :
  Dispatch.info_queue env st prefix = Done (st', infos) → tracked st st'.
Proof.
  unfold Dispatch.info_queue. intros (m & Hm%map_values_Done & [= <- _])%bind_Done_iff.
  apply keeps_tracked; [done|]. apply map_eq. intros name. rewrite !queue_table_lookup. cbn. rewrite lookup_union, lookup_fmap.
  destruct (m !! name) as [[q' i]|] eqn:Hi; cbn; [|by destruct (Dispatch.queues st !! name)].
  destruct (mapped_Some _ _ _ _ _ Hm Hi) as (q & Hq & Hinfo). apply map_lookup_filter_Some in Hq as [Hq _].
  rewrite Hq. cbn. f_equal. by eapply info_names.
Qed.

Lemma delete_queue_tracked env st name st' : Dispatch.delete_queue env st name = Done st' → tracked st st'.
Proof.
  unfold Dispatch.delete_queue. destruct (Dispatch.queues st !! name) as [q|] eqn:Hq; [|intros [= <-]; reflexivity].
  intros ([q' ps] & _ & [= <-])%bind_Done_iff. by apply (queue_deleted st name q).
Qed.

Lemma delete_channel_tracked st name q cn :
  Dispatch.queues st !! name = Some q → tracked st (fst (Dispatch.delete_channel st name q cn)).
Proof.
  intros Hq. unfold Dispatch.delete_channel, InnerQueue.delete_channel.
  destruct (InnerQueue.channels q !! cn) as [c|] eqn:Hc; cbn [fst]; [by eapply channel_deleted|].
  by eapply set_queue_tracked.
Qed.

Lemma create_channel_tracked env st name q cn nx :
  Dispatch.queues st !! name = Some q → tracked st (fst (Dispatch.create_channel env st name q cn nx)).
Proof.
  intros Hq. unfold Dispatch.create_channel, InnerQueue.create_channel.
  destruct (InnerQueue.channels q !! cn) as [c|] eqn:Hc; cbn [fst]; [by eapply set_queue_tracked|].
  by eapply channel_created.
Qed.

Lemma del_tracked env st args st' n : Dispatch.del env st args = Done (st', n) → tracked st st'.
Proof.
  unfold Dispatch.del. destruct (zlen args <? 2); [intros Hr; unchanged Hr|].
  intros (qn & _ & Hr)%bind_Done_iff. destruct (Dispatch.get_queue st qn) as [q|] eqn:Hq; [apply get_queue_Some in Hq|unchanged Hr].
  destruct (args !! 2%nat) as [cn|].
  - pose proof (delete_channel_tracked st qn q cn Hq) as Ht.
    destruct (Dispatch.delete_channel _ _ _ _) as [st2 [u|e]]; by injection Hr as <- _.
  - by apply bind_Done_iff in Hr as (st2 & Hd%delete_queue_tracked & [= <- _]).
Qed.

Lemma create_queue_tracked env st name nx st' r :
  Dispatch.create_queue new_backend env st name nx = Done (st', r) → tracked st st'.
Proof.
  intros Hc. destruct (Dispatch.queues st !! name) as [q|] eqn:Hq.
  { unfold Dispatch.create_queue in Hc. rewrite Hq in Hc. unchanged Hc. }
  destruct (Dispatch.create_queue_new _ _ _ _ _ _ _ Hq Hc) as (b & q & _ & Hnew & _ & ->).
  apply queue_created; [done|]. by eapply Dispatch.new_channels.
Qed.

Lemma set_tracked env st args st' n :
  Dispatch.set new_backend io_debug env st args = Done (st', n) → tracked st st'.
Proof.
  unfold Dispatch.set. destruct (zlen args <? 3); [intros Hr; unchanged Hr|].
  intros (cmd & _ & (last_arg & _ & (qa & _ & (ca & _ & Hr)%bind_Done_iff)%bind_Done_iff)%bind_Done_iff)%bind_Done_iff.
  destruct (check_identifier_str qa) as [qn|]; [|unchanged Hr].
  destruct (check_identifier_str ca) as [cn|]; [|unchanged Hr].
  apply bind_Done_iff in Hr as ([st1 r] & Hc%create_queue_tracked & Hr). etrans; [exact Hc|].
  destruct r as [u|e]; [|unchanged Hr]. apply bind_Done_iff in Hr as (q & Hq%unwrap_Some & Hr).
  match type of Hr with match Dispatch.create_channel _ _ _ _ _ ?nx with _ => _ end = _ =>
    pose proof (create_channel_tracked env st1 qn q cn nx Hq) as Ht end.
  destruct (Dispatch.create_channel _ _ _ _ _ _) as [st2 [u2|e2]]; by injection Hr as <- _.
Qed.

(** The two messages that ask for a reply leave the table alone. *)
Lemma config_command_tracked env st args st' n :
  Dispatch.config_command io_debug env st args = Done (st', n) → tracked st st'.
Proof.
  unfold Dispatch.config_command. destruct (_ || _); [intros Hr; unchanged Hr|].
  intros (sub & _ & Hr)%bind_Done_iff.
  assert (∀ v k, tracked st (Dispatch.notify_server st (NotifyMessage.ServerSetConfig k v))) as Hset.
  { intros v k. by eapply sent_tracked. }
  case_bool_decide; [|case_bool_decide; [|unchanged Hr]].
  - unfold Dispatch.config_get in Hr. apply bind_Done_iff in Hr as (name & _ & Hr).
    repeat case_match; try case_bool_decide; try unchanged Hr; repeat case_bool_decide; unchanged Hr.
  - unfold Dispatch.config_set in Hr. apply bind_Done_iff in Hr as (name & _ & (v & _ & Hr)%bind_Done_iff).
    destruct (splitn 2 [] name) as [|a [|k [|x [|]]]]; try unchanged Hr.
    + case_bool_decide; [|unchanged Hr]. injection Hr as <- _. apply Hset.
    + case_bool_decide; [|unchanged Hr]. destruct (Dispatch.get_queue st k); [|unchanged Hr].
      destruct (queue_config_set _ _ _); unchanged Hr.
Qed.

(** [INFO server] asks for a reply and does nothing else. *)
Definition tracked_info st st' : Prop :=
  tracked st st' ∨ st' = Dispatch.notify_server st NotifyMessage.ServerInfo.

Lemma tracked_tracked_info st st' : tracked st st' → tracked_info st st'.
Proof. by left. Qed.

Lemma info_tracked env st args st' n : Dispatch.info env st args = Done (st', n) → tracked_info st st'.
Proof.
  unfold Dispatch.info. destruct (zlen args <? 2); [intros Hr; apply tracked_tracked_info; unchanged Hr|].
  intros (name & _ & Hr)%bind_Done_iff.
  assert (∀ prefix, ('(st, infos) ← Dispatch.info_queue env st prefix; Dispatch.json_reply st (json_encode infos))
    = Done (st', n) → tracked_info st st') as Hq.
  { intros prefix ([st2 infos] & Hi%info_queue_tracked & [= <- _])%bind_Done_iff. by apply tracked_tracked_info. }
  destruct (splitn 1 [] name) as [|a [|x [|]]]; try (apply tracked_tracked_info; unchanged Hr).
  - case_bool_decide; [|case_bool_decide; [by apply (Hq [])|apply tracked_tracked_info; unchanged Hr]].
    injection Hr as <- _. by right.
  - case_bool_decide; [by apply (Hq x)|apply tracked_tracked_info; unchanged Hr].
Qed.

Lemma run_command_tracked env st request args st' n :
  Dispatch.run_command value_size new_backend io_debug env st request args = Done (st', n) → tracked_info st st'.
Proof.
  unfold Dispatch.run_command. intros (cmd & _ & Hr)%bind_Done_iff.
  repeat case_bool_decide; try (by eapply info_tracked); apply tracked_tracked_info.
  - by eapply rpush_tracked.
  - by eapply hmget_tracked.
  - by eapply hdel_tracked.
  - by eapply hmset_tracked.
  - by eapply set_tracked.
  - by eapply del_tracked.
  - by eapply srem_tracked.
  - by eapply config_command_tracked.
  - unchanged Hr.
Qed.

Lemma dispatch_tracked env st request st' n :
  Dispatch.dispatch value_size new_backend io_debug env st request = Done (st', n) → tracked_info st st'.
Proof.
  intros Hd. unfold Dispatch.dispatch in Hd.
  destruct request as [| | |a| | |]; try (apply tracked_tracked_info; unchanged Hd).
  destruct (_ && _); [|apply tracked_tracked_info; unchanged Hd].
  destruct (Dispatch.data_args a) as [args|]; [|apply tracked_tracked_info; unchanged Hd].
  by eapply run_command_tracked.
Qed.

(** In either case the messages describe the change of the table. *)
Lemma tracked_info_shapes st st' :
  tracked_info st st' → ∃ msgs, Dispatch.sent st' = Dispatch.sent st ++ msgs ∧
    shapes (queue_table (Dispatch.queues st)) msgs = Some (queue_table (Dispatch.queues st')).
Proof. intros [(msgs & ? & _ & ?)| ->]; [by exists msgs|by exists [NotifyMessage.ServerInfo]]. Qed.

(** C15: Every request keeps the event loop's table of waiting clients equal
    to the table of queues: the notifications it sends, delivered in order,
    hit none of the loop's assertions and [unreachable!]s, create and delete
    exactly the lists of the queues and channels the request created and
    deleted, and touch no connection. *)
Theorem notifications_mirror {E Tm} `{EventLoop E Tm} env st request st' n
    (h : ServerHandler.t T E Tm) queue_count now_s :
  table (ServerHandler.server h) = queue_table (Dispatch.queues st) →
  server_fits h NotifyMessage.ServerInfo queue_count now_s →
  Dispatch.dispatch value_size new_backend io_debug env st request = Done (st', n) →
  ∃ msgs h', Dispatch.sent st' = Dispatch.sent st ++ msgs ∧ deliver h msgs queue_count now_s = Done h' ∧
    ServerHandler.clients h' = ServerHandler.clients h ∧
    table (ServerHandler.server h') = queue_table (Dispatch.queues st').
Proof.
  intros Ht [i Hi] Hd. destruct (dispatch_tracked _ _ _ _ _ Hd) as [(msgs & Hs & Hno & Hm)| ->].
  - rewrite <-Ht in Hm. destruct (deliver_table h msgs queue_count now_s _ Hm Hno) as (s' & Hdel & Hs').
    by exists msgs, (ServerHandler.mk s' (ServerHandler.clients h)).
  - exists [NotifyMessage.ServerInfo], h. cbn. by rewrite Hi.
Qed.

End mirror.
