(* ===== verification/Handler.v ===== *)
(** * The invariant of the event loop

    A client is idle, processing a request, or waiting with a live timer: in
    exactly one list, or about to wake at the next tick. The lemmas are about
    the parts an event changes: a client, the lists, the timers, the clients
    that wake. *)
From S2P Require Import Prelude.
From S2P Require Import Offsets.
From S2P Require Import Text.
From S2P Require Import Segments.
From S2P Require Import Wire.
From S2P Require Import WireFacts.
From S2P Require Import WireProps.
From S2P Require Import Commands.
From S2P Require Import Server.

(** ** Who waits where

    For each token what its client waits for, the lists and the awaking
    clients by their tokens, and the live timers. *)
Section registry.
Context {Tm : Type} `{!EqDecision Tm}.
Implicit Types (wt : Z → option (Tm * list Z * list Z)) (ent : list Z → list Z → list Z)
  (aw : list Z) (live : Tm → option TimeoutType).

Record registry wt ent aw live : Prop := {
  (** a waiting client has a live timer, and is in its list or wakes *)
  rg_waits t tm q ch : wt t = Some (tm, q, ch) → live tm = Some (mkTimeout t q ch) ∧ (t ∈ ent q ch ∨ t ∈ aw);
  rg_listed t q ch : t ∈ ent q ch → t ∉ aw ∧ ∃ tm, wt t = Some (tm, q, ch);
  rg_awaking t : t ∈ aw → is_Some (wt t);
  rg_live tm t q ch : live tm = Some (mkTimeout t q ch) → wt t = Some (tm, q, ch);
  rg_nodup q ch : NoDup (ent q ch);
  rg_nodup_awaking : NoDup aw;
}.

Lemma registry_ext wt wt' ent ent' aw live live' :
  (∀ t, wt' t = wt t) → (∀ q ch, ent' q ch = ent q ch) → (∀ tm, live' tm = live tm) →
  registry wt ent aw live → registry wt' ent' aw live'.
Proof.
  intros Hwt Hent Hlive [Hw Hl Ha Hv Hn Hna]. constructor; [..|done].
  - intros t tm q ch. rewrite Hwt, Hlive, Hent. apply Hw.
  - intros t q ch. rewrite Hent. intros (? & tm & ?)%Hl. split; [done|]. exists tm. by rewrite Hwt.
  - intros t. rewrite Hwt. apply Ha.
  - intros tm t q ch. rewrite Hlive, Hwt. apply Hv.
  - intros q ch. rewrite Hent. apply Hn.
Qed.

(** A client stops waiting: its timer is gone and so are its entries. *)
Lemma registry_stop wt wt' ent ent' aw live live' t tm q ch :
  registry wt ent aw live → wt t = Some (tm, q, ch) →
  wt' t = None → (∀ t', t' ≠ t → wt' t' = wt t') →
  ent' q ch = filter (λ t', t' ≠ t) (ent q ch) →
  (∀ q' ch', (q', ch') ≠ (q, ch) → ent' q' ch' = ent q' ch') →
  live' tm = None → (∀ tm', tm' ≠ tm → live' tm' = live tm') →
  registry wt' ent' (filter (λ t', t' ≠ t) aw) live'.
Proof.
  intros [Hw Hl Ha Hv Hn Hna] Ht Ht' Hwt' Hent Hent' Hlive Hlive'.
  destruct (Hw _ _ _ _ Ht) as [Hlt _].
  assert (∀ t' q' ch', t' ∈ ent' q' ch' ↔ t' ∈ ent q' ch' ∧ t' ≠ t) as He.
  { intros t' q' ch'. destruct (decide ((q', ch') = (q, ch))) as [[= -> ->]|Hne].
    - rewrite Hent, list_elem_of_filter. tauto.
    - rewrite Hent' by done. split; [|tauto]. intros Hin. split; [done|]. intros ->.
      destruct (Hl _ _ _ Hin) as (_ & tm' & Htm'). congruence. }
  constructor.
  - intros t' tm' q' ch' Hw'. assert (t' ≠ t) as Hne by congruence. rewrite Hwt' in Hw' by done.
    destruct (Hw _ _ _ _ Hw') as [Hlv Hin]. rewrite He, list_elem_of_filter.
    split; [|tauto]. rewrite Hlive'; [done|]. congruence.
  - intros t' q' ch' [Hin Hne]%He. destruct (Hl _ _ _ Hin) as (Hna' & tm' & Htm').
    split; [by rewrite list_elem_of_filter; tauto|]. exists tm'. by rewrite Hwt'.
  - intros t' [Hne Hin]%list_elem_of_filter. rewrite Hwt' by done. by apply Ha.
  - intros tm' t' q' ch' Hin. destruct (decide (tm' = tm)) as [->|Hne]; [congruence|].
    rewrite Hlive' in Hin by done. apply Hv in Hin. rewrite Hwt'; [done|]. congruence.
  - intros q' ch'. destruct (decide ((q', ch') = (q, ch))) as [[= -> ->]|Hne];
      [rewrite Hent; by apply NoDup_filter|by rewrite Hent'].
  - by apply NoDup_filter.
Qed.

(** A client starts waiting, at the end of its list or about to wake. *)
Lemma registry_start wt wt' ent ent' aw aw' live live' t tm q ch :
  registry wt ent aw live → wt t = None →
  wt' t = Some (tm, q, ch) → (∀ t', t' ≠ t → wt' t' = wt t') →
  (∀ q' ch', (q', ch') ≠ (q, ch) → ent' q' ch' = ent q' ch') →
  (ent' q ch = ent q ch ++ [t] ∧ aw' = aw ∨ ent' q ch = ent q ch ∧ aw' = aw ++ [t]) →
  live tm = None → live' tm = Some (mkTimeout t q ch) → (∀ tm', tm' ≠ tm → live' tm' = live tm') →
  registry wt' ent' aw' live'.
Proof.
  intros [Hw Hl Ha Hv Hn Hna] Ht Ht' Hwt' Hent' Hent Hltm Hlive Hlive'.
  assert (∀ q' ch', t ∉ ent q' ch') as Hnew.
  { intros q' ch' Hin. destruct (Hl _ _ _ Hin) as (_ & tm' & Htm'). congruence. }
  assert (t ∉ aw) as Hnaw by (intros [? Hin]%Ha; congruence).
  assert (∀ t' q' ch', t' ∈ ent q' ch' → t' ∈ ent' q' ch') as Hkeep.
  { intros t' q' ch' Hin. destruct (decide ((q', ch') = (q, ch))) as [[= -> ->]|Hne]; [|by rewrite Hent'].
    destruct Hent as [[-> _]|[-> _]]; [rewrite elem_of_app; by left|done]. }
  assert (∀ t' q' ch', t' ∈ ent' q' ch' → t' ∈ ent q' ch' ∨ t' = t ∧ (q', ch') = (q, ch) ∧ aw' = aw) as Hnew'.
  { intros t' q' ch' Hin. destruct (decide ((q', ch') = (q, ch))) as [[= -> ->]|Hne]; [|rewrite Hent' in Hin by done; by left].
    destruct Hent as [[E ->]|[E _]]; rewrite E in Hin; [|by left].
    apply elem_of_app in Hin as [Hin|Hin%list_elem_of_singleton]; [by left|by right]. }
  assert (∀ t', t' ∈ aw → t' ∈ aw') as Hkaw.
  { intros t' Hin. destruct Hent as [[_ ->]|[_ ->]]; [done|]. rewrite elem_of_app. by left. }
  assert (∀ t', t' ∈ aw' → t' ∈ aw ∨ t' = t ∧ ent' q ch = ent q ch) as Hnaw'.
  { intros t' Hin. destruct Hent as [[E ->]|[E ->]]; [by left|].
    apply elem_of_app in Hin as [Hin|Hin%list_elem_of_singleton]; [by left|by right]. }
  constructor.
  - intros t' tm' q' ch' Hw'. destruct (decide (t' = t)) as [->|Hne].
    + rewrite Ht' in Hw'. injection Hw' as <- <- <-. split; [done|].
      destruct Hent as [[-> _]|[_ ->]]; [left|right]; rewrite elem_of_app; right; by left.
    + rewrite Hwt' in Hw' by done. destruct (Hw _ _ _ _ Hw') as [Hlv Hin].
      split; [rewrite Hlive'; [done|congruence]|]. destruct Hin; [left|right]; auto.
  - intros t' q' ch' Hin. destruct (Hnew' _ _ _ Hin) as [Hin'|(-> & [= -> ->] & ->)].
    + destruct (Hl _ _ _ Hin') as (Hna' & tm' & Htm').
      assert (t' ≠ t) as Hne by (intros ->; by eapply Hnew). split; [|exists tm'; by rewrite Hwt'].
      intros [?|[-> _]]%Hnaw'; done.
    + split; [done|]. by exists tm.
  - intros t' [Hin|[-> _]]%Hnaw'; [|by rewrite Ht']. rewrite Hwt'; [by apply Ha|]. intros ->. done.
  - intros tm' t' q' ch' Hin. destruct (decide (tm' = tm)) as [->|Hne].
    + rewrite Hlive in Hin. by injection Hin as <- <- <-.
    + rewrite Hlive' in Hin by done. apply Hv in Hin. rewrite Hwt'; [done|]. congruence.
  - intros q' ch'. destruct (decide ((q', ch') = (q, ch))) as [[= -> ->]|Hne]; [|by rewrite Hent'].
    destruct Hent as [[-> _]|[-> _]]; [|done]. apply NoDup_app. split; [done|].
    split; [|apply NoDup_singleton]. intros x Hx ->%list_elem_of_singleton. by eapply Hnew.
  - destruct Hent as [[_ ->]|[_ ->]]; [done|]. apply NoDup_app. split; [done|].
    split; [|apply NoDup_singleton]. by intros x Hx ->%list_elem_of_singleton.
Qed.

(** Clients move from their lists to the awaking ones. *)
Lemma registry_wake wt ent ent' aw new live :
  registry wt ent aw live →
  (∀ t q ch, t ∈ ent' q ch → t ∈ ent q ch ∧ t ∉ new) →
  (∀ t q ch, t ∈ ent q ch → t ∈ ent' q ch ∨ t ∈ new) →
  (∀ t, t ∈ new → ∃ q ch, t ∈ ent q ch) →
  (∀ q ch, NoDup (ent' q ch)) → NoDup new →
  registry wt ent' (aw ++ new) live.
Proof.
  intros [Hw Hl Ha Hv Hn Hna] H1 H2 H3 Hn' Hna'. constructor; try done.
  - intros t tm q ch Ht. destruct (Hw _ _ _ _ Ht) as [Hlv Hin]. split; [done|]. rewrite elem_of_app.
    destruct Hin as [Hin|Hin]; [|auto]. destruct (H2 _ _ _ Hin); auto.
  - intros t q ch Hin. destruct (H1 _ _ _ Hin) as [Hin' Hna2]. destruct (Hl _ _ _ Hin') as [Hna3 Htm].
    split; [rewrite elem_of_app; tauto|done].
  - intros t [Hin|Hin]%elem_of_app; [by apply Ha|]. destruct (H3 _ Hin) as (q & ch & Hin').
    destruct (Hl _ _ _ Hin') as (_ & tm & ->). by eexists.
  - apply NoDup_app. split; [done|]. split; [|done]. intros t Hin Hin2.
    destruct (H3 _ Hin2) as (q & ch & Hin'). by destruct (Hl _ _ _ Hin').
Qed.

End registry.

(** ** The registry of a server *)
Section handler.
Context `{Profile} {T E Tm : Type} `{TendrilOk T} `{!EqDecision Tm} `{EventLoopOk E Tm}.
Variable value_size : Z.
Implicit Types (s : Server.t T E) (c : Client.t T Tm) (h : ServerHandler.t T E Tm).

Definition list_of s (q ch : list Z) : list (Z * Value.t T) :=
  default [] (Server.waiting_clients s !! q ≫= λ w, w_channels w !! ch).
Definition ent s (q ch : list Z) : list Z := (list_of s q ch).*1.
Definition waits (cl : gmap Z (Client.t T Tm)) (t : Z) : option (Tm * list Z * list Z) :=
  cl !! t ≫= Client.timeout.
Definition aw s : list Z := (Server.awaking_clients s).*1.
Definition live s : Tm → option TimeoutType := el_live (Server.event_loop s).

Definition server_ok (cl : gmap Z (Client.t T Tm)) s : Prop :=
  registry (waits cl) (ent s) (aw s) (live s).

(** *** Waking *)

Lemma elem_of_concat {A} (x : A) (ls : list (list A)) : x ∈ concat ls ↔ ∃ l, l ∈ ls ∧ x ∈ l.
Proof.
  induction ls as [|l ls IH]; cbn.
  - split; [by intros ?%elem_of_nil|by intros (l & ?%elem_of_nil & _)].
  - rewrite elem_of_app, IH. setoid_rewrite elem_of_cons. split.
    + intros [?|(l' & ? & ?)]; [exists l|exists l']; auto.
    + intros (l' & [->|?] & ?); [by left|right; by exists l'].
Qed.

Lemma NoDup_concat_keyed {K} (kv : list (K * list Z)) :
  NoDup kv.*1 → (∀ k l, (k, l) ∈ kv → NoDup l) →
  (∀ k k' l l' t, (k, l) ∈ kv → (k', l') ∈ kv → t ∈ l → t ∈ l' → k = k') →
  NoDup (concat kv.*2).
Proof.
  induction kv as [|[k l] kv IH]; cbn; [constructor|]. intros [Hk Hnd]%NoDup_cons Hl Hd.
  apply NoDup_app. split; [by eapply Hl; left|]. split.
  - intros t Ht (l' & ([k' l''] & -> & Hin)%list_elem_of_fmap & Ht')%elem_of_concat. apply Hk.
    assert (k = k') as -> by (eapply (Hd k k' l l'' t); [by left|by right|done..]).
    by apply (list_elem_of_fmap_2 fst _ (k', l'')).
  - apply IH; [done|intros k' l' Hin; eapply Hl; by right|].
    intros k1 k2 l1 l2 t H1' H2' Ht1 Ht2. eapply (Hd k1 k2 l1 l2 t); [by right|by right|done..].
Qed.

Lemma ent_put s q w q' ch :
  ent (Server.put_waiting s q w) q' ch =
    if decide (q = q') then (default [] (w_channels w !! ch)).*1 else ent s q' ch.
Proof.
  unfold ent, list_of. cbn. case_decide as Hq; [subst q'; by rewrite bytes_insert_eq|by rewrite bytes_insert_ne].
Qed.

(** Of the lists of queue [q] the parts [g] wake and the parts [f] stay. *)
Lemma wake_lists cl s s' q w new (g f : list Z → list (Z * Value.t T) → list (Z * Value.t T)) :
  server_ok cl s → Server.waiting_clients s !! q = Some w →
  (∀ ch l, g ch l ++ f ch l = l) →
  (∀ q' ch, q' ≠ q → ent s' q' ch = ent s q' ch) →
  (∀ ch, ent s' q ch = (default [] (f ch <$> w_channels w !! ch)).*1) →
  aw s' = aw s ++ new →
  (∀ t, t ∈ new ↔ ∃ ch l, w_channels w !! ch = Some l ∧ t ∈ (g ch l).*1) → NoDup new →
  live s' = live s → server_ok cl s'.
Proof.
  intros Hr Hw Hgf Hq' Hq Hnew Haw Hnd Hlive. unfold server_ok. rewrite Hlive, Hnew.
  assert (∀ ch l, w_channels w !! ch = Some l → ent s q ch = (g ch l).*1 ++ (f ch l).*1) as Hl.
  { intros ch l Hch. unfold ent, list_of. rewrite Hw. cbn. rewrite Hch. cbn. by rewrite <-fmap_app, Hgf. }
  assert (∀ ch l, w_channels w !! ch = Some l → NoDup ((g ch l).*1 ++ (f ch l).*1)) as Hnds.
  { intros ch l Hch. rewrite <-(Hl ch l Hch). apply (rg_nodup _ _ _ _ Hr). }
  eapply registry_wake; [exact Hr|..|exact Hnd].
  - intros t q1 ch Hin. destruct (decide (q1 = q)) as [->|Hne].
    + rewrite Hq in Hin. destruct (w_channels w !! ch) as [l|] eqn:Hch; [|by apply elem_of_nil in Hin]. cbn in Hin.
      assert (t ∈ ent s q ch) as Hin' by (rewrite (Hl _ _ Hch), elem_of_app; by right). split; [done|].
      intros (ch' & l' & Hch' & Hg)%Haw. assert (t ∈ ent s q ch') as Hin2 by (rewrite (Hl _ _ Hch'), elem_of_app; by left).
      destruct (rg_listed _ _ _ _ Hr _ _ _ Hin') as (_ & tm & Htm).
      destruct (rg_listed _ _ _ _ Hr _ _ _ Hin2) as (_ & tm' & Htm'). simplify_eq.
      pose proof (Hnds _ _ Hch) as (_ & Hd & _)%NoDup_app. by eapply Hd.
    + rewrite Hq' in Hin by done. split; [done|]. intros (ch' & l' & Hch' & Hg)%Haw.
      assert (t ∈ ent s q ch') as Hin2 by (rewrite (Hl _ _ Hch'), elem_of_app; by left).
      destruct (rg_listed _ _ _ _ Hr _ _ _ Hin) as (_ & tm & Htm).
      destruct (rg_listed _ _ _ _ Hr _ _ _ Hin2) as (_ & tm' & Htm'). congruence.
  - intros t q1 ch Hin. destruct (decide (q1 = q)) as [->|Hne]; [|left; by rewrite Hq'].
    destruct (w_channels w !! ch) as [l|] eqn:Hch.
    + rewrite (Hl _ _ Hch), elem_of_app in Hin. destruct Hin as [Hin|Hin]; [right; apply Haw; by exists ch, l|].
      left. rewrite Hq, Hch. done.
    + unfold ent, list_of in Hin. rewrite Hw in Hin. cbn in Hin. rewrite Hch in Hin. by apply elem_of_nil in Hin.
  - intros t (ch & l & Hch & Hg)%Haw. exists q, ch. rewrite (Hl _ _ Hch), elem_of_app. by left.
  - intros q1 ch. destruct (decide (q1 = q)) as [->|Hne]; [|rewrite Hq' by done; apply (rg_nodup _ _ _ _ Hr)].
    rewrite Hq. destruct (w_channels w !! ch) as [l|] eqn:Hch; [|constructor]. cbn.
    by pose proof (Hnds _ _ Hch) as (_ & _ & ?)%NoDup_app.
Qed.

(** The tokens that [g] takes from all the lists of a queue are distinct. *)
Lemma wake_all_nodup cl s q w (g : list (Z * Value.t T) → list (Z * Value.t T)) :
  server_ok cl s → Server.waiting_clients s !! q = Some w →
  (∀ l, g l `prefix_of` l) →
  NoDup (concat ((λ e, g e.2) <$> map_to_list (w_channels w))).*1 ∧
  ∀ t, t ∈ (concat ((λ e, g e.2) <$> map_to_list (w_channels w))).*1 ↔
    ∃ ch l, w_channels w !! ch = Some l ∧ t ∈ (g l).*1.
Proof.
  intros Hr Hw Hg. split.
  - assert ((concat ((λ e, g e.2) <$> map_to_list (w_channels w))).*1 =
      concat ((λ e, (e.1, (g e.2).*1)) <$> map_to_list (w_channels w)).*2) as ->.
    { generalize (map_to_list (w_channels w)). intros kv. induction kv as [|[k l] kv IH]; [done|]. cbn. by rewrite fmap_app, IH. }
    assert (∀ ch l t, (ch, l) ∈ (λ e, (e.1, (g e.2).*1)) <$> map_to_list (w_channels w) → t ∈ l → t ∈ ent s q ch) as Hin.
    { intros ch l t ([ch' l'] & [= -> ->] & Hin%elem_of_map_to_list)%list_elem_of_fmap Ht. unfold ent, list_of.
      rewrite Hw. cbn in *. rewrite Hin. cbn. destruct (Hg l') as [k Hk]. rewrite Hk, fmap_app, elem_of_app. by left. }
    apply NoDup_concat_keyed.
    + rewrite <-list_fmap_compose. cbn. apply NoDup_fst_map_to_list.
    + intros ch l ([ch' l'] & [= -> ->] & Hin'%elem_of_map_to_list)%list_elem_of_fmap. cbn in *.
      pose proof (rg_nodup _ _ _ _ Hr q ch') as Hnd. unfold ent, list_of in Hnd. rewrite Hw in Hnd. cbn in Hnd.
      rewrite Hin' in Hnd. cbn in Hnd. destruct (Hg l') as [k Hk]. rewrite Hk, fmap_app in Hnd. by apply NoDup_app in Hnd as [? _].
    + intros ch ch' l l' t H1' H2' Ht Ht'. destruct (rg_listed _ _ _ _ Hr _ _ _ (Hin _ _ _ H1' Ht)) as (_ & tm & Htm).
      destruct (rg_listed _ _ _ _ Hr _ _ _ (Hin _ _ _ H2' Ht')) as (_ & tm' & Htm'). congruence.
  - intros t. rewrite list_elem_of_fmap. split.
    + intros (e & -> & (l & ([ch l'] & -> & Hin%elem_of_map_to_list)%list_elem_of_fmap & He)%elem_of_concat).
      exists ch, l'. split; [done|]. by apply list_elem_of_fmap_2.
    + intros (ch & l & Hch & (e & -> & He)%list_elem_of_fmap). exists e. split; [done|]. apply elem_of_concat.
      exists (g l). split; [|done]. apply elem_of_map_to_list in Hch. by apply (list_elem_of_fmap_2 (λ e, g e.2) _ (ch, l)).
Qed.

Lemma aw_wake s l : aw (Server.wake s l) = aw s ++ l.*1.
Proof. unfold aw. cbn. by rewrite fmap_app. Qed.

Lemma ent_list s q w ch : Server.waiting_clients s !! q = Some w → ent s q ch = (default [] (w_channels w !! ch)).*1.
Proof. intros Hw. unfold ent, list_of. by rewrite Hw. Qed.

Lemma notify_queue_ok cl s q head :
  server_ok cl s → server_ok cl (Server.notify_queue s q head).
Proof.
  intros Hr. unfold Server.notify_queue. destruct (Server.waiting_clients s !! q) as [w|] eqn:Hw; [|done].
  destruct (w_head w <? head); [|done].
  set (n := head - w_head w). set (g := λ l : list (Z * Value.t T), take (Server.drain_len n l) l).
  destruct (wake_all_nodup cl s q w g Hr Hw) as [Hnd Hin]; [intros l; apply prefix_take|].
  eapply (wake_lists cl s _ q w _ (λ _, g) (λ _ l, drop (Server.drain_len n l) l)); try done.
  - intros ch l. apply take_drop.
  - intros q' ch Hne. change (ent (Server.put_waiting s q (mkWaiting head ((λ tokens, drop (Server.drain_len n tokens) tokens) <$> w_channels w))) q' ch = ent s q' ch).
    by rewrite ent_put, decide_False.
  - intros ch. change (ent (Server.put_waiting s q (mkWaiting head ((λ tokens, drop (Server.drain_len n tokens) tokens) <$> w_channels w))) q ch
      = (default [] ((λ l, drop (Server.drain_len n l) l) <$> w_channels w !! ch)).*1).
    rewrite ent_put, decide_True by done. cbn. by rewrite lookup_fmap.
  - etrans; [apply aw_wake|reflexivity].
Qed.

(** The first [n] clients of one list wake. *)
Lemma wake_channel_ok cl s q w ch n tokens :
  server_ok cl s → Server.waiting_clients s !! q = Some w → w_channels w !! ch = Some tokens →
  server_ok cl (Server.wake (Server.put_waiting s q (mkWaiting (w_head w) (<[ch := drop n tokens]> (w_channels w))))
    (take n tokens)).
Proof.
  intros Hr Hw Hch.
  assert (NoDup tokens.*1) as Hnd.
  { pose proof (rg_nodup _ _ _ _ Hr q ch) as Hnd. rewrite (ent_list s q w ch Hw), Hch in Hnd. exact Hnd. }
  eapply (wake_lists cl s _ q w (take n tokens).*1 (λ ch' l, if decide (ch' = ch) then take n l else [])
    (λ ch' l, if decide (ch' = ch) then drop n l else l)); try done.
  - intros ch' l. case_decide; [apply take_drop|done].
  - intros q' ch' Hne. change (ent (Server.put_waiting s q (mkWaiting (w_head w) (<[ch := drop n tokens]> (w_channels w)))) q' ch' = ent s q' ch').
    by rewrite ent_put, decide_False.
  - intros ch'. change (ent (Server.put_waiting s q (mkWaiting (w_head w) (<[ch := drop n tokens]> (w_channels w)))) q ch'
      = (default [] ((λ l, if decide (ch' = ch) then drop n l else l) <$> w_channels w !! ch')).*1).
    rewrite ent_put, decide_True by done. cbn. case_decide as Hc; [subst ch'; by rewrite bytes_insert_eq, Hch|].
    rewrite bytes_insert_ne by congruence. by destruct (w_channels w !! ch').
  - etrans; [apply aw_wake|reflexivity].
  - intros t. split.
    + intros Hin. exists ch, tokens. split; [done|]. by rewrite decide_True.
    + intros (ch' & l & Hch' & Hin). case_decide; [subst ch'; by simplify_eq|by apply elem_of_nil in Hin].
  - rewrite <-(take_drop n tokens), fmap_app in Hnd. by apply NoDup_app in Hnd as [? _].
Qed.

Lemma notify_channel_ok cl s q ch available :
  server_ok cl s → server_ok cl (Server.notify_channel s q ch available).
Proof.
  intros Hr. unfold Server.notify_channel. destruct (Server.waiting_clients s !! q) as [w|] eqn:Hw; [|done].
  destruct (w_channels w !! ch) as [tokens|] eqn:Hch; [|done]. by apply wake_channel_ok.
Qed.

Lemma server_ok_same cl s s' :
  server_ok cl s → (∀ q ch, ent s' q ch = ent s q ch) → aw s' = aw s → (∀ tm, live s' tm = live s tm) → server_ok cl s'.
Proof. intros Hr He Ha Hl. unfold server_ok. rewrite Ha. by eapply registry_ext; [..|exact Hr]. Qed.

Lemma notify_queue_deleted_ok cl s q s' :
  server_ok cl s → Server.notify_queue_deleted s q = Done s' → server_ok cl s'.
Proof.
  intros Hr. unfold Server.notify_queue_deleted.
  destruct (Server.waiting_clients s !! q) as [w|] eqn:Hw; [|done]. cbn. intros [= <-].
  destruct (wake_all_nodup cl s q w id Hr Hw) as [Hnd Hin]; [done|]. unfold id in Hnd, Hin.
  assert (∀ q' ch, ent (Server.set_waiting s (delete q (Server.waiting_clients s))) q' ch =
    if decide (q = q') then [] else ent s q' ch) as He.
  { intros q' ch. unfold ent, list_of. cbn.
    case_decide as Hq; [subst q'; by rewrite bytes_delete_eq|by rewrite bytes_delete_ne]. }
  eapply (wake_lists cl s _ q w _ (λ _ l, l) (λ _ _, [])); try done.
  - intros ch l. apply app_nil_r.
  - intros q' ch Hne. etrans; [apply (He q' ch)|]. by rewrite decide_False.
  - intros ch. etrans; [apply (He q ch)|]. rewrite decide_True by done. by destruct (w_channels w !! ch).
  - etrans; [apply aw_wake|reflexivity].
Qed.

Lemma notify_queue_created_ok cl s q s' :
  server_ok cl s → Server.notify_queue_created s q = Done s' → server_ok cl s' ∧ aw s' = aw s.
Proof.
  intros Hr (u & Hn%assert_true_iff%bool_decide_eq_true & [= <-])%bind_Done_iff. split; [|done].
  eapply server_ok_same; [exact Hr| |done|done]. intros q' ch. rewrite ent_put. case_decide as Hq; [subst q'|done].
  unfold ent, list_of. by rewrite Hn.
Qed.

Lemma notify_channel_deleted_ok cl s q ch s' :
  server_ok cl s → Server.notify_channel_deleted s q ch = Done s' → server_ok cl s'.
Proof.
  intros Hr. unfold Server.notify_channel_deleted.
  destruct (Server.waiting_clients s !! q) as [w|] eqn:Hw; [|done]. cbn [unwrap]. rewrite bind_Done.
  destruct (w_channels w !! ch) as [tokens|] eqn:Hch; [|done]. cbn [unwrap]. rewrite bind_Done. intros [= <-].
  pose proof (wake_channel_ok cl s q w ch (length tokens) tokens Hr Hw Hch) as Hk.
  rewrite firstn_all, drop_all in Hk. eapply server_ok_same; [exact Hk| |done|done].
  intros q' ch'.
  change (ent (Server.put_waiting s q (mkWaiting (w_head w) (delete ch (w_channels w)))) q' ch' =
    ent (Server.put_waiting s q (mkWaiting (w_head w) (<[ch := []]> (w_channels w)))) q' ch').
  rewrite !ent_put. case_decide; [|done]. cbn. destruct (decide (ch = ch')) as [<-|Hne].
  - by rewrite bytes_delete_eq, bytes_insert_eq.
  - by rewrite bytes_delete_ne, bytes_insert_ne.
Qed.

Lemma notify_channel_created_ok cl s q ch s' w :
  server_ok cl s → Server.waiting_clients s !! q = Some w → w_channels w !! ch = None →
  Server.notify_channel_created s q ch = Done s' → server_ok cl s' ∧ aw s' = aw s.
Proof.
  intros Hr Hw Hch. unfold Server.notify_channel_created. rewrite Hw. cbn [unwrap]. rewrite bind_Done.
  intros (u & _ & [= <-])%bind_Done_iff. split; [|done]. eapply server_ok_same; [exact Hr| |done|done].
  intros q' ch'. rewrite ent_put. case_decide as Hq; [subst q'|done]. cbn. rewrite (ent_list s q w ch' Hw).
  destruct (decide (ch = ch')) as [<-|Hne]; [by rewrite bytes_insert_eq, Hch|by rewrite bytes_insert_ne].
Qed.

(** *** Starting and stopping to wait *)

Lemma filter_tokens (l : list (Z * Value.t T)) t :
  (filter (λ e, e.1 ≠ t) l).*1 = filter (λ t', t' ≠ t) l.*1.
Proof.
  induction l as [|[t' r] l IH]; [done|]. change (((t', r) :: l).*1) with (t' :: l.*1).
  destruct (decide (t' = t)) as [->|Hne].
  - rewrite !filter_cons_False by (cbn; tauto). apply IH.
  - rewrite !filter_cons_True by done. change (((t', r) :: filter (λ e, e.1 ≠ t) l).*1) with (t' :: (filter (λ e, e.1 ≠ t) l).*1).
    by rewrite IH.
Qed.

Lemma filter_absent (l : list Z) t : t ∉ l → filter (λ t', t' ≠ t) l = l.
Proof.
  intros Hn. induction l as [|x l IH]; [done|]. apply not_elem_of_cons in Hn as [Hx Hn].
  rewrite filter_cons_True by congruence. by rewrite IH.
Qed.

(** The listed client's entry is there to be removed. *)
Lemma retain_ok cl s t tm q ch :
  server_ok cl s → t ∉ aw s → waits cl t = Some (tm, q, ch) →
  ∃ s', Server.retain s q ch t = Done s' ∧ aw s' = aw s ∧ live s' = live s ∧
    Server.event_loop s' = Server.event_loop s ∧ Server.jobs s' = Server.jobs s ∧
    ent s' q ch = filter (λ t', t' ≠ t) (ent s q ch) ∧
    ∀ q' ch', (q', ch') ≠ (q, ch) → ent s' q' ch' = ent s q' ch'.
Proof.
  intros Hr Ha Ht. destruct (rg_waits _ _ _ _ Hr _ _ _ _ Ht) as [_ [Hin|Hin]]; [|done].
  unfold ent, list_of in Hin. destruct (Server.waiting_clients s !! q) as [w|] eqn:Hw; [|by apply elem_of_nil in Hin].
  cbn in Hin. destruct (w_channels w !! ch) as [tokens|] eqn:Hch; [|by apply elem_of_nil in Hin].
  unfold Server.retain. rewrite Hw. cbn [unwrap]. rewrite bind_Done, Hch. cbn [unwrap]. rewrite bind_Done.
  eexists. split; [reflexivity|]. split_and!; [done..| |].
  - rewrite ent_put, decide_True by done. cbn. rewrite bytes_insert_eq. cbn. rewrite filter_tokens.
    by rewrite (ent_list s q w ch Hw), Hch.
  - intros q' ch' Hne. rewrite ent_put. case_decide as Hq; [subst q'|done]. cbn.
    rewrite bytes_insert_ne by congruence. by rewrite (ent_list s q w ch' Hw).
Qed.

(** A request that blocks is listed or wakes at once. *)
Lemma wait_queue_ok s request q ch t head :
  let s' := Server.wait_queue s request q ch t head in
  live s' = live s ∧ Server.jobs s' = Server.jobs s ∧
  (∀ q' ch', (q', ch') ≠ (q, ch) → ent s' q' ch' = ent s q' ch') ∧
  (ent s' q ch = ent s q ch ++ [t] ∧ aw s' = aw s ∨ ent s' q ch = ent s q ch ∧ aw s' = aw s ++ [t]).
Proof.
  unfold Server.wait_queue. assert (aw (Server.wake s [(t, request)]) = aw s ++ [t]) as Hwake by by rewrite aw_wake.
  destruct (Server.waiting_clients s !! q) as [w|] eqn:Hw; [|split_and!; by auto].
  destruct (w_channels w !! ch) as [tokens|] eqn:Hch; [|split_and!; by auto].
  destruct (_ <=? _); [|split_and!; by auto]. cbn zeta. split; [done|]. split; [done|]. split.
  - intros q' ch' Hne. rewrite ent_put. case_decide as Hq; [subst q'|done]. cbn.
    rewrite bytes_insert_ne by congruence. by rewrite (ent_list s q w ch' Hw).
  - left. split; [|done]. rewrite ent_put, decide_True by done. cbn. rewrite bytes_insert_eq. cbn.
    by rewrite fmap_app, (ent_list s q w ch Hw), Hch.
Qed.

Lemma waits_insert cl t c t' : waits (<[t := c]> cl) t' = if decide (t = t') then Client.timeout c else waits cl t'.
Proof.
  unfold waits. case_decide as Ht; [subst t'; by rewrite lookup_insert_eq|by rewrite lookup_insert_ne].
Qed.

Lemma waits_delete cl t t' : waits (delete t cl) t' = if decide (t = t') then None else waits cl t'.
Proof.
  unfold waits. case_decide as Ht; [subst t'; by rewrite lookup_delete_eq|by rewrite lookup_delete_ne].
Qed.

(** A client is replaced by one that waits for the same. *)
Lemma server_ok_client cl s t c c' :
  server_ok cl s → cl !! t = Some c → Client.timeout c' = Client.timeout c → server_ok (<[t := c']> cl) s.
Proof.
  intros Hr Hc Ht. eapply registry_ext; [..|exact Hr]; [|done..]. intros t'. rewrite waits_insert.
  case_decide as Hq; [subst t'|done]. unfold waits. by rewrite Hc.
Qed.

Lemma server_ok_absent cl s t c :
  server_ok cl s → cl !! t = None → Client.timeout c = None → server_ok (<[t := c]> cl) s.
Proof.
  intros Hr Hc Ht. eapply registry_ext; [..|exact Hr]; [|done..]. intros t'. rewrite waits_insert.
  case_decide as Hq; [subst t'|done]. unfold waits. by rewrite Hc.
Qed.

Lemma server_ok_delete cl s t c :
  server_ok cl s → cl !! t = Some c → Client.timeout c = None → server_ok (delete t cl) s.
Proof.
  intros Hr Hc Ht. eapply registry_ext; [..|exact Hr]; [|done..]. intros t'. rewrite waits_delete.
  case_decide as Hq; [subst t'|done]. unfold waits. by rewrite Hc.
Qed.

(** A client that waits stops: a new map of clients in which it does not,
    the lists without it, and its timer gone. *)
Lemma server_ok_stop cl cl' s s' t tm q ch :
  server_ok cl s → waits cl t = Some (tm, q, ch) → waits cl' t = None →
  (∀ t', t' ≠ t → waits cl' t' = waits cl t') →
  ent s' q ch = filter (λ t', t' ≠ t) (ent s q ch) →
  (∀ q' ch', (q', ch') ≠ (q, ch) → ent s' q' ch' = ent s q' ch') →
  aw s' = filter (λ t', t' ≠ t) (aw s) →
  live s' tm = None → (∀ tm', tm' ≠ tm → live s' tm' = live s tm') → server_ok cl' s'.
Proof. intros Hr Ht Ht' Hw He He' Ha Hl Hl'. unfold server_ok. rewrite Ha. by eapply registry_stop. Qed.

(** Clearing the timer of a waiting client succeeds. *)
Lemma clear_timeout_ok cl s A t tm q ch :
  registry (waits cl) (ent s) A (live s) → waits cl t = Some (tm, q, ch) →
  ∃ e, Server.clear_timeout s tm = Done (Server.set_loop s e) ∧
    el_live e tm = None ∧ ∀ tm', tm' ≠ tm → el_live e tm' = live s tm'.
Proof.
  intros Hr Ht. destruct (rg_waits _ _ _ _ Hr _ _ _ _ Ht) as [Hlive _].
  destruct (el_clear_timeout_live tm (Server.event_loop s)) as (Hb & Hn & Hs).
  unfold Server.clear_timeout. destruct (el_clear_timeout tm (Server.event_loop s)) as [b e]. cbn in *.
  unfold live in Hlive. rewrite Hb, bool_decide_true by by rewrite Hlive. cbn. eexists. by split_and!.
Qed.

(** *** Clients *)

Definition response_inv (b : ResponseBuffer.t) : Prop :=
  response_ok b ∧ (ResponseBuffer.bytes_written b = zlen (ResponseBuffer.body b) → ResponseBuffer.body b = []) ∧
  zlen (ResponseBuffer.body b) < 2 ^ 64.

(** What holds of the client with token [t] whatever it does. *)
Record client_ok (t : Z) c : Prop := {
  co_token : Client.token c = t;
  co_range : 0 < t < 2 ^ 16;
  co_excl : Client.processing c = None ∨ Client.timeout c = None;
  (** it reads requests only when it has nothing else to do *)
  co_interest : readable (Client.interest c) = true →
    writable (Client.interest c) = false ∧ Client.processing c = None ∧ Client.timeout c = None;
  (** and writes answers only then *)
  co_writable : writable (Client.interest c) = true → Client.processing c = None ∧ Client.timeout c = None;
  co_request : request_ok (Client.request c);
  co_response : response_inv (Client.response c);
  co_empty : readable (Client.interest c) = true ∨ is_Some (Client.processing c) ∨ is_Some (Client.timeout c) →
    ResponseBuffer.body (Client.response c) = [];
  (** a closed connection is kept while its request runs *)
  co_hup : Client.hup c = true → is_Some (Client.processing c);
  co_cookie k : Client.processing c = Some k → Cookie.token k = t;
  (** it is never forgotten *)
  co_progress : readable (Client.interest c) = true ∨ writable (Client.interest c) = true ∨
    is_Some (Client.processing c) ∨ is_Some (Client.timeout c);
}.

(** The value can be read and fits the response buffer. *)
Definition sendable (v : Value.t T) : Prop := ∃ out, Value.serialize_to v [] = Done out ∧ zlen out < 2 ^ 64.

Lemma sendable_nil : sendable Value.Nil.
Proof. exists (Text.B "$-1" ++ crlf). split; [done|]. by vm_compute. Qed.

(** Without its bytes nothing is sent. *)
Lemma send_response_done c v c' :
  ClientOps.send_response (Tm:=Tm) c v = Done c' → ∃ out, Value.serialize_to v [] = Done out.
Proof.
  intros (b & (body & Hs & _)%bind_Done_iff & _)%bind_Done_iff. rewrite serialize_append in Hs.
  apply bind_Done_iff in Hs as (out & Ho & _). by exists out.
Qed.

(** [c] is a client about to be answered: [c0] that neither processes nor
    waits any more. *)
Lemma send_response_ok t c0 c v :
  client_ok t c0 → sendable v → ResponseBuffer.body (Client.response c0) = [] → Client.hup c0 = false →
  c = Client.set_timeout (Client.set_processing c0 None) None →
  ∃ c', ClientOps.send_response c v = Done c' ∧ client_ok t c' ∧ Client.token c' = t ∧
    Client.timeout c' = None ∧ Client.processing c' = None.
Proof.
  intros [] (r & Hw & Hl) Hb Hhup ->. unfold ClientOps.send_response. cbn [Client.set_timeout Client.set_processing Client.response].
  destruct (push_bytes_ok (Client.response c0) v r (proj1 co_response0) Hw) as (b & Hpush & Hok & _ & Hlen).
  rewrite Hpush, bind_Done. eexists. split; [reflexivity|]. split; [|by split_and!].
  rewrite Hb in Hlen. change (zlen []) with 0 in Hlen.
  constructor; cbn; try done; try auto.
  - split; [done|]. split; [|lia]. intros He. apply zlen_0_nil.
    assert (ResponseBuffer.bytes_written b = ResponseBuffer.bytes_written (Client.response c0)) as Hw'.
    { unfold ResponseBuffer.push_value in Hpush. by apply bind_Done_iff in Hpush as (f & _ & [= <-]). }
    destruct co_response0 as ([H1' H2'] & _). rewrite Hb in H2'. change (zlen []) with 0 in H2'. lia.
  - intros [?|[[? ?]|[? ?]]]; done.
  - intros Hh. by rewrite Hhup in Hh.
Qed.

Lemma dispatch_ok s c request now :
  Client.processing c = None → 0 ≤ Client.token c →
  ∃ s' k, ClientOps.dispatch s c request now = Done (s', Client.set_processing c (Some k)) ∧
    Cookie.token k = Client.token c mod 2 ^ 16 ∧
    Server.waiting_clients s' = Server.waiting_clients s ∧
    Server.awaking_clients s' = Server.awaking_clients s ∧ Server.event_loop s' = Server.event_loop s.
Proof.
  intros Hp Ht. unfold ClientOps.dispatch. rewrite bool_decide_true by done. cbn. eexists _, _.
  split; [unfold Server.clock_ms; reflexivity|]. split; [|by destruct (_ =? 0)].
  apply Cookie.token_new; [done|]. by apply Z.mod_pos_bound.
Qed.

End handler.
