(* ===== verification/HandlerProps.v ===== *)
(** * The handlers keep the invariant

    The tick, the removal of a client, sockets and timers: none of them
    panics when the invariant of [Handler.v] holds and the client concerned
    has not been woken, but for what a client sends that outgrows its buffer
    or announces an array too large to allocate. *)
From S2P Require Import Prelude.
From S2P Require Import Offsets.
From S2P Require Import Text.
From S2P Require Import Segments.
From S2P Require Import Wire.
From S2P Require Import WireFacts.
From S2P Require Import WireProps.
From S2P Require Import Commands.
From S2P Require Import Server.
From S2P Require Import Handler.

Section props.
Context `{Profile} {T E Tm : Type} `{TendrilOk T} `{!EqDecision Tm} `{EventLoopOk E Tm}.
Variable value_size : Z.
Implicit Types (s : Server.t T E) (c : Client.t T Tm) (h : ServerHandler.t T E Tm).

Definition clients_ok (cl : gmap Z (Client.t T Tm)) : Prop := ∀ t c, cl !! t = Some c → client_ok t c.

(** After an event, before the tick. *)
Definition event_inv h : Prop :=
  server_ok (ServerHandler.clients h) (ServerHandler.server h) ∧ clients_ok (ServerHandler.clients h).

(** Between two iterations. *)
Definition handler_inv h : Prop := event_inv h ∧ Server.awaking_clients (ServerHandler.server h) = [].

Lemma clients_ok_insert cl t c : clients_ok cl → client_ok t c → clients_ok (<[t := c]> cl).
Proof.
  intros Hcl Hc t' c'. destruct (decide (t = t')) as [<-|Hne]; [rewrite lookup_insert_eq; by intros [= <-]|].
  rewrite lookup_insert_ne by done. apply Hcl.
Qed.

Lemma clients_ok_delete cl t : clients_ok cl → clients_ok (delete t cl).
Proof. intros Hcl t' c' [_ Hc]%lookup_delete_Some. by apply Hcl. Qed.

(** ** The tick *)

Lemma retry_all_ok h awaking now :
  registry (waits (ServerHandler.clients h)) (ent (ServerHandler.server h)) awaking.*1 (live (ServerHandler.server h)) →
  clients_ok (ServerHandler.clients h) → Server.awaking_clients (ServerHandler.server h) = [] →
  ∃ h', ServerHandler.retry_all h awaking now = Done h' ∧ handler_inv h'.
Proof.
  revert h. induction awaking as [|[t request] awaking IH]; intros [s cl] Hr Hcl Ha; cbn [ServerHandler.retry_all].
  { exists (ServerHandler.mk s cl). split; [done|]. split; [split|done]; [|done]. unfold server_ok, aw. by rewrite Ha. }
  cbn [ServerHandler.clients ServerHandler.server] in *.
  destruct (rg_awaking _ _ _ _ Hr t) as [[[tm q] ch] Hw]; [left|].
  pose proof Hw as Hw'. unfold waits in Hw'. destruct (cl !! t) as [c|] eqn:Hc; [|done]. cbn in Hw'.
  destruct (Hcl t c Hc) as []. cbn [unwrap]. rewrite bind_Done. unfold ClientOps.retry. rewrite Hw'. cbn [unwrap].
  rewrite bind_Done. cbn [fst].
  destruct (clear_timeout_ok cl s _ t tm q ch Hr Hw) as (e & Hclear & Hdead & Hlive). rewrite Hclear, bind_Done.
  assert (Client.processing c = None) as Hp by (destruct co_excl as [?|Hx]; [done|congruence]).
  destruct (dispatch_ok (Server.set_loop s e) (Client.set_timeout c None) request now) as (s2 & k & Hd & Hk & Hw2 & Ha2 & Hl2);
    [done|cbn; lia|]. rewrite Hd, !bind_Done. cbn in Hk, Hw2, Ha2, Hl2. rewrite co_token in Hk.
  pose proof (rg_nodup_awaking _ _ _ _ Hr) as [Hnt Hnd]%NoDup_cons.
  assert (t ∉ ent s q ch) as Hnl by (intros Hin; apply (rg_listed _ _ _ _ Hr) in Hin as [Hin _]; apply Hin; left).
  apply IH; cbn; [|apply clients_ok_insert; [done|]|by rewrite Ha2].
  - assert (awaking.*1 = filter (λ t', t' ≠ t) (((t, request) :: awaking).*1)) as ->.
    { change (((t, request) :: awaking).*1) with (t :: awaking.*1). rewrite filter_cons_False by tauto. by rewrite filter_absent. }
    eapply registry_stop; [exact Hr|exact Hw|..].
    + rewrite waits_insert. by rewrite decide_True.
    + intros t' Hne. rewrite waits_insert. by rewrite decide_False.
    + rewrite filter_absent by done. unfold ent, list_of. by rewrite Hw2.
    + intros q' ch' _. unfold ent, list_of. by rewrite Hw2.
    + unfold live. by rewrite Hl2.
    + intros tm' Hne. unfold live. rewrite Hl2. by apply Hlive.
  - constructor; cbn; try done.
    + by right.
    + intros Hrd. destruct (co_interest Hrd) as (_ & _ & ?). congruence.
    + intros Hwr. destruct (co_writable Hwr). congruence.
    + intros _. apply co_empty. right; right. by rewrite Hw'.
    + intros k' [= <-]. rewrite Hk. apply Z.mod_small. lia.
    + right; right; left. by eexists.
Qed.

Lemma tick_ok h now : event_inv h → ∃ h', ServerHandler.tick h now = Done h' ∧ handler_inv h'.
Proof.
  intros [Hr Hcl]. unfold ServerHandler.tick.
  destruct (retry_all_ok (ServerHandler.mk (Server.set_awaking (ServerHandler.server h) []) (ServerHandler.clients h))
    (Server.awaking_clients (ServerHandler.server h)) now) as ([s cl] & Hd & Hinv); [exact Hr|done|done|].
  rewrite Hd, bind_Done. eexists. split; [reflexivity|]. exact Hinv.
Qed.

(** ** Removing a client *)

Lemma waits_lookup cl t c : cl !! t = Some c → waits (Tm:=Tm) (T:=T) cl t = Client.timeout c.
Proof. unfold waits. by intros ->. Qed.

Lemma remove_client_ok s cl t c :
  server_ok cl s → clients_ok (delete t cl) → t ∉ aw s →
  cl !! t = Some c → Client.token c = t →
  ∃ h', ServerHandler.remove_client (ServerHandler.mk s cl) t = Done h' ∧ event_inv h'.
Proof.
  intros Hr Hcl Ha Hc Htok. unfold ServerHandler.remove_client. cbn. rewrite Hc. cbn [unwrap].
  rewrite bind_Done. unfold Server.notify_client_gone. destruct (Client.timeout c) as [[[tm q] ch]|] eqn:Ht.
  - assert (waits cl t = Some (tm, q, ch)) as Hw by by rewrite (waits_lookup _ _ _ Hc).
    destruct (clear_timeout_ok cl s _ t tm q ch Hr Hw) as (e & Hclear & Hdead & Hlive). rewrite Hclear, bind_Done.
    rewrite Htok.
    assert (Server.retain (Server.set_loop s e) q ch t = (s' ← Server.retain s q ch t; mret (Server.set_loop s' e))) as ->.
    { unfold Server.retain. cbn. destruct (Server.waiting_clients s !! q) as [w|]; [|done]. cbn.
      by destruct (w_channels w !! ch). }
    destruct (retain_ok cl s t tm q ch Hr) as (s2 & Hret & Ha2 & Hl2 & _ & _ & He2 & Ho2); [done|done|].
    rewrite Hret, !bind_Done. eexists. split; [reflexivity|]. split; [|done].
    eapply (server_ok_stop cl _ s _ t tm q ch Hr Hw); cbn.
    + by rewrite waits_delete, decide_True.
    + intros t' Hne. by rewrite waits_delete, decide_False.
    + exact He2.
    + exact Ho2.
    + etrans; [exact Ha2|]. symmetry. by apply filter_absent.
    + exact Hdead.
    + exact Hlive.
  - rewrite bind_Done. eexists. split; [reflexivity|]. split; [|done]. by eapply server_ok_delete.
Qed.

(** The handler puts back a client that waits for the same as before. *)
Lemma finish_ok s cl t c s' c' (ok : bool) :
  server_ok cl s → clients_ok cl → (ok = false → t ∉ aw s) → cl !! t = Some c →
  Server.waiting_clients s' = Server.waiting_clients s → Server.awaking_clients s' = Server.awaking_clients s →
  Server.event_loop s' = Server.event_loop s →
  (ok = true → client_ok t c') → Client.token c' = t → Client.timeout c' = Client.timeout c →
  ∃ h', (if ok then mret (ServerHandler.mk s' (<[t := c']> cl))
         else ServerHandler.remove_client (ServerHandler.mk s' (<[t := c']> cl)) t) = Done h' ∧ event_inv h'.
Proof.
  intros Hr Hcl Ha Hc Hw' Ha' Hl' Hok Htok Ht.
  assert (server_ok (<[t := c']> cl) s') as Hr'.
  { eapply server_ok_same; [by eapply (server_ok_client cl s t c c')|..].
    - intros q ch. unfold ent, list_of. by rewrite Hw'.
    - unfold aw. by rewrite Ha'.
    - intros tm. unfold live. by rewrite Hl'. }
  destruct ok.
  - eexists. split; [reflexivity|]. split; [done|]. apply clients_ok_insert; auto.
  - eapply remove_client_ok; [done| |unfold aw; rewrite Ha'; by apply Ha|apply lookup_insert_eq|done].
    rewrite delete_insert_eq. by apply clients_ok_delete.
Qed.

(** ** Timeouts *)

Lemma waiting_connected t c : client_ok t c → Client.processing c = None → Client.hup c = false.
Proof.
  intros Hc Hp. destruct (Client.hup c) eqn:Hh; [|done]. destruct (co_hup _ _ Hc Hh) as [? ?]. congruence.
Qed.

Lemma timeout_ok s cl tm msg :
  server_ok cl s → clients_ok cl → live s tm = Some msg → tm_token msg ∉ aw s →
  ∃ h', ServerHandler.timeout (ServerHandler.mk (Server.set_loop s (el_fire tm (Server.event_loop s))) cl) msg = Done h' ∧
    event_inv h'.
Proof.
  intros Hr Hcl Hlive Ha. destruct msg as [t q ch]. cbn in Ha. pose proof (rg_live _ _ _ _ Hr _ _ _ _ Hlive) as Hw.
  pose proof Hw as Hw'. unfold waits in Hw'. destruct (cl !! t) as [c|] eqn:Hc; [|done]. cbn in Hw'.
  pose proof (Hcl t c Hc) as Hco. unfold ServerHandler.timeout. cbn [tm_token tm_queue tm_channel ServerHandler.clients].
  rewrite Hc. unfold ServerHandler.finish, ClientOps.timeout.
  assert (Client.processing c = None) as Hp by (destruct (co_excl _ _ Hco); [done|congruence]).
  rewrite (bool_decide_true (Client.processing c = None)) by done.
  rewrite (bool_decide_true (is_Some (Client.timeout c))) by by rewrite Hw'. cbn [assert mbind outcome_bind].
  destruct (el_fire_live tm (Server.event_loop s)) as [Hdead Hothers].
  set (e := el_fire tm (Server.event_loop s)) in *. cbn [ServerHandler.server]. unfold Server.notify_timeout.
  rewrite (co_token _ _ Hco).
  assert (Server.retain (Server.set_loop s e) q ch t = (s' ← Server.retain s q ch t; mret (Server.set_loop s' e))) as ->.
  { unfold Server.retain. cbn. destruct (Server.waiting_clients s !! q) as [w|]; [|done]. cbn.
    by destruct (w_channels w !! ch). }
  destruct (retain_ok cl s t tm q ch Hr) as (s2 & Hret & Ha2 & Hl2 & _ & _ & He2 & Ho2); [done|done|].
  rewrite Hret. cbn [mbind outcome_bind].
  destruct (send_response_ok t c (Client.set_timeout c None) Value.Nil Hco) as (c2 & Hsend & Hc2 & _ & Ht2 & Hp2).
  { apply sendable_nil. }
  { apply (co_empty _ _ Hco). right; right. by rewrite Hw'. }
  { by apply (waiting_connected t). }
  { destruct c. cbn in *. by rewrite Hp. }
  unfold mret at 1, outcome_ret. cbn [mbind outcome_bind]. rewrite Hsend. cbn. eexists. split; [reflexivity|].
  split; [|by apply clients_ok_insert]. eapply (server_ok_stop cl _ s _ t tm q ch Hr Hw); cbn.
  + by rewrite waits_insert, decide_True.
  + intros t' Hne. by rewrite waits_insert, decide_False.
  + exact He2.
  + exact Ho2.
  + etrans; [exact Ha2|]. symmetry. by apply filter_absent.
  + exact Hdead.
  + exact Hothers.
Qed.

(** ** Sockets *)

(** Each read fits the slice it was given. *)
Fixpoint reads_fit (b : RequestBuffer.t T) (reads : list (list Z)) : Prop :=
  match reads with
  | [] => True
  | bs :: reads => ∀ b1 slice, RequestBuffer.mut_bytes b = Done (b1, slice) →
      zlen bs ≤ zlen slice ∧ ∀ b', RequestBuffer.fill b bs = Done b' → reads_fit b' reads
  end.

(** A request that is not complete grows past what a [Tendril] can hold. *)
Fixpoint outgrows (b : RequestBuffer.t T) (reads : list (list Z)) : Prop :=
  match reads with
  | [] => False
  | bs :: reads => ∃ b1 slice, RequestBuffer.mut_bytes b = Done (b1, slice) ∧
      (2 ^ 32 ≤ td_len (RequestBuffer.body b1) ∨ ∃ b', RequestBuffer.fill b bs = Done b' ∧ outgrows b' reads)
  end.

(** What was received has an array header whose length [Parser] cannot
    allocate. *)
Definition announces (b : RequestBuffer.t T) : Prop :=
  huge value_size (td_subtendril 0 (RequestBuffer.bytes_read b) (RequestBuffer.body b)).

(** The socket accepts at most what it is offered. *)
Fixpoint writes_ok (b : ResponseBuffer.t) (writes : list Z) : Prop :=
  match writes with
  | [] => True
  | n :: writes => ∀ out, ResponseBuffer.bytes b = Done out →
      0 ≤ n ≤ zlen out ∧ ∀ b', ResponseBuffer.advance b n = Done b' → writes_ok b' writes
  end.

Lemma pop_value_cases b :
  request_ok b →
  (∃ b' r, RequestBuffer.pop_value value_size b = Done (b', r) ∧ request_ok b') ∨
  RequestBuffer.pop_value value_size b = Panic ∧ announces b.
Proof.
  intros Hb. unfold RequestBuffer.pop_value, Parser.parse_body, announces.
  pose proof (parse_consumes value_size (S (length (td_bytes (td_subtendril 0 (RequestBuffer.bytes_read b) (RequestBuffer.body b)))))
    _ (sub_sized b Hb)) as Hc.
  destruct (Parser.parse _ _ _) as [[[v rest]|e]| |]; cbn; [left|left; by eexists _, _|by right|done].
  eexists _, _. split; [reflexivity|]. destruct Hc as (l & _ & Hl). apply popped_ok.
  apply (sized_part _ _ _ _ Hl eq_refl). by apply sub_sized.
Qed.

Lemma fill_request_cases b reads :
  request_ok b → reads_fit b reads →
  (∃ b', ClientOps.fill_request b reads = Done b' ∧ request_ok b') ∨ outgrows b reads.
Proof.
  revert b. induction reads as [|bs reads IH]; intros b Hb Hreads; cbn in *; [left; by exists b|].
  destruct (mut_bytes_ok b Hb) as (b1 & slice & Hm & _). destruct (Hreads b1 slice Hm) as (Hl & Hrest).
  destruct (Z.lt_ge_cases (td_len (RequestBuffer.body b1)) (2 ^ 32)) as [Hs|Hs]; [|right; exists b1, slice; auto].
  destruct (fill_ok b b1 slice bs Hb Hm Hl Hs) as (b' & Hf & Hb' & _). rewrite Hf, bind_Done.
  destruct (IH b' Hb' (Hrest b' Hf)) as [?|?]; [by left|right]. exists b1, slice. split; [done|]. right. by exists b'.
Qed.

Lemma advance_response_inv b n :
  response_inv b → 0 ≤ n ≤ zlen (outstanding b) → ∃ b', ResponseBuffer.advance b n = Done b' ∧ response_inv b'.
Proof.
  intros (Hok & He & Hl) Hn. destruct (advance_ok b n Hok Hn Hl) as (b' & Ha & Hok' & _ & Hl').
  exists b'. split; [done|]. split; [done|]. split; [|lia].
  unfold ResponseBuffer.advance in Ha. apply bind_Done_iff in Ha as (w & _ & [= <-]).
  destruct (Z.eqb_spec w (zlen (ResponseBuffer.body b))); [done|]. cbn. intros ->. done.
Qed.

Lemma drain_response_ok b writes :
  response_inv b → writes_ok b writes → ∃ b', ClientOps.drain_response b writes = Done b' ∧ response_inv b'.
Proof.
  revert b. induction writes as [|n writes IH]; intros b Hb Hw; cbn in *; rewrite (bytes_ok b (proj1 Hb)), bind_Done.
  { by exists b. }
  destruct (Hw _ (bytes_ok b (proj1 Hb))) as (Hn & Hrest). destruct (Z.eqb_spec n 0); [by exists b|].
  destruct (advance_response_inv b n Hb Hn) as (b' & Ha & Hb'). rewrite Ha, bind_Done. apply IH; auto.
Qed.

Lemma remaining_inv b :
  response_inv b → ∃ n, ResponseBuffer.remaining b = Done n ∧ (n = 0 → ResponseBuffer.body b = []).
Proof.
  intros (Hok & He & Hl). unfold response_ok in Hok. unfold ResponseBuffer.remaining. mint.
  eexists. split; [reflexivity|]. intros Hz. apply He. lia.
Qed.

Lemma client_ok_request t c b : client_ok t c → request_ok b → client_ok t (Client.set_request c b).
Proof. intros [] Hb. by constructor. Qed.

(** [Client::ready] reads: it is not told that the connection is closed. *)
Definition takes_input (events : EventSet) : Prop := (hup events || error events) = false ∧ readable events = true.

(** A request that parses is dispatched; one that does not is waited for or
    closes the connection. *)
Lemma try_parse_ok s t c b r now :
  client_ok t c → readable (Client.interest c) = true → Client.hup c = false →
  RequestBuffer.pop_value value_size (Client.request c) = Done (b, r) → request_ok b →
  ∃ s' c' ok, ClientOps.try_parse_request value_size s c now = Done (s', c', ok) ∧ client_ok t c' ∧
    Client.timeout c' = None ∧ Server.waiting_clients s' = Server.waiting_clients s ∧
    Server.awaking_clients s' = Server.awaking_clients s ∧ Server.event_loop s' = Server.event_loop s.
Proof.
  intros Hc Hrd Hhup Hb Hbok. destruct (co_interest _ _ Hc Hrd) as (Hwr & Hp & Ht).
  unfold ClientOps.try_parse_request. rewrite Hb, bind_Done.
  pose proof (client_ok_request t c b Hc Hbok) as Hc'.
  destruct r as [v|[|msg]]; [|by eexists _, _, _..].
  destruct (Server.clock_ms s now) as [s1 ms] eqn:Hclk.
  assert (Server.waiting_clients s1 = Server.waiting_clients s ∧ Server.awaking_clients s1 = Server.awaking_clients s ∧
    Server.event_loop s1 = Server.event_loop s) as (W1 & A1 & L1).
  { unfold Server.clock_ms in Hclk. injection Hclk as <- _. by destruct (_ =? 0). }
  set (c2 := Client.set_interest (Client.set_clock (Client.set_request c b) ms) (no_writable (no_readable ev_all))).
  destruct (dispatch_ok s1 c2 v now) as (s2 & k & Hd & Hk & W2 & A2 & L2); [done|cbn; rewrite (co_token _ _ Hc); pose proof (co_range _ _ Hc); lia|].
  rewrite Hd, bind_Done. eexists _, _, _. split; [reflexivity|].
  split; [|by rewrite W2, A2, L2]. cbn in Hk. rewrite (co_token _ _ Hc) in Hk. destruct Hc'.
  constructor; cbn in *; try done.
  - by right.
  - intros _. apply co_empty. by left.
  - intros k' [= <-]. rewrite Hk. apply Z.mod_small. lia.
  - right; right; left. by eexists.
Qed.

Lemma ready_cases s cl t c events reads writes now :
  server_ok cl s → clients_ok cl → cl !! t = Some c → Client.hup c = false →
  (hup events || error events = true → t ∉ aw s) →
  (readable events = true → readable (Client.interest c) = true ∧ reads_fit (Client.request c) reads) →
  (writable events = true → writable (Client.interest c) = true ∧ writes_ok (Client.response c) writes) →
  let r := ServerHandler.ready value_size (ServerHandler.mk s cl) t events reads writes now in
  (∃ h', r = Done h' ∧ event_inv h') ∨
  takes_input events ∧ (outgrows (Client.request c) reads ∨ r = Panic ∧
    ∃ b, ClientOps.fill_request (Client.request c) reads = Done b ∧ announces b).
Proof.
  intros Hr Hcl Hc Hhup Ha Hrd Hwr r. pose proof (Hcl t c Hc) as Hco. subst r. unfold ServerHandler.ready, takes_input.
  cbn [ServerHandler.clients ServerHandler.server]. rewrite Hc. unfold ServerHandler.finish, ClientOps.ready.
  assert (Client.timeout c = None → t ∉ aw s) as Hidle.
  { intros Ht [x Hw]%(rg_awaking _ _ _ _ Hr). rewrite (waits_lookup _ _ _ Hc) in Hw. congruence. }
  destruct (hup events || error events).
  { left. rewrite bind_Done. eapply (finish_ok s cl t c s (Client.set_hup c true)); try done; [intros _; by apply Ha| |apply (co_token _ _ Hco)].
    intros Hp%bool_decide_eq_true. destruct Hco. by constructor. }
  destruct (readable events) eqn:Er.
  - destruct (Hrd eq_refl) as [Hri Hreads].
    destruct (co_interest _ _ Hco Hri) as (Hwi & Hp & Ht).
    destruct (writable events) eqn:Ew; [destruct (Hwr eq_refl); congruence|].
    destruct (fill_request_cases _ _ (co_request _ _ Hco) Hreads) as [(b & Hf & Hbok)|?]; [|by right; auto]. rewrite Hf, bind_Done.
    destruct (pop_value_cases b Hbok) as [(b' & r & Hpop & Hb')|[Hpop Han]].
    2: { right. split; [done|]. right. unfold ClientOps.try_parse_request. cbn [Client.set_request Client.request].
      rewrite Hpop. split; [done|]. by exists b. }
    left. destruct (try_parse_ok s t (Client.set_request c b) b' r now (client_ok_request t c b Hco Hbok) Hri Hhup Hpop Hb')
      as (s' & c' & ok & Hparse & Hc' & Ht' & W & A & L). rewrite Hparse, bind_Done.
    unfold mret, outcome_ret. destruct ok; cbn [negb mbind outcome_bind];
      [apply (finish_ok s cl t c s' c' true)|apply (finish_ok s cl t c s' c' false)];
      try done; try (by rewrite Ht'); try apply (co_token _ _ Hc'); intros _; by apply Hidle.
  - left. unfold mret, outcome_ret. cbn [negb mbind outcome_bind]. destruct (writable events) eqn:Ew.
    + destruct (Hwr eq_refl) as [Hwi Hwrites]. destruct (co_writable _ _ Hco Hwi) as [Hp Ht].
      destruct (drain_response_ok _ _ (co_response _ _ Hco) Hwrites) as (b & Hd & Hb). rewrite Hd.
      destruct (remaining_inv b Hb) as (n & Hn & Hempty). cbn [mbind outcome_bind]. rewrite Hn. cbn [mbind outcome_bind].
      assert (readable (Client.interest c) = false) as Hri.
      { destruct (readable (Client.interest c)) eqn:E0; [|done]. destruct (co_interest _ _ Hco E0). congruence. }
      assert (client_ok t (if n =? 0 then Client.set_interest (Client.set_response c b) (no_writable ev_all)
        else Client.set_response c b)) as Hc'.
      { destruct Hco. destruct (Z.eqb_spec n 0) as [Hz|_]; constructor; cbn; rewrite ?Hp, ?Ht, ?Hri; try done; auto.
        - intros Hh. by rewrite Hhup in Hh.
        - intros [?|[[? ?]|[? ?]]]; done.
        - intros Hh. by rewrite Hhup in Hh. }
      apply (finish_ok s cl t c s _ true); try done; [apply (co_token _ _ Hc')|by destruct (n =? 0)].
    + cbn [mbind outcome_bind]. apply (finish_ok s cl t c s c true); try done. apply (co_token _ _ Hco).
Qed.

End props.
