(* ===== verification/Counters.v ===== *)
(** * The counters of [INFO]

    [Server::info] adds up the waiting clients with checked [u32] additions.
    The listed clients are different ones and their tokens fit [u16], so no
    addition overflows. *)
From S2P Require Import Prelude.
From S2P Require Import Offsets.
From S2P Require Import Wire.
From S2P Require Import Commands.
From S2P Require Import Server.
From S2P Require Import Handler.
From S2P Require Import HandlerProps.

Section counters.
Context `{Profile} {T E Tm : Type} `{TendrilOk T} `{!EqDecision Tm} `{EventLoopOk E Tm}.
Implicit Types (s : Server.t T E) (c : Client.t T Tm) (cl : gmap Z (Client.t T Tm)).

Fixpoint total (l : list Z) : Z := match l with [] => 0 | n :: l => n + total l end.

Lemma total_nonneg l : Forall (λ n, 0 ≤ n) l → 0 ≤ total l.
Proof. induction 1; cbn; lia. Qed.

(** A chain of checked additions whose total fits. *)
Lemma fold_u32 {A} (f : A → outcome Z) (g : A → Z) l a :
  0 ≤ a → (∀ x, x ∈ l → f x = Done (g x) ∧ 0 ≤ g x) → a + total (g <$> l) < 2 ^ 32 →
  foldl (λ acc x, acc ← acc; n ← f x; u32 (acc + n)) (mret a) l = Done (a + total (g <$> l)).
Proof.
  revert a. induction l as [|x l IH]; intros a Ha Hf Hs; cbn in *; [by rewrite Z.add_0_r|].
  destruct (Hf x) as [-> Hg]; [left|]. assert (0 ≤ total (g <$> l)) as Hn.
  { apply total_nonneg, Forall_fmap, Forall_forall. intros y Hy. apply Hf. by right. }
  unfold mret, outcome_ret. rewrite !bind_Done, u32_in by (unfold in_u32; lia).
  etrans; [apply (IH (a + g x)); [lia|intros y Hy; apply Hf; by right|lia]|]. f_equal. lia.
Qed.

(** The tokens of a queue's waiting clients. *)
Definition waiting_tokens (w : WaitingClients T) : list Z := (concat (snd <$> map_to_list (w_channels w))).*1.
Definition all_tokens s : list Z := concat ((λ e, waiting_tokens e.2) <$> map_to_list (Server.waiting_clients s)).

Lemma waiting_tokens_listed cl s q w t :
  server_ok cl s → Server.waiting_clients s !! q = Some w →
  NoDup (waiting_tokens w) ∧ (t ∈ waiting_tokens w → ∃ tm ch, waits cl t = Some (tm, q, ch)).
Proof.
  intros Hr Hw. destruct (wake_all_nodup cl s q w id Hr Hw) as [Hnd Hin]; [done|].
  unfold waiting_tokens. split; [exact Hnd|]. intros (ch & l & Hch & Ht)%Hin.
  destruct (rg_listed _ _ _ _ Hr t q ch) as (_ & tm & Htm); [|by exists tm, ch].
  rewrite (ent_list s q w ch Hw), Hch. exact Ht.
Qed.

Lemma all_tokens_few cl s : server_ok cl s → clients_ok cl → zlen (all_tokens s) < 2 ^ 16.
Proof.
  intros Hr Hcl.
  assert (NoDup (all_tokens s)) as Hnd.
  { assert (all_tokens s = concat ((λ e, (e.1, waiting_tokens e.2)) <$> map_to_list (Server.waiting_clients s)).*2) as ->.
    { unfold all_tokens. by rewrite <-list_fmap_compose. }
    apply NoDup_concat_keyed.
    - rewrite <-list_fmap_compose. apply NoDup_fst_map_to_list.
    - intros q l ([q' w] & [= -> ->] & Hw%elem_of_map_to_list)%list_elem_of_fmap.
      by destruct (waiting_tokens_listed cl s q' w 0 Hr Hw).
    - intros q q' l l' t ([q1 w] & [= -> ->] & Hw%elem_of_map_to_list)%list_elem_of_fmap
        ([q2 w'] & [= -> ->] & Hw'%elem_of_map_to_list)%list_elem_of_fmap Ht Ht'. cbn in *.
      destruct (proj2 (waiting_tokens_listed cl s q1 w t Hr Hw) Ht) as (tm & ch & E1).
      destruct (proj2 (waiting_tokens_listed cl s q2 w' t Hr Hw') Ht') as (tm' & ch' & E2). congruence. }
  assert (all_tokens s ⊆+ seqZ 1 (2 ^ 16 - 1)) as Hsub.
  { apply NoDup_submseteq; [done|]. intros t (l & ([q w] & -> & Hw%elem_of_map_to_list)%list_elem_of_fmap & Ht)%elem_of_concat.
    destruct (proj2 (waiting_tokens_listed cl s q w t Hr Hw) Ht) as (tm & ch & Hwt). unfold waits in Hwt.
    destruct (cl !! t) as [c|] eqn:Hc; [|done]. pose proof (co_range _ _ (Hcl _ _ Hc)). apply elem_of_seqZ. lia. }
  apply submseteq_length in Hsub. rewrite length_seqZ in Hsub. unfold zlen. lia.
Qed.

Lemma total_lengths {A} (ls : list (list A)) : total (zlen <$> ls) = zlen (concat ls).
Proof. induction ls as [|l ls IH]; cbn; [done|]. by rewrite IH, zlen_app. Qed.

Lemma zlen_concat_part {A} (l : list A) ls : l ∈ ls → zlen l ≤ zlen (concat ls).
Proof.
  induction ls as [|k ls IH]; cbn; [by intros ?%elem_of_nil|]. pose proof (zlen_nonneg k). pose proof (zlen_nonneg (concat ls)).
  rewrite zlen_app. intros [->|Hin]%elem_of_cons; [lia|]. specialize (IH Hin). lia.
Qed.

(** One queue's counter. *)
Lemma sum_u32_tokens (w : WaitingClients T) :
  zlen (waiting_tokens w) < 2 ^ 32 →
  Server.sum_u32 ((λ e, as_u32 (zlen e.2)) <$> map_to_list (w_channels w)) = Done (zlen (waiting_tokens w)).
Proof.
  intros Hw. assert (zlen (waiting_tokens w) = total (zlen <$> (snd <$> map_to_list (w_channels w)))) as Heq.
  { rewrite total_lengths. unfold waiting_tokens, zlen. by rewrite length_fmap. }
  assert ((λ e, as_u32 (zlen e.2)) <$> map_to_list (w_channels w) = zlen <$> (snd <$> map_to_list (w_channels w))) as ->.
  { rewrite <-list_fmap_compose. apply list_fmap_ext. intros i e Hi. apply as_u32_in. pose proof (zlen_nonneg e.2).
    split; [done|]. cbn. rewrite Heq, total_lengths in Hw. eapply Z.le_lt_trans; [|exact Hw]. apply zlen_concat_part.
    apply list_elem_of_fmap_2. by eapply list_elem_of_lookup_2. }
  unfold Server.sum_u32. rewrite Heq. etrans; [apply (fold_u32 Done id); [done| |]|].
  - intros x (y & -> & _)%list_elem_of_fmap. split; [done|]. apply zlen_nonneg.
  - rewrite list_fmap_id. lia.
  - by rewrite list_fmap_id.
Qed.

(** The counters of [INFO] do not overflow. *)
Lemma info_ok cl s clients queue_count now_s :
  server_ok cl s → clients_ok cl → ∃ i, Server.info s clients queue_count now_s = Done i.
Proof.
  intros Hr Hcl. pose proof (all_tokens_few cl s Hr Hcl) as Hfew. unfold Server.info.
  assert (zlen (all_tokens s) = total ((λ w, zlen (waiting_tokens w)) <$> (map_to_list (Server.waiting_clients s)).*2)) as Heq.
  { unfold all_tokens. rewrite <-total_lengths, <-!list_fmap_compose. done. }
  match goal with |- ∃ i, (x ← ?m; _) = Done i => assert (∃ n, m = Done n) as [n ->]; [|by rewrite bind_Done; eexists] end.
  eexists. apply (fold_u32 _ (λ w, zlen (waiting_tokens w))); [done| |lia].
  intros w Hw. split; [|apply zlen_nonneg]. apply sum_u32_tokens.
  assert (zlen (waiting_tokens w) ≤ zlen (all_tokens s)); [|lia]. apply zlen_concat_part.
  apply list_elem_of_fmap in Hw as (e & -> & He). by apply (list_elem_of_fmap_2 (λ e, waiting_tokens e.2)).
Qed.

End counters.
