(* ===== verification/Iterations.v ===== *)
(** * The iterations of the event loop

    An iteration handles any number of events in any order and then ticks.
    Its invariant holds between iterations, and no assertion, [unwrap] or
    [unreachable!] of the handlers is hit, provided no timer fires for, and
    no hang-up arrives from, a client that an earlier event of the same
    iteration has woken. *)
From S2P Require Import Prelude.
From S2P Require Import Offsets.
From S2P Require Import Text.
From S2P Require Import Segments.
From S2P Require Import Wire.
From S2P Require Import WireFacts.
From S2P Require Import WireProps.
From S2P Require Import Commands.
From S2P Require Import Server.
From S2P Require Import Tables.
From S2P Require Import Handler.
From S2P Require Import HandlerProps.
From S2P Require Import Counters.

(** ** The messages for [SERVER] *)

Section messages.
Context `{Profile} {T E Tm : Type} `{TendrilOk T} `{!EqDecision Tm} `{EventLoopOk E Tm}.
Implicit Types (s : Server.t T E) (h : ServerHandler.t T E Tm).

Lemma config_set_ok cl s k v : server_ok (Tm:=Tm) cl s → server_ok cl (Server.config_set s k v).1.
Proof.
  intros Hr. unfold Server.config_set. destruct (queue_config_set _ k v); [|done].
  by eapply server_ok_same.
Qed.

(** A message that fits the table is handled and keeps the registry. *)
Lemma notify_server_ok h msg queue_count now_s tb :
  server_ok (ServerHandler.clients h) (ServerHandler.server h) →
  shape_step (table (ServerHandler.server h)) msg = Some tb → server_fits h msg queue_count now_s →
  ∃ s', ServerHandler.notify_server h msg queue_count now_s = Done (ServerHandler.mk s' (ServerHandler.clients h)) ∧
    table s' = tb ∧ server_ok (ServerHandler.clients h) s'.
Proof.
  intros Hr Hs Hf. destruct (notify_server_table h msg queue_count now_s tb Hs Hf) as (s' & Hd & Htb).
  exists s'. split; [done|]. split; [done|]. clear Hf Htb. destruct h as [s cl].
  cbn [ServerHandler.server ServerHandler.clients] in *.
  destruct msg as [| |q ch n| |q ch|q ch|q|q| |k v]; try done; cbn [shape_step] in Hs;
    unfold ServerHandler.notify_server in Hd; cbn [ServerHandler.server ServerHandler.clients] in Hd;
    apply bind_Done_iff in Hd as (s1 & Hd & [= <-]).
  - injection Hd as <-. by apply notify_channel_ok.
  - destruct (table s !! q) as [cs|] eqn:Hq; [|done]. destruct (table_Some _ _ _ Hq) as (w & Hw & ->).
    destruct (decide _) as [|Hc]; [done|]. apply not_elem_of_dom in Hc.
    by eapply (notify_channel_created_ok cl s q ch s1 w).
  - by eapply notify_channel_deleted_ok.
  - by eapply notify_queue_created_ok.
  - by eapply notify_queue_deleted_ok.
  - done.
  - injection Hd as <-. by apply config_set_ok.
Qed.

End messages.

(** ** Jobs and answers *)
Section jobs.
Context `{Profile} {T E Tm : Type} `{TendrilOk T} `{!EqDecision Tm} `{EventLoopOk E Tm}.
Variable value_size : Z.
Implicit Types (s : Server.t T E) (c : Client.t T Tm) (h : ServerHandler.t T E Tm) (cl : gmap Z (Client.t T Tm)).

(** What a handler does to a client besides its answer: it may hand over a
    request when none was being processed. *)
Record effect s c s' c' : Prop := {
  ef_table : table s' = table s;
  ef_token : Client.token c' = Client.token c;
  ef_jobs : Server.jobs s' = Server.jobs s ∧ Client.processing c' = Client.processing c ∨
    ∃ j, Server.jobs s' = Server.jobs s ++ [j] ∧ Client.processing c = None ∧
      Client.processing c' = Some (job_cookie j);
}.

Lemma effect_refl s c c' :
  Client.token c' = Client.token c → Client.processing c' = Client.processing c → effect s c s c'.
Proof. intros Ht Hp. constructor; auto. Qed.

Lemma effect_from s0 c0 s c s' c' :
  table s = table s0 → Server.jobs s = Server.jobs s0 → Client.token c = Client.token c0 →
  Client.processing c = Client.processing c0 → effect s c s' c' → effect s0 c0 s' c'.
Proof. intros Htb Hj Ht Hp [E1 E2 E3]. rewrite Hj, Hp in E3. constructor; [congruence|congruence|done]. Qed.

Lemma effect_to s c s1 c1 s' c' :
  table s' = table s1 → Server.jobs s' = Server.jobs s1 → Client.token c' = Client.token c1 →
  Client.processing c' = Client.processing c1 → effect s c s1 c1 → effect s c s' c'.
Proof. intros Htb Hj Ht Hp [E1 E2 E3]. constructor; [congruence|congruence|]. by rewrite Hj, Hp. Qed.

Lemma clock_same s now s' ms :
  Server.clock_ms s now = (s', ms) → table s' = table s ∧ Server.jobs s' = Server.jobs s.
Proof. unfold Server.clock_ms. intros [= <- _]. by destruct (_ =? 0). Qed.

Lemma dispatch_effect s c r now s' c' :
  ClientOps.dispatch s c r now = Done (s', c') → effect s c s' c'.
Proof.
  unfold ClientOps.dispatch. intros (u & Hp%assert_true_iff%bool_decide_eq_true & Hd)%bind_Done_iff.
  unfold Server.clock_ms in Hd. cbn in Hd. injection Hd as <- <-.
  constructor; [by destruct (_ =? 0)|done|]. right. eexists. cbn.
  split; [f_equal; by destruct (_ =? 0)|done].
Qed.

Lemma clear_timeout_same s tm s' :
  Server.clear_timeout s tm = Done s' → table s' = table s ∧ Server.jobs s' = Server.jobs s.
Proof.
  unfold Server.clear_timeout. destruct (el_clear_timeout tm _) as [b e].
  by intros (u & _ & [= <-])%bind_Done_iff.
Qed.

Lemma retry_effect s c r now s' c' : ClientOps.retry s c r now = Done (s', c') → effect s c s' c'.
Proof.
  intros (tm & _ & (s1 & [Htb Hj]%clear_timeout_same & Hd%dispatch_effect)%bind_Done_iff)%bind_Done_iff.
  by eapply effect_from; [..|exact Hd].
Qed.

Lemma try_parse_effect s c now s' c' ok :
  ClientOps.try_parse_request value_size s c now = Done (s', c', ok) →
  effect s c s' c' ∧ (ok = false → Client.processing c' = Client.processing c).
Proof.
  intros ([b [v|[|e]]] & _ & Hr)%bind_Done_iff.
  - destruct (Server.clock_ms s now) as [s1 ms] eqn:Hc. apply clock_same in Hc as [Htb Hj].
    apply bind_Done_iff in Hr as ([s2 c2] & Hd%dispatch_effect & [= <- <- <-]).
    split; [|done]. by eapply effect_from; [..|exact Hd].
  - injection Hr as <- <- <-. split; [by apply effect_refl|done].
  - injection Hr as <- <- <-. split; [by apply effect_refl|done].
Qed.

Lemma ready_effect s c events reads writes now s' c' ok :
  ClientOps.ready value_size s c events reads writes now = Done (s', c', ok) →
  effect s c s' c' ∧
  (ok = false → Client.processing c' = Client.processing c ∧ (Client.processing c = None ∨ readable events = true)).
Proof.
  unfold ClientOps.ready. destruct (hup events || error events).
  { intros [= <- <- <-]. split; [by apply effect_refl|]. intros Hp%bool_decide_eq_false. split; [done|].
    left. cbn in Hp. destruct (Client.processing c); [|done]. exfalso. apply Hp. by eexists. }
  intros ([[s1 c1] ok1] & Hr & Hk)%bind_Done_iff.
  assert (effect s c s1 c1 ∧ (ok1 = false → Client.processing c1 = Client.processing c ∧ readable events = true)) as [He Hf].
  { destruct (readable events); [|injection Hr as <- <- <-; split; [by apply effect_refl|done]].
    apply bind_Done_iff in Hr as (b & _ & [He Hf]%try_parse_effect). split; [by eapply effect_from; [..|exact He]|]. auto. }
  destruct ok1; cbn [negb] in Hk; [|injection Hk as <- <- <-; split; [done|]; intros _; destruct Hf; auto].
  apply bind_Done_iff in Hk as (c2 & Hw & [= <- <- <-]). split; [|done].
  assert (Client.token c2 = Client.token c1 ∧ Client.processing c2 = Client.processing c1) as [Ht Hp].
  { destruct (writable events); [|by injection Hw as <-].
    apply bind_Done_iff in Hw as (b & _ & (n & _ & [= <-])%bind_Done_iff). by destruct (n =? 0). }
  by eapply effect_to; [..|exact He].
Qed.

Lemma send_response_same c v c' :
  ClientOps.send_response c v = Done c' → Client.token c' = Client.token c ∧ Client.processing c' = Client.processing c.
Proof. by intros (b & _ & [= <-])%bind_Done_iff. Qed.

Lemma retain_jobs s q ch t s' : Server.retain s q ch t = Done s' → Server.jobs s' = Server.jobs s.
Proof. by intros (w & _ & (l & _ & [= <-])%bind_Done_iff)%bind_Done_iff. Qed.

Lemma timeout_effect s c q ch s' c' ok :
  ClientOps.timeout s c q ch = Done (s', c', ok) → effect s c s' c' ∧ ok = true.
Proof.
  intros (? & _ & (? & _ & (s1 & Hn & (c1 & [Ht Hp]%send_response_same & [= <- <- <-])%bind_Done_iff)%bind_Done_iff)%bind_Done_iff)%bind_Done_iff.
  split; [|done]. eapply effect_to; [by eapply retain_table|by eapply retain_jobs|exact Ht|exact Hp|by apply effect_refl].
Qed.

(** An answer that is taken frees its client. *)
Lemma notify_effect s c cookie msg now s' c' ok :
  ClientOps.notify s c cookie msg now = Done (s', c', ok) →
  table s' = table s ∧ Server.jobs s' = Server.jobs s ∧ Client.token c' = Client.token c ∧
  Client.processing c' = (if decide (Client.processing c = Some cookie) then None else Client.processing c) ∧
  (ok = false → Client.processing c' = None).
Proof.
  intros (u & _ & Hn)%bind_Done_iff. case_bool_decide as Hp.
  { injection Hn as <- <- <-. by rewrite decide_False by congruence. }
  rewrite decide_True by (destruct (decide (Client.processing c = Some cookie)); congruence).
  cbn zeta in Hn. change (Client.hup (Client.set_processing c None)) with (Client.hup c) in Hn.
  destruct (Client.hup c); [by injection Hn as <- <- <-|].
  destruct msg as [v|v q head| |r q ch head tmo| | | | | |]; try done.
  - by apply bind_Done_iff in Hn as (c1 & [Ht Hc]%send_response_same & [= <- <- <-]).
  - apply bind_Done_iff in Hn as (c1 & [Ht Hc]%send_response_same & [= <- <- <-]).
    rewrite notify_queue_table. split_and!; [done| |done..]. unfold Server.notify_queue.
    destruct (_ !! q); [|done]. by destruct (_ <? _).
  - apply bind_Done_iff in Hn as (d & _ & Hn). destruct (Server.clock_ms s now) as [s1 ms] eqn:Hc.
    apply clock_same in Hc as [Htb Hj]. destruct (_ <=? _).
    + by apply bind_Done_iff in Hn as (c1 & [Ht Hc]%send_response_same & [= <- <- <-]).
    + apply bind_Done_iff in Hn as ([tm e] & _ & [= <- <- <-]). rewrite wait_queue_table.
      split_and!; [exact Htb| |done..]. rewrite <-Hj. unfold Server.wait_queue.
      destruct (Server.waiting_clients _ !! q) as [w|]; [|done]. destruct (w_channels w !! ch); [|done]. by destruct (_ <=? _).
Qed.

End jobs.

(** ** The answers to clients *)
Section answers.
Context `{Profile} {T E Tm : Type} `{TendrilOk T} `{!EqDecision Tm} `{EventLoopOk E Tm}.
Implicit Types (s : Server.t T E) (c : Client.t T Tm) (h : ServerHandler.t T E Tm) (cl : gmap Z (Client.t T Tm)).

(** The messages that a client takes. *)
Definition is_answer (msg : NotifyMessage.t T) : Prop :=
  match msg with
  | NotifyMessage.Response _ | NotifyMessage.PutResponse _ _ _ | NotifyMessage.GetWouldBlock _ _ _ _ _ => True
  | _ => False
  end.

Definition answer_value (msg : NotifyMessage.t T) : option (Value.t T) :=
  match msg with NotifyMessage.Response v | NotifyMessage.PutResponse v _ _ => Some v | _ => None end.

(** No value is as long as the address space. *)
Definition answer_short (msg : NotifyMessage.t T) : Prop :=
  ∀ v out, answer_value msg = Some v → Value.serialize_to v [] = Done out → zlen out < 2 ^ 64.

(** An answer that [Client::notify] cannot deal with: it has a message that
    cannot be read from its segment, the deadline overflows [u64], or the
    event loop has no timer left for the time until the deadline. *)
Inductive unanswerable s c (now : Z) : NotifyMessage.t T → Prop :=
| unanswerable_message msg v m :
    answer_value msg = Some v → m ∈ messages v → ¬ legible m → unanswerable s c now msg
| unanswerable_deadline r q ch head timeout :
    ¬ in_u64 (Client.request_clock_ms c + timeout * 1000) →
    unanswerable s c now (NotifyMessage.GetWouldBlock r q ch head timeout)
| unanswerable_timer r q ch head timeout deadline :
    u64 (Client.request_clock_ms c + timeout * 1000) = Done deadline →
    el_timeout_ms (mkTimeout (Client.token c) q ch) (deadline - (Server.clock_ms s now).2) (Server.event_loop s) = None →
    unanswerable s c now (NotifyMessage.GetWouldBlock r q ch head timeout).

(** A request that blocks: the client waits, listed or awake at once. *)
Lemma block_ok s cl t c r q ch head ms tm e :
  server_ok cl s → clients_ok cl → cl !! t = Some c → is_Some (Client.processing c) → Client.hup c = false →
  el_timeout_ms (mkTimeout t q ch) ms (Server.event_loop s) = Some (tm, e) →
  event_inv (ServerHandler.mk (Server.wait_queue (Server.set_loop s e) r q ch t head)
    (<[t := Client.set_timeout (Client.set_processing c None) (Some (tm, q, ch))]> cl)).
Proof.
  intros Hr Hcl Hc Hp Hh He. pose proof (Hcl _ _ Hc) as Hco.
  destruct (el_timeout_ms_live _ _ _ _ _ He) as (Hdead & Hlive & Hothers).
  pose proof (wait_queue_ok (Server.set_loop s e) r q ch t head) as (Hlv & _ & Hent & Hcase). cbn zeta in *.
  assert (Client.timeout c = None) as Ht.
  { destruct (co_excl _ _ Hco) as [Hx|]; [|done]. rewrite Hx in Hp. by destruct Hp. }
  split; cbn [ServerHandler.server ServerHandler.clients].
  - unfold server_ok. rewrite Hlv. eapply registry_start; [exact Hr|..|exact Hent|exact Hcase|exact Hdead|exact Hlive|exact Hothers].
    + by rewrite (waits_lookup _ _ _ Hc).
    + by rewrite waits_insert, decide_True.
    + intros t' Hne. by rewrite waits_insert, decide_False.
  - apply clients_ok_insert; [done|]. destruct Hco. constructor; cbn; try done; auto.
    + intros Hrd. destruct (co_interest Hrd) as (_ & Hx & _). rewrite Hx in Hp. by destruct Hp.
    + intros Hwr. destruct (co_writable Hwr) as [Hx _]. rewrite Hx in Hp. by destruct Hp.
    + intros Hhup. by rewrite Hh in Hhup.
Qed.

Lemma answer_ok s s' cl t c v :
  server_ok cl s' → clients_ok cl → cl !! t = Some c → is_Some (Client.processing c) → Client.hup c = false →
  sendable v →
  ∃ c', ClientOps.send_response (Client.set_processing c None) v = Done c' ∧
    event_inv (ServerHandler.mk s' (<[t := c']> cl)).
Proof.
  intros Hr Hcl Hc Hp Hh Hv. pose proof (Hcl _ _ Hc) as Hco.
  assert (Client.timeout c = None) as Ht.
  { destruct (co_excl _ _ Hco) as [Hx|]; [|done]. rewrite Hx in Hp. by destruct Hp. }
  destruct (send_response_ok t c (Client.set_processing c None) v Hco Hv) as (c' & Hs & Hc' & _ & Ht' & _);
    [apply (co_empty _ _ Hco); auto|done|destruct c; cbn in *; by rewrite Ht|].
  exists c'. split; [done|]. split; cbn; [|by apply clients_ok_insert].
  eapply server_ok_client; [done..|]. by rewrite Ht, Ht'.
Qed.

Lemma sendable_cases s c now msg v :
  answer_short msg → answer_value msg = Some v →
  sendable v ∨ unanswerable s c now msg ∧ ∀ c0 c', ClientOps.send_response (Tm:=Tm) c0 v ≠ Done c'.
Proof.
  intros Hs Hv. destruct (Value.serialize_to v []) as [out| |] eqn:Ho; [left; exists out; by eauto|right..].
  all: split; [|intros c0 c' (out & Hout)%send_response_done; congruence].
  all: destruct (serialize_cases v) as [[out Hout]|(m & Hm & Hl)]; [congruence|by eapply unanswerable_message].
Qed.

Lemma clock_ms_ok cl s now s' ms :
  Server.clock_ms s now = (s', ms) → server_ok cl s →
  server_ok cl s' ∧ Server.event_loop s' = Server.event_loop s.
Proof.
  unfold Server.clock_ms. intros [= <- _] Hr. by destruct (_ =? 0).
Qed.

(** The answer for the request a client processes. *)
Lemma notify_cases s cl t c cookie msg now :
  server_ok cl s → clients_ok cl → cl !! t = Some c → Cookie.token cookie = t →
  Client.processing c = Some cookie → is_answer msg → answer_short msg →
  let r := ServerHandler.notify (ServerHandler.mk s cl) cookie msg now in
  (∃ h', r = Done h' ∧ event_inv h') ∨ unanswerable s c now msg ∧ ∀ h', r ≠ Done h'.
Proof.
  intros Hr Hcl Hc Hk Hp Hans Hshort r. subst r. pose proof (Hcl _ _ Hc) as Hco.
  assert (Client.timeout c = None) as Ht by (destruct (co_excl _ _ Hco); [congruence|done]).
  assert (t ∉ aw s) as Haw.
  { intros [x Hw]%(rg_awaking _ _ _ _ Hr). rewrite (waits_lookup _ _ _ Hc) in Hw. congruence. }
  unfold ServerHandler.notify. rewrite Hk. cbn [ServerHandler.clients ServerHandler.server]. rewrite Hc.
  unfold ServerHandler.finish, ClientOps.notify. rewrite (bool_decide_true (Client.timeout c = None)) by done.
  cbn [assert mbind outcome_bind]. rewrite bool_decide_false by (rewrite Hp; by intros []).
  cbn zeta. change (Client.hup (Client.set_processing c None)) with (Client.hup c).
  destruct (Client.hup c) eqn:Hh.
  { left. unfold mret, outcome_ret. cbn [mbind outcome_bind]. eapply remove_client_ok;
      [by eapply (server_ok_client cl s t c)| |exact Haw|apply lookup_insert_eq|apply (co_token _ _ Hco)].
    rewrite delete_insert_eq. by apply clients_ok_delete. }
  destruct msg as [v|v q head| |r q ch head tmo| | | | | |]; try done.
  - destruct (sendable_cases s c now _ v Hshort eq_refl) as [Hv|[Hu Hno]].
    2: { right. split; [done|]. destruct (ClientOps.send_response _ v) eqn:Hs; [by destruct (Hno _ _ Hs)|done..]. }
    left. destruct (answer_ok s s cl t c v) as (c' & Hs & Hinv); [done..| |done|done|]; [by rewrite Hp|].
    rewrite Hs. eexists. by split.
  - destruct (sendable_cases s c now _ v Hshort eq_refl) as [Hv|[Hu Hno]].
    2: { right. split; [done|]. destruct (ClientOps.send_response _ v) eqn:Hs; [by destruct (Hno _ _ Hs)|done..]. }
    left. destruct (answer_ok s (Server.notify_queue s q head) cl t c v) as (c' & Hs & Hinv);
      [by apply notify_queue_ok|done|done|by rewrite Hp|done..|]. rewrite Hs. eexists. by split.
  - change (Client.request_clock_ms (Client.set_processing c None)) with (Client.request_clock_ms c).
    destruct (u64 (Client.request_clock_ms c + tmo * 1000)) as [d| |] eqn:Hu.
    2-3: right; split; [apply unanswerable_deadline; intros Hin; by rewrite u64_in in Hu|done].
    cbn [mbind outcome_bind]. destruct (Server.clock_ms s now) as [s1 ms] eqn:Hclk.
    destruct (clock_ms_ok cl s now s1 ms Hclk Hr) as [Hr1 Hl1]. destruct (_ <=? ms).
    + left. destruct (answer_ok s1 s1 cl t c Value.Nil) as (c' & Hs & Hinv); [done..|by rewrite Hp|done|apply sendable_nil|].
      rewrite Hs. eexists. by split.
    + change (Client.token (Client.set_processing c None)) with (Client.token c). rewrite Hl1.
      destruct (el_timeout_ms (mkTimeout (Client.token c) q ch) (d - ms) (Server.event_loop s)) as [[tm e]|] eqn:Htm.
      2: { right. split; [eapply unanswerable_timer; [exact Hu|by rewrite Hclk]|done]. }
      left. cbn [unwrap mbind outcome_bind]. unfold mret, outcome_ret. cbn [mbind outcome_bind]. eexists. split; [reflexivity|].
      rewrite <-Hl1 in Htm.
      assert (Client.token (Client.set_timeout (Client.set_processing c None) (Some (tm, q, ch))) = t) as ->
        by apply (co_token _ _ Hco).
      rewrite (co_token _ _ Hco) in Htm. eapply block_ok; [done..|by rewrite Hp|done|exact Htm].
Qed.

(** A connection that is accepted. *)
Lemma accept_ok s cl t :
  server_ok cl s → clients_ok cl → cl !! t = None → 0 < t < 2 ^ 16 →
  event_inv (ServerHandler.mk s (<[t := Client.new t]> cl)).
Proof.
  intros Hr Hcl Hn Ht. split; cbn; [by apply server_ok_absent|]. apply clients_ok_insert; [done|].
  constructor; cbn; try done; auto.
  - apply (fed_ok 1 _ [] (fed_new 1)).
Qed.

End answers.

(** ** The invariant of the loop and what it is waiting for *)
Section loop.
Context `{Profile} {T E Tm : Type} `{TendrilOk T} `{!EqDecision Tm} `{EventLoopOk E Tm}.
Variable value_size : Z.
Implicit Types (s : Server.t T E) (c : Client.t T Tm) (h : ServerHandler.t T E Tm) (cl : gmap Z (Client.t T Tm))
  (ans : list Z) (tb : shape).

(** The cookies handed out and not answered: of the jobs that wait for a
    worker and of the answers [ans] under way. *)
Definition pending s ans : list Z := (job_cookie <$> Server.jobs s) ++ ans.

(** They are the cookies of the clients that are processing. *)
Definition jobs_inv cl s ans : Prop :=
  NoDup (pending s ans) ∧ ∀ k, k ∈ pending s ans ↔ ∃ t c, cl !! t = Some c ∧ Client.processing c = Some k.

Definition loop_inv h ans tb : Prop :=
  event_inv h ∧ jobs_inv (ServerHandler.clients h) (ServerHandler.server h) ans ∧ table (ServerHandler.server h) = tb.

(** Whose cookie changes, if any. *)
Lemma processing_insert cl t c c' k :
  cl !! t = Some c →
  (∃ t' d, <[t := c']> cl !! t' = Some d ∧ Client.processing d = Some k) ↔
  Client.processing c' = Some k ∨ ∃ t' d, t' ≠ t ∧ cl !! t' = Some d ∧ Client.processing d = Some k.
Proof.
  intros Hc. split.
  - intros (t' & d & Hd & Hp). destruct (decide (t' = t)) as [->|Hne].
    + rewrite lookup_insert_eq in Hd. injection Hd as ->. by left.
    + rewrite lookup_insert_ne in Hd by congruence. right. by exists t', d.
  - intros [Hp|(t' & d & Hne & Hd & Hp)]; [exists t, c'; by rewrite lookup_insert_eq|].
    exists t', d. by rewrite lookup_insert_ne by congruence.
Qed.

(** The tokens of the clients and of their cookies. *)
Definition tokens_ok cl : Prop := ∀ t c, cl !! t = Some c →
  Client.token c = t ∧ 0 < t < 2 ^ 16 ∧ ∀ k, Client.processing c = Some k → Cookie.token k = t.

Lemma clients_tokens cl : clients_ok cl → tokens_ok cl.
Proof. intros Hcl t c Hc. destruct (Hcl _ _ Hc). split_and!; [done|lia..|done]. Qed.

Lemma processing_unique cl t c t' c' k :
  tokens_ok cl → cl !! t = Some c → cl !! t' = Some c' →
  Client.processing c = Some k → Client.processing c' = Some k → t = t'.
Proof.
  intros Hcl Hc Hc' Hp Hp'. destruct (Hcl _ _ Hc) as (_ & _ & Ht), (Hcl _ _ Hc') as (_ & _ & Ht').
  by rewrite <-(Ht _ Hp), <-(Ht' _ Hp').
Qed.

(** Of a client whose cookie stays. *)
Lemma jobs_inv_same cl s s' t c c' ans :
  jobs_inv cl s ans → cl !! t = Some c → Client.processing c' = Client.processing c →
  Server.jobs s' = Server.jobs s → jobs_inv (<[t := c']> cl) s' ans.
Proof.
  intros [Hnd Hp] Hc Hpc Hj. unfold jobs_inv, pending in *. rewrite Hj. split; [done|]. intros k. rewrite Hp.
  rewrite (processing_insert cl t c c' k Hc), Hpc. split.
  - intros (t' & d & Hd & Hk). destruct (decide (t' = t)) as [->|]; [left; congruence|right; by exists t', d].
  - intros [Hk|(t' & d & _ & Hd & Hk)]; [by exists t, c|by exists t', d].
Qed.

Lemma jobs_inv_effect cl s s' t c c' ans :
  jobs_inv cl s ans → tokens_ok cl → cl !! t = Some c → effect s c s' c' →
  (∀ k, Client.processing c' = Some k → Cookie.token k = t) → jobs_inv (<[t := c']> cl) s' ans.
Proof.
  intros Hinv Hcl Hc [_ _ [[Hj Hp]|(j & Hj & Hp & Hp')]] Hk; [by eapply jobs_inv_same|].
  destruct Hinv as [Hnd Hpend]. unfold jobs_inv, pending in *. rewrite Hj, fmap_app.
  assert (∀ t' d, cl !! t' = Some d → Client.processing d ≠ Some (job_cookie j)) as Hnew.
  { intros t' d Hd Hx. destruct (Hcl _ _ Hd) as (_ & _ & Ht). rewrite <-(Ht _ Hx), (Hk _ Hp') in Hd. congruence. }
  assert (((job_cookie <$> Server.jobs s) ++ (job_cookie <$> [j])) ++ ans ≡ₚ
    job_cookie j :: (job_cookie <$> Server.jobs s) ++ ans) as Hperm by (cbn; solve_Permutation).
  rewrite Hperm. split.
  - apply NoDup_cons. split; [|done]. rewrite Hpend. intros (t' & d & Hd & Hx). by eapply Hnew.
  - intros k. rewrite Hperm, elem_of_cons, Hpend, (processing_insert cl t c c' k Hc), Hp'. split.
    + intros [->|(t' & d & Hd & Hx)]; [by left|]. right. exists t', d. split; [|done]. congruence.
    + intros [[= <-]|(t' & d & _ & Hd & Hx)]; [by left|]. right. by exists t', d.
Qed.

Lemma jobs_inv_delete cl s s' t ans :
  jobs_inv cl s ans → (∀ c, cl !! t = Some c → Client.processing c = None) → Server.jobs s' = Server.jobs s →
  jobs_inv (delete t cl) s' ans.
Proof.
  intros [Hnd Hpend] Hc Hj. unfold jobs_inv, pending in *. rewrite Hj. split; [done|]. intros k. rewrite Hpend. split.
  - intros (t' & d & Hd & Hk). exists t', d. split; [|done]. rewrite lookup_delete_ne; [done|]. intros <-.
    rewrite (Hc _ Hd) in Hk. done.
  - intros (t' & d & [_ Hd]%lookup_delete_Some & Hk). by exists t', d.
Qed.

Lemma jobs_inv_new cl s t c ans :
  jobs_inv cl s ans → cl !! t = None → Client.processing c = None → jobs_inv (<[t := c]> cl) s ans.
Proof.
  intros [Hnd Hpend] Hn Hp. split; [done|]. intros k. rewrite Hpend. split.
  - intros (t' & d & Hd & Hk). exists t', d. split; [|done]. rewrite lookup_insert_ne; [done|congruence].
  - intros (t' & d & Hd & Hk). destruct (decide (t = t')) as [<-|Hne].
    + rewrite lookup_insert_eq in Hd. congruence.
    + rewrite lookup_insert_ne in Hd by done. by exists t', d.
Qed.

(** An answer arrives at its client. *)
Lemma jobs_inv_answer cl s s' t c c' k l1 l2 :
  jobs_inv cl s (l1 ++ k :: l2) → tokens_ok cl → cl !! t = Some c → Client.processing c = Some k →
  Client.processing c' = None → Server.jobs s' = Server.jobs s → jobs_inv (<[t := c']> cl) s' (l1 ++ l2).
Proof.
  intros [Hnd Hpend] Hcl Hc Hk Hp Hj. unfold jobs_inv, pending in *. rewrite Hj.
  assert ((job_cookie <$> Server.jobs s) ++ l1 ++ k :: l2 ≡ₚ k :: (job_cookie <$> Server.jobs s) ++ l1 ++ l2) as Hperm
    by solve_Permutation.
  rewrite Hperm in Hnd. apply NoDup_cons in Hnd as [Hnk Hnd]. split; [done|]. intros k'.
  rewrite (processing_insert cl t c c' k' Hc), Hp. pose proof (Hpend k') as Hk'. rewrite Hperm, elem_of_cons in Hk'. split.
  - intros Hin. destruct (proj1 Hk' (or_intror Hin)) as (t' & d & Hd & Hx). right. exists t', d. split; [|done].
    intros ->. congruence.
  - intros [?|(t' & d & Hne & Hd & Hx)]; [done|]. destruct (proj2 Hk') as [->|]; [by exists t', d| |done].
    destruct Hne. by eapply processing_unique.
Qed.

(** A worker takes a job. *)
Lemma jobs_inv_work cl s l1 j l2 ans :
  Server.jobs s = l1 ++ j :: l2 → jobs_inv cl s ans →
  jobs_inv cl (Server.set_jobs s (l1 ++ l2)) (ans ++ [job_cookie j]).
Proof.
  intros Hj [Hnd Hpend]. assert (pending (Server.set_jobs s (l1 ++ l2)) (ans ++ [job_cookie j]) ≡ₚ pending s ans) as Hperm.
  { unfold pending. rewrite Hj. cbn. rewrite !fmap_app. cbn. solve_Permutation. }
  split; [by rewrite Hperm|]. intros k. by rewrite Hperm.
Qed.

(** The handler puts the client back, or removes it. *)
Lemma remove_client_jobs s cl t c h' ans :
  jobs_inv cl s ans → cl !! t = Some c → Client.processing c = None →
  ServerHandler.remove_client (ServerHandler.mk s cl) t = Done h' →
  jobs_inv (ServerHandler.clients h') (ServerHandler.server h') ans ∧ table (ServerHandler.server h') = table s.
Proof.
  intros Hinv Hc Hp. unfold ServerHandler.remove_client. cbn. rewrite Hc. cbn [unwrap]. rewrite bind_Done.
  intros (s1 & Hg & [= <-])%bind_Done_iff. cbn [ServerHandler.clients ServerHandler.server].
  assert (table s1 = table s ∧ Server.jobs s1 = Server.jobs s) as [Htb Hj].
  { unfold Server.notify_client_gone in Hg. destruct (Client.timeout c) as [[[tm q] ch]|]; [|by injection Hg as <-].
    apply bind_Done_iff in Hg as (s2 & [Htb Hj]%clear_timeout_same & Hr).
    by rewrite (retain_table _ _ _ _ _ Hr), (retain_jobs _ _ _ _ _ Hr). }
  split; [|done]. eapply jobs_inv_delete; [done| |done]. by intros c' [= <-]%(eq_trans (eq_sym Hc)).
Qed.

Lemma finish_jobs s cl t s' c' (ok : bool) h' ans :
  jobs_inv (<[t := c']> cl) s' ans → table s' = table s → (ok = false → Client.processing c' = None) →
  ServerHandler.finish (ServerHandler.mk s cl) t (Done (s', c', ok)) = Done h' →
  jobs_inv (ServerHandler.clients h') (ServerHandler.server h') ans ∧ table (ServerHandler.server h') = table s.
Proof.
  intros Hinv Htb Hok. unfold ServerHandler.finish. rewrite bind_Done. cbn [ServerHandler.clients].
  destruct ok; [by intros [= <-]|]. intros Hr. rewrite <-Htb.
  eapply remove_client_jobs; [done|apply lookup_insert_eq|by apply Hok|exact Hr].
Qed.

(** A handler's result, whether the client stays or goes. *)
Lemma finish_done s cl t (r : outcome (Server.t T E * Client.t T Tm * bool)) h' :
  ServerHandler.finish (ServerHandler.mk s cl) t r = Done h' →
  ∃ s' c' ok, r = Done (s', c', ok) ∧ (ok = true → ServerHandler.clients h' = <[t := c']> cl).
Proof.
  unfold ServerHandler.finish. intros ([[s' c'] ok] & Hr & Hk)%bind_Done_iff. exists s', c', ok.
  split; [done|]. intros ->. by injection Hk as <-.
Qed.

(** A handler that leaves the answers alone. *)
Lemma finish_loop s cl t c r h' ans tb :
  loop_inv (ServerHandler.mk s cl) ans tb → cl !! t = Some c → event_inv h' →
  ServerHandler.finish (ServerHandler.mk s cl) t r = Done h' →
  (∀ s' c' ok, r = Done (s', c', ok) → effect s c s' c' ∧ (ok = false → Client.processing c' = None)) →
  loop_inv h' ans tb.
Proof.
  intros ([Hr Hcl] & Hinv & Htb) Hc Hev Hf He. cbn [ServerHandler.clients ServerHandler.server] in *. split; [done|].
  destruct (finish_done _ _ _ _ _ Hf) as (s' & c' & ok & -> & Hok). destruct (He _ _ _ eq_refl) as [Heff Hno].
  rewrite <-Htb. eapply finish_jobs; [|apply (ef_table _ _ _ _ Heff)|exact Hno|exact Hf].
  eapply jobs_inv_effect; [done|by apply clients_tokens|done..|]. intros k Hk. destruct ok; [|by rewrite (Hno eq_refl) in Hk].
  destruct Hev as [_ Hcl']. rewrite (Hok eq_refl) in Hcl'.
  by apply (co_cookie _ _ (Hcl' t c' ltac:(apply lookup_insert_eq))).
Qed.

(** *** One event *)

Lemma ready_loop s cl t c events reads writes now ans tb :
  loop_inv (ServerHandler.mk s cl) ans tb → cl !! t = Some c → Client.hup c = false →
  (hup events || error events = true → t ∉ aw s) →
  (readable events = true → readable (Client.interest c) = true ∧ reads_fit (Client.request c) reads) →
  (writable events = true → writable (Client.interest c) = true ∧ writes_ok (Client.response c) writes) →
  let r := ServerHandler.ready value_size (ServerHandler.mk s cl) t events reads writes now in
  (∃ h', r = Done h' ∧ loop_inv h' ans tb) ∨
  takes_input events ∧ (outgrows (Client.request c) reads ∨ r = Panic ∧
    ∃ b, ClientOps.fill_request (Client.request c) reads = Done b ∧ announces value_size b).
Proof.
  intros Hl Hc Hh Ha Hrd Hwr r. pose proof Hl as ([Hr Hcl] & _ & _). cbn [ServerHandler.clients ServerHandler.server] in *.
  destruct (ready_cases value_size s cl t c events reads writes now Hr Hcl Hc Hh Ha Hrd Hwr) as [(h' & Hd & Hev)|?]; [left|by right].
  exists h'. split; [done|]. subst r. unfold ServerHandler.ready in Hd. cbn [ServerHandler.clients] in Hd. rewrite Hc in Hd.
  eapply finish_loop; [exact Hl|exact Hc|exact Hev|exact Hd|]. intros s' c' ok [He Hok]%ready_effect. split; [done|].
  intros Hno. destruct (Hok Hno) as [-> [?|Hre]]; [done|]. destruct (Hrd Hre) as [Hri _].
  by destruct (co_interest _ _ (Hcl _ _ Hc) Hri) as (_ & ? & _).
Qed.

Lemma timeout_loop s cl tm msg ans tb :
  loop_inv (ServerHandler.mk s cl) ans tb → live s tm = Some msg → tm_token msg ∉ aw s →
  ∃ h', ServerHandler.timeout (ServerHandler.mk (Server.set_loop s (el_fire tm (Server.event_loop s))) cl) msg = Done h' ∧
    loop_inv h' ans tb.
Proof.
  intros Hl Hlive Ha. pose proof Hl as ([Hr Hcl] & Hinv & Htb). cbn [ServerHandler.clients ServerHandler.server] in *.
  destruct (timeout_ok s cl tm msg Hr Hcl Hlive Ha) as (h' & Hd & Hev). exists h'. split; [done|].
  destruct msg as [t q ch]. pose proof (rg_live _ _ _ _ Hr _ _ _ _ Hlive) as Hw. unfold waits in Hw.
  destruct (cl !! t) as [c|] eqn:Hc; [|done].
  unfold ServerHandler.timeout in Hd. cbn [ServerHandler.clients tm_token tm_queue tm_channel] in Hd. rewrite Hc in Hd.
  split; [done|]. destruct (finish_done _ _ _ _ _ Hd) as (s' & c' & ok & Hres & Hok). rewrite Hres in Hd.
  destruct (timeout_effect _ _ _ _ _ _ _ Hres) as [[Etb _ Ejobs] ->]. rewrite <-Htb.
  eapply finish_jobs; [|exact Etb| |exact Hd]; [|done]. eapply (jobs_inv_effect cl s); [exact Hinv|by apply clients_tokens|exact Hc| |].
  - constructor; [done| |exact Ejobs]. destruct Hev as [_ Hcl']. rewrite (Hok eq_refl) in Hcl'.
    rewrite (co_token _ _ (Hcl' t c' ltac:(apply lookup_insert_eq))). by rewrite (co_token _ _ (Hcl _ _ Hc)).
  - destruct Hev as [_ Hcl']. rewrite (Hok eq_refl) in Hcl'.
    by apply (co_cookie _ _ (Hcl' t c' ltac:(apply lookup_insert_eq))).
Qed.

Lemma notify_loop s cl t c cookie msg now l1 l2 tb :
  loop_inv (ServerHandler.mk s cl) (l1 ++ cookie :: l2) tb → cl !! t = Some c → Cookie.token cookie = t →
  Client.processing c = Some cookie → is_answer msg → answer_short msg →
  let r := ServerHandler.notify (ServerHandler.mk s cl) cookie msg now in
  (∃ h', r = Done h' ∧ loop_inv h' (l1 ++ l2) tb) ∨ unanswerable s c now msg ∧ ∀ h', r ≠ Done h'.
Proof.
  intros ([Hr Hcl] & Hinv & Htb) Hc Hk Hp Hans Hshort r. cbn [ServerHandler.clients ServerHandler.server] in *.
  destruct (notify_cases s cl t c cookie msg now Hr Hcl Hc Hk Hp Hans Hshort) as [(h' & Hd & Hev)|?]; [left|by right].
  exists h'. split; [done|]. subst r. unfold ServerHandler.notify in Hd. rewrite Hk in Hd. cbn [ServerHandler.clients] in Hd. rewrite Hc in Hd.
  split; [done|]. destruct (finish_done _ _ _ _ _ Hd) as (s' & c' & ok & Hres & _). rewrite Hres in Hd.
  cbn [ServerHandler.server] in Hres.
  destruct (notify_effect _ _ _ _ _ _ _ _ Hres) as (Etb & Ej & _ & Ep & Eno). rewrite decide_True in Ep by done.
  rewrite <-Htb. eapply finish_jobs; [|exact Etb|exact Eno|exact Hd].
  eapply jobs_inv_answer; [done|by apply clients_tokens|done..].
Qed.

Lemma accept_loop s cl t ans tb :
  loop_inv (ServerHandler.mk s cl) ans tb → cl !! t = None → 0 < t < 2 ^ 16 →
  loop_inv (ServerHandler.mk s (<[t := Client.new t]> cl)) ans tb.
Proof.
  intros ([Hr Hcl] & Hinv & Htb) Hn Ht. split; [by apply accept_ok|]. split; [by apply jobs_inv_new|done].
Qed.

Lemma notify_server_jobs h msg qc now h' :
  ServerHandler.notify_server h msg qc now = Done h' →
  Server.jobs (ServerHandler.server h') = Server.jobs (ServerHandler.server h).
Proof.
  destruct h as [s cl]. destruct msg as [| |q ch n| |q ch|q ch|q|q| |k v]; try done; unfold ServerHandler.notify_server;
    cbn [ServerHandler.server ServerHandler.clients]; intros (s1 & Hd & [= <-])%bind_Done_iff; cbn [ServerHandler.server].
  - injection Hd as <-. unfold Server.notify_channel. destruct (_ !! q) as [w|]; [|done]. by destruct (w_channels w !! ch).
  - by apply bind_Done_iff in Hd as (w & _ & (u & _ & [= <-])%bind_Done_iff).
  - by apply bind_Done_iff in Hd as (w & _ & (u & _ & [= <-])%bind_Done_iff).
  - by apply bind_Done_iff in Hd as (w & _ & [= <-]).
  - by apply bind_Done_iff in Hd as (w & _ & [= <-]).
  - done.
  - injection Hd as <-. unfold Server.config_set. by destruct (queue_config_set _ k v).
Qed.

Lemma notify_server_loop h msg qc now ans tb tb' :
  loop_inv h ans tb → shape_step tb msg = Some tb' →
  ∃ h', ServerHandler.notify_server h msg qc now = Done h' ∧ loop_inv h' ans tb'.
Proof.
  intros ([Hr Hcl] & [Hnd Hpend] & <-) Hs.
  assert (server_fits h msg qc now) as Hf by (destruct msg; try done; by apply (info_ok (ServerHandler.clients h))).
  destruct (notify_server_ok h msg qc now tb' Hr Hs Hf) as (s' & Hd & Htb & Hr').
  eexists. split; [exact Hd|]. apply notify_server_jobs in Hd. cbn in Hd.
  split; [by split|]. split; [|done]. unfold jobs_inv, pending. cbn. by rewrite Hd.
Qed.

(** *** The tick *)

Lemma retry_token s c r now s' c' :
  0 < Client.token c < 2 ^ 16 → ClientOps.retry s c r now = Done (s', c') →
  ∀ k, Client.processing c' = Some k → Cookie.token k = Client.token c.
Proof.
  intros Ht (tm & _ & (s1 & _ & (u & _ & Hd)%bind_Done_iff)%bind_Done_iff)%bind_Done_iff k.
  unfold Server.clock_ms in Hd. cbn in Hd. injection Hd as _ <-. cbn. intros [= <-].
  rewrite Cookie.token_new; [apply Z.mod_small; lia|lia|by apply Z.mod_pos_bound].
Qed.

Lemma retry_all_jobs h awaking now h' ans :
  tokens_ok (ServerHandler.clients h) → jobs_inv (ServerHandler.clients h) (ServerHandler.server h) ans →
  ServerHandler.retry_all h awaking now = Done h' →
  jobs_inv (ServerHandler.clients h') (ServerHandler.server h') ans ∧
  table (ServerHandler.server h') = table (ServerHandler.server h).
Proof.
  revert h. induction awaking as [|[t r] awaking IH]; intros [s cl] Ht Hj; cbn [ServerHandler.retry_all]; [by intros [= <-]|].
  intros (c & Hc & ([s' c'] & Hr & Hk)%bind_Done_iff)%bind_Done_iff. cbn [ServerHandler.clients ServerHandler.server] in *.
  destruct (cl !! t) as [c0|] eqn:Hc0; [injection Hc as ->|done].
  destruct (Ht _ _ Hc0) as (<- & Hrange & _). pose proof (retry_token _ _ _ _ _ _ Hrange Hr) as Hcookie.
  apply retry_effect in Hr. destruct (IH (ServerHandler.mk s' (<[Client.token c := c']> cl))) as [Hj' Ht']; [..|exact Hk|].
  - intros t' d Hd. cbn in Hd. destruct (decide (Client.token c = t')) as [<-|Hne].
    + rewrite lookup_insert_eq in Hd. injection Hd as <-. split; [apply (ef_token _ _ _ _ Hr)|done].
    + rewrite lookup_insert_ne in Hd by done. by apply Ht.
  - by eapply jobs_inv_effect.
  - split; [done|]. cbn in Ht'. rewrite Ht'. apply (ef_table _ _ _ _ Hr).
Qed.

Lemma tick_loop h now ans tb :
  loop_inv h ans tb → ∃ h', ServerHandler.tick h now = Done h' ∧ loop_inv h' ans tb ∧
    Server.awaking_clients (ServerHandler.server h') = [].
Proof.
  intros (Hev & Hj & Htb). destruct (tick_ok h now Hev) as (h' & Hd & [Hev' Ha]). exists h'. split; [done|]. split; [|done].
  split; [done|]. unfold ServerHandler.tick in Hd. apply bind_Done_iff in Hd as (h1 & Hr & [= <-]).
  destruct Hev as [_ Hcl]. destruct (retry_all_jobs (ServerHandler.mk (Server.set_awaking (ServerHandler.server h) []) (ServerHandler.clients h)) _ _ _ ans (clients_tokens _ Hcl) Hj Hr) as [Hj1 Htb1].
  split; [exact Hj1|]. etrans; [exact Htb1|exact Htb].
Qed.

End loop.
