(* ===== verification/System.v ===== *)
(** * The whole server

    The worker threads and the event loop together: a worker takes a job,
    runs the command on the shared queues and sends its notifications and
    its answer; the loop handles sockets, timers and what the workers sent.
    Workers run between any two events of an iteration. A request is one
    step here: the handlers hold the locks of [Locks.v] and [MetaLock.v]
    around what they change and announce. *)
From S2P Require Import Prelude.
From S2P Require Import Offsets.
From S2P Require Import Text.
From S2P Require Import Settings.
From S2P Require Import Segments.
From S2P Require Import Backend.
From S2P Require Import Channels.
From S2P Require Import Queues.
From S2P Require Import Delivery.
From S2P Require Import Wire.
From S2P Require Import WireProps.
From S2P Require Import Commands.
From S2P Require Import CommandProps.
From S2P Require Import Server.
From S2P Require Import Tables.
From S2P Require Import Mirror.
From S2P Require Import Handler.
From S2P Require Import HandlerProps.
From S2P Require Import Iterations.

(** ** Answers *)
Section answers.
Context `{Profile} {T : Type} `{Tendril T} {B M : Type} `{BackendOps B Message.t}
  `{LinkedHashMap Channel.InFlightState M} `{Json InnerQueue.QueueCheckpoint}
  `{Json Config.ServerConfig} `{Json (gmap (list Z) Config.QueueConfig)}
  `{Json (gmap (list Z) InnerQueue.QueueInfo)} `{Json ServerInfo}.
Variable value_size : Z.
Variable new_backend : Config.QueueConfig → outcome B.
Variable io_debug : Z → list Z.
Implicit Types (st : Dispatch.state T B M) (env : Dispatch.Env T).

(** [config_set] on the event loop replies with a [Response]. *)
Definition replies_ok env : Prop := ∀ k v, is_answer (Dispatch.server_set_config env k v).

Definition answers (r : outcome (Dispatch.state T B M * NotifyMessage.t T)) : Prop :=
  ∀ st' n, r = Done (st', n) → is_answer n.

Lemma answers_reply st n : is_answer n → answers (Dispatch.reply st n).
Proof. by intros Hn st' n' [= _ <-]. Qed.

Lemma answers_bind {A} (m : outcome A) (f : A → outcome (Dispatch.state T B M * NotifyMessage.t T)) :
  (∀ a, answers (f a)) → answers (m ≫= f).
Proof. intros Hf st' n (a & _ & Ha)%bind_Done_iff. by eapply Hf. Qed.

Lemma answers_error st e : answers (Dispatch.queue_error io_debug st e).
Proof. apply answers_reply. by destruct e. Qed.

(** Follows the binds and branches of a handler to its replies. *)
#[local] Ltac follow :=
  repeat first
    [ apply answers_error | apply answers_reply; done | apply answers_bind; intros ?
    | match goal with
      | |- answers (let '(_, _) := ?p in _) => destruct p
      | |- answers (if ?b then _ else _) => destruct b
      | |- answers (match ?x with _ => _ end) => destruct x
      end
    | progress cbv zeta ].

Lemma hmget_loop_answers env st qn cn timeout request k results :
  answers (Dispatch.hmget_loop io_debug env st qn cn timeout request k results).
Proof.
  revert st results. induction k as [|k IH]; intros st results; cbn [Dispatch.hmget_loop]; follow. apply IH.
Qed.

Lemma hdel_loop_answers env st qn cn tickets k : answers (Dispatch.hdel_loop env st qn cn tickets k).
Proof.
  revert st k. induction tickets as [|t tickets IH]; intros st k; cbn [Dispatch.hdel_loop]; follow. apply IH.
Qed.

Lemma run_command_answers env st request args :
  replies_ok env → answers (Dispatch.run_command value_size new_backend io_debug env st request args).
Proof.
  intros Henv. unfold Dispatch.run_command. apply answers_bind. intros cmd.
  repeat case_bool_decide.
  - unfold Dispatch.rpush. follow.
  - unfold Dispatch.hmget. follow. apply hmget_loop_answers.
  - unfold Dispatch.hdel. follow. apply hdel_loop_answers.
  - unfold Dispatch.info. follow.
  - unfold Dispatch.hmset. follow.
  - unfold Dispatch.set. follow.
  - unfold Dispatch.del. follow.
  - unfold Dispatch.srem. follow.
  - unfold Dispatch.config_command, Dispatch.config_get, Dispatch.config_set. follow.
  - follow.
Qed.

(** Every request is answered with a message its client takes. *)
Lemma dispatch_answers env st request :
  replies_ok env → answers (Dispatch.dispatch value_size new_backend io_debug env st request).
Proof.
  intros Henv. unfold Dispatch.dispatch. destruct request as [| | |a| | |]; try by apply answers_reply.
  destruct (_ && _); [|by apply answers_reply].
  destruct (Dispatch.data_args a) as [args|]; [by apply run_command_answers|by apply answers_reply].
Qed.

End answers.

(** ** States and steps *)
Section system.
Context `{Profile} {T : Type} `{TendrilOk T} {B M : Type} `{BackendOps B Message.t}
  `{LinkedHashMap Channel.InFlightState M} `{Json InnerQueue.QueueCheckpoint}
  `{Json Config.ServerConfig} `{Json (gmap (list Z) Config.QueueConfig)}
  `{Json (gmap (list Z) InnerQueue.QueueInfo)} `{Json ServerInfo}
  {E Tm : Type} `{!EqDecision Tm} `{EventLoopOk E Tm}.
Variable value_size : Z.
Variable new_backend : Config.QueueConfig → outcome B.
Variable io_debug : Z → list Z.
(** [max_connections]: the size of the slab. *)
Variable max_connections : Z.

Abbreviation message := (NotifyMessage.t T).

(** The queues the workers share, the loop's handler, and what is in the
    loop's channel: the messages for [SERVER] in the order they were sent,
    and the answers. *)
Record sys : Type := mkSys {
  queues : gmap (list Z) (InnerQueue.t B M);
  wiped : list (list Z);
  handler : ServerHandler.t T E Tm;
  inbox : list message;
  replies : list (Z * message);
}.

Implicit Types (x : sys) (env : Dispatch.Env T).

Abbreviation server_of x := (ServerHandler.server (handler x)).
Abbreviation clients_of x := (ServerHandler.clients (handler x)).

Definition set_handler x h : sys := mkSys (queues x) (wiped x) h (inbox x) (replies x).
Definition set_jobs x jobs : ServerHandler.t T E Tm :=
  ServerHandler.mk (Server.set_jobs (server_of x) jobs) (clients_of x).

(** *** Starting ([Server::new]) *)

(** The queues found on disk are opened one by one: [open_backend] is
    [QueueBackend::new(config, true)] and [checkpoint_file] what the
    checkpoint file of a queue holds. *)
Fixpoint open_queues (os : Os) (open_backend : Config.QueueConfig → outcome B)
    (checkpoint_file : Config.QueueConfig → option (list Z)) (now : Z) (configs : list Config.QueueConfig)
    (qs : gmap (list Z) (InnerQueue.t B M)) (s : Server.t T E) :
    outcome (gmap (list Z) (InnerQueue.t B M) * Server.t T E) :=
  match configs with
  | [] => mret (qs, s)
  | c :: configs =>
      b ← open_backend c;
      q ← InnerQueue.new os true c b (checkpoint_file c) true;
      let '(s, ms) := Server.clock_ms s now in
      '(q, info) ← InnerQueue.info q (as_u32 (ms / 1000));
      let w := mkWaiting (InnerQueue.qi_head info) ((λ _, []) <$> InnerQueue.qi_channels info) in
      open_queues os open_backend checkpoint_file now configs
        (<[Config.name c := q]> qs) (Server.put_waiting s (Config.name c) w)
  end.

(** [bound] tells whether an address parses and the listener binds to it;
    [dir] is what reading the data directory gives. *)
Definition server_new (bound : list Z → bool) (os : Os) open_backend checkpoint_file (now num_cpus : Z) (config : Config.ServerConfig)
    (dir : result (list (result (list Z) Z)) Z) (e : E) : outcome sys :=
  _ ← assert (bound (Config.bind_address config));
  let thread_count := Z.max 6 (num_cpus * 2) + 2 in
  let s := Server.mk config ∅ [] (as_u32 thread_count) 0 0 e [] in
  r ← Config.read_queue_configs config dir;
  queue_configs ← Config.expect r;
  '(qs, s) ← open_queues os open_backend checkpoint_file now queue_configs ∅ s;
  mret (mkSys qs [] (ServerHandler.mk s ∅) [] []).

(** *** The background threads *)

(** [Server::start_monitor] for one queue: the channels with messages that
    timed out are announced. *)
Definition monitor_queue (name : list Z) (q : InnerQueue.t B M) (clock : Z) :
    outcome (InnerQueue.t B M * list message) :=
  '(q, available) ← InnerQueue.iter_channels q clock (λ _ c, Channel.messages_available c);
  mret (q, omap (λ e, if 0 <? e.2 then Some (NotifyMessage.MessagesAvailable name e.1 e.2) else None)
             (map_to_list available)).

(** [Server::start_maintenance] for one queue. *)
Definition maintain_queue (os : Os) (written : bool) (q : InnerQueue.t B M) (clock : Z) : outcome (InnerQueue.t B M) :=
  '(q, _, _) ← InnerQueue.maintenance os written q clock; mret q.

(** *** Running *)

(** The events that can come up: sockets do what they are registered for, a
    free entry of the slab is taken, messages are read from the channel, a
    live timer fires. Only the environment is restricted: a read fills at
    most the slice it is given, a write takes at most what it is offered, and
    no value is as long as the address space. [possible x e x'] has in [x']
    what is left in the channel. *)
Inductive possible x : ServerHandler.event T Tm → sys → Prop :=
| possible_accept events reads writes accepted now :
    events = mkEventSet true false false false →
    (∀ t, accepted = Some t → clients_of x !! t = None ∧ 1 ≤ t ≤ max_connections) →
    possible x (ServerHandler.Ready ServerHandler.SERVER events reads writes accepted now) x
| possible_ready t c events reads writes accepted now :
    clients_of x !! t = Some c → Client.hup c = false →
    (readable events = true → readable (Client.interest c) = true ∧ reads_fit (Client.request c) reads) →
    (writable events = true → writable (Client.interest c) = true ∧ writes_ok (Client.response c) writes) →
    possible x (ServerHandler.Ready t events reads writes accepted now) x
| possible_server cookie msg rest queue_count now_s now :
    inbox x = msg :: rest → Cookie.token cookie = ServerHandler.SERVER →
    possible x (ServerHandler.Notify cookie msg queue_count now_s now)
      (mkSys (queues x) (wiped x) (handler x) rest (replies x))
| possible_reply l1 cookie msg l2 queue_count now_s now :
    replies x = l1 ++ (cookie, msg) :: l2 → answer_short msg →
    possible x (ServerHandler.Notify cookie msg queue_count now_s now)
      (mkSys (queues x) (wiped x) (handler x) (inbox x) (l1 ++ l2))
| possible_timeout tm msg :
    live (server_of x) tm = Some msg → possible x (ServerHandler.Timeout tm msg) x.

(** A timer that fires for, or a hang-up from, a client that wakes at the
    end of the iteration. *)
Definition races x (e : ServerHandler.event T Tm) : Prop :=
  match e with
  | ServerHandler.Ready t events _ _ _ _ => (hup events || error events = true) ∧ t ∈ aw (server_of x)
  | ServerHandler.Timeout _ msg => tm_token msg ∈ aw (server_of x)
  | _ => False
  end.

#[local] Instance races_dec x e : Decision (races x e).
Proof. destruct e; cbn; apply _. Defined.

(** A request that is not complete grows past 4 GiB, which no [Tendril]
    holds. *)
Definition outgrown x (e : ServerHandler.event T Tm) : Prop :=
  match e with
  | ServerHandler.Ready t events reads _ _ _ =>
      takes_input events ∧ ∃ c, clients_of x !! t = Some c ∧ outgrows (Client.request c) reads
  | _ => False
  end.

(** The events that the loop may not survive: besides those two, a request
    that announces an array too large to allocate, and an answer with a
    message that is out of the mapping, with a deadline past [u64], or for
    which no timer is left. *)
Inductive stops x : ServerHandler.event T Tm → Prop :=
| stops_race e : races x e → stops x e
| stops_outgrown e : outgrown x e → stops x e
| stops_announced t c events reads writes accepted now b :
    clients_of x !! t = Some c → takes_input events →
    ClientOps.fill_request (Client.request c) reads = Done b → announces value_size b →
    stops x (ServerHandler.Ready t events reads writes accepted now)
| stops_answer cookie c msg queue_count now_s now :
    clients_of x !! Cookie.token cookie = Some c → unanswerable (server_of x) c now msg →
    stops x (ServerHandler.Notify cookie msg queue_count now_s now).

Inductive step : sys → sys → Prop :=
(** a worker takes the job [j] *)
| step_work x l1 j l2 env st msg :
    Server.jobs (server_of x) = l1 ++ j :: l2 →
    Dispatch.config env = job_config j → Dispatch.clock env = job_clock j → replies_ok env →
    Dispatch.dispatch value_size new_backend io_debug env (Dispatch.mkState (queues x) [] (wiped x)) (job_request j)
      = Done (st, msg) →
    step x (mkSys (Dispatch.queues st) (Dispatch.wiped st) (set_jobs x (l1 ++ l2))
              (inbox x ++ Dispatch.sent st) (replies x ++ [(job_cookie j, msg)]))
(** the monitor and the maintenance threads visit a queue *)
| step_monitor x name q q' clock msgs :
    queues x !! name = Some q → monitor_queue name q clock = Done (q', msgs) →
    step x (mkSys (<[name := q']> (queues x)) (wiped x) (handler x) (inbox x ++ msgs) (replies x))
| step_maintenance x name q q' os written clock :
    queues x !! name = Some q → maintain_queue os written q clock = Done q' →
    step x (mkSys (<[name := q']> (queues x)) (wiped x) (handler x) (inbox x) (replies x))
| step_event x e x' h :
    possible x e x' → ¬ races x e → ¬ outgrown x e → ServerHandler.handle value_size (handler x) e = Done h →
    step x (set_handler x' h)
| step_tick x now h :
    ServerHandler.tick (handler x) now = Done h → step x (set_handler x h).

(** The states of a running server: the loop starts without timers. *)
Inductive reachable : sys → Prop :=
| reachable_new bound os open_backend checkpoint_file now num_cpus config dir e x :
    (∀ tm, el_live e tm = None) →
    server_new bound os open_backend checkpoint_file now num_cpus config dir e = Done x → reachable x
| reachable_step x x' : reachable x → step x x' → reachable x'.

(** ** The invariant *)

Record sys_inv x : Prop := {
  si_loop : loop_inv (handler x) (replies x).*1 (table (server_of x));
  si_replies : Forall (λ r, is_answer r.2) (replies x);
  (** what is in the channel brings the loop's table up to date *)
  si_inbox : shapes (table (server_of x)) (inbox x) = Some (queue_table (queues x));
}.

Hypothesis slab_fits : max_connections < 2 ^ 16.

Lemma loop_inv_table h ans tb : loop_inv (E:=E) (Tm:=Tm) (T:=T) h ans tb → loop_inv h ans (table (ServerHandler.server h)).
Proof. by intros (? & ? & _). Qed.

Lemma handle_ready_loop h t events reads writes accepted now :
  t ≠ ServerHandler.SERVER →
  ServerHandler.handle value_size h (ServerHandler.Ready t events reads writes accepted now) =
    ServerHandler.ready value_size h t events reads writes now.
Proof. intros Ht. cbn. unfold ServerHandler.on_ready. by rewrite (proj2 (Z.eqb_neq _ _)). Qed.

(** The loop's part of the invariant, with another channel. *)
Lemma sys_inv_loop qs dirs h ib rs tb :
  loop_inv h rs.*1 tb → Forall (λ r, is_answer r.2) rs → shapes tb ib = Some (queue_table qs) →
  sys_inv (mkSys qs dirs h ib rs).
Proof. intros Hl Hr Hs. pose proof Hl as (_ & _ & <-). by constructor. Qed.

Lemma client_token_pos x t c : sys_inv x → clients_of x !! t = Some c → t ≠ ServerHandler.SERVER.
Proof. intros [([_ Hcl] & _) _ _] Hc. pose proof (co_range _ _ (Hcl _ _ Hc)). unfold ServerHandler.SERVER. lia. Qed.

Lemma message_ok x cookie msg ib tb qc now_s now :
  sys_inv x → Cookie.token cookie = ServerHandler.SERVER →
  shape_step (table (server_of x)) msg = Some tb → shapes tb ib = Some (queue_table (queues x)) →
  ∃ h, ServerHandler.handle value_size (handler x) (ServerHandler.Notify cookie msg qc now_s now) = Done h ∧
    sys_inv (mkSys (queues x) (wiped x) h ib (replies x)).
Proof.
  intros Hx Hk Hs Hib. cbn [ServerHandler.handle]. unfold ServerHandler.on_notify. rewrite Hk, Z.eqb_refl.
  destruct (notify_server_loop (handler x) msg qc now_s _ _ tb (si_loop _ Hx) Hs) as (h & Hd & Hl).
  exists h. split; [exact Hd|]. eapply sys_inv_loop; [exact Hl|apply (si_replies _ Hx)|done].
Qed.

(** An answer is for the client that processes its request. *)
Lemma reply_cases x l1 cookie msg l2 qc now_s now :
  sys_inv x → replies x = l1 ++ (cookie, msg) :: l2 → answer_short msg →
  let r := ServerHandler.handle value_size (handler x) (ServerHandler.Notify cookie msg qc now_s now) in
  (∃ h, r = Done h ∧ sys_inv (mkSys (queues x) (wiped x) h (inbox x) (l1 ++ l2))) ∨
  stops x (ServerHandler.Notify cookie msg qc now_s now) ∧ ∀ h, r ≠ Done h.
Proof.
  intros Hx Hrep Hshort r. subst r. pose proof Hx as [Hl Hans Hs]. rewrite Hrep in Hl, Hans.
  rewrite fmap_app in Hl. cbn [fmap list_fmap fst] in Hl. apply Forall_app in Hans as [H1' [Hm H2']%Forall_cons].
  destruct (handler x) as [s cl] eqn:Eh. pose proof Hl as ([_ Hcl] & [_ Hpend] & _). cbn in Hcl, Hpend, Hm, Hs.
  destruct (proj1 (Hpend cookie)) as (t & c & Hc & Hp).
  { unfold pending. rewrite !elem_of_app, elem_of_cons. auto. }
  pose proof (co_cookie _ _ (Hcl _ _ Hc) _ Hp) as Hk.
  assert (ServerHandler.handle value_size (ServerHandler.mk s cl) (ServerHandler.Notify cookie msg qc now_s now) =
    ServerHandler.notify (ServerHandler.mk s cl) cookie msg now) as ->.
  { cbn [ServerHandler.handle]. unfold ServerHandler.on_notify. rewrite Hk, (proj2 (Z.eqb_neq _ _)); [done|].
    pose proof (co_range _ _ (Hcl _ _ Hc)). unfold ServerHandler.SERVER. lia. }
  destruct (notify_loop s cl t c cookie msg now _ _ _ Hl Hc Hk Hp Hm Hshort) as [(h & Hd & Hl')|[Hu Hno]]; [left|right].
  - exists h. split; [exact Hd|]. eapply sys_inv_loop; [rewrite fmap_app; exact Hl'|by apply Forall_app|done].
  - split; [|done]. apply (stops_answer _ _ c); rewrite Eh; [by rewrite Hk|exact Hu].
Qed.

Lemma accept_event x events reads writes accepted now :
  sys_inv x → events = mkEventSet true false false false →
  (∀ t, accepted = Some t → clients_of x !! t = None ∧ 1 ≤ t ≤ max_connections) →
  ∃ h, ServerHandler.handle value_size (handler x)
      (ServerHandler.Ready ServerHandler.SERVER events reads writes accepted now) = Done h ∧ sys_inv (set_handler x h).
Proof.
  intros Hx -> Hacc. pose proof (si_loop _ Hx) as Hl.
  cbn [ServerHandler.handle]. unfold ServerHandler.on_ready, ServerHandler.accept. cbn [Z.eqb ServerHandler.SERVER].
  rewrite bool_decide_true by done. rewrite assert_true, bind_Done by done. eexists. split; [reflexivity|].
  eapply sys_inv_loop; [|apply (si_replies _ Hx)|exact (si_inbox _ Hx)]. destruct accepted as [t|]; [|exact Hl].
  destruct (Hacc t eq_refl). destruct (handler x) as [s cl]. apply accept_loop; [exact Hl|done|lia].
Qed.

Lemma timeout_event x tm msg :
  sys_inv x → live (server_of x) tm = Some msg → tm_token msg ∉ aw (server_of x) →
  ∃ h, ServerHandler.handle value_size (handler x) (ServerHandler.Timeout tm msg) = Done h ∧ sys_inv (set_handler x h).
Proof.
  intros Hx Hlive Ha. pose proof (si_loop _ Hx) as Hl. pose proof (si_inbox _ Hx) as Hs.
  cbn [ServerHandler.handle]. destruct (handler x) as [s cl] eqn:Eh. cbn in Hlive, Ha.
  destruct (timeout_loop s cl tm msg _ _ Hl Hlive Ha) as (h & Hd & Hl').
  exists h. split; [|eapply sys_inv_loop; [exact Hl'|apply (si_replies _ Hx)|exact Hs]].
  unfold ServerHandler.on_timeout. rewrite (proj2 (Z.eqb_neq _ _)); [exact Hd|].
  destruct Hl as ([Hr Hcl] & _). destruct msg as [t q ch]. apply (rg_live _ _ _ _ Hr) in Hlive. unfold waits in Hlive.
  cbn in *. destruct (cl !! t) as [c|] eqn:Hc; [|done]. pose proof (co_range _ _ (Hcl _ _ Hc)).
  unfold ServerHandler.SERVER. lia.
Qed.

(** A possible event is handled and keeps the invariant, or it is one of
    those that stop the loop. *)
Lemma event_cases x e x' :
  sys_inv x → possible x e x' →
  races x e ∨ outgrown x e ∨
  (∃ h, ServerHandler.handle value_size (handler x) e = Done h ∧ sys_inv (set_handler x' h)) ∨
  stops x e ∧ ∀ h, ServerHandler.handle value_size (handler x) e ≠ Done h.
Proof.
  intros Hx Hp. destruct (decide (races x e)) as [|Hn]; [by left|right].
  destruct Hp as [events reads writes accepted now -> Hacc|t c events reads writes accepted now Hc Hh Hrd Hwr
    |cookie msg rest qc now_s now Hib Hk|l1 cookie msg l2 qc now_s now Hrep Hshort|tm msg Hlive].
  - right; left. by apply accept_event.
  - rewrite handle_ready_loop by (by eapply client_token_pos). pose proof (si_loop _ Hx) as Hl. pose proof (si_inbox _ Hx) as Hs.
    destruct (handler x) as [s cl] eqn:Eh.
    destruct (ready_loop value_size s cl t c events reads writes now _ _ Hl Hc Hh) as [(h & Hd & Hl')|[Hi [Ho|[Hpa (b & Hb & Ha)]]]];
      [|done..| | |].
    + intros He Ha. apply Hn. cbn. by rewrite Eh.
    + right; left. exists h. split; [exact Hd|]. eapply sys_inv_loop; [exact Hl'|apply (si_replies _ Hx)|exact Hs].
    + left. split; [done|]. exists c. by rewrite Eh.
    + right; right. split; [|intros h; by rewrite Hpa]. apply (stops_announced _ _ c _ _ _ _ _ b); [by rewrite Eh|done..].
  - pose proof (si_inbox _ Hx) as Hs. rewrite Hib in Hs. cbn in Hs. apply bind_Some in Hs as (tb & Hm & Hs).
    right; left. by apply (message_ok x cookie msg rest tb).
  - right. exact (reply_cases x l1 cookie msg l2 qc now_s now Hx Hrep Hshort).
  - right; left. by apply timeout_event.
Qed.

(** What the loop handles keeps the invariant. *)
Lemma event_done x e x' h :
  sys_inv x → possible x e x' → ¬ races x e → ¬ outgrown x e →
  ServerHandler.handle value_size (handler x) e = Done h → sys_inv (set_handler x' h).
Proof.
  intros Hx Hp Hn Ho Hd. destruct (event_cases x e x' Hx Hp) as [?|[?|[(h' & Hd' & Hx')|[_ Hno]]]]; [done..| |by destruct (Hno h)].
  rewrite Hd in Hd'. by injection Hd' as ->.
Qed.

(** The loop handles what does not stop it. *)
Lemma event_handled x e x' :
  sys_inv x → possible x e x' → (∃ h, ServerHandler.handle value_size (handler x) e = Done h) ∨ stops x e.
Proof.
  intros Hx Hp. destruct (event_cases x e x' Hx Hp) as [?|[?|[(h & Hd & _)|[? _]]]];
    [right; by apply stops_race|right; by apply stops_outgrown|left; by exists h|by right].
Qed.

Lemma work_ok x l1 j l2 env st msg :
  sys_inv x → Server.jobs (server_of x) = l1 ++ j :: l2 → replies_ok env →
  Dispatch.dispatch value_size new_backend io_debug env (Dispatch.mkState (queues x) [] (wiped x)) (job_request j)
    = Done (st, msg) →
  sys_inv (mkSys (Dispatch.queues st) (Dispatch.wiped st) (set_jobs x (l1 ++ l2))
              (inbox x ++ Dispatch.sent st) (replies x ++ [(job_cookie j, msg)])).
Proof.
  intros [(Hev & Hj & _) Hr Hs] Hjobs Henv Hd. constructor; cbn [handler queues inbox replies].
  - split; [exact Hev|]. split; [|done]. rewrite fmap_app. by apply jobs_inv_work.
  - apply Forall_app. split; [done|]. repeat constructor. cbn. by eapply dispatch_answers.
  - destruct (tracked_info_shapes _ _ (dispatch_tracked _ _ _ _ _ _ _ _ Hd)) as (msgs & Hsent & Hsh). cbn in Hsent, Hsh.
    rewrite Hsent, shapes_app. etrans; [|exact Hsh]. change (table _) with (table (server_of x)) at 1. by rewrite Hs.
Qed.

Lemma monitor_ok x name q q' clock msgs :
  sys_inv x → queues x !! name = Some q → monitor_queue name q clock = Done (q', msgs) →
  sys_inv (mkSys (<[name := q']> (queues x)) (wiped x) (handler x) (inbox x ++ msgs) (replies x)).
Proof.
  intros [Hl Hr Hs] Hq ([q1 av] & Hi & [= <- <-])%bind_Done_iff.
  assert (names (InnerQueue.channels q1) = names (InnerQueue.channels q)) as Hn.
  { apply bind_Done_iff in Hi as (m & Hm%map_values_dom & [= <- _]). exact Hm. }
  eapply sys_inv_loop; [exact Hl|exact Hr|].
  rewrite shapes_app, Hs, (queue_table_keep _ _ _ _ Hq Hn). cbn [mbind option_bind].
  generalize (map_to_list av). intros l. induction l as [|[ch n] l IH]; [done|]. cbn. by destruct (0 <? n).
Qed.

Lemma maintenance_ok x name q q' os written clock :
  sys_inv x → queues x !! name = Some q → maintain_queue os written q clock = Done q' →
  sys_inv (mkSys (<[name := q']> (queues x)) (wiped x) (handler x) (inbox x) (replies x)).
Proof.
  intros [Hl Hr Hs] Hq ([[q1 paths] cp] & Hm & [= <-])%bind_Done_iff.
  assert (InnerQueue.channels q1 = InnerQueue.channels q) as Hn.
  { apply bind_Done_iff in Hm as (tails & _ & ([b ps] & _ & ([q2 f] & Hc%checkpoint_channels & [= <- _ _])%bind_Done_iff)%bind_Done_iff).
    exact Hc. }
  eapply sys_inv_loop; [exact Hl|exact Hr|]. rewrite (queue_table_keep _ _ _ _ Hq); [done|by rewrite Hn].
Qed.

Lemma tick_sys x now :
  sys_inv x → ∃ h, ServerHandler.tick (handler x) now = Done h ∧ sys_inv (set_handler x h) ∧
    Server.awaking_clients (ServerHandler.server h) = [].
Proof.
  intros [Hl Hr Hs]. destruct (tick_loop (handler x) now _ _ Hl) as (h & Hd & Hl' & Ha). exists h.
  split; [done|]. split; [|done]. by eapply sys_inv_loop.
Qed.

Lemma sys_step_inv x x' : sys_inv x → step x x' → sys_inv x'.
Proof.
  intros Hx Hst. destruct Hst as [x l1 j l2 env st msg Hj _ _ Henv Hd|x name q q' clock msgs Hq Hd|x name q q' os w clock Hq Hd|x e x' h Hp Hn Ho Hd|x now h Hd].
  - by eapply work_ok.
  - by eapply monitor_ok.
  - by eapply maintenance_ok.
  - by eapply event_done.
  - destruct (tick_sys x now Hx) as (h' & Hd' & Hx' & _). rewrite Hd in Hd'. by injection Hd' as ->.
Qed.

(** *** The first state *)

Lemma open_queues_spec os open_backend checkpoint_file now configs qs s qs' s' :
  open_queues os open_backend checkpoint_file now configs qs s = Done (qs', s') →
  table s = queue_table qs → (∀ q ch, ent s q ch = []) →
  table s' = queue_table qs' ∧ (∀ q ch, ent s' q ch = []) ∧ Server.awaking_clients s' = Server.awaking_clients s ∧
  Server.jobs s' = Server.jobs s ∧ Server.event_loop s' = Server.event_loop s.
Proof.
  revert qs s. induction configs as [|c configs IH]; intros qs s; cbn [open_queues]; [by intros [= <- <-]|].
  intros (b & _ & (q & _ & Hk)%bind_Done_iff)%bind_Done_iff Ht He.
  destruct (Server.clock_ms s now) as [s1 ms] eqn:Hc. apply bind_Done_iff in Hk as ([q' i] & Hi & Hk).
  assert (table s1 = table s ∧ (∀ q ch, ent s1 q ch = []) ∧ Server.awaking_clients s1 = Server.awaking_clients s ∧
    Server.jobs s1 = Server.jobs s ∧ Server.event_loop s1 = Server.event_loop s) as (T1 & E1 & A1 & J1 & L1).
  { unfold Server.clock_ms in Hc. injection Hc as <- _. by destruct (_ =? 0). }
  assert (dom (InnerQueue.qi_channels i) = names (InnerQueue.channels q')) as Hdom.
  { apply bind_Done_iff in Hi as (du & _ & (m & _ & [= <- <-])%bind_Done_iff). cbn. unfold names. by rewrite !dom_fmap_L. }
  destruct (IH _ _ Hk) as (T' & E' & A' & J' & L').
  - rewrite table_put, queue_table_insert, T1, Ht. cbn. by rewrite dom_fmap_L, Hdom.
  - intros q1 ch. rewrite ent_put. case_decide; [|apply E1]. cbn. rewrite lookup_fmap.
    by destruct (InnerQueue.qi_channels i !! ch).
  - cbn in A', J', L'. split_and!; [done|done|congruence|congruence|congruence].
Qed.

Lemma new_inv bound os open_backend checkpoint_file now num_cpus config dir e x :
  (∀ tm, el_live e tm = None) →
  server_new bound os open_backend checkpoint_file now num_cpus config dir e = Done x → sys_inv x.
Proof.
  intros He (u & _ & (r & _ & (configs & _ & ([qs s] & Ho & [= <-])%bind_Done_iff)%bind_Done_iff)%bind_Done_iff)%bind_Done_iff.
  destruct (open_queues_spec _ _ _ _ _ _ _ _ _ Ho) as (Ht & Hent & Ha & Hj & Hl); [done|done|]. cbn in Ha, Hj, Hl.
  constructor; [|done|by cbn; rewrite Ht]. split; [|split; [|done]].
  - split; [|by intros t c]. cbn. unfold server_ok, aw, live. rewrite Ha, Hl. constructor.
    + done.
    + intros t q ch. rewrite Hent. by intros ?%elem_of_nil.
    + intros t. by intros ?%elem_of_nil.
    + intros tm t q ch. by rewrite He.
    + intros q ch. rewrite Hent. constructor.
    + constructor.
  - unfold jobs_inv, pending. cbn. rewrite Hj. split; [constructor|]. intros k. split; [by intros ?%elem_of_nil|].
    by intros (t & c & ? & _).
Qed.

Lemma reachable_sys_inv x : reachable x → sys_inv x.
Proof. induction 1; [by eapply new_inv|by eapply sys_step_inv]. Qed.

End system.
