(* ===== verification/Startup.v ===== *)
(** * Starting the server ([main.rs])

    [main] reads the configuration, makes the server with the queues it finds
    on disk, and enters the event loop. The steps of the loop are those of
    [System.v], with the slab as large as the configuration says. *)
From S2P Require Import Prelude.
From S2P Require Import Offsets.
From S2P Require Import Text.
From S2P Require Import Settings.
From S2P Require Import Segments.
From S2P Require Import Backend.
From S2P Require Import Channels.
From S2P Require Import ChannelFacts.
From S2P Require Import Queues.
From S2P Require Import QueueFacts.
From S2P Require Import Delivery.
From S2P Require Import Opening.
From S2P Require Import Wire.
From S2P Require Import WireProps.
From S2P Require Import Commands.
From S2P Require Import CommandProps.
From S2P Require Import Server.
From S2P Require Import Tables.
From S2P Require Import Mirror.
From S2P Require Import Handler.
From S2P Require Import HandlerProps.
From S2P Require Import Iterations.
From S2P Require Import System.

Module Startup.
Import Opening.

(** ** The program *)
Section main.
Context `{Profile} {T : Type} `{TendrilOk T} {B M : Type} `{BackendOps B Message.t}
  `{!LinkedHashMap Channel.InFlightState M} `{Json InnerQueue.QueueCheckpoint}
  {E Tm : Type} `{!EqDecision Tm} `{EventLoopOk E Tm}.

(** [logger] is the result of [env_logger::init()]; the other arguments are
    those of [ServerConfig::read] and [Server::new]. *)
Definition main (logger : bool) (get_str : list Z → option (list Z)) (get_int : list Z → option Z)
    (created : bool) (bound : list Z → bool) (os : Os) (open_backend : Config.QueueConfig → outcome B)
    (checkpoint_file : Config.QueueConfig → option (list Z)) (now num_cpus : Z)
    (dir : result (list (result (list Z) Z)) Z) (e : E) : outcome (System.sys (T:=T) (B:=B) (M:=M) (E:=E) (Tm:=Tm)) :=
  _ ← assert logger;
  server_config ← Config.read get_str get_int created;
  server_new bound os open_backend checkpoint_file now num_cpus server_config dir e.

End main.

(** ** Opening all of them *)
Section open.
Context `{Profile} {T : Type} `{TendrilOk T} {B M : Type} `{BackendOps B Message.t}
  `{!LinkedHashMap Channel.InFlightState M} `{!LinkedHashMapOk Channel.InFlightState M}
  `{Json InnerQueue.QueueCheckpoint} {E Tm : Type} `{!EqDecision Tm} `{EventLoopOk E Tm}.
Variable os : Os.
Variable open_backend : Config.QueueConfig → outcome B.
Variable checkpoint_file : Config.QueueConfig → option (list Z).
Implicit Types (qs : gmap (list Z) (InnerQueue.t B M)) (configs : list Config.QueueConfig).

Definition found (c : Config.QueueConfig) (q : InnerQueue.t B M) : Prop :=
  ∃ b, open_backend c = Done b ∧ opened c b (checkpoint_file c) q.

Lemma open_queues_ok now configs : ∀ qs (s : Server.t T E),
  Forall (λ c, ∃ b du, open_backend c = Done b ∧ be_disk_usage b = Done du) configs →
  ∃ qs' s', open_queues os open_backend checkpoint_file now configs qs s = Done (qs', s') ∧
    dom qs' = dom qs ∪ list_to_set (Config.name <$> configs) ∧
    ∀ name q, qs' !! name = Some q → qs !! name = Some q ∨ ∃ c, c ∈ configs ∧ Config.name c = name ∧ found c q.
Proof.
  induction configs as [|c configs IH]; intros qs s; cbn [open_queues].
  { intros _. exists qs, s. split_and!; [done|set_solver|by left]. }
  intros [(b & du & Hb & Hdu) Hall]%Forall_cons. rewrite Hb, bind_Done.
  destruct (Server.clock_ms s now) as [s1 ms].
  destruct (new_info_opened os c b (checkpoint_file c) (as_u32 (ms / 1000)) du Hdu) as (q & q' & i & -> & Hi & Ho).
  rewrite bind_Done, Hi, bind_Done.
  destruct (IH (<[Config.name c := q']> qs) (Server.put_waiting s1 (Config.name c)
    (mkWaiting (InnerQueue.qi_head i) ((λ _, []) <$> InnerQueue.qi_channels i))) Hall) as (qs' & s' & -> & Hd & Hq).
  exists qs', s'. split_and!; [done|rewrite Hd, dom_insert_L; cbn; set_solver|]. intros name q2 Hq2.
  destruct (Hq _ _ Hq2) as [Hl|(c' & Hin & Hn & Hf)]; [|right; exists c'; split_and!; [by right|done|done]].
  destruct (decide (Config.name c = name)) as [<-|Hne]; [|rewrite bytes_insert_ne in Hl by done; by left].
  rewrite bytes_insert_eq in Hl. injection Hl as <-. right. exists c. split_and!; [left|done|by exists b].
Qed.

End open.

(** ** Theorem *)

(** The name of the queue in a directory ([QueueConfig::read]). *)
Definition queue_name (path : list Z) : option (list Z) := from_utf8_lossy <$> Config.file_name path.

Lemma read_entries_ok {E} (cfg : Config.ServerConfig) (paths names : list (list Z)) : ∀ acc,
  queue_name <$> paths = Some <$> names →
  Config.read_entries (E:=E) cfg (Ok <$> paths) acc = Done (Ok (acc ++ (Config.new_queue_config cfg <$> names))).
Proof.
  revert names. induction paths as [|p paths IH]; intros [|n names] acc; try done; [by rewrite app_nil_r|].
  intros [= Hn Hr]. cbn [fmap list_fmap Config.read_entries]. unfold Config.read_queue_config.
  unfold queue_name in Hn. destruct (Config.file_name p) as [f|]; [|done]. injection Hn as <-.
  cbn [unwrap]. rewrite !bind_Done. etrans; [by apply IH|]. cbn. by rewrite <-app_assoc.
Qed.

Section serves.
Context `{Profile} {T : Type} `{TendrilOk T} {B M : Type} `{BackendOps B Message.t}
  `{!LinkedHashMap Channel.InFlightState M} `{!LinkedHashMapOk Channel.InFlightState M}
  `{Json InnerQueue.QueueCheckpoint}
  `{Json Config.ServerConfig} `{Json (gmap (list Z) Config.QueueConfig)}
  `{Json (gmap (list Z) InnerQueue.QueueInfo)} `{Json ServerInfo}
  {E Tm : Type} `{!EqDecision Tm} `{EventLoopOk E Tm}.
Variable value_size : Z.
Variable new_backend : Config.QueueConfig → outcome B.
Variable io_debug : Z → list Z.

Abbreviation sys := (System.sys (T:=T) (B:=B) (M:=M) (E:=E) (Tm:=Tm)).
Implicit Types (x : sys) (cfg : Config.ServerConfig) (names paths : list (list Z)).

(** The queues of a server that opens the directories [names]. *)
Lemma server_new_ok bound os open_backend checkpoint_file now num_cpus cfg paths names (e : E) :
  bound (Config.bind_address cfg) = true → queue_name <$> paths = Some <$> names →
  (∀ name, name ∈ names → ∃ b du,
    open_backend (Config.new_queue_config cfg name) = Done b ∧ be_disk_usage b = Done du) →
  ∃ x, server_new bound os open_backend checkpoint_file now num_cpus cfg (Ok (Ok <$> paths)) e = Done (x : sys) ∧
    dom (queues x) = list_to_set names ∧
    ∀ name q, queues x !! name = Some q → found open_backend checkpoint_file (Config.new_queue_config cfg name) q.
Proof.
  intros Hb Hn Hop. unfold server_new. rewrite Hb. cbn [assert]. rewrite bind_Done.
  unfold Config.read_queue_configs. rewrite (read_entries_ok cfg paths names [] Hn), bind_Done. cbn [Config.expect app].
  rewrite bind_Done.
  match goal with |- context [open_queues _ _ _ _ _ ∅ ?s] => set (s0 := s) end.
  destruct (open_queues_ok os open_backend checkpoint_file now (Config.new_queue_config cfg <$> names) ∅ s0)
    as (qs & s & -> & Hd & Hq).
  { apply Forall_fmap, Forall_forall. intros name Hin. by apply Hop. }
  rewrite bind_Done. eexists. split; [reflexivity|]. cbn [queues]. split.
  - rewrite Hd, dom_empty_L, (left_id_L ∅ (∪)). f_equal. rewrite <-list_fmap_compose. by apply list_fmap_id.
  - intros name q Hl. destruct (Hq _ _ Hl) as [Hl'|(c & (n & -> & Hin)%list_elem_of_fmap & <- & Hf)]; [by rewrite lookup_empty in Hl'|].
    exact Hf.
Qed.

Lemma run_sys_inv max_connections x0 x :
  max_connections < 2 ^ 16 → sys_inv x0 → rtc (step value_size new_backend io_debug max_connections) x0 x → sys_inv x.
Proof. intros Hm Hx0 Hx. induction Hx as [|x0 x1 x Hst _ IH]; [done|]. apply IH. by eapply sys_step_inv. Qed.


End serves.
End Startup.
