(* ===== verification/SystemProps.v ===== *)
(** * Properties of the whole server

    In every reachable state the loop handles whatever can come up, but for
    the events that are named, and no client is forgotten; what goes wrong
    when a timer fires for a client that wakes, and when a client that pushed
    hangs up. *)
From S2P Require Import Prelude.
From S2P Require Import Offsets.
From S2P Require Import Text.
From S2P Require Import Settings.
From S2P Require Import Segments.
From S2P Require Import Backend.
From S2P Require Import Channels.
From S2P Require Import Queues.
From S2P Require Import Wire.
From S2P Require Import WireProps.
From S2P Require Import Commands.
From S2P Require Import Server.
From S2P Require Import Tables.
From S2P Require Import Mirror.
From S2P Require Import Handler.
From S2P Require Import HandlerProps.
From S2P Require Import Iterations.
From S2P Require Import System.

Section props.
Context `{Profile} {T : Type} `{TendrilOk T} {B M : Type} `{BackendOps B Message.t}
  `{LinkedHashMap Channel.InFlightState M} `{Json InnerQueue.QueueCheckpoint}
  `{Json Config.ServerConfig} `{Json (gmap (list Z) Config.QueueConfig)}
  `{Json (gmap (list Z) InnerQueue.QueueInfo)} `{Json ServerInfo}
  {E Tm : Type} `{!EqDecision Tm} `{EventLoopOk E Tm}.
Variable value_size : Z.
Variable new_backend : Config.QueueConfig → outcome B.
Variable io_debug : Z → list Z.
Variable max_connections : Z.
Implicit Types (x : sys (T:=T) (B:=B) (M:=M) (E:=E) (Tm:=Tm)) (h : ServerHandler.t T E Tm).


(** C12: No client is forgotten: in every reachable state a connected client
    is read from, or written to, or its request is with a worker or its
    answer under way, or it waits with a live timer, listed under its
    channel or about to wake. *)
Theorem no_client_forgotten x t c :
  max_connections < 2 ^ 16 → reachable value_size new_backend io_debug max_connections x →
  ServerHandler.clients (handler x) !! t = Some c →
  readable (Client.interest c) = true ∨ writable (Client.interest c) = true ∨
  (∃ k, Client.processing c = Some k ∧
    (k ∈ job_cookie <$> Server.jobs (ServerHandler.server (handler x)) ∨ ∃ msg, (k, msg) ∈ replies x)) ∨
  (∃ tm q ch, Client.timeout c = Some (tm, q, ch) ∧
    live (ServerHandler.server (handler x)) tm = Some (mkTimeout t q ch) ∧
    (t ∈ ent (ServerHandler.server (handler x)) q ch ∨ t ∈ aw (ServerHandler.server (handler x)))).
Proof.
  intros Hm Hx%reachable_sys_inv Hc; [|done]. destruct Hx as [([Hr Hcl] & [_ Hpend] & _) _ _].
  destruct (co_progress _ _ (Hcl _ _ Hc)) as [?|[?|[[k Hk]|[[[tm q] ch] Ht]]]]; [by left|by right; left|..].
  - right; right; left. exists k. split; [done|].
    pose proof (proj2 (Hpend k) (ex_intro _ t (ex_intro _ c (conj Hc Hk)))) as Hin. unfold pending in Hin.
    apply elem_of_app in Hin as [?|([k' msg] & -> & ?)%list_elem_of_fmap]; [by left|right; by exists msg].
  - right; right; right. exists tm, q, ch. split; [done|]. apply (rg_waits _ _ _ _ Hr).
    by rewrite (waits_lookup _ _ _ Hc).
Qed.

(** C13: The lists of waiting clients are well formed in every reachable state:
    a token is listed once, under the queue and channel its client waits
    for, and not if it is about to wake; the live timers are those of the
    waiting clients, one each; a client's token is its place in the slab and
    fits a cookie, and it never waits and processes at once. *)
Theorem waiting_lists_well_formed x :
  max_connections < 2 ^ 16 → reachable value_size new_backend io_debug max_connections x →
  let s := ServerHandler.server (handler x) in
  let cl := ServerHandler.clients (handler x) in
  (∀ q ch, NoDup (ent s q ch)) ∧ NoDup (aw s) ∧
  (∀ t q ch, t ∈ ent s q ch → t ∉ aw s ∧ ∃ c tm, cl !! t = Some c ∧ Client.timeout c = Some (tm, q, ch)) ∧
  (∀ t c tm q ch, cl !! t = Some c →
    Client.timeout c = Some (tm, q, ch) ↔ live s tm = Some (mkTimeout t q ch)) ∧
  (∀ t c, cl !! t = Some c → Client.token c = t ∧ 0 < t < 2 ^ 16 ∧
    (Client.processing c = None ∨ Client.timeout c = None)).
Proof.
  intros Hm Hx%reachable_sys_inv; [|done]. destruct Hx as [([Hr Hcl] & _) _ _]. cbn zeta.
  assert (∀ t q ch tm, waits (ServerHandler.clients (handler x)) t = Some (tm, q, ch) →
    ∃ c, ServerHandler.clients (handler x) !! t = Some c ∧ Client.timeout c = Some (tm, q, ch)) as Hw.
  { intros t q ch tm Hw. apply bind_Some in Hw as (c & ? & ?). by exists c. }
  split_and!; [apply (rg_nodup _ _ _ _ Hr)|apply (rg_nodup_awaking _ _ _ _ Hr)|..].
  - intros t q ch (Ha & tm & (c & Hc & Ht)%Hw)%(rg_listed _ _ _ _ Hr). split; [done|]. by exists c, tm.
  - intros t c tm q ch Hc. split.
    + intros Ht. apply (rg_waits _ _ _ _ Hr). by rewrite (waits_lookup _ _ _ Hc).
    + intros Hl%(rg_live _ _ _ _ Hr). by rewrite (waits_lookup _ _ _ Hc) in Hl.
  - intros t c Hc. destruct (Hcl _ _ Hc). split_and!; first [done | lia].
Qed.

Lemma timeout_answer s (c : Client.t T Tm) q ch s' c' ok :
  ClientOps.timeout (E:=E) s c q ch = Done (s', c', ok) → response_inv (Client.response c) →
  ResponseBuffer.body (Client.response c) = [] →
  Client.timeout c' = None ∧ Client.interest c' = no_readable ev_all ∧
  outstanding (Client.response c') = Text.B "$-1" ++ crlf.
Proof.
  intros (? & _ & (? & _ & (s1 & _ & (c1 & Hs & [= _ <- _])%bind_Done_iff)%bind_Done_iff)%bind_Done_iff)%bind_Done_iff (Hok & _) Hb.
  apply bind_Done_iff in Hs as (b & Hpush & [= <-]).
  destruct (push_value_ok (Client.response c) (Value.Nil (T:=T)) RNil Hok eq_refl) as (b' & Hpush' & _ & Hout & _).
  pose proof (eq_trans (eq_sym Hpush) Hpush') as Heq. injection Heq as ->.
  split; [done|]. split; [done|]. etrans; [exact Hout|]. unfold outstanding. by rewrite Hb, drop_nil.
Qed.

(** C14: A blocked [HMGET] does not wait past its deadline: in every reachable
    state the timer of a waiting client that nothing has woken can fire, the
    loop handles it, and the client leaves its list and is answered with
    [Nil]. *)
Theorem deadline_answers_nil x t c tm q ch :
  max_connections < 2 ^ 16 → reachable value_size new_backend io_debug max_connections x →
  ServerHandler.clients (handler x) !! t = Some c → Client.timeout c = Some (tm, q, ch) →
  t ∉ aw (ServerHandler.server (handler x)) →
  possible max_connections x (ServerHandler.Timeout tm (mkTimeout t q ch)) x ∧
  ∃ h c', ServerHandler.handle value_size (handler x) (ServerHandler.Timeout tm (mkTimeout t q ch)) = Done h ∧
    ServerHandler.clients h !! t = Some c' ∧ Client.timeout c' = None ∧
    writable (Client.interest c') = true ∧ outstanding (Client.response c') = Text.B "$-1" ++ crlf ∧
    ∀ q' ch', t ∉ ent (ServerHandler.server h) q' ch'.
Proof.
  intros Hm Hx%reachable_sys_inv Hc Ht Ha; [|done]. pose proof (si_loop _ Hx) as ([Hr Hcl] & _).
  pose proof (waits_lookup _ _ _ Hc) as Hw. rewrite Ht in Hw.
  destruct (rg_waits _ _ _ _ Hr _ _ _ _ Hw) as [Hlive _].
  assert (possible max_connections x (ServerHandler.Timeout tm (mkTimeout t q ch)) x) as Hp
    by by apply possible_timeout.
  split; [done|].
  destruct (timeout_event value_size x tm (mkTimeout t q ch) Hx Hlive Ha) as (h & Hd & Hx').
  exists h. pose proof Hd as Hd'. cbn [ServerHandler.handle] in Hd'. unfold ServerHandler.on_timeout in Hd'.
  cbn [tm_token] in Hd'. pose proof (Hcl _ _ Hc) as Hco. pose proof (co_range _ _ Hco).
  rewrite (proj2 (Z.eqb_neq t ServerHandler.SERVER)) in Hd' by (unfold ServerHandler.SERVER; lia).
  unfold ServerHandler.timeout in Hd'. cbn [tm_token tm_queue tm_channel ServerHandler.clients] in Hd'. rewrite Hc in Hd'.
  destruct (finish_done _ _ _ _ _ Hd') as (s' & c' & ok & Hres & Hok).
  destruct (timeout_effect _ _ _ _ _ _ _ Hres) as [_ ->]. specialize (Hok eq_refl).
  destruct (timeout_answer _ _ _ _ _ _ _ Hres (co_response _ _ Hco)) as (Ht' & Hi & Hout);
    [apply (co_empty _ _ Hco); rewrite Ht; eauto|].
  assert (ServerHandler.clients h !! t = Some c') as Hc' by (rewrite Hok; apply lookup_insert_eq).
  exists c'. split_and!; [exact Hd|exact Hc'|exact Ht'|by rewrite Hi|exact Hout|].
  intros q' ch' Hin. pose proof (si_loop _ Hx') as ([Hr' _] & _).
  destruct (rg_listed _ _ _ _ Hr' t q' ch' Hin) as (_ & tm' & Hw'). cbn in Hw'.
  rewrite (waits_lookup _ _ _ Hc') in Hw'. congruence.
Qed.

(** ** What goes wrong *)

Lemma assert_cases (b : bool) : assert b = Panic ∨ assert b = Done ().
Proof. destruct b; auto. Qed.

Lemma unwrap_cases {A} (o : option A) : unwrap o = Panic ∨ ∃ a, unwrap o = Done a.
Proof. destruct o; [right; by eexists|by left]. Qed.

Lemma retry_cases s (c : Client.t T Tm) r now :
  ClientOps.retry (E:=E) s c r now = Panic ∨ ∃ s' c', ClientOps.retry s c r now = Done (s', c').
Proof.
  unfold ClientOps.retry. destruct (unwrap_cases (Client.timeout c)) as [->|[tm ->]]; [by left|]. rewrite bind_Done.
  unfold Server.clear_timeout. destruct (el_clear_timeout _ _) as [b e].
  destruct (assert_cases b) as [->| ->]; [by left|]. cbn [mbind outcome_bind]. unfold mret, outcome_ret.
  cbn [mbind outcome_bind]. unfold ClientOps.dispatch.
  destruct (assert_cases (bool_decide (Client.processing (Client.set_timeout c None) = None))) as [->| ->]; [by left|].
  right. rewrite bind_Done. by eexists _, _.
Qed.

(** A client that is to run its request again and does not wait any more. *)
Lemma retry_all_stuck h awaking now t :
  t ∈ awaking.*1 → waits (ServerHandler.clients h) t = None → ServerHandler.retry_all h awaking now = Panic.
Proof.
  revert h. induction awaking as [|[t' r] awaking IH]; intros [s cl] Hin Hw; [by apply elem_of_nil in Hin|].
  cbn [ServerHandler.retry_all ServerHandler.clients ServerHandler.server] in *. unfold waits in Hw.
  destruct (cl !! t') as [c|] eqn:Hc; [|done]. cbn [unwrap]. rewrite bind_Done.
  destruct (decide (t' = t)) as [->|Hne].
  - rewrite Hc in Hw. cbn in Hw. unfold ClientOps.retry. by rewrite Hw.
  - destruct (retry_cases s c r now) as [->|(s' & c' & ->)]; [done|]. rewrite bind_Done. apply IH.
    + cbn in Hin. apply elem_of_cons in Hin as [->|]; done.
    + cbn [ServerHandler.clients]. rewrite waits_insert, decide_False by done. exact Hw.
Qed.

(** C35: A client that a notification wakes and whose timer fires in the same
    iteration, before the tick, stops the server: it is answered with [Nil],
    and the tick that should run its request again unwraps a timer that is
    gone. *)
Theorem woken_timeout_panics h tm t q ch now :
  event_inv h → live (ServerHandler.server h) tm = Some (mkTimeout t q ch) → t ∈ aw (ServerHandler.server h) →
  ServerHandler.iteration value_size h [ServerHandler.Timeout tm (mkTimeout t q ch)] now = Panic.
Proof.
  intros [Hr Hcl] Hlive Ha. pose proof (rg_live _ _ _ _ Hr _ _ _ _ Hlive) as Hw. unfold waits in Hw.
  destruct h as [s cl]. cbn [ServerHandler.server ServerHandler.clients] in *.
  destruct (cl !! t) as [c|] eqn:Hc; [|done]. cbn in Hw. pose proof (Hcl _ _ Hc) as Hco.
  assert (Client.processing c = None) as Hp by (destruct (co_excl _ _ Hco); [done|congruence]).
  unfold ServerHandler.iteration. cbn [ServerHandler.handle_all ServerHandler.handle]. unfold ServerHandler.on_timeout.
  cbn [tm_token]. rewrite (proj2 (Z.eqb_neq t ServerHandler.SERVER))
    by (pose proof (co_range _ _ Hco); unfold ServerHandler.SERVER; lia).
  unfold ServerHandler.timeout. cbn [tm_token tm_queue tm_channel ServerHandler.clients ServerHandler.server]. rewrite Hc.
  unfold ServerHandler.finish, ClientOps.timeout. rewrite (bool_decide_true (Client.processing c = None)) by done.
  rewrite (bool_decide_true (is_Some (Client.timeout c))) by by rewrite Hw. cbn [assert mbind outcome_bind].
  unfold Server.notify_timeout, Server.retain. cbn [Server.set_loop Server.waiting_clients].
  destruct (Server.waiting_clients s !! q) as [w|]; [|done]. cbn [unwrap mbind outcome_bind].
  destruct (w_channels w !! ch) as [l|]; [|done]. cbn [unwrap mbind outcome_bind].
  destruct (send_response_ok t c (Client.set_timeout c None) Value.Nil Hco) as (c2 & Hsend & _ & _ & Ht2 & _).
  { apply sendable_nil. }
  { apply (co_empty _ _ Hco). right; right. by rewrite Hw. }
  { by apply (waiting_connected t). }
  { destruct c. cbn in *. by rewrite Hp. }
  unfold mret, outcome_ret. cbn [mbind outcome_bind]. rewrite Hsend. cbn [mbind outcome_bind]. unfold ServerHandler.tick.
  rewrite (retry_all_stuck _ _ now t); [done|exact Ha|]. cbn. by rewrite waits_insert, decide_True.
Qed.

(** The answer to [RPUSH] is also what wakes the clients that wait for
    messages. When the pushing client hangs up before it arrives, the answer
    is dropped and nobody wakes, although the messages are stored. *)
Theorem hung_up_push_wakes_nobody h t c cookie v q head now :
  ServerHandler.clients h !! t = Some c → Client.processing c = Some cookie → Cookie.token cookie = t →
  Client.timeout c = None → Client.hup c = true →
  ServerHandler.notify h cookie (NotifyMessage.PutResponse v q head) now =
    Done (ServerHandler.mk (ServerHandler.server h) (delete t (ServerHandler.clients h))).
Proof.
  destruct h as [s cl]. cbn [ServerHandler.server ServerHandler.clients]. intros Hc Hp Hk Ht Hh.
  unfold ServerHandler.notify. rewrite Hk. cbn [ServerHandler.server ServerHandler.clients]. rewrite Hc.
  unfold ServerHandler.finish, ClientOps.notify. rewrite (bool_decide_true (Client.timeout c = None)) by done.
  cbn [assert mbind outcome_bind]. rewrite bool_decide_false by (rewrite Hp; by intros []). cbn zeta.
  change (Client.hup (Client.set_processing c None)) with (Client.hup c). rewrite Hh.
  unfold mret, outcome_ret. cbn [mbind outcome_bind]. unfold ServerHandler.remove_client.
  cbn [ServerHandler.server ServerHandler.clients]. rewrite lookup_insert_eq. cbn [unwrap mbind outcome_bind].
  unfold Server.notify_client_gone. change (Client.timeout (Client.set_processing c None)) with (Client.timeout c).
  rewrite Ht. unfold mret, outcome_ret. cbn [mbind outcome_bind]. by rewrite delete_insert_eq.
Qed.

End props.
