(* ===== verification/EndToEnd.v ===== *)
(** * At-least-once delivery by the whole server

    The transition system of [System.v] with, for every queue, the record
    that [Delivery.v] keeps of its channels (where a channel started and what
    was acknowledged on it). A request changes the record by its script
    (file [Scripts.v]), the background threads do not change it, and a new
    queue starts an empty one. *)
From S2P Require Import Prelude.
From S2P Require Import Offsets.
From S2P Require Import Text.
From S2P Require Import Settings.
From S2P Require Import Segments.
From S2P Require Import SegmentSpec.
From S2P Require Import Backend.
From S2P Require Import LogSpec.
From S2P Require Import Channels.
From S2P Require Import ChannelFacts.
From S2P Require Import Queues.
From S2P Require Import QueueFacts.
From S2P Require Import Delivery.
From S2P Require Import Wire.
From S2P Require Import WireProps.
From S2P Require Import Commands.
From S2P Require Import CommandProps.
From S2P Require Import Scripts.
From S2P Require Import Server.
From S2P Require Import Tables.
From S2P Require Import Mirror.
From S2P Require Import Handler.
From S2P Require Import HandlerProps.
From S2P Require Import Iterations.
From S2P Require Import System.

(** Choosing a value for every key of a finite map. *)
Lemma map_choice {V W : Type} (m : gmap (list Z) V) (P : list Z → V → W → Prop) :
  (∀ k v, m !! k = Some v → ∃ w, P k v w) →
  ∃ m' : gmap (list Z) W, ∀ k v, m !! k = Some v → ∃ w, m' !! k = Some w ∧ P k v w.
Proof.
  induction m as [|k v m Hk IH] using map_ind; intros HP; [by exists ∅|].
  destruct IH as [m' Hm'].
  { intros k' v' Hk'. apply HP. rewrite bytes_insert_ne by congruence. done. }
  destruct (HP k v) as [w Hw]; [apply bytes_insert_eq|]. exists (<[k := w]> m'). intros k' v'.
  destruct (decide (k = k')) as [<-|Hne].
  - rewrite !bytes_insert_eq. intros [= <-]. by exists w.
  - rewrite !bytes_insert_ne by done. apply Hm'.
Qed.

Module EndToEnd.
Section server.
Context `{Profile} {T : Type} `{TendrilOk T} {B M : Type} `{BackendOk B Message.t}
  `{!LinkedHashMap Channel.InFlightState M} `{!LinkedHashMapOk Channel.InFlightState M}
  `{Json InnerQueue.QueueCheckpoint}
  `{Json Config.ServerConfig} `{Json (gmap (list Z) Config.QueueConfig)}
  `{Json (gmap (list Z) InnerQueue.QueueInfo)} `{Json ServerInfo}
  {E Tm : Type} `{!EqDecision Tm} `{EventLoopOk E Tm}.
Variable value_size : Z.
Variable new_backend : Config.QueueConfig → outcome B.
Variable io_debug : Z → list Z.
Variable max_connections : Z.
Variable os : Os.

(** The system calls work, and a new backend is an empty log. *)
Hypothesis Hos : no_faults os.
Hypothesis new_backend_ok : ∀ c b, new_backend c = Done b → be_rep b 1 [] ∧ be_config b = c.

Abbreviation sys := (System.sys (T:=T) (B:=B) (M:=M) (E:=E) (Tm:=Tm)).
Abbreviation queue := (InnerQueue.t B M).
(** For every queue, what is known of its channels. *)
Abbreviation records := (gmap (list Z) (gmap (list Z) ghost)).
Implicit Types (x : sys) (env : Dispatch.Env T) (args : list (list Z)) (q : queue) (R : records) (G : gmap (list Z) ghost).

(** Every operation of a script is within the ranges of [admissible]. *)
Fixpoint script_ok env (ops : list op) q : Prop :=
  match ops with
  | [] => True
  | o :: ops => admissible os o q ∧ ∀ q', Script.step_op env o q = Done (q', true) → script_ok env ops q'
  end.

(** The requests that the delivery guarantee is about: no [HMSET] and no
    [SREM queue *] ([Script.plain]), no hard retention for the queue it may
    create, and operations within the ranges of [admissible]. *)
Record prudent x env (args : list (list Z)) : Prop := {
  pr_os : Dispatch.os env = os;
  pr_written : Dispatch.written env = true;
  (** no hard retention *)
  pr_period : Config.hard_retention_period (Config.default_queue_config (Dispatch.config env)) = 0;
  pr_size : Config.hard_retention_size (Config.default_queue_config (Dispatch.config env)) = 0;
  pr_plain : Script.plain args;
  pr_queues name q : queues x !! name = Some q → script_ok env (Script.script env args name) q;
  pr_fresh name q : queues x !! name = None → CommandProps.Dispatch.fresh_queue new_backend env name q →
    script_ok env (Script.script env args name) q;
}.

(** [R'] is the record after a request that made [qs] of the queues. *)
Definition accounts x R env (args : list (list Z)) (qs : gmap (list Z) queue) R' : Prop :=
  ∀ name q', qs !! name = Some q' → ∃ q G,
    (queues x !! name = Some q ∧ R !! name = Some G ∨
     queues x !! name = None ∧ CommandProps.Dispatch.fresh_queue new_backend env name q ∧ G = ∅) ∧
    ∃ G', R' !! name = Some G' ∧
      (q' = q ∧ G' = G ∨ Script.exec env (Script.script env args name) q G = Done (q', G')).

Definition well_kept x R : Prop :=
  ∀ name q, queues x !! name = Some q → ∃ G start ms, R !! name = Some G ∧ queue_inv q start ms G.

Abbreviation step := (System.step value_size new_backend io_debug max_connections).

Inductive served : sys → records → Prop :=
| served_start bound os' open_backend checkpoint_file now num_cpus config dir e x R :
    (∀ tm, el_live e tm = None) →
    server_new bound os' open_backend checkpoint_file now num_cpus config dir e = Done x →
    well_kept x R → served x R
| served_request x R l1 j l2 env a args st msg R' :
    served x R → Server.jobs (ServerHandler.server (handler x)) = l1 ++ j :: l2 →
    Dispatch.config env = job_config j → Dispatch.clock env = job_clock j → replies_ok env →
    job_request j = Value.Array a → Dispatch.data_args a = Some args → prudent x env args →
    Dispatch.dispatch value_size new_backend io_debug env (Dispatch.mkState (queues x) [] (wiped x)) (job_request j)
      = Done (st, msg) →
    accounts x R env args (Dispatch.queues st) R' →
    served (mkSys (Dispatch.queues st) (Dispatch.wiped st) (set_jobs x (l1 ++ l2))
              (inbox x ++ Dispatch.sent st) (replies x ++ [(job_cookie j, msg)])) R'
| served_monitor x R name q q' clock msgs :
    served x R → queues x !! name = Some q → 0 ≤ clock → monitor_queue name q clock = Done (q', msgs) →
    served (mkSys (<[name := q']> (queues x)) (wiped x) (handler x) (inbox x ++ msgs) (replies x)) R
| served_maintenance x R name q q' clock :
    served x R → queues x !! name = Some q → be_gc_ready (InnerQueue.backend q) clock →
    maintain_queue os true q clock = Done q' →
    served (mkSys (<[name := q']> (queues x)) (wiped x) (handler x) (inbox x) (replies x)) R
(** events, ticks, and requests that touch no queue *)
| served_other x x' R : served x R → step x x' → queues x' = queues x → served x' R.

(** ** Lemmas *)

Lemma exec_inv env ops : ∀ q G q' G' start ms,
  Dispatch.os env = os → queue_inv q start ms G → script_ok env ops q →
  Script.exec env ops q G = Done (q', G') → ∃ start' ms', queue_inv q' start' ms' G'.
Proof.
  induction ops as [|o ops IH]; intros q G q' G' start ms He Hq Hok; cbn [Script.exec].
  { intros [= <- <-]. by exists start, ms. }
  destruct Hok as [Ha Hok]. intros ([q1 go] & Hs & Hr)%bind_Done_iff.
  destruct (run_inv os Hos o q start ms G Hq Ha) as (q2 & start' & ms' & Hrun & Hq').
  pose proof (Script.step_op_run env o q q1 go Hs) as Hrun1. rewrite He, Hrun in Hrun1. injection Hrun1 as <-.
  destruct go; [|injection Hr as <- <-; by exists start', ms']. eapply IH; [done|exact Hq'|by apply Hok|exact Hr].
Qed.

Lemma fresh_inv x env args name q :
  prudent x env args → CommandProps.Dispatch.fresh_queue new_backend env name q →
  ∃ start ms, queue_inv q start ms ∅.
Proof.
  intros Hp (b & Hb & Hn). destruct (new_backend_ok _ _ Hb) as [Hrep Hcfg].
  pose proof (CommandProps.Dispatch.new_channels env _ _ _ Hn) as Hch.
  unfold InnerQueue.new in Hn. rewrite (pr_os _ _ _ Hp), (pr_written _ _ _ Hp) in Hn.
  apply bind_Done_iff in Hn as ([q1 file] & Hc & [= <-]).
  assert (queue_inv (InnerQueue.mk (Config.new_queue_config (Dispatch.config env) name) b ∅ InnerQueue.Ready) 1 [] ∅) as Hq0.
  { constructor; try done; cbn; [apply (pr_period _ _ _ Hp)|apply (pr_size _ _ _ Hp)]. }
  destruct (checkpoint_inv os Hos _ _ _ _ false Hq0) as (q2 & file2 & Hc2 & Hq2 & _).
  rewrite Hc2 in Hc. injection Hc as <- <-. by exists 1, [].
Qed.

Lemma well_kept_insert x qs w h ib rs R name q q' :
  well_kept x R → queues x !! name = Some q → qs = <[name := q']> (queues x) →
  (∀ G start ms, queue_inv q start ms G → ∃ start' ms', queue_inv q' start' ms' G) →
  well_kept (mkSys qs w h ib rs) R.
Proof.
  intros Hk Hq -> Hi name' q2. cbn [queues]. destruct (decide (name = name')) as [<-|Hne].
  - rewrite bytes_insert_eq. intros [= <-]. destruct (Hk _ _ Hq) as (G & start & ms & HG & Hinv).
    destruct (Hi _ _ _ Hinv) as (start' & ms' & Hinv'). by exists G, start', ms'.
  - rewrite bytes_insert_ne by done. apply Hk.
Qed.

Lemma request_kept x R env args (qs : gmap (list Z) queue) R' w h ib rs :
  well_kept x R → prudent x env args → accounts x R env args qs R' → well_kept (mkSys qs w h ib rs) R'.
Proof.
  intros Hk Hp Ha name q' Hq'. cbn [queues] in Hq'. destruct (Ha _ _ Hq') as (q & G & Hsrc & G' & HG' & Hr).
  assert (∃ start ms, queue_inv q start ms G) as (start & ms & Hq).
  { destruct Hsrc as [[Hq HG]|(_ & Hf & ->)]; [|by eapply fresh_inv].
    destruct (Hk _ _ Hq) as (G2 & start & ms & HG2 & Hi). rewrite HG in HG2. injection HG2 as <-. by exists start, ms. }
  assert (script_ok env (Script.script env args name) q) as Hok.
  { destruct Hsrc as [[Hq1 _]|(Hn & Hf & _)]; [by eapply pr_queues|by eapply pr_fresh]. }
  exists G'. destruct Hr as [[-> ->]|He]; [by exists start, ms|].
  destruct (exec_inv env _ _ _ _ _ _ _ (pr_os _ _ _ Hp) Hq Hok He) as (start' & ms' & Hq2). by exists start', ms'.
Qed.

(** A visit of the monitor is an operation of [Delivery.v]. *)
Lemma monitor_runs name q clock q' msgs :
  monitor_queue (T:=T) name q clock = Done (q', msgs) → run os (UpdateChannels clock) q = Done q'.
Proof.
  intros Hm. cbn [run]. unfold monitor_queue in Hm. unfold InnerQueue.iter_channels in *.
  destruct (map_values _ _); [|done..]. cbn in *. by injection Hm as <- _.
Qed.

Lemma served_kept x R : served x R → well_kept x R.
Proof.
  induction 1 as [| x R l1 j l2 env a args st msg R' _ IH _ _ _ _ _ _ Hp _ Ha | x R name q q' clock msgs _ IH Hq Hc Hm
    | x R name q q' clock _ IH Hq Hg Hm | x x' R _ IH _ Heq]; [done|by eapply request_kept|..].
  - eapply well_kept_insert; [exact IH|exact Hq|done|]. intros G start ms Hi.
    destruct (run_inv os Hos (UpdateChannels clock) _ _ _ _ Hi Hc) as (q2 & start' & ms' & Hrun & Hi').
    rewrite (monitor_runs _ _ _ _ _ Hm) in Hrun. injection Hrun as <-. by exists start', ms'.
  - eapply well_kept_insert; [exact IH|exact Hq|done|]. intros G start ms Hi.
    destruct (run_inv os Hos (Maintenance clock) _ _ _ _ Hi Hg) as (q2 & start' & ms' & Hrun & Hi').
    exists start', ms'. enough (q2 = q') as -> by done. cbn [run] in Hrun. unfold maintain_queue in Hm.
    destruct (InnerQueue.maintenance _ _ _ _) as [[[q3 p] f]| |]; [|done..]. cbn in Hrun, Hm.
    injection Hrun as <-. by injection Hm.
  - intros name q. rewrite Heq. apply IH.
Qed.

Lemma served_reachable x R :
  served x R → System.reachable value_size new_backend io_debug max_connections x.
Proof.
  induction 1 as [| x R l1 j l2 env a args st msg R' _ IH Hj Hc Hk Hr _ _ _ Hd _ | x R name q q' clock msgs _ IH Hq _ Hm
    | x R name q q' clock _ IH Hq _ Hm | x x' R _ IH Hst _].
  - by eapply reachable_new.
  - eapply reachable_step; [exact IH|]. by eapply step_work.
  - eapply reachable_step; [exact IH|]. by eapply step_monitor.
  - eapply reachable_step; [exact IH|]. by eapply step_maintenance.
  - by eapply reachable_step.
Qed.

(** Every request can be accounted for. *)
Lemma request_accounts x R env a args st msg w :
  well_kept x R → Dispatch.data_args a = Some args → Script.plain args →
  Dispatch.dispatch value_size new_backend io_debug env (Dispatch.mkState (queues x) [] w) (Value.Array a)
    = Done (st, msg) →
  ∃ R', accounts x R env args (Dispatch.queues st) R'.
Proof.
  intros Hk Ha Hp Hd. unfold accounts.
  destruct (map_choice (Dispatch.queues st) (λ name q' G', ∃ q G,
    (queues x !! name = Some q ∧ R !! name = Some G ∨
     queues x !! name = None ∧ CommandProps.Dispatch.fresh_queue new_backend env name q ∧ G = ∅) ∧
    (q' = q ∧ G' = G ∨ Script.exec env (Script.script env args name) q G = Done (q', G')))) as [R' HR'].
  - intros name q' Hq'.
    destruct (Script.dispatch_follows _ _ _ _ _ _ _ _ _ Ha Hp Hd name q' Hq') as (q & Hsrc & Hr). cbn in Hsrc.
    assert (∃ G, queues x !! name = Some q ∧ R !! name = Some G ∨
      queues x !! name = None ∧ CommandProps.Dispatch.fresh_queue new_backend env name q ∧ G = ∅) as [G HG].
    { destruct Hsrc as [Hq|[Hn Hf]]; [|by exists ∅; right].
      destruct (Hk _ _ Hq) as (G & _ & _ & HG & _). exists G. by left. }
    destruct Hr as [->|He]; [exists G, q, G; auto|]. destruct (He G) as [G' HG']. exists G', q, G. auto.
  - exists R'. intros name q' Hq'. destruct (HR' _ _ Hq') as (G' & HG' & q & G & Hsrc & Hr).
    exists q, G. split; [done|]. exists G'. by split.
Qed.

(** *** Only [HDEL] acknowledges *)

Lemma ghost_step_acked o q G cn g' :
  (∀ n t c, o ≠ Ack n t c) → ghost_step o q G !! cn = Some g' → acked g' = ∅ ∨ G !! cn = Some g'.
Proof.
  intros Ho Hg. destruct o as [| |n t c|n c|n|n c| | |]; cbn [ghost_step] in Hg; try by right.
  - by destruct (Ho n t c).
  - destruct (InnerQueue.channels q !! n); [by right|]. destruct (decide (n = cn)) as [<-|Hne].
    + rewrite bytes_insert_eq in Hg. injection Hg as <-. by left.
    + rewrite bytes_insert_ne in Hg by done. by right.
  - destruct (decide (n = cn)) as [<-|Hne]; [by rewrite bytes_delete_eq in Hg|].
    rewrite bytes_delete_ne in Hg by done. by right.
  - destruct (InnerQueue.channels q !! n); [|by right]. destruct (decide (n = cn)) as [<-|Hne].
    + rewrite bytes_insert_eq in Hg. injection Hg as <-. by left.
    + rewrite bytes_insert_ne in Hg by done. by right.
Qed.

Lemma exec_acked env ops cn g' : ∀ q G q' G',
  Forall (λ o, ∀ n t c, o ≠ Ack n t c) ops → Script.exec env ops q G = Done (q', G') → G' !! cn = Some g' →
  acked g' = ∅ ∨ G !! cn = Some g'.
Proof.
  induction ops as [|o ops IH]; intros q G q' G' Ho; cbn [Script.exec]; [by intros [= _ <-]; right|].
  apply Forall_cons in Ho as [Ho1 Ho]. intros ([q1 go] & _ & Hr)%bind_Done_iff Hg'.
  assert (acked g' = ∅ ∨ ghost_step o q G !! cn = Some g') as [?|Hg]; [|by left|by apply ghost_step_acked in Hg].
  destruct go; [by eapply IH|]. injection Hr as _ <-. by right.
Qed.

Lemma script_no_acks env args name :
  args !! 0%nat ≠ Some (Text.B "HDEL") → Forall (λ o, ∀ n t c, o ≠ Ack n t c) (Script.script env args name).
Proof.
  intros Hn. unfold Script.script.
  repeat (case_bool_decide || case_match); subst; try (by repeat constructor); try by destruct Hn.
  all: apply Forall_fmap, Forall_true; by intros ?.
Qed.

(** ** Theorem *)

(** C3: The whole server delivers at least once, for the requests and
    configurations of [prudent]: neither [HMSET] nor [SREM queue *], a
    configuration without hard retention (which drops messages whatever the
    channels have read, and which [floki.toml] sets to 24 hours), and
    arguments in range (clocks, sizes, room for another id, tickets not drawn
    before). Whatever such requests workers run, and what the background
    threads and the event loop do in between, every message from a channel's
    origin on was acknowledged on that channel, or it is still in the log, is
    in flight or not yet read, and is not below the position that
    checkpoints and garbage collection use. The record of
    what was acknowledged goes on with every request, and [HDEL] is the only
    one that adds to it. *)
Theorem server_delivers x R :
  served x R →
  (∀ name q cn c, queues x !! name = Some q → InnerQueue.channels q !! cn = Some c →
    ∃ start ms G g n, R !! name = Some G ∧ G !! cn = Some g ∧ be_rep (InnerQueue.backend q) start ms ∧
      Channel.real_tail c = Done n ∧
      ∀ id, origin g ≤ id < be_head (InnerQueue.backend q) →
        id ∈ acked g ∨
        (n ≤ id ∧ (id ∈ entry_id <$> in_flight c ∨ Channel.tail c ≤ id) ∧ ∃ y, entry start ms id = Some (id, y))) ∧
  (∀ env a args st msg w, Dispatch.data_args a = Some args → Script.plain args →
    Dispatch.dispatch value_size new_backend io_debug env (Dispatch.mkState (queues x) [] w) (Value.Array a)
      = Done (st, msg) → ∃ R', accounts x R env args (Dispatch.queues st) R') ∧
  (∀ env args qs R' name q' G' cn g', accounts x R env args qs R' → args !! 0%nat ≠ Some (Text.B "HDEL") →
    qs !! name = Some q' → R' !! name = Some G' → G' !! cn = Some g' →
    acked g' = ∅ ∨ ∃ G, R !! name = Some G ∧ G !! cn = Some g').
Proof.
  intros Hk%served_kept. split_and!.
  - intros name q cn c Hq Hc. destruct (Hk _ _ Hq) as (G & start & ms & HG & Hi).
    destruct (queue_inv_chan _ _ _ _ _ _ Hi Hc) as (g & Hg & Hci).
    destruct (be_bounds _ _ _ (qi_rep _ _ _ _ Hi)) as (_ & Hhd & _).
    destruct (unacked_stored _ _ _ _ Hci) as (n & Hn & Hall).
    exists start, ms, G, g, n. split_and!; [done|done|apply (qi_rep _ _ _ _ Hi)|done|].
    intros id Hid. destruct (decide (id ∈ acked g)) as [|Hna]; [by left|right].
    destruct (Hall id) as (? & ? & ?); [lia|done|]. split_and!; [done|done|].
    destruct (entry_stored start ms id) as (y & Hy & _); [lia|]. by exists y.
  - intros env a args st msg w Ha Hp Hd. by eapply request_accounts.
  - intros env args qs R' name q' G' cn g' Ha Hh Hq' HG' Hg'.
    destruct (Ha _ _ Hq') as (q & G & Hsrc & G2 & HG2 & Hr). rewrite HG' in HG2. injection HG2 as <-.
    assert (acked g' = ∅ ∨ G !! cn = Some g') as [?|Hg]; [|by left|].
    + destruct Hr as [[_ ->]|He]; [by right|]. eapply exec_acked; [by apply script_no_acks|exact He|done].
    + destruct Hsrc as [[_ HG]|(_ & _ & ->)]; [right; by exists G|done].
Qed.

End server.
End EndToEnd.
