(* ===== verification/Rounds.v ===== *)
(** * Rounds of the background threads ([Server::start_monitor],
    [Server::start_maintenance])

    What one turn of the loop of each thread does to all queues: the visits
    of single queues of [System.v] in a row. *)
From S2P Require Import Prelude.
From S2P Require Import Offsets.
From S2P Require Import Text.
From S2P Require Import Settings.
From S2P Require Import Segments.
From S2P Require Import SegmentSpec.
From S2P Require Import Backend.
From S2P Require Import LogSpec.
From S2P Require Import Channels.
From S2P Require Import ChannelFacts.
From S2P Require Import Queues.
From S2P Require Import QueueFacts.
From S2P Require Import Delivery.
From S2P Require Import Wire.
From S2P Require Import WireProps.
From S2P Require Import Commands.
From S2P Require Import CommandProps.
From S2P Require Import Scripts.
From S2P Require Import Server.
From S2P Require Import Tables.
From S2P Require Import Mirror.
From S2P Require Import Handler.
From S2P Require Import HandlerProps.
From S2P Require Import System.
From S2P Require Import EndToEnd.

Module Rounds.

(** ** The loops *)
Section rounds.
Context `{Profile} {T B M : Type} `{BackendOps B Message.t} `{!LinkedHashMap Channel.InFlightState M}
  `{Json InnerQueue.QueueCheckpoint}.
Abbreviation queue_t := (InnerQueue.t B M).

(** The monitor holds the lock of the table all the way: it sees every
    queue once. *)
Fixpoint monitor_all (clock : Z) (entries : list (list Z * queue_t)) (qs : gmap (list Z) queue_t) :
    outcome (gmap (list Z) queue_t * list (NotifyMessage.t T)) :=
  match entries with
  | [] => mret (qs, [])
  | (name, q) :: entries =>
      '(q, msgs) ← monitor_queue name q clock;
      '(qs, rest) ← monitor_all clock entries (<[name := q]> qs);
      mret (qs, msgs ++ rest)
  end.

Definition monitor_round (clock : Z) (qs : gmap (list Z) queue_t) := monitor_all clock (map_to_list qs) qs.

(** The maintenance copies the names and looks each queue up again; the clock
    is read for each, [clocks] in the order of the reads. *)
Fixpoint maintain_all (os : Os) (clocks : nat → Z) (names : list (list Z)) (qs : gmap (list Z) queue_t) :
    outcome (gmap (list Z) queue_t) :=
  match names with
  | [] => mret qs
  | name :: names =>
      match qs !! name with
      | Some q =>
          q ← maintain_queue os true q (clocks O);
          maintain_all os (λ i, clocks (S i)) names (<[name := q]> qs)
      | None => maintain_all os clocks names qs
      end
  end.

Definition maintenance_round (os : Os) (clocks : nat → Z) (qs : gmap (list Z) queue_t) :=
  maintain_all os clocks (map_to_list qs).*1 qs.

End rounds.

Section server.
Context `{Profile} {T : Type} `{TendrilOk T} {B M : Type} `{BackendOk B Message.t}
  `{!LinkedHashMap Channel.InFlightState M} `{!LinkedHashMapOk Channel.InFlightState M}
  `{Json InnerQueue.QueueCheckpoint}
  `{Json Config.ServerConfig} `{Json (gmap (list Z) Config.QueueConfig)}
  `{Json (gmap (list Z) InnerQueue.QueueInfo)} `{Json ServerInfo}
  {E Tm : Type} `{!EqDecision Tm} `{EventLoopOk E Tm}.
Variable value_size : Z.
Variable new_backend : Config.QueueConfig → outcome B.
Variable io_debug : Z → list Z.
Variable max_connections : Z.
Variable os : Os.
Hypothesis Hos : no_faults os.
Hypothesis new_backend_ok : ∀ c b, new_backend c = Done b → be_rep b 1 [] ∧ be_config b = c.

Abbreviation sys := (System.sys (T:=T) (B:=B) (M:=M) (E:=E) (Tm:=Tm)).
Abbreviation queue_t := (InnerQueue.t B M).
Abbreviation records := (gmap (list Z) (gmap (list Z) ghost)).
Abbreviation message := (NotifyMessage.t T).
Abbreviation served := (EndToEnd.served value_size new_backend io_debug max_connections os).
Implicit Types (x : sys) (q : queue_t) (R : records) (qs : gmap (list Z) queue_t) (msgs : list message).

Definition with_queues x qs msgs : sys := mkSys qs (wiped x) (handler x) (inbox x ++ msgs) (replies x).

(** ** The monitor *)

Definition announced msgs (name ch : list Z) : Prop := ∃ n, NotifyMessage.MessagesAvailable name ch n ∈ msgs.

(** The front message of the channel has timed out. *)
Definition timed_out q (ch : list Z) (clock : Z) : Prop :=
  ∃ c e, InnerQueue.channels q !! ch = Some c ∧ head (in_flight c) = Some e ∧ entry_expiration e ≤ clock.

Lemma expired_iff start hd (c : Channel.t M) g clock c' :
  channel_inv start hd c g → 0 ≤ clock → Channel.update_state c clock = Done c' →
  0 < Channel.expired_count c' ↔ ∃ e, head (in_flight c) = Some e ∧ entry_expiration e ≤ clock.
Proof.
  intros Hci Hc Hu.
  destruct (update_state_ok c clock (ci_ok _ _ _ _ Hci) Hc (ci_len _ _ _ _ Hci))
    as (c2 & k & Hu2 & _ & _ & _ & _ & Hk & Hle & _ & Hpast & Hnext).
  rewrite Hu in Hu2. injection Hu2 as <-. rewrite Hk. destruct k as [|k].
  - split; [lia|]. intros (e & He & Hx). rewrite head_lookup in He. specialize (Hnext _ He). lia.
  - split; [intros _|lia]. destruct (in_flight c) as [|e l]; [cbn in Hle; lia|]. exists e. split; [done|].
    by apply Forall_cons in Hpast as [? _].
Qed.

(** A visit announces the channels whose front message timed out. *)
Lemma monitor_queue_ok name q clock start ms G :
  queue_inv q start ms G → 0 ≤ clock →
  ∃ q' msgs, monitor_queue (T:=T) name q clock = Done (q', msgs) ∧
    (∀ ch, announced msgs name ch ↔ timed_out q ch clock) ∧
    ∀ name' ch, announced msgs name' ch → name' = name.
Proof.
  intros Hq Hc. destruct (map_values_ok (λ c, Channel.update_state c clock) (InnerQueue.channels q)) as (m & Hm & Hmap).
  { intros ch c Hch. destruct (queue_inv_chan _ _ _ _ _ _ Hq Hch) as (g & _ & Hci).
    destruct (update_state_inv _ _ _ _ clock Hci Hc) as (c' & Hu & _). by exists c'. }
  unfold monitor_queue, InnerQueue.iter_channels. rewrite Hm, !bind_Done. eexists _, _. split; [reflexivity|]. split.
  - intros ch. transitivity (∃ c', m !! ch = Some c' ∧ 0 < Channel.expired_count c').
    + split.
      * intros (n & ([ch' n'] & Hin%elem_of_map_to_list & Hs)%list_elem_of_omap). cbn in Hs. rewrite map_lookup_imap in Hin.
        destruct (m !! ch') as [c'|] eqn:Hch; [|done]. injection Hin as <-. destruct (0 <? _) eqn:Hn; [|done].
        injection Hs as -> <-. apply Z.ltb_lt in Hn. by exists c'.
      * intros (c' & Hch & Hn). exists (Channel.expired_count c'). apply list_elem_of_omap.
        exists (ch, Channel.messages_available c'). split; [apply elem_of_map_to_list; by rewrite map_lookup_imap, Hch|].
        cbn. unfold Channel.messages_available. by rewrite (proj2 (Z.ltb_lt _ _) Hn).
    + specialize (Hmap ch). unfold timed_out. destruct (InnerQueue.channels q !! ch) as [c|] eqn:Hch.
      * destruct Hmap as (c' & Hc' & Hu). destruct (queue_inv_chan _ _ _ _ _ _ Hq Hch) as (g & _ & Hci).
        pose proof (expired_iff _ _ _ _ _ _ Hci Hc Hu) as He. split.
        -- intros (c2 & Hc2 & Hn). assert (c2 = c') as -> by congruence. destruct (proj1 He Hn) as (e & ? & ?). by exists c, e.
        -- intros (c2 & e & [= <-] & Hx). exists c'. split; [done|]. apply He. by exists e.
      * split; [intros (c' & ? & _); congruence|by intros (c & e & ? & _)].
  - intros name' ch (n & ([ch' n'] & _ & Hs)%list_elem_of_omap). cbn in Hs. destruct (0 <? _); [|done]. by injection Hs.
Qed.

Lemma monitor_all_ok clock entries : ∀ x R,
  served x R → 0 ≤ clock → NoDup entries.*1 → (∀ name q, (name, q) ∈ entries → queues x !! name = Some q) →
  ∃ qs' msgs, monitor_all (T:=T) clock entries (queues x) = Done (qs', msgs) ∧ served (with_queues x qs' msgs) R ∧
    ∀ name ch, announced msgs name ch ↔ ∃ q, (name, q) ∈ entries ∧ timed_out q ch clock.
Proof.
  induction entries as [|[name q] entries IH]; intros x R Hx Hc Hnd Hin; cbn [monitor_all].
  { exists (queues x), []. split_and!; [done| |].
    - unfold with_queues. rewrite app_nil_r. by destruct x.
    - intros name ch. split; [by intros (n & []%elem_of_nil)|by intros (q & []%elem_of_nil & _)]. }
  cbn in Hnd. apply NoDup_cons in Hnd as [Hnot Hnd]. assert (queues x !! name = Some q) as Hq by (apply Hin; left).
  destruct (EndToEnd.served_kept _ _ _ _ _ Hos new_backend_ok _ _ Hx _ _ Hq) as (G & start & ms & _ & Hi).
  destruct (monitor_queue_ok name q clock start ms G Hi Hc) as (q' & msgs & Hm & Ha & Hown). rewrite Hm, bind_Done.
  pose proof (EndToEnd.served_monitor _ _ _ _ _ x R name q q' clock msgs Hx Hq Hc Hm) as Hx1.
  destruct (IH _ R Hx1 Hc Hnd) as (qs' & rest & Hr & Hs & Hall).
  { intros name2 q2 Hin2. cbn. rewrite bytes_insert_ne; [apply Hin; by right|]. intros <-. apply Hnot.
    apply list_elem_of_fmap. by exists (name, q2). }
  cbn [queues] in Hr. rewrite Hr, bind_Done. eexists _, _. split; [reflexivity|]. split.
  { unfold with_queues in *. cbn in Hs. by rewrite <-app_assoc in Hs. }
  intros name2 ch. transitivity (announced msgs name2 ch ∨ announced rest name2 ch).
  { unfold announced. setoid_rewrite elem_of_app. naive_solver. }
  rewrite Hall. setoid_rewrite elem_of_cons. split.
  - intros [Ho|(q2 & Hin2 & Ht)]; [|exists q2; by split; [right|]].
    pose proof (Hown _ _ Ho) as ->. exists q. split; [by left|by apply Ha].
  - intros (q2 & [[= -> ->]|Hin2] & Ht); [left; by apply Ha|right; by exists q2].
Qed.

(** ** The maintenance *)

Lemma maintain_all_ok names : ∀ x R clocks,
  served x R → NoDup names →
  (∀ name q i, name ∈ names → queues x !! name = Some q → be_gc_ready (InnerQueue.backend q) (clocks i)) →
  ∃ qs', maintain_all os clocks names (queues x) = Done qs' ∧ served (with_queues x qs' []) R ∧ dom qs' = dom (queues x).
Proof.
  induction names as [|name names IH]; intros x R clocks Hx Hnd Hgc; cbn [maintain_all].
  { exists (queues x). split_and!; [done| |done]. unfold with_queues. rewrite app_nil_r. by destruct x. }
  apply NoDup_cons in Hnd as [Hnot Hnd]. destruct (queues x !! name) as [q|] eqn:Hq.
  2:{ apply IH; [done..|]. intros name2 q2 i Hin. apply Hgc. by right. }
  destruct (EndToEnd.served_kept _ _ _ _ _ Hos new_backend_ok _ _ Hx _ _ Hq) as (G & start & ms & _ & Hi).
  assert (be_gc_ready (InnerQueue.backend q) (clocks O)) as Hg by (apply (Hgc name); [left|done]).
  destruct (maintenance_inv os Hos q start ms G (clocks O) Hi Hg) as (q' & paths & cp & start' & Hm & _).
  assert (maintain_queue os true q (clocks O) = Done q') as Hmq by (unfold maintain_queue; by rewrite Hm).
  rewrite Hmq, bind_Done. pose proof (EndToEnd.served_maintenance _ _ _ _ _ x R name q q' (clocks O) Hx Hq Hg Hmq) as Hx1.
  destruct (IH _ R (λ i, clocks (S i)) Hx1 Hnd) as (qs' & Hr & Hs & Hd).
  { intros name2 q2 i Hin2. cbn. rewrite bytes_insert_ne by (intros <-; done). apply Hgc. by right. }
  exists qs'. split_and!; [exact Hr|exact Hs|]. rewrite Hd. cbn [queues]. rewrite dom_insert_L.
  assert (name ∈ dom (queues x)) by by apply elem_of_dom_2 in Hq. set_solver.
Qed.

(** ** Theorem *)

(** C9: The background threads serve every queue. At any time a round of the
    monitor goes through all queues and announces to the event loop exactly
    the channels whose front message has timed out; a round of the
    maintenance goes through all queues and loses none. After either the
    server is one that delivers at least once, with the same records. *)
Theorem background_rounds x R clock clocks :
  served x R → 0 ≤ clock →
  (∀ name q i, queues x !! name = Some q → be_gc_ready (InnerQueue.backend q) (clocks i)) →
  (∃ qs' msgs, monitor_round (T:=T) clock (queues x) = Done (qs', msgs) ∧ served (with_queues x qs' msgs) R ∧
    ∀ name ch, announced msgs name ch ↔ ∃ q, queues x !! name = Some q ∧ timed_out q ch clock) ∧
  (∃ qs', maintenance_round os clocks (queues x) = Done qs' ∧ served (with_queues x qs' []) R ∧ dom qs' = dom (queues x)).
Proof.
  intros Hx Hc Hgc. split.
  - destruct (monitor_all_ok clock (map_to_list (queues x)) x R Hx Hc) as (qs' & msgs & Hm & Hs & Ha).
    + apply NoDup_fst_map_to_list.
    + intros name q. apply elem_of_map_to_list.
    + exists qs', msgs. split_and!; [exact Hm|exact Hs|]. intros name ch. rewrite Ha. by setoid_rewrite elem_of_map_to_list.
  - apply maintain_all_ok; [done|apply NoDup_fst_map_to_list|]. intros name q i _. apply Hgc.
Qed.

End server.
End Rounds.
