(* ===== verification/ServerCrashes.v ===== *)
(** * The whole server crashes and starts again

    The server over the backend of [Backend.v], with each queue's files on
    disk and the maintenance of the queues in small steps beside requests,
    monitor and event loop. The process dies at any moment, and the server
    starts again ([Server::new]) from what is on disk; what was written
    through the mappings survives the process. *)
From S2P Require Import Prelude.
From S2P Require Import Offsets.
From S2P Require Import Text.
From S2P Require Import Settings.
From S2P Require Import Segments.
From S2P Require Import SegmentSpec.
From S2P Require Import Backend.
From S2P Require Import LogSpec.
From S2P Require Import BackendFacts.
From S2P Require Import Retention.
From S2P Require Import BackendRecovery.
From S2P Require Import CrashRecovery.
From S2P Require Import Channels.
From S2P Require Import ChannelFacts.
From S2P Require Import Queues.
From S2P Require Import QueueFacts.
From S2P Require Import Delivery.
From S2P Require Import Opening.
From S2P Require Import Maintenance.
From S2P Require Import Crashes.
From S2P Require Import Wire.
From S2P Require Import WireProps.
From S2P Require Import Commands.
From S2P Require Import CommandProps.
From S2P Require Import Scripts.
From S2P Require Import Server.
From S2P Require Import Tables.
From S2P Require Import Mirror.
From S2P Require Import Handler.
From S2P Require Import HandlerProps.
From S2P Require Import System.
From S2P Require Import Startup.
From S2P Require Import EndToEnd.

Module ServerCrashes.
Import Maintenance Crashes Opening.

Section server.
Context `{Profile} `{Hasher} `{!Json QueueBackend.checkpoint_t} `{!JsonOk QueueBackend.checkpoint_t}
  {T : Type} `{TendrilOk T} {M : Type}
  `{!LinkedHashMap Channel.InFlightState M} `{!LinkedHashMapOk Channel.InFlightState M}
  `{!Json InnerQueue.QueueCheckpoint} `{!JsonOk InnerQueue.QueueCheckpoint}
  `{Json Config.ServerConfig} `{Json (gmap (list Z) Config.QueueConfig)}
  `{Json (gmap (list Z) InnerQueue.QueueInfo)} `{Json ServerInfo}
  {E Tm : Type} `{!EqDecision Tm} `{EventLoopOk E Tm}.
Variable value_size : Z.
Variable io_debug : Z → list Z.
Variable max_connections : Z.
Variable os : Os.
Hypothesis Hos : no_faults os.

(** The backend of a new queue. *)
Definition new_backend (c : Config.QueueConfig) : outcome QueueBackend.t :=
  QueueBackend.new (λ _, os) ∅ None c false.

Abbreviation server := (System.sys (T:=T) (B:=QueueBackend.t) (M:=M) (E:=E) (Tm:=Tm)).
(** A queue with its record and its maintenance, and its files. *)
Abbreviation tracked := (Maintenance.sys (B:=QueueBackend.t) (M:=M) * disk)%type.
Abbreviation table := (gmap (list Z) tracked).
Abbreviation records := (gmap (list Z) (gmap (list Z) ghost)).
Abbreviation queue_t := (InnerQueue.t QueueBackend.t M).
Implicit Types (x : server) (L : table) (t : tracked) (env : Dispatch.Env T) (args : list (list Z)) (q : queue_t)
  (R : records) (G : gmap (list Z) ghost) (qs : gmap (list Z) queue_t).

(** ** The server and its files *)

Definition new_disk (c : Config.QueueConfig) : disk :=
  let b := QueueBackend.mk c [] 1 1 in
  match QueueBackend.checkpoint os true b false with
  | Done (b, file) => mkDisk b file
  | _ => mkDisk b []
  end.

Definition records_of L : records := (λ t, ghosts t.1) <$> L.

(** The table after a request: known queues go on, new ones have written
    their first files, deleted ones are gone. *)
Definition follow env R' qs L : table :=
  map_imap (λ name q',
    G' ← R' !! name;
    Some (match L !! name with
          | Some (m, d) => (mkSys q' G' (at_stage m) (file m), d)
          | None => (mkSys q' G' Resting (Some ∅), new_disk (Config.new_queue_config (Dispatch.config env) name))
          end)) qs.

(** The maintenance thread begins a visit, or goes on with it. *)
Inductive visit : Maintenance.sys (B:=QueueBackend.t) (M:=M) → Maintenance.sys (B:=QueueBackend.t) (M:=M) → Prop :=
| visit_begin q G clock w : visit (mkSys q G Resting w) (mkSys q G (begin q clock) w)
| visit_advance q G st w q' st' w' :
    gc_ready q st → advance os q st = Done (q', st', w') →
    visit (mkSys q G st w) (mkSys q' G st' (match w' with Some chans => Some chans | None => w end)).

(** Runs from the first start, on an empty directory. *)
Inductive life : server → table → Prop :=
| life_start bound os' open_backend checkpoint_file now num_cpus config e x :
    server_new bound os' open_backend checkpoint_file now num_cpus config (Ok []) e = Done x → life x ∅
| life_request x L l1 j l2 env a args st msg R' :
    life x L → Server.jobs (ServerHandler.server (handler x)) = l1 ++ j :: l2 →
    Dispatch.config env = job_config j → Dispatch.clock env = job_clock j → replies_ok env →
    job_request j = Value.Array a → Dispatch.data_args a = Some args →
    EndToEnd.prudent new_backend os x env args →
    (** channels are not created or deleted while the maintenance walks them *)
    (∀ name t, L !! name = Some t → Forall (λ o, beside o (at_stage t.1)) (Script.script env args name)) →
    Dispatch.dispatch value_size new_backend io_debug env (Dispatch.mkState (queues x) [] (wiped x)) (job_request j)
      = Done (st, msg) →
    EndToEnd.accounts new_backend x (records_of L) env args (Dispatch.queues st) R' →
    life (System.mkSys (Dispatch.queues st) (Dispatch.wiped st) (set_jobs x (l1 ++ l2))
            (inbox x ++ Dispatch.sent st) (replies x ++ [(job_cookie j, msg)]))
      (follow env R' (Dispatch.queues st) L)
| life_monitor x L name m d q' clock msgs :
    life x L → L !! name = Some (m, d) → 0 ≤ clock → monitor_queue name (queue m) clock = Done (q', msgs) →
    life (System.mkSys (<[name := q']> (queues x)) (wiped x) (handler x) (inbox x ++ msgs) (replies x))
      (<[name := (mkSys q' (ghosts m) (at_stage m) (file m), d)]> L)
| life_maintenance x L name m d m' :
    life x L → L !! name = Some (m, d) → visit m m' →
    life (System.mkSys (<[name := queue m']> (queues x)) (wiped x) (handler x) (inbox x) (replies x))
      (<[name := (m', flush os m m' d)]> L)
| life_other x x' L :
    life x L → System.step value_size new_backend io_debug max_connections x x' → queues x' = queues x → life x' L.

(** A script has no steps of a maintenance. *)
Lemma script_beside_rest env args name : Forall (λ o, beside o Resting) (Script.script env args name).
Proof.
  assert (∀ channel clk tickets, Forall (λ o, beside o Resting) (Script.acks channel clk tickets)) as Hacks.
  { intros channel clk tickets. induction tickets as [|t tickets IH]; cbn [Script.acks]; [done|].
    destruct (parse_i64 t); [|done]. by constructor. }
  unfold Script.script. repeat (case_bool_decide || case_match); try done; try (by repeat constructor); try apply Hacks.
  all: apply Forall_fmap, Forall_true; by intros ?.
Qed.

(** ** The invariant: every queue is in a state of [Crashes.v] *)

Record tracked_ok x L : Prop := {
  to_queues : queues x = (λ t, queue t.1) <$> L;
  to_reachable name t : L !! name = Some t → Crashes.reachable os t.1 t.2;
}.

Lemma script_reachable_on env ops st w (d : disk) : ∀ q G q' G',
  Dispatch.os env = os → Crashes.reachable os (mkSys q G st w) d → Forall (λ o, beside o st) ops →
  EndToEnd.script_ok os env ops q → Script.exec env ops q G = Done (q', G') →
  Crashes.reachable os (mkSys q' G' st w) d.
Proof.
  induction ops as [|o ops IH]; intros q G q' G' He Hx; cbn [Script.exec]; [by intros _ _ [= <- <-]|].
  intros [Hb Hbs]%Forall_cons [Ha Hok] ([q1 go] & Hs & Hr)%bind_Done_iff.
  pose proof (Script.step_op_run env o q q1 go Hs) as Hrun. rewrite He in Hrun.
  assert (Crashes.reachable os (mkSys q1 (ghost_step o q G) st w) d) as Hx1.
  { rewrite <-(flush_same os (mkSys q G st w) (mkSys q1 (ghost_step o q G) st w) d) by done.
    eapply reachable_on; [exact Hx|by apply step_op]. }
  destruct go; [|by injection Hr as <- <-]. eapply IH; [done|exact Hx1|done|by apply Hok|exact Hr].
Qed.

Lemma fresh_reachable x env args name q :
  EndToEnd.prudent new_backend os x env args → CommandProps.Dispatch.fresh_queue new_backend env name q →
  Crashes.reachable os (mkSys q ∅ Resting (Some ∅)) (new_disk (Config.new_queue_config (Dispatch.config env) name)).
Proof.
  intros Hp (b & [= <-] & Hn). rewrite (EndToEnd.pr_os _ _ _ _ _ Hp), (EndToEnd.pr_written _ _ _ _ _ Hp) in Hn.
  apply reachable_new with (cfg := Config.new_queue_config (Dispatch.config env) name); [..|done|done].
  - apply (EndToEnd.pr_period _ _ _ _ _ Hp).
  - apply (EndToEnd.pr_size _ _ _ _ _ Hp).
Qed.

Lemma follow_lookup env R' qs L name t :
  follow env R' qs L !! name = Some t → ∃ q' G', qs !! name = Some q' ∧ R' !! name = Some G' ∧
    t = match L !! name with
        | Some (m, d) => (mkSys q' G' (at_stage m) (file m), d)
        | None => (mkSys q' G' Resting (Some ∅), new_disk (Config.new_queue_config (Dispatch.config env) name))
        end.
Proof.
  unfold follow. rewrite map_lookup_imap. destruct (qs !! name) as [q'|]; [|done]. cbn.
  destruct (R' !! name) as [G'|]; [|done]. cbn. intros [= <-]. by exists q', G'.
Qed.

Lemma request_tracked x L env args qs R' w h ib rs :
  tracked_ok x L → EndToEnd.prudent new_backend os x env args →
  (∀ name t, L !! name = Some t → Forall (λ o, beside o (at_stage t.1)) (Script.script env args name)) →
  EndToEnd.accounts new_backend x (records_of L) env args qs R' →
  tracked_ok (System.mkSys qs w h ib rs) (follow env R' qs L).
Proof.
  intros [Hqs Hre] Hp Hb Ha. constructor; cbn [queues].
  - apply map_eq. intros name. rewrite lookup_fmap. unfold follow. rewrite map_lookup_imap.
    destruct (qs !! name) as [q'|] eqn:Hq'; [|done]. destruct (Ha _ _ Hq') as (q & G & _ & G' & HG' & _).
    cbn. rewrite HG'. cbn. by destruct (L !! name) as [[m d]|].
  - intros name t (q' & G' & Hq' & HG' & ->)%follow_lookup.
    destruct (Ha _ _ Hq') as (q & G & Hsrc & G2 & HG2 & Hr). rewrite HG' in HG2. injection HG2 as <-.
    destruct Hsrc as [[Hq HG]|(Hnone & Hf & ->)].
    + rewrite Hqs, lookup_fmap in Hq. unfold records_of in HG. rewrite lookup_fmap in HG.
      specialize (Hb name). destruct (L !! name) as [[[q0 G0 st0 w0] d]|] eqn:Hl; [|done].
      injection Hq as ->. injection HG as ->. specialize (Hb _ eq_refl). specialize (Hre _ _ Hl). cbn in Hre, Hb |- *.
      destruct Hr as [[-> ->]|He]; [done|]. eapply script_reachable_on; [apply (EndToEnd.pr_os _ _ _ _ _ Hp)|exact Hre|exact Hb| |exact He].
      apply (EndToEnd.pr_queues _ _ _ _ _ Hp). by rewrite Hqs, lookup_fmap, Hl.
    + assert (L !! name = None) as Hl.
      { rewrite Hqs, lookup_fmap in Hnone. by destruct (L !! name). }
      rewrite Hl. cbn. pose proof (fresh_reachable _ _ _ _ _ Hp Hf) as Hre0.
      destruct Hr as [[-> ->]|He]; [done|]. eapply script_reachable_on; [apply (EndToEnd.pr_os _ _ _ _ _ Hp)|exact Hre0| | |exact He].
      * apply script_beside_rest.
      * by apply (EndToEnd.pr_fresh _ _ _ _ _ Hp).
Qed.

Lemma visit_step m m' : visit m m' → step os m m'.
Proof. intros [q G clock w|q G st w q' st' w' Hg Ha]; [apply step_begin|by apply step_advance]. Qed.

Lemma tracked_insert x L name m d q' m' d' w h ib rs :
  tracked_ok x L → L !! name = Some (m, d) → queue m' = q' → Crashes.reachable os m' d' →
  tracked_ok (System.mkSys (<[name := q']> (queues x)) w h ib rs) (<[name := (m', d')]> L).
Proof.
  intros [Hqs Hre] Hl <- Hm'. constructor; cbn [queues].
  - rewrite fmap_insert. by rewrite Hqs.
  - intros name' t. destruct (decide (name = name')) as [<-|Hne].
    + rewrite bytes_insert_eq. by intros [= <-].
    + rewrite bytes_insert_ne by done. apply Hre.
Qed.

Lemma life_tracked x L : life x L → tracked_ok x L.
Proof.
  induction 1 as [bound os' ob cf now nc config e x Hn|x L l1 j l2 env a args st msg R' _ IH _ _ _ _ _ _ Hp Hb _ Ha
    |x L name m d q' clock msgs _ IH Hl Hc Hm|x L name m d m' _ IH Hl Hv|x x' L _ IH _ Heq].
  - apply bind_Done_iff in Hn as (u & _ & Hn). cbn in Hn. injection Hn as <-. constructor; [done|].
    intros name t. by rewrite lookup_empty.
  - by eapply request_tracked.
  - eapply tracked_insert; [exact IH|exact Hl|done|]. destruct m as [q G s w]. cbn.
    rewrite <-(flush_same os (mkSys q G s w) (mkSys q' G s w) d) by done.
    eapply reachable_on; [by apply (to_reachable _ _ IH _ _ Hl)|].
    apply (step_op os (UpdateChannels clock) q G q' s w); [done|done|by eapply EndToEnd.monitor_runs].
  - eapply tracked_insert; [exact IH|exact Hl|done|]. eapply reachable_on; [by apply (to_reachable _ _ IH _ _ Hl)|].
    by apply visit_step.
  - destruct IH as [Hqs Hre]. constructor; [by rewrite Heq|done].
Qed.

(** Every request of a run has a record to go on with. *)
Lemma life_kept x L : life x L → EndToEnd.well_kept x (records_of L).
Proof.
  intros [Hqs Hre]%life_tracked name q Hq. rewrite Hqs, lookup_fmap in Hq.
  destruct (L !! name) as [t|] eqn:Hl; [|done]. injection Hq as <-.
  destruct (reachable_crash_inv os Hos _ _ (Hre _ _ Hl)) as [(start & ms & Hi) _].
  exists (ghosts t.1), start, ms. split; [unfold records_of; by rewrite lookup_fmap, Hl|apply (mi_queue _ _ _ Hi)].
Qed.

(** ** What is on disk *)

Definition backend_on_disk (os' : Z → Os) L (c : Config.QueueConfig) : outcome QueueBackend.t :=
  match L !! Config.name c with
  | Some (m, d) =>
      QueueBackend.new os' (QueueBackend.segment_files (InnerQueue.backend (queue m))) (Some (backend_file d)) c true
  | None => QueueBackend.new os' ∅ None c true
  end.

Definition channels_on_disk L (c : Config.QueueConfig) : option (list Z) :=
  '(m, _) ← L !! Config.name c;
  chans ← file m;
  Some (json_encode (InnerQueue.mkQueueCheckpoint InnerQueue.Ready chans)).

Lemma on_disk x L (os' : Z → Os) cfg name m d :
  life x L → (∀ id, no_faults (os' id)) → L !! name = Some (m, d) →
  QueueBackend.config (InnerQueue.backend (queue m)) = Config.new_queue_config cfg name →
  Forall spare (QueueBackend.segments (InnerQueue.backend (queue m))) →
  ∃ b chans, backend_on_disk os' L (Config.new_queue_config cfg name) = Done b ∧ file m = Some chans ∧
    read_back (channels_on_disk L (Config.new_queue_config cfg name)) = (InnerQueue.Ready, chans) ∧
    ∀ q3 : queue_t, InnerQueue.backend q3 = b → restored chans (InnerQueue.channels q3) →
      delivered_again m d chans q3 ∧
      (InnerQueue.config q3 = Config.new_queue_config cfg name → InnerQueue.state q3 = InnerQueue.Ready → within b chans →
       ∃ start ms, queue_inv q3 start ms (reread_all chans (ghosts m))).
Proof.
  intros Hx Hos' Hl Hc Hsp. pose proof (to_reachable _ _ (life_tracked _ _ Hx) _ _ Hl) as Hm. cbn in Hm.
  destruct (reachable_file _ _ _ Hm) as [chans Hf].
  destruct (crash_reads_again os Hos m d os' chans Hm Hos' Hsp Hf) as (b & Hb & Hall). rewrite Hc in Hb, Hall.
  exists b, chans. split_and!; [|done| |done].
  - unfold backend_on_disk. cbn [Config.name Config.new_queue_config]. by rewrite Hl.
  - unfold channels_on_disk. cbn [Config.name Config.new_queue_config]. rewrite Hl. cbn [mbind option_bind]. rewrite Hf.
    apply read_back_encode.
Qed.

(** The records after the start: every channel has forgotten what it
    acknowledged from its saved position on. *)
Definition reread_records L : records := (λ t, reread_all (default ∅ (file t.1)) (ghosts t.1)) <$> L.

(** ** Theorem *)

(** C5: The process of the server dies at any moment, in the middle of a
    maintenance of any of its queues, with requests under way on others, and
    with at least a byte left over in every segment. [Server::new], with the
    configuration the queues had and disk sizes that can be computed, opens
    the same queues again, each as [delivered_again] says. A queue of which a
    segment listed by its last backend checkpoint is left has the prefix of
    its log that those segments hold, and each saved channel reads again
    every message of the prefix that it did not acknowledge; the messages of
    segments added since are lost. A queue none of whose listed segments is
    left starts with an empty log at id 1. When no saved position is
    outside of the log that was found, the server goes on under the invariant
    of [server_delivers]. *)
Theorem server_crashes x L (os' : Z → Os) bound now num_cpus paths names (e : E) cfg :
  life x L → (∀ id, no_faults (os' id)) → bound (Config.bind_address cfg) = true →
  Startup.queue_name <$> paths = Some <$> names → list_to_set names = dom L →
  (∀ name m d, L !! name = Some (m, d) →
    QueueBackend.config (InnerQueue.backend (queue m)) = Config.new_queue_config cfg name ∧
    Forall spare (QueueBackend.segments (InnerQueue.backend (queue m)))) →
  (∀ name b, name ∈ names → backend_on_disk os' L (Config.new_queue_config cfg name) = Done b →
    ∃ du, be_disk_usage b = Done du) →
  ∃ x', server_new bound os (backend_on_disk os' L) (channels_on_disk L) now num_cpus cfg (Ok (Ok <$> paths)) e
          = Done (x' : server) ∧
    dom (queues x') = dom (queues x) ∧
    (∀ name m d, L !! name = Some (m, d) → ∃ chans q3,
      queues x !! name = Some (queue m) ∧ file m = Some chans ∧ queues x' !! name = Some q3 ∧
      InnerQueue.state q3 = InnerQueue.Ready ∧ delivered_again m d chans q3) ∧
    ((∀ name m d chans b, L !! name = Some (m, d) → file m = Some chans →
       backend_on_disk os' L (Config.new_queue_config cfg name) = Done b → within b chans) →
     (∀ tm, el_live e tm = None) →
     EndToEnd.served value_size new_backend io_debug max_connections os x' (reread_records L)).
Proof.
  intros Hx Hos' Hb Hn Hd Hok Hsz. pose proof (to_queues _ _ (life_tracked _ _ Hx)) as Hqs.
  assert (∀ name, name ∈ names → ∃ m d, L !! name = Some (m, d)) as Hin.
  { intros name Hi. assert (name ∈ dom L) as [[m d] Hl]%elem_of_dom by (rewrite <-Hd; by apply elem_of_list_to_set). by exists m, d. }
  destruct (Startup.server_new_ok bound os (backend_on_disk os' L) (channels_on_disk L) now num_cpus cfg paths names e Hb Hn)
    as (x' & Hx' & Hdom & Hq).
  { intros name Hi. destruct (Hin _ Hi) as (m & d & Hl). destruct (Hok _ _ _ Hl) as [Hc Hsp].
    destruct (on_disk _ _ os' cfg _ _ _ Hx Hos' Hl Hc Hsp) as (b & _ & Hbd & _). destruct (Hsz _ _ Hi Hbd) as [du Hdu].
    by exists b, du. }
  exists x'. split; [done|].
  split; [by rewrite Hdom, Hd, Hqs, dom_fmap_L|].
  assert (∀ name m d, L !! name = Some (m, d) → ∃ b chans q3,
    backend_on_disk os' L (Config.new_queue_config cfg name) = Done b ∧
    queues x !! name = Some (queue m) ∧ file m = Some chans ∧ queues x' !! name = Some q3 ∧
    InnerQueue.state q3 = InnerQueue.Ready ∧ delivered_again m d chans q3 ∧
    (within b chans → ∃ start ms, queue_inv q3 start ms (reread_all chans (ghosts m)))) as Hall.
  { intros name m d Hl. destruct (Hok _ _ _ Hl) as [Hc Hsp].
    destruct (on_disk _ _ os' cfg _ _ _ Hx Hos' Hl Hc Hsp) as (b & chans & Hbd & Hf & Hrb & Hres).
    assert (name ∈ dom (queues x')) as [q3 Hq3]%elem_of_dom by (rewrite Hdom, Hd; by apply elem_of_dom_2 in Hl).
    destruct (Hq _ _ Hq3) as (b' & Hb' & [Hcf Hbk Hst Hch]). rewrite Hbd in Hb'. injection Hb' as <-.
    rewrite Hrb in Hst, Hch. destruct (Hres _ Hbk Hch) as [Hda Hi]. exists b, chans, q3.
    split_and!; [done|by rewrite Hqs, lookup_fmap, Hl|done|done|done|done|]. by apply Hi. }
  split.
  - intros name m d Hl. destruct (Hall _ _ _ Hl) as (b & chans & q3 & _ & ? & ? & ? & ? & ? & _). by exists chans, q3.
  - intros Hwi He. eapply EndToEnd.served_start; [exact He|exact Hx'|]. intros name q Hl.
    assert (name ∈ dom L) as [[m d] HL]%elem_of_dom by (rewrite <-Hd, <-Hdom; by apply elem_of_dom_2 in Hl).
    destruct (Hall _ _ _ HL) as (b & chans & q3 & Hbd & _ & Hf & Hq3 & _ & _ & Hi). rewrite Hl in Hq3. injection Hq3 as <-.
    destruct (Hi (Hwi _ _ _ _ _ HL Hf Hbd)) as (start & ms & Hinv). exists (reread_all chans (ghosts m)), start, ms.
    split; [|done]. unfold reread_records. rewrite lookup_fmap, HL. cbn. by rewrite Hf.
Qed.

End server.
End ServerCrashes.
