(* ===== verification/Restarts.v ===== *)
(** * The whole server stopped and started again

    A start from the checkpoints of all queues: the records of [EndToEnd.v]
    go on, less the acknowledgements above the position a checkpoint saved,
    so that the server delivers at least once across the restart. *)
From S2P Require Import Prelude.
From S2P Require Import Offsets.
From S2P Require Import Text.
From S2P Require Import Settings.
From S2P Require Import Segments.
From S2P Require Import SegmentSpec.
From S2P Require Import Backend.
From S2P Require Import LogSpec.
From S2P Require Import Channels.
From S2P Require Import ChannelFacts.
From S2P Require Import Queues.
From S2P Require Import QueueFacts.
From S2P Require Import Delivery.
From S2P Require Import Maintenance.
From S2P Require Import Wire.
From S2P Require Import WireProps.
From S2P Require Import Commands.
From S2P Require Import CommandProps.
From S2P Require Import Scripts.
From S2P Require Import Server.
From S2P Require Import Tables.
From S2P Require Import Mirror.
From S2P Require Import Handler.
From S2P Require Import HandlerProps.
From S2P Require Import System.
From S2P Require Import EndToEnd.

Module Restarts.

(** ** A queue *)
Section queue.
Context `{Profile} {B Msg M : Type} `{BackendOk B Msg} `{!LinkedHashMap Channel.InFlightState M}
  `{!LinkedHashMapOk Channel.InFlightState M} `{Json InnerQueue.QueueCheckpoint}
  `{!JsonOk InnerQueue.QueueCheckpoint}.
Variable os : Os.
Hypothesis Hos : no_faults os.
Implicit Types (q : InnerQueue.t B M) (c : Channel.t M) (G : gmap (list Z) ghost).

(** What is known of a channel that starts again at [n]. *)
Definition forget (n : Z) (g : ghost) : ghost := mkGhost (origin g) (filter (λ id, id < n) (acked g)).

Lemma real_tail_bounds start head c g n :
  channel_inv start head c g → Channel.real_tail c = Done n → start ≤ n ≤ head ∧ origin g ≤ n.
Proof.
  intros Hc Hn. destruct (Maintenance.real_tail_settled _ _ _ _ _ Hc Hn) as [_ Hle].
  destruct Hc as [Hok Htail Hstored _ Horig _ _ Hfrom].
  destruct (real_tail_ok c Hok) as (n' & Hn' & Hf & _). assert (n' = n) as -> by congruence.
  unfold first_unacked in Hf. destruct (in_flight c) as [|e l] eqn:Hl; [lia|].
  destruct Hf as [(e' & -> & He')%list_elem_of_fmap _].
  rewrite Forall_forall in Hstored. rewrite Forall_forall in Hfrom.
  specialize (Hstored _ He'). specialize (Hfrom _ He'). lia.
Qed.

Lemma reread_inv start head c g n :
  0 ≤ start → channel_inv start head c g → Channel.real_tail c = Done n →
  channel_inv start head (Channel.fresh (Channel.last_touched c) n) (forget n g).
Proof.
  intros Hst Hc Hn. destruct (Maintenance.real_tail_settled _ _ _ _ _ Hc Hn) as [Hs _].
  destruct (real_tail_bounds _ _ _ _ _ Hc Hn) as [Hb Ho].
  constructor; unfold in_flight; cbn; rewrite ?lm_iter_default; try done; try lia.
  - apply fresh_ok. lia.
  - intros id Hid. left. apply elem_of_filter. split; [lia|by apply Hs].
  - intros id [Hlt _]%elem_of_filter. split; [done|]. apply not_elem_of_nil.
Qed.

(** The record after a start from a checkpoint of [q]. *)
Definition forgotten q G : gmap (list Z) ghost :=
  map_imap (λ name g,
    match InnerQueue.channels q !! name with
    | Some c => match Channel.real_tail c with Done n => Some (forget n g) | _ => None end
    | None => None
    end) G.

Lemma forgotten_lookup q G name c g n :
  InnerQueue.channels q !! name = Some c → Channel.real_tail c = Done n → G !! name = Some g →
  forgotten q G !! name = Some (forget n g).
Proof. intros Hc Hn Hg. unfold forgotten. by rewrite map_lookup_imap, Hg; cbn; rewrite Hc, Hn. Qed.

Lemma forgotten_from q G name g' :
  forgotten q G !! name = Some g' →
  ∃ c n g, InnerQueue.channels q !! name = Some c ∧ Channel.real_tail c = Done n ∧ G !! name = Some g ∧ g' = forget n g.
Proof.
  unfold forgotten. rewrite map_lookup_imap. destruct (G !! name) as [g|]; [|done]. cbn.
  destruct (InnerQueue.channels q !! name) as [c|]; [|done].
  destruct (Channel.real_tail c) as [n| |] eqn:Hn; [|done..]. intros [= <-]. by exists c, n, g.
Qed.

Lemma reopened_inv q start ms G full q1 file os' cfg b q2 :
  queue_inv q start ms G → InnerQueue.checkpoint os true q full = Done (q1, file) →
  be_rep b start ms → be_config b = cfg →
  Config.hard_retention_period cfg = 0 → Config.hard_retention_size cfg = 0 →
  InnerQueue.new os' true cfg b (Some file) true = Done q2 →
  queue_inv q2 start ms (forgotten q G).
Proof.
  intros Hq Hcp Hb Hcfg Hp Hsz Hnew. destruct (checkpoint_inv os Hos _ _ _ _ full Hq) as (q1' & chans & Hcp' & _ & _ & Hm).
  rewrite Hcp in Hcp'. injection Hcp' as <- ->.
  destruct (be_bounds _ _ _ Hb) as (Hst & Hhd & _).
  destruct (be_bounds _ _ _ (qi_rep _ _ _ _ Hq)) as (_ & Hhd0 & _).
  injection Hnew as <-. unfold InnerQueue.recover. cbn [mbind option_bind]. rewrite json_roundtrip. cbn.
  constructor; try done. cbn. intros name c2. rewrite map_union_empty, lookup_fmap. specialize (Hm name).
  destruct (InnerQueue.channels q !! name) as [c|] eqn:Hc; [|by rewrite Hm].
  destruct Hm as (cc & -> & Hs). unfold save_channel in Hs. apply bind_Done_iff in Hs as (n & Hn & [= <-]).
  intros [= <-]. destruct (queue_inv_chan _ _ _ _ _ _ Hq Hc) as (g & Hg & Hci).
  exists (forget n g). split; [by eapply forgotten_lookup|]. cbn. rewrite Hhd, <-Hhd0. apply reread_inv; [lia|done|done].
Qed.

Lemma reopened_names q full q1 file os' cfg b q2 :
  InnerQueue.state q = InnerQueue.Ready →
  InnerQueue.checkpoint os true q full = Done (q1, file) → InnerQueue.new os' true cfg b (Some file) true = Done q2 →
  dom (InnerQueue.channels q2) = dom (InnerQueue.channels q).
Proof.
  intros Hr Hcp Hnew. unfold InnerQueue.checkpoint in Hcp. rewrite bool_decide_true in Hcp by done.
  apply bind_Done_iff in Hcp as ([q3 chans] & Hc & (u & _ & [= <- <-])%bind_Done_iff).
  apply bind_Done_iff in Hc as ([b' f] & _ & (m & Hm%map_values_dom & [= <- <-])%bind_Done_iff).
  injection Hnew as <-. unfold InnerQueue.recover. cbn [mbind option_bind]. rewrite json_roundtrip. cbn. rewrite Hr. cbn.
  by rewrite map_union_empty, dom_fmap_L.
Qed.

End queue.

(** ** The server *)
Section server.
Context `{Profile} {T : Type} `{TendrilOk T} {B M : Type} `{BackendOk B Message.t}
  `{!LinkedHashMap Channel.InFlightState M} `{!LinkedHashMapOk Channel.InFlightState M}
  `{Json InnerQueue.QueueCheckpoint} `{!JsonOk InnerQueue.QueueCheckpoint}
  `{Json Config.ServerConfig} `{Json (gmap (list Z) Config.QueueConfig)}
  `{Json (gmap (list Z) InnerQueue.QueueInfo)} `{Json ServerInfo}
  {E Tm : Type} `{!EqDecision Tm} `{EventLoopOk E Tm}.
Variable value_size : Z.
Variable new_backend : Config.QueueConfig → outcome B.
Variable io_debug : Z → list Z.
Variable max_connections : Z.
Variable os : Os.
Hypothesis Hos : no_faults os.
Hypothesis new_backend_ok : ∀ c b, new_backend c = Done b → be_rep b 1 [] ∧ be_config b = c.

Abbreviation sys := (System.sys (T:=T) (B:=B) (M:=M) (E:=E) (Tm:=Tm)).
Abbreviation queue := (InnerQueue.t B M).
Abbreviation records := (gmap (list Z) (gmap (list Z) ghost)).
Implicit Types (x : sys) (q : queue) (R : records) (G : gmap (list Z) ghost).
Abbreviation served := (EndToEnd.served value_size new_backend io_debug max_connections os).

(** The server stopped with a checkpoint of every queue that is found again;
    a backend opens as the log it was ([checkpoint_restart]). *)
Definition stopped x (open_backend : Config.QueueConfig → outcome B)
    (checkpoint_file : Config.QueueConfig → option (list Z)) : Prop :=
  ∀ c b, open_backend c = Done b → ∃ q full q1 file,
    queues x !! Config.name c = Some q ∧ InnerQueue.checkpoint os true q full = Done (q1, file) ∧
    checkpoint_file c = Some file ∧ be_config b = c ∧
    Config.hard_retention_period c = 0 ∧ Config.hard_retention_size c = 0 ∧
    ∀ start ms, be_rep (InnerQueue.backend q1) start ms → be_rep b start ms.

Lemma open_queues_from (os' : Os) (open_backend : Config.QueueConfig → outcome B)
    (checkpoint_file : Config.QueueConfig → option (list Z)) (now : Z) (configs : list Config.QueueConfig)
    (qs qs' : gmap (list Z) queue) (s s' : Server.t T E) :
  open_queues os' open_backend checkpoint_file now configs qs s = Done (qs', s') →
  ∀ name q', qs' !! name = Some q' →
    qs !! name = Some q' ∨
    ∃ c b q clock i, Config.name c = name ∧ open_backend c = Done b ∧
      InnerQueue.new os' true c b (checkpoint_file c) true = Done q ∧ 0 ≤ clock ∧ InnerQueue.info q clock = Done (q', i).
Proof.
  revert qs s. induction configs as [|c configs IH]; intros qs s; cbn [open_queues]; [intros [= <- _]; by left|].
  intros (b & Hb & (q & Hq & Hk)%bind_Done_iff)%bind_Done_iff name q'.
  destruct (Server.clock_ms s now) as [s1 ms]. apply bind_Done_iff in Hk as ([q1 i] & Hi & Hk). intros Hq'.
  destruct (IH _ _ Hk name q' Hq') as [Hl|Hr]; [|by right].
  destruct (decide (Config.name c = name)) as [<-|Hne].
  - rewrite bytes_insert_eq in Hl. injection Hl as <-. right. eexists c, b, q, _, i.
    split_and!; [done|done|done| |exact Hi]. unfold as_u32. apply Z.mod_pos_bound. lia.
  - rewrite bytes_insert_ne in Hl by done. by left.
Qed.

(** A queue of the new server is one of the old, with its log. *)
Lemma restarted_queue x R bound (os' : Os) open_backend checkpoint_file (now num_cpus : Z) config dir (e : E) x' name q' :
  served x R → stopped x open_backend checkpoint_file →
  server_new bound os' open_backend checkpoint_file now num_cpus config dir e = Done x' →
  queues x' !! name = Some q' →
  ∃ q G start ms, queues x !! name = Some q ∧ R !! name = Some G ∧ queue_inv q' start ms (forgotten q G) ∧
    dom (InnerQueue.channels q') = dom (InnerQueue.channels q).
Proof.
  intros Hx Hstop Hnew Hq'. pose proof (EndToEnd.served_kept _ _ _ _ _ Hos new_backend_ok _ _ Hx) as Hk.
  apply bind_Done_iff in Hnew as (u & _ & (r & _ & (configs & _ & ([qs s] & Ho & [= <-])%bind_Done_iff)%bind_Done_iff)%bind_Done_iff).
  destruct (open_queues_from _ _ _ _ _ _ _ _ _ Ho name q' Hq') as [Hl|(c & b & q0 & clock & i & <- & Hb & Hq0 & Hclk & Hi)];
    [by rewrite lookup_empty in Hl|].
  destruct (Hstop _ _ Hb) as (q & full & q1 & file & Hq & Hcp & Hf & Hcfg & Hp & Hsz & Hrep).
  destruct (Hk _ _ Hq) as (G & start & ms & HG & Hi0). exists q, G.
  destruct (checkpoint_inv os Hos _ _ _ _ full Hi0) as (q1' & chans & Hcp' & Hi1 & _).
  rewrite Hcp in Hcp'. injection Hcp' as <- _. rewrite Hf in Hq0.
  pose proof (reopened_inv os Hos _ _ _ _ _ _ _ _ _ _ _ Hi0 Hcp (Hrep _ _ (qi_rep _ _ _ _ Hi1)) Hcfg Hp Hsz Hq0) as Hi2.
  destruct (run_inv os Hos (UpdateChannels clock) _ _ _ _ Hi2 Hclk) as (q3 & start' & ms' & Hrun & Hi3).
  rewrite (Script.info_runs os _ _ _ _ Hi) in Hrun. injection Hrun as <-. exists start', ms'.
  split_and!; [done|done|exact Hi3|].
  rewrite <-(reopened_names os q full q1 file _ _ _ _ (qi_ready _ _ _ _ Hi0) Hcp Hq0). by apply (info_names _ _ _ _ Hi).
Qed.

(** ** Theorem *)

(** C4: The server delivers at least once across a stop and a start, given
    that the backend of each queue opens again as the log it was ([stopped];
    [checkpoint_restart] for the backend of this program). After a start from
    checkpoints of the queues every channel is there again, the
    records are as before, except that acknowledgements at and above the
    position the checkpoint saved are forgotten (those messages will be
    delivered again), and the server goes on under the invariant of
    [server_delivers]: what was not acknowledged is still to be delivered. *)
Theorem server_restarts x R bound (os' : Os) open_backend checkpoint_file (now num_cpus : Z) config dir (e : E) x' :
  served x R → stopped x open_backend checkpoint_file → (∀ tm, el_live e tm = None) →
  server_new bound os' open_backend checkpoint_file now num_cpus config dir e = Done x' →
  ∃ R', served x' R' ∧ ∀ name q', queues x' !! name = Some q' →
    ∃ q G G', queues x !! name = Some q ∧ R !! name = Some G ∧ R' !! name = Some G' ∧
      dom (InnerQueue.channels q') = dom (InnerQueue.channels q) ∧
      ∀ cn c, InnerQueue.channels q !! cn = Some c →
        ∃ g n, G !! cn = Some g ∧ Channel.real_tail c = Done n ∧ G' !! cn = Some (forget n g) ∧
          ∀ id, origin g ≤ id < n → id ∈ acked g.
Proof.
  intros Hx Hstop He Hnew. pose proof (EndToEnd.served_kept _ _ _ _ _ Hos new_backend_ok _ _ Hx) as Hk.
  destruct (map_choice (queues x') (λ name q' G', ∃ q G start ms, queues x !! name = Some q ∧ R !! name = Some G ∧
    G' = forgotten q G ∧ queue_inv q' start ms G' ∧ dom (InnerQueue.channels q') = dom (InnerQueue.channels q)))
    as [R' HR'].
  { intros name q' Hq'. destruct (restarted_queue _ _ _ _ _ _ _ _ _ _ _ _ _ _ Hx Hstop Hnew Hq')
      as (q & G & start & ms & Hq & HG & Hi & Hd). exists (forgotten q G), q, G, start, ms. by split_and!. }
  exists R'. split.
  { eapply EndToEnd.served_start; [exact He|exact Hnew|]. intros name q' Hq'.
    destruct (HR' _ _ Hq') as (G' & HG' & q & G & start & ms & _ & _ & _ & Hi & _). by exists G', start, ms. }
  intros name q' Hq'. destruct (HR' _ _ Hq') as (G' & HG' & q & G & start & ms & Hq & HG & -> & _ & Hd).
  exists q, G, (forgotten q G). split_and!; [done..|]. intros cn c Hc.
  destruct (Hk _ _ Hq) as (G2 & start0 & ms0 & HG2 & Hi0). rewrite HG in HG2. injection HG2 as <-.
  destruct (queue_inv_chan _ _ _ _ _ _ Hi0 Hc) as (g & Hg & Hci).
  destruct (real_tail_ok c (ci_ok _ _ _ _ Hci)) as (n & Hn & _).
  exists g, n. split_and!; [done|done|by eapply forgotten_lookup|].
  apply (Maintenance.real_tail_settled _ _ _ _ _ Hci Hn).
Qed.

End server.
End Restarts.
