(* ===== verification/ServerSamples.v ===== *)
(** * The server run at concrete inputs

    A debug build with 256-byte segments and a list of timers as event
    loop: the closed instances of the properties of [CommandProps.v],
    [Mirror.v] and [SystemProps.v]. *)
From S2P Require Import Prelude.
From S2P Require Import Offsets.
From S2P Require Import Text.
From S2P Require Import Settings.
From S2P Require Import Segments.
From S2P Require Import SegmentSpec.
From S2P Require Import SegmentFacts.
From S2P Require Import Backend.
From S2P Require Import Channels.
From S2P Require Import Queues.
From S2P Require Import Delivery.
From S2P Require Import Samples.
From S2P Require Import Wire.
From S2P Require Import WireProps.
From S2P Require Import Commands.
From S2P Require Import CommandProps.
From S2P Require Import Server.
From S2P Require Import Tables.
From S2P Require Import Mirror.
From S2P Require Import Handler.
From S2P Require Import HandlerProps.
From S2P Require Import Iterations.
From S2P Require Import System.
From S2P Require Import SystemProps.

#[local] Existing Instance dev_profile.
#[local] Existing Instance sum_hasher.
#[local] Existing Instance sample_json.
#[local] Existing Instance sample_queue_json.
(** The texts of the other JSON replies. *)
#[local] Instance text_json {A} : Json A | 100 := {| json_encode _ := B "{}"; json_decode _ := None |}.

(** ** An event loop *)

(** The timers in the order they were set; a handle is its place. *)
#[local] Instance timer_list : EventLoop (list (option TimeoutType)) nat := {
  el_timeout_ms msg _ l := Some (length l, l ++ [Some msg]);
  el_clear_timeout tm l := (bool_decide (is_Some (mjoin (l !! tm))), <[tm := None]> l);
  el_fire tm l := <[tm := None]> l;
  el_live l tm := mjoin (l !! tm);
}.

Lemma list_clear (l : list (option TimeoutType)) tm :
  mjoin (<[tm := None]> l !! tm) = None ∧ ∀ tm', tm' ≠ tm → mjoin (<[tm := None]> l !! tm') = mjoin (l !! tm').
Proof.
  split; [|intros tm' Hne; by rewrite list_lookup_insert_ne].
  destruct (decide (tm < length l)%nat) as [Hlt|Hge]; [by rewrite list_lookup_insert_eq|].
  by rewrite list_insert_ge, lookup_ge_None_2 by lia.
Qed.

#[local] Instance timer_list_ok : EventLoopOk (list (option TimeoutType)) nat.
Proof.
  constructor; cbn.
  - intros msg ms l tm l' [= <- <-]. split; [by rewrite lookup_ge_None_2|].
    rewrite lookup_app_r, Nat.sub_diag by lia. split; [done|]. intros tm' Hne.
    destruct (decide (tm' < length l)%nat); [by rewrite lookup_app_l|].
    rewrite lookup_app_r, (lookup_ge_None_2 l) by lia. by destruct (tm' - length l)%nat eqn:E; [lia|].
  - intros tm l. destruct (list_clear l tm). by split_and!.
  - intros tm l. apply list_clear.
Qed.

(** ** The commands *)
Section commands.
Import CommandProps.Dispatch Commands.Dispatch.

Abbreviation backend := QueueBackend.t.
Abbreviation flights := (list (Z * Channel.InFlightState)).
Abbreviation sample_state := (state (list Z) backend flights).

Definition server_config : Config.ServerConfig :=
  Config.mkServerConfig (B "data") (B "127.0.0.1:9797") 1000 1000 1000 (tiny_config 256).
Definition env : Env (list Z) :=
  mkEnv (list Z) server_config 5 os_sound true true (λ i, 100 + Z.of_nat i) (mkServerInfo 0 0 0 0 0)
    (λ _ _, NotifyMessage.with_ok).
Definition new_backend (c : Config.QueueConfig) : outcome backend := mret (QueueBackend.mk c [] 1 1).
Definition io_debug (e : Z) : list Z := print_u64 e.

Definition no_queues : sample_state := mkState ∅ [] [].
Definition request (args : list string) : Value.t (list Z) := Value.Array ((λ a, Value.Data (B a)) <$> args).

(** The state and the answer after a request. *)
Definition served (st : sample_state) (args : list string) : sample_state * NotifyMessage.t (list Z) :=
  match dispatch 32 new_backend io_debug env st (request args) with
  | Done r => r
  | _ => (st, NotifyMessage.with_nil)
  end.

(** A queue with a channel and two messages. *)
Definition two_messages : sample_state :=
  (served (served no_queues ["SET"; "q"; "c"]%string).1 ["RPUSH"; "q"; "one"; "two"]%string).1.

Definition sample_q : InnerQueue.t backend flights :=
  match queues two_messages !! B "q" with Some q => q | None => InnerQueue.mk (tiny_config 64) (QueueBackend.mk (tiny_config 64) [] 1 1) ∅ InnerQueue.Ready end.

Lemma sample_q_lookup : queues two_messages !! B "q" = Some sample_q.
Proof. by vm_compute. Qed.

Example two_messages_sent :
  sent two_messages = [NotifyMessage.QueueCreate (B "q"); NotifyMessage.ChannelCreate (B "q") (B "c")] ∧
  match (served two_messages ["HMGET"; "q"; "c"; "5"]%string).2 with
  | NotifyMessage.Response (Value.Array [Value.Message 100 m1; Value.Message 101 m2]) =>
      Message.body m1 = Done (B "one") ∧ Message.body m2 = Done (B "two")
  | _ => False
  end.
Proof. by vm_compute. Qed.

(** The empty queue, before the messages. *)
Definition one_queue : sample_state := (served no_queues ["SET"; "q"; "c"]%string).1.

(** [RPUSH q one two] *)
Lemma requests_evolve_queues_witness :
  ∃ q ops, Forall (from_env env) ops ∧ run_all env ops q = Done sample_q ∧
    (queues one_queue !! B "q" = Some q ∨ queues one_queue !! B "q" = None ∧ fresh_queue new_backend env (B "q") q).
Proof.
  refine (requests_evolve_queues 32 new_backend io_debug env one_queue (request ["RPUSH"; "q"; "one"; "two"]%string)
    two_messages (served one_queue ["RPUSH"; "q"; "one"; "two"]%string).2 _ _ (B "q") sample_q sample_q_lookup).
  - intros a args [= <-] [= <-]. by split.
  - by vm_compute.
Defined.

(** [HMGET q c 5 1] *)
Lemma hmget_spec_witness :
  hmget 32 io_debug env two_messages Value.Nil [B "HMGET"; B "q"; B "c"; B "5"; B "1"] =
    ('(q', ms, e) ← gets env sample_q (B "c") 5 0;
     mret (set_queue two_messages (B "q") q', hmget_answer io_debug Value.Nil (B "q") (B "c") 1 ms e)).
Proof.
  refine (hmget_spec 32 io_debug env two_messages Value.Nil (B "HMGET") (B "q") (B "c") (B "5") [B "1"] 5 1 sample_q
    sample_q_lookup _ _ _); [by vm_compute|by vm_compute|lia].
Defined.

(** [HMGET q c 18446744073709551615] *)
Lemma hmget_count_panics_witness :
  hmget 32 io_debug env two_messages Value.Nil [B "HMGET"; B "q"; B "c"; B "18446744073709551615"] = Panic.
Proof.
  refine (hmget_count_panics 32 io_debug env two_messages Value.Nil (B "HMGET") (B "q") (B "c")
    (B "18446744073709551615") [] 18446744073709551615 sample_q sample_q_lookup _ _ I); [by vm_compute|lia].
Defined.

(** [SETNX q d] *)
Lemma set_spec_witness :
  set new_backend io_debug env two_messages [B "SETNX"; B "q"; B "d"] =
    mret (mkState (<[B "q" := with_channel env sample_q (B "d")]> (queues two_messages))
      (sent two_messages ++ [NotifyMessage.ChannelCreate (B "q") (B "d")]) (wiped two_messages), NotifyMessage.with_ok).
Proof.
  pose proof (set_spec new_backend io_debug env two_messages (B "SETNX") (B "q") (B "d") [] eq_refl eq_refl) as Hs.
  rewrite sample_q_lookup in Hs.
  assert (set_flag [B "SETNX"; B "q"; B "d"] = true) as Hf by by vm_compute.
  assert (InnerQueue.channels sample_q !! B "d" = None) as Hc by by vm_compute.
  rewrite Hf, Hc in Hs. exact Hs.
Defined.

(** [CONFIG SET queues.q.message_timeout 5s] *)
Lemma config_set_queue_no_effect_witness :
  config_command io_debug env two_messages
    [B "CONFIG"; B "SET"; B "queues" ++ 46 :: B "q" ++ 46 :: B "message_timeout"; B "5s"] =
  Done (two_messages, NotifyMessage.with_ok).
Proof.
  eapply (config_set_queue_no_effect io_debug env two_messages (B "CONFIG") (B "q") (B "message_timeout") (B "5s")
    sample_q); [apply (bool_decide_unpack _); by vm_compute|exact sample_q_lookup|vm_compute; reflexivity].
Defined.

(** [SET q c] *)
Lemma set_empties_own_directory_witness :
  wiped one_queue = [] ∨
  ∃ qn, queues no_queues !! qn = None ∧ wiped one_queue = [] ++ [Config.path_join (B "data") qn] ∧
    (qn ≠ [] → 47 ∉ qn ∧ 46 ∉ qn ∧ ∃ sep, (sep = [] ∨ sep = [47]) ∧
       Config.path_join (B "data") qn = B "data" ++ sep ++ qn).
Proof.
  refine (set_empties_own_directory new_backend io_debug env no_queues [B "SET"; B "q"; B "c"] one_queue
    NotifyMessage.with_ok _). by vm_compute.
Defined.

Definition nameless : sample_state :=
  match set new_backend io_debug env two_messages [B "SET"; []; B "c"] with Done (st, _) => st | _ => no_queues end.

Lemma empty_name_empties_everything_witness :
  ∃ sep, (sep = [] ∨ sep = [47]) ∧ wiped nameless = wiped two_messages ++ [B "data" ++ sep].
Proof.
  refine (empty_name_empties_everything new_backend io_debug env two_messages (B "SET") (B "c") [] nameless
    NotifyMessage.with_ok 97 _ _ _ _); by vm_compute.
Defined.

End commands.

(** ** A run of the server *)
Section run.

Abbreviation sample_sys :=
  (sys (T:=list Z) (B:=QueueBackend.t) (M:=list (Z * Channel.InFlightState)) (E:=list (option TimeoutType)) (Tm:=nat)).
Abbreviation sample_handler := (ServerHandler.t (list Z) (list (option TimeoutType)) nat).
Abbreviation running := (reachable (T:=list Z) (M:=list (Z * Channel.InFlightState)) (E:=list (option TimeoutType)) (Tm:=nat)
  32 new_backend io_debug 1000).
Abbreviation steps_to := (step (T:=list Z) (M:=list (Z * Channel.InFlightState)) (E:=list (option TimeoutType)) (Tm:=nat)
  32 new_backend io_debug 1000).

(** *** The conditions of [possible], decided *)

Fixpoint reads_fitb (b : RequestBuffer.t (list Z)) (reads : list (list Z)) : bool :=
  match reads with
  | [] => true
  | bs :: reads =>
      match RequestBuffer.mut_bytes b with
      | Done (b1, slice) => (zlen bs <=? zlen slice) && (td_len (RequestBuffer.body b1) <? 2 ^ 32) &&
          match RequestBuffer.fill b bs with Done b' => reads_fitb b' reads | _ => true end
      | _ => true
      end
  end.

Lemma reads_fitb_ok b reads : reads_fitb b reads = true → reads_fit b reads ∧ ¬ outgrows b reads.
Proof.
  revert b. induction reads as [|bs reads IH]; intros b; cbn [reads_fitb reads_fit outgrows]; [by intros _; split; [|intros []]|].
  destruct (RequestBuffer.mut_bytes b) as [[b1 slice]| |]; [|by intros _; split; [|intros (? & ? & ? & _)]..].
  intros [[Hl%Z.leb_le Hs%Z.ltb_lt]%andb_true_iff Hf]%andb_true_iff. split.
  - intros b2 slice2 [= <- <-]. split; [done|]. intros b' Hb'. rewrite Hb' in Hf. by apply IH.
  - intros (b2 & slice2 & [= <- <-] & [Hb|(b' & Hb' & Ho)]); [lia|]. rewrite Hb' in Hf. by apply IH in Hf as [_ []].
Qed.

Fixpoint writes_okb (b : ResponseBuffer.t) (writes : list Z) : bool :=
  match writes with
  | [] => true
  | n :: writes =>
      match ResponseBuffer.bytes b with
      | Done out => (0 <=? n) && (n <=? zlen out) &&
          match ResponseBuffer.advance b n with Done b' => writes_okb b' writes | _ => true end
      | _ => true
      end
  end.

Lemma writes_okb_ok b writes : writes_okb b writes = true → writes_ok b writes.
Proof.
  revert b. induction writes as [|n writes IH]; intros b; cbn [writes_okb writes_ok]; [done|].
  destruct (ResponseBuffer.bytes b) as [out| |]; [|done..].
  intros [[?%Z.leb_le ?%Z.leb_le]%andb_true_iff Hf]%andb_true_iff out' [= <-].
  split; [done|]. intros b' Hb'. rewrite Hb' in Hf. by apply IH.
Qed.

Definition answer_shortb (msg : NotifyMessage.t (list Z)) : bool :=
  match answer_value msg with
  | Some v => match Value.serialize_to v [] with Done out => zlen out <? 2 ^ 64 | _ => true end
  | None => true
  end.

Lemma answer_shortb_ok msg : answer_shortb msg = true → answer_short msg.
Proof. unfold answer_shortb. intros Hs v out Hv Ho. rewrite Hv, Ho in Hs. lia. Qed.

(** *** Scripts *)

Inductive action : Type :=
| Accept (t : Z) | Read (t : Z) (bytes : list Z) | Write (t : Z) (n : Z) | Deliver | Work | Reply.

Definition only_readable : EventSet := mkEventSet true false false false.
Definition only_writable : EventSet := mkEventSet false true false false.

(** The environment of a job. *)
Definition job_env (j : Job (list Z)) : Dispatch.Env (list Z) :=
  Dispatch.mkEnv (list Z) (job_config j) (job_clock j) os_sound true true (λ i, 100 + Z.of_nat i) (mkServerInfo 0 0 0 0 0)
    (λ _ _, NotifyMessage.with_ok).

Definition after (x : sample_sys) (e : ServerHandler.event (list Z) nat) : option sample_sys :=
  match ServerHandler.handle 32 (handler x) e with Done h => Some (set_handler x h) | _ => None end.

Definition perform (x : sample_sys) (a : action) : option sample_sys :=
  let clients := ServerHandler.clients (handler x) in
  match a with
  | Accept t =>
      if bool_decide (clients !! t = None) && (1 <=? t) && (t <=? 1000) then
        after x (ServerHandler.Ready ServerHandler.SERVER only_readable [] [] (Some t) 7)
      else None
  | Read t bytes =>
      match clients !! t with
      | Some c =>
          if negb (Client.hup c) && readable (Client.interest c) && reads_fitb (Client.request c) [bytes] then
            after x (ServerHandler.Ready t only_readable [bytes] [] None 7)
          else None
      | None => None
      end
  | Write t n =>
      match clients !! t with
      | Some c =>
          if negb (Client.hup c) && writable (Client.interest c) && writes_okb (Client.response c) [n] then
            after x (ServerHandler.Ready t only_writable [] [n] None 7)
          else None
      | None => None
      end
  | Deliver =>
      match inbox x with
      | msg :: rest => after (mkSys (queues x) (wiped x) (handler x) rest (replies x)) (ServerHandler.Notify 0 msg 1 7 7)
      | [] => None
      end
  | Work =>
      match Server.jobs (ServerHandler.server (handler x)) with
      | j :: jobs =>
          match Dispatch.dispatch 32 new_backend io_debug (job_env j) (Dispatch.mkState (queues x) [] (wiped x)) (job_request j) with
          | Done (st, msg) => Some (mkSys (Dispatch.queues st) (Dispatch.wiped st) (set_jobs x jobs)
              (inbox x ++ Dispatch.sent st) (replies x ++ [(job_cookie j, msg)]))
          | _ => None
          end
      | [] => None
      end
  | Reply =>
      match replies x with
      | (cookie, msg) :: rest =>
          match clients !! Cookie.token cookie with
          | Some c =>
              if answer_shortb msg then
                after (mkSys (queues x) (wiped x) (handler x) (inbox x) rest) (ServerHandler.Notify cookie msg 1 7 7)
              else None
          | None => None
          end
      | [] => None
      end
  end.

Lemma event_step x e x1 x' :
  possible 1000 x e x1 → handler x1 = handler x → ¬ races x e → ¬ outgrown x e → after x1 e = Some x' → steps_to x x'.
Proof.
  intros Hp Hh Hn Ho. unfold after. rewrite Hh. destruct (ServerHandler.handle 32 (handler x) e) as [h| |] eqn:Hd; [|done..].
  intros [= <-]. by eapply step_event.
Qed.

Lemma action_step x a x' : perform x a = Some x' → steps_to x x'.
Proof.
  destruct a as [t|t bytes|t n| | |]; cbn [perform]; intros Hp.
  - destruct (bool_decide _ && _ && _) eqn:Hc; [|done].
    apply andb_true_iff in Hc as [[Hn%bool_decide_eq_true H1%Z.leb_le]%andb_true_iff H2%Z.leb_le].
    refine (event_step x _ x x' _ eq_refl _ _ Hp); [|by intros [? _]|].
    + apply possible_accept; [done|]. intros t' [= <-]. split; [exact Hn|lia].
    + intros (_ & c & _ & Ho). exact Ho.
  - destruct (_ !! t) as [c|] eqn:Hc; [|done]. destruct (negb _ && _ && _) eqn:Hb; [|done].
    apply andb_true_iff in Hb as [[Hh%negb_true_iff Hi]%andb_true_iff [Hr Ho]%reads_fitb_ok].
    refine (event_step x _ x x' _ eq_refl _ _ Hp); [|by intros [? _]|].
    + by apply (possible_ready _ _ _ c).
    + intros (_ & c' & Hc' & Ho'). rewrite Hc in Hc'. by injection Hc' as <-.
  - destruct (_ !! t) as [c|] eqn:Hc; [|done]. destruct (negb _ && _ && _) eqn:Hb; [|done].
    apply andb_true_iff in Hb as [[Hh%negb_true_iff Hi]%andb_true_iff Hr%writes_okb_ok].
    refine (event_step x _ x x' _ eq_refl _ _ Hp); [|by intros [? _]|by intros ((_ & ?) & _)].
    by apply (possible_ready _ _ _ c).
  - destruct (inbox x) as [|msg rest] eqn:Hi; [done|].
    refine (event_step x _ _ x' _ _ _ _ Hp); [by apply possible_server|done|by intros ?|by intros ?].
  - destruct (Server.jobs _) as [|j jobs] eqn:Hj; [done|].
    destruct (Dispatch.dispatch _ _ _ _ _ _) as [[st msg]| |] eqn:Hd; [|done..]. injection Hp as <-.
    eapply (step_work _ _ _ _ x [] j jobs (job_env j)); [exact Hj|done|done|by intros k v|exact Hd].
  - destruct (replies x) as [|[cookie msg] rest] eqn:Hr; [done|].
    destruct (_ !! _) as [c|] eqn:Hc; [|done]. destruct (answer_shortb msg) eqn:Hf; [|done].
    refine (event_step x _ _ x' _ _ _ _ Hp); [|done|by intros ?|by intros ?].
    apply (possible_reply _ _ []); [exact Hr|by apply answer_shortb_ok].
Qed.

Lemma perform_reachable x a x' : running x → perform x a = Some x' → running x'.
Proof. intros Hx Hp. eapply reachable_step; [exact Hx|by eapply action_step]. Qed.

(** Only workers change the queues. *)
Lemma perform_queues x a x' : a ≠ Work → perform x a = Some x' → queues x' = queues x.
Proof.
  intros Ha. assert (∀ x1 e, after x1 e = Some x' → queues x' = queues x1) as Haf.
  { intros x1 e. unfold after. destruct (ServerHandler.handle _ _ _); [|done..]. by intros [= <-]. }
  destruct a; cbn [perform]; repeat case_match; try done; by intros ->%Haf.
Qed.

(** *** Two clients: one waits for the message the other pushes *)

Definition encoded (args : list string) : list Z :=
  match wire (request args) with Done r => enc_reply r | _ => [] end.

Definition first_sys : sample_sys :=
  match server_new (λ _, true) os_sound new_backend (λ _, None) 7 4 server_config (Ok []) [] with Done x => x
  | _ => mkSys ∅ [] (ServerHandler.mk (Server.mk server_config ∅ [] 0 0 0 [] []) ∅) [] [] end.

Definition run (x : sample_sys) (script : list action) : option sample_sys :=
  foldl (λ x a, x ← x; perform x a) (Some x) script.

Definition set_up : list action :=
  [Accept 1; Accept 2; Read 2 (encoded ["SET"; "q"; "c"]%string); Work; Deliver; Deliver; Reply; Write 2 5].
Definition block : list action := [Read 1 (encoded ["HMGET"; "q"; "c"; "1"; "60"]%string); Work; Reply].
Definition wake_up : list action := [Read 2 (encoded ["RPUSH"; "q"; "one"]%string); Work; Reply].

Definition ran (script : list action) : sample_sys := default first_sys (run first_sys script).

Lemma first_reachable : running first_sys.
Proof.
  refine (reachable_new 32 new_backend io_debug 1000 (λ _, true) os_sound new_backend (λ _, None) 7 4 server_config (Ok []) [] first_sys _ _);
    [done|by vm_compute].
Qed.

Lemma run_reachable script x x' : running x → run x script = Some x' → running x'.
Proof.
  revert x. induction script as [|a script IH]; intros x Hx; cbn; [by intros [= <-]|].
  destruct (perform x a) as [x1|] eqn:Ha.
  - intros Hr. eapply IH; [by eapply perform_reachable|exact Hr].
  - intros Hr. exfalso. clear -Hr. unfold run in Hr. induction script as [|b script IH]; cbn in Hr; [done|by apply IH].
Qed.

Lemma ran_reachable script : is_Some (run first_sys script) → running (ran script).
Proof.
  intros [x Hx]. unfold ran. rewrite Hx. cbn. eapply run_reachable; [exact first_reachable|exact Hx].
Qed.

Definition waiting_sys : sample_sys := ran (set_up ++ block).
Definition woken_sys : sample_sys := ran (set_up ++ block ++ wake_up).

Example waiting_sys_state :
  ent (ServerHandler.server (handler waiting_sys)) (B "q") (B "c") = [1] ∧ aw (ServerHandler.server (handler waiting_sys)) = [] ∧
  aw (ServerHandler.server (handler woken_sys)) = [1] ∧
  live (ServerHandler.server (handler woken_sys)) 0%nat = Some (mkTimeout 1 (B "q") (B "c")).
Proof. by vm_compute. Qed.

Lemma waiting_sys_reachable : running waiting_sys.
Proof. apply ran_reachable. vm_compute. by eexists. Qed.

Lemma woken_sys_reachable : running woken_sys.
Proof. apply ran_reachable. vm_compute. by eexists. Qed.

Definition waiting_client : Client.t (list Z) nat :=
  default (Client.new 1) (ServerHandler.clients (handler waiting_sys) !! 1).


(** The request of a client that just connected announces an array that
    cannot be allocated: the event is one of those named, and the loop does
    panic. *)
Definition connected_sys : sample_sys := ran [Accept 1].
Definition announcing : ServerHandler.event (list Z) nat :=
  ServerHandler.Ready 1 only_readable [B "*288230376151711744" ++ crlf] [] None 7.

Lemma announced_length_stops :
  running connected_sys ∧ possible 1000 connected_sys announcing connected_sys ∧ stops 32 connected_sys announcing ∧
  ServerHandler.handle 32 (handler connected_sys) announcing = Panic.
Proof.
  assert (running connected_sys) as Hr.
  { apply ran_reachable. vm_compute. by eexists. }
  assert (possible 1000 connected_sys announcing connected_sys) as Hp.
  { apply (possible_ready _ _ _ (Client.new 1)); [by vm_compute|done| |done]. intros _. split; [done|].
    apply (reads_fitb_ok (Client.request (Client.new 1)) [_]). by vm_compute. }
  assert (ServerHandler.handle 32 (handler connected_sys) announcing = Panic) as Hh by by vm_compute.
  split_and!; [done..| |done].
  destruct (event_handled 32 1000 eq_refl _ _ _ (reachable_sys_inv 32 new_backend io_debug 1000 eq_refl _ Hr) Hp) as [[h Hd]|Hs];
    [congruence|done].
Qed.

Lemma no_client_forgotten_witness :
  readable (Client.interest waiting_client) = true ∨ writable (Client.interest waiting_client) = true ∨
  (∃ k, Client.processing waiting_client = Some k ∧
    (k ∈ job_cookie <$> Server.jobs (ServerHandler.server (handler waiting_sys)) ∨ ∃ msg, (k, msg) ∈ replies waiting_sys)) ∨
  (∃ tm q ch, Client.timeout waiting_client = Some (tm, q, ch) ∧
    live (ServerHandler.server (handler waiting_sys)) tm = Some (mkTimeout 1 q ch) ∧
    (1 ∈ ent (ServerHandler.server (handler waiting_sys)) q ch ∨ 1 ∈ aw (ServerHandler.server (handler waiting_sys)))).
Proof.
  refine (no_client_forgotten 32 new_backend io_debug 1000 waiting_sys 1 waiting_client _ waiting_sys_reachable _);
    [done|by vm_compute].
Defined.

Lemma waiting_lists_well_formed_witness :
  Client.timeout waiting_client = Some (0%nat, B "q", B "c") ∧ NoDup (aw (ServerHandler.server (handler waiting_sys))).
Proof.
  destruct (waiting_lists_well_formed 32 new_backend io_debug 1000 waiting_sys eq_refl waiting_sys_reachable)
    as (_ & Ha & _ & Hl & _). split; [|exact Ha].
  apply (Hl 1 waiting_client 0%nat (B "q") (B "c")); by vm_compute.
Defined.

Lemma deadline_answers_nil_witness :
  ∃ h c', ServerHandler.handle 32 (handler waiting_sys) (ServerHandler.Timeout 0%nat (mkTimeout 1 (B "q") (B "c"))) = Done h ∧
    ServerHandler.clients h !! 1 = Some c' ∧ Client.timeout c' = None ∧
    writable (Client.interest c') = true ∧ outstanding (Client.response c') = B "$-1" ++ crlf ∧
    ∀ q' ch', 1 ∉ ent (ServerHandler.server h) q' ch'.
Proof.
  refine (proj2 (deadline_answers_nil 32 new_backend io_debug 1000 waiting_sys 1 waiting_client 0%nat (B "q") (B "c")
    _ waiting_sys_reachable _ _ _)); [done|by vm_compute|by vm_compute|].
  apply (bool_decide_unpack _). by vm_compute.
Defined.

Lemma woken_timeout_panics_witness :
  ServerHandler.iteration 32 (handler woken_sys) [ServerHandler.Timeout 0%nat (mkTimeout 1 (B "q") (B "c"))] 8 = Panic.
Proof.
  refine (woken_timeout_panics 32 (handler woken_sys) 0%nat 1 (B "q") (B "c") 8 _ _ _).
  - exact (proj1 (si_loop _ (reachable_sys_inv 32 new_backend io_debug 1000 eq_refl _ woken_sys_reachable))).
  - by vm_compute.
  - apply (bool_decide_unpack _). by vm_compute.
Defined.

(** Client 2 hangs up while its [RPUSH] runs. *)
Definition hung_up : sample_handler :=
  match ServerHandler.handle 32 (handler (ran (set_up ++ block ++ [Read 2 (encoded ["RPUSH"; "q"; "one"]%string)])))
    (ServerHandler.Ready 2 (mkEventSet false false false true) [] [] None 7) with
  | Done h => h
  | _ => handler first_sys
  end.

Definition pusher : Client.t (list Z) nat := default (Client.new 2) (ServerHandler.clients hung_up !! 2).
Definition pusher_cookie : Z := default 0 (Client.processing pusher).

Lemma hung_up_push_wakes_nobody_witness :
  ServerHandler.notify hung_up pusher_cookie (NotifyMessage.PutResponse (Value.Int 1) (B "q") 2) 8 =
    Done (ServerHandler.mk (ServerHandler.server hung_up) (delete 2 (ServerHandler.clients hung_up))) ∧
  ent (ServerHandler.server hung_up) (B "q") (B "c") = [1].
Proof.
  split; [|by vm_compute].
  refine (hung_up_push_wakes_nobody hung_up 2 pusher pusher_cookie (Value.Int 1) (B "q") 2 8 _ _ _ _ _); by vm_compute.
Defined.

(** [SET q c] on a server without queues. *)
Lemma notifications_mirror_witness :
  ∃ msgs h', Dispatch.sent one_queue = [] ++ msgs ∧ deliver (handler first_sys) msgs 0 7 = Done h' ∧
    ServerHandler.clients h' = ServerHandler.clients (handler first_sys) ∧
    table (ServerHandler.server h') = queue_table (Dispatch.queues one_queue).
Proof.
  refine (notifications_mirror 32 new_backend io_debug env no_queues (request ["SET"; "q"; "c"]%string) one_queue
    NotifyMessage.with_ok (handler first_sys) 0 7 _ _ _); [done|vm_compute; by eexists|by vm_compute].
Defined.

End run.
