(* ===== verification/EndToEndSamples.v ===== *)
(** * Delivery by the whole server at concrete inputs

    The server of [ServerSamples.v] with one client that creates a channel,
    pushes two messages, reads both and acknowledges the first, after which
    the server is stopped and started again: the closed instances of the
    properties of [Scripts.v], [EndToEnd.v] and [Restarts.v]. *)
From S2P Require Import Prelude.
From S2P Require Import Text.
From S2P Require Import Settings.
From S2P Require Import Segments.
From S2P Require Import SegmentSpec.
From S2P Require Import SegmentFacts.
From S2P Require Import Backend.
From S2P Require Import LogSpec.
From S2P Require Import BackendFacts.
From S2P Require Import Retention.
From S2P Require Import BackendRecovery.
From S2P Require Import Channels.
From S2P Require Import ChannelFacts.
From S2P Require Import Queues.
From S2P Require Import QueueFacts.
From S2P Require Import Delivery.
From S2P Require Import Samples.
From S2P Require Import Wire.
From S2P Require Import WireProps.
From S2P Require Import Commands.
From S2P Require Import CommandProps.
From S2P Require Import Scripts.
From S2P Require Import Server.
From S2P Require Import Handler.
From S2P Require Import HandlerProps.
From S2P Require Import System.
From S2P Require Import EndToEnd.
From S2P Require Import Rounds.
From S2P Require Import Restarts.
From S2P Require Import ServerSamples.

#[local] Existing Instance dev_profile.
#[local] Existing Instance sum_hasher.
#[local] Existing Instance sample_json.
#[local] Existing Instance sample_queue_json.
#[local] Existing Instance sample_queue_json_ok.
#[local] Instance sample_json_ok : JsonOk QueueBackend.checkpoint_t := countable_json_ok.
#[local] Existing Instance text_json | 100.
#[local] Existing Instance timer_list.
#[local] Existing Instance timer_list_ok.

Section samples.

Abbreviation queue := (InnerQueue.t QueueBackend.t (list (Z * Channel.InFlightState))).
Abbreviation sample_sys :=
  (sys (T:=list Z) (B:=QueueBackend.t) (M:=list (Z * Channel.InFlightState)) (E:=list (option TimeoutType)) (Tm:=nat)).
Abbreviation good := (EndToEnd.served (T:=list Z) (B:=QueueBackend.t) (M:=list (Z * Channel.InFlightState))
  (E:=list (option TimeoutType)) (Tm:=nat) 32 new_backend io_debug 1000 os_sound).

Implicit Types (env : Dispatch.Env (list Z)).

Lemma new_backend_empty c b : new_backend c = Done b → be_rep b 1 [] ∧ be_config b = c.
Proof. intros [= <-]. split; [|done]. split; [|done]. constructor; try done; cbn; try lia; constructor. Qed.

(** ** The conditions of [prudent], decided *)

Fixpoint script_okb env (ops : list op) (q : queue) : bool :=
  match ops with
  | [] => true
  | o :: ops => admissible_b o q &&
      match Script.step_op env o q with Done (q', true) => script_okb env ops q' | _ => true end
  end.

Lemma script_okb_ok env ops q : script_okb env ops q = true → EndToEnd.script_ok os_sound env ops q.
Proof.
  revert q. induction ops as [|o ops IH]; intros q; cbn [script_okb EndToEnd.script_ok]; [done|].
  intros [Ha Hs]%andb_true_iff. split; [by apply admissible_b_ok|]. intros q' Hq'. rewrite Hq' in Hs. by apply IH.
Qed.

Definition no_hard_retention env : bool :=
  (Config.hard_retention_period (Config.default_queue_config (Dispatch.config env)) =? 0) &&
  (Config.hard_retention_size (Config.default_queue_config (Dispatch.config env)) =? 0).

(** Commands about one queue only, and not of the ones that [plain] excludes. *)
Definition one_target (args : list (list Z)) : bool :=
  match args with
  | cmd :: _ :: _ => bool_decide (cmd ∉ [B "INFO"; B "HMSET"; B "SREM"])
  | _ => false
  end.

Definition prudentb (x : sample_sys) env (args : list (list Z)) : bool :=
  one_target args && no_hard_retention env &&
  match args !! 1%nat with
  | Some target =>
      match queues x !! target with
      | Some q => script_okb env (Script.script env args target) q
      | None =>
          let c := Config.new_queue_config (Dispatch.config env) target in
          match b ← new_backend c; InnerQueue.new (M:=list (Z * Channel.InFlightState)) (Dispatch.os env) (Dispatch.written env) c b None false with
          | Done q => script_okb env (Script.script env args target) q
          | _ => true
          end
      end
  | None => false
  end.

Lemma script_elsewhere env args name :
  one_target args = true → args !! 1%nat ≠ Some name → Script.script env args name = [].
Proof.
  destruct args as [|cmd [|target rest]]; [done|done|]. intros Ht%bool_decide_eq_true Hn. unfold Script.script.
  rewrite bool_decide_false by set_solver. rewrite (bool_decide_false (target = name)) by (intros ->; by apply Hn). done.
Qed.

Lemma prudentb_ok x env args :
  Dispatch.os env = os_sound → Dispatch.written env = true →
  prudentb x env args = true → EndToEnd.prudent new_backend os_sound x env args.
Proof.
  intros Hos Hw [[Ht [Hh1%Z.eqb_eq Hh2%Z.eqb_eq]%andb_true_iff]%andb_true_iff Hp]%andb_true_iff.
  assert (∀ name q, args !! 1%nat ≠ Some name → EndToEnd.script_ok os_sound env (Script.script env args name) q) as Helse.
  { intros name q Hn. by rewrite script_elsewhere. }
  constructor; [done..| | |].
  - destruct args as [|cmd [|target rest]]; [done|done|]. apply bool_decide_eq_true in Ht.
    split; [|intros [= ->]]; [intros [= ->]|]; set_solver.
  - intros name q Hq. destruct (decide (args !! 1%nat = Some name)) as [Hn|]; [|by apply Helse].
    rewrite Hn, Hq in Hp. by apply script_okb_ok.
  - intros name q Hq (b & Hb & Hf). destruct (decide (args !! 1%nat = Some name)) as [Hn|]; [|by apply Helse].
    rewrite Hn, Hq in Hp. cbv zeta in Hp. rewrite Hb in Hp. cbn [mbind outcome_bind] in Hp. rewrite Hf in Hp. by apply script_okb_ok.
Qed.

(** ** Runs *)

(** Whether the next job, if a worker takes one, is prudent. *)
Definition prudent_action (x : sample_sys) (a : action) : bool :=
  match a with
  | Work =>
      match Server.jobs (ServerHandler.server (handler x)) with
      | j :: _ =>
          match job_request j with
          | Value.Array vs =>
              match Dispatch.data_args vs with
              | Some args => prudentb x (job_env j) args
              | None => false
              end
          | _ => false
          end
      | [] => false
      end
  | _ => true
  end.

Lemma perform_served x R a x' :
  good x R → prudent_action x a = true → perform x a = Some x' → ∃ R', good x' R'.
Proof.
  intros Hx Hp Ha. assert (a = Work ∨ a ≠ Work) as [->|Hne] by (destruct a; auto).
  - cbn [prudent_action] in Hp. cbn [perform] in Ha. destruct (Server.jobs _) as [|j jobs] eqn:Hj; [done|].
    destruct (job_request j) as [| | |vs| | |] eqn:Hr; try done. destruct (Dispatch.data_args vs) as [args|] eqn:Hd; [|done].
    assert (EndToEnd.prudent new_backend os_sound x (job_env j) args) as Hpr by by apply prudentb_ok.
    destruct (Dispatch.dispatch _ _ _ _ _ _) as [[st msg]| |] eqn:Hdis; [|done..]. injection Ha as <-.
    pose proof (EndToEnd.served_kept _ _ _ _ _ no_faults_sound new_backend_empty _ _ Hx) as Hk.
    destruct (EndToEnd.request_accounts _ _ _ _ _ _ _ _ _ _ _ Hk Hd (EndToEnd.pr_plain _ _ _ _ _ Hpr) Hdis) as [R' HR'].
    exists R'. refine (EndToEnd.served_request _ _ _ _ _ x R [] j jobs (job_env j) vs args st msg R' Hx Hj eq_refl eq_refl
      _ Hr Hd Hpr _ HR'); [by intros k v|]. rewrite Hr. exact Hdis.
  - exists R. eapply EndToEnd.served_other; [exact Hx|by eapply action_step|by eapply perform_queues].
Qed.

Fixpoint prudent_run (x : sample_sys) (script : list action) : option sample_sys :=
  match script with
  | [] => Some x
  | a :: script => if prudent_action x a then x' ← perform x a; prudent_run x' script else None
  end.

Lemma prudent_run_served script x R x' :
  good x R → prudent_run x script = Some x' → ∃ R', good x' R'.
Proof.
  revert x R. induction script as [|a script IH]; intros x R Hx; cbn [prudent_run]; [intros [= <-]; by exists R|].
  destruct (prudent_action x a) eqn:Hp; [|done]. intros (x1 & Ha & Hr)%bind_Some.
  destruct (perform_served _ _ _ _ Hx Hp Ha) as [R1 HR1]. by eapply IH.
Qed.

Lemma first_served : good first_sys ∅.
Proof.
  refine (EndToEnd.served_start _ _ _ _ _ (λ _, true) os_sound new_backend (λ _, None) 7 4 server_config (Ok []) [] first_sys ∅ _ _ _);
    [done|by vm_compute|]. intros name q. assert (queues first_sys = ∅) as -> by by vm_compute. by rewrite lookup_empty.
Qed.

(** ** The session: [SET q c], [RPUSH q one two], [HMGET q c 5], [HDEL q c 100] *)

Definition session : list action :=
  set_up ++ [Read 2 (encoded ["RPUSH"; "q"; "one"; "two"]%string); Work; Reply; Write 2 4;
    Read 2 (encoded ["HMGET"; "q"; "c"; "5"]%string); Work; Reply; Write 2 50;
    Read 2 (encoded ["HDEL"; "q"; "c"; "100"]%string); Work].

Definition session_end : sample_sys := default first_sys (prudent_run first_sys session).

Lemma session_served : ∃ R, good session_end R.
Proof.
  apply (prudent_run_served session first_sys ∅); [exact first_served|].
  unfold session_end. destruct (prudent_run first_sys session) as [x|] eqn:Hr; [done|]. by vm_compute in Hr.
Qed.

Definition session_queue : queue :=
  default (InnerQueue.mk (tiny_config 64) (QueueBackend.mk (tiny_config 64) [] 1 1) ∅ InnerQueue.Ready) (queues session_end !! B "q").
Definition session_channel : Channel.t (list (Z * Channel.InFlightState)) :=
  default (Channel.fresh 0 0) (InnerQueue.channels session_queue !! B "c").

(** The first message is acknowledged, the second in flight. *)
Example session_end_state :
  Channel.tail session_channel = 3 ∧ in_flight session_channel = [(101, Channel.mkInFlight 2 30)] ∧
  QueueBackend.head (InnerQueue.backend session_queue) = 3.
Proof. by vm_compute. Qed.

Lemma server_delivers_witness :
  ∃ R start ms G g n, good session_end R ∧ R !! B "q" = Some G ∧ G !! B "c" = Some g ∧
    be_rep (InnerQueue.backend session_queue) start ms ∧ Channel.real_tail session_channel = Done n ∧
    ∀ id, origin g ≤ id < be_head (InnerQueue.backend session_queue) →
      id ∈ acked g ∨
      (n ≤ id ∧ (id ∈ entry_id <$> in_flight session_channel ∨ Channel.tail session_channel ≤ id) ∧
       ∃ y, entry start ms id = Some (id, y)).
Proof.
  destruct session_served as [R HR]. exists R.
  destruct (EndToEnd.server_delivers _ _ _ _ _ no_faults_sound new_backend_empty session_end R HR) as [Hd _].
  assert (queues session_end !! B "q" = Some session_queue) as Hq by by vm_compute.
  assert (InnerQueue.channels session_queue !! B "c" = Some session_channel) as Hc by by vm_compute.
  destruct (Hd _ _ _ _ Hq Hc) as (start & ms & G & g & n & HG & Hg & Hb & Hn & Hall).
  exists start, ms, G, g, n. exact (conj HR (conj HG (conj Hg (conj Hb (conj Hn Hall))))).
Defined.

(** *** A round of each background thread *)

Lemma session_gc_ready name q :
  queues session_end !! name = Some q → be_gc_ready (InnerQueue.backend q) 40.
Proof.
  intros Hq. assert (name ∈ dom (queues session_end)) as Hn by by apply elem_of_dom_2 in Hq.
  assert (dom (queues session_end) = {[B "q"]}) as Hd by (apply (bool_decide_unpack _); by vm_compute).
  rewrite Hd in Hn. apply elem_of_singleton in Hn as ->.
  assert (queues session_end !! B "q" = Some session_queue) as Hs by by vm_compute.
  rewrite Hs in Hq. apply (inj Some) in Hq as <-. apply (bool_decide_unpack _). by vm_compute.
Qed.

(** The message in flight has timed out at 40 and is announced. *)
Lemma background_rounds_witness :
  ∃ R, good session_end R ∧ 0 ≤ 40 ∧
  (∃ qs' msgs, Rounds.monitor_round (T:=list Z) 40 (queues session_end) = Done (qs', msgs) ∧
    good (Rounds.with_queues session_end qs' msgs) R ∧
    ∀ name ch, Rounds.announced msgs name ch ↔ ∃ q, queues session_end !! name = Some q ∧ Rounds.timed_out q ch 40) ∧
  (∃ qs', Rounds.maintenance_round os_sound (λ _, 40) (queues session_end) = Done qs' ∧
    good (Rounds.with_queues session_end qs' []) R ∧ dom qs' = dom (queues session_end)).
Proof.
  destruct session_served as [R HR]. exists R. split; [exact HR|]. split; [done|].
  refine (Rounds.background_rounds _ _ _ _ _ no_faults_sound new_backend_empty session_end R 40 (λ _, 40) HR _ _); [done|].
  intros name q _. apply session_gc_ready.
Defined.

Example monitor_round_announces :
  match Rounds.monitor_round (T:=list Z) 40 (queues session_end) with
  | Done (_, msgs) => msgs = [NotifyMessage.MessagesAvailable (B "q") (B "c") 1]
  | _ => False
  end.
Proof. by vm_compute. Qed.

(** [RPUSH q one two] *)
Lemma requests_run_scripts_witness :
  ∃ q, Dispatch.queues one_queue !! B "q" = Some q ∧ ∀ G, ∃ G',
    Script.exec env (Script.script env [B "RPUSH"; B "q"; B "one"; B "two"] (B "q")) q G = Done (sample_q, G').
Proof.
  assert (Dispatch.data_args (T:=list Z) ((λ a, Value.Data (B a)) <$> ["RPUSH"; "q"; "one"; "two"]%string) =
    Some [B "RPUSH"; B "q"; B "one"; B "two"]) as Ha by by vm_compute.
  assert (Script.plain [B "RPUSH"; B "q"; B "one"; B "two"]) as Hp by by split.
  assert (Dispatch.dispatch 32 new_backend io_debug env one_queue
    (Value.Array ((λ a, Value.Data (B a)) <$> ["RPUSH"; "q"; "one"; "two"]%string)) =
    Done (two_messages, (served one_queue ["RPUSH"; "q"; "one"; "two"]%string).2)) as Hd by by vm_compute.
  pose proof (Script.requests_run_scripts 32 new_backend io_debug env one_queue _ _ two_messages
    (served one_queue ["RPUSH"; "q"; "one"; "two"]%string).2 Ha Hp Hd) as Hr.
  assert (Script.carried_out one_queue [B "RPUSH"; B "q"; B "one"; B "two"] = true) as Hc by by vm_compute.
  rewrite Hc in Hr. specialize (Hr (B "q")). rewrite sample_q_lookup in Hr.
  destruct (Dispatch.queues one_queue !! B "q") as [q|]; [exists q; split; [reflexivity|exact (proj2 Hr)]|].
  exfalso. destruct Hr as [Hr _]. by vm_compute in Hr.
Defined.

(** What is refused: a queue that is not there, a queue that is there
    already, a count that is not a number. *)
Example requests_refused :
  Script.carried_out one_queue [B "RPUSH"; B "r"; B "one"] = false ∧
  Script.carried_out one_queue [B "SET"; B "q"; B "c"] = false ∧
  Script.carried_out one_queue [B "SETNX"; B "q"; B "c"] = true ∧
  Script.carried_out one_queue [B "SET"; B "q"; B "c"; B "NX"] = true ∧
  Script.carried_out one_queue [B "HMGET"; B "q"; B "c"; B "x"] = false ∧
  Script.carried_out one_queue [B "DEL"; B "q"] = true.
Proof. by vm_compute. Qed.

(** ** The server stopped and started again *)

Definition stopped_queue : queue * list Z :=
  match InnerQueue.checkpoint os_sound true session_queue true with Done r => r | _ => (session_queue, []) end.
Definition on_disk : QueueBackend.t := InnerQueue.backend stopped_queue.1.
Definition saved : QueueBackend.t * list Z :=
  match QueueBackend.checkpoint os_sound true on_disk true with Done r => r | _ => (on_disk, []) end.
Definition reopened : QueueBackend.t :=
  match QueueBackend.new (λ _, os_sound) (QueueBackend.segment_files saved.1) (Some saved.2) (QueueBackend.config on_disk) true with
  | Done b => b
  | _ => on_disk
  end.
Definition reopen (c : Config.QueueConfig) : outcome QueueBackend.t :=
  if bool_decide (Config.name c = B "q") && (Config.hard_retention_period c =? 0) && (Config.hard_retention_size c =? 0) then
    Done (QueueBackend.mk c (QueueBackend.segments reopened) (QueueBackend.head reopened) (QueueBackend.tail reopened))
  else Panic.

Lemma reopened_rep start ms : be_rep on_disk start ms → be_rep reopened start ms.
Proof.
  intros [Hb Ht].
  destruct (checkpoint_recover os_sound (λ _, os_sound) on_disk start ms true Hb Ht)
    as (b1 & cpf & b2 & Hcp & _ & Hnew & Hrep & Htl & _).
  - by vm_compute.
  - unfold named. apply (bool_decide_unpack _). by vm_compute.
  - unfold spare. apply (bool_decide_unpack _). by vm_compute.
  - by intros [].
  - by intros ? [].
  - unfold reopened, saved. rewrite Hcp. cbn [fst snd]. rewrite Hnew. exact (conj Hrep Htl).
Qed.

Lemma with_config_rep c b start ms :
  be_rep b start ms →
  be_rep (QueueBackend.mk c (QueueBackend.segments b) (QueueBackend.head b) (QueueBackend.tail b)) start ms.
Proof. intros [[] Ht]. split; [by constructor|exact Ht]. Qed.

Lemma Done_inj {A} (a b : A) : Done a = Done b → a = b.
Proof. by intros [= ->]. Qed.

Lemma session_stopped : Restarts.stopped os_sound session_end reopen (λ _, Some stopped_queue.2).
Proof.
  intros c b. unfold reopen. destruct (bool_decide _ && _ && _) eqn:Hc; [|done]. intros <-%Done_inj.
  apply andb_true_iff in Hc as [[Hname%bool_decide_eq_true Hp%Z.eqb_eq]%andb_true_iff Hs%Z.eqb_eq].
  exists session_queue, true, stopped_queue.1, stopped_queue.2. rewrite Hname.
  split; [by vm_compute|]. split; [by vm_compute|]. split; [exact eq_refl|]. split; [exact eq_refl|].
  split; [exact Hp|]. split; [exact Hs|].
  intros start ms Hb%reopened_rep. by apply with_config_rep.
Qed.

Definition restarted_sys : sample_sys :=
  match server_new (λ _, true) os_sound reopen (λ _, Some stopped_queue.2) 7 4 server_config (Ok [Ok (B "data/q")]) [] with
  | Done x => x
  | _ => first_sys
  end.
Definition restarted_queue : queue := default session_queue (queues restarted_sys !! B "q").

(** The channel goes on from the message that was in flight. *)
Example restarted_state :
  (λ c, (Channel.tail c, in_flight c)) <$> InnerQueue.channels restarted_queue !! B "c" = Some (2, []) ∧
  QueueBackend.head (InnerQueue.backend restarted_queue) = 3.
Proof. by vm_compute. Qed.

Lemma server_restarts_witness :
  ∃ R R' q G G' g n, good session_end R ∧ good restarted_sys R' ∧ queues session_end !! B "q" = Some q ∧
    R !! B "q" = Some G ∧ R' !! B "q" = Some G' ∧ G !! B "c" = Some g ∧ G' !! B "c" = Some (Restarts.forget n g) ∧
    ∀ id, origin g ≤ id < n → id ∈ acked g.
Proof.
  destruct session_served as [R HR].
  destruct (Restarts.server_restarts _ _ _ _ _ no_faults_sound new_backend_empty session_end R (λ _, true) os_sound reopen
    (λ _, Some stopped_queue.2) 7 4 server_config (Ok [Ok (B "data/q")]) [] restarted_sys HR session_stopped)
    as (R' & HR' & Hall); [done|by vm_compute|].
  assert (queues restarted_sys !! B "q" = Some restarted_queue) as Hq' by by vm_compute.
  destruct (Hall _ _ Hq') as (q & G & G' & Hq & HG & HG' & _ & Hc).
  assert (queues session_end !! B "q" = Some session_queue) as Hq2 by by vm_compute.
  rewrite Hq2 in Hq. apply (inj Some) in Hq as <-.
  assert (InnerQueue.channels session_queue !! B "c" = Some session_channel) as Hch by by vm_compute.
  destruct (Hc _ _ Hch) as (g & n & Hg & _ & Hg' & Hids).
  exists R, R', session_queue, G, G', g, n.
  exact (conj HR (conj HR' (conj Hq2 (conj HG (conj HG' (conj Hg (conj Hg' Hids))))))).
Defined.

End samples.
