(* ===== verification/ServerCrashSamples.v ===== *)
(** * The server that starts and crashes, at concrete inputs

    The server of [ServerSamples.v] with the table of files of
    [ServerCrashes.v]: a run that stops in the middle of a maintenance, the
    server that starts again from its files, and a start of the program: the
    closed instances of the properties of [ServerCrashes.v] and
    [Startup.v]. *)
From S2P Require Import Prelude.
From S2P Require Import Text.
From S2P Require Import Settings.
From S2P Require Import Segments.
From S2P Require Import SegmentSpec.
From S2P Require Import SegmentFacts.
From S2P Require Import Backend.
From S2P Require Import LogSpec.
From S2P Require Import BackendFacts.
From S2P Require Import Retention.
From S2P Require Import BackendRecovery.
From S2P Require Import Channels.
From S2P Require Import ChannelFacts.
From S2P Require Import Queues.
From S2P Require Import QueueFacts.
From S2P Require Import Delivery.
From S2P Require Import Opening.
From S2P Require Import Maintenance.
From S2P Require Import Crashes.
From S2P Require Import Samples.
From S2P Require Import MaintenanceSamples.
From S2P Require Import Wire.
From S2P Require Import WireProps.
From S2P Require Import Commands.
From S2P Require Import CommandProps.
From S2P Require Import Scripts.
From S2P Require Import Server.
From S2P Require Import Handler.
From S2P Require Import HandlerProps.
From S2P Require Import System.
From S2P Require Import Startup.
From S2P Require Import EndToEnd.
From S2P Require Import ServerCrashes.
From S2P Require Import ServerSamples.
From S2P Require Import EndToEndSamples.

#[local] Existing Instance dev_profile.
#[local] Existing Instance sum_hasher.
#[local] Existing Instance sample_json.
#[local] Existing Instance sample_queue_json.
#[local] Existing Instance sample_queue_json_ok.
#[local] Instance sample_json_ok : JsonOk QueueBackend.checkpoint_t := countable_json_ok.
#[local] Existing Instance text_json | 100.
#[local] Existing Instance timer_list.
#[local] Existing Instance timer_list_ok.

#[local] Instance config_eq_dec : EqDecision Config.QueueConfig.
Proof. solve_decision. Defined.
#[local] Instance backend_eq_dec : EqDecision QueueBackend.t.
Proof. solve_decision. Defined.
#[local] Instance queue_eq_dec : EqDecision (InnerQueue.t QueueBackend.t (list (Z * Channel.InFlightState))).
Proof. solve_decision. Defined.

Section samples.

Abbreviation queue_t := (InnerQueue.t QueueBackend.t (list (Z * Channel.InFlightState))).
Abbreviation server :=
  (System.sys (T:=list Z) (B:=QueueBackend.t) (M:=list (Z * Channel.InFlightState)) (E:=list (option TimeoutType)) (Tm:=nat)).
Abbreviation table := (gmap (list Z) (Maintenance.sys (B:=QueueBackend.t) (M:=list (Z * Channel.InFlightState)) * Crashes.disk)).
Abbreviation records := (gmap (list Z) (gmap (list Z) ghost)).
Abbreviation alive := (ServerCrashes.life (T:=list Z) (M:=list (Z * Channel.InFlightState))
  (E:=list (option TimeoutType)) (Tm:=nat) 32 io_debug 1000 os_sound).
Abbreviation goes_on := (EndToEnd.served (T:=list Z) (B:=QueueBackend.t) (M:=list (Z * Channel.InFlightState))
  (E:=list (option TimeoutType)) (Tm:=nat) 32 (ServerCrashes.new_backend os_sound) io_debug 1000 os_sound).

Implicit Types (x : server) (L : table) (env : Dispatch.Env (list Z)) (args : list (list Z)) (q : queue_t)
  (name : list Z) (G : gmap (list Z) ghost) (R : records).

(** ** The record of a request, computed *)

(** The record of a queue that was [q] with the record [G] and is [q'] now. *)
Definition row env args name q G q' : option (gmap (list Z) ghost) :=
  if bool_decide (q' = q) then Some G
  else
    match Script.exec env (Script.script env args name) q G with
    | Done (q2, G2) => if bool_decide (q2 = q') then Some G2 else None
    | _ => None
    end.

Definition new_queue env name : option queue_t :=
  let c := Config.new_queue_config (Dispatch.config env) name in
  match b ← ServerCrashes.new_backend os_sound c;
        InnerQueue.new (Dispatch.os env) (Dispatch.written env) c b None false with
  | Done q => Some q
  | _ => None
  end.

Definition account x (R : records) env args name q' : option (gmap (list Z) ghost) :=
  match queues x !! name with
  | Some q => G ← R !! name; row env args name q G q'
  | None => q ← new_queue env name; row env args name q ∅ q'
  end.

Definition account_all x R env args (qs : gmap (list Z) queue_t) : records := map_imap (account x R env args) qs.

Lemma row_ok env args name q G q' G' :
  row env args name q G q' = Some G' →
  q' = q ∧ G' = G ∨ Script.exec env (Script.script env args name) q G = Done (q', G').
Proof.
  unfold row. case_bool_decide; [by intros [= <-]; left|].
  destruct (Script.exec _ _ _ _) as [[q2 G2]| |]; [|done..]. case_bool_decide; [|done]. intros [= <-]. subst. by right.
Qed.

Lemma account_all_ok x R env args (qs : gmap (list Z) queue_t) :
  bool_decide (dom (account_all x R env args qs) = dom qs) = true →
  EndToEnd.accounts (ServerCrashes.new_backend os_sound) x R env args qs (account_all x R env args qs).
Proof.
  intros Hd%bool_decide_eq_true name q' Hq'.
  assert (name ∈ dom (account_all x R env args qs)) as [G' HG']%elem_of_dom by (rewrite Hd; by apply elem_of_dom_2 in Hq').
  pose proof HG' as Ha. unfold account_all in Ha. rewrite map_lookup_imap, Hq' in Ha. cbn in Ha. unfold account in Ha.
  destruct (queues x !! name) as [q|] eqn:Hq.
  - apply bind_Some in Ha as (G & HG & Hr%row_ok). exists q, G. split; [by left|]. by exists G'.
  - apply bind_Some in Ha as (q & Hn & Hr%row_ok). exists q, ∅. split; [|by exists G'].
    right. split_and!; [done| |done]. unfold new_queue in Hn.
    destruct (mbind _ _) as [q1| |] eqn:Hb; [|done..]. injection Hn as ->. by apply bind_Done_iff in Hb.
Qed.

(** ** Runs *)

Inductive deed : Type :=
| Act (a : action)
| Visit (name : list Z) (clock : Z)
| Go (name : list Z).

Definition besides_b L env args : bool :=
  forallb (λ nt, forallb (λ o, beside_b o (Maintenance.at_stage nt.2.1)) (Script.script env args nt.1)) (map_to_list L).

Definition follow_table env (R' : records) (qs : gmap (list Z) queue_t) L : table := ServerCrashes.follow os_sound env R' qs L.

(** The next job, taken by a worker. *)
Definition serve x L : option (server * table) :=
  match Server.jobs (ServerHandler.server (handler x)) with
  | j :: jobs =>
      let env := job_env j in
      match job_request j with
      | Value.Array vs =>
          args ← Dispatch.data_args vs;
          match Dispatch.dispatch 32 new_backend io_debug env (Dispatch.mkState (queues x) [] (wiped x)) (job_request j) with
          | Done (st, msg) =>
              let R' := account_all x (ServerCrashes.records_of L) env args (Dispatch.queues st) in
              if prudentb x env args && besides_b L env args && bool_decide (dom R' = dom (Dispatch.queues st)) then
                Some (System.mkSys (Dispatch.queues st) (Dispatch.wiped st) (set_jobs x jobs)
                        (inbox x ++ Dispatch.sent st) (replies x ++ [(job_cookie j, msg)]),
                      follow_table env R' (Dispatch.queues st) L)
              else None
          | _ => None
          end
      | _ => None
      end
  | [] => None
  end.

(** The maintenance thread. *)
Definition attend x L name (a : act) : option (server * table) :=
  '(m, d) ← L !! name;
  m' ← MaintenanceSamples.perform m a;
  Some (System.mkSys (<[name := Maintenance.queue m']> (queues x)) (wiped x) (handler x) (inbox x) (replies x),
        <[name := (m', Crashes.flush os_sound m m' d)]> L).

Definition live (r : server * table) (a : deed) : option (server * table) :=
  match a with
  | Act Work => serve r.1 r.2
  | Act a => x' ← perform r.1 a; Some (x', r.2)
  | Visit name clock => attend r.1 r.2 name (Begin clock)
  | Go name => attend r.1 r.2 name Advance
  end.

Lemma besides_b_ok L env args name t :
  besides_b L env args = true → L !! name = Some t →
  Forall (λ o, Maintenance.beside o (Maintenance.at_stage t.1)) (Script.script env args name).
Proof.
  intros Hb Hl. unfold besides_b in Hb. rewrite List.forallb_forall in Hb.
  specialize (Hb (name, t)). rewrite <-list_elem_of_In in Hb. specialize (Hb (proj2 (elem_of_map_to_list _ _ _) Hl)).
  rewrite List.forallb_forall in Hb. apply Forall_forall. intros o Ho%list_elem_of_In. apply beside_b_ok, Hb, Ho.
Qed.

Lemma serve_lives x L x' L' : alive x L → serve x L = Some (x', L') → alive x' L'.
Proof.
  intros Hx. unfold serve. destruct (Server.jobs _) as [|j jobs] eqn:Hj; [done|].
  destruct (job_request j) as [| | |vs| | |] eqn:Hr; try done. intros (args & Ha & Hs)%bind_Some.
  destruct (Dispatch.dispatch _ _ _ _ _ _) as [[st msg]| |] eqn:Hd; [|done..].
  destruct (_ && _) eqn:Hc; [|done]. injection Hs as <- <-.
  apply andb_true_iff in Hc as [[Hp Hb]%andb_true_iff HR].
  refine (ServerCrashes.life_request 32 io_debug 1000 os_sound x L [] j jobs (job_env j) vs args st msg _ Hx Hj eq_refl eq_refl
    _ Hr Ha _ _ _ (account_all_ok _ _ _ _ _ HR)).
  - by intros k v.
  - exact (prudentb_ok x (job_env j) args eq_refl eq_refl Hp).
  - intros name t. by apply besides_b_ok.
  - rewrite Hr. exact Hd.
Qed.

Lemma attend_lives x L name a x' L' :
  (∀ o, a ≠ Run o) → alive x L → attend x L name a = Some (x', L') → alive x' L'.
Proof.
  intros Ha Hx ([m d] & Hl & (m' & Hm & [= <- <-])%bind_Some)%bind_Some.
  eapply ServerCrashes.life_maintenance; [exact Hx|exact Hl|]. destruct m as [q G st w], a as [o|clock|]; cbn in Hm.
  - by destruct (Ha o).
  - destruct st; try done. injection Hm as <-. constructor.
  - destruct (gc_ready_b q st) eqn:E; [|done]. apply gc_ready_b_ok in E.
    destruct (Maintenance.advance os_sound q st) as [[[q' st'] w']| |] eqn:Hadv; [|done..]. injection Hm as <-.
    by constructor.
Qed.

Lemma live_lives r a r' : alive r.1 r.2 → live r a = Some r' → alive r'.1 r'.2.
Proof.
  destruct r as [x L], r' as [x' L'], a as [a|name clock|name]; cbn [live fst snd]; intros Hx.
  - assert (a = Work ∨ a ≠ Work) as [->|Hne] by (destruct a; auto); [by apply serve_lives|].
    intros Hl. assert (perform x a = Some x' ∧ L' = L) as [Ha ->].
    { destruct a; try done; by apply bind_Some in Hl as (x1 & -> & [= <- <-]). }
    eapply ServerCrashes.life_other; [exact Hx|by eapply action_step|by eapply perform_queues].
  - by apply attend_lives.
  - by apply attend_lives.
Qed.

Fixpoint live_all (r : server * table) (script : list deed) : option (server * table) :=
  match script with
  | [] => Some r
  | a :: script => r' ← live r a; live_all r' script
  end.

Lemma live_all_lives script r r' : alive r.1 r.2 → live_all r script = Some r' → alive r'.1 r'.2.
Proof.
  revert r. induction script as [|a script IH]; intros r Hr; cbn [live_all]; [by intros [= <-]|].
  intros (r1 & Ha & Hs)%bind_Some. eapply IH; [by eapply live_lives|exact Hs].
Qed.

(** ** A crash in the middle of a maintenance *)

Definition crash_script : list deed :=
  (Act <$> set_up) ++
  (Act <$> [Read 2 (encoded ["RPUSH"; "q"; "one"]%string); Work; Reply; Write 2 4]) ++
  Visit (B "q") 8 :: replicate 5 (Go (B "q")) ++
  (Act <$> [Read 2 (encoded ["RPUSH"; "q"; "two"]%string); Work; Reply; Write 2 4;
            Read 2 (encoded ["HMGET"; "q"; "c"; "5"]%string); Work; Reply; Write 2 50]) ++
  Visit (B "q") 9 :: replicate 3 (Go (B "q")) ++
  (Act <$> [Read 2 (encoded ["HDEL"; "q"; "c"; "100"]%string); Work]).

Definition crashed : server * table := default (first_sys, ∅) (live_all (first_sys, ∅) crash_script).

Lemma first_alive : alive first_sys ∅.
Proof.
  refine (ServerCrashes.life_start _ _ _ _ (λ _, true) os_sound new_backend (λ _, None) 7 4 server_config [] first_sys _).
  by vm_compute.
Qed.

Lemma crashed_alive : alive crashed.1 crashed.2.
Proof.
  apply (live_all_lives crash_script (first_sys, ∅)); [exact first_alive|].
  unfold crashed. destruct (live_all (first_sys, ∅) crash_script) as [r|] eqn:Hr; [done|]. by vm_compute in Hr.
Qed.

(** The one queue of the table. *)
Definition crashed_queue : Maintenance.sys * Crashes.disk :=
  default (Maintenance.mkSys session_queue ∅ Maintenance.Resting None, Crashes.mkDisk on_disk []) (crashed.2 !! B "q").

Lemma crashed_table : crashed.2 !! B "q" = Some crashed_queue.
Proof. by vm_compute. Qed.

Lemma crashed_dom : dom crashed.2 = {[B "q"]}.
Proof. apply (bool_decide_unpack _). by vm_compute. Qed.

Lemma crashed_only name t : crashed.2 !! name = Some t → name = B "q" ∧ t = crashed_queue.
Proof.
  intros Hl. assert (name ∈ dom crashed.2) as Hn by by apply elem_of_dom_2 in Hl.
  rewrite crashed_dom in Hn. apply elem_of_singleton in Hn as ->. rewrite crashed_table in Hl.
  split; [done|]. by apply (inj Some) in Hl.
Qed.

(** The server that opens the files. *)
Definition on_crashed_disk : Config.QueueConfig → outcome QueueBackend.t :=
  ServerCrashes.backend_on_disk (λ _, os_sound) crashed.2.
Definition after_crash : server :=
  match server_new (λ _, true) os_sound on_crashed_disk (ServerCrashes.channels_on_disk crashed.2) 9 4
      server_config (Ok [Ok (B "data/q")]) [] with
  | Done x => x
  | _ => first_sys
  end.

(** The maintenance had not saved the channels again: both messages are
    delivered once more, also the one acknowledged in the meantime. *)
Example after_crash_state :
  match queues after_crash !! B "q" with
  | Some q => QueueBackend.head (InnerQueue.backend q) = 3 ∧
      (λ c, (Channel.tail c, in_flight c)) <$> InnerQueue.channels q !! B "c" = Some (1, [])
  | None => False
  end.
Proof. by vm_compute. Qed.

(** Every saved position is within the log that is found. *)
Lemma crashed_within name (m : Maintenance.sys) (d : Crashes.disk) (chans : Maintenance.saved) (b : QueueBackend.t) :
  crashed.2 !! name = Some (m, d) → Maintenance.file m = Some chans →
  on_crashed_disk (Config.new_queue_config server_config name) = Done b → Crashes.within b chans.
Proof.
  intros [-> Ht]%crashed_only Hf Hb. assert (m = crashed_queue.1) as -> by by rewrite <-Ht.
  assert (match Maintenance.file crashed_queue.1, on_crashed_disk (Config.new_queue_config server_config (B "q")) with
          | Some chans, Done b => bool_decide (map_Forall (λ _ cc,
              QueueBackend.tail b ≤ InnerQueue.cc_tail cc ≤ QueueBackend.head b) chans)
          | _, _ => true
          end = true) as Hok by by vm_compute.
  rewrite Hf, Hb in Hok. apply bool_decide_eq_true in Hok. intros cn cc Hcc. exact (Hok cn cc Hcc).
Qed.

Lemma server_crashes_witness :
  ∃ x', server_new (λ _, true) os_sound on_crashed_disk (ServerCrashes.channels_on_disk crashed.2) 9 4
      server_config (Ok (Ok <$> [B "data/q"])) [] = Done (x' : server) ∧
    dom (queues x') = dom (queues crashed.1) ∧
    (∀ name m d, crashed.2 !! name = Some (m, d) → ∃ chans q3,
      queues crashed.1 !! name = Some (Maintenance.queue m) ∧ Maintenance.file m = Some chans ∧
      queues x' !! name = Some q3 ∧ InnerQueue.state q3 = InnerQueue.Ready ∧ Crashes.delivered_again m d chans q3) ∧
    goes_on x' (ServerCrashes.reread_records crashed.2).
Proof.
  edestruct (ServerCrashes.server_crashes 32 io_debug 1000 os_sound no_faults_sound crashed.1 crashed.2 (λ _, os_sound)
    (λ _, true) 9 4 [B "data/q"] [B "q"] [] server_config crashed_alive) as (x' & Hx' & Hd & Hall & Hgo); cycle -1.
  { exists x'. refine (conj Hx' (conj Hd (conj Hall (Hgo _ _)))); [exact crashed_within|done]. }
  - by intros ? [].
  - done.
  - by vm_compute.
  - rewrite crashed_dom. cbn [list_to_set]. apply right_id_L, _.
  - intros name m d [-> Ht]%crashed_only. assert (m = crashed_queue.1) as -> by by rewrite <-Ht.
    split; [by vm_compute|]. unfold spare. apply (bool_decide_unpack _). by vm_compute.
  - intros name b ->%list_elem_of_singleton. intros Hb. exists 256.
    assert (on_crashed_disk (Config.new_queue_config server_config (B "q")) = Done b) as Hb' by exact Hb. clear Hb.
    assert (match on_crashed_disk (Config.new_queue_config server_config (B "q")) with
            | Done b => QueueBackend.disk_usage b = Done 256 | _ => True end) as Hdu by by vm_compute.
    rewrite Hb' in Hdu. exact Hdu.
Defined.

(** ** The program started *)

(** A configuration file with segments of 64 MB, and two queues on disk that
    have not been written to; the first has a channel. *)
Definition found_file (c : Config.QueueConfig) : option (list Z) :=
  if bool_decide (Config.name c = B "q") then
    Some (json_encode (InnerQueue.mkQueueCheckpoint InnerQueue.Ready {[B "c" := InnerQueue.mkChannelCheckpoint 1 5]}))
  else None.

Definition started_config : Config.ServerConfig :=
  match Config.read Config.sample_str (λ _, Some 100) true with Done cfg => cfg | _ => server_config end.

Definition main_run : outcome server :=
  Startup.main true Config.sample_str (λ _, Some 100) true (λ _, true) os_sound new_backend found_file 7 4
    (Ok (Ok <$> [B "data/q"; B "data/r"])) [].


Example main_run_state :
  match main_run with
  | Done x => (λ q, (InnerQueue.state q, Channel.tail <$> InnerQueue.channels q)) <$> queues x =
      {[B "q" := (InnerQueue.Ready, {[B "c" := 1]}); B "r" := (InnerQueue.Ready, ∅)]}
  | _ => False
  end.
Proof. by vm_compute. Qed.

End samples.
