(* ===== verification/ClientTests.v ===== *)
(** * The repository's client programs, against the commands

    [tests/mod.rs] and [examples/helloworld.rs] talk to a server over a
    connection. Here their requests go to [Dispatch] one after the other; a
    program that panics is a [Panic]. The server is a new one with segments
    of 256 bytes. Of the example, the threads run one after the other,
    producers first. *)
From S2P Require Import Prelude.
From S2P Require Import Text.
From S2P Require Import Settings.
From S2P Require Import Segments.
From S2P Require Import SegmentFacts.
From S2P Require Import Backend.
From S2P Require Import Channels.
From S2P Require Import Queues.
From S2P Require Import Wire.
From S2P Require Import Commands.

#[local] Existing Instance dev_profile.
#[local] Existing Instance sum_hasher.
#[local] Instance client_json : Json QueueBackend.checkpoint_t := countable_json.
#[local] Instance client_queue_json : Json InnerQueue.QueueCheckpoint := countable_json.
#[local] Instance client_text_json {A} : Json A | 100 := {| json_encode _ := B "{}"; json_decode _ := None |}.

Module ClientPrograms.

Abbreviation value := (Value.t (list Z)).

(** ** A server *)

Definition server_config : Config.ServerConfig :=
  Config.mkServerConfig (B "data") (B "127.0.0.1:9797") 1000 1000 1000 (tiny_config 256).

(** The commands' state, and how many tickets were drawn. *)
Record server : Type := mkServer {
  commands : Dispatch.state (list Z) QueueBackend.t (list (Z * Channel.InFlightState));
  drawn : Z;
}.

Definition new_server : server := mkServer (Dispatch.mkState ∅ [] []) 0.

(** The tickets of one request are numbered from [drawn] on; no request
    here asks for 50 messages. *)
Definition env (drawn : Z) : Dispatch.Env (list Z) :=
  Dispatch.mkEnv (list Z) server_config 5 os_sound true true (λ i, drawn + Z.of_nat i)
    (mkServerInfo 0 0 0 0 0) (λ _ _, NotifyMessage.with_ok).

(** A request over a connection, and the reply. A request that blocks is
    answered [Nil] at its deadline, since nobody else is connected. *)
Definition call (st : server) (args : list (list Z)) : server * value :=
  let '(commands, n) :=
    match Dispatch.dispatch 32 (λ c, mret (QueueBackend.mk c [] 1 1)) print_u64 (env (drawn st)) (commands st)
            (Value.Array (Value.Data <$> args)) with
    | Done r => r
    | _ => (commands st, NotifyMessage.with_error (B "the connection is never answered"))
    end in
  (mkServer commands (drawn st + 50), match n with
       | NotifyMessage.Response v | NotifyMessage.PutResponse v _ _ => v
       | _ => Value.Nil
       end).

(** What the [redis] crate makes of a reply: [from_redis_value] at the types
    the programs ask for. An error is an [Err], on which they panic. *)
Class Redis : Type := {
  from_bool : value → outcome bool;
  from_int : value → outcome Z;
  from_string : value → outcome (list Z);
  from_array : value → outcome (list value);
}.

(** The documented conversions. *)
Definition redis_values : Redis := {|
  from_bool v :=
    match v with
    | Value.Int n => Done (negb (n =? 0))
    | Value.Status s => Done (bool_decide (s = B "OK"))
    | _ => Panic
    end;
  from_int v := match v with Value.Int n => Done n | _ => Panic end;
  from_string v := match v with Value.Data s | Value.Status s => Done s | _ => Panic end;
  from_array v := match v with Value.Array l => Done l | Value.Nil => Done [] | _ => Panic end;
|}.

(** A message comes over the wire as an array of its id, its ticket and its
    body. *)
Definition fields (v : value) : outcome (list value) :=
  match v with
  | Value.Message ticket m =>
      id ← Message.id m; body ← Message.body m; mret [Value.Int id; Value.Int ticket; Value.Data body]
  | Value.Array l => mret l
  | _ => Panic
  end.

Section programs.
Context `{Redis}.

(** [from_redis_value(&msg[i])] for the three fields of a message *)
Definition as_message (v : value) : outcome (Z * Z * list Z) :=
  msg ← fields v;
  id ← unwrap (msg !! 0%nat);
  id ← from_int id;
  ticket ← unwrap (msg !! 1%nat);
  ticket ← from_int ticket;
  body ← unwrap (msg !! 2%nat);
  body ← from_string body;
  mret (id, ticket, body).
Definition as_messages (v : value) : outcome (list (Z * Z * list Z)) :=
  l ← from_array v;
  foldr (λ v rest, m ← as_message v; l ← rest; mret (m :: l)) (mret []) l.

Definition assert_eq {A} `{EqDecision A} (a b : A) : outcome () := assert (bool_decide (a = b)).

(** ** [tests/mod.rs] *)

Definition test_roundtrip (st : server) : outcome server :=
  let queue_name := B "tests_test_roundtrip" in
  let channel_name := B "channel_1" in
  let '(st, _) := call st [B "SETNX"; queue_name; channel_name] in
  let '(st, _) := call st [B "DEL"; queue_name; B "*"] in
  let test_bodies := [B "Message1 abc"; B "Message2 def"] in
  let '(st, result) := call st (B "RPUSH" :: queue_name :: test_bodies) in
  result ← from_int result;
  _ ← assert_eq result 2;
  let '(st, msgs) := call st [B "HMGET"; queue_name; channel_name; print_u64 (zlen test_bodies)] in
  msgs ← as_messages msgs;
  _ ← assert_eq (snd <$> msgs) test_bodies;
  mret st.

Definition test_config (st : server) : outcome server :=
  let '(st, msgs) := call st [B "CONFIG"; B "GET"; B "server"] in
  msgs ← from_array msgs;
  _ ← assert_eq (zlen msgs) 1;
  let '(st, result) := call st [B "CONFIG"; B "SET"; B "server.message_timeout"; B "30s"] in
  ok ← from_bool result;
  _ ← assert ok;
  mret st.

(** ** [examples/helloworld.rs] *)

Definition queue_name : list Z := B "my_queue".
Definition get_timeout : Z := 5.
Definition get_count : Z := 2.

(** Deletes the queue of an earlier run and creates it with two channels. *)
Definition setup (st : server) : outcome server :=
  let '(st, result) := call st [B "DEL"; queue_name] in
  result ← from_bool result;
  _ ← assert_eq result true;
  foldr (λ channel_name rest st,
    let '(st, result) := call st [B "SETNX"; queue_name; channel_name] in
    result ← from_bool result;
    _ ← assert_eq result true;
    rest st) mret [B "channel_1"; B "channel_2"] st.

(** A producer thread. *)
Fixpoint produce (rounds : nat) (consumer_num : Z) (st : server) : outcome server :=
  match rounds with
  | O => mret st
  | S rounds =>
      let msgs := [B "message 1 from producer " ++ print_u64 consumer_num;
                   B "message 2 from producer " ++ print_u64 consumer_num] in
      let '(st, result) := call st (B "RPUSH" :: queue_name :: msgs) in
      result ← from_int result;
      _ ← assert_eq result 2;
      produce rounds consumer_num st
  end.

(** A consumer thread, with the bodies it prints. *)
Fixpoint consume (fuel : nat) (channel_name : list Z) (received : list (list Z)) (st : server) :
    outcome (server * list (list Z)) :=
  match fuel with
  | O => Panic
  | S fuel =>
      let '(st, result) :=
        call st [B "HMGET"; queue_name; channel_name; print_u64 get_count; print_u64 get_timeout] in
      msgs ← as_messages result;
      match msgs with
      | [] => mret (st, received)
      | _ =>
          let '(st, acked) := call st (B "HDEL" :: queue_name :: channel_name :: ((λ m, print_i64 m.1.2) <$> msgs)) in
          _ ← from_int acked;
          consume fuel channel_name (received ++ (snd <$> msgs)) st
      end
  end.

(** [main] after the set-up; the replies to [INFO] and [CONFIG GET] are
    arrays of one text. *)
Definition texts (v : value) : outcome () :=
  l ← from_array v;
  text ← unwrap (l !! 0%nat);
  _ ← from_string text;
  mret ().

Definition main (rounds : nat) (st : server) : outcome (list (list (list Z))) :=
  st ← setup st;
  st ← produce rounds 0 st;
  st ← produce rounds 1 st;
  '(st, r1) ← consume (4 * rounds) (B "channel_1") [] st;
  '(st, r1') ← consume (4 * rounds) (B "channel_1") [] st;
  '(st, r2) ← consume (4 * rounds) (B "channel_2") [] st;
  _ ← texts (call st [B "INFO"; B "queues"]).2;
  _ ← texts (call st [B "INFO"; B "server"]).2;
  _ ← texts (call st [B "CONFIG"; B "GET"; B "server"]).2;
  mret [r1; r1'; r2].

End programs.

(** What a consumer that reads everything prints. *)
Definition produced (rounds : nat) : list (list Z) :=
  concat (replicate rounds [B "message 1 from producer 0"; B "message 2 from producer 0"])
  ++ concat (replicate rounds [B "message 1 from producer 1"; B "message 2 from producer 1"]).

End ClientPrograms.

Module ClientTests.
Import ClientPrograms.
#[local] Existing Instance redis_values.

(** The clients of the repository against the commands: [test_roundtrip]
    passes on a new server and again on the server it ran on, although the
    [DEL] it calls a purge is answered 0 and removes nothing; [test_config]
    passes; the example stops at its first assertion on a server without its
    queue, since the [DEL] is then answered 0, and on one that has the queue
    every channel receives every message. *)
Theorem clients_run :
  (∃ st, test_roundtrip new_server = Done st ∧ (∃ st', test_roundtrip st = Done st') ∧
    (call st [B "DEL"; B "tests_test_roundtrip"; B "*"]).2 = Value.Int 0 ∧
    commands (call st [B "DEL"; B "tests_test_roundtrip"; B "*"]).1 = commands st) ∧
  (∃ st, test_config new_server = Done st) ∧
  setup new_server = Panic ∧
  (∃ st, call new_server [B "SETNX"; queue_name; B "old"] = (st, Value.Status (B "OK")) ∧
    main 10 st = Done [produced 10; []; produced 10]).
Proof.
  split_and!.
  - eexists. split; [by vm_compute|]. split; [eexists; by vm_compute|split; by vm_compute].
  - eexists. by vm_compute.
  - by vm_compute.
  - eexists. split; [by vm_compute|by vm_compute].
Qed.

End ClientTests.
